(* ===== verification/_CoqProject ===== *)
-Q . S2P
Prelude.v
Persister.v
Serial.v
RaftNode.v
RaftLocal.v
RaftInv.v
RaftLog.v
RaftProps.v
RaftNet.v
RaftSpec.v
RaftRefine.v
RaftSafety.v
RaftCommands.v
ClientId.v
Notify.v
Service.v
Cluster.v
KVServer.v
KVProps.v
ShardConfig.v
Clerk.v
ShardCtrler.v
CtrlProps.v
CtrlCluster.v
ShardKV.v
ShardKVProps.v
ShardNet.v
ShardData.v
ShardStore.v
ShardOne.v
MrCoordinator.v
MrWorker.v
MrBeat.v
MrProps.v
MrStrings.v
MrApps.v
MrFlow.v
MrJob.v
MrWordCount.v
Bitset.v
Porcupine.v
KvModel.v
PorcLin.v
PorcHeap.v
PorcSearch.v
PorcProps.v
PorcEvents.v
PorcOps.v
KvModelProps.v
KVOrder.v
KVCluster.v
KVInv.v
KVLin.v
Visualize.v
VisualProps.v
LabGob.v
LabGobProps.v
LabRPC.v
LabRPCProps.v
Harness.v
HarnessProps.v
RaftConfig.v
RaftConfigProps.v
RaftConfigDisk.v
RaftConfigNet.v
RaftTester.v
RaftTesterProps.v
KVConfig.v
KVConfigProps.v
KVConfigNet.v
CtrlConfig.v
SKVConfig.v
SKVConfigProps.v
