(* ===== verification/Prelude.v ===== *)
(** * A verification library for the MIT 6.824 labs of this repository

    The repository holds five layers of Go code under src/src: a MapReduce (mr), the
    Raft consensus library (raft), a replicated key/value store on top of it (kvraft),
    a replicated controller of shard configurations (shardctrler) and a sharded
    key/value store (shardkv); a linearizability checker (porcupine, models) with
    which the tests judge the stores; and the simulated network on which they run them
    (labrpc, labgob).  This library translates them into executable
    definitions and proves what makes them correct.

    ** How the program is put together

    Every kvraft, shardctrler and shardkv server owns one Raft peer.  A request
    handler builds an [Op], hands it to [Start] and waits on a channel registered under
    the log index; Raft replicates the entry and sends it on [applyCh] once it is
    committed; the service's applier executes it on its state machine, guarded by a
    table of the last sequence number per client, and answers the waiting request.
    Snapshots go the other way: the service hands its encoded state to [Snapshot], and
    Raft hands a snapshot received from the leader back through [applyCh].  shardkv
    servers poll shardctrler for configurations and pull shards from each other.  The
    tests record the operations of their clients and have porcupine check them, one
    partition per key, against the sequential model of models/kv.go.  A MapReduce
    coordinator hands out map and reduce tasks; workers exchange data through files;
    the tests compare the output with that of main/mrsequential.go.

    ** How it is modelled

    - A critical section (a block that holds the mutex) is one function on the state
      record; a function that releases the lock is cut there.  Goroutines that span
      several critical sections become part of the state of a transition system
      ([node_step], [Notify.step], [Mr.step]).
    - Slices are lists indexed by [Z]; [None] as a result is a runtime panic.  Terms and
      indices are unbounded; identifiers and sequence numbers wrap as [int64] does.
    - Loops whose recursion is not structural carry fuel.  It is always enough:
      [conflictLoop], [tryCommitLoop], [backupLoop] and [collectLoop] get the distance
      between their bounds, [fillGroup] its target, [idleReduce] the number of tasks,
      [scanLines] the length of its input; the specifications ([conflict_hint],
      [commit_rule], [applier_delivers], [rebalance_balanced], [handler_answers]) are
      about the results and would fail with less.  The clerks' loops run over the list
      of outcomes the network produces.  The backtracking search of [checkSingle] has
      no simple bound: its theorems give a fuel above which the result does not change.
    - The doubly linked list of porcupine is a heap of nodes, and pointers are written as
      the code writes them; goroutines that report to a channel are the order in which
      their results arrive.
    - Timers are the duration of their last reset; clocks, random draws and RPC outcomes
      are arguments.
    - encoding/gob is the class [Codec] with the law that decoding undoes encoding;
      Serial has a lawful instance, with which the concrete runs are evaluated.  The
      order in which Go visits a map is the class [MapOrder], the one in which
      [sort.Slice] leaves equal keys is [KVSort], [EntrySort] or [PartialSort], each
      with its laws and an instance.

    ** Files

    - Prelude: slices, tactics ([breflect], [bcase], [go_inv]), quorum counting.
    - Persister (raft/persister.go), Serial (a concrete codec).
    - RaftNode (raft/raft.go): the [Raft] record and every operation.  RaftLocal: one
      peer as a transition system; persistence.  RaftInv: order of the indices, no
      panics.  RaftLog: the log by global index, [merge], [bestCommit].  RaftProps:
      the theorems about one peer.  RaftNet: a cluster over a network that loses,
      duplicates, delays and reorders; election safety.  RaftSpec: the protocol
      without messages and indices, with the invariant behind its safety.
      RaftRefine: the cluster does only what the protocol allows.  RaftSafety: what
      this gives for the cluster.  RaftCommands: its entries were submitted to [Start].
    - ClientId ([genClientId] of the three clients), Notify ([notifyChans] and the
      channels of the three servers), Service (applier, snapshots and restart shared
      by kvraft and shardkv, over the class [StateMachine]), Cluster (the Raft
      cluster with a service on every peer, without snapshots).
    - KVServer, KVProps (kvraft/server.go), Clerk (kvraft/client.go and the retry loop
      shared with shardctrler/client.go).
    - ShardConfig ([rebalance] of shardctrler/server.go), ShardCtrler, CtrlProps
      (shardctrler/server.go, client.go), CtrlCluster (all controllers together).
    - ShardKV, ShardKVProps (shardkv/server.go, client.go), ShardNet (all groups
      together, each running its own log of operations), ShardData (the entries of the
      logs traced to clerks and background goroutines, and the writes that took effect),
      ShardStore (what an entry does to the data), ShardOne (all groups are one store).
    - MrCoordinator, MrWorker, MrProps (mr/coordinator.go, rpc.go, worker.go).
      MrStrings: the text of the files and the names a pattern matches.  MrApps
      (mrapps/wc.go, indexer.go, nocrash.go, main/mrsequential.go).  MrBeat: the worker's
      loop beside its heartbeats.  MrFlow: what single
      tasks leave in the files, and the lines of the output files.  MrJob: whole jobs, with
      timeouts, failures and crashes of workers.  MrWordCount: word count end to end.
    - Bitset, Porcupine (porcupine/bitset.go, model.go, checker.go, porcupine.go), KvModel
      (models/kv.go).  PorcLin: linearizability of a history of entries.  PorcHeap: the
      linked list.  PorcSearch: the loop of [checkSingle].  PorcProps: verdicts of one
      and of all partitions.  PorcEvents: histories of events with any
      identifiers.  PorcOps: histories of operations and the textbook definition.  KvModelProps: partitions by key.  Visualize, VisualProps
      (porcupine/visualization.go).
    - KVOrder: from positions in a log to a linearization.  KVCluster: clerks, kvraft
      servers with the requests that wait in them, and their Raft peers in one step
      relation.  KVInv: its invariant.  KVLin: its histories are linearizable.
    - LabGob, LabGobProps (labgob/labgob.go): the walks over types and decode targets.
      LabRPC, LabRPCProps (labrpc/labrpc.go): the network, its servers and client ends
      as a transition system.
    - Harness, HarnessProps: what the test harnesses share: the error monad, persisters
      in files, the ends of the network.
    - RaftConfig (raft/config.go): the test harness of Raft on a network of LabRPC.
      RaftConfigProps: its search for a leader.  RaftConfigDisk: crash, restart and the
      persisters.  RaftConfigNet: who can talk to whom.  RaftTester: the cluster and the
      harness together.  RaftTesterProps: what the harness sees of the cluster.
    - KVConfig (kvraft/config.go).  KVConfigProps: the split of the servers.  KVConfigNet:
      who can talk to whom.  CtrlConfig (shardctrler/config.go): the same code with another
      [Leader].  SKVConfig, SKVConfigProps (shardkv/config.go): groups and controllers.

    ** What the theorems show

    - Raft, cluster: at most one leader per term over all runs with crashes.  In runs
      in which no service takes or installs a snapshot, the cluster refines the
      abstract protocol; logs that agree on a term agree below it; a leader has what
      was committed before; no follower cuts what it committed, so the indices stay
      ordered and nothing panics; two peers never hand different messages with the
      same index to their services, and servers that apply them are versions of one
      state machine.  The shard controller never takes snapshots, so all controllers
      have one history of configurations.
    - Raft, peer: the persister always holds the persistent state; votes and terms never
      go back; a vote is granted exactly by the rule; AppendEntries merges the leader's
      entries, is idempotent and reports a usable conflict position; the leader commits
      the highest index of its term held by a majority; indices stay ordered and
      nothing panics in runs that do not cut committed entries; the applier delivers
      the committed entries in order; compaction is invisible above the snapshot.
    - Services: a request only gets its own result; the state after [k] entries is the
      replay of the first [k] commands through snapshots and crashes, for kvraft also when
      a snapshot arrives in the middle of older commands (shardkv can diverge there:
      [late_entry_diverges]); writes take effect once per sequence number; reads see
      their log prefix; retries get the first reply; a clerk keeps one identity per
      operation; the identifiers of a process are distinct and do not overflow.
    - kvraft as a whole: whatever is lost, delayed, duplicated or crashed, the
      operations that returned are linearizable together with some of the writes in
      flight ([kv_linearizable]); when the clerks are done, [CheckOperationsVerbose] of
      porcupine, which the tests call with a timeout, does not answer [Illegal]
      ([kv_history_checked]).  Without snapshots, for clerks with distinct identities.
    - Controller: the history is append-only; Join and Leave leave a balanced
      configuration of the right groups; with given loads no assignment moves fewer
      shards; replicas agree for all map orders.
    - Shards: the states follow the design comment, one migration at a time; a client
      operation is refused or does what a plain map does; installation keeps the
      duplicate table; at most one group serves a shard when no configuration orphans
      one; then all groups together are one map to which every write is applied once,
      whatever migrates ([shards_are_one_store]).
    - MapReduce: the coordinator's counters, phases and timers; the meaning of each
      answer; termination with one live worker; a worker panics only when its loop and its
      heartbeats both close their channel; pairs survive the text format; a
      job whose workers stay in step ends with output files that have the lines of the
      sequential reference; word count counts words.
    - Checker: [CheckOperations] on the key/value model terminates and answers whether
      the history is linearizable as one store (search, cache, sorting, parallel
      partitions and locality together); [CheckEvents] answers it for a history of
      events of any model without partitions; with timeouts it still terminates, every verdict
      other than [Unknown] is right and every reported partial linearization is one; the
      visualization of a check does not panic.
    - Network: a handler runs at most once per call and on what the caller sent, a call
      succeeds only with the reply of the server its end was connected to; a deleted server never answers; every
      call comes back, and on a reliable network it succeeds; labgob's walk over types
      terminates and visits every reachable field.
    - Test harness of Raft: in runs without snapshots none of its checks fails, through
      crashes, restarts and what former instances still do; an index that [one] returns
      is an agreement for the rest of the run; [checkOneLeader] never sees two leaders
      of a term; a request gets through exactly between connected servers.
    - Test harnesses of the services: [make_partition] and [partition] put the leader in
      a minority and separate the two sides; the recorded ends of a server of the sharded
      store are on exactly while it runs, those it made itself stay on, and the controller
      is told the right groups and names.
    - Theorems that document defects: [stale_map_index], [single_server_no_leader],
      [cond_install_keeps_suffix], [execute_panics], [gc_acknowledged_early],
      [orphaned_shard_two_servers], [rebalance_extra_move], [no_partition_blocks].

    ** Not modelled

    gob (the class [Codec], in LabRPC the class of its own [Gob]); the HTML page of the
    visualization, a constant that is written to a file; the applications that crash or
    sleep on purpose; the entry points in main other than mrsequential, which parse
    arguments and start a component; the debug print of raft/util.go.  In KVCluster the
    network between clerk and server is what labrpc and the clerk's retries amount to: a
    request of a clerk may reach any server any number of times, an answer may be lost.
    Its clerks have distinct identities, which the code gets from a random draw.

    The refinement of RaftRefine is for runs without snapshots: [CondInstallSnapshot]
    keeps a suffix whose terms it does not compare, so log matching fails for such a log
    until the next AppendEntries.  Election safety, and what is proved of one peer,
    include snapshots.  The servers and clerks that a service's harness starts are outside
    of its model; for Raft, RaftTester puts the two together.

    ** Where the model is coarser than the code

    - Cluster ([sys_step]), KVCluster and RaftTester: a service takes the messages of a
      batch straight from the batch, and Raft's applier takes its next batch after the last
      one is received.  [applyCh] of kvraft and shardctrler holds 64 messages, so there
      the applier may be ahead of the service.  What it does in between ([applierTake],
      [applierDone]) writes [lastApplied] only, which without snapshots nothing else
      reads, so such a run is one of the model with these steps later.
    - RaftTester: an instance that was shut down finishes the batch it had; in the code it
      may take one more after [Kill] if it was woken from [applyCond.Wait].
    - RaftConfig ([nCommitted]) reads all logs in one state, while the code locks for each
      server.  [LabGob.checkType] is one function, while the code releases its mutex between
      marking a type and walking its parts: it is for one goroutine at a time.
    - MrWorker: a turn of a worker is a whole iteration of its loop, the call included, so
      tasks of different workers follow each other (files come into place by renames;
      a task that fails or whose worker dies may have done some of them). *)
From stdpp Require Export base tactics option list gmap strings sorting.
From Stdlib Require Export ZArith Lia.

#[global] Open Scope Z_scope.

(** ** Go slices

    A slice is a list; an index is a 64-bit [int], a [Z] here.  [None] is a
    runtime panic (index or slice bound out of range). *)

Definition zlen {A} (l : list A) : Z := Z.of_nat (length l).

(** [l[i]] *)
Definition zget {A} (l : list A) (i : Z) : option A :=
  if 0 <=? i then l !! Z.to_nat i else None.

(** [l[i] = x] *)
Definition zset {A} (l : list A) (i : Z) (x : A) : option (list A) :=
  if (0 <=? i) && (i <? zlen l) then Some (<[Z.to_nat i := x]> l) else None.

(** [l[i:]] *)
Definition slice_from {A} (l : list A) (i : Z) : option (list A) :=
  if (0 <=? i) && (i <=? zlen l) then Some (drop (Z.to_nat i) l) else None.

(** [l[:i]], for an [i] that does not reach into the spare capacity. *)
Definition slice_to {A} (l : list A) (i : Z) : option (list A) :=
  if (0 <=? i) && (i <=? zlen l) then Some (take (Z.to_nat i) l) else None.

(** [copy(dst, src)]: the new contents of [dst]. *)
Definition gocopy {A} (dst src : list A) : list A :=
  take (length dst) src ++ drop (length src) dst.

(** [for i := range l]: the indices of a slice of length [n]. *)
Definition zrange (n : nat) : list Z := Z.of_nat <$> seq 0 n.

(** ** Tactics *)

(** Turn the boolean tests of the code into arithmetic facts. *)
Ltac breflect :=
  repeat match goal with
  | H : (_ <? _) = true |- _ => apply Z.ltb_lt in H
  | H : (_ <? _) = false |- _ => apply Z.ltb_ge in H
  | H : (_ <=? _) = true |- _ => apply Z.leb_le in H
  | H : (_ <=? _) = false |- _ => apply Z.leb_gt in H
  | H : (_ =? _) = true |- _ => apply Z.eqb_eq in H
  | H : (_ =? _) = false |- _ => apply Z.eqb_neq in H
  | H : (_ && _) = true |- _ => apply andb_true_iff in H; destruct H
  | H : (_ && _) = false |- _ => apply andb_false_iff in H
  | H : (_ || _) = true |- _ => apply orb_true_iff in H
  | H : (_ || _) = false |- _ => apply orb_false_iff in H; destruct H
  | H : negb _ = true |- _ => apply negb_true_iff in H
  | H : negb _ = false |- _ => apply negb_false_iff in H
  | H : bool_decide _ = true |- _ => apply bool_decide_eq_true in H
  | H : bool_decide _ = false |- _ => apply bool_decide_eq_false in H
  end.

(** Split the next [if] of the goal (of a hypothesis) and reflect its test. *)
Ltac bcase :=
  match goal with
  | |- context [if ?b then _ else _] => destruct b eqn:?; breflect
  end.
Ltac bcase_in H :=
  match type of H with
  | context [if ?b then _ else _] => destruct b eqn:?; breflect
  end.

(** Invert an equation [prog = Some r] or [prog = (a, b)] between a program
    written with [if], [let] and the option monad and its result. *)
Ltac go_inv :=
  repeat match goal with
  | H : (if ?b then _ else _) = _ |- _ => destruct b eqn:?; breflect
  | H : mbind _ _ = Some _ |- _ =>
      apply bind_Some in H; destruct H as (? & ? & ?)
  | H : Some _ = Some _ |- _ => injection H as H; subst
  | H : (_, _) = (_, _) |- _ => injection H as H; subst
  | H : None = Some _ |- _ => discriminate H
  | H : Some _ = None |- _ => discriminate H
  end; simplify_eq.

(** ** Lemmas on slices *)

Create HintDb go.

Section slices.
Context {A : Type}.
Implicit Types (l : list A) (i : Z) (x : A).

Lemma zlen_nonneg l : 0 <= zlen l.
Proof. unfold zlen. lia. Qed.

Lemma zlen_nil : zlen (@nil A) = 0.
Proof. done. Qed.

Lemma zlen_cons x l : zlen (x :: l) = zlen l + 1.
Proof. unfold zlen. cbn. lia. Qed.

Lemma zlen_app l1 l2 : zlen (l1 ++ l2) = zlen l1 + zlen l2.
Proof. unfold zlen. rewrite length_app. lia. Qed.

Lemma zget_Some_lookup l i x : zget l i = Some x <-> 0 <= i /\ l !! Z.to_nat i = Some x.
Proof. unfold zget. bcase; split; [done|by intros []|done|lia]. Qed.

Lemma zget_Some_lt l i x : zget l i = Some x -> 0 <= i < zlen l.
Proof.
  intros [? H]%zget_Some_lookup. apply lookup_lt_Some in H. unfold zlen. lia.
Qed.

Lemma zget_is_Some l i : is_Some (zget l i) <-> 0 <= i < zlen l.
Proof.
  split; [intros [x H]; by eapply zget_Some_lt|]. intros H.
  unfold zget. bcase; [|lia]. apply lookup_lt_is_Some. unfold zlen in *. lia.
Qed.

Lemma zget_in_range l i : 0 <= i < zlen l -> exists x, zget l i = Some x.
Proof. intros H%zget_is_Some. exact H. Qed.

Lemma zget_None l i : zget l i = None <-> i < 0 \/ zlen l <= i.
Proof.
  rewrite eq_None_not_Some, zget_is_Some. lia.
Qed.

Lemma zget_app_l l1 l2 i : i < zlen l1 -> zget (l1 ++ l2) i = zget l1 i.
Proof.
  intros. unfold zget. bcase; [|done]. apply lookup_app_l. unfold zlen in *. lia.
Qed.

Lemma zget_app_r l1 l2 i : zlen l1 <= i -> zget (l1 ++ l2) i = zget l2 (i - zlen l1).
Proof.
  intros. pose proof (zlen_nonneg l1). unfold zget. do 2 (bcase; [|lia]).
  rewrite lookup_app_r by (unfold zlen in *; lia). f_equal. unfold zlen in *. lia.
Qed.

Lemma zget_drop l n i : 0 <= i -> zget (drop n l) i = zget l (Z.of_nat n + i).
Proof.
  intros. unfold zget. do 2 (bcase; [|lia]). rewrite lookup_drop. f_equal. lia.
Qed.

Lemma zget_take l n i : i < Z.of_nat n -> zget (take n l) i = zget l i.
Proof. intros. unfold zget. bcase; [|done]. apply lookup_take_lt. lia. Qed.

Lemma zlen_drop l n : zlen (drop n l) = Z.max 0 (zlen l - Z.of_nat n).
Proof. unfold zlen. rewrite length_drop. lia. Qed.

Lemma zlen_take l n : zlen (take n l) = Z.min (Z.of_nat n) (zlen l).
Proof. unfold zlen. rewrite length_take. lia. Qed.

Lemma slice_from_Some l i :
  0 <= i <= zlen l -> slice_from l i = Some (drop (Z.to_nat i) l).
Proof. intros. unfold slice_from. bcase; [done|]. lia. Qed.

Lemma slice_to_Some l i :
  0 <= i <= zlen l -> slice_to l i = Some (take (Z.to_nat i) l).
Proof. intros. unfold slice_to. bcase; [done|]. lia. Qed.

Lemma zset_Some l i x :
  0 <= i < zlen l -> zset l i x = Some (<[Z.to_nat i := x]> l).
Proof. intros. unfold zset. bcase; [done|]. lia. Qed.

Lemma zset_inv l i x l' :
  zset l i x = Some l' -> 0 <= i < zlen l /\ l' = <[Z.to_nat i := x]> l.
Proof. unfold zset. bcase; [|done]. intros [= <-]. split; [lia|done]. Qed.

Lemma zlen_insert l (n : nat) x : zlen (<[n := x]> l) = zlen l.
Proof. unfold zlen. by rewrite length_insert. Qed.

Lemma zget_insert l (n : nat) i x :
  zget (<[n := x]> l) i =
    if decide (i = Z.of_nat n /\ (n < length l)%nat) then Some x else zget l i.
Proof.
  unfold zget. bcase; case_decide as Hd; try done.
  - destruct Hd as [-> ?]. rewrite Nat2Z.id. by apply list_lookup_insert_eq.
  - destruct (decide (Z.to_nat i = n)) as [Hn|Hn].
    + subst n. rewrite list_insert_ge; [done|]. apply not_and_l in Hd. lia.
    + by apply list_lookup_insert_ne.
  - lia.
Qed.

Lemma zset_zget l i x l' j :
  zset l i x = Some l' -> zget l' j = if decide (j = i) then Some x else zget l j.
Proof.
  intros [Hi ->]%zset_inv. rewrite zget_insert. unfold zlen in Hi.
  repeat case_decide; done || lia.
Qed.

Lemma gocopy_same_length (dst src : list A) :
  length dst = length src -> gocopy dst src = src.
Proof.
  intros H. unfold gocopy. rewrite H, firstn_all, drop_ge by lia. apply app_nil_r.
Qed.

Lemma elem_of_zrange n i : i ∈ zrange n <-> 0 <= i < Z.of_nat n.
Proof.
  unfold zrange. rewrite list_elem_of_fmap. setoid_rewrite elem_of_seq. split.
  - intros (k & -> & ?). lia.
  - intros. exists (Z.to_nat i). lia.
Qed.

Lemma NoDup_zrange n : NoDup (zrange n).
Proof. apply NoDup_fmap_2; [apply _|apply NoDup_seq]. Qed.

Lemma length_zrange n : length (zrange n) = n.
Proof. unfold zrange. by rewrite length_fmap, length_seq. Qed.
End slices.

#[export] Hint Resolve zlen_nonneg : go.
Create Rewrite HintDb zlen.
#[export] Hint Rewrite @zlen_nil @zlen_cons @zlen_app @zlen_drop @zlen_take
  @zlen_insert : zlen.

(** Common prefixes, as equalities of [take]. *)
Lemma take_app_same {A} (m : nat) (l k l' : list A) :
  take m k = take m l' -> (m <= length k)%nat -> take m k = take m (l' ++ l).
Proof.
  intros E Hm. rewrite E, take_app_le; [done|].
  apply (f_equal length) in E. rewrite !length_take in E. lia.
Qed.

Lemma take_shorter {A} (m m' : nat) (l l' : list A) :
  (m <= m')%nat -> take m' l = take m' l' -> take m l = take m l'.
Proof.
  intros Hm E. apply (f_equal (take m)) in E. by rewrite !take_take, !Nat.min_l in E by lia.
Qed.

Lemma take_lookup_eq {A} (m k : nat) (l l' : list A) :
  take m l = take m l' -> (k < m)%nat -> l !! k = l' !! k.
Proof.
  intros E Hk. rewrite <- (lookup_take_lt l m), <- (lookup_take_lt l' m) by done.
  by rewrite E.
Qed.

(** Counting: two lists of distinct members of a universe of [n] elements,
    each longer than half of it, share a member. *)
Lemma quorum_intersection {A} `{EqDecision A} (U Q1 Q2 : list A) :
  NoDup Q1 -> NoDup Q2 -> Q1 ⊆ U -> Q2 ⊆ U ->
  (length U < length Q1 + length Q2)%nat ->
  exists x, x ∈ Q1 /\ x ∈ Q2.
Proof.
  intros HN1 HN2 H1 H2 Hlen.
  destruct (decide (Exists (.∈ Q2) Q1)) as [[x Hx]%Exists_exists|Hno]; [eauto|].
  exfalso. apply not_Exists_Forall in Hno; [|apply _].
  rewrite Forall_forall in Hno.
  assert (NoDup (Q1 ++ Q2)) as HN by (apply NoDup_app; naive_solver).
  assert (Q1 ++ Q2 ⊆ U) as Hsub by (intros x [?|?]%elem_of_app; auto).
  pose proof (submseteq_length _ _ (NoDup_submseteq _ _ HN Hsub)) as Hl.
  rewrite length_app in Hl. lia.
Qed.

(** The number of elements of a list that pass a test. *)
Fixpoint countb {A} (f : A -> bool) (l : list A) : Z :=
  match l with
  | [] => 0
  | x :: l => (if f x then 1 else 0) + countb f l
  end.

Section countb.
Context {A : Type}.
Implicit Types (f g : A -> bool) (l : list A).

Lemma countb_nonneg f l : 0 <= countb f l.
Proof. induction l as [|x l IH]; cbn; [lia|]. bcase; lia. Qed.

Lemma countb_filter f l : countb f l = zlen (filter f l).
Proof.
  induction l as [|x l IH]; [done|]. cbn [countb]. rewrite filter_cons, IH.
  destruct (f x) eqn:E.
  - rewrite decide_True by done. rewrite zlen_cons. lia.
  - rewrite decide_False by (by intros []). lia.
Qed.

Lemma countb_ext f g l : (forall x, x ∈ l -> f x = g x) -> countb f l = countb g l.
Proof.
  intros H. induction l as [|x l IH]; cbn; [done|].
  rewrite (H x) by constructor. rewrite IH; [done|]. intros y ?. apply H. by constructor.
Qed.

Lemma countb_app f l1 l2 : countb f (l1 ++ l2) = countb f l1 + countb f l2.
Proof. induction l1 as [|x l IH]; cbn; [done|]. rewrite IH. lia. Qed.

Lemma countb_perm f l1 l2 : l1 ≡ₚ l2 -> countb f l1 = countb f l2.
Proof. induction 1; cbn; lia. Qed.

Lemma countb_le f g l :
  (forall x, x ∈ l -> f x = true -> g x = true) -> countb f l <= countb g l.
Proof.
  intros H. induction l as [|x l IH]; cbn; [done|].
  assert (countb f l <= countb g l) as IH'.
  { apply IH. intros y ??. apply H; [by constructor|done]. }
  destruct (f x) eqn:Ef; [rewrite (H x) by (done || constructor); lia|bcase; lia].
Qed.

(** Take one element out of the count. *)
Lemma countb_remove `{EqDecision A} f l x :
  NoDup l -> x ∈ l -> f x = true ->
  countb f l = 1 + countb (fun y => bool_decide (y <> x) && f y) l.
Proof.
  intros HN Hx Hf. induction HN as [|y l Hy HN IH]; [by inv Hx|]. cbn.
  apply elem_of_cons in Hx as [<-|Hx].
  - rewrite Hf, bool_decide_eq_false_2 by naive_solver. cbn. rewrite Z.add_0_l. f_equal.
    apply countb_ext. intros z Hz. rewrite bool_decide_eq_true_2; [done|].
    intros ->. done.
  - rewrite IH by done. rewrite (bool_decide_eq_true_2 (y <> x)); [|by intros ->].
    cbn. lia.
Qed.
End countb.

(** ** Maps *)

(** The loop [for k, v := range src { dst[k] = v }], entry by entry. *)
Lemma foldl_insert_union `{Countable K} {A} (l : list (K * A)) (m : gmap K A) :
  NoDup l.*1 -> (forall p, p ∈ l -> m !! p.1 = None) ->
  foldl (fun m p => <[p.1 := p.2]> m) m l = list_to_map l ∪ m.
Proof.
  revert m. induction l as [|[k v] l IH]; intros m HN Hm; cbn; [by rewrite (left_id_L ∅ (∪))|].
  apply NoDup_cons in HN as [Hk HN]. rewrite IH; [|done|].
  - rewrite <- insert_union_l, insert_union_r; [done|]. by apply not_elem_of_list_to_map.
  - intros p Hp. rewrite lookup_insert_ne; [apply Hm; by constructor|].
    intros ->. apply Hk. change (p.1 ∈ l.*1). by apply list_elem_of_fmap_2.
Qed.

(** Copying a map into an empty one. *)
Lemma map_copy `{Countable K} {A} (m : gmap K A) :
  foldl (fun m p => <[p.1 := p.2]> m) ∅ (map_to_list m) = m.
Proof.
  rewrite foldl_insert_union, list_to_map_to_list, (right_id_L ∅ (∪)); [done| |].
  - apply NoDup_fst_map_to_list.
  - intros p _. apply lookup_empty.
Qed.

(** ** Strings in byte order, as [sort.Strings] sorts them *)
Definition string_le (a b : string) : Prop := String.leb a b = true.
#[export] Instance string_le_dec : RelDecision string_le.
Proof. intros a b. exact (decide ((a <=? b)%string = true)). Defined.
