(* ===== verification/Persister.v ===== *)
(** * Persister (src/src/raft/persister.go) and the gob codec it is fed with

    [Persister] holds what survives a crash: the encoded Raft state and the
    encoded snapshot.  The bytes come from [encoding/gob] (through the wrapper
    src/src/labgob/labgob.go), which is not part of the repository: [Codec] is the
    interface the code uses and [CodecLaws] what it relies on.  Serial.v
    has a concrete codec that satisfies the laws. *)
From S2P Require Import Prelude.

Abbreviation bytes := (list Byte.byte).

(** ** The codec interface *)

(** Encoding a value (a sequence of [Encode] calls on one buffer) and decoding
    it again (the [Decode] calls; [None] when one of them returns an error). *)
Class Codec (A : Type) := {
  enc : A -> bytes;
  dec : bytes -> option A;
}.

(** What the callers rely on: a value that was encoded decodes to itself, and no
    encoding is empty. *)
Class CodecLaws (A : Type) `{!Codec A} : Prop := {
  dec_enc : forall x : A, dec (enc x) = Some x;
  enc_nonempty : forall x : A, enc x <> [];
}.

Module Persister.
Record t := mk { raftstate : bytes; snapshot : bytes }.

(** [MakePersister] *)
Definition MakePersister : t := {| raftstate := []; snapshot := [] |}.

Definition clone (orig : bytes) : bytes :=
  let x := replicate (length orig) Byte.x00 in
  gocopy x orig.

Definition Copy (ps : t) : t :=
  {| raftstate := raftstate ps; snapshot := snapshot ps |}.

Definition SaveRaftState (state : bytes) (ps : t) : t :=
  {| raftstate := clone state; snapshot := snapshot ps |}.

Definition ReadRaftState (ps : t) : bytes := clone (raftstate ps).

Definition RaftStateSize (ps : t) : Z := zlen (raftstate ps).

Definition SaveStateAndSnapshot (state snap : bytes) (ps : t) : t :=
  {| raftstate := clone state; snapshot := clone snap |}.

Definition ReadSnapshot (ps : t) : bytes := clone (snapshot ps).

Definition SnapshotSize (ps : t) : Z := zlen (snapshot ps).

Lemma clone_id b : clone b = b.
Proof. unfold clone. apply gocopy_same_length, length_replicate. Qed.

Lemma ReadSnapshot_Save state snap ps :
  ReadSnapshot (SaveStateAndSnapshot state snap ps) = snap.
Proof. unfold ReadSnapshot, SaveStateAndSnapshot. cbn [snapshot]. by rewrite !clone_id. Qed.
End Persister.

Create Rewrite HintDb persister.
#[export] Hint Rewrite Persister.clone_id : persister.
