(* ===== verification/Serial.v ===== *)
(** * A concrete codec

    A small self-delimiting serialization for the types the services persist.  It
    is not gob's format; it shows that the codec laws the theorems assume can be
    met, and it lets the concrete runs of the development be evaluated. *)
From S2P Require Import Prelude Persister.

Module Serial.

(** [put] writes a value, [get] reads one off the front of a buffer. *)
Class Ser (A : Type) := {
  put : A -> bytes;
  get : bytes -> option (A * bytes);
}.

Class SerLaws (A : Type) `{!Ser A} : Prop :=
  get_put : forall (a : A) rest, get (put a ++ rest) = Some (a, rest).

(** ** Numbers: one byte per bit, low bit first *)
Fixpoint put_pos (p : positive) : bytes :=
  match p with
  | xH => [Byte.x02]
  | xO p => Byte.x00 :: put_pos p
  | xI p => Byte.x01 :: put_pos p
  end.

Fixpoint get_pos (b : bytes) : option (positive * bytes) :=
  match b with
  | Byte.x02 :: b => Some (xH, b)
  | Byte.x00 :: b => '(p, b) ← get_pos b; Some (xO p, b)
  | Byte.x01 :: b => '(p, b) ← get_pos b; Some (xI p, b)
  | _ => None
  end.

Lemma get_put_pos p rest : get_pos (put_pos p ++ rest) = Some (p, rest).
Proof. induction p as [p IH|p IH|]; cbn; [by rewrite IH|by rewrite IH|done]. Qed.

#[global] Instance ser_Z : Ser Z := {
  put z := match z with
           | Z0 => [Byte.x00]
           | Zpos p => Byte.x01 :: put_pos p
           | Zneg p => Byte.x02 :: put_pos p
           end;
  get b := match b with
           | Byte.x00 :: b => Some (Z0, b)
           | Byte.x01 :: b => '(p, b) ← get_pos b; Some (Zpos p, b)
           | Byte.x02 :: b => '(p, b) ← get_pos b; Some (Zneg p, b)
           | _ => None
           end;
}.
#[global] Instance ser_Z_laws : SerLaws Z.
Proof. intros [|p|p] rest; cbn; [done|by rewrite get_put_pos..]. Qed.

(** ** Pairs, lists and strings *)
#[global] Instance ser_prod {A B} `{!Ser A, !Ser B} : Ser (A * B) := {
  put p := put p.1 ++ put p.2;
  get b := '(x, b) ← get b; '(y, b) ← get b; Some ((x, y), b);
}.
#[global] Instance ser_prod_laws {A B} `{!Ser A, !SerLaws A, !Ser B, !SerLaws B} :
  SerLaws (A * B).
Proof. intros [x y] rest. cbn. rewrite <- (assoc_L (++)), get_put. cbn. by rewrite get_put. Qed.

Section lists.
Context {A : Type} `{!Ser A}.
Fixpoint put_list (l : list A) : bytes :=
  match l with
  | [] => [Byte.x00]
  | x :: l => Byte.x01 :: put x ++ put_list l
  end.

Fixpoint get_list (fuel : nat) (b : bytes) : option (list A * bytes) :=
  match fuel, b with
  | S _, Byte.x00 :: b => Some ([], b)
  | S fuel, Byte.x01 :: b =>
      '(x, b) ← get b; '(l, b) ← get_list fuel b; Some (x :: l, b)
  | _, _ => None
  end.

Lemma get_put_list `{!SerLaws A} l fuel rest :
  (length (put_list l) <= fuel)%nat -> get_list fuel (put_list l ++ rest) = Some (l, rest).
Proof.
  revert fuel. induction l as [|x l IH]; intros [|fuel] Hf; cbn in *; try lia; [done|].
  rewrite length_app in Hf.
  rewrite <- (assoc_L (++)), get_put. cbn. rewrite IH by lia. done.
Qed.
End lists.

#[global] Instance ser_list {A} `{!Ser A} : Ser (list A) := {
  put := put_list;
  get b := get_list (length b) b;
}.
#[global] Instance ser_list_laws {A} `{!Ser A, !SerLaws A} : SerLaws (list A).
Proof. intros l rest. cbn. apply get_put_list. rewrite length_app. lia. Qed.

(** A type that embeds into a serializable one. *)
Definition ser_via {A B} `{!Ser B} (f : A -> B) (g : B -> A) : Ser A := {|
  put a := put (f a);
  get b := '(x, b) ← get b; Some (g x, b);
|}.
Lemma ser_via_laws {A B} `{!Ser B, !SerLaws B} (f : A -> B) (g : B -> A) :
  (forall a, g (f a) = a) -> @SerLaws A (ser_via f g).
Proof. intros H a rest. cbn. rewrite get_put. cbn. by rewrite H. Qed.

#[global] Instance ser_byte : Ser Byte.byte := {
  put b := [b];
  get b := match b with x :: b => Some (x, b) | [] => None end;
}.
#[global] Instance ser_byte_laws : SerLaws Byte.byte.
Proof. done. Qed.

#[global] Instance ser_string : Ser string :=
  ser_via String.list_byte_of_string String.string_of_list_byte.
#[global] Instance ser_string_laws : SerLaws string.
Proof. apply ser_via_laws, String.string_of_list_byte_of_string. Qed.

#[global] Instance ser_gmap {K V} `{Countable K, !Ser K, !Ser V} : Ser (gmap K V) :=
  ser_via map_to_list (list_to_map : list (K * V) -> gmap K V).
#[global] Instance ser_gmap_laws {K V}
    `{Countable K, !Ser K, !SerLaws K, !Ser V, !SerLaws V} : SerLaws (gmap K V).
Proof. apply ser_via_laws, list_to_map_to_list. Qed.

(** ** The codec *)
Definition codec (A : Type) `{!Ser A} : Codec A := {|
  enc a := Byte.x07 :: put a;
  dec b := match b with
           | Byte.x07 :: b => match get b with Some (a, []) => Some a | _ => None end
           | _ => None
           end;
|}.

Lemma codec_laws (A : Type) `{!Ser A, !SerLaws A} : @CodecLaws A (codec A).
Proof.
  split; intros a; cbn; [|done]. by rewrite <- (app_nil_r (put a)), get_put.
Qed.
End Serial.
