(* ===== verification/RaftNode.v ===== *)
(** * One Raft peer (src/src/raft/raft.go): data and operations

    Every block of raft.go that runs under [rf.mu] is one definition here, on
    the state record [Raft]; a call that leaves the lock (an RPC, a send on
    [applyCh]) splits the function into the blocks before and after it.  The
    operations that index slices return [option]: [None] is a runtime panic.
    [C] is the type of the commands ([interface{}] in the source). *)
From S2P Require Import Prelude Persister Serial.

(** ** Constants (raft.go 13-23) *)

Inductive RaftState := StateFollower | StateCandidate | StateLeader.

#[export] Instance RaftState_eq_dec : EqDecision RaftState.
Proof. solve_decision. Defined.

Definition HeartbeatInterval : Z := 100.
Definition ElectionTimeoutMin : Z := 300.
Definition ElectionTimeoutMax : Z := 500.

(** ** Data *)

Record ApplyMsg (C : Type) := {
  CommandValid : bool;
  Command : option C;
  CommandIndex : Z;
  SnapshotValid : bool;
  Snapshot_ : bytes;
  SnapshotTerm : Z;
  SnapshotIndex : Z;
}.
Arguments CommandValid {C} _.
Arguments Command {C} _.
Arguments CommandIndex {C} _.
Arguments SnapshotValid {C} _.
Arguments Snapshot_ {C} _.
Arguments SnapshotTerm {C} _.
Arguments SnapshotIndex {C} _.

Record LogEntry (C : Type) := Entry { le_Term : Z; le_Command : C }.
Arguments Entry {C} _ _.
Arguments le_Term {C} _.
Arguments le_Command {C} _.

(** What [persist] encodes and [readPersist] decodes, field by field. *)
Record RaftPersist (C : Type) := {
  rp_currentTerm : Z;
  rp_votedFor : Z;
  rp_log : list (LogEntry C);
  rp_lastIncludedIndex : Z;
  rp_lastIncludedTerm : Z;
}.
Arguments Build_RaftPersist {C} _ _ _ _ _.
Arguments rp_currentTerm {C} _.
Arguments rp_votedFor {C} _.
Arguments rp_log {C} _.
Arguments rp_lastIncludedIndex {C} _.
Arguments rp_lastIncludedTerm {C} _.

(** Serializable commands give serializable states. *)
#[export] Instance LogEntry_ser `{!Serial.Ser C} : Serial.Ser (LogEntry C) :=
  Serial.ser_via (fun e => (le_Term e, le_Command e)) (fun p => Entry p.1 p.2).
#[export] Instance LogEntry_ser_laws `{!Serial.Ser C, !Serial.SerLaws C} :
  Serial.SerLaws (LogEntry C).
Proof. apply Serial.ser_via_laws. by intros []. Qed.
#[export] Instance RaftPersist_ser `{!Serial.Ser C} : Serial.Ser (RaftPersist C) :=
  Serial.ser_via
    (fun p => (rp_currentTerm p, rp_votedFor p, rp_log p, rp_lastIncludedIndex p,
               rp_lastIncludedTerm p))
    (fun '(a, b, c, d, e) => Build_RaftPersist a b c d e).
#[export] Instance RaftPersist_ser_laws `{!Serial.Ser C, !Serial.SerLaws C} :
  Serial.SerLaws (RaftPersist C).
Proof. apply Serial.ser_via_laws. by intros []. Qed.

(** The [Raft] struct.  [peers] is known by its length.  The two timers are the
    duration (ms) of their last [Reset]; [waiting] says that the applier
    goroutine sleeps in [applyCond.Wait()]. *)
Record Raft (C : Type) := {
  peers : nat;
  persister : Persister.t;
  me : Z;
  dead : bool;
  state : RaftState;
  currentTerm : Z;
  votedFor : Z;
  log : list (LogEntry C);
  lastIncludedIndex : Z;
  lastIncludedTerm : Z;
  commitIndex : Z;
  lastApplied : Z;
  nextIndex : list Z;
  matchIndex : list Z;
  electionTimer : Z;
  heartbeatTimer : Z;
  waiting : bool;
}.
Arguments peers {C} _.
Arguments persister {C} _.
Arguments me {C} _.
Arguments dead {C} _.
Arguments state {C} _.
Arguments currentTerm {C} _.
Arguments votedFor {C} _.
Arguments log {C} _.
Arguments lastIncludedIndex {C} _.
Arguments lastIncludedTerm {C} _.
Arguments commitIndex {C} _.
Arguments lastApplied {C} _.
Arguments nextIndex {C} _.
Arguments matchIndex {C} _.
Arguments electionTimer {C} _.
Arguments heartbeatTimer {C} _.
Arguments waiting {C} _.

Record RequestVoteArgs := {
  rva_Term : Z;
  rva_CandidateId : Z;
  rva_LastLogIndex : Z;
  rva_LastLogTerm : Z;
}.

Record RequestVoteReply := { rvr_Term : Z; rvr_VoteGranted : bool }.

Record AppendEntriesArgs (C : Type) := {
  ae_Term : Z;
  ae_LeaderId : Z;
  ae_PrevLogIndex : Z;
  ae_PrevLogTerm : Z;
  ae_Entries : list (LogEntry C);
  ae_LeaderCommit : Z;
}.
Arguments Build_AppendEntriesArgs {C} _ _ _ _ _ _.
Arguments ae_Term {C} _.
Arguments ae_LeaderId {C} _.
Arguments ae_PrevLogIndex {C} _.
Arguments ae_PrevLogTerm {C} _.
Arguments ae_Entries {C} _.
Arguments ae_LeaderCommit {C} _.

Record AppendEntriesReply := {
  aer_Term : Z;
  aer_Success : bool;
  aer_ConflictTerm : Z;
  aer_ConflictIndex : Z;
}.

Record InstallSnapshotArgs := {
  is_Term : Z;
  is_LeaderId : Z;
  is_LastIncludedIndex : Z;
  is_LastIncludedTerm : Z;
  is_Data : bytes;
}.

Record InstallSnapshotReply := { isr_Term : Z }.

(** ** Field updates *)
Section setters.
Context {C : Type}.
Implicit Types rf : Raft C.

Definition with_state s rf : Raft C :=
  {| peers := peers rf; persister := persister rf; me := me rf; dead := dead rf;
     state := s; currentTerm := currentTerm rf; votedFor := votedFor rf;
     log := log rf; lastIncludedIndex := lastIncludedIndex rf;
     lastIncludedTerm := lastIncludedTerm rf; commitIndex := commitIndex rf;
     lastApplied := lastApplied rf; nextIndex := nextIndex rf;
     matchIndex := matchIndex rf; electionTimer := electionTimer rf;
     heartbeatTimer := heartbeatTimer rf; waiting := waiting rf |}.

(** The persistent fields together. *)
Definition with_persistent (p : RaftPersist C) rf : Raft C :=
  {| peers := peers rf; persister := persister rf; me := me rf; dead := dead rf;
     state := state rf; currentTerm := rp_currentTerm p;
     votedFor := rp_votedFor p; log := rp_log p;
     lastIncludedIndex := rp_lastIncludedIndex p;
     lastIncludedTerm := rp_lastIncludedTerm p; commitIndex := commitIndex rf;
     lastApplied := lastApplied rf; nextIndex := nextIndex rf;
     matchIndex := matchIndex rf; electionTimer := electionTimer rf;
     heartbeatTimer := heartbeatTimer rf; waiting := waiting rf |}.

Definition persistent rf : RaftPersist C :=
  Build_RaftPersist (currentTerm rf) (votedFor rf) (log rf)
    (lastIncludedIndex rf) (lastIncludedTerm rf).

Definition with_currentTerm x rf :=
  with_persistent (Build_RaftPersist x (votedFor rf) (log rf)
    (lastIncludedIndex rf) (lastIncludedTerm rf)) rf.
Definition with_votedFor x rf :=
  with_persistent (Build_RaftPersist (currentTerm rf) x (log rf)
    (lastIncludedIndex rf) (lastIncludedTerm rf)) rf.
Definition with_log x rf :=
  with_persistent (Build_RaftPersist (currentTerm rf) (votedFor rf) x
    (lastIncludedIndex rf) (lastIncludedTerm rf)) rf.
Definition with_lastIncludedIndex x rf :=
  with_persistent (Build_RaftPersist (currentTerm rf) (votedFor rf) (log rf)
    x (lastIncludedTerm rf)) rf.
Definition with_lastIncludedTerm x rf :=
  with_persistent (Build_RaftPersist (currentTerm rf) (votedFor rf) (log rf)
    (lastIncludedIndex rf) x) rf.

(** The volatile indices together. *)
Definition with_indices ci la ni mi rf : Raft C :=
  {| peers := peers rf; persister := persister rf; me := me rf; dead := dead rf;
     state := state rf; currentTerm := currentTerm rf; votedFor := votedFor rf;
     log := log rf; lastIncludedIndex := lastIncludedIndex rf;
     lastIncludedTerm := lastIncludedTerm rf; commitIndex := ci;
     lastApplied := la; nextIndex := ni; matchIndex := mi;
     electionTimer := electionTimer rf; heartbeatTimer := heartbeatTimer rf;
     waiting := waiting rf |}.

Definition with_commitIndex x rf :=
  with_indices x (lastApplied rf) (nextIndex rf) (matchIndex rf) rf.
Definition with_lastApplied x rf :=
  with_indices (commitIndex rf) x (nextIndex rf) (matchIndex rf) rf.
Definition with_nextIndex x rf :=
  with_indices (commitIndex rf) (lastApplied rf) x (matchIndex rf) rf.
Definition with_matchIndex x rf :=
  with_indices (commitIndex rf) (lastApplied rf) (nextIndex rf) x rf.

(** Timers, the applier's condition variable, the kill flag, the persister. *)
Definition with_aux ps d et ht w rf : Raft C :=
  {| peers := peers rf; persister := ps; me := me rf; dead := d;
     state := state rf; currentTerm := currentTerm rf; votedFor := votedFor rf;
     log := log rf; lastIncludedIndex := lastIncludedIndex rf;
     lastIncludedTerm := lastIncludedTerm rf; commitIndex := commitIndex rf;
     lastApplied := lastApplied rf; nextIndex := nextIndex rf;
     matchIndex := matchIndex rf; electionTimer := et; heartbeatTimer := ht;
     waiting := w |}.

Definition with_persister x rf :=
  with_aux x (dead rf) (electionTimer rf) (heartbeatTimer rf) (waiting rf) rf.
Definition with_electionTimer x rf :=
  with_aux (persister rf) (dead rf) x (heartbeatTimer rf) (waiting rf) rf.
Definition with_heartbeatTimer x rf :=
  with_aux (persister rf) (dead rf) (electionTimer rf) x (waiting rf) rf.
Definition with_waiting x rf :=
  with_aux (persister rf) (dead rf) (electionTimer rf) (heartbeatTimer rf) x rf.
Definition with_dead x rf :=
  with_aux (persister rf) x (electionTimer rf) (heartbeatTimer rf) (waiting rf) rf.
End setters.

(** ** Operations *)
Section raft.
Context {C : Type} `{!Codec (RaftPersist C)}.
Implicit Types rf : Raft C.

(** *** Helpers (raft.go 70-108) *)

(** [r] is the draw of [rand.Intn(ElectionTimeoutMax-ElectionTimeoutMin)]. *)
Definition randomElectionTimeout (r : Z) : Z := ElectionTimeoutMin + r.

Definition toSliceIndex rf (globalIndex : Z) : Z :=
  globalIndex - lastIncludedIndex rf - 1.

Definition lastLogIndex rf : Z := lastIncludedIndex rf + zlen (log rf).

(** The index [len(rf.log)-1] is in range when the log is not empty. *)
Definition lastLogTerm rf : Z :=
  match last (log rf) with
  | None => lastIncludedTerm rf
  | Some e => le_Term e
  end.

Definition termAt rf (globalIndex : Z) : Z :=
  if globalIndex =? lastIncludedIndex rf then lastIncludedTerm rf
  else if globalIndex <? lastIncludedIndex rf then -1
  else
    let sliceIdx := toSliceIndex rf globalIndex in
    if (sliceIdx <? 0) || (zlen (log rf) <=? sliceIdx) then -1
    else match zget (log rf) sliceIdx with Some e => le_Term e | None => -1 end.

Definition GetState rf : Z * bool :=
  (currentTerm rf, bool_decide (state rf = StateLeader)).

Definition resetElectionTimer (r : Z) rf : Raft C :=
  with_electionTimer (randomElectionTimeout r) rf.

(** [applyCond.Signal()]: the applier, if it sleeps, wakes up. *)
Definition signal rf : Raft C := with_waiting false rf.

(** *** Persistence (raft.go 118-157) *)

Definition persist rf : Raft C :=
  with_persister (Persister.SaveRaftState (enc (persistent rf)) (persister rf)) rf.

(** The encode-and-[SaveStateAndSnapshot] block shared by [CondInstallSnapshot]
    and [Snapshot]. *)
Definition persistWithSnapshot (snap : bytes) rf : Raft C :=
  with_persister
    (Persister.SaveStateAndSnapshot (enc (persistent rf)) snap (persister rf)) rf.

Definition readPersist (data : bytes) rf : Raft C :=
  if zlen data <? 1 then rf
  else match dec data with
  | None => rf
  | Some p =>
      let rf := with_persistent p rf in
      let rf := with_commitIndex (rp_lastIncludedIndex p) rf in
      with_lastApplied (rp_lastIncludedIndex p) rf
  end.

(** *** Snapshots (raft.go 159-216) *)

Definition CondInstallSnapshot (snapTerm snapIndex : Z) (snap : bytes) rf :
    option (Raft C * bool) :=
  if snapIndex <=? commitIndex rf then Some (rf, false)
  else
    rf ← (if snapIndex <=? lastLogIndex rf then
            let sliceIdx := toSliceIndex rf snapIndex in
            l ← slice_from (log rf) (sliceIdx + 1);
            Some (with_log l rf)
          else Some (with_log [] rf));
    let rf := with_lastIncludedIndex snapIndex rf in
    let rf := with_lastIncludedTerm snapTerm rf in
    let rf := with_commitIndex snapIndex rf in
    let rf := with_lastApplied snapIndex rf in
    Some (persistWithSnapshot snap rf, true).

Definition Snapshot (index : Z) (snap : bytes) rf : option (Raft C) :=
  if index <=? lastIncludedIndex rf then Some rf
  else
    let sliceIdx := toSliceIndex rf index in
    e ← zget (log rf) sliceIdx;
    l ← slice_from (log rf) (sliceIdx + 1);
    let rf := with_lastIncludedTerm (le_Term e) rf in
    let rf := with_log l rf in
    let rf := with_lastIncludedIndex index rf in
    Some (persistWithSnapshot snap rf).

(** *** Elections (raft.go 218-345) *)

Definition isMoreUpToDate rf (llIndex llTerm : Z) : bool :=
  let myLastTerm := lastLogTerm rf in
  let myLastIndex := lastLogIndex rf in
  if negb (llTerm =? myLastTerm) then myLastTerm <? llTerm
  else myLastIndex <=? llIndex.

(** The block repeated at raft.go 255-260, 308-313, 537-542 and 584-589: a
    higher term turns the peer into a follower that has not voted. *)
Definition stepDown (term : Z) rf : Raft C :=
  persist (with_votedFor (-1) (with_state StateFollower (with_currentTerm term rf))).

(** The end of [RequestVote], at the candidate's term (raft.go 262-271). *)
Definition decideVote (r : Z) (args : RequestVoteArgs) rf :
    Raft C * RequestVoteReply :=
  let canVote := (votedFor rf =? -1) || (votedFor rf =? rva_CandidateId args) in
  if canVote && isMoreUpToDate rf (rva_LastLogIndex args) (rva_LastLogTerm args)
  then (resetElectionTimer r (persist (with_votedFor (rva_CandidateId args) rf)),
        {| rvr_Term := currentTerm rf; rvr_VoteGranted := true |})
  else (rf, {| rvr_Term := currentTerm rf; rvr_VoteGranted := false |}).

Definition RequestVote (r : Z) (args : RequestVoteArgs) rf :
    Raft C * RequestVoteReply :=
  if rva_Term args <? currentTerm rf then
    (rf, {| rvr_Term := currentTerm rf; rvr_VoteGranted := false |})
  else if currentTerm rf <? rva_Term args then
    decideVote r args (stepDown (rva_Term args) rf)
  else decideVote r args rf.

(** [startElection] up to the goroutines: the new state and the arguments every
    goroutine sends.  The closure variable [votes] starts at 1. *)
Definition startElection (r : Z) rf : Raft C * RequestVoteArgs :=
  let rf := with_state StateCandidate rf in
  let rf := with_currentTerm (currentTerm rf + 1) rf in
  let rf := persist (with_votedFor (me rf) rf) in
  let rf := resetElectionTimer r rf in
  (rf, {| rva_Term := currentTerm rf; rva_CandidateId := me rf;
          rva_LastLogIndex := lastLogIndex rf; rva_LastLogTerm := lastLogTerm rf |}).

(** [for peer := range rf.peers], without [rf.me]. *)
Definition otherPeers rf : list Z := filter (fun p => p <> me rf) (zrange (peers rf)).

Definition majority rf : Z := Z.of_nat (peers rf) / 2 + 1.

(** The loop of [becomeLeader] over the peers [ps]. *)
Fixpoint initIndices (ps : list Z) rf : option (Raft C) :=
  match ps with
  | [] => Some rf
  | i :: ps =>
      ni ← zset (nextIndex rf) i (lastLogIndex rf + 1);
      mi ← zset (matchIndex rf) i 0;
      initIndices ps (with_matchIndex mi (with_nextIndex ni rf))
  end.

Definition becomeLeader rf : option (Raft C) :=
  let rf := with_state StateLeader rf in
  rf ← initIndices (zrange (peers rf)) rf;
  mi ← zset (matchIndex rf) (me rf) (lastLogIndex rf);
  Some (with_heartbeatTimer 0 (with_matchIndex mi rf)).

(** The goroutine of [startElection] once its RPC returned; [votes] is the
    election's shared counter. *)
Definition voteReply (args : RequestVoteArgs) (reply : RequestVoteReply)
    (votes : Z) rf : option (Raft C * Z) :=
  if currentTerm rf <? rvr_Term reply then Some (stepDown (rvr_Term reply) rf, votes)
  else if negb (bool_decide (state rf = StateCandidate))
          || negb (currentTerm rf =? rva_Term args) then Some (rf, votes)
  else if rvr_VoteGranted reply then
    let votes := votes + 1 in
    if majority rf <=? votes then rf ← becomeLeader rf; Some (rf, votes)
    else Some (rf, votes)
  else Some (rf, votes).

(** *** AppendEntries, the follower's side (raft.go 366-447) *)

(** The loop that looks for the first index of the conflicting term; [fuel]
    bounds its iterations. *)
Fixpoint conflictLoop (fuel : nat) rf (conflictTerm idx : Z) : Z :=
  match fuel with
  | O => idx
  | S fuel =>
      if (lastIncludedIndex rf <? idx) && (termAt rf (idx - 1) =? conflictTerm)
      then conflictLoop fuel rf conflictTerm (idx - 1)
      else idx
  end.

Definition conflictIndex rf (prev : Z) : Z :=
  conflictLoop (Z.to_nat (prev - lastIncludedIndex rf)) rf (termAt rf prev) prev.

(** The loop over [args.Entries]; [entries] is the suffix [args.Entries[i:]]. *)
Fixpoint appendLoop (prev i : Z) (entries : list (LogEntry C)) rf :
    option (Raft C) :=
  match entries with
  | [] => Some rf
  | entry :: rest =>
      let globalIdx := prev + 1 + i in
      if globalIdx <=? lastIncludedIndex rf then appendLoop prev (i + 1) rest rf
      else
        let sliceIdx := toSliceIndex rf globalIdx in
        if sliceIdx <? zlen (log rf) then
          cur ← zget (log rf) sliceIdx;
          if negb (le_Term cur =? le_Term entry) then
            l ← slice_to (log rf) sliceIdx;
            Some (with_log (l ++ entries) rf)
          else appendLoop prev (i + 1) rest rf
        else Some (with_log (log rf ++ entries) rf)
  end.

(** A leader of a term not below ours: follow it (raft.go 377-384, 478-484). *)
Definition followLeader (r term : Z) rf : Raft C :=
  let rf := if currentTerm rf <? term
            then persist (with_votedFor (-1) (with_currentTerm term rf))
            else rf in
  resetElectionTimer r (with_state StateFollower rf).

(** [AppendEntries] from the consistency check on (raft.go 387-446). *)
Definition appendChecked (args : AppendEntriesArgs C) rf :
    option (Raft C * AppendEntriesReply) :=
  let term := currentTerm rf in
  let prev := ae_PrevLogIndex args in
  if prev <? lastIncludedIndex rf then
    Some (rf, {| aer_Term := term; aer_Success := false; aer_ConflictTerm := -1;
                 aer_ConflictIndex := lastIncludedIndex rf + 1 |})
  else if lastLogIndex rf <? prev then
    Some (rf, {| aer_Term := term; aer_Success := false; aer_ConflictTerm := -1;
                 aer_ConflictIndex := lastLogIndex rf + 1 |})
  else if negb (termAt rf prev =? ae_PrevLogTerm args) then
    Some (rf, {| aer_Term := term; aer_Success := false;
                 aer_ConflictTerm := termAt rf prev;
                 aer_ConflictIndex := conflictIndex rf prev |})
  else
    rf ← appendLoop prev 0 (ae_Entries args) rf;
    let rf := persist rf in
    let rf := if commitIndex rf <? ae_LeaderCommit args then
                let newCommit := if lastLogIndex rf <? ae_LeaderCommit args
                                 then lastLogIndex rf else ae_LeaderCommit args in
                signal (with_commitIndex newCommit rf)
              else rf in
    Some (rf, {| aer_Term := term; aer_Success := true; aer_ConflictTerm := 0;
                 aer_ConflictIndex := 0 |}).

Definition AppendEntries (r : Z) (args : AppendEntriesArgs C) rf :
    option (Raft C * AppendEntriesReply) :=
  if ae_Term args <? currentTerm rf then
    Some (rf, {| aer_Term := currentTerm rf; aer_Success := false;
                 aer_ConflictTerm := 0; aer_ConflictIndex := 0 |})
  else appendChecked args (followLeader r (ae_Term args) rf).

(** *** InstallSnapshot, the follower's side (raft.go 468-500) *)

(** The third component is the message the spawned goroutine sends on
    [applyCh], if any. *)
Definition InstallSnapshot (r : Z) (args : InstallSnapshotArgs) rf :
    Raft C * InstallSnapshotReply * option (ApplyMsg C) :=
  if is_Term args <? currentTerm rf then
    (rf, {| isr_Term := currentTerm rf |}, None)
  else
    let rf := followLeader r (is_Term args) rf in
    let reply := {| isr_Term := currentTerm rf |} in
    if is_LastIncludedIndex args <=? lastIncludedIndex rf then (rf, reply, None)
    else (rf, reply,
          Some {| CommandValid := false; Command := None; CommandIndex := 0;
                  SnapshotValid := true; Snapshot_ := is_Data args;
                  SnapshotTerm := is_LastIncludedTerm args;
                  SnapshotIndex := is_LastIncludedIndex args |}).

(** *** The leader's side of replication (raft.go 509-642) *)

(** The inner loop of [tryCommit]: the peers whose [matchIndex] covers [n]. *)
Fixpoint countMatch (ps : list Z) (n count : Z) rf : option Z :=
  match ps with
  | [] => Some count
  | p :: ps =>
      if p =? me rf then countMatch ps n count rf
      else m ← zget (matchIndex rf) p;
           countMatch ps n (if n <=? m then count + 1 else count) rf
  end.

(** The outer loop, from [n] down to [commitIndex + 1]. *)
Fixpoint tryCommitLoop (fuel : nat) (n : Z) rf : option (Raft C) :=
  match fuel with
  | O => Some rf
  | S fuel =>
      if n <=? commitIndex rf then Some rf
      else if negb (termAt rf n =? currentTerm rf) then tryCommitLoop fuel (n - 1) rf
      else
        count ← countMatch (zrange (peers rf)) n 1 rf;
        if Z.of_nat (peers rf) / 2 <? count then Some (signal (with_commitIndex n rf))
        else tryCommitLoop fuel (n - 1) rf
  end.

Definition tryCommit rf : option (Raft C) :=
  tryCommitLoop (Z.to_nat (lastLogIndex rf - commitIndex rf)) (lastLogIndex rf) rf.

(** What [replicateTo] sends before it gives up the lock. *)
Inductive Replication :=
  | NoReplication
  | SendInstallSnapshot (args : InstallSnapshotArgs)
  | SendAppendEntries (args : AppendEntriesArgs C).

Definition replicateTo (peer : Z) rf : option Replication :=
  if negb (bool_decide (state rf = StateLeader)) then Some NoReplication
  else
    nextIdx ← zget (nextIndex rf) peer;
    if nextIdx <=? lastIncludedIndex rf then
      Some (SendInstallSnapshot
        {| is_Term := currentTerm rf; is_LeaderId := me rf;
           is_LastIncludedIndex := lastIncludedIndex rf;
           is_LastIncludedTerm := lastIncludedTerm rf;
           is_Data := Persister.ReadSnapshot (persister rf) |})
    else
      let prevLogIndex := nextIdx - 1 in
      let prevLogTerm := termAt rf prevLogIndex in
      entries ← (if nextIdx <=? lastLogIndex rf
                 then slice_from (log rf) (toSliceIndex rf nextIdx)
                 else Some []);
      Some (SendAppendEntries
        {| ae_Term := currentTerm rf; ae_LeaderId := me rf;
           ae_PrevLogIndex := prevLogIndex; ae_PrevLogTerm := prevLogTerm;
           ae_Entries := entries; ae_LeaderCommit := commitIndex rf |}).

(** [replicateTo] after the InstallSnapshot RPC returned (raft.go 535-553). *)
Definition installSnapshotReply (peer : Z) (args : InstallSnapshotArgs)
    (reply : InstallSnapshotReply) rf : option (Raft C) :=
  if currentTerm rf <? isr_Term reply then Some (stepDown (isr_Term reply) rf)
  else if negb (bool_decide (state rf = StateLeader))
          || negb (currentTerm rf =? is_Term args) then Some rf
  else
    n ← zget (nextIndex rf) peer;
    rf ← (if n <? is_LastIncludedIndex args + 1 then
            ni ← zset (nextIndex rf) peer (is_LastIncludedIndex args + 1);
            Some (with_nextIndex ni rf)
          else Some rf);
    m ← zget (matchIndex rf) peer;
    if m <? is_LastIncludedIndex args then
      mi ← zset (matchIndex rf) peer (is_LastIncludedIndex args);
      Some (with_matchIndex mi rf)
    else Some rf.

(** The search for the leader's last entry of the conflicting term, from [i]
    down to [lastIncludedIndex + 1]. *)
Fixpoint backupLoop (fuel : nat) (i conflictTerm newNext : Z) rf : Z :=
  match fuel with
  | O => newNext
  | S fuel =>
      if i <=? lastIncludedIndex rf then newNext
      else if termAt rf i =? conflictTerm then i + 1
      else backupLoop fuel (i - 1) conflictTerm newNext rf
  end.

(** [replicateTo] after the AppendEntries RPC returned (raft.go 581-621). *)
Definition appendEntriesReply (peer : Z) (args : AppendEntriesArgs C)
    (reply : AppendEntriesReply) rf : option (Raft C) :=
  if currentTerm rf <? aer_Term reply then Some (stepDown (aer_Term reply) rf)
  else if negb (bool_decide (state rf = StateLeader))
          || negb (currentTerm rf =? ae_Term args) then Some rf
  else if aer_Success reply then
    let newMatch := ae_PrevLogIndex args + zlen (ae_Entries args) in
    m ← zget (matchIndex rf) peer;
    rf ← (if m <? newMatch then
            mi ← zset (matchIndex rf) peer newMatch;
            Some (with_matchIndex mi rf)
          else Some rf);
    m ← zget (matchIndex rf) peer;
    ni ← zset (nextIndex rf) peer (m + 1);
    tryCommit (with_nextIndex ni rf)
  else
    let newNext :=
      if aer_ConflictTerm reply =? -1 then aer_ConflictIndex reply
      else backupLoop (length (log rf)) (lastLogIndex rf) (aer_ConflictTerm reply)
             (aer_ConflictIndex reply) rf in
    ni ← zset (nextIndex rf) peer newNext;
    let rf := with_nextIndex ni rf in
    n ← zget (nextIndex rf) peer;
    if n <? 1 then
      ni ← zset (nextIndex rf) peer 1;
      Some (with_nextIndex ni rf)
    else Some rf.

(** *** Start (raft.go 646-669) *)

Definition Start (command : C) rf : option (Raft C * (Z * Z * bool)) :=
  if negb (bool_decide (state rf = StateLeader)) then Some (rf, (-1, -1, false))
  else
    let entry := Entry (currentTerm rf) command in
    let rf := persist (with_log (log rf ++ [entry]) rf) in
    let index := lastLogIndex rf in
    let term := currentTerm rf in
    mi ← zset (matchIndex rf) (me rf) index;
    let rf := with_heartbeatTimer 0 (with_matchIndex mi rf) in
    Some (rf, (index, term, true)).

(** *** The applier goroutine (raft.go 673-716) *)

(** What one round of the loop takes out of the lock. *)
Record ApplyBatch := {
  ab_commitIndex : Z;
  ab_lastIncludedIndex : Z;
  ab_startIdx : Z;
  ab_entries : list (LogEntry C);
}.

(** The loop over [i], from [startIdx] to [commitIndex]. *)
Fixpoint collectLoop (fuel : nat) (i ci lii : Z) rf : list (LogEntry C) :=
  match fuel with
  | O => []
  | S fuel =>
      if ci <? i then []
      else if i <=? lii then collectLoop fuel (i + 1) ci lii rf
      else
        let si := toSliceIndex rf i in
        if (si <? 0) || (zlen (log rf) <=? si) then []
        else match zget (log rf) si with
             | Some e => e :: collectLoop fuel (i + 1) ci lii rf
             | None => []
             end
  end.

(** The first critical section: sleep ([None]) or take a batch. *)
Definition applierTake rf : Raft C * option ApplyBatch :=
  if commitIndex rf <=? lastApplied rf then (with_waiting true rf, None)
  else
    let startIdx := lastApplied rf + 1 in
    (with_waiting false rf,
     Some {| ab_commitIndex := commitIndex rf;
             ab_lastIncludedIndex := lastIncludedIndex rf;
             ab_startIdx := startIdx;
             ab_entries := collectLoop (Z.to_nat (commitIndex rf - lastApplied rf))
               startIdx (commitIndex rf) (lastIncludedIndex rf) rf |}).

(** The sends on [applyCh], in order. *)
Definition applierMsgs (b : ApplyBatch) : list (ApplyMsg C) :=
  let msg i entry :=
    let globalIdx := ab_startIdx b + Z.of_nat i in
    if globalIdx <=? ab_lastIncludedIndex b then []
    else [ {| CommandValid := true; Command := Some (le_Command entry);
              CommandIndex := globalIdx; SnapshotValid := false; Snapshot_ := [];
              SnapshotTerm := 0; SnapshotIndex := 0 |} ] in
  concat (imap msg (ab_entries b)).

(** The second critical section, after the sends. *)
Definition applierDone (b : ApplyBatch) rf : Raft C :=
  if lastApplied rf <? ab_commitIndex b then with_lastApplied (ab_commitIndex b) rf
  else rf.

(** *** Kill, ticker and Make (raft.go 720-794) *)

Definition Kill rf : Raft C := with_dead true rf.
Definition killed rf : bool := dead rf.

(** The two cases of the ticker's [select]. *)
Definition onElectionTimer (r : Z) rf : Raft C * option RequestVoteArgs :=
  if negb (bool_decide (state rf = StateLeader)) then
    let '(rf, args) := startElection r rf in (rf, Some args)
  else (rf, None).

(** The list is the peers a [replicateTo] goroutine is started for. *)
Definition onHeartbeatTimer rf : Raft C * list Z :=
  if bool_decide (state rf = StateLeader)
  then (with_heartbeatTimer HeartbeatInterval rf, otherPeers rf)
  else (rf, []).

Definition Make (n : nat) (i : Z) (ps : Persister.t) (r : Z) : Raft C :=
  let rf :=
    {| peers := n; persister := ps; me := i; dead := false; state := StateFollower;
       currentTerm := 0; votedFor := -1; log := []; lastIncludedIndex := 0;
       lastIncludedTerm := 0; commitIndex := 0; lastApplied := 0;
       nextIndex := replicate n 0; matchIndex := replicate n 0;
       electionTimer := randomElectionTimeout r; heartbeatTimer := HeartbeatInterval;
       waiting := false |} in
  readPersist (Persister.ReadRaftState ps) rf.
End raft.

Arguments Replication : clear implicits.
Arguments ApplyBatch : clear implicits.

(** Integer commands with the concrete codec, for closed examples. *)
Module IntCommands.
#[export] Instance codec : Codec (RaftPersist Z) := Serial.codec _.
#[export] Instance codec_laws : CodecLaws (RaftPersist Z) := Serial.codec_laws _.
End IntCommands.
