(* ===== verification/RaftLocal.v ===== *)
(** * One Raft peer as a transition system: what every operation preserves

    [Node] is a peer together with its goroutines that span several critical
    sections: the running elections of [startElection] (their shared counter
    [votes] and the peers whose RPC has not returned) and the batch the applier is
    sending on [applyCh].  [node_step] has one rule per critical section of
    raft.go.  The theorems: the persister always holds the current persistent
    state, so a crash at any point loses nothing; terms, votes and indices only
    move forward; the volatile indices keep their order; no operation panics;
    the applier never sleeps through a commit. *)
From S2P Require Import Prelude Persister RaftNode.

(** One run of [startElection]: the closure variables its goroutines share. *)
Record Election := {
  el_args : RequestVoteArgs;
  el_votes : Z;
  el_pending : list Z;
}.

Record Node (C : Type) := {
  raft : Raft C;
  elections : gmap Z Election;
  batch : option (ApplyBatch C);
}.
Arguments Build_Node {C} _ _ _.
Arguments raft {C} _.
Arguments elections {C} _.
Arguments batch {C} _.

Inductive Event (C : Type) :=
  | EvElectionTimer (args : RequestVoteArgs)
  | EvRequestVote (args : RequestVoteArgs) (reply : RequestVoteReply)
  | EvVoteReply (peer : Z) (args : RequestVoteArgs) (reply : RequestVoteReply)
  | EvAppendEntries (args : AppendEntriesArgs C) (reply : AppendEntriesReply)
  | EvInstallSnapshot (args : InstallSnapshotArgs) (reply : InstallSnapshotReply)
      (msg : option (ApplyMsg C))
  | EvHeartbeatTimer (ps : list Z)
  | EvReplicateTo (peer : Z) (out : Replication C)
  | EvAppendReply (peer : Z) (args : AppendEntriesArgs C) (reply : AppendEntriesReply)
  | EvSnapshotReply (peer : Z) (args : InstallSnapshotArgs)
      (reply : InstallSnapshotReply)
  | EvStart (cmd : C) (ret : Z * Z * bool)
  | EvCondInstall (term index : Z) (snap : bytes) (ok : bool)
  | EvSnapshot (index : Z) (snap : bytes)
  | EvApplierTake
  | EvApplierDone (b : ApplyBatch C)
  | EvKill.
Arguments EvElectionTimer {C} _.
Arguments EvRequestVote {C} _ _.
Arguments EvVoteReply {C} _ _ _.
Arguments EvAppendEntries {C} _ _.
Arguments EvInstallSnapshot {C} _ _ _.
Arguments EvHeartbeatTimer {C} _.
Arguments EvReplicateTo {C} _ _.
Arguments EvAppendReply {C} _ _ _.
Arguments EvSnapshotReply {C} _ _ _.
Arguments EvStart {C} _ _.
Arguments EvCondInstall {C} _ _ _ _.
Arguments EvSnapshot {C} _ _.
Arguments EvApplierTake {C}.
Arguments EvApplierDone {C} _.
Arguments EvKill {C}.

Section local.
Context {C : Type} `{!Codec (RaftPersist C)}.
Implicit Types (nd : Node C) (rf : Raft C).

Definition with_rf (x : Raft C) nd : Node C :=
  {| raft := x; elections := elections nd; batch := batch nd |}.

(** The highest index handed to the service so far. *)
Definition delivered nd : Z :=
  match batch nd with
  | Some b => Z.max (lastApplied (raft nd)) (ab_commitIndex b)
  | None => lastApplied (raft nd)
  end.

(** A goroutine of an election reports: its peer leaves [el_pending]. *)
Definition note_vote (peer votes : Z) (el : Election) : Election :=
  {| el_args := el_args el; el_votes := votes;
     el_pending := filter (fun p => p <> peer) (el_pending el) |}.

Inductive node_step nd : Event C -> Node C -> Prop :=
  | step_ElectionTimer r rf' args :
      0 <= r < ElectionTimeoutMax - ElectionTimeoutMin ->
      onElectionTimer r (raft nd) = (rf', Some args) ->
      node_step nd (EvElectionTimer args)
        {| raft := rf'; batch := batch nd;
           elections := <[ rva_Term args :=
             {| el_args := args; el_votes := 1; el_pending := otherPeers rf' |} ]>
             (elections nd) |}
  | step_RequestVote r args rf' reply :
      0 <= r < ElectionTimeoutMax - ElectionTimeoutMin ->
      RequestVote r args (raft nd) = (rf', reply) ->
      node_step nd (EvRequestVote args reply) (with_rf rf' nd)
  | step_VoteReply peer args reply el rf' votes :
      elections nd !! rva_Term args = Some el ->
      el_args el = args ->
      peer ∈ el_pending el ->
      voteReply args reply (el_votes el) (raft nd) = Some (rf', votes) ->
      node_step nd (EvVoteReply peer args reply)
        {| raft := rf'; batch := batch nd;
           elections := <[ rva_Term args := note_vote peer votes el ]> (elections nd) |}
  | step_AppendEntries r args rf' reply :
      0 <= r < ElectionTimeoutMax - ElectionTimeoutMin ->
      AppendEntries r args (raft nd) = Some (rf', reply) ->
      node_step nd (EvAppendEntries args reply) (with_rf rf' nd)
  | step_InstallSnapshot r args rf' reply msg :
      0 <= r < ElectionTimeoutMax - ElectionTimeoutMin ->
      InstallSnapshot r args (raft nd) = (rf', reply, msg) ->
      node_step nd (EvInstallSnapshot args reply msg) (with_rf rf' nd)
  | step_HeartbeatTimer rf' ps :
      onHeartbeatTimer (raft nd) = (rf', ps) ->
      node_step nd (EvHeartbeatTimer ps) (with_rf rf' nd)
  | step_ReplicateTo peer out :
      replicateTo peer (raft nd) = Some out ->
      node_step nd (EvReplicateTo peer out) nd
  | step_AppendReply peer args reply rf' :
      appendEntriesReply peer args reply (raft nd) = Some rf' ->
      node_step nd (EvAppendReply peer args reply) (with_rf rf' nd)
  | step_SnapshotReply peer args reply rf' :
      installSnapshotReply peer args reply (raft nd) = Some rf' ->
      node_step nd (EvSnapshotReply peer args reply) (with_rf rf' nd)
  | step_Start cmd rf' ret :
      Start cmd (raft nd) = Some (rf', ret) ->
      node_step nd (EvStart cmd ret) (with_rf rf' nd)
  | step_CondInstall term index snap rf' ok :
      CondInstallSnapshot term index snap (raft nd) = Some (rf', ok) ->
      node_step nd (EvCondInstall term index snap ok) (with_rf rf' nd)
  | step_Snapshot index snap rf' :
      (* the service snapshots only what it was handed *)
      index <= delivered nd ->
      Snapshot index snap (raft nd) = Some rf' ->
      node_step nd (EvSnapshot index snap) (with_rf rf' nd)
  | step_ApplierTake rf' ob :
      batch nd = None ->
      waiting (raft nd) = false ->
      applierTake (raft nd) = (rf', ob) ->
      node_step nd EvApplierTake
        {| raft := rf'; elections := elections nd; batch := ob |}
  | step_ApplierDone b :
      batch nd = Some b ->
      node_step nd (EvApplierDone b)
        {| raft := applierDone b (raft nd); elections := elections nd; batch := None |}
  | step_Kill :
      node_step nd EvKill (with_rf (Kill (raft nd)) nd).

(** A peer that (re)starts from a persister. *)
Definition boot (n : nat) (i : Z) (ps : Persister.t) (r : Z) : Node C :=
  {| raft := Make n i ps r; elections := ∅; batch := None |}.

(** A run of one peer: node steps, and crashes that keep only the persister. *)
Inductive reachable (n : nat) (i : Z) : Node C -> Prop :=
  | reach_boot r : reachable n i (boot n i Persister.MakePersister r)
  | reach_step nd ev nd' :
      reachable n i nd -> node_step nd ev nd' -> reachable n i nd'
  | reach_crash nd r :
      reachable n i nd -> reachable n i (boot n i (persister (raft nd)) r).

(** ** Frames of the loops: the fields a loop can change *)

Lemma initIndices_frame ps rf rf' :
  initIndices ps rf = Some rf' ->
  exists ni mi, rf' = with_matchIndex mi (with_nextIndex ni rf) /\
    length ni = length (nextIndex rf) /\ length mi = length (matchIndex rf).
Proof.
  revert rf. induction ps as [|p ps IH]; intros rf H; cbn in H.
  - go_inv. exists (nextIndex rf'), (matchIndex rf'). by destruct rf'.
  - go_inv.
    match goal with H : initIndices _ _ = _ |- _ => apply IH in H as (ni & mi & -> & ? & ?) end.
    repeat match goal with H : zset _ _ _ = _ |- _ => apply zset_inv in H as [? ->] end.
    exists ni, mi. split; [done|]. cbn in *. by rewrite !length_insert in *.
Qed.

Lemma becomeLeader_frame rf rf' :
  becomeLeader rf = Some rf' ->
  exists ni mi,
    rf' = with_heartbeatTimer 0
            (with_matchIndex mi (with_nextIndex ni (with_state StateLeader rf))) /\
    length ni = length (nextIndex rf) /\ length mi = length (matchIndex rf).
Proof.
  unfold becomeLeader. intros H. go_inv.
  match goal with H : initIndices _ _ = _ |- _ =>
    apply initIndices_frame in H as (ni & mi & -> & ? & ?) end.
  match goal with H : zset _ _ _ = _ |- _ => apply zset_inv in H as [? ->] end.
  cbn. eexists ni, _. split; [reflexivity|]. by rewrite length_insert.
Qed.

Lemma appendLoop_frame prev i entries rf rf' :
  appendLoop prev i entries rf = Some rf' -> exists l, rf' = with_log l rf.
Proof.
  revert i. induction entries as [|e es IH]; intros i H; cbn in H.
  - go_inv. exists (log rf'). by destruct rf'.
  - go_inv; eauto.
Qed.

Lemma tryCommitLoop_frame fuel n rf rf' :
  tryCommitLoop fuel n rf = Some rf' ->
  rf' = rf \/ exists k, commitIndex rf < k <= n /\ rf' = signal (with_commitIndex k rf).
Proof.
  revert n. induction fuel as [|fuel IH]; intros n H; cbn in H; go_inv; eauto.
  - match goal with H : tryCommitLoop _ _ _ = _ |- _ => apply IH in H as [?|(k & ? & ->)] end;
      [by left|]. right. exists k. split; [lia|done].
  - right. exists n. split; [lia|done].
  - match goal with H : tryCommitLoop _ _ _ = _ |- _ => apply IH in H as [?|(k & ? & ->)] end;
      [by left|]. right. exists k. split; [lia|done].
Qed.

Lemma tryCommit_frame rf rf' :
  tryCommit rf = Some rf' ->
  rf' = rf \/ exists k, commitIndex rf < k <= lastLogIndex rf /\
                        rf' = signal (with_commitIndex k rf).
Proof. apply tryCommitLoop_frame. Qed.

(** ** Persistence *)

(** The state a peer has when nothing was ever saved. *)
Definition initPersist : RaftPersist C := Build_RaftPersist 0 (-1) [] 0 0.

(** The persister holds the current persistent state (or nothing yet). *)
Definition persisted rf : Prop :=
  Persister.raftstate (persister rf) = enc (persistent rf) \/
  Persister.raftstate (persister rf) = [] /\ persistent rf = initPersist.

Lemma persisted_persist rf : persisted (persist rf).
Proof. left. cbn. by rewrite Persister.clone_id. Qed.

Lemma persisted_persistWithSnapshot snap rf : persisted (persistWithSnapshot snap rf).
Proof. left. cbn. by rewrite Persister.clone_id. Qed.

Lemma persisted_ext rf rf' :
  persister rf' = persister rf -> persistent rf' = persistent rf ->
  persisted rf -> persisted rf'.
Proof. unfold persisted. intros -> ->. done. Qed.
End local.

Create HintDb raft.
#[export] Hint Resolve persisted_persist persisted_persistWithSnapshot : raft.

(** The state under an update of a volatile field. *)
Ltac volatile_under x :=
  lazymatch x with
  | with_state _ ?y => y
  | resetElectionTimer _ ?y => y
  | signal ?y => y
  | with_commitIndex _ ?y => y
  | with_lastApplied _ ?y => y
  | with_nextIndex _ ?y => y
  | with_matchIndex _ ?y => y
  | with_heartbeatTimer _ ?y => y
  | with_waiting _ ?y => y
  | Kill ?y => y
  end.
#[export] Hint Extern 2 (persisted ?x) =>
  let y := volatile_under x in apply (persisted_ext y x eq_refl eq_refl) : raft.

(** Unfold one operation's result and split its branches. *)
Ltac frames :=
  repeat match goal with
  | H : becomeLeader _ = Some _ |- _ =>
      apply becomeLeader_frame in H; destruct H as (? & ? & -> & ? & ?)
  | H : appendLoop _ _ _ _ = Some _ |- _ =>
      apply appendLoop_frame in H; destruct H as (? & ->)
  | H : tryCommit _ = Some _ |- _ =>
      apply tryCommit_frame in H; destruct H as [->|(? & ? & ->)]
  end.

Section local.
Context {C : Type} `{!Codec (RaftPersist C)}.
Implicit Types (nd : Node C) (rf : Raft C).

Lemma followLeader_persisted r term rf :
  persisted rf -> persisted (followLeader r term rf).
Proof. intros. unfold followLeader. bcase; auto 12 with raft. Qed.

Lemma appendChecked_persisted args rf rf' reply :
  appendChecked args rf = Some (rf', reply) -> persisted rf -> persisted rf'.
Proof. unfold appendChecked. intros. go_inv; repeat bcase; auto 12 with raft. Qed.

Lemma decideVote_persisted r args rf rf' reply :
  decideVote r args rf = (rf', reply) -> persisted rf -> persisted rf'.
Proof. unfold decideVote. intros. go_inv; auto 12 with raft. Qed.

Lemma applierDone_persisted b rf : persisted rf -> persisted (applierDone b rf).
Proof. intros. unfold applierDone. bcase; auto 12 with raft. Qed.

#[local] Hint Resolve followLeader_persisted appendChecked_persisted
  decideVote_persisted applierDone_persisted : raft.

(** Every critical section leaves the persister up to date. *)
Lemma node_step_persisted nd ev nd' :
  node_step nd ev nd' -> persisted (raft nd) -> persisted (raft nd').
Proof.
  intros Hs Hp.
  destruct Hs; cbn;
    unfold onElectionTimer, startElection, RequestVote, voteReply, AppendEntries,
      InstallSnapshot, onHeartbeatTimer, appendEntriesReply, installSnapshotReply,
      Start, CondInstallSnapshot, Snapshot, applierTake, stepDown in *;
    go_inv; frames; eauto 12 with raft.
Qed.

(** A reboot reads back what was persisted. *)
Lemma Make_persistent `{!CodecLaws (RaftPersist C)} n i rf r :
  persisted rf ->
  persistent (Make n i (persister rf) r : Raft C) = persistent rf.
Proof.
  unfold Make, readPersist, Persister.ReadRaftState. rewrite Persister.clone_id.
  intros [->|[-> ->]]; [|done].
  bcase.
  - pose proof (enc_nonempty (persistent rf)). unfold zlen in *.
    destruct (enc _); cbn in *; [done|lia].
  - rewrite dec_enc. by destruct rf.
Qed.

Lemma Make_persister n i ps r : persister (Make n i ps r : Raft C) = ps.
Proof. unfold Make, readPersist. bcase; [done|]. by destruct (dec _). Qed.

Lemma reachable_persisted `{!CodecLaws (RaftPersist C)} n i nd :
  reachable n i nd -> persisted (raft nd).
Proof.
  induction 1 as [r|nd ev nd' _ IH Hs|nd r _ IH].
  - right. split; done.
  - by eapply node_step_persisted.
  - cbn [raft boot]. unfold persisted. by rewrite Make_persistent, Make_persister.
Qed.

(** ** What only moves forward *)
Record forward rf rf' : Prop := {
  fw_me : me rf' = me rf;
  fw_peers : peers rf' = peers rf;
  fw_term : currentTerm rf <= currentTerm rf';
  fw_vote : currentTerm rf' = currentTerm rf -> votedFor rf <> -1 ->
            votedFor rf' = votedFor rf;
  fw_snap : lastIncludedIndex rf <= lastIncludedIndex rf';
}.

#[global] Instance forward_preorder : PreOrder forward.
Proof.
  split.
  - intros x. split; done || lia.
  - intros x y z [me1 p1 t1 v1 s1] [me2 p2 t2 v2 s2].
    split; [congruence|congruence|lia| |lia].
    intros Ht Hv. assert (currentTerm y = currentTerm x) as E by lia.
    rewrite <- (v1 E Hv). apply v2; [lia|]. by rewrite v1.
Qed.

Lemma followLeader_forward r term rf : forward rf (followLeader r term rf).
Proof. unfold followLeader. bcase; split; cbn; done || lia. Qed.

Lemma stepDown_forward term rf : currentTerm rf < term -> forward rf (stepDown term rf).
Proof. intros. split; cbn; done || lia. Qed.

Lemma appendChecked_forward args rf rf' reply :
  appendChecked args rf = Some (rf', reply) -> forward rf rf'.
Proof.
  unfold appendChecked. intros. go_inv; frames; try reflexivity.
  repeat bcase; split; cbn; done || lia.
Qed.

Lemma decideVote_forward r args rf rf' reply :
  decideVote r args rf = (rf', reply) -> forward rf rf'.
Proof.
  unfold decideVote. intros. go_inv; [|reflexivity]. split; cbn; done || lia.
Qed.

#[local] Hint Resolve followLeader_forward stepDown_forward appendChecked_forward
  decideVote_forward : raft.

Lemma node_step_forward nd ev nd' :
  node_step nd ev nd' -> forward (raft nd) (raft nd').
Proof.
  intros Hs. destruct Hs; cbn;
    unfold onElectionTimer, startElection, RequestVote, voteReply, AppendEntries,
      InstallSnapshot, onHeartbeatTimer, appendEntriesReply, installSnapshotReply,
      Start, CondInstallSnapshot, Snapshot, applierTake, applierDone in *;
    go_inv; frames; eauto with raft; try reflexivity;
    try (etrans; eauto with raft; fail).
  all: try (split; cbn; done || lia).
  - etrans; [by apply stepDown_forward|]. eauto with raft.
  - match goal with H : slice_from _ _ = _ |- _ => unfold slice_from, toSliceIndex in H end.
    go_inv. split; cbn; done || lia.
  - split; cbn; try done || lia. unfold lastLogIndex in *.
    pose proof (zlen_nonneg (log (raft nd))). lia.
  - bcase; split; cbn; done || lia.
Qed.

Lemma reachable_identity n i nd :
  reachable n i nd -> me (raft nd) = i /\ peers (raft nd) = n.
Proof.
  assert (forall ps r, me (Make n i ps r : Raft C) = i /\ peers (Make n i ps r : Raft C) = n)
    as HM.
  { intros. unfold Make, readPersist. bcase; [done|]. by destruct (dec _). }
  induction 1 as [r|nd ev nd' _ IH Hs|nd r _ IH]; [apply HM| |apply HM].
  apply node_step_forward in Hs as [-> -> _ _ _]. done.
Qed.

(** Runs: node steps and crashes, from a given state. *)
Inductive run (n : nat) (i : Z) : Node C -> Node C -> Prop :=
  | run_refl nd : run n i nd nd
  | run_step nd1 nd2 ev nd3 :
      run n i nd1 nd2 -> node_step nd2 ev nd3 -> run n i nd1 nd3
  | run_crash nd1 nd2 r :
      run n i nd1 nd2 -> run n i nd1 (boot n i (persister (raft nd2)) r).

Lemma reachable_run n i nd1 nd2 :
  reachable n i nd1 -> run n i nd1 nd2 -> reachable n i nd2.
Proof. induction 2; eauto using reachable. Qed.

Lemma run_forward `{!CodecLaws (RaftPersist C)} n i nd1 nd2 :
  reachable n i nd1 -> run n i nd1 nd2 -> forward (raft nd1) (raft nd2).
Proof.
  intros Hr. induction 1 as [|nd1 nd2 ev nd3 _ IH Hs|nd1 nd2 r Hrun IH]; [done| |].
  - etrans; [by apply IH|]. by eapply node_step_forward.
  - etrans; [by apply IH|].
    pose proof (reachable_run _ _ _ _ Hr Hrun) as Hr2.
    pose proof (Make_persistent n i _ r (reachable_persisted _ _ _ Hr2)) as HP.
    unfold persistent in HP. injection HP as Ht Hv _ Hl _.
    destruct (reachable_identity _ _ _ Hr2) as [Hme Hp].
    destruct (reachable_identity _ _ _ (reach_crash _ _ _ r Hr2)) as [Hme' Hp'].
    split; cbn [raft boot] in *; first [congruence|lia].
Qed.

(** ** How a peer becomes leader *)

Lemma onElectionTimer_spec r (rf rf' : Raft C) args :
  onElectionTimer r rf = (rf', Some args) ->
  rva_Term args = currentTerm rf + 1 /\ rva_CandidateId args = me rf /\
  currentTerm rf' = currentTerm rf + 1 /\ votedFor rf' = me rf /\
  otherPeers rf' = otherPeers rf /\ state rf' = StateCandidate.
Proof. unfold onElectionTimer, startElection. intros H. by go_inv. Qed.

Lemma AppendEntries_state r args (rf rf' : Raft C) reply :
  AppendEntries r args rf = Some (rf', reply) -> rf' = rf \/ state rf' = StateFollower.
Proof.
  unfold AppendEntries, appendChecked. intros H. go_inv; auto.
  right. frames. by repeat bcase.
Qed.

(** A peer that is leader after a step was leader of the same term before, or
    the step counted the vote that completes a majority. *)
Lemma node_step_leader nd ev nd' :
  node_step nd ev nd' -> state (raft nd') = StateLeader ->
  (state (raft nd) = StateLeader /\
   currentTerm (raft nd') = currentTerm (raft nd)) \/
  (exists peer args reply el,
     ev = EvVoteReply peer args reply /\ peer ∈ el_pending el /\
     elections nd !! rva_Term args = Some el /\ el_args el = args /\
     elections nd' = <[rva_Term args := note_vote peer (el_votes el + 1) el]> (elections nd) /\
     currentTerm (raft nd') = rva_Term args /\
     majority (raft nd) <= el_votes el + 1).
Proof.
  intros Hs. destruct Hs; cbn; intros Hl;
    unfold RequestVote, decideVote, InstallSnapshot, onHeartbeatTimer, appendEntriesReply, installSnapshotReply,
      Start, CondInstallSnapshot, Snapshot, applierTake in *;
    try (go_inv; frames; cbn in *; done || (by auto)).
  - apply onElectionTimer_spec in H0 as (_ & _ & _ & _ & _ & ?). congruence.
  - unfold voteReply in *. go_inv; frames; cbn in *; try done; try (by left).
    right. exists peer, (el_args el), reply, el. split_and!; done.
  - apply AppendEntries_state in H0 as [->|?]; [by left|congruence].
  - left. unfold applierDone in *. bcase; done.
Qed.

(** ** What only the service changes: the snapshot *)

(** Only [CondInstallSnapshot] and [Snapshot], which the service calls, change the
    saved snapshot and the snapshot index. *)
Definition service_event (ev : Event C) : bool :=
  match ev with EvCondInstall _ _ _ _ | EvSnapshot _ _ => true | _ => false end.

Definition same_snapshot rf rf' : Prop :=
  Persister.snapshot (persister rf') = Persister.snapshot (persister rf) /\
  lastIncludedIndex rf' = lastIncludedIndex rf.

Lemma node_step_snapshot nd ev nd' :
  node_step nd ev nd' -> service_event ev = false -> same_snapshot (raft nd) (raft nd').
Proof.
  unfold same_snapshot. intros Hs Hev.
  destruct Hs; try discriminate Hev; cbn;
    unfold onElectionTimer, startElection, RequestVote, decideVote, voteReply, AppendEntries,
      appendChecked, followLeader, InstallSnapshot, onHeartbeatTimer, appendEntriesReply,
      installSnapshotReply, Start, applierTake, applierDone in *;
    go_inv; frames; try done; repeat (bcase; try done).
  all: unfold followLeader; by bcase.
Qed.
End local.
