(* ===== verification/RaftInv.v ===== *)
(** * One Raft peer: index invariant, absence of panics, the applier

    [node_wf] orders the indices of a peer
    ([lastIncludedIndex <= delivered <= commitIndex <= lastLogIndex]), fixes the
    lengths of its slices and says that a sleeping applier has nothing to do.
    Every critical section preserves it and, in a state that satisfies it, none
    panics.  The one fact a peer cannot ensure by itself is an environment
    condition: an [AppendEntries] must not cut the log below [commitIndex]. *)
From S2P Require Import Prelude Persister RaftNode RaftLocal.

Section inv.
Context {C : Type} `{!Codec (RaftPersist C)}.
Implicit Types (nd : Node C) (rf : Raft C).

Record node_wf nd : Prop := {
  wf_next : zlen (nextIndex (raft nd)) = Z.of_nat (peers (raft nd));
  wf_match : zlen (matchIndex (raft nd)) = Z.of_nat (peers (raft nd));
  wf_me : 0 <= me (raft nd) < Z.of_nat (peers (raft nd));
  wf_snap0 : 0 <= lastIncludedIndex (raft nd);
  wf_snap : lastIncludedIndex (raft nd) <= delivered nd;
  wf_delivered : delivered nd <= commitIndex (raft nd);
  wf_commit : commitIndex (raft nd) <= lastLogIndex (raft nd);
  wf_batch b : batch nd = Some b -> ab_lastIncludedIndex b < ab_startIdx b;
  wf_wait : waiting (raft nd) = true ->
            batch nd = None /\ commitIndex (raft nd) <= lastApplied (raft nd);
}.

(** ** Lengths of the log under the loops *)

Lemma appendLoop_lastLogIndex prev i entries rf rf' :
  appendLoop prev i entries rf = Some rf' ->
  lastIncludedIndex rf <= lastLogIndex rf'.
Proof.
  intros (l & ->)%appendLoop_frame. unfold lastLogIndex. cbn.
  pose proof (zlen_nonneg l). lia.
Qed.

(** The environment condition on a step: committed entries survive it. *)
Definition keeps_committed nd (ev : Event C) nd' : Prop :=
  match ev with
  | EvAppendEntries _ _ => commitIndex (raft nd) <= lastLogIndex (raft nd')
  | _ => True
  end.

Ltac wf_prep Hwf :=
  destruct Hwf as [Wn Wm Wme W0 Ws Wd Wc Wb Ww];
  unfold delivered in *; cbn in *.

Ltac unset :=
  repeat match goal with
  | H : zset _ _ _ = Some _ |- _ => apply zset_inv in H; destruct H as [? ->]
  | H : zget _ _ = Some _ |- _ => apply zget_Some_lt in H
  end.

Ltac fin :=
  split; cbn; unfold delivered, lastLogIndex in *; cbn in *;
  rewrite ?zlen_insert; try done; try lia; try naive_solver lia.

Lemma node_wf_followLeader r term nd :
  node_wf nd -> node_wf (with_rf (followLeader r term (raft nd)) nd).
Proof. intros Hwf. wf_prep Hwf. unfold followLeader. bcase; by split. Qed.

Lemma node_wf_stepDown term nd : node_wf nd -> node_wf (with_rf (stepDown term (raft nd)) nd).
Proof. intros Hwf. wf_prep Hwf. by split. Qed.

Lemma node_wf_decideVote r args nd rf' reply :
  decideVote r args (raft nd) = (rf', reply) -> node_wf nd -> node_wf (with_rf rf' nd).
Proof. unfold decideVote. intros H Hwf. go_inv; wf_prep Hwf; by split. Qed.

Lemma node_wf_appendChecked args nd rf' reply :
  appendChecked args (raft nd) = Some (rf', reply) ->
  commitIndex (raft nd) <= lastLogIndex rf' ->
  node_wf nd -> node_wf (with_rf rf' nd).
Proof.
  unfold appendChecked. intros H Hc Hwf. go_inv; try by destruct nd.
  match goal with H : appendLoop _ _ _ _ = _ |- _ =>
    pose proof (appendLoop_lastLogIndex _ _ _ _ _ H);
    apply appendLoop_frame in H as (l & ->) end.
  wf_prep Hwf. repeat (bcase; cbn in *); fin.
Qed.

Lemma node_wf_voteReply nd args reply votes rf' votes' els :
  voteReply args reply votes (raft nd) = Some (rf', votes') ->
  node_wf nd -> node_wf {| raft := rf'; elections := els; batch := batch nd |}.
Proof.
  unfold voteReply. intros H Hwf. go_inv; frames; wf_prep Hwf; try by split.
  fin; unfold zlen in *; lia.
Qed.

Lemma node_wf_appendEntriesReply peer args reply nd rf' :
  appendEntriesReply peer args reply (raft nd) = Some rf' ->
  node_wf nd -> node_wf (with_rf rf' nd).
Proof.
  unfold appendEntriesReply. intros H Hwf.
  go_inv; [by apply node_wf_stepDown|by destruct nd|..];
    frames; unset; wf_prep Hwf; fin.
Qed.

Lemma node_wf_installSnapshotReply peer args reply nd rf' :
  installSnapshotReply peer args reply (raft nd) = Some rf' ->
  node_wf nd -> node_wf (with_rf rf' nd).
Proof.
  unfold installSnapshotReply. intros H Hwf.
  go_inv; [by apply node_wf_stepDown|by destruct nd|..]; unset; wf_prep Hwf; fin.
Qed.

Lemma node_wf_CondInstallSnapshot term index snap nd rf' ok :
  CondInstallSnapshot term index snap (raft nd) = Some (rf', ok) ->
  node_wf nd -> node_wf (with_rf rf' nd).
Proof.
  unfold CondInstallSnapshot. intros H Hwf. go_inv; [by destruct nd|..];
    destruct nd as [x els [b|]]; wf_prep Hwf.
  all: try match goal with H : slice_from _ _ = _ |- _ =>
      unfold slice_from, toSliceIndex in H; go_inv end.
  all: fin; autorewrite with zlen; lia.
Qed.

Lemma node_wf_Snapshot index snap nd rf' :
  index <= delivered nd -> Snapshot index snap (raft nd) = Some rf' ->
  node_wf nd -> node_wf (with_rf rf' nd).
Proof.
  unfold Snapshot. intros Hi H Hwf. go_inv; [by destruct nd|..]; wf_prep Hwf.
  match goal with H : slice_from _ _ = _ |- _ =>
      unfold slice_from, toSliceIndex in H; go_inv end.
  fin. rewrite zlen_drop. lia.
Qed.

Lemma node_wf_Start cmd nd rf' ret :
  Start cmd (raft nd) = Some (rf', ret) -> node_wf nd -> node_wf (with_rf rf' nd).
Proof.
  unfold Start. intros H Hwf. go_inv; [by destruct nd|]. unset. wf_prep Hwf.
  fin. rewrite zlen_app. pose proof (zlen_nonneg [Entry (currentTerm (raft nd)) cmd]). lia.
Qed.

Lemma node_step_wf nd ev nd' :
  node_step nd ev nd' -> keeps_committed nd ev nd' -> node_wf nd -> node_wf nd'.
Proof.
  intros Hs Hk Hwf. destruct Hs; cbn in Hk.
  - unfold onElectionTimer, startElection in *. go_inv. wf_prep Hwf. by split.
  - unfold RequestVote in *. go_inv; [by destruct nd| |].
    + eapply (node_wf_decideVote _ _ (with_rf (stepDown _ _) nd)); [cbn; eassumption|].
      by apply node_wf_stepDown.
    + by eapply node_wf_decideVote.
  - by eapply node_wf_voteReply.
  - unfold AppendEntries in *. go_inv; [by destruct nd|].
    eapply (node_wf_appendChecked _ (with_rf (followLeader _ _ _) nd)); [cbn; eassumption| |].
    + cbn. unfold followLeader. bcase; done.
    + by apply node_wf_followLeader.
  - unfold InstallSnapshot in *.
    go_inv; [by destruct nd|by apply node_wf_followLeader..].
  - unfold onHeartbeatTimer in *. go_inv; wf_prep Hwf; by split.
  - done.
  - by eapply node_wf_appendEntriesReply.
  - by eapply node_wf_installSnapshotReply.
  - by eapply node_wf_Start.
  - by eapply node_wf_CondInstallSnapshot.
  - by eapply node_wf_Snapshot.
  - unfold applierTake in *. go_inv; wf_prep Hwf.
    + rewrite H in *. fin.
    + rewrite H in *. fin.
  - unfold applierDone. wf_prep Hwf. rewrite H in *. bcase; fin.
  - wf_prep Hwf. by split.
Qed.

(** ** Runs that keep what is committed *)
Inductive reachable_kc (n : nat) (i : Z) : Node C -> Prop :=
  | kc_boot r : reachable_kc n i (boot n i Persister.MakePersister r)
  | kc_step nd ev nd' :
      reachable_kc n i nd -> node_step nd ev nd' -> keeps_committed nd ev nd' ->
      reachable_kc n i nd'
  | kc_crash nd r :
      reachable_kc n i nd -> reachable_kc n i (boot n i (persister (raft nd)) r).

Lemma reachable_kc_reachable n i nd : reachable_kc n i nd -> reachable n i nd.
Proof. induction 1; eauto using reachable. Qed.

Lemma Make_indices n i ps r :
  let rf := Make n i ps r : Raft C in
  commitIndex rf = lastIncludedIndex rf /\ lastApplied rf = lastIncludedIndex rf /\
  nextIndex rf = replicate n 0 /\ matchIndex rf = replicate n 0 /\ waiting rf = false.
Proof. cbn. unfold Make, readPersist. bcase; [done|]. by destruct (dec _). Qed.

Lemma boot_wf n i ps r :
  0 <= i < Z.of_nat n -> 0 <= lastIncludedIndex (Make n i ps r : Raft C) ->
  node_wf (boot n i ps r).
Proof.
  intros Hi H0. destruct (Make_indices n i ps r) as (E1 & E2 & E3 & E4 & E5).
  assert (peers (Make n i ps r : Raft C) = n /\ me (Make n i ps r : Raft C) = i) as [E6 E7].
  { unfold Make, readPersist. bcase; [done|]. by destruct (dec _). }
  split; unfold delivered, lastLogIndex; cbn; rewrite ?E1, ?E2, ?E3, ?E4, ?E5, ?E6, ?E7;
    unfold zlen; rewrite ?length_replicate; try done; lia.
Qed.

Lemma reachable_kc_wf `{!CodecLaws (RaftPersist C)} n i nd :
  0 <= i < Z.of_nat n -> reachable_kc n i nd -> node_wf nd.
Proof.
  intros Hi. induction 1 as [r|nd ev nd' _ IH Hs Hk|nd r Hr IH].
  - by apply boot_wf.
  - by eapply node_step_wf.
  - apply boot_wf; [done|].
    pose proof (Make_persistent n i _ r
      (reachable_persisted _ _ _ (reachable_kc_reachable _ _ _ Hr))) as HP.
    unfold persistent in HP. injection HP as _ _ _ -> _. apply IH.
Qed.

(** ** Absence of panics *)

Lemma initIndices_is_Some ps rf :
  (forall p, p ∈ ps -> 0 <= p < zlen (nextIndex rf) /\ 0 <= p < zlen (matchIndex rf)) ->
  is_Some (initIndices ps rf).
Proof.
  revert rf. induction ps as [|p ps IH]; intros rf H; cbn; [by eexists|].
  destruct (H p ltac:(constructor)) as [H1 H2].
  rewrite !zset_Some by done. cbn. apply IH. intros q Hq. cbn. rewrite !zlen_insert.
  apply H. by constructor.
Qed.

Lemma becomeLeader_is_Some nd : node_wf nd -> is_Some (becomeLeader (raft nd)).
Proof.
  intros [Wn Wm Wme _ _ _ _ _ _]. unfold becomeLeader. cbn [with_state peers].
  destruct (initIndices_is_Some (zrange (peers (raft nd))) (with_state StateLeader (raft nd)))
    as [x Hx].
  { intros p ?%elem_of_zrange. cbn. lia. }
  rewrite Hx. cbn. apply initIndices_frame in Hx as (ni & mi & -> & ? & Hmi). cbn in *.
  rewrite zset_Some; [by eexists|]. unfold zlen in *. lia.
Qed.

Lemma appendLoop_is_Some prev i entries rf : is_Some (appendLoop prev i entries rf).
Proof.
  revert i. induction entries as [|e es IH]; intros i; cbn; [by eexists|].
  bcase; [done|]. bcase; [|by eexists].
  unfold toSliceIndex in *.
  destruct (zget_in_range (log rf) (prev + 1 + i - lastIncludedIndex rf - 1)) as [x Hx];
    [lia|].
  rewrite Hx. cbn. bcase; [|done]. rewrite slice_to_Some by lia. by eexists.
Qed.

Lemma countMatch_is_Some ps n k rf :
  (forall p, p ∈ ps -> 0 <= p < zlen (matchIndex rf)) -> is_Some (countMatch ps n k rf).
Proof.
  revert k. induction ps as [|p ps IH]; intros k H; cbn; [by eexists|].
  assert (forall k, is_Some (countMatch ps n k rf)) as IH'.
  { intros. apply IH. intros. apply H. by constructor. }
  bcase; [done|].
  destruct (zget_in_range (matchIndex rf) p) as [m ->]; [apply H; constructor|].
  apply IH'.
Qed.

Lemma tryCommit_is_Some rf :
  Z.of_nat (peers rf) <= zlen (matchIndex rf) -> is_Some (tryCommit rf).
Proof.
  intros H. unfold tryCommit. generalize (lastLogIndex rf) at 2 as n.
  induction (Z.to_nat _) as [|fuel IH]; intros n; cbn; [by eexists|].
  bcase; [by eexists|]. bcase; [done|].
  destruct (countMatch_is_Some (zrange (peers rf)) n 1 rf) as [k ->].
  { intros p ?%elem_of_zrange. lia. }
  cbn. bcase; [by eexists|done].
Qed.

(** Discharge the slice accesses of the goal that are in range. *)
Ltac in_range :=
  repeat (cbn [mbind option_bind];
    match goal with
    | |- is_Some (Some _) => by eexists
    | |- context [zget ?l ?i] =>
        let x := fresh "x" in let Hx := fresh "Hx" in
        destruct (zget_in_range l i) as [x Hx];
          [cbn; rewrite ?zlen_insert; lia | rewrite Hx]
    | |- context [zset ?l ?i ?x] =>
        rewrite (zset_Some l i x) by (cbn; rewrite ?zlen_insert; lia)
    | |- context [if _ then _ else _] => bcase
    end).

Lemma voteReply_is_Some args reply votes nd :
  node_wf nd -> is_Some (voteReply args reply votes (raft nd)).
Proof.
  intros Hwf. unfold voteReply. do 4 (bcase; try by eexists).
  destruct (becomeLeader_is_Some nd Hwf) as [x ->]. by eexists.
Qed.

Lemma AppendEntries_is_Some r args rf : is_Some (AppendEntries r args rf).
Proof.
  unfold AppendEntries, appendChecked. do 4 (bcase; [by eexists|]).
  match goal with |- context [appendLoop ?p ?i ?es ?rf] =>
    destruct (appendLoop_is_Some p i es rf) as [x ->] end.
  by eexists.
Qed.

Lemma replicateTo_is_Some peer nd :
  node_wf nd -> 0 <= peer < Z.of_nat (peers (raft nd)) ->
  is_Some (replicateTo peer (raft nd)).
Proof.
  intros [Wn Wm _ _ _ _ _ _ _] Hp. unfold replicateTo. in_range.
  unfold lastLogIndex, toSliceIndex in *. rewrite slice_from_Some by lia. by eexists.
Qed.

Lemma appendEntriesReply_is_Some peer args reply nd :
  node_wf nd -> 0 <= peer < Z.of_nat (peers (raft nd)) ->
  is_Some (appendEntriesReply peer args reply (raft nd)).
Proof.
  intros [Wn Wm _ _ _ _ _ _ _] Hp. unfold appendEntriesReply. in_range.
  all: apply tryCommit_is_Some; cbn; rewrite ?zlen_insert; lia.
Qed.

Lemma installSnapshotReply_is_Some peer args reply nd :
  node_wf nd -> 0 <= peer < Z.of_nat (peers (raft nd)) ->
  is_Some (installSnapshotReply peer args reply (raft nd)).
Proof.
  intros [Wn Wm _ _ _ _ _ _ _] Hp. unfold installSnapshotReply. in_range.
Qed.

Lemma Start_is_Some cmd nd : node_wf nd -> is_Some (Start cmd (raft nd)).
Proof. intros [Wn Wm Wme _ _ _ _ _ _]. unfold Start. in_range. Qed.

Lemma CondInstallSnapshot_is_Some term index snap nd :
  node_wf nd -> is_Some (CondInstallSnapshot term index snap (raft nd)).
Proof.
  intros [_ _ _ _ Ws Wd _ _ _]. unfold CondInstallSnapshot. in_range.
  unfold lastLogIndex, toSliceIndex in *. rewrite slice_from_Some by lia. by eexists.
Qed.

Lemma Snapshot_is_Some index snap nd :
  node_wf nd -> index <= delivered nd -> is_Some (Snapshot index snap (raft nd)).
Proof.
  intros [_ _ _ _ Ws Wd Wc _ _] Hi. unfold Snapshot.
  unfold lastLogIndex, toSliceIndex in *. in_range.
  rewrite slice_from_Some by lia. by eexists.
Qed.
(** No operation that runs under the lock of this peer panics, whatever its
    arguments (a service snapshots only what it was handed). *)
Definition no_panic (n : nat) nd : Prop :=
  (forall args reply votes, is_Some (voteReply args reply votes (raft nd))) /\
  (forall r args, is_Some (AppendEntries r args (raft nd))) /\
  (forall cmd, is_Some (Start cmd (raft nd))) /\
  (forall term index snap, is_Some (CondInstallSnapshot term index snap (raft nd))) /\
  (forall index snap, index <= delivered nd -> is_Some (Snapshot index snap (raft nd))) /\
  (forall peer, 0 <= peer < Z.of_nat n ->
     is_Some (replicateTo peer (raft nd)) /\
     (forall args reply, is_Some (appendEntriesReply peer args reply (raft nd))) /\
     (forall args reply, is_Some (installSnapshotReply peer args reply (raft nd)))).

Lemma node_wf_no_panic n nd : node_wf nd -> peers (raft nd) = n -> no_panic n nd.
Proof.
  intros Hwf Hp. split_and!; auto using voteReply_is_Some, AppendEntries_is_Some, Start_is_Some,
    CondInstallSnapshot_is_Some, Snapshot_is_Some.
  intros peer Hpeer. rewrite <- Hp in Hpeer.
  auto using replicateTo_is_Some, appendEntriesReply_is_Some, installSnapshotReply_is_Some.
Qed.
End inv.
