(* ===== verification/RaftLog.v ===== *)
(** * Raft's log operations: functional specifications

    What the follower's append loop does to the log (equivalence with the
    reference function [merge]), the conflict hints of a rejected [AppendEntries],
    the commit rule of [tryCommit], what a leader sends, log compaction, and the
    batch the applier hands to the service. *)
From S2P Require Import Prelude Persister RaftNode RaftLocal RaftInv.

Section log.
Context {C : Type} `{!Codec (RaftPersist C)}.
Implicit Types (rf : Raft C) (e : LogEntry C) (es s : list (LogEntry C)).

(** The entry at a global index. *)
Definition glookup rf (g : Z) : option (LogEntry C) :=
  zget (log rf) (toSliceIndex rf g).

Lemma termAt_glookup rf g :
  lastIncludedIndex rf < g <= lastLogIndex rf ->
  exists e, glookup rf g = Some e /\ termAt rf g = le_Term e.
Proof.
  unfold lastLogIndex, termAt, glookup, toSliceIndex. intros H.
  destruct (zget_in_range (log rf) (g - lastIncludedIndex rf - 1)) as [e He]; [lia|].
  exists e. split; [done|]. do 3 (bcase; [lia|]). by rewrite He.
Qed.

(** ** The append loop *)

(** Reference definition: keep the entries of the log as long as their terms
    agree with the leader's; at the first difference, or at the end of the log,
    continue with the leader's entries. *)
Fixpoint merge (s es : list (LogEntry C)) : list (LogEntry C) :=
  match s, es with
  | s, [] => s
  | [], es => es
  | x :: s', e :: es' => if le_Term x =? le_Term e then x :: merge s' es' else e :: es'
  end.

Lemma merge_nil_r s : merge s [] = s.
Proof. by destruct s. Qed.

Lemma merge_lookup s es k e :
  es !! k = Some e -> exists e', merge s es !! k = Some e' /\ le_Term e' = le_Term e.
Proof.
  revert es k. induction s as [|x s IH]; intros [|e1 es] k Hk; try done; cbn.
  - eauto.
  - bcase; [|eauto]. destruct k as [|k]; cbn in *; [naive_solver|eauto].
Qed.

Lemma merge_agree s es :
  (forall k x e, s !! k = Some x -> es !! k = Some e -> le_Term x = le_Term e) ->
  s `prefix_of` merge s es.
Proof.
  revert es. induction s as [|x s IH]; intros [|e es] H; cbn; try done.
  - apply prefix_nil.
  - bcase.
    + apply prefix_cons, IH. intros k y z Hy Hz. by apply (H (S k)).
    + exfalso. by specialize (H 0%nat x e eq_refl eq_refl).
Qed.

Lemma merge_conflict s es :
  (exists k x e, s !! k = Some x /\ es !! k = Some e /\ le_Term x <> le_Term e) ->
  length (merge s es) = length es.
Proof.
  revert es. induction s as [|x s IH]; intros [|e es] (k & y & z & Hy & Hz & Hne);
    try done. cbn. bcase; [|done]. cbn. f_equal. apply IH.
  destruct k as [|k]; cbn in *; [naive_solver congruence|eauto 10].
Qed.

Lemma merge_idemp s es : merge (merge s es) es = merge s es.
Proof.
  assert (forall l : list (LogEntry C), merge l l = l) as Hself.
  { induction l as [|x l IH]; cbn; [done|]. rewrite Z.eqb_refl. by rewrite IH. }
  revert es. induction s as [|x s IH]; intros [|e es]; cbn; try done.
  - rewrite Z.eqb_refl. by rewrite Hself.
  - bcase; cbn.
    + rewrite (proj2 (Z.eqb_eq _ _)) by done. by rewrite IH.
    + rewrite Z.eqb_refl. by rewrite Hself.
Qed.

(** The loop started at the [i]-th entry, when [off] entries of the log precede
    the position it looks at. *)
Lemma appendLoop_merge prev i es rf (off : nat) :
  prev + i - lastIncludedIndex rf = Z.of_nat off -> (off <= length (log rf))%nat ->
  appendLoop prev i es rf =
    Some (with_log (take off (log rf) ++ merge (drop off (log rf)) es) rf).
Proof.
  revert i off. induction es as [|e es IH]; intros i off Hoff Hle; cbn.
  - rewrite merge_nil_r, take_drop. by destruct rf.
  - bcase; [lia|]. unfold toSliceIndex. bcase.
    + destruct (lookup_lt_is_Some_2 (log rf) off) as [x Hx]; [unfold zlen in *; lia|].
      replace (prev + 1 + i - lastIncludedIndex rf - 1) with (Z.of_nat off) by lia.
      assert (zget (log rf) (Z.of_nat off) = Some x) as ->.
      { apply zget_Some_lookup. split; [lia|]. by rewrite Nat2Z.id. }
      cbn. rewrite (drop_S _ _ _ Hx). cbn. bcase.
      * rewrite slice_to_Some, Nat2Z.id by (unfold zlen in *; lia). cbn.
        rewrite (proj2 (Z.eqb_neq _ _)) by done. done.
      * rewrite (proj2 (Z.eqb_eq _ _)) by done.
        rewrite (IH (i + 1) (S off)) by (unfold zlen in *; lia).
        by rewrite (take_S_r _ _ _ Hx), <- (assoc_L (++)).
    + assert (off = length (log rf)) as -> by (unfold zlen in *; lia).
      by rewrite firstn_all, drop_ge.
Qed.

Lemma followLeader_log r term rf :
  log (followLeader r term rf) = log rf /\
  lastIncludedIndex (followLeader r term rf) = lastIncludedIndex rf /\
  lastIncludedTerm (followLeader r term rf) = lastIncludedTerm rf /\
  commitIndex (followLeader r term rf) = commitIndex rf.
Proof. unfold followLeader. by bcase. Qed.

Lemma termAt_ext rf rf' g :
  log rf' = log rf -> lastIncludedIndex rf' = lastIncludedIndex rf ->
  lastIncludedTerm rf' = lastIncludedTerm rf -> termAt rf' g = termAt rf g.
Proof. unfold termAt, toSliceIndex. by intros -> -> ->. Qed.

(** What a successful consistency check leaves behind. *)
Definition appended (args : AppendEntriesArgs C) rf rf' : Prop :=
  let prev := ae_PrevLogIndex args in
  let off := Z.to_nat (prev - lastIncludedIndex rf) in
  lastIncludedIndex rf <= prev <= lastLogIndex rf /\
  termAt rf prev = ae_PrevLogTerm args /\
  log rf' = take off (log rf) ++ merge (drop off (log rf)) (ae_Entries args) /\
  lastIncludedIndex rf' = lastIncludedIndex rf /\
  commitIndex rf' = if commitIndex rf <? ae_LeaderCommit args
                    then Z.min (ae_LeaderCommit args) (lastLogIndex rf')
                    else commitIndex rf.

Lemma appendChecked_spec args rf rf' reply :
  appendChecked args rf = Some (rf', reply) ->
  if aer_Success reply then appended args rf rf' else rf' = rf.
Proof.
  unfold appendChecked. do 3 (bcase; [intros [= <- <-]; done|]).
  rewrite (appendLoop_merge _ _ _ _ (Z.to_nat (ae_PrevLogIndex args - lastIncludedIndex rf)));
    [|lia|unfold lastLogIndex, zlen in *; lia].
  cbn [mbind option_bind]. intros [= <- <-]. cbn [aer_Success].
  unfold appended, lastLogIndex in *. split; [lia|]. split; [done|].
  bcase; cbn in *; split_and!; try done. bcase; lia.
Qed.

Lemma appendChecked_keeps args rf rf' reply :
  appendChecked args rf = Some (rf', reply) ->
  currentTerm rf' = currentTerm rf /\ state rf' = state rf /\
  lastIncludedTerm rf' = lastIncludedTerm rf.
Proof. unfold appendChecked. intros H. go_inv; try done. frames. by bcase. Qed.

Lemma AppendEntries_keeps r args rf rf' reply :
  AppendEntries r args rf = Some (rf', reply) -> aer_Success reply = true ->
  currentTerm rf <= ae_Term args /\ currentTerm rf' = ae_Term args /\
  state rf' = StateFollower /\ lastIncludedTerm rf' = lastIncludedTerm rf.
Proof.
  unfold AppendEntries. bcase; [by intros [= <- <-]|].
  intros (-> & -> & ->)%appendChecked_keeps _. unfold followLeader.
  bcase; cbn; split_and!; done || lia.
Qed.

Lemma AppendEntries_spec r args rf rf' reply :
  AppendEntries r args rf = Some (rf', reply) ->
  if aer_Success reply then appended args rf rf'
  else log rf' = log rf /\ lastIncludedIndex rf' = lastIncludedIndex rf /\
       commitIndex rf' = commitIndex rf.
Proof.
  unfold AppendEntries. bcase; [by intros [= <- <-]|].
  destruct (followLeader_log r (ae_Term args) rf) as (E1 & E2 & E3 & E4).
  intros H%appendChecked_spec. bcase; [|by subst].
  unfold appended, lastLogIndex in *.
  by rewrite E1, E2, E4, (termAt_ext _ _ _ E1 E2 E3) in H.
Qed.

(** Global lookups in a log that was merged after [off] entries. *)
Lemma merged_glookup rf rf' es (off : nat) g :
  (off <= length (log rf))%nat -> lastIncludedIndex rf' = lastIncludedIndex rf ->
  log rf' = take off (log rf) ++ merge (drop off (log rf)) es ->
  glookup rf' g =
    if g <=? lastIncludedIndex rf + Z.of_nat off then glookup rf g
    else merge (drop off (log rf)) es !! Z.to_nat (g - lastIncludedIndex rf - Z.of_nat off - 1).
Proof.
  intros Hoff El Elog. unfold glookup, toSliceIndex. rewrite Elog, El.
  assert (zlen (take off (log rf)) = Z.of_nat off) as Ht.
  { rewrite zlen_take. unfold zlen. lia. }
  bcase.
  - rewrite zget_app_l by lia. apply zget_take. lia.
  - rewrite zget_app_r by lia. rewrite Ht. unfold zget. bcase; [|lia]. f_equal. lia.
Qed.

Lemma drop_lookup_glookup rf (off : nat) k e :
  drop off (log rf) !! k = Some e <->
  glookup rf (lastIncludedIndex rf + Z.of_nat off + 1 + Z.of_nat k) = Some e.
Proof.
  unfold glookup, toSliceIndex. rewrite lookup_drop, zget_Some_lookup.
  replace (Z.to_nat _) with (off + k)%nat by lia. naive_solver lia.
Qed.

(** ** Conflict hints *)

Lemma conflictLoop_spec fuel rf ct idx :
  let res := conflictLoop fuel rf ct idx in
  res <= idx /\
  (idx - lastIncludedIndex rf <= Z.of_nat fuel ->
   res <= lastIncludedIndex rf \/ termAt rf (res - 1) <> ct) /\
  (lastIncludedIndex rf <= idx -> lastIncludedIndex rf <= res) /\
  (forall j, res <= j < idx -> termAt rf j = ct).
Proof.
  cbn. revert idx. induction fuel as [|fuel IH]; intros idx; cbn.
  - split_and!; intros; lia.
  - bcase.
    + destruct (IH (idx - 1)) as (I1 & I2 & I3 & I4).
      split_and!; [lia|intros; apply I2; lia|intros; apply I3; lia|].
      intros j Hj. destruct (decide (j = idx - 1)) as [->|]; [done|]. apply I4. lia.
    + split_and!; intros; lia.
Qed.

(** ** The commit rule *)

(** [peer] is known to hold the log up to [n]: it is the leader itself or its
    [matchIndex] reaches [n]. *)
Definition holds rf (n p : Z) : bool :=
  (p =? me rf) || match zget (matchIndex rf) p with Some m => n <=? m | None => false end.

(** [n] is on a majority of the peers. *)
Definition onMajority rf (n : Z) : bool :=
  Z.of_nat (peers rf) <? 2 * countb (holds rf n) (zrange (peers rf)).

Lemma countMatch_spec ps n k rf c :
  countMatch ps n k rf = Some c ->
  c = k + countb (fun p => bool_decide (p <> me rf) && holds rf n p) ps.
Proof.
  revert k. induction ps as [|p ps IH]; intros k H; cbn in H; cbn [countb].
  - go_inv. lia.
  - unfold holds at 1. go_inv.
    + rewrite bool_decide_eq_false_2 by naive_solver. by apply IH.
    + match goal with E : countMatch _ _ _ _ = _ |- _ => apply IH in E; rewrite E end.
      match goal with E : zget _ _ = Some _ |- _ => rewrite E end.
      rewrite bool_decide_eq_true_2 by done. cbn. bcase; lia.
Qed.

Lemma countMatch_majority n rf c :
  0 <= me rf < Z.of_nat (peers rf) ->
  countMatch (zrange (peers rf)) n 1 rf = Some c ->
  (Z.of_nat (peers rf) / 2 <? c) = onMajority rf n.
Proof.
  intros Hme ->%countMatch_spec. unfold onMajority.
  rewrite (countb_remove (holds rf n) _ (me rf)).
  - apply eq_true_iff_eq. rewrite !Z.ltb_lt. Z.to_euclidean_division_equations. lia.
  - apply NoDup_zrange.
  - by apply elem_of_zrange.
  - unfold holds. by rewrite Z.eqb_refl.
Qed.

(** [n] may be committed by the leader [rf]. *)
Definition committable rf (n : Z) : bool :=
  (termAt rf n =? currentTerm rf) && onMajority rf n.

(** [rf'] is [rf] with the highest committable index up to [n] committed. *)
Definition bestCommit rf (n : Z) rf' : Prop :=
  (rf' = rf /\ forall k, commitIndex rf < k <= n -> committable rf k = false) \/
  (exists m, rf' = signal (with_commitIndex m rf) /\ commitIndex rf < m <= n /\
     committable rf m = true /\ forall k, m < k <= n -> committable rf k = false).

Lemma bestCommit_skip rf n rf' :
  committable rf n = false -> bestCommit rf (n - 1) rf' -> bestCommit rf n rf'.
Proof.
  intros Hn H.
  assert (forall m, (forall k, m < k <= n - 1 -> committable rf k = false) ->
                    forall k, m < k <= n -> committable rf k = false) as Hext.
  { intros m Hm k Hk. destruct (decide (k = n)) as [->|]; [done|]. apply Hm. lia. }
  destruct H as [[-> H]|(m & -> & Hm & Hc & H)]; [by left; eauto|].
  right. exists m. repeat split; eauto; lia.
Qed.

Lemma tryCommitLoop_spec fuel n rf rf' :
  0 <= me rf < Z.of_nat (peers rf) -> n - commitIndex rf <= Z.of_nat fuel ->
  tryCommitLoop fuel n rf = Some rf' -> bestCommit rf n rf'.
Proof.
  intros Hme. revert n. induction fuel as [|fuel IH]; intros n Hf H; cbn in H.
  { go_inv. left. split; [done|]. lia. }
  go_inv; [left; split; [done|lia]|..];
    try match goal with E : countMatch _ _ _ _ = _ |- _ =>
      apply countMatch_majority in E as HM; [|done] end.
  - apply bestCommit_skip; [unfold committable; lia|]. apply IH; [lia|done].
  - right. exists n. split_and!; try done; try lia. unfold committable.
    rewrite <- HM. lia.
  - apply bestCommit_skip; [unfold committable; rewrite <- HM; lia|].
    apply IH; [lia|done].
Qed.

(** ** Compaction *)

(** Two peers agree on the log from the global index [from] on: same entries
    after it, same term at it. *)
Definition sameFrom (from : Z) rf rf' : Prop :=
  lastLogIndex rf' = lastLogIndex rf /\
  termAt rf' from = termAt rf from /\
  forall g, from < g -> glookup rf' g = glookup rf g /\ termAt rf' g = termAt rf g.

Lemma glookup_after rf g e :
  lastIncludedIndex rf < g -> glookup rf g = Some e -> termAt rf g = le_Term e.
Proof.
  intros Hg He. assert (g <= lastLogIndex rf) as Hl.
  { apply zget_Some_lt in He. unfold toSliceIndex, lastLogIndex in *. lia. }
  destruct (termAt_glookup rf g) as (e' & He' & ->); [lia|]. congruence.
Qed.

Lemma glookup_beyond rf g :
  lastIncludedIndex rf < g -> glookup rf g = None -> termAt rf g = -1.
Proof.
  unfold glookup, termAt, toSliceIndex. intros Hg He%zget_None.
  do 3 (bcase; try done; try lia).
Qed.

(** Cutting [index - lastIncludedIndex] entries off the front of the log. *)
Lemma compact_sameFrom rf rf' index :
  lastIncludedIndex rf < index <= lastLogIndex rf ->
  lastIncludedIndex rf' = index -> lastIncludedTerm rf' = termAt rf index ->
  log rf' = drop (Z.to_nat (index - lastIncludedIndex rf)) (log rf) ->
  sameFrom index rf rf'.
Proof.
  intros Hi El Et Elog.
  assert (forall g, index < g -> glookup rf' g = glookup rf g) as Hg.
  { intros g Hg. unfold glookup, toSliceIndex. rewrite Elog, El, zget_drop by lia.
    f_equal. lia. }
  split_and!.
  - unfold lastLogIndex in *. rewrite Elog, El, zlen_drop. lia.
  - unfold termAt at 1. by rewrite El, Z.eqb_refl.
  - intros g Hlt. split; [by apply Hg|]. specialize (Hg g Hlt).
    destruct (glookup rf g) as [e|] eqn:He.
    + rewrite (glookup_after rf g e), (glookup_after rf' g e); done || lia.
    + rewrite (glookup_beyond rf g), (glookup_beyond rf' g); done || lia.
Qed.

(** ** The applier's batch *)

Lemma collectLoop_spec fuel i ci lii rf :
  lastIncludedIndex rf < i -> lii < i -> ci <= lastLogIndex rf ->
  Z.of_nat fuel = ci - i + 1 ->
  collectLoop fuel i ci lii rf =
    take fuel (drop (Z.to_nat (toSliceIndex rf i)) (log rf)).
Proof.
  revert i. induction fuel as [|fuel IH]; intros i Hi Hl Hc Hf; cbn; [done|].
  bcase; [lia|]. bcase; [lia|].
  assert (0 <= toSliceIndex rf i < zlen (log rf)) as Hr
    by (unfold toSliceIndex, lastLogIndex in *; lia).
  bcase; [lia|].
  destruct (zget_in_range _ _ Hr) as [e He]. rewrite He.
  apply zget_Some_lookup in He as [_ He]. rewrite (drop_S _ _ _ He). cbn. f_equal.
  rewrite IH by lia. do 3 f_equal. unfold toSliceIndex in *. lia.
Qed.

(** The message [ApplyMsg] for one log entry. *)
Definition commandMsg (g : Z) (e : LogEntry C) : ApplyMsg C :=
  {| CommandValid := true; Command := Some (le_Command e); CommandIndex := g;
     SnapshotValid := false; Snapshot_ := []; SnapshotTerm := 0; SnapshotIndex := 0 |}.

Lemma concat_singletons {A} (l : list A) : concat ((fun x => [x]) <$> l) = l.
Proof. induction l as [|x l IH]; cbn; [done|]. by rewrite IH. Qed.

Lemma applierMsgs_spec (b : ApplyBatch C) :
  ab_lastIncludedIndex b < ab_startIdx b ->
  applierMsgs b = imap (fun k => commandMsg (ab_startIdx b + Z.of_nat k)) (ab_entries b).
Proof.
  intros Hb. unfold applierMsgs. etrans; [|apply concat_singletons].
  rewrite fmap_imap. f_equal.
  apply imap_ext. intros k e _. cbn. bcase; [lia|done].
Qed.

(** ** Log comparison in elections *)

(** [a] is at least as up to date as [b] (each a last index and a last term). *)
Definition upToDate (a b : Z * Z) : Prop :=
  a.2 > b.2 \/ a.2 = b.2 /\ a.1 >= b.1.

Lemma isMoreUpToDate_spec rf i t :
  isMoreUpToDate rf i t = true <-> upToDate (i, t) (lastLogIndex rf, lastLogTerm rf).
Proof. unfold isMoreUpToDate, upToDate. cbn. bcase; lia. Qed.

(** ** The log after a successful AppendEntries *)

(** The position [off] of [appended] and what it means for global indices. *)
Lemma appended_glookup args rf rf' g :
  appended args rf rf' ->
  glookup rf' g =
    if g <=? ae_PrevLogIndex args then glookup rf g
    else merge (drop (Z.to_nat (ae_PrevLogIndex args - lastIncludedIndex rf)) (log rf))
           (ae_Entries args) !! Z.to_nat (g - ae_PrevLogIndex args - 1).
Proof.
  intros (Hp & _ & Hlog & Hl & _).
  rewrite (fun H => merged_glookup _ _ _ _ g H Hl Hlog)
    by (unfold lastLogIndex, zlen in *; lia).
  rewrite Z2Nat.id by lia.
  replace (lastIncludedIndex rf + (ae_PrevLogIndex args - lastIncludedIndex rf))
    with (ae_PrevLogIndex args) by lia.
  bcase; [done|]. f_equal. lia.
Qed.

(** The leader's [k]-th entry and the follower's entry at the same index. *)
Lemma appended_overlap args rf rf' k e :
  appended args rf rf' ->
  drop (Z.to_nat (ae_PrevLogIndex args - lastIncludedIndex rf)) (log rf) !! k = Some e <->
  glookup rf (ae_PrevLogIndex args + 1 + Z.of_nat k) = Some e.
Proof.
  intros (Hp & _). rewrite drop_lookup_glookup, Z2Nat.id by lia.
  by replace (lastIncludedIndex rf + (ae_PrevLogIndex args - lastIncludedIndex rf)
              + 1 + Z.of_nat k)
    with (ae_PrevLogIndex args + 1 + Z.of_nat k) by lia.
Qed.

Lemma appended_lastLogIndex args rf rf' :
  appended args rf rf' ->
  lastLogIndex rf' = ae_PrevLogIndex args +
    zlen (merge (drop (Z.to_nat (ae_PrevLogIndex args - lastIncludedIndex rf)) (log rf))
            (ae_Entries args)).
Proof.
  intros (Hp & _ & Hlog & Hl & _). unfold lastLogIndex in *.
  rewrite Hlog, Hl, zlen_app, zlen_take. lia.
Qed.

(** A difference in term between the log and the request. *)
Definition conflicting (args : AppendEntriesArgs C) rf : Prop :=
  exists k x e, glookup rf (ae_PrevLogIndex args + 1 + Z.of_nat k) = Some x /\
    ae_Entries args !! k = Some e /\ le_Term x <> le_Term e.

Lemma appended_termAt_prev args rf rf' :
  appended args rf rf' -> lastIncludedTerm rf' = lastIncludedTerm rf ->
  termAt rf' (ae_PrevLogIndex args) = ae_PrevLogTerm args.
Proof.
  intros H Hlt. pose proof (appended_glookup _ _ _ (ae_PrevLogIndex args) H) as Hg.
  destruct H as (Hp & <- & _ & Hl & _). rewrite Z.leb_refl in Hg.
  unfold termAt, glookup, toSliceIndex in *. rewrite Hl, Hlt in *. bcase; [done|].
  bcase; [lia|].
  destruct (zget_in_range (log rf) (ae_PrevLogIndex args - lastIncludedIndex rf - 1))
    as [e He]; [unfold lastLogIndex in *; lia|].
  rewrite He in *. pose proof (zget_Some_lt _ _ _ Hg). pose proof (zget_Some_lt _ _ _ He).
  rewrite Hg. do 2 (bcase; [lia|]). done.
Qed.

End log.
