(* ===== verification/RaftProps.v ===== *)
(** * Raft: the properties of one peer

    The theorems about the operations of src/src/raft/raft.go, proved from the
    lemmas of RaftLocal, RaftInv and RaftLog, each with a concrete instance.  The
    property of the whole cluster is in RaftNet. *)
From S2P Require Import Prelude Persister RaftNode RaftLocal RaftInv RaftLog.

Section props.
Context {C : Type} `{!Codec (RaftPersist C)}.
Implicit Types (nd : Node C) (rf : Raft C).

(** ** Crashes and monotonicity *)

(** C15: a crash at any moment loses nothing that must survive: whatever steps a
    peer took before, restarting it from its persister gives back the same
    term, vote, log and snapshot position. *)
Theorem crash_recovery `{!CodecLaws (RaftPersist C)} n i nd r :
  reachable n i nd ->
  persistent (raft (boot n i (persister (raft nd)) r : Node C)) = persistent (raft nd).
Proof. intros H. cbn [boot raft]. by eapply Make_persistent, reachable_persisted. Qed.

(** Over any run, crashes and restarts included, a peer keeps its identity,
    its term and snapshot index never decrease, and a vote given in a term is
    never changed in that term. *)
Theorem never_backwards `{!CodecLaws (RaftPersist C)} n i nd1 nd2 :
  reachable n i nd1 -> run n i nd1 nd2 -> forward (raft nd1) (raft nd2).
Proof. apply run_forward. Qed.

(** ** Indices *)

(** C34: in every run that never cuts committed entries, the indices of a peer are
    ordered [0 <= lastIncludedIndex <= delivered <= commitIndex <= lastLogIndex],
    its slices [nextIndex] and [matchIndex] have one cell per peer, the applier
    never sleeps while there is something to apply, and no operation panics,
    whatever the arguments (a service snapshots only what it was handed). *)
Theorem indices_ordered_no_panic `{!CodecLaws (RaftPersist C)} n i nd :
  0 <= i < Z.of_nat n -> reachable_kc n i nd -> node_wf nd /\ no_panic n nd.
Proof.
  intros Hi Hr. pose proof (reachable_kc_wf _ _ _ Hi Hr) as Hwf. split; [done|].
  apply node_wf_no_panic; [done|].
  by apply (reachable_identity _ _ _ (reachable_kc_reachable _ _ _ Hr)).
Qed.

(** ** Elections *)

(** [RequestVote] grants exactly when Raft's rule says so: the candidate's
    term is not stale, the peer has not voted for another candidate in that term,
    and the candidate's log is at least as up to date; a grant is recorded in
    [votedFor] together with the term, and a refusal keeps any vote of the term. *)
Theorem request_vote_rule r args rf :
  let '(rf', reply) := RequestVote r args rf in
  (rvr_VoteGranted reply = true <->
     currentTerm rf <= rva_Term args /\
     (rva_Term args = currentTerm rf ->
        votedFor rf = -1 \/ votedFor rf = rva_CandidateId args) /\
     upToDate (rva_LastLogIndex args, rva_LastLogTerm args)
              (lastLogIndex rf, lastLogTerm rf)) /\
  currentTerm rf' = Z.max (currentTerm rf) (rva_Term args) /\
  rvr_Term reply = currentTerm rf' /\
  votedFor rf' = (if rvr_VoteGranted reply then rva_CandidateId args
                  else if currentTerm rf <? rva_Term args then -1 else votedFor rf).
Proof.
  destruct (RequestVote r args rf) as [rf' reply] eqn:E.
  unfold RequestVote, decideVote in E. rewrite <- isMoreUpToDate_spec.
  change (isMoreUpToDate (stepDown (rva_Term args) rf)) with (isMoreUpToDate rf) in E.
  go_inv; cbn in *; split_and!; try (bcase; lia); try done; try lia.
  all: destruct (isMoreUpToDate _ _ _); try done; lia || naive_solver lia.
Qed.
(** [AppendEntries] always returns.  If it reports success, the request was
    not stale, its [PrevLog] position matched, and the log after that position is
    the [merge] of what was there with the leader's entries (nothing is dropped
    unless a term differs); [commitIndex] only moves up to
    [min(LeaderCommit, lastLogIndex)].  If it reports failure, log, snapshot
    position and [commitIndex] are untouched. *)
Theorem append_entries_merges r args rf :
  match AppendEntries r args rf with
  | None => False
  | Some (rf', reply) =>
      if aer_Success reply then
        currentTerm rf <= ae_Term args /\ currentTerm rf' = ae_Term args /\
        state rf' = StateFollower /\ appended args rf rf'
      else log rf' = log rf /\ lastIncludedIndex rf' = lastIncludedIndex rf /\
           commitIndex rf' = commitIndex rf
  end.
Proof.
  destruct (AppendEntries_is_Some r args rf) as [[rf' reply] E]. rewrite E.
  pose proof (AppendEntries_spec _ _ _ _ _ E) as Hs. bcase; [|done].
  by destruct (AppendEntries_keeps _ _ _ _ _ E) as (? & ? & ? & _).
Qed.

(** What a successful [AppendEntries] means for the log, index by index: the
    entries up to [PrevLogIndex] are unchanged, every entry of the request is
    present with its term, a request that agrees with the log never shortens it
    (a delayed RPC cannot undo a later one), and a conflicting one ends the log at
    the request's last entry. *)
Theorem append_entries_effect r args rf rf' reply :
  AppendEntries r args rf = Some (rf', reply) -> aer_Success reply = true ->
  let prev := ae_PrevLogIndex args in
  (forall g, g <= prev -> glookup rf' g = glookup rf g) /\
  (forall k e, ae_Entries args !! k = Some e ->
     exists e', glookup rf' (prev + 1 + Z.of_nat k) = Some e' /\ le_Term e' = le_Term e) /\
  (~ conflicting args rf -> log rf `prefix_of` log rf') /\
  (conflicting args rf -> lastLogIndex rf' = prev + zlen (ae_Entries args)).
Proof.
  intros H Hs. apply AppendEntries_spec in H. rewrite Hs in H. cbn.
  split_and!.
  - intros g Hg. rewrite (appended_glookup _ _ _ _ H). bcase; [done|lia].
  - intros k e Hk. rewrite (appended_glookup _ _ _ _ H). bcase; [lia|].
    replace (Z.to_nat _) with k by lia. by apply merge_lookup.
  - intros Hno. destruct H as (Hp & Ht & Hlog & Hrest). rewrite Hlog.
    rewrite <- (take_drop (Z.to_nat (ae_PrevLogIndex args - lastIncludedIndex rf)) (log rf)) at 1.
    apply prefix_app, merge_agree. intros k x e Hx He.
    rewrite (appended_overlap args rf rf') in Hx by done.
    destruct (decide (le_Term x = le_Term e)); [done|]. exfalso. apply Hno. by exists k, x, e.
  - intros (k & x & e & Hx & He & Hne). rewrite (appended_lastLogIndex _ _ _ H).
    unfold zlen. rewrite merge_conflict; [done|]. exists k, x, e.
    by rewrite (appended_overlap args rf rf').
Qed.

(** A retransmitted request changes nothing: handling the same [AppendEntries]
    again succeeds again and leaves the log as it is. *)
Theorem append_entries_idempotent r1 r2 args rf rf1 reply1 :
  AppendEntries r1 args rf = Some (rf1, reply1) -> aer_Success reply1 = true ->
  match AppendEntries r2 args rf1 with
  | Some (rf2, reply2) => aer_Success reply2 = true /\ log rf2 = log rf1
  | None => False
  end.
Proof.
  intros H Hs. pose proof (AppendEntries_spec _ _ _ _ _ H) as Happ. rewrite Hs in Happ.
  destruct (AppendEntries_keeps _ _ _ _ _ H Hs) as (_ & Ht & _ & Hlt).
  pose proof (appended_termAt_prev _ _ _ Happ Hlt) as Hprev.
  pose proof (appended_lastLogIndex _ _ _ Happ) as Hll.
  destruct (AppendEntries_is_Some r2 args rf1) as [[rf2 reply2] E]. rewrite E.
  assert (aer_Success reply2 = true) as Hs2.
  { destruct (followLeader_log r2 (ae_Term args) rf1) as (F1 & F2 & F3 & _).
    unfold AppendEntries in E. bcase_in E; [lia|]. unfold appendChecked in E.
    rewrite (termAt_ext _ _ _ F1 F2 F3), Hprev, Z.eqb_refl in E. cbn [negb] in E.
    unfold lastLogIndex in E. rewrite F1, F2 in E. fold (lastLogIndex rf1) in E.
    destruct Happ as (Hp & _ & _ & Hl & _).
    pose proof (zlen_nonneg (merge (drop (Z.to_nat (ae_PrevLogIndex args -
      lastIncludedIndex rf)) (log rf)) (ae_Entries args))).
    do 2 (bcase_in E; [lia|]). by go_inv. }
  split; [done|]. apply AppendEntries_spec in E. rewrite Hs2 in E.
  destruct E as (_ & _ & -> & _), Happ as (Hp & _ & -> & -> & _).
  set (off := Z.to_nat _). unfold lastLogIndex, zlen in Hp.
  assert (length (take off (log rf)) = off) as Hoff by (rewrite length_take; lia).
  rewrite take_app_length', drop_app_length' by done. by rewrite merge_idemp.
Qed.

(** A rejected [AppendEntries] of a current term tells the leader where to back
    up: below the snapshot, to the index after it; past the end of the log, to the
    index after the end; on a term conflict, to the first index of the run of
    entries that carry the conflicting term. *)
Theorem conflict_hint r args rf :
  currentTerm rf <= ae_Term args ->
  match AppendEntries r args rf with
  | None => False
  | Some (_, reply) =>
      let prev := ae_PrevLogIndex args in
      let ci := aer_ConflictIndex reply in
      aer_Success reply = true \/
      aer_Success reply = false /\
      ((aer_ConflictTerm reply = -1 /\
          (prev < lastIncludedIndex rf /\ ci = lastIncludedIndex rf + 1 \/
           lastLogIndex rf < prev /\ ci = lastLogIndex rf + 1)) \/
       (lastIncludedIndex rf <= ci <= prev /\ prev <= lastLogIndex rf /\
        aer_ConflictTerm reply = termAt rf prev /\ termAt rf prev <> ae_PrevLogTerm args /\
        (forall j, ci <= j <= prev -> termAt rf j = termAt rf prev) /\
        (lastIncludedIndex rf < ci -> termAt rf (ci - 1) <> termAt rf prev)))
  end.
Proof.
  intros Ht. unfold AppendEntries. bcase; [lia|].
  destruct (followLeader_log r (ae_Term args) rf) as (E1 & E2 & E3 & E4).
  assert (lastLogIndex (followLeader r (ae_Term args) rf) = lastLogIndex rf) as E5
    by (unfold lastLogIndex; by rewrite E1, E2).
  pose proof (fun g => termAt_ext _ _ g E1 E2 E3) as E6.
  unfold appendChecked. rewrite E2, E5, E6. bcase; [cbn; lia|]. bcase; [cbn; lia|].
  bcase.
  - right. split; [done|]. right. cbn -[conflictIndex]. unfold conflictIndex.
    rewrite E2, E6.
    destruct (conflictLoop_spec (Z.to_nat (ae_PrevLogIndex args - lastIncludedIndex rf))
      (followLeader r (ae_Term args) rf) (termAt rf (ae_PrevLogIndex args))
      (ae_PrevLogIndex args)) as (I1 & I2 & I3 & I4). rewrite !E2, !E6 in *.
    split_and!; try lia; try done.
    intros j Hj. destruct (decide (j = ae_PrevLogIndex args)) as [->|]; [done|].
    rewrite <- E6. apply I4. lia.
  - destruct (appendLoop_is_Some (ae_PrevLogIndex args) 0 (ae_Entries args)
      (followLeader r (ae_Term args) rf)) as [x ->]. by left.
Qed.

(** ** The leader *)

(** After a reply the leader's commit index is the best that Raft allows: the
    highest index of the current term that a majority of the peers (the leader
    itself included) is known to hold, and unchanged if there is none above the
    old one; nothing but [commitIndex] changes and the applier is woken up. *)
Theorem commit_rule rf :
  0 <= me rf < Z.of_nat (peers rf) -> zlen (matchIndex rf) = Z.of_nat (peers rf) ->
  match tryCommit rf with
  | None => False
  | Some rf' => bestCommit rf (lastLogIndex rf) rf'
  end.
Proof.
  intros Hme Hm. destruct (tryCommit_is_Some rf) as [rf' E]; [lia|]. rewrite E.
  eapply tryCommitLoop_spec; [done| |exact E]. lia.
Qed.

(** What a leader sends is cut out of its own log: the entries are all those
    after [PrevLogIndex], [PrevLogTerm] is the term its log has there, and a
    follower that lost that part of the log gets the snapshot instead. *)
Theorem replicate_from_log peer rf nextIdx :
  state rf = StateLeader -> zget (nextIndex rf) peer = Some nextIdx ->
  match replicateTo peer rf with
  | Some (SendAppendEntries args) =>
      lastIncludedIndex rf < nextIdx /\ ae_PrevLogIndex args = nextIdx - 1 /\
      ae_Term args = currentTerm rf /\ ae_LeaderId args = me rf /\
      ae_PrevLogTerm args = termAt rf (nextIdx - 1) /\
      ae_LeaderCommit args = commitIndex rf /\
      (forall k, ae_Entries args !! k = glookup rf (nextIdx + Z.of_nat k))
  | Some (SendInstallSnapshot args) =>
      nextIdx <= lastIncludedIndex rf /\
      is_LastIncludedIndex args = lastIncludedIndex rf /\
      is_LastIncludedTerm args = lastIncludedTerm rf /\ is_Term args = currentTerm rf /\
      is_Data args = Persister.ReadSnapshot (persister rf)
  | Some NoReplication | None => False
  end.
Proof.
  intros Hs Hn. unfold replicateTo. rewrite bool_decide_eq_true_2 by done. cbn [negb].
  rewrite Hn. cbn [mbind option_bind]. bcase; [done|].
  unfold lastLogIndex, toSliceIndex. bcase; [rewrite slice_from_Some by lia|];
    cbn; split_and!; try done; intros k; unfold glookup, toSliceIndex.
  - rewrite lookup_drop. unfold zget. bcase; [|lia]. f_equal. lia.
  - symmetry. apply zget_None. lia.
Qed.

(** ** Compaction and the applier *)

(** Log compaction is invisible above the snapshot: [Snapshot] succeeds for
    every index of the log and keeps every entry and term above it, the last
    index, and the term at it; the persister holds the snapshot with the new
    state. *)
Theorem snapshot_compacts index snap rf :
  lastIncludedIndex rf < index <= lastLogIndex rf ->
  match Snapshot index snap rf with
  | None => False
  | Some rf' =>
      sameFrom index rf rf' /\ lastIncludedIndex rf' = index /\ persisted rf' /\
      Persister.ReadSnapshot (persister rf') = snap /\
      commitIndex rf' = commitIndex rf /\ lastApplied rf' = lastApplied rf
  end.
Proof.
  intros Hi. unfold Snapshot. bcase; [lia|].
  destruct (termAt_glookup rf index Hi) as (e & He & Ht). unfold glookup in He.
  rewrite He. cbn [mbind option_bind].
  rewrite slice_from_Some by (unfold toSliceIndex, lastLogIndex in *; lia).
  cbn [mbind option_bind]. split_and!; try done.
  2: { left. cbn. by rewrite Persister.clone_id. }
  2: apply Persister.ReadSnapshot_Save.
  apply compact_sameFrom; cbn; try done. f_equal. unfold toSliceIndex. lia.
Qed.

(** One round of the applier hands the service exactly the committed entries it
    has not seen, in order and with their indices: in a well-formed peer the
    messages are the log's entries at [lastApplied+1 .. commitIndex]. *)
Theorem applier_delivers nd rf' b :
  node_wf nd -> batch nd = None -> applierTake (raft nd) = (rf', Some b) ->
  zlen (applierMsgs b) = commitIndex (raft nd) - lastApplied (raft nd) /\
  (forall k m, applierMsgs b !! k = Some m <->
     Z.of_nat k < commitIndex (raft nd) - lastApplied (raft nd) /\
     exists e, glookup (raft nd) (lastApplied (raft nd) + 1 + Z.of_nat k) = Some e /\
               m = commandMsg (lastApplied (raft nd) + 1 + Z.of_nat k) e).
Proof.
  intros [_ _ _ W0 Ws Wd Wc _ _] Hb H. unfold delivered in *. rewrite Hb in *.
  unfold applierTake in H. go_inv.
  rewrite applierMsgs_spec by (cbn; lia). cbn [ab_entries ab_startIdx].
  rewrite collectLoop_spec by lia.
  set (off := Z.to_nat (toSliceIndex (raft nd) (lastApplied (raft nd) + 1))).
  assert (Z.of_nat off = lastApplied (raft nd) - lastIncludedIndex (raft nd)) as Hoff
    by (unfold off, toSliceIndex; lia).
  split.
  - unfold zlen, lastLogIndex in *. unfold zlen in *.
    rewrite length_imap, length_take, length_drop. lia.
  - intros k m. rewrite list_lookup_imap_Some. setoid_rewrite lookup_take_Some.
    setoid_rewrite drop_lookup_glookup. rewrite Hoff.
    replace (lastIncludedIndex (raft nd) +
      (lastApplied (raft nd) - lastIncludedIndex (raft nd)) + 1 + Z.of_nat k)
      with (lastApplied (raft nd) + 1 + Z.of_nat k) by lia.
    naive_solver lia.
Qed.

(** ** Two behaviours that differ from the Raft paper *)

(** A service that accepts a snapshot inside its log keeps every entry above it
    without comparing the term of its own entry at that index with the snapshot's
    term, although a different term there means the entries above conflict too
    (the Raft paper discards them). *)
Theorem cond_install_keeps_suffix term index snap rf :
  lastIncludedIndex rf < index -> commitIndex rf < index <= lastLogIndex rf ->
  match CondInstallSnapshot term index snap rf with
  | None => False
  | Some (rf', ok) =>
      ok = true /\ lastIncludedIndex rf' = index /\ lastIncludedTerm rf' = term /\
      commitIndex rf' = index /\ lastApplied rf' = index /\ persisted rf' /\
      forall g, index < g -> glookup rf' g = glookup rf g
  end.
Proof.
  intros Hl Hi. unfold CondInstallSnapshot. bcase; [lia|]. bcase; [|lia].
  rewrite slice_from_Some by (unfold toSliceIndex, lastLogIndex in *; lia).
  cbn [mbind option_bind]. split_and!; try done.
  { left. cbn. by rewrite Persister.clone_id. }
  intros g Hg. unfold glookup, toSliceIndex. cbn. rewrite zget_drop by lia.
  f_equal. lia.
Qed.

(** In a cluster of one server an election has no goroutine. *)
Lemma single_server_elections nd t el :
  reachable 1 0 nd -> elections nd !! t = Some el -> el_pending el = [].
Proof.
  intros Hr. revert t el.
  induction Hr as [r|nd ev nd' Hr IH Hs|nd r Hr IH]; intros t el;
    [by cbn; rewrite lookup_empty| |by cbn; rewrite lookup_empty].
  pose proof (reachable_identity _ _ _ (reach_step _ _ _ _ _ Hr Hs)) as [HM HP].
  destruct Hs; try apply IH; cbn in *;
    intros [[<- <-]|[_ Hl]]%lookup_insert_Some; try by eapply IH.
  - cbn. unfold otherPeers. by rewrite HM, HP.
  - cbn. by erewrite IH.
Qed.

(** A cluster of a single server never elects a leader: [startElection] looks
    at the majority only when the reply of another peer comes in. *)
Theorem single_server_no_leader nd : reachable 1 0 nd -> state (raft nd) <> StateLeader.
Proof.
  induction 1 as [r|nd ev nd' Hr IH Hs|nd r Hr IH].
  - done.
  - intros Hl. destruct (node_step_leader _ _ _ Hs Hl) as [[? _]|(p & a & y & el & _ & Hp & He & _)];
      [done|]. rewrite (single_server_elections _ _ _ Hr He) in Hp. by inv Hp.
  - cbn. unfold Make, readPersist. bcase; [done|]. by destruct (dec _).
Qed.
End props.

(** ** A concrete run: peer 1 of three follows the leader of term 1 *)
Import IntCommands.
Module Follower.

Definition nd0 : Node Z := boot 3 1 Persister.MakePersister 0.
Definition args : AppendEntriesArgs Z :=
  {| ae_Term := 1; ae_LeaderId := 0; ae_PrevLogIndex := 0; ae_PrevLogTerm := 0;
     ae_Entries := [Entry 1 10; Entry 1 20]; ae_LeaderCommit := 1 |}.
Definition ok : AppendEntriesReply :=
  {| aer_Term := 1; aer_Success := true; aer_ConflictTerm := 0; aer_ConflictIndex := 0 |}.
Definition rf1 : Raft Z :=
  default (raft nd0) (fst <$> AppendEntries 0 args (raft nd0)).
Definition nd1 : Node Z := with_rf rf1 nd0.

(** A request that conflicts with the second entry. *)
Definition args2 : AppendEntriesArgs Z :=
  {| ae_Term := 2; ae_LeaderId := 2; ae_PrevLogIndex := 2; ae_PrevLogTerm := 2;
     ae_Entries := []; ae_LeaderCommit := 1 |}.

(** A leader of term 1 with one entry that peer 1 holds. *)
Definition leader : Raft Z :=
  with_matchIndex [1; 1; 0] (with_nextIndex [2; 2; 1] (with_log [Entry 1 10]
    (with_state StateLeader (with_currentTerm 1 (Make 3 0 Persister.MakePersister 0))))).

(** A server alone in its cluster, after its election timer fired. *)
Definition lone0 : Node Z := boot 1 0 Persister.MakePersister 0.
Definition lone_args : RequestVoteArgs :=
  {| rva_Term := 1; rva_CandidateId := 0; rva_LastLogIndex := 0; rva_LastLogTerm := 0 |}.
Definition lone_rf : Raft Z := (onElectionTimer 0 (raft lone0)).1.
Definition alone : Node Z :=
  {| raft := lone_rf; batch := batch lone0;
     elections := <[ rva_Term lone_args :=
       {| el_args := lone_args; el_votes := 1; el_pending := otherPeers lone_rf |} ]>
       (elections lone0) |}.

Lemma follower_step1 : node_step nd0 (EvAppendEntries args ok) nd1.
Proof.
  apply (step_AppendEntries nd0 0 args rf1 ok); [done|]. vm_compute. reflexivity.
Qed.

Lemma follower_reach1 : reachable 3 1 nd1.
Proof. eapply reach_step; [apply reach_boot|apply follower_step1]. Qed.

Lemma reach_kc1 : reachable_kc 3 1 nd1.
Proof. eapply kc_step; [apply kc_boot|apply follower_step1|]. vm_compute. discriminate. Qed.
End Follower.

Lemma crash_recovery_witness :
  persistent (raft (boot 3 1 (persister (raft Follower.nd1)) 7 : Node Z)) =
  Build_RaftPersist 1 (-1) [Entry 1 10; Entry 1 20] 0 0.
Proof.
  transitivity (persistent (raft Follower.nd1)).
  - apply (crash_recovery 3 1 Follower.nd1 7 Follower.follower_reach1).
  - vm_compute. reflexivity.
Defined.

Lemma never_backwards_witness :
  currentTerm (raft Follower.nd0) = 0 /\ forward (raft Follower.nd0) (raft Follower.nd1).
Proof.
  split; [vm_compute; reflexivity|].
  apply (never_backwards 3 1 Follower.nd0 Follower.nd1); [apply reach_boot|].
  eapply run_step; [apply run_refl|apply Follower.follower_step1].
Defined.

Lemma indices_ordered_no_panic_witness :
  commitIndex (raft Follower.nd1) = 1 /\ node_wf Follower.nd1 /\
  is_Some (Snapshot 0 [] (raft Follower.nd1)).
Proof.
  destruct (indices_ordered_no_panic 3 1 Follower.nd1 ltac:(lia) Follower.reach_kc1)
    as (Hwf & _ & _ & _ & _ & Hs & _).
  split; [vm_compute; reflexivity|]. split; [exact Hwf|]. apply Hs. vm_compute. discriminate.
Defined.

Lemma append_entries_effect_witness :
  AppendEntries 0 Follower.args (raft Follower.nd0) = Some (Follower.rf1, Follower.ok) /\
  exists e', glookup Follower.rf1 2 = Some e' /\ le_Term e' = 1.
Proof.
  assert (AppendEntries 0 Follower.args (raft Follower.nd0) =
          Some (Follower.rf1, Follower.ok)) as E by (vm_compute; reflexivity).
  split; [exact E|].
  destruct (append_entries_effect 0 Follower.args _ _ _ E eq_refl) as (_ & He & _).
  destruct (He 1%nat (Entry 1 20) eq_refl) as (e' & H1 & H2).
  exists e'. split; [exact H1|exact H2].
Defined.

Lemma append_entries_idempotent_witness :
  match AppendEntries 5 Follower.args Follower.rf1 with
  | Some (rf2, reply2) => aer_Success reply2 = true /\ log rf2 = [Entry 1 10; Entry 1 20]
  | None => False
  end.
Proof.
  apply (append_entries_idempotent 0 5 Follower.args (raft Follower.nd0) Follower.rf1
    Follower.ok); vm_compute; reflexivity.
Defined.

Lemma conflict_hint_witness :
  match AppendEntries 0 Follower.args2 Follower.rf1 with
  | Some (_, reply) => aer_Success reply = false /\ aer_ConflictTerm reply = 1 /\
                       aer_ConflictIndex reply = 1 /\ termAt Follower.rf1 0 <> 1
  | None => False
  end.
Proof.
  pose proof (conflict_hint 0 Follower.args2 Follower.rf1) as H.
  vm_compute in H. vm_compute.
  destruct (H ltac:(discriminate)) as [E|(_ & [(E & _)|(_ & _ & _ & _ & _ & Hf)])];
    try discriminate E.
  split; [reflexivity|]. split; [reflexivity|]. split; [reflexivity|].
  apply Hf. reflexivity.
Defined.

Lemma commit_rule_witness :
  match tryCommit Follower.leader with
  | Some rf' => commitIndex rf' = 1 /\ bestCommit Follower.leader 1 rf'
  | None => False
  end.
Proof.
  pose proof (commit_rule Follower.leader ltac:(vm_compute; split; congruence) eq_refl) as H.
  destruct (tryCommit Follower.leader) as [rf'|] eqn:E; [|exact H].
  split; [|exact H]. vm_compute in E. injection E as <-. reflexivity.
Defined.

Lemma replicate_from_log_witness :
  match replicateTo 2 Follower.leader with
  | Some (SendAppendEntries args) => ae_PrevLogIndex args = 0 /\ ae_Entries args = [Entry 1 10]
  | _ => False
  end.
Proof.
  pose proof (replicate_from_log 2 Follower.leader 1 eq_refl eq_refl) as H.
  vm_compute in H. vm_compute. destruct H as (_ & H & _). split; [exact H|reflexivity].
Defined.

Lemma snapshot_compacts_witness :
  match Snapshot 1 [Byte.x07] Follower.rf1 with
  | Some rf' => sameFrom 1 Follower.rf1 rf' /\ log rf' = [Entry 1 20]
  | None => False
  end.
Proof.
  pose proof (snapshot_compacts 1 [Byte.x07] Follower.rf1
    ltac:(vm_compute; split; congruence)) as H.
  destruct (Snapshot 1 [Byte.x07] Follower.rf1) as [rf'|] eqn:E; [|exact H].
  split; [apply H|]. vm_compute in E. injection E as <-. reflexivity.
Defined.

Lemma applier_delivers_witness :
  match applierTake (raft Follower.nd1) with
  | (_, Some b) => applierMsgs b !! 0%nat = Some (commandMsg 1 (Entry 1 10))
  | (_, None) => False
  end.
Proof.
  destruct (applierTake (raft Follower.nd1)) as [rf' [b|]] eqn:E;
    [|vm_compute in E; discriminate E].
  apply (applier_delivers Follower.nd1 rf' b
    (reachable_kc_wf 3 1 _ ltac:(lia) Follower.reach_kc1) eq_refl E).
  split; [vm_compute; reflexivity|]. exists (Entry 1 10). split; vm_compute; reflexivity.
Defined.

Lemma cond_install_keeps_suffix_witness :
  match CondInstallSnapshot 5 2 [] (with_log (log Follower.rf1 ++ [Entry 1 30]) Follower.rf1) with
  | Some (rf', ok) => ok = true /\ lastIncludedTerm rf' = 5 /\
                      glookup rf' 3 = Some (Entry 1 30)
  | None => False
  end.
Proof.
  pose proof (cond_install_keeps_suffix 5 2 []
    (with_log (log Follower.rf1 ++ [Entry 1 30]) Follower.rf1)
    ltac:(vm_compute; congruence) ltac:(vm_compute; split; congruence)) as H.
  destruct (CondInstallSnapshot 5 2 [] _) as [[rf' ok]|]; [|exact H].
  destruct H as (H1 & _ & H2 & _ & _ & _ & H3).
  split; [exact H1|]. split; [exact H2|]. rewrite H3; [vm_compute; reflexivity|lia].
Defined.

Lemma single_server_no_leader_witness :
  votedFor (raft Follower.alone) = 0 /\ state (raft Follower.alone) <> StateLeader.
Proof.
  split; [vm_compute; reflexivity|].
  apply (single_server_no_leader Follower.alone). eapply reach_step; [apply reach_boot|].
  apply (step_ElectionTimer Follower.lone0 0 Follower.lone_rf Follower.lone_args);
    [done|vm_compute; reflexivity].
Defined.
