(* ===== verification/RaftNet.v ===== *)
(** * A cluster of Raft peers and election safety

    [Net] is [n] peers and the set of messages sent so far.  Delivery is
    unrestricted: any message of the set may be delivered any number of times, in
    any order, or never; a peer may crash and restart from its persister at any
    moment.  This covers everything src/src/labrpc/labrpc.go can do to an RPC.  The
    theorem: there is at most one leader per term, over the whole run. *)
From S2P Require Import Prelude Persister RaftNode RaftLocal.
From stdpp Require Import functions relations.
#[local] Open Scope Z_scope.

Inductive Msg (C : Type) :=
  | MVote (src dst : Z) (args : RequestVoteArgs)
  | MVoteR (src dst : Z) (args : RequestVoteArgs) (reply : RequestVoteReply)
  | MApp (src dst : Z) (args : AppendEntriesArgs C)
  | MAppR (src dst : Z) (args : AppendEntriesArgs C) (reply : AppendEntriesReply)
  | MSnap (src dst : Z) (args : InstallSnapshotArgs)
  | MSnapR (src dst : Z) (args : InstallSnapshotArgs) (reply : InstallSnapshotReply).
Arguments MVote {C} _ _ _.
Arguments MVoteR {C} _ _ _ _.
Arguments MApp {C} _ _ _.
Arguments MAppR {C} _ _ _ _.
Arguments MSnap {C} _ _ _.
Arguments MSnapR {C} _ _ _ _.

Record Net (C : Type) := { nodes : Z -> Node C; soup : list (Msg C) }.
Arguments nodes {C} _ _.
Arguments soup {C} _.

Section net.
Context {C : Type} `{!Codec (RaftPersist C)}.
Variable n : nat.
Implicit Types (nd : Node C) (net : Net C).

(** The message an event of peer [i] consumes; a request comes from [src]. *)
Definition input (src i : Z) (ev : Event C) : option (Msg C) :=
  match ev with
  | EvRequestVote args _ => Some (MVote src i args)
  | EvVoteReply peer args reply => Some (MVoteR peer i args reply)
  | EvAppendEntries args _ => Some (MApp src i args)
  | EvInstallSnapshot args _ _ => Some (MSnap src i args)
  | EvAppendReply peer args reply => Some (MAppR peer i args reply)
  | EvSnapshotReply peer args reply => Some (MSnapR peer i args reply)
  | _ => None
  end.

(** The messages it sends. *)
Definition outputs (src i : Z) nd' (ev : Event C) : list (Msg C) :=
  match ev with
  | EvElectionTimer args => (fun p => MVote i p args) <$> otherPeers (raft nd')
  | EvRequestVote args reply => [MVoteR i src args reply]
  | EvAppendEntries args reply => [MAppR i src args reply]
  | EvInstallSnapshot args reply _ => [MSnapR i src args reply]
  | EvReplicateTo peer (SendAppendEntries args) => [MApp i peer args]
  | EvReplicateTo peer (SendInstallSnapshot args) => [MSnap i peer args]
  | _ => []
  end.

Inductive net_step net : Net C -> Prop :=
  | net_event i src ev nd' :
      0 <= i < Z.of_nat n ->
      node_step (nodes net i) ev nd' ->
      (forall m, input src i ev = Some m -> m ∈ soup net) ->
      net_step net {| nodes := <[i := nd']> (nodes net);
                      soup := outputs src i nd' ev ++ soup net |}
  | net_crash i r :
      0 <= i < Z.of_nat n ->
      net_step net {| nodes := <[i := boot n i (persister (raft (nodes net i))) r]>
                                 (nodes net);
                      soup := soup net |}.

Definition net_init (net : Net C) : Prop :=
  soup net = [] /\
  forall i, exists r, nodes net i = boot n i Persister.MakePersister r.

Definition net_reachable net : Prop :=
  exists net0, net_init net0 /\ rtc net_step net0 net.

(** ** Votes *)

(** Peer [v] gave its vote of term [t] to [c]: it answered a request with yes,
    or it is the candidate itself. *)
Definition voted net (v t c : Z) : Prop :=
  (exists dst args reply, MVoteR v dst args reply ∈ soup net /\
     rvr_VoteGranted reply = true /\ rva_Term args = t /\ rva_CandidateId args = c) \/
  (v = c /\ exists dst args, MVote v dst args ∈ soup net /\ rva_Term args = t).

Definition quorum net (t c : Z) : Prop :=
  exists Q, NoDup Q /\ Q ⊆ zrange n /\ Z.of_nat n / 2 + 1 <= zlen Q /\
    forall v, v ∈ Q -> voted net v t c.

(** The state of one running election of candidate [i]: the peers counted so
    far have voted for it and no goroutine of theirs is left. *)
Definition election_ok net (i t : Z) (el : Election) : Prop :=
  rva_Term (el_args el) = t /\ rva_CandidateId (el_args el) = i /\
  (forall p, p ∈ el_pending el -> 0 <= p < Z.of_nat n /\ p <> i) /\
  ((1 < n)%nat -> voted net i t i) /\
  exists counted, NoDup counted /\ el_votes el = 1 + zlen counted /\
    forall p, p ∈ counted ->
      0 <= p < Z.of_nat n /\ p <> i /\ p ∉ el_pending el /\ voted net p t i.

Record net_inv net : Prop := {
  inv_me i : 0 <= i < Z.of_nat n ->
    me (raft (nodes net i)) = i /\ peers (raft (nodes net i)) = n;
  inv_persisted i : 0 <= i < Z.of_nat n -> persisted (raft (nodes net i));
  inv_request src dst args : MVote src dst args ∈ soup net ->
    rva_CandidateId args = src /\ 0 <= src < Z.of_nat n;
  inv_reply src dst args reply : MVoteR src dst args reply ∈ soup net ->
    exists from, MVote from src args ∈ soup net;
  inv_voted v t c : 0 <= v < Z.of_nat n -> voted net v t c ->
    t < currentTerm (raft (nodes net v)) \/
    t = currentTerm (raft (nodes net v)) /\ votedFor (raft (nodes net v)) = c;
  inv_unique v t c1 c2 : 0 <= v < Z.of_nat n ->
    voted net v t c1 -> voted net v t c2 -> c1 = c2;
  inv_election i t el : 0 <= i < Z.of_nat n ->
    elections (nodes net i) !! t = Some el -> election_ok net i t el;
  inv_leader i : 0 <= i < Z.of_nat n -> state (raft (nodes net i)) = StateLeader ->
    quorum net (currentTerm (raft (nodes net i))) i;
}.

(** ** What single steps do to votes and leadership *)

Lemma RequestVote_granted r args (rf rf' : Raft C) reply :
  RequestVote r args rf = (rf', reply) -> rvr_VoteGranted reply = true ->
  currentTerm rf <= rva_Term args /\ currentTerm rf' = rva_Term args /\
  votedFor rf' = rva_CandidateId args /\
  (currentTerm rf = rva_Term args ->
   votedFor rf = -1 \/ votedFor rf = rva_CandidateId args).
Proof.
  unfold RequestVote, decideVote. intros H Hg.
  go_inv; cbn in *; try done; split_and!; done || lia.
Qed.

Lemma voteReply_votes args reply votes (rf rf' : Raft C) votes' :
  voteReply args reply votes rf = Some (rf', votes') ->
  votes' = votes \/ votes' = votes + 1 /\ rvr_VoteGranted reply = true.
Proof. unfold voteReply. intros H. go_inv; auto. Qed.

(** ** The invariant is inductive *)

Lemma voted_mono net net' v t c :
  soup net ⊆ soup net' -> voted net v t c -> voted net' v t c.
Proof.
  intros Hs [(dst & args & reply & Hin & ?)|(-> & dst & args & Hin & ?)].
  - left. exists dst, args, reply. auto.
  - right. split; [done|]. exists dst, args. auto.
Qed.

Lemma quorum_mono net net' t c :
  soup net ⊆ soup net' -> quorum net t c -> quorum net' t c.
Proof.
  intros Hs (Q & ? & ? & ? & HQ). exists Q. split_and!; try done.
  intros v ?. eapply voted_mono; eauto.
Qed.

Lemma election_ok_mono net net' i t el :
  soup net ⊆ soup net' -> election_ok net i t el -> election_ok net' i t el.
Proof.
  intros Hs (? & ? & ? & Hself & counted & ? & ? & Hc).
  split_and!; try done; [intros ?; eapply voted_mono; eauto|].
  exists counted. split_and!; try done. intros p Hp.
  destruct (Hc p Hp) as (? & ? & ? & ?). split_and!; try done || lia.
  eapply voted_mono; eauto.
Qed.

(** The votes a step adds. *)
Definition new_vote (i t c : Z) (ev : Event C) : Prop :=
  (exists args reply, ev = EvRequestVote args reply /\ rvr_VoteGranted reply = true /\
     rva_Term args = t /\ rva_CandidateId args = c) \/
  (exists args, ev = EvElectionTimer args /\ rva_Term args = t /\ c = i).

Lemma voted_step net net' src i ev nd' v t c :
  soup net' = outputs src i nd' ev ++ soup net ->
  voted net' v t c -> voted net v t c \/ v = i /\ new_vote i t c ev.
Proof.
  intros Hs [(dst & args & reply & Hin & Hg & Ht & Hc)|(-> & dst & args & Hin & Ht)];
    rewrite Hs in Hin; apply elem_of_app in Hin as [Hin|Hin].
  - right. unfold outputs in Hin.
    repeat case_match; simplify_eq/=;
      try (apply list_elem_of_fmap in Hin as (? & ? & ?); done);
      try (apply list_elem_of_singleton in Hin; simplify_eq); try by inv Hin.
    split; [done|]. left. by eexists _, _.
  - left. left. eauto 10.
  - right. unfold outputs in Hin.
    repeat case_match; simplify_eq/=;
      try (apply list_elem_of_singleton in Hin; done); try by inv Hin.
    apply list_elem_of_fmap in Hin as (? & ? & ?). simplify_eq.
    split; [done|]. right. by eexists.
  - left. right. eauto 10.
Qed.

Lemma voted_candidate net v t c : net_inv net -> voted net v t c -> 0 <= c < Z.of_nat n.
Proof.
  intros Hinv [(dst & args & reply & Hin & _ & _ & <-)|(<- & dst & args & Hin & _)].
  - apply (inv_reply _ Hinv) in Hin as [from Hin].
    apply (inv_request _ Hinv) in Hin as [-> ?]. done.
  - by apply (inv_request _ Hinv) in Hin as [_ ?].
Qed.

(** A vote stays on record while the peer moves forward. *)
Lemma vote_forward (rf rf' : Raft C) t c :
  forward rf rf' -> 0 <= c ->
  t < currentTerm rf \/ t = currentTerm rf /\ votedFor rf = c ->
  t < currentTerm rf' \/ t = currentTerm rf' /\ votedFor rf' = c.
Proof.
  intros [_ _ Ht Hv _] Hc [?|[-> Hvf]]; [left; lia|].
  destruct (decide (currentTerm rf = currentTerm rf')) as [E|]; [|left; lia].
  right. split; [done|]. rewrite Hv; done || lia.
Qed.

Section step.
Context (net net' : Net C) (i src : Z) (ev : Event C) (nd' : Node C).
Hypothesis (Hi : 0 <= i < Z.of_nat n).
Hypothesis (Hstep : node_step (nodes net i) ev nd').
Hypothesis (Hin : forall m, input src i ev = Some m -> m ∈ soup net).
Hypothesis (Hsoup : soup net' = outputs src i nd' ev ++ soup net).
Hypothesis (Hnodes : nodes net' = <[i := nd']> (nodes net)).
Hypothesis (Hinv : net_inv net).

Lemma step_subset : soup net ⊆ soup net'.
Proof. rewrite Hsoup. intros m Hm. apply elem_of_app. by right. Qed.

Lemma step_node_eq : nodes net' i = nd'.
Proof. rewrite Hnodes. apply fn_lookup_insert. Qed.

Lemma step_node_ne j : j <> i -> nodes net' j = nodes net j.
Proof. intros. rewrite Hnodes. by apply fn_lookup_insert_ne. Qed.

Lemma step_identity : me (raft nd') = i /\ peers (raft nd') = n.
Proof.
  destruct (inv_me _ Hinv i Hi) as [E1 E2].
  destruct (node_step_forward _ _ _ Hstep) as [F1 F2 _ _ _]. split; congruence.
Qed.

Lemma step_request src' dst args :
  MVote src' dst args ∈ soup net' -> rva_CandidateId args = src' /\ 0 <= src' < Z.of_nat n.
Proof.
  rewrite Hsoup. intros [Ho|Ho]%elem_of_app; [|by eapply inv_request].
  unfold outputs in Ho. destruct Hstep; simplify_eq/=; try by inv Ho.
  - apply list_elem_of_fmap in Ho as (? & ? & ?). simplify_eq.
    apply onElectionTimer_spec in H0 as (_ & -> & _). split; [|done].
    by apply (inv_me _ Hinv).
  - by apply list_elem_of_singleton in Ho.
  - by apply list_elem_of_singleton in Ho.
  - by apply list_elem_of_singleton in Ho.
  - repeat case_match; try by inv Ho.
    all: by apply list_elem_of_singleton in Ho.
Qed.

Lemma step_reply src' dst args reply :
  MVoteR src' dst args reply ∈ soup net' -> exists from, MVote from src' args ∈ soup net'.
Proof.
  pose proof step_subset as Hsub.
  rewrite Hsoup at 1. intros [Ho|Ho]%elem_of_app.
  - unfold outputs in Ho. destruct ev; simplify_eq/=; try by inv Ho.
    + by apply list_elem_of_fmap in Ho as (? & ? & ?).
    + apply list_elem_of_singleton in Ho. simplify_eq. exists src.
      by apply Hsub, Hin.
    + by apply list_elem_of_singleton in Ho.
    + by apply list_elem_of_singleton in Ho.
    + repeat case_match; try by inv Ho. all: by apply list_elem_of_singleton in Ho.
  - apply (inv_reply _ Hinv) in Ho as [from Ho]. exists from. by apply Hsub.
Qed.

(** The new vote is on record, and it is the only one of its term. *)
Lemma step_new_vote t c :
  new_vote i t c ev ->
  t = currentTerm (raft nd') /\ votedFor (raft nd') = c /\
  forall c', voted net i t c' -> c' = c.
Proof.
  destruct (inv_me _ Hinv i Hi) as [Hme _].
  intros [(args & reply & -> & Hg & <- & <-)|(args & -> & <- & ->)].
  - inv Hstep. apply RequestVote_granted in H3 as (? & ? & ? & Hv); [|done]. cbn.
    split_and!; try done. intros c' Hc'.
    pose proof (voted_candidate _ _ _ _ Hinv Hc').
    apply (inv_voted _ Hinv) in Hc' as [?|[Ht Hc']]; [lia| |done].
    destruct Hv as [Hv|Hv]; [done|lia|congruence].
  - inv Hstep. apply onElectionTimer_spec in H1 as (Ht & _ & Ht' & Hv & _ & _). cbn.
    split_and!; [lia|congruence|]. intros c' Hc'.
    apply (inv_voted _ Hinv) in Hc' as [?|[? _]]; [lia|lia|done].
Qed.

Lemma step_voted v t c :
  0 <= v < Z.of_nat n -> voted net' v t c ->
  t < currentTerm (raft (nodes net' v)) \/
  t = currentTerm (raft (nodes net' v)) /\ votedFor (raft (nodes net' v)) = c.
Proof.
  intros Hv Hvote. destruct (voted_step _ _ _ _ _ _ _ _ _ Hsoup Hvote) as [Hold|[-> Hnew]].
  - pose proof (voted_candidate _ _ _ _ Hinv Hold).
    apply (inv_voted _ Hinv) in Hold; [|done].
    destruct (decide (v = i)) as [->|Hne]; [|by rewrite step_node_ne].
    rewrite step_node_eq. eapply vote_forward; [|lia|done].
    by eapply node_step_forward.
  - right. rewrite step_node_eq. apply step_new_vote in Hnew as (? & ? & _). done.
Qed.

Lemma step_unique v t c1 c2 :
  0 <= v < Z.of_nat n -> voted net' v t c1 -> voted net' v t c2 -> c1 = c2.
Proof.
  intros Hv H1 H2.
  destruct (voted_step _ _ _ _ _ _ _ _ _ Hsoup H1) as [O1|[-> N1]],
    (voted_step _ _ _ _ _ _ _ _ _ Hsoup H2) as [O2|[Hvi N2]].
  - by eapply inv_unique.
  - subst v. apply step_new_vote in N2 as (_ & _ & HU). by apply HU.
  - apply step_new_vote in N1 as (_ & _ & HU). symmetry. by apply HU.
  - apply step_new_vote in N1 as (_ & <- & _). by apply step_new_vote in N2 as (_ & <- & _).
Qed.

Lemma elem_of_otherPeers (rf : Raft C) p :
  p ∈ otherPeers rf <-> 0 <= p < Z.of_nat (peers rf) /\ p <> me rf.
Proof. unfold otherPeers. rewrite list_elem_of_filter, elem_of_zrange. tauto. Qed.

Lemma start_election_ok args :
  ev = EvElectionTimer args ->
  election_ok net' i (rva_Term args)
    {| el_args := args; el_votes := 1; el_pending := otherPeers (raft nd') |}.
Proof.
  destruct step_identity as [Hme Hp]. destruct (inv_me _ Hinv i Hi) as [Hme0 _].
  intros ->. inv Hstep. apply onElectionTimer_spec in H1 as (Ht & Hc & _). cbn in *.
  split_and!; cbn; [done|congruence| | |].
  - intros p Hp'%elem_of_otherPeers. rewrite Hme, Hp in Hp'. done.
  - intros Hn. right. split; [done|].
    exists (if decide (i = 0) then 1 else 0), args. split; [|done]. rewrite Hsoup.
    apply elem_of_app. left. cbn. apply list_elem_of_fmap. eexists. split; [done|].
    apply elem_of_otherPeers. rewrite Hme, Hp. case_decide; lia.
  - exists []. split_and!; [constructor|done|]. intros p Hp'. by inv Hp'.
Qed.

Lemma count_vote_ok peer args reply el votes rf' :
  ev = EvVoteReply peer args reply -> el_args el = args -> peer ∈ el_pending el ->
  voteReply args reply (el_votes el) (raft (nodes net i)) = Some (rf', votes) ->
  election_ok net i (rva_Term args) el ->
  election_ok net' i (rva_Term args) (note_vote peer votes el).
Proof.
  intros Hev <- Hpend Hvr Hok. apply (election_ok_mono _ net') in Hok; [|apply step_subset].
  assert (MVoteR peer i (el_args el) reply ∈ soup net') as Hmsg.
  { apply step_subset, Hin. by rewrite Hev. }
  destruct Hok as (Ht & Hc & Hpd & Hself & counted & HN & Hvotes & Hcnt).
  assert (forall p, p ∈ counted -> p ∉ filter (fun q => q <> peer) (el_pending el)) as Hout.
  { intros p Hp [_ ?]%list_elem_of_filter. by apply Hcnt in Hp as (_ & _ & ? & _). }
  split_and!; cbn; [done|done| |done|].
  - intros p [_ Hp]%list_elem_of_filter. by apply Hpd.
  - apply voteReply_votes in Hvr as [->|[-> Hg]].
    + exists counted. split_and!; [done|done|]. intros p Hp.
      destruct (Hcnt p Hp) as (? & ? & _ & ?). split_and!; auto; lia.
    + exists (peer :: counted). split_and!.
      * apply NoDup_cons. split; [|done]. by intros (_ & _ & ? & _)%Hcnt.
      * rewrite zlen_cons. lia.
      * intros p [->|Hp]%elem_of_cons.
        -- destruct (Hpd peer Hpend) as [? ?]. split_and!; try done || lia.
           ++ rewrite list_elem_of_filter. tauto.
           ++ left. by exists i, (el_args el), reply.
        -- destruct (Hcnt p Hp) as (? & ? & _ & ?). split_and!; auto; lia.
Qed.

Lemma step_election j t el :
  0 <= j < Z.of_nat n -> elections (nodes net' j) !! t = Some el -> election_ok net' j t el.
Proof.
  intros Hj Hel. pose proof step_subset as Hsub.
  destruct (decide (j = i)) as [->|Hne].
  2:{ rewrite step_node_ne in Hel by done. eapply election_ok_mono; [done|].
      by eapply inv_election. }
  rewrite step_node_eq in Hel.
  assert (elections (nodes net i) !! t = Some el -> election_ok net' i t el) as Hold.
  { intros. eapply election_ok_mono; [done|]. by eapply inv_election. }
  pose proof start_election_ok as HS. pose proof count_vote_ok as HC.
  destruct Hstep; cbn in Hel; auto.
  - apply lookup_insert_Some in Hel as [[<- <-]|[_ ?]]; auto.
  - apply lookup_insert_Some in Hel as [[<- <-]|[_ ?]]; auto.
    eapply HC; eauto. by eapply inv_election.
Qed.

Lemma step_leader j :
  0 <= j < Z.of_nat n -> state (raft (nodes net' j)) = StateLeader ->
  quorum net' (currentTerm (raft (nodes net' j))) j.
Proof.
  intros Hj Hl. pose proof step_subset as Hsub.
  destruct (decide (j = i)) as [->|Hne].
  2:{ rewrite step_node_ne in * by done. eapply quorum_mono; [done|].
      by apply inv_leader. }
  pose proof (step_election i) as Hel. rewrite step_node_eq in *.
  destruct (node_step_leader _ _ _ Hstep Hl) as
    [[Hl0 ->]|(peer & args & reply & el & Hev & Hpend & Hel0 & Hargs & Hels & Ht & Hmaj)].
  { eapply quorum_mono; [done|]. by apply inv_leader. }
  destruct (inv_election _ Hinv i _ el Hi Hel0) as (_ & _ & Hpd & _).
  destruct (Hel (rva_Term args) (note_vote peer (el_votes el + 1) el) Hj)
    as (_ & _ & _ & Hself & counted & HN & Hvotes & Hcnt).
  { rewrite Hels. apply lookup_insert_eq. }
  destruct (Hpd peer Hpend) as [? ?]. cbn in Hvotes. rewrite Ht.
  destruct (inv_me _ Hinv i Hi) as [_ Hp]. unfold majority in Hmaj. rewrite Hp in Hmaj.
  exists (i :: counted). split_and!.
  - apply NoDup_cons. split; [|done]. by intros (_ & ? & _)%Hcnt.
  - intros p [->|Hp']%elem_of_cons; apply elem_of_zrange; [done|]. by apply Hcnt.
  - rewrite zlen_cons. lia.
  - intros p [->|Hp']%elem_of_cons; [apply Hself; lia|]. by apply Hcnt.
Qed.

Lemma node_step_inv : net_inv net'.
Proof.
  split.
  - intros j Hj. destruct (decide (j = i)) as [->|].
    + rewrite step_node_eq. apply step_identity.
    + rewrite step_node_ne by done. by apply inv_me.
  - intros j Hj. destruct (decide (j = i)) as [->|].
    + rewrite step_node_eq. eapply node_step_persisted; [done|]. by apply inv_persisted.
    + rewrite step_node_ne by done. by apply inv_persisted.
  - apply step_request.
  - apply step_reply.
  - apply step_voted.
  - apply step_unique.
  - apply step_election.
  - apply step_leader.
Qed.
End step.

(** A reboot keeps identity, term, vote, log and snapshot. *)
Lemma boot_forward `{!CodecLaws (RaftPersist C)} nd i r :
  me (raft nd) = i -> peers (raft nd) = n -> persisted (raft nd) ->
  forward (raft nd) (Make n i (persister (raft nd)) r).
Proof.
  intros Hme Hp Hps. pose proof (Make_persistent n i _ r Hps) as HP.
  unfold persistent in HP. injection HP as Ht Hv _ Hl _.
  assert (forall ps, me (Make n i ps r : Raft C) = i /\ peers (Make n i ps r : Raft C) = n)
    as HM by (intros; unfold Make, readPersist; bcase; [done|by destruct (dec _)]).
  destruct (HM (persister (raft nd))). split; first [congruence|lia].
Qed.

Lemma Make_follower i ps r : state (Make n i ps r : Raft C) = StateFollower.
Proof. unfold Make, readPersist. bcase; [done|]. by destruct (dec _). Qed.

Lemma crash_inv `{!CodecLaws (RaftPersist C)} net i r :
  0 <= i < Z.of_nat n -> net_inv net ->
  net_inv {| nodes := <[i := boot n i (persister (raft (nodes net i))) r]> (nodes net);
             soup := soup net |}.
Proof.
  intros Hi Hinv. destruct (inv_me _ Hinv i Hi) as [Hme Hp].
  pose proof (inv_persisted _ Hinv i Hi) as Hps.
  pose proof (boot_forward (nodes net i) i r Hme Hp Hps) as Hfw.
  assert (forall (P : Z -> Node C -> Prop),
    P i (boot n i (persister (raft (nodes net i))) r) ->
    (forall j, 0 <= j < Z.of_nat n -> P j (nodes net j)) ->
    forall j, 0 <= j < Z.of_nat n ->
      P j ((<[i := boot n i (persister (raft (nodes net i))) r]> (nodes net)) j)) as Hsplit.
  { intros P H1 H2 j Hj. destruct (decide (j = i)) as [->|].
    - by rewrite fn_lookup_insert.
    - rewrite fn_lookup_insert_ne by done. by apply H2. }
  split; cbn [nodes soup].
  - apply (Hsplit (fun j nd => me (raft nd) = j /\ peers (raft nd) = n)); [|apply Hinv].
    destruct Hfw as [F1 F2 _ _ _]. cbn. split; congruence.
  - apply (Hsplit (fun j nd => persisted (raft nd))); [|apply Hinv]. cbn [raft boot].
    unfold persisted. by rewrite Make_persistent, Make_persister.
  - apply Hinv.
  - apply Hinv.
  - intros v t c Hv Hvote. revert v Hv Hvote.
    apply (Hsplit (fun v nd => voted {| nodes := _; soup := soup net |} v t c ->
      t < currentTerm (raft nd) \/ t = currentTerm (raft nd) /\ votedFor (raft nd) = c)).
    + intros Hvote. pose proof (voted_candidate net _ _ _ Hinv Hvote).
      eapply vote_forward; [done|lia|]. by apply (inv_voted _ Hinv).
    + intros j Hj Hvote. by apply (inv_voted _ Hinv).
  - apply Hinv.
  - intros j t el Hj Hel. destruct (decide (j = i)) as [->|].
    + by rewrite fn_lookup_insert in Hel.
    + rewrite fn_lookup_insert_ne in Hel by done. by apply (inv_election _ Hinv).
  - intros j Hj. destruct (decide (j = i)) as [->|].
    + rewrite fn_lookup_insert. cbn [raft boot]. by rewrite Make_follower.
    + rewrite fn_lookup_insert_ne by done. by apply (inv_leader _ Hinv).
Qed.

Lemma init_inv net : net_init net -> net_inv net.
Proof.
  intros [Hs Hn].
  assert (forall v t c, ~ voted net v t c) as Hnv.
  { unfold voted. rewrite Hs. intros v t c [(? & ? & ? & Hin & _)|(_ & ? & ? & Hin & _)];
      by inv Hin. }
  split.
  - intros i Hi. by destruct (Hn i) as [r ->].
  - intros i Hi. destruct (Hn i) as [r ->]. by right.
  - intros src dst args Hin. rewrite Hs in Hin. by inv Hin.
  - intros src dst args reply Hin. rewrite Hs in Hin. by inv Hin.
  - intros v t c _ Hv. by apply Hnv in Hv.
  - intros v t c1 c2 _ Hv. by apply Hnv in Hv.
  - intros i t el _. by destruct (Hn i) as [r ->].
  - intros i _. by destruct (Hn i) as [r ->].
Qed.

Lemma net_step_inv `{!CodecLaws (RaftPersist C)} net net' :
  net_step net net' -> net_inv net -> net_inv net'.
Proof.
  intros [i src ev nd' Hi Hs Hin|i r Hi] Hinv; [|by apply crash_inv].
  by eapply node_step_inv.
Qed.

Lemma rtc_inv `{!CodecLaws (RaftPersist C)} net net' :
  rtc net_step net net' -> net_inv net -> net_inv net'.
Proof. induction 1; eauto using net_step_inv. Qed.

Lemma rtc_soup net net' : rtc net_step net net' -> soup net ⊆ soup net'.
Proof.
  induction 1 as [|net1 net2 net3 Hs _ IH]; [done|]. etrans; [|done].
  destruct Hs; cbn; [|done]. intros m Hm. apply elem_of_app. by right.
Qed.

Lemma quorum_unique net t c1 c2 :
  net_inv net -> quorum net t c1 -> quorum net t c2 -> c1 = c2.
Proof.
  intros Hinv (Q1 & HN1 & HS1 & HL1 & HV1) (Q2 & HN2 & HS2 & HL2 & HV2).
  destruct (quorum_intersection (zrange n) Q1 Q2) as (v & Hv1 & Hv2); try done.
  { rewrite length_zrange. unfold zlen in *. Z.to_euclidean_division_equations. lia. }
  eapply (inv_unique _ Hinv v t); eauto. by apply elem_of_zrange, HS1.
Qed.

(** Two leaders of one term are one peer, when all votes known to one are known to the other. *)
Lemma leaders_unique net net' i j :
  net_inv net -> net_inv net' -> soup net ⊆ soup net' ->
  0 <= i < Z.of_nat n -> 0 <= j < Z.of_nat n ->
  state (raft (nodes net i)) = StateLeader ->
  state (raft (nodes net' j)) = StateLeader ->
  currentTerm (raft (nodes net i)) = currentTerm (raft (nodes net' j)) ->
  i = j.
Proof.
  intros Hinv Hinv' Hs Hi Hj Hli Hlj Ht. eapply (quorum_unique net'); [done| |by apply inv_leader].
  rewrite <- Ht. eapply quorum_mono; [done|]. by apply inv_leader.
Qed.

(** C7: election safety.  In any run of a cluster of [n] peers, with messages lost,
    duplicated, delayed and reordered at will and with peers crashing and
    restarting from their persisters, two peers that are leaders of the same term
    (at the same or at different moments of the run) are the same peer. *)
Theorem election_safety `{!CodecLaws (RaftPersist C)} net net' i j :
  net_reachable net -> rtc net_step net net' ->
  0 <= i < Z.of_nat n -> 0 <= j < Z.of_nat n ->
  state (raft (nodes net i)) = StateLeader ->
  state (raft (nodes net' j)) = StateLeader ->
  currentTerm (raft (nodes net i)) = currentTerm (raft (nodes net' j)) ->
  i = j.
Proof.
  intros (net0 & Hinit & Hr0) Hr.
  pose proof (rtc_inv _ _ Hr0 (init_inv _ Hinit)) as Hinv.
  apply leaders_unique; [done|by eapply rtc_inv|by apply rtc_soup].
Qed.
End net.

(** ** A concrete run: peer 0 of three is elected *)
Import IntCommands.
Module Demo.

Definition net0 : Net Z :=
  {| nodes := fun i => boot 3 i Persister.MakePersister 0; soup := [] |}.

Lemma net0_init : net_init 3 net0.
Proof. split; [done|]. intros i. by exists 0. Qed.

(** The request vote of peer 0 for term 1 and the states it leads to. *)
Definition args : RequestVoteArgs :=
  {| rva_Term := 1; rva_CandidateId := 0; rva_LastLogIndex := 0; rva_LastLogTerm := 0 |}.
Definition yes : RequestVoteReply := {| rvr_Term := 1; rvr_VoteGranted := true |}.

Definition candidate_rf : Raft Z := (onElectionTimer 0 (raft (nodes net0 0))).1.
Definition el : Election :=
  {| el_args := args; el_votes := 1; el_pending := otherPeers candidate_rf |}.
Definition candidate : Node Z :=
  {| raft := candidate_rf;
     elections := <[rva_Term args := el]> (elections (nodes net0 0));
     batch := batch (nodes net0 0) |}.
Definition net1 : Net Z :=
  {| nodes := <[0 := candidate]> (nodes net0); soup := [MVote 0 1 args; MVote 0 2 args] |}.

Definition voter_rf : Raft Z := (RequestVote 0 args (raft (nodes net1 1))).1.
Definition voter : Node Z := with_rf voter_rf (nodes net1 1).
Definition net2 : Net Z :=
  {| nodes := <[1 := voter]> (nodes net1); soup := MVoteR 1 0 args yes :: soup net1 |}.

Definition leader_rf : Raft Z :=
  default (raft candidate) (fst <$> voteReply args yes 1 (raft candidate)).
Definition leader : Node Z :=
  {| raft := leader_rf;
     elections := <[rva_Term args := note_vote 1 2 el]> (elections candidate);
     batch := batch candidate |}.
Definition net3 : Net Z :=
  {| nodes := <[0 := leader]> (nodes net2); soup := soup net2 |}.

Lemma step1 : net_step 3 net0 net1.
Proof.
  apply (net_event 3 net0 0 0 (EvElectionTimer args) candidate); [lia| |done].
  apply (step_ElectionTimer (nodes net0 0) 0 candidate_rf args); [done|].
  vm_compute. reflexivity.
Qed.

Lemma step2 : net_step 3 net1 net2.
Proof.
  apply (net_event 3 net1 1 0 (EvRequestVote args yes) voter); [lia| |].
  - apply (step_RequestVote (nodes net1 1) 0 args voter_rf yes); [done|].
    vm_compute. reflexivity.
  - intros m [= <-]. constructor.
Qed.

Lemma step3 : net_step 3 net2 net3.
Proof.
  apply (net_event 3 net2 0 1 (EvVoteReply 1 args yes) leader); [lia| |].
  - change (nodes net2 0) with candidate.
    apply (step_VoteReply candidate 1 args yes el leader_rf 2).
    + apply lookup_insert_eq.
    + done.
    + constructor.
    + vm_compute. reflexivity.
  - intros m [= <-]. constructor.
Qed.

Lemma net3_reachable : net_reachable 3 net3.
Proof.
  exists net0. split; [apply net0_init|].
  do 3 (eapply rtc_l; [first [apply step1|apply step2|apply step3]|]). apply rtc_refl.
Qed.
End Demo.

Lemma election_safety_witness :
  net_reachable 3 Demo.net3 /\
  state (raft (nodes Demo.net3 0)) = StateLeader /\
  (forall net' j, rtc (net_step 3) Demo.net3 net' -> 0 <= j < 3 ->
     state (raft (nodes net' j)) = StateLeader ->
     currentTerm (raft (nodes net' j)) = 1 -> 0 = j).
Proof.
  split; [apply Demo.net3_reachable|]. split; [vm_compute; reflexivity|].
  intros net' j Hr Hj Hl Ht.
  apply (election_safety 3 Demo.net3 net' 0 j Demo.net3_reachable Hr ltac:(lia) Hj);
    [vm_compute; reflexivity|done|].
  rewrite Ht. vm_compute. reflexivity.
Defined.
