(* ===== verification/RaftSpec.v ===== *)
(** * The Raft protocol, abstractly

    [Abs] is a cluster reduced to what safety depends on: the term and the log of
    every peer, the votes given, the log each candidate ran with, the log of the
    leader of each term and which prefix of it each peer has acknowledged.  There
    are no messages, no timers and no indices; [abs_step] has one rule per thing
    that can happen.  A follower of src/src/raft/raft.go compares terms entry by
    entry; here it takes the leader's prefix unless it has it already.  The
    invariant [abs_inv] gives log matching, leader completeness and agreement on
    committed prefixes; RaftRefine shows that the cluster of raft.go only does
    what these rules allow. *)
From S2P Require Import Prelude Persister RaftNode RaftLocal RaftInv RaftLog.
From stdpp Require Import functions relations.
#[local] Open Scope Z_scope.

Record Abs (C : Type) := {
  a_term : Z -> Z;
  a_log : Z -> list (LogEntry C);
  a_vote : gmap (Z * Z) Z;
  a_cand : gmap (Z * Z) (list (LogEntry C));
  a_lead : gmap Z (Z * list (LogEntry C));
  a_ack : list (Z * Z * nat);
}.
Arguments a_term {C} _ _.
Arguments a_log {C} _ _.
Arguments a_vote {C} _.
Arguments a_cand {C} _.
Arguments a_lead {C} _.
Arguments a_ack {C} _.

(** A property of every value of a function updated at one point. *)
Lemma fn_insert_case {A B} `{EqDecision A} (P : A -> B -> Prop) (f : A -> B) i x :
  P i x -> (forall j, j <> i -> P j (f j)) -> forall j, P j ((<[i := x]> f) j).
Proof.
  intros Hi Hj j. destruct (decide (j = i)) as [->|]; [by rewrite fn_lookup_insert|].
  rewrite fn_lookup_insert_ne by done. by apply Hj.
Qed.

Section spec.
Context {C : Type}.
Variable n : nat.
Implicit Types (s : Abs C) (l L : list (LogEntry C)).

Definition isQuorum (Q : list Z) : Prop :=
  NoDup Q /\ Q ⊆ zrange n /\ Z.of_nat n / 2 + 1 <= zlen Q.

(** The last index and the last term of a log, as elections compare them. *)
Definition logInfo l : Z * Z :=
  (zlen l, match last l with Some e => le_Term e | None => 0 end).

(** The keys of [a_vote] are (voter, term), those of [a_cand] (term, candidate);
    a member (i, t, m) of [a_ack] says that peer [i] holds the first [m] entries
    of the leader of term [t]. *)
Inductive abs_step s : Abs C -> Prop :=
  | abs_bump i t :
      a_term s i < t ->
      abs_step s {| a_term := <[i := t]> (a_term s); a_log := a_log s;
                    a_vote := a_vote s; a_cand := a_cand s; a_lead := a_lead s;
                    a_ack := a_ack s |}
  | abs_timeout i t :
      t = a_term s i + 1 ->
      abs_step s {| a_term := <[i := t]> (a_term s); a_log := a_log s;
                    a_vote := <[(i, t) := i]> (a_vote s);
                    a_cand := <[(t, i) := a_log s i]> (a_cand s);
                    a_lead := a_lead s; a_ack := a_ack s |}
  | abs_grant v t c l :
      a_term s v = t ->
      a_vote s !! (v, t) = None \/ a_vote s !! (v, t) = Some c ->
      a_cand s !! (t, c) = Some l ->
      upToDate (logInfo l) (logInfo (a_log s v)) ->
      abs_step s {| a_term := a_term s; a_log := a_log s;
                    a_vote := <[(v, t) := c]> (a_vote s); a_cand := a_cand s;
                    a_lead := a_lead s; a_ack := a_ack s |}
  | abs_elect c t Q :
      a_term s c = t -> isQuorum Q ->
      (forall v, v ∈ Q -> a_vote s !! (v, t) = Some c) ->
      a_cand s !! (t, c) = Some (a_log s c) ->
      a_lead s !! t = None ->
      abs_step s {| a_term := a_term s; a_log := a_log s; a_vote := a_vote s;
                    a_cand := a_cand s;
                    a_lead := <[t := (c, a_log s c)]> (a_lead s);
                    a_ack := a_ack s |}
  | abs_append c t l cmd :
      a_term s c = t -> a_lead s !! t = Some (c, a_log s c) ->
      l = a_log s c ++ [Entry t cmd] ->
      abs_step s {| a_term := a_term s; a_log := <[c := l]> (a_log s);
                    a_vote := a_vote s; a_cand := a_cand s;
                    a_lead := <[t := (c, l)]> (a_lead s);
                    a_ack := (c, t, length l) :: a_ack s |}
  | abs_keep i t c L m :
      a_term s i = t -> a_lead s !! t = Some (c, L) -> (m <= length L)%nat ->
      take m (a_log s i) = take m L ->
      abs_step s {| a_term := a_term s; a_log := a_log s; a_vote := a_vote s;
                    a_cand := a_cand s; a_lead := a_lead s;
                    a_ack := (i, t, m) :: a_ack s |}
  | abs_replace i t c L m :
      a_term s i = t -> a_lead s !! t = Some (c, L) -> (m <= length L)%nat ->
      take m (a_log s i) <> take m L ->
      abs_step s {| a_term := a_term s; a_log := <[i := take m L]> (a_log s);
                    a_vote := a_vote s; a_cand := a_cand s; a_lead := a_lead s;
                    a_ack := (i, t, m) :: a_ack s |}.

Definition abs_init s : Prop :=
  (forall i, a_term s i = 0 /\ a_log s i = []) /\
  a_vote s = ∅ /\ a_cand s = ∅ /\ a_lead s = ∅ /\ a_ack s = [].

Definition abs_reachable s : Prop := exists s0, abs_init s0 /\ rtc abs_step s0 s.

(** ** What the invariant is about *)

(** Every prefix of [l] that ends with an entry of term [t] is a prefix of the
    log of the leader of [t]. *)
Definition matching s l : Prop :=
  forall k e, l !! k = Some e ->
    exists c L, a_lead s !! le_Term e = Some (c, L) /\ take (S k) l = take (S k) L.

(** Peer [v] holds at least the first [m] entries of the leader of [t]. *)
Definition acked s (v t : Z) (m : nat) : Prop :=
  exists m', (m <= m')%nat /\ (v, t, m') ∈ a_ack s.

(** [L] is the log of the leader of [t], and it wrote the entry [k] itself. *)
Definition own s (t : Z) (k : nat) L : Prop :=
  exists c e, a_lead s !! t = Some (c, L) /\ L !! k = Some e /\ le_Term e = t.

(** Entry [k] of the leader of [t] is on a majority, so it is committed. *)
Definition committed s (t : Z) (k : nat) : Prop :=
  exists L Q, own s t k L /\ isQuorum Q /\ forall v, v ∈ Q -> acked s v t (S k).

(** It can never be: a majority left the term without acknowledging it. *)
Definition blocked s (t : Z) (k : nat) : Prop :=
  exists Q, isQuorum Q /\ forall v, v ∈ Q -> t < a_term s v /\ ~ acked s v t (S k).

(** [l] holds entry [k] of the leader of [t] and all before it, unless that entry
    will never be committed. *)
Definition safe s l (t : Z) (k : nat) : Prop :=
  forall L, own s t k L -> take (S k) l = take (S k) L \/ blocked s t k.

Record abs_inv s : Prop := {
  ai_term i : 0 <= a_term s i;
  ai_cand t c l : a_cand s !! (t, c) = Some l ->
    1 <= t <= a_term s c /\ matching s l /\ (forall e, e ∈ l -> le_Term e < t);
  ai_vote v t c : a_vote s !! (v, t) = Some c ->
    t <= a_term s v /\ is_Some (a_cand s !! (t, c));
  ai_lead t c L : a_lead s !! t = Some (c, L) ->
    1 <= t <= a_term s c /\ matching s L /\ (forall e, e ∈ L -> le_Term e <= t) /\
    (forall i j x y, (i <= j)%nat -> L !! i = Some x -> L !! j = Some y ->
       le_Term x <= le_Term y) /\
    (a_term s c = t -> a_log s c = L);
  ai_elected t c L : a_lead s !! t = Some (c, L) ->
    exists Q, isQuorum Q /\ forall v, v ∈ Q -> a_vote s !! (v, t) = Some c;
  ai_log i : matching s (a_log s i) /\ forall e, e ∈ a_log s i -> le_Term e <= a_term s i;
  ai_ack i t m : (i, t, m) ∈ a_ack s ->
    t <= a_term s i /\ exists c L, a_lead s !! t = Some (c, L) /\ (m <= length L)%nat;
  ai_own t k c L e : a_lead s !! t = Some (c, L) -> L !! k = Some e -> le_Term e = t ->
    acked s c t (S k);
  ai_held i t k : acked s i t (S k) -> safe s (a_log s i) t k;
  ai_voted v t' c l t k : a_vote s !! (v, t') = Some c -> a_cand s !! (t', c) = Some l ->
    t < t' -> acked s v t (S k) -> safe s l t k;
  ai_complete t t' c' L' k : t < t' -> a_lead s !! t' = Some (c', L') -> safe s L' t k;
}.

(** ** What no step undoes *)

Record extends s s' : Prop := {
  ex_term i : a_term s i <= a_term s' i;
  ex_vote k c : a_vote s !! k = Some c -> a_vote s' !! k = Some c;
  ex_cand k l : a_cand s !! k = Some l -> a_cand s' !! k = Some l;
  ex_lead t c L : a_lead s !! t = Some (c, L) ->
    exists L2, a_lead s' !! t = Some (c, L ++ L2);
  ex_ack x : x ∈ a_ack s -> x ∈ a_ack s';
  ex_ack_new v t m : (v, t, m) ∈ a_ack s' -> (v, t, m) ∈ a_ack s \/ a_term s v <= t;
}.

Lemma extends_refl s : extends s s.
Proof. split; eauto. - done. - intros t c L H. exists []. by rewrite app_nil_r. Qed.

Lemma extends_trans s1 s2 s3 : extends s1 s2 -> extends s2 s3 -> extends s1 s3.
Proof.
  intros [T1 V1 C1 L1 A1 N1] [T2 V2 C2 L2 A2 N2]. split; eauto.
  - intros i. etrans; eauto.
  - intros t c L H. destruct (L1 _ _ _ H) as [X HX]. destruct (L2 _ _ _ HX) as [Y HY].
    exists (X ++ Y). by rewrite (assoc_L (++)).
  - intros v t m H. destruct (N2 _ _ _ H) as [?|?]; [by apply N1|].
    right. specialize (T1 v). lia.
Qed.

Lemma matching_mono s s' l : extends s s' -> matching s l -> matching s' l.
Proof.
  intros Hex Hm k e He. destruct (Hm k e He) as (c & L & HL & E).
  destruct (ex_lead _ _ Hex _ _ _ HL) as [L2 HL2]. exists c, (L ++ L2). split; [done|].
  apply take_app_same; [done|]. apply lookup_lt_Some in He. lia.
Qed.

Lemma matching_take s l m : matching s l -> matching s (take m l).
Proof.
  intros Hm k e [He Hk]%lookup_take_Some. destruct (Hm k e He) as (c & L & HL & E).
  exists c, L. split; [done|]. rewrite take_take. by replace (S k `min` m)%nat with (S k) by lia.
Qed.

Lemma acked_mono s s' v t m : extends s s' -> acked s v t m -> acked s' v t m.
Proof. intros Hex (m' & ? & ?). exists m'. split; [done|]. by apply (ex_ack _ _ Hex). Qed.

Lemma acked_back s s' v t m :
  extends s s' -> acked s' v t m -> acked s v t m \/ a_term s v <= t.
Proof.
  intros Hex (m' & ? & H). destruct (ex_ack_new _ _ Hex _ _ _ H); [|by right].
  left. by exists m'.
Qed.

Lemma blocked_mono s s' t k : extends s s' -> blocked s t k -> blocked s' t k.
Proof.
  intros Hex (Q & HQ & HB). exists Q. split; [done|]. intros v Hv.
  destruct (HB v Hv) as [Ht Hna]. pose proof (ex_term _ _ Hex v). split; [lia|].
  intros Ha. destruct (acked_back _ _ _ _ _ Hex Ha); [done|lia].
Qed.

Lemma own_mono s s' t k L :
  extends s s' -> own s t k L -> exists L2, own s' t k (L ++ L2).
Proof.
  intros Hex (c & e & HL & He & Ht). destruct (ex_lead _ _ Hex _ _ _ HL) as [L2 HL2].
  exists L2, c, e. split_and!; try done. by apply lookup_app_l_Some.
Qed.

Lemma own_unique s t k k' L L' : own s t k L -> own s t k' L' -> L = L'.
Proof. intros (? & ? & ? & _) (? & ? & ? & _). congruence. Qed.

Lemma own_length s t k L : own s t k L -> (k < length L)%nat.
Proof. intros (? & ? & _ & ?%lookup_lt_Some & _). done. Qed.

Lemma committed_mono s s' t k : extends s s' -> committed s t k -> committed s' t k.
Proof.
  intros Hex (L & Q & Ho & HQ & HA). destruct (own_mono _ _ _ _ _ Hex Ho) as [L2 Ho2].
  exists (L ++ L2), Q. split_and!; try done. intros v Hv. eapply acked_mono; eauto.
Qed.

(** An entry the leader of [t] wrote before is settled as it was. *)
Lemma safe_mono s s' l t k L :
  extends s s' -> own s t k L -> safe s l t k -> safe s' l t k.
Proof.
  intros Hex Ho Hs L' Ho'. destruct (own_mono _ _ _ _ _ Hex Ho) as [L2 Ho2].
  rewrite (own_unique _ _ _ _ _ _ Ho' Ho2).
  destruct (Hs L Ho) as [E|HB]; [left|right; by eapply blocked_mono].
  rewrite take_app_le; [done|]. apply own_length in Ho. lia.
Qed.

Lemma quorum_meets Q1 Q2 : isQuorum Q1 -> isQuorum Q2 -> exists v, v ∈ Q1 /\ v ∈ Q2.
Proof.
  intros (HN1 & HS1 & HL1) (HN2 & HS2 & HL2). apply (quorum_intersection (zrange n)); try done.
  rewrite length_zrange. unfold zlen in *. Z.to_euclidean_division_equations. lia.
Qed.

Lemma committed_not_blocked s t k : committed s t k -> ~ blocked s t k.
Proof.
  intros (L & Q1 & _ & HQ1 & H1) (Q2 & HQ2 & H2).
  destruct (quorum_meets _ _ HQ1 HQ2) as (v & Hv1 & Hv2).
  destruct (H2 v Hv2) as [_ Hn]. by apply Hn, H1.
Qed.

(** ** The invariant is inductive *)

Lemma abs_step_extends s s' : abs_inv s -> abs_step s s' -> extends s s'.
Proof.
  intros Hinv Hs. destruct Hs; split; cbn; try done;
    try (intros t0 c0 L0 HL0; exists []; rewrite app_nil_r; done);
    try (intros; set_solver); try (by left);
    try (apply (fn_insert_case (fun j t => a_term s j <= t)); [lia|done]).
  - intros [v t0] c0 Hv. rewrite lookup_insert_ne; [done|]. intros [= <- <-].
    apply (ai_vote _ Hinv) in Hv as [? _]. lia.
  - intros [t0 c] l Hl. rewrite lookup_insert_ne; [done|]. intros [= <- <-].
    apply (ai_cand _ Hinv) in Hl as [? _]. lia.
  - intros [v' t0] c0 Hv. destruct (decide ((v', t0) = (v, t))) as [[= -> ->]|].
    + rewrite lookup_insert_eq. naive_solver.
    + by rewrite lookup_insert_ne.
  - intros t0 c0 L0 HL0. exists []. rewrite app_nil_r, lookup_insert_ne; [done|].
    intros ->. congruence.
  - intros t0 c0 L0 HL0. destruct (decide (t = t0)) as [->|].
    + exists [Entry t0 cmd]. rewrite lookup_insert_eq. naive_solver.
    + exists []. by rewrite app_nil_r, lookup_insert_ne.
Qed.

(** Logs in order of their terms. *)
Lemma matching_sorted s l i j x y :
  abs_inv s -> matching s l -> (i <= j)%nat -> l !! i = Some x -> l !! j = Some y ->
  le_Term x <= le_Term y.
Proof.
  intros Hinv Hm Hij Hx Hy. destruct (Hm j y Hy) as (c & L & HL & E).
  destruct (ai_lead _ Hinv _ _ _ HL) as (_ & _ & _ & Hsort & _).
  apply (Hsort i j); [done|..].
  - by rewrite <- (take_lookup_eq _ _ _ _ E) by lia.
  - by rewrite <- (take_lookup_eq _ _ _ _ E) by lia.
Qed.

(** A log at least as up to date as one that holds the entry [k] of term [t] holds
    it too, or that entry is settled otherwise. *)
Lemma up_to_date_safe s l l' t k L :
  abs_inv s -> matching s l -> matching s l' -> own s t k L ->
  take (S k) l' = take (S k) L -> upToDate (logInfo l) (logInfo l') ->
  take (S k) l = take (S k) L \/ blocked s t k.
Proof.
  intros Hinv Hm Hm' Ho E Hup. pose proof Ho as (c & e & HL & He & Ht).
  assert (l' !! k = Some e) as He' by (rewrite (take_lookup_eq _ _ _ _ E); [done|lia]).
  assert (k < length l')%nat as Hlen' by by eapply lookup_lt_Some.
  destruct (ai_lead _ Hinv _ _ _ HL) as ([Ht1 _] & _).
  unfold upToDate, logInfo in Hup. cbn in Hup.
  rewrite !last_lookup in Hup.
  destruct (lookup_lt_is_Some_2 l' (pred (length l'))) as [y Hy]; [lia|].
  rewrite Hy in Hup.
  assert (t <= le_Term y) as Hty.
  { rewrite <- Ht. eapply (matching_sorted _ l' k (pred (length l'))); eauto with lia. }
  destruct (l !! pred (length l)) as [x|] eqn:Hx; [|lia].
  destruct (Hm _ _ Hx) as (cx & Lx & HLx & Ex).
  pose proof (lookup_lt_Some _ _ _ Hx) as Hlx.
  replace (S (pred (length l))) with (length l) in Ex by lia.
  rewrite firstn_all in Ex.
  destruct (decide (le_Term x = t)) as [Hxt|Hxt].
  - left. assert (Lx = L) as -> by congruence. rewrite Ex, take_take. f_equal.
    unfold zlen in Hup. lia.
  - destruct (ai_complete _ Hinv t (le_Term x) cx Lx k ltac:(lia) HLx L Ho) as [EL|HB];
      [left|by right].
    destruct (decide (S k <= length l)%nat) as [Hk|Hk].
    { rewrite <- EL, Ex, take_take. f_equal. lia. }
    exfalso. apply Hxt, Z.le_antisymm; [|lia].
    assert (Lx !! k = Some e) as HLk by (rewrite (take_lookup_eq _ _ _ _ EL); [done|lia]).
    rewrite <- Ht. destruct (ai_lead _ Hinv _ _ _ HLx) as (_ & _ & _ & Hsort & _).
    apply (Hsort (pred (length l)) k); [lia| |done].
    assert (take (length l) l = take (length l) Lx) as Ex' by by rewrite firstn_all.
    rewrite <- (take_lookup_eq _ _ _ _ Ex'); [done|lia].
Qed.

#[export] Instance acked_dec s v t m : Decision (acked s v t m).
Proof.
  refine (cast_if (decide (Exists (fun x => x.1 = (v, t) /\ (m <= x.2)%nat) (a_ack s)))).
  - abstract (apply Exists_exists in e as ([[??] m'] & ? & [= -> ->] & ?); by exists m').
  - abstract (intros (m' & ? & ?); apply n0, Exists_exists; by eexists).
Defined.

(** More entries at the end of a log change nothing for those settled. *)
Lemma safe_app s l x t k : safe s l t k -> safe s (l ++ x) t k.
Proof.
  intros Hs L Ho. destruct (Hs L Ho) as [E|?]; [left|by right].
  pose proof (own_length _ _ _ _ Ho). rewrite take_app_le; [done|].
  apply (f_equal length) in E. rewrite !length_take in E. lia.
Qed.

Lemma matching_snoc s l t c x :
  matching s l -> a_lead s !! t = Some (c, l ++ [Entry t x]) -> matching s (l ++ [Entry t x]).
Proof.
  intros Hm HL k e [He|[Hk He]]%lookup_app_Some.
  - destruct (Hm k e He) as (c' & L & HL' & E). exists c', L. split; [done|].
    apply lookup_lt_Some in He. rewrite take_app_le; [done|lia].
  - apply list_lookup_singleton_Some in He as [? <-]. cbn. eauto.
Qed.

Definition lead_ok s t c L : Prop :=
  1 <= t <= a_term s c /\ matching s L /\ (forall e, e ∈ L -> le_Term e <= t) /\
  (forall i j x y, (i <= j)%nat -> L !! i = Some x -> L !! j = Some y ->
     le_Term x <= le_Term y) /\
  (a_term s c = t -> a_log s c = L).

Lemma lead_ok_append s s' c t l cmd :
  abs_inv s -> extends s s' ->
  a_lead s !! t = Some (c, a_log s c) -> l = a_log s c ++ [Entry t cmd] ->
  a_lead s' !! t = Some (c, l) -> a_term s' = a_term s -> a_log s' c = l ->
  lead_ok s' t c l.
Proof.
  intros Hinv Hex HL -> HL' Ht Hlog. destruct (ai_lead _ Hinv _ _ _ HL) as (Hb & Hm & Hle & Hsort & _).
  assert (forall e, e ∈ a_log s c ++ [Entry t cmd] -> le_Term e <= t) as Hle'.
  { intros e [He|He%list_elem_of_singleton]%elem_of_app; [by apply Hle|by subst]. }
  split_and!; try done; try (rewrite ?Ht; lia).
  - eapply matching_snoc; [|done]. by eapply matching_mono.
  - intros i j x y Hij Hx Hy. apply lookup_app_Some in Hy as [Hy|[Hj Hy]].
    + apply lookup_lt_Some in Hy as Hj. rewrite lookup_app_l in Hx by lia. eauto.
    + apply list_lookup_singleton_Some in Hy as [_ <-]. cbn.
      by apply Hle', list_elem_of_lookup_2 with i.
Qed.

Section step.
Context (s s' : Abs C).
Hypothesis (Hinv : abs_inv s).
Hypothesis (Hs : abs_step s s').

Lemma step_ex : extends s s'.
Proof. by apply abs_step_extends. Qed.

(** The entry [k] of the leader of [t] was there before, or this step wrote it. *)
Lemma own_back t k L' :
  own s' t k L' ->
  (exists L, own s t k L) \/
  (exists c L, a_lead s !! t = Some (c, L) /\ a_term s c = t /\ a_log s' c = L' /\
     a_vote s' = a_vote s /\ a_term s' = a_term s /\
     (forall t', t' <> t -> a_lead s' !! t' = a_lead s !! t') /\
     (forall v, acked s' v t (S k) -> v = c) /\ acked s' c t (S k)).
Proof.
  intros (c0 & e & HL & He & Ht). destruct Hs; cbn in *; try (left; by exists L', c0, e).
  - left. apply lookup_insert_Some in HL as [[-> [= -> <-]]|[_ HL]]; [|by exists L', c0, e].
    destruct (ai_cand _ Hinv _ _ _ H2) as (_ & _ & Hb).
    apply list_elem_of_lookup_2, Hb in He. lia.
  - apply lookup_insert_Some in HL as [[-> [= -> <-]]|[_ HL]]; [|left; by exists L', c0, e].
    subst l. apply lookup_app_Some in He as [He|[Hk He]].
    { left. by exists (a_log s c0), c0, e. }
    apply list_lookup_singleton_Some in He as [Hk' <-].
    right. exists c0, (a_log s c0). split_and!; try done.
    + by rewrite fn_lookup_insert.
    + intros t' Hne. by rewrite lookup_insert_ne.
    + intros v (m & Hm & [[= -> _]|Hin]%elem_of_cons); [done|].
      apply (ai_ack _ Hinv) in Hin as (_ & c & L & HL & Hlen).
      assert (L = a_log s c0) as -> by congruence. lia.
    + exists (length (a_log s c0 ++ [Entry t cmd])). split; [rewrite length_app; cbn; lia|].
      by left.
Qed.

Lemma step_own t k c L e :
  a_lead s' !! t = Some (c, L) -> L !! k = Some e -> le_Term e = t -> acked s' c t (S k).
Proof.
  intros HL He Ht. destruct (own_back t k L) as [[L0 (c0 & e0 & HL0 & He0 & Ht0)]|
    (c0 & L0 & HL0 & _ & _ & _ & _ & _ & _ & Hack)]; [by exists c, e|..].
  - destruct (ex_lead _ _ step_ex _ _ _ HL0) as [? HL1].
    assert (c0 = c) as -> by congruence. eapply acked_mono; [apply step_ex|].
    by eapply ai_own.
  - destruct (ex_lead _ _ step_ex _ _ _ HL0) as [? HL1]. by assert (c0 = c) as -> by congruence.
Qed.

Lemma step_complete t t' c' L' k :
  t < t' -> a_lead s' !! t' = Some (c', L') -> safe s' L' t k.
Proof.
  intros Htt HL' L1 Ho'. pose proof step_ex as Hex.
  destruct (own_back _ _ _ Ho') as [[L Ho]|(c & L & HL & Hc & _ & Hv & Hte & Hne & Hu & _)].
  - revert L1 Ho'. eapply safe_mono; [done..|].
    destruct Hs; cbn in HL'; try by eapply (ai_complete _ Hinv).
    + apply lookup_insert_Some in HL' as [[-> [= -> <-]]|[_ HL']];
        [|by eapply (ai_complete _ Hinv)].
      destruct (decide (Exists (fun v => acked s v t (S k)) Q)) as [HE|HE].
      * apply Exists_exists in HE as (v & Hv & Ha). by eapply (ai_voted _ Hinv v); eauto.
      * intros L2 _. right. exists Q. split; [done|]. intros v Hv. split.
        -- apply H1, (ai_vote _ Hinv) in Hv as [? _]. lia.
        -- intros Ha. apply HE, Exists_exists. eauto.
    + apply lookup_insert_Some in HL' as [[-> [= -> <-]]|[_ HL']];
        [|by eapply (ai_complete _ Hinv)].
      subst l. apply safe_app. by eapply (ai_complete _ Hinv).
  - right. rewrite Hne in HL' by lia.
    destruct (ai_elected _ Hinv _ _ _ HL') as (Q & HQ & Hvs). exists Q. split; [done|].
    intros v HvQ. apply Hvs, (ai_vote _ Hinv) in HvQ as [? _]. rewrite Hte. split; [lia|].
    intros ->%Hu. lia.
Qed.

Lemma step_held i t k : acked s' i t (S k) -> safe s' (a_log s' i) t k.
Proof.
  intros Ha L1 Ho'. pose proof step_ex as Hex.
  destruct (own_back _ _ _ Ho') as [[L Ho]|(c & L & HL & Hc & Hlog & _ & _ & _ & Hu & _)];
    [|left; by rewrite (Hu _ Ha), Hlog].
  assert (acked s i t (S k) -> safe s' (a_log s i) t k) as Hold.
  { intros Ha0. eapply safe_mono; [done..|]. by apply (ai_held _ Hinv). }
  destruct Ha as (m0 & Hm0 & Hin).
  assert ((i, t, m0) ∈ a_ack s -> safe s' (a_log s i) t k) as Hold'.
  { intros. apply Hold. by exists m0. }
  enough (safe s' (a_log s' i) t k) as Hsafe by by apply Hsafe.
  clear L1 Hold Ho'. destruct Hs; cbn [a_ack a_log] in *; auto.
  - apply elem_of_cons in Hin as [[= -> -> ->]|Hin].
    + intros L1 (? & ? & HL1 & _). left. cbn in HL1. rewrite lookup_insert_eq in HL1.
      rewrite fn_lookup_insert. by simplify_eq.
    + destruct (decide (i = c)) as [<-|]; [|rewrite fn_lookup_insert_ne; auto].
      rewrite fn_lookup_insert. subst l. apply safe_app. auto.
  - apply elem_of_cons in Hin as [[= -> -> ->]|Hin]; auto.
    intros L1 (? & ? & HL1 & _). left. cbn in HL1. simplify_eq.
    by eapply take_shorter.
  - apply elem_of_cons in Hin as [[= -> -> ->]|Hin].
    + intros L1 (? & ? & HL1 & _). left. cbn in HL1. simplify_eq.
      rewrite fn_lookup_insert, take_take. f_equal. lia.
    + destruct (decide (i = i0)) as [<-|]; [|rewrite fn_lookup_insert_ne; auto].
      rewrite fn_lookup_insert. intros L1 Ho1.
      destruct (Hold' Hin L1 Ho1) as [E|]; [|by right].
      assert (take (S k) L0 = take (S k) L1 \/ blocked s t k) as [E0|HB].
      { destruct (ai_ack _ Hinv _ _ _ Hin) as [Hle _].
        destruct (decide (t = t0)) as [->|];
          [|apply (ai_complete _ Hinv t t0 c); [lia|done|]; eauto].
        left. destruct Ho1 as (? & ? & HL1 & _). cbn in HL1. by simplify_eq. }
      * left. rewrite take_take, <- E0. f_equal. apply Nat.min_l.
        destruct (decide (S k <= m)%nat); [done|]. exfalso. apply H2.
        apply (take_shorter m (S k)); [lia|congruence].
      * right. by eapply blocked_mono.
Qed.

Lemma step_voted_safe v t' c l t k :
  a_vote s' !! (v, t') = Some c -> a_cand s' !! (t', c) = Some l ->
  t < t' -> acked s' v t (S k) -> safe s' l t k.
Proof.
  intros Hv Hl Htt Ha L1 Ho'. pose proof step_ex as Hex.
  destruct (own_back _ _ _ Ho') as [[L Ho]|(c0 & L & HL & Hc & _ & Hve & _ & _ & Hu & _)].
  2:{ rewrite Hve in Hv. apply Hu in Ha as ->. apply (ai_vote _ Hinv) in Hv as [? _]. lia. }
  revert L1 Ho'. eapply safe_mono; [done..|]. clear Ho.
  assert (a_vote s !! (v, t') = Some c -> acked s v t (S k)) as Hold.
  { intros [? _]%(ai_vote _ Hinv). destruct (acked_back _ _ _ _ _ Hex Ha); [done|lia]. }
  clear Hex. destruct Hs; cbn in *; try by (eapply (ai_voted _ Hinv v t'); eauto).
  - destruct (decide ((v, t') = (i, t0))) as [[= -> ->]|Hne].
    + rewrite lookup_insert_eq in Hv. simplify_eq. rewrite lookup_insert_eq in Hl.
      simplify_eq. by apply (ai_held _ Hinv).
    + rewrite lookup_insert_ne in Hv by done. pose proof (Hold Hv) as Ha0.
      destruct (ai_vote _ Hinv _ _ _ Hv) as [_ [l0 Hl0]].
      rewrite lookup_insert_ne in Hl; [by eapply (ai_voted _ Hinv v t'); eauto|].
      intros [= -> ->]. apply (ai_cand _ Hinv) in Hl0 as [? _]. lia.
  - destruct (decide ((v, t') = (v0, t0))) as [[= -> ->]|Hne].
    2:{ rewrite lookup_insert_ne in Hv by done. by eapply (ai_voted _ Hinv v t'); eauto. }
    rewrite lookup_insert_eq in Hv. simplify_eq. intros L2 Ho.
    destruct (ai_held _ Hinv _ _ _ Ha L2 Ho) as [E|]; [|by right].
    destruct (ai_cand _ Hinv _ _ _ Hl) as (_ & Hm & _).
    apply (up_to_date_safe s l (a_log s v0) t k L2); try done. by apply (ai_log _ Hinv).
Qed.

Lemma step_cand t c l :
  a_cand s' !! (t, c) = Some l ->
  1 <= t <= a_term s' c /\ matching s' l /\ (forall e, e ∈ l -> le_Term e < t).
Proof.
  intros Hl. pose proof step_ex as Hex. pose proof (ex_term _ _ Hex c).
  assert (a_cand s !! (t, c) = Some l ->
    1 <= t <= a_term s' c /\ matching s' l /\ (forall e, e ∈ l -> le_Term e < t)) as Hold.
  { intros (? & ? & ?)%(ai_cand _ Hinv). split_and!; try done; try lia.
    by eapply matching_mono. }
  destruct Hs; try by apply Hold. cbn [a_cand] in Hl.
  apply lookup_insert_Some in Hl as [[[= -> ->] <-]|[_ Hl]]; [|by apply Hold].
  destruct (ai_log _ Hinv c) as [Hm Hb]. pose proof (ai_term _ Hinv c). split_and!.
  - lia.
  - cbn. rewrite fn_lookup_insert. lia.
  - by eapply matching_mono.
  - intros e He%Hb. lia.
Qed.

Lemma step_vote v t c :
  a_vote s' !! (v, t) = Some c -> t <= a_term s' v /\ is_Some (a_cand s' !! (t, c)).
Proof.
  intros Hv. pose proof step_ex as Hex. pose proof (ex_term _ _ Hex v).
  assert (forall k, is_Some (a_cand s !! k) -> is_Some (a_cand s' !! k)) as Hc.
  { intros k Hk. destruct Hs; cbn; try done. by apply lookup_insert_is_Some'; right. }
  assert (a_vote s !! (v, t) = Some c -> t <= a_term s' v /\ is_Some (a_cand s' !! (t, c)))
    as Hold.
  { intros (? & ?)%(ai_vote _ Hinv). split; [lia|]. by apply Hc. }
  destruct Hs; try (by apply Hold); cbn [a_vote] in Hv.
  - apply lookup_insert_Some in Hv as [[[= -> ->] <-]|[_ Hv]]; [|by apply Hold]. cbn.
    rewrite fn_lookup_insert, lookup_insert_eq. split; [lia|done].
  - apply lookup_insert_Some in Hv as [[[= -> ->] <-]|[_ Hv]]; [|by apply Hold]. cbn.
    split; [lia|done].
Qed.

Lemma step_lead t c L : a_lead s' !! t = Some (c, L) -> lead_ok s' t c L.
Proof.
  intros HL. pose proof step_ex as Hex. pose proof (ex_term _ _ Hex c) as Htc.
  assert (a_lead s !! t = Some (c, L) -> (a_term s' c = t -> a_log s' c = L) ->
    lead_ok s' t c L) as Hold.
  { intros (? & ? & ? & ? & ?)%(ai_lead _ Hinv) ?. split_and!; try done; try lia.
    by eapply matching_mono. }
  assert (a_lead s !! t = Some (c, L) -> a_term s' c = t ->
    a_term s c = t /\ a_log s c = L) as Hlog.
  { intros (? & _ & _ & _ & Hlog)%(ai_lead _ Hinv) ?. rewrite Hlog by lia. split; [lia|done]. }
  destruct Hs; cbn [a_lead] in HL.
  1-3: apply Hold; [done|]; intros Ht; by apply Hlog.
  - apply lookup_insert_Some in HL as [[-> [= -> <-]]|[_ HL]].
    + destruct (ai_cand _ Hinv _ _ _ H2) as (? & Hm & Hb). split_and!; try done; try lia.
      * by eapply matching_mono.
      * intros e He%Hb. lia.
      * intros i j x y. eapply matching_sorted; eauto.
    + apply Hold; [done|]. intros Ht. by apply Hlog.
  - destruct (decide (t0 = t)) as [->|].
    + rewrite lookup_insert_eq in HL. simplify_eq.
      eapply lead_ok_append; eauto; cbn; [by rewrite lookup_insert_eq|].
      by rewrite fn_lookup_insert.
    + rewrite lookup_insert_ne in HL by done. apply Hold; [done|]. intros Ht. cbn.
      rewrite fn_lookup_insert_ne; [by apply Hlog|]. intros ->. cbn in Ht. congruence.
  - apply Hold; [done|]. intros Ht. by apply Hlog.
  - apply Hold; [done|]. intros Ht. destruct (Hlog HL Ht) as [Ht0 Hl]. cbn.
    rewrite fn_lookup_insert_ne; [done|]. intros ->. congruence.
Qed.

Lemma step_elected t c L :
  a_lead s' !! t = Some (c, L) ->
  exists Q, isQuorum Q /\ forall v, v ∈ Q -> a_vote s' !! (v, t) = Some c.
Proof.
  intros HL. pose proof step_ex as Hex.
  assert (forall L, a_lead s !! t = Some (c, L) ->
    exists Q, isQuorum Q /\ forall v, v ∈ Q -> a_vote s' !! (v, t) = Some c) as Hold.
  { intros L0 (Q & HQ & Hv)%(ai_elected _ Hinv). exists Q. split; [done|].
    intros v Hin. by apply (ex_vote _ _ Hex), Hv. }
  destruct Hs; cbn [a_lead] in HL; try by eapply Hold.
  - apply lookup_insert_Some in HL as [[-> [= -> _]]|[_ HL]]; [by exists Q|by eapply Hold].
  - apply lookup_insert_Some in HL as [[-> [= -> _]]|[_ HL]]; by eapply Hold.
Qed.

Lemma step_log i :
  matching s' (a_log s' i) /\ forall e, e ∈ a_log s' i -> le_Term e <= a_term s' i.
Proof.
  pose proof step_ex as Hex. pose proof step_lead as Hlead.
  assert (forall j, matching s' (a_log s j) /\
    forall e, e ∈ a_log s j -> le_Term e <= a_term s' j) as Hold.
  { intros j. destruct (ai_log _ Hinv j) as [Hm Hb]. split; [by eapply matching_mono|].
    intros e He%Hb. pose proof (ex_term _ _ Hex j). lia. }
  destruct Hs; try apply Hold; cbn [a_log a_term] in *; revert i.
  - apply (fn_insert_case (fun i l => matching _ l /\ forall e, e ∈ l -> le_Term e <= a_term s i));
      [|intros j _; apply Hold].
    destruct (Hlead t c l) as (? & ? & ? & _); [cbn; by rewrite lookup_insert_eq|].
    split; [done|]. by rewrite H.
  - apply (fn_insert_case (fun i l => matching _ l /\ forall e, e ∈ l -> le_Term e <= a_term s i));
      [|intros j _; apply Hold].
    destruct (Hlead t c L) as (? & ? & Hle & _); [done|]. rewrite H.
    split; [by apply matching_take|]. intros e He%elem_of_take. apply Hle.
    destruct He as (k & He & _). by eapply list_elem_of_lookup_2.
Qed.

Lemma step_ack i t m :
  (i, t, m) ∈ a_ack s' ->
  t <= a_term s' i /\ exists c L, a_lead s' !! t = Some (c, L) /\ (m <= length L)%nat.
Proof.
  intros Hin. pose proof step_ex as Hex. pose proof (ex_term _ _ Hex i).
  assert ((i, t, m) ∈ a_ack s ->
    t <= a_term s' i /\ exists c L, a_lead s' !! t = Some (c, L) /\ (m <= length L)%nat) as Hold.
  { intros (? & c & L & HL & ?)%(ai_ack _ Hinv). split; [lia|].
    destruct (ex_lead _ _ Hex _ _ _ HL) as [L2 HL2]. exists c, (L ++ L2). split; [done|].
    rewrite length_app. lia. }
  destruct Hs; try (by apply Hold); cbn [a_ack] in Hin;
    apply elem_of_cons in Hin as [[= -> -> ->]|Hin]; try (by apply Hold); cbn.
  - split; [lia|]. exists c, l. by rewrite lookup_insert_eq.
  - split; [lia|]. eauto.
  - split; [lia|]. eauto.
Qed.

Lemma abs_step_inv : abs_inv s'.
Proof.
  split.
  - intros i. pose proof (ai_term _ Hinv i). pose proof (ex_term _ _ step_ex i). lia.
  - apply step_cand.
  - apply step_vote.
  - apply step_lead.
  - apply step_elected.
  - apply step_log.
  - apply step_ack.
  - apply step_own.
  - apply step_held.
  - apply step_voted_safe.
  - apply step_complete.
Qed.
End step.

Lemma abs_init_inv s : abs_init s -> abs_inv s.
Proof.
  intros (Hn & Hv & Hc & Hl & Ha).
  split; rewrite ?Hv, ?Hc, ?Hl, ?Ha; try (intros *; by rewrite lookup_empty).
  - intros i. by destruct (Hn i) as [-> _].
  - intros i. destruct (Hn i) as [_ ->]. split; [by intros ? ?|]. intros e He. by inv He.
  - intros i t m Hin. by inv Hin.
  - intros i t k (? & _ & Hin). rewrite Ha in Hin. by inv Hin.
Qed.

Lemma abs_rtc s s' : rtc abs_step s s' -> abs_inv s -> abs_inv s' /\ extends s s'.
Proof.
  induction 1 as [|s1 s2 s3 Hs _ IH]; intros Hinv; [split; [done|apply extends_refl]|].
  destruct (IH (abs_step_inv _ _ Hinv Hs)) as [? ?]. split; [done|].
  eapply extends_trans; [|done]. by apply abs_step_extends.
Qed.

Lemma abs_reachable_inv s : abs_reachable s -> abs_inv s.
Proof. intros (s0 & H0 & Hr). by apply (abs_rtc _ _ Hr), abs_init_inv. Qed.

(** ** What the protocol promises *)

(** The first [m] entries of [l] are committed, by a leader of a term up to [T]. *)
Definition settled s (T : Z) l (m : nat) : Prop :=
  (m <= length l)%nat /\
  (m = 0%nat \/ exists t k L, t <= T /\ committed s t k /\ own s t k L /\
     (m <= S k)%nat /\ take m l = take m L).

Lemma settled_mono s s' T l m : extends s s' -> settled s T l m -> settled s' T l m.
Proof.
  intros Hex [Hm [->|(t & k & L & Ht & Hc & Ho & Hk & E)]]; split; auto. right.
  destruct (own_mono _ _ _ _ _ Hex Ho) as [L2 Ho2]. exists t, k, (L ++ L2).
  split_and!; try done; [by eapply committed_mono|]. by apply take_app_same.
Qed.

Lemma settled_later s T T' l m : T <= T' -> settled s T l m -> settled s T' l m.
Proof.
  intros HT [Hm [->|(t & k & L & Ht & H)]]; split; auto. right. exists t, k, L.
  split; [lia|done].
Qed.

Lemma settled_prefix s T l l' m m' :
  settled s T l m -> (m' <= m)%nat -> take m' l' = take m' l -> settled s T l' m'.
Proof.
  intros [Hm H] Hle E. assert (m' <= length l')%nat as Hl'.
  { apply (f_equal length) in E. rewrite !length_take in E. lia. }
  split; [done|]. destruct H as [->|(t & k & L & Ht & Hc & Ho & Hk & E')]; [left; lia|].
  right. exists t, k, L. split_and!; try done; try lia.
  rewrite E. by apply (take_shorter _ m).
Qed.

Lemma settled_shorter s T l m m' :
  settled s T l m -> (m' <= m)%nat -> settled s T l m'.
Proof. intros. by eapply settled_prefix. Qed.

(** Leader completeness: the leader of a later term has every committed entry. *)
Lemma committed_in_leader s t k L t' c' L' :
  abs_inv s -> committed s t k -> own s t k L -> t < t' ->
  a_lead s !! t' = Some (c', L') -> take (S k) L' = take (S k) L.
Proof.
  intros Hinv Hc Ho Hlt HL'.
  destruct (ai_complete _ Hinv t t' c' L' k Hlt HL' L Ho) as [?|HB]; [done|].
  exfalso. by apply (committed_not_blocked _ _ _ Hc).
Qed.

(** What is committed by a term up to [T] is in the log of the leader of [T]. *)
Lemma settled_in_leader s T l m c L :
  abs_inv s -> settled s T l m -> a_lead s !! T = Some (c, L) -> take m l = take m L.
Proof.
  intros Hinv [_ [->|(t & k & Lt & Ht & Hc & Ho & Hk & E)]] HL; [by rewrite !take_0|].
  rewrite E. destruct (decide (t = T)) as [->|].
  - destruct Ho as (c' & e & HL' & _). congruence.
  - symmetry. apply (take_shorter _ (S k)); [done|].
    eapply committed_in_leader; eauto. lia.
Qed.

Lemma settled_agree s T1 T2 l1 l2 m :
  abs_inv s -> settled s T1 l1 m -> settled s T2 l2 m -> take m l1 = take m l2.
Proof.
  intros Hinv [_ [->|(t1 & k1 & L1 & _ & C1 & O1 & K1 & E1)]]
    [_ [Hm|(t2 & k2 & L2 & _ & C2 & O2 & K2 & E2)]];
    [by rewrite !take_0..|by rewrite Hm, !take_0|].
  rewrite E1, E2. destruct (Z.lt_trichotomy t1 t2) as [Hlt|[->|Hlt]].
  - pose proof O2 as (c & e & HL & _). symmetry.
    eapply take_shorter; [exact K1|]. by eapply committed_in_leader.
  - by rewrite (own_unique _ _ _ _ _ _ O1 O2).
  - pose proof O1 as (c & e & HL & _).
    eapply take_shorter; [exact K2|]. by eapply committed_in_leader.
Qed.

(** A peer never loses what is committed in its log. *)
Lemma abs_step_keeps s s' i m :
  abs_inv s -> abs_step s s' -> settled s (a_term s i) (a_log s i) m ->
  settled s' (a_term s' i) (a_log s' i) m.
Proof.
  intros Hinv Hs Hset. pose proof (abs_step_extends _ _ Hinv Hs) as Hex.
  assert (settled s' (a_term s' i) (a_log s i) m) as Hold.
  { eapply settled_later; [by apply (ex_term _ _ Hex)|]. by eapply settled_mono. }
  destruct Hs; try exact Hold; cbn [a_log a_term] in *.
  - destruct (decide (i = c)) as [->|]; [|by rewrite fn_lookup_insert_ne].
    rewrite fn_lookup_insert. subst l. eapply settled_prefix; [exact Hold|done|].
    destruct Hset as [? _]. by rewrite take_app_le.
  - destruct (decide (i = i0)) as [->|]; [|by rewrite fn_lookup_insert_ne].
    rewrite fn_lookup_insert. eapply settled_prefix; [exact Hold|done|].
    rewrite <- H in H0. pose proof (settled_in_leader _ _ _ _ _ _ Hinv Hset H0) as Ec.
    rewrite take_take, Nat.min_l; [done|]. destruct (decide (m0 <= m)%nat); [|lia].
    exfalso. by apply H2, (take_shorter m0 m).
Qed.

Lemma abs_rtc_keeps s s' i m :
  rtc abs_step s s' -> abs_inv s -> settled s (a_term s i) (a_log s i) m ->
  settled s' (a_term s' i) (a_log s' i) m.
Proof.
  induction 1 as [|s1 s2 s3 Hs _ IH]; intros Hinv Hset; [done|].
  apply IH; [by eapply abs_step_inv|by eapply abs_step_keeps].
Qed.

(** Log matching: the same term at the same position means the same prefix. *)
Lemma matching_agree s l1 l2 k e1 e2 :
  matching s l1 -> matching s l2 -> l1 !! k = Some e1 -> l2 !! k = Some e2 ->
  le_Term e1 = le_Term e2 -> take (S k) l1 = take (S k) l2.
Proof.
  intros H1 H2 (c1 & L1 & HL1 & E1)%H1 (c2 & L2 & HL2 & E2)%H2 Ht.
  rewrite Ht in HL1. congruence.
Qed.
End spec.
