(* ===== verification/RaftRefine.v ===== *)
(** * The cluster of raft.go refines the abstract protocol

    [refines net s] relates a cluster of RaftNet to a state of RaftSpec: terms and
    logs are the same, votes, candidacies and leaderships are recorded, every
    message in flight tells the truth about the abstract state, every
    [matchIndex] is backed by an acknowledgement and every [commitIndex] by a
    committed prefix.  Each event of a peer is a sequence of abstract steps of
    that peer.  The runs are those in which no service calls [Snapshot] or
    [CondInstallSnapshot] (the shard controller never does). *)
From S2P Require Import Prelude Persister RaftNode RaftLocal RaftInv RaftLog RaftNet RaftSpec.
From stdpp Require Import functions relations.
#[local] Open Scope Z_scope.

Section refine.
Context {C : Type} `{!Codec (RaftPersist C)}.
Variable n : nat.
Implicit Types (s : Abs C) (l L : list (LogEntry C)) (rf : Raft C) (net : Net C).

(** A step of the cluster in which no service takes or installs a snapshot: every event but
    [Snapshot] and [CondInstallSnapshot].  With them [refines] does not hold: logs are cut,
    and [CondInstallSnapshot] can keep a conflicting suffix. *)
Inductive plain_step net : Net C -> Prop :=
  | plain_event i src ev nd' :
      0 <= i < Z.of_nat n ->
      node_step (nodes net i) ev nd' ->
      (forall m, input src i ev = Some m -> m ∈ soup net) ->
      service_event ev = false ->
      plain_step net {| nodes := <[i := nd']> (nodes net);
                        soup := outputs src i nd' ev ++ soup net |}
  | plain_crash i r :
      0 <= i < Z.of_nat n ->
      plain_step net {| nodes := <[i := boot n i (persister (raft (nodes net i))) r]>
                                   (nodes net);
                        soup := soup net |}.

Lemma plain_net net net' : plain_step net net' -> net_step n net net'.
Proof. destruct 1; [by constructor|by apply net_crash]. Qed.

Definition plain_reachable net : Prop :=
  exists net0, net_init n net0 /\ rtc plain_step net0 net.

(** ** The relation *)

(** The term at position [p] of a log, as [termAt] computes it. *)
Definition logTerm l (p : nat) : Z :=
  match p with
  | O => 0
  | S k => match l !! k with Some e => le_Term e | None => -1 end
  end.

Record peer_rel s (i : Z) rf : Prop := {
  pr_term : a_term s i = currentTerm rf;
  pr_log : a_log s i = log rf;
  pr_snap : lastIncludedIndex rf = 0 /\ lastIncludedTerm rf = 0;
  pr_vote : a_vote s !! (i, currentTerm rf) =
    if votedFor rf =? -1 then None else Some (votedFor rf);
  pr_cand : state rf = StateCandidate ->
    a_cand s !! (currentTerm rf, i) = Some (log rf) /\
    forall L, a_lead s !! currentTerm rf <> Some (i, L);
  pr_lead : state rf = StateLeader ->
    a_lead s !! currentTerm rf = Some (i, log rf) /\
    forall p m, 0 <= p < Z.of_nat n -> p <> i -> zget (matchIndex rf) p = Some m -> 0 < m ->
      (p, currentTerm rf, Z.to_nat m) ∈ a_ack s;
  pr_commit : 0 <= commitIndex rf /\
    settled n s (currentTerm rf) (log rf) (Z.to_nat (commitIndex rf));
  pr_applied : 0 <= lastApplied rf;
}.

(** A batch on its way to the service is a slice of a committed prefix. *)
Definition batch_rel s (ob : option (ApplyBatch C)) : Prop :=
  forall b, ob = Some b ->
    ab_lastIncludedIndex b = 0 /\ 0 < ab_startIdx b /\
    exists T l m, settled n s T l m /\
      ab_entries b = take (m - Z.to_nat (ab_startIdx b - 1))
                       (drop (Z.to_nat (ab_startIdx b - 1)) l).

(** A request to append is a slice of the log of the leader of its term, to the
    end of what the leader then held; or its previous term is one no log has. *)
Definition app_rel s (args : AppendEntriesArgs C) : Prop :=
  ae_PrevLogTerm args = -1 \/
  exists c L (p m : nat), a_lead s !! ae_Term args = Some (c, L) /\
    ae_PrevLogIndex args = Z.of_nat p /\ (p <= m <= length L)%nat /\
    ae_Entries args = take (m - p) (drop p L) /\
    ae_PrevLogTerm args = logTerm L p /\
    0 <= ae_LeaderCommit args <= Z.of_nat m /\
    settled n s (ae_Term args) L (Z.to_nat (ae_LeaderCommit args)).

Definition msg_rel s (m : Msg C) : Prop :=
  match m with
  | MVote src _ args =>
      rva_CandidateId args = src /\ src <> -1 /\ a_vote s !! (src, rva_Term args) = Some src /\
      exists l, a_cand s !! (rva_Term args, src) = Some l /\
        logInfo l = (rva_LastLogIndex args, rva_LastLogTerm args)
  | MVoteR src _ args reply =>
      rvr_VoteGranted reply = true ->
      a_vote s !! (src, rva_Term args) = Some (rva_CandidateId args)
  | MApp _ _ args => app_rel s args
  | MAppR src _ args reply =>
      aer_Success reply = true ->
      0 <= ae_PrevLogIndex args /\
      (src, ae_Term args, Z.to_nat (ae_PrevLogIndex args + zlen (ae_Entries args))) ∈ a_ack s
  | MSnap _ _ args | MSnapR _ _ args _ => is_LastIncludedIndex args = 0
  end.

Record refines net s : Prop := {
  rel_peer i : 0 <= i < Z.of_nat n -> peer_rel s i (raft (nodes net i));
  rel_batch i : 0 <= i < Z.of_nat n -> batch_rel s (batch (nodes net i));
  rel_msg m : m ∈ soup net -> msg_rel s m;
}.

(** ** Framing: what the steps of one peer leave to the others *)

(** The record of peer [j] is the same in both states. *)
Record same_view s s' (j : Z) : Prop := {
  sv_term : a_term s' j = a_term s j;
  sv_log : a_log s' j = a_log s j;
  sv_vote t : a_vote s' !! (j, t) = a_vote s !! (j, t);
  sv_lead t L : a_lead s' !! t = Some (j, L) <-> a_lead s !! t = Some (j, L);
}.

(** A number of steps of peer [i]. *)
Definition abs_by (i : Z) s s' : Prop :=
  abs_step n s s' /\ forall j, j <> i -> same_view s s' j.

Definition acts (i : Z) : relation (Abs C) := rtc (abs_by i).

Lemma same_view_trans s1 s2 s3 j : same_view s1 s2 j -> same_view s2 s3 j -> same_view s1 s3 j.
Proof.
  intros [T1 L1 V1 D1] [T2 L2 V2 D2].
  split; [congruence|congruence|intros; by rewrite V2|intros; by rewrite D2].
Qed.

Lemma acts_facts i s s' :
  acts i s s' -> abs_inv n s ->
  abs_inv n s' /\ extends s s' /\ (forall j, j <> i -> same_view s s' j) /\
  rtc (abs_step n) s s'.
Proof.
  induction 1 as [s|s1 s2 s3 [Hs Hv] _ IH]; intros Hinv.
  { split_and!; [done|apply extends_refl|by split|apply rtc_refl]. }
  destruct IH as (? & ? & Hv' & ?); [by eapply abs_step_inv|]. split_and!; [done| | |].
  - eapply extends_trans; [|done]. by eapply abs_step_extends.
  - intros j Hj. eapply same_view_trans; eauto.
  - by eapply rtc_l.
Qed.

(** What a relation to the abstract state survives. *)
Lemma batch_rel_mono s s' ob : extends s s' -> batch_rel s ob -> batch_rel s' ob.
Proof.
  intros Hex Hb b Hob. destruct (Hb b Hob) as (? & ? & T & l & m & ? & ?).
  split_and!; try done. exists T, l, m. split; [by eapply settled_mono|done].
Qed.

Lemma app_rel_mono s s' args : extends s s' -> app_rel s args -> app_rel s' args.
Proof.
  intros Hex [?|(c & L & p & m & HL & Hp & Hm & He & Ht & Hc & Hset)]; [by left|right].
  destruct (ex_lead _ _ Hex _ _ _ HL) as [L2 HL2]. exists c, (L ++ L2), p, m.
  split_and!; try done; try lia.
  - rewrite length_app. lia.
  - rewrite drop_app_le, take_app_le; [done|rewrite length_drop; lia|lia].
  - rewrite Ht. destruct p as [|p]; [done|]. cbn. rewrite lookup_app_l; [done|lia].
  - eapply settled_prefix; [by eapply settled_mono|done|]. destruct Hset as [? _].
    by rewrite take_app_le.
Qed.

Lemma msg_rel_mono s s' m : extends s s' -> msg_rel s m -> msg_rel s' m.
Proof.
  intros Hex. destruct m; cbn; try done.
  - intros (? & ? & ? & l & ? & ?). split_and!; try done; [by apply (ex_vote _ _ Hex)|].
    exists l. split; [by apply (ex_cand _ _ Hex)|done].
  - intros H Hg. by apply (ex_vote _ _ Hex), H.
  - by apply app_rel_mono.
  - intros H Hok. destruct (H Hok). split; [done|]. by apply (ex_ack _ _ Hex).
Qed.

Lemma peer_rel_frame s s' j rf :
  extends s s' -> same_view s s' j -> peer_rel s j rf -> peer_rel s' j rf.
Proof.
  intros Hex [Hte Hlg Hvo Hle] [R1 R2 R3 R4 R5 R6 [R7 R7'] R8].
  split; try done; rewrite ?Hvo; try congruence.
  - intros Hs. destruct (R5 Hs) as [Hc Hl]. split; [by apply (ex_cand _ _ Hex)|].
    intros L ?%Hle. by eapply Hl.
  - intros Hs. destruct (R6 Hs) as [Hl Hm]. split; [by apply Hle|].
    intros p m Hr Hp Hg H0. by apply (ex_ack _ _ Hex), Hm.
  - split; [done|]. by eapply settled_mono.
Qed.

(** The relation after an event of peer [i], from what it does to [i]. *)
Lemma refines_update net s s' i nd' out :
  0 <= i < Z.of_nat n -> abs_inv n s -> refines net s -> acts i s s' ->
  peer_rel s' i (raft nd') -> batch_rel s' (batch nd') ->
  (forall m, m ∈ out -> msg_rel s' m) ->
  refines {| nodes := <[i := nd']> (nodes net); soup := out ++ soup net |} s'.
Proof.
  intros Hi Hinv [Rp Rb Rm] Ha Hp Hb Hm.
  destruct (acts_facts _ _ _ Ha Hinv) as (_ & Hex & Hv & _). split; cbn [nodes soup].
  - apply (fn_insert_case (fun j nd => 0 <= j < Z.of_nat n -> peer_rel s' j (raft nd)));
      [done|].
    intros j Hj Hjn. eapply peer_rel_frame; eauto.
  - apply (fn_insert_case (fun j nd => 0 <= j < Z.of_nat n -> batch_rel s' (batch nd)));
      [done|].
    intros j Hj Hjn. eapply batch_rel_mono; eauto.
  - intros m [?|?]%elem_of_app; [by apply Hm|]. eapply msg_rel_mono; eauto.
Qed.

(** ** Events that only change a peer's term, vote or role *)

Record keeps rf rf' : Prop := {
  kp_log : log rf' = log rf;
  kp_index : lastIncludedIndex rf' = lastIncludedIndex rf;
  kp_term : lastIncludedTerm rf' = lastIncludedTerm rf;
  kp_commit : commitIndex rf' = commitIndex rf;
  kp_applied : lastApplied rf <= lastApplied rf';
}.

Lemma peer_rel_same s i rf rf' :
  peer_rel s i rf -> keeps rf rf' ->
  currentTerm rf' = currentTerm rf -> votedFor rf' = votedFor rf ->
  state rf' = StateFollower \/ state rf' = state rf /\
    (forall p m, 0 <= p < Z.of_nat n -> p <> i -> zget (matchIndex rf') p = Some m -> 0 < m ->
       zget (matchIndex rf) p = Some m) ->
  peer_rel s i rf'.
Proof.
  intros [R1 R2 [R3 R3'] R4 R5 R6 R7 R8] [K1 K2 K3 K4 K5] Ht Hv Hst.
  split; rewrite ?Ht, ?Hv, ?K1, ?K2, ?K3, ?K4; try done.
  - destruct Hst as [->|[-> _]]; [done|]. apply R5.
  - destruct Hst as [->|[-> Hm]]; [done|]. intros Hl. destruct (R6 Hl) as [? Ha].
    split; [done|]. eauto.
  - lia.
Qed.

Lemma same_view_refl s j : same_view s s j.
Proof. by split. Qed.

Lemma acts_once i s s' :
  abs_step n s s' -> (forall j, j <> i -> same_view s s' j) -> acts i s s'.
Proof. intros. by apply rtc_once. Qed.

Lemma sim_bump s i rf rf' :
  abs_inv n s -> peer_rel s i rf -> currentTerm rf < currentTerm rf' ->
  votedFor rf' = -1 -> state rf' = StateFollower -> keeps rf rf' ->
  exists s', acts i s s' /\ peer_rel s' i rf'.
Proof.
  intros Hinv [R1 R2 [R3 R3'] R4 R5 R6 [R7 R7'] R8] Ht Hv Hst [K1 K2 K3 K4 K5].
  assert (abs_step n s {| a_term := <[i := currentTerm rf']> (a_term s); a_log := a_log s;
    a_vote := a_vote s; a_cand := a_cand s; a_lead := a_lead s; a_ack := a_ack s |}) as Hs
    by (apply abs_bump; lia).
  eexists. split; [apply (acts_once _ _ _ Hs); intros j Hj; split; cbn; try done;
                   by rewrite fn_lookup_insert_ne|].
  split; cbn; rewrite ?Hst, ?Hv, ?K1, ?K2, ?K3, ?K4; try done.
  - by rewrite fn_lookup_insert.
  - destruct (a_vote s !! (i, currentTerm rf')) as [c|] eqn:E; [|done].
    apply (ai_vote _ _ Hinv) in E as [? _]. lia.
  - split; [done|]. eapply settled_mono; [by eapply abs_step_extends|].
    eapply settled_later; [|done]. lia.
  - lia.
Qed.

Lemma sim_stepDown s i rf term :
  abs_inv n s -> peer_rel s i rf -> currentTerm rf < term ->
  exists s', acts i s s' /\ peer_rel s' i (stepDown term rf).
Proof. intros. eapply sim_bump; eauto; done. Qed.

Lemma sim_followLeader s i rf r term :
  abs_inv n s -> peer_rel s i rf -> currentTerm rf <= term ->
  exists s', acts i s s' /\ peer_rel s' i (followLeader r term rf) /\
    currentTerm (followLeader r term rf) = term.
Proof.
  intros Hinv Hp Hle. unfold followLeader. bcase.
  - destruct (sim_bump s i rf (resetElectionTimer r (with_state StateFollower
      (persist (with_votedFor (-1) (with_currentTerm term rf))))) Hinv Hp)
      as (s' & ? & ?); try done; eauto.
  - exists s. split_and!; [apply rtc_refl| |cbn; lia].
    eapply peer_rel_same; [done|by split|done..|by left].
Qed.

Lemma logInfo_peer rf :
  lastIncludedIndex rf = 0 -> lastIncludedTerm rf = 0 ->
  logInfo (log rf) = (lastLogIndex rf, lastLogTerm rf).
Proof. unfold logInfo, lastLogIndex, lastLogTerm. intros -> ->. done. Qed.

Lemma sim_ElectionTimer s i r rf rf' args :
  abs_inv n s -> peer_rel s i rf -> me rf = i -> i <> -1 ->
  onElectionTimer r rf = (rf', Some args) ->
  exists s', acts i s s' /\ peer_rel s' i rf' /\ forall p, msg_rel s' (MVote i p args).
Proof.
  intros Hinv [R1 R2 [R3 R3'] R4 R5 R6 [R7 R7'] R8] Hme Hi.
  unfold onElectionTimer, startElection. bcase; [|done]. intros [= <- <-].
  set (t := currentTerm rf + 1).
  assert (abs_step n s {| a_term := <[i := t]> (a_term s); a_log := a_log s;
    a_vote := <[(i, t) := i]> (a_vote s); a_cand := <[(t, i) := a_log s i]> (a_cand s);
    a_lead := a_lead s; a_ack := a_ack s |}) as Hs by (apply abs_timeout; lia).
  eexists. split; [apply (acts_once _ _ _ Hs); intros j Hj; split; cbn; try done;
    [by rewrite fn_lookup_insert_ne|intros t'; rewrite lookup_insert_ne; [done|congruence]]|].
  split.
  - split; cbn; fold t; rewrite ?Hme; try done.
    + by rewrite fn_lookup_insert.
    + rewrite lookup_insert_eq. by destruct (Z.eqb_spec i (-1)).
    + intros _. rewrite lookup_insert_eq, R2. split; [done|].
      intros L HL. apply (ai_lead _ _ Hinv) in HL as [? _]. lia.
    + split; [done|]. eapply settled_mono; [by eapply abs_step_extends|].
      eapply settled_later; [|done]. lia.
  - intros p. cbn; fold t; rewrite Hme. split_and!; [done|done|by rewrite lookup_insert_eq|].
    exists (log rf). rewrite lookup_insert_eq, R2. split; [done|].
    by rewrite (logInfo_peer rf R3 R3').
Qed.

Lemma sim_grant s i src r args rf :
  abs_inv n s -> peer_rel s i rf -> currentTerm rf = rva_Term args ->
  msg_rel s (MVote src i args) ->
  exists s', acts i s s' /\ peer_rel s' i (decideVote r args rf).1 /\
    msg_rel s' (MVoteR i src args (decideVote r args rf).2).
Proof.
  intros Hinv Hp Ht (Hsrc & Hsn & _ & l & Hl & Hinfo). unfold decideVote.
  bcase; cycle 1.
  { exists s. split_and!; [apply rtc_refl|done|]. cbn. by intros. }
  pose proof Hp as [R1 R2 [R3 R3'] R4 R5 R6 [R7 R7'] R8].
  assert (abs_step n s {| a_term := a_term s; a_log := a_log s;
    a_vote := <[(i, rva_Term args) := src]> (a_vote s); a_cand := a_cand s;
    a_lead := a_lead s; a_ack := a_ack s |}) as Hs.
  { apply abs_grant with l; [congruence| |done|].
    - rewrite <- Ht, R4. bcase; [by left|]. right. f_equal. lia.
    - rewrite Hinfo, R2, logInfo_peer by done. by apply isMoreUpToDate_spec. }
  eexists. split_and!.
  - apply (acts_once _ _ _ Hs). intros j Hj. split; cbn; try done.
    intros t'. rewrite lookup_insert_ne; [done|congruence].
  - split; cbn; rewrite ?Ht, ?Hsrc; try (rewrite <- ?Ht; done).
    rewrite lookup_insert_eq. by destruct (Z.eqb_spec src (-1)).
  - cbn. rewrite Hsrc, lookup_insert_eq. done.
Qed.

Lemma acts_trans i s1 s2 s3 : acts i s1 s2 -> acts i s2 s3 -> acts i s1 s3.
Proof. unfold acts. intros ? ?. by etrans. Qed.

Lemma acts_inv i s s' : acts i s s' -> abs_inv n s -> abs_inv n s'.
Proof. intros Ha Hinv. by apply (acts_facts _ _ _ Ha Hinv). Qed.

Lemma acts_extends i s s' : acts i s s' -> abs_inv n s -> extends s s'.
Proof. intros Ha Hinv. by apply (acts_facts _ _ _ Ha Hinv). Qed.

Lemma sim_RequestVote s i src r args rf rf' reply :
  abs_inv n s -> peer_rel s i rf -> msg_rel s (MVote src i args) ->
  RequestVote r args rf = (rf', reply) ->
  exists s', acts i s s' /\ peer_rel s' i rf' /\ msg_rel s' (MVoteR i src args reply).
Proof.
  intros Hinv Hp Hm. unfold RequestVote. bcase.
  { intros [= <- <-]. exists s. split_and!; [apply rtc_refl|done|]. cbn. by intros. }
  intros Hd. destruct (decide (currentTerm rf < rva_Term args)) as [Hlt|Hge].
  - destruct (sim_stepDown s i rf _ Hinv Hp Hlt) as (s1 & Ha1 & Hp1).
    rewrite (proj2 (Z.ltb_lt _ _)) in Hd by done.
    destruct (sim_grant s1 i src r args (stepDown (rva_Term args) rf)) as (s2 & Ha2 & Hp2 & Hm2);
      [by eapply acts_inv|done|done|eapply msg_rel_mono; [by eapply acts_extends|done]|].
    rewrite Hd in *. exists s2. split_and!; [by eapply acts_trans|done|done].
  - rewrite (proj2 (Z.ltb_ge _ _)) in Hd by lia.
    destruct (sim_grant s i src r args rf) as (s2 & Ha2 & Hp2 & Hm2); [done|done|lia|done|].
    rewrite Hd in *. by exists s2.
Qed.

Lemma initIndices_match ps rf rf' p m :
  initIndices ps rf = Some rf' -> zget (matchIndex rf') p = Some m ->
  m = 0 \/ p ∉ ps.
Proof.
  intros H Hm.
  assert (m = 0 \/ p ∉ ps /\ zget (matchIndex rf) p = Some m) as [?|[? _]]; [|by left|by right].
  revert rf H. induction ps as [|q ps IH]; intros rf H; cbn in H.
  - go_inv. right. split; [|done]. intros Hin. by inv Hin.
  - go_inv. match goal with E : initIndices _ _ = _ |- _ => apply IH in E as [?|[Hn Hg]] end;
      [by left|]. cbn in Hg.
    match goal with E : zset (matchIndex _) _ _ = _ |- _ =>
      rewrite (zset_zget _ _ _ _ _ E) in Hg end.
    case_decide; [left; congruence|]. right. split; [|done]. by rewrite not_elem_of_cons.
Qed.

(** A new leader has no acknowledgement of another peer yet. *)
Lemma becomeLeader_match rf rf' p m :
  becomeLeader rf = Some rf' -> 0 <= p < Z.of_nat (peers rf) -> p <> me rf ->
  zget (matchIndex rf') p = Some m -> m = 0.
Proof.
  unfold becomeLeader. intros H Hp Hne Hg. go_inv. cbn in Hg.
  match goal with E : initIndices _ _ = _ |- _ =>
    pose proof E as HE; apply initIndices_frame in HE as (ni & mi & -> & _) end.
  match goal with E : zset _ _ _ = _ |- _ => rewrite (zset_zget _ _ _ _ _ E) in Hg end.
  case_decide; [done|].
  match goal with E : initIndices _ _ = _ |- _ =>
    destruct (initIndices_match _ _ _ _ _ E Hg) as [?|Hn] end; [done|].
  exfalso. by apply Hn, elem_of_zrange.
Qed.

Lemma sim_elect s i rf rf' Q :
  abs_inv n s -> peer_rel s i rf -> me rf = i -> peers rf = n ->
  state rf = StateCandidate -> becomeLeader rf = Some rf' ->
  isQuorum n Q -> (forall v, v ∈ Q -> a_vote s !! (v, currentTerm rf) = Some i) ->
  exists s', acts i s s' /\ peer_rel s' i rf'.
Proof.
  intros Hinv [R1 R2 [R3 R3'] R4 R5 R6 [R7 R7'] R8] Hme Hn Hst Hb HQ Hv.
  destruct (R5 Hst) as [Hc Hno].
  assert (a_lead s !! currentTerm rf = None) as Hnone.
  { destruct (a_lead s !! currentTerm rf) as [[c L]|] eqn:HL; [|done]. exfalso.
    destruct (ai_elected _ _ Hinv _ _ _ HL) as (Q2 & HQ2 & Hv2).
    destruct (quorum_meets _ _ _ HQ HQ2) as (v & H1 & H2).
    apply Hv in H1. apply Hv2 in H2. apply (Hno L). congruence. }
  assert (abs_step n s {| a_term := a_term s; a_log := a_log s; a_vote := a_vote s;
    a_cand := a_cand s; a_lead := <[currentTerm rf := (i, a_log s i)]> (a_lead s);
    a_ack := a_ack s |}) as Hs.
  { apply abs_elect with Q; try done. by rewrite R2. }
  pose proof (fun p m => becomeLeader_match _ _ p m Hb) as Hmatch.
  apply becomeLeader_frame in Hb as (ni & mi & -> & _).
  eexists. split.
  - apply (acts_once _ _ _ Hs). intros j Hj. split; cbn; try done. intros t L.
    destruct (decide (currentTerm rf = t)) as [<-|]; [|by rewrite lookup_insert_ne].
    rewrite lookup_insert_eq, Hnone. naive_solver.
  - split; cbn; try done.
    + intros _. rewrite lookup_insert_eq, R2. split; [done|].
      intros p m Hp Hne Hg Hm. exfalso. apply (Hmatch p m) in Hg; [lia|lia|congruence].
    + split; [done|]. eapply settled_mono; [by eapply abs_step_extends|done].
Qed.

Lemma sim_VoteReply s i rf rf' args reply votes votes' :
  abs_inv n s -> peer_rel s i rf -> me rf = i -> peers rf = n ->
  voteReply args reply votes rf = Some (rf', votes') ->
  (state rf = StateCandidate -> state rf' = StateLeader ->
   exists Q, isQuorum n Q /\ forall v, v ∈ Q -> a_vote s !! (v, currentTerm rf) = Some i) ->
  exists s', acts i s s' /\ peer_rel s' i rf'.
Proof.
  intros Hinv Hp Hme Hn. unfold voteReply. intros H HQ.
  go_inv; try (exists s; split; [apply rtc_refl|done]).
  - by apply sim_stepDown.
  - destruct HQ as (Q & ? & ?); [done| |by eapply sim_elect].
    match goal with E : becomeLeader _ = _ |- _ =>
      by apply becomeLeader_frame in E as (? & ? & -> & _) end.
Qed.

(** ** Appending on the follower *)

Lemma termAt_logTerm rf (p : nat) :
  lastIncludedIndex rf = 0 -> lastIncludedTerm rf = 0 ->
  termAt rf (Z.of_nat p) = logTerm (log rf) p.
Proof.
  intros E1 E2. unfold termAt, toSliceIndex. rewrite E1, E2. destruct p as [|k]; [done|].
  cbn [logTerm]. do 2 (bcase; [lia|]).
  replace (Z.of_nat (S k) - 0 - 1) with (Z.of_nat k) by lia.
  destruct (zget (log rf) (Z.of_nat k)) as [e|] eqn:He.
  - pose proof (zget_Some_lt _ _ _ He). apply zget_Some_lookup in He as [_ He].
    rewrite Nat2Z.id in He. rewrite He. bcase; [lia|done].
  - destruct (log rf !! k) as [e|] eqn:Hk; [|by bcase].
    apply lookup_lt_Some in Hk. apply zget_None in He. unfold zlen in He. lia.
Qed.

(** The entry-by-entry comparison of terms finds out whether the log has the
    leader's prefix: it leaves the log alone if so, and otherwise makes it that
    prefix.  Log matching is what makes terms enough. *)
Lemma merge_adopts s l L (p m : nat) :
  matching s l -> matching s L -> (p <= m <= length L)%nat -> take p l = take p L ->
  take p l ++ RaftLog.merge (drop p l) (take (m - p) (drop p L)) = l /\ take m l = take m L \/
  take p l ++ RaftLog.merge (drop p l) (take (m - p) (drop p L)) = take m L /\ take m l <> take m L.
Proof.
  intros Hl HL. remember (m - p)%nat as d eqn:Hd. revert p Hd.
  induction d as [|d IH]; intros p Hd Hm E.
  { left. rewrite take_0, merge_nil_r, take_drop. split; [done|]. by replace m with p by lia. }
  destruct (lookup_lt_is_Some_2 L p) as [e He]; [lia|].
  assert (take p l ++ take (S d) (drop p L) = take m L) as Hrep.
  { rewrite E, take_take_drop. f_equal. lia. }
  rewrite (drop_S L _ _ He) in *. cbn [take] in *.
  destruct (l !! p) as [x|] eqn:Hx.
  - rewrite (drop_S l _ _ Hx). cbn [RaftLog.merge]. bcase.
    + specialize (IH (S p)). rewrite (take_S_r _ _ _ Hx), <- (assoc_L (++)) in IH.
      apply IH; [lia|lia|]. rewrite <- (take_S_r _ _ _ Hx). by eapply matching_agree.
    + right. split; [done|]. intros Em. apply (take_lookup_eq _ p) in Em; [|lia]. congruence.
  - rewrite drop_ge by (by apply lookup_ge_None). right. split; [done|].
    intros Em. apply (take_lookup_eq _ p) in Em; [|lia]. congruence.
Qed.

Lemma logTerm_agree s l L (p : nat) :
  matching s l -> matching s L -> (p <= length l)%nat -> (p <= length L)%nat ->
  logTerm l p = logTerm L p -> take p l = take p L.
Proof.
  intros Hl HL H1 H2 Ht. destruct p as [|k]; [by rewrite !take_0|]. cbn in Ht.
  destruct (lookup_lt_is_Some_2 l k) as [x Hx]; [lia|].
  destruct (lookup_lt_is_Some_2 L k) as [e He]; [lia|].
  rewrite Hx, He in Ht. by eapply matching_agree.
Qed.

Lemma logTerm_nonneg s l (p : nat) :
  abs_inv n s -> matching s l -> (p <= length l)%nat -> 0 <= logTerm l p.
Proof.
  intros Hinv Hl Hp. destruct p as [|k]; [done|]. cbn.
  destruct (lookup_lt_is_Some_2 l k) as [x Hx]; [lia|]. rewrite Hx.
  destruct (Hl _ _ Hx) as (c & L & HL & _). apply (ai_lead _ _ Hinv) in HL as [? _]. lia.
Qed.

Lemma appendChecked_frame args rf rf' reply :
  appendChecked args rf = Some (rf', reply) ->
  votedFor rf' = votedFor rf /\ lastApplied rf' = lastApplied rf /\
  aer_Term reply = currentTerm rf.
Proof. unfold appendChecked. intros H. go_inv; try done. frames. by bcase. Qed.

(** Adopting the first [m] entries of the leader's log keeps what is committed. *)
Lemma sim_adopt s i rf c L (m : nat) l' :
  abs_inv n s -> peer_rel s i rf -> a_lead s !! currentTerm rf = Some (c, L) ->
  (m <= length L)%nat ->
  l' = log rf /\ take m (log rf) = take m L \/ l' = take m L /\ take m (log rf) <> take m L ->
  exists s', acts i s s' /\ a_log s' i = l' /\ a_term s' = a_term s /\
    a_vote s' = a_vote s /\ (i, currentTerm rf, m) ∈ a_ack s' /\ take m l' = take m L /\
    settled n s' (currentTerm rf) l' (Z.to_nat (commitIndex rf)).
Proof.
  intros Hinv [R1 R2 _ _ _ _ [_ Hset] _] HL Hm Hl'. rewrite <- R1, <- R2 in *.
  assert (exists s', abs_step n s s' /\ (forall j, j <> i -> same_view s s' j) /\
    a_log s' i = l' /\ a_term s' = a_term s /\ a_vote s' = a_vote s /\
    (i, a_term s i, m) ∈ a_ack s') as (s' & Hs & Hv & Hlog & Ht & Hvo & Hin).
  { destruct Hl' as [[-> E]|[-> E]].
    - eexists. split; [by apply (abs_keep n s i (a_term s i) c L m)|]. split_and!; try done. by left.
    - eexists. split; [by apply (abs_replace n s i (a_term s i) c L m)|]. cbn. split_and!; try done.
      + intros j Hj. split; cbn; try done. by rewrite fn_lookup_insert_ne.
      + by rewrite fn_lookup_insert.
      + by left. }
  exists s'. split_and!; try done.
  - by apply acts_once.
  - destruct Hl' as [[-> E]|[-> _]]; [done|]. rewrite take_take. f_equal. lia.
  - pose proof (abs_step_keeps _ _ _ _ _ Hinv Hs Hset) as Hset'. by rewrite Ht, Hlog in Hset'.
Qed.

Lemma sim_appendChecked s i rf rf' src args reply :
  abs_inv n s -> peer_rel s i rf -> currentTerm rf = ae_Term args ->
  state rf = StateFollower -> msg_rel s (MApp src i args) ->
  appendChecked args rf = Some (rf', reply) ->
  exists s', acts i s s' /\ peer_rel s' i rf' /\ msg_rel s' (MAppR i src args reply).
Proof.
  intros Hinv Hp Ht Hst Happ Hap.
  pose proof (appendChecked_spec _ _ _ _ Hap) as Hspec.
  destruct (appendChecked_keeps _ _ _ _ Hap) as (K1 & K2 & K3).
  destruct (appendChecked_frame _ _ _ _ Hap) as (F1 & F2 & _).
  destruct (aer_Success reply) eqn:Hok; cycle 1.
  { subst rf'. exists s. split_and!; [apply rtc_refl|done|]. cbn. by rewrite Hok. }
  destruct Hspec as (Hprev & Hpt & Hlog & Hidx & Hci).
  pose proof Hp as [R1 R2 [R3 R3'] R4 R5 R6 [R7 R7'] R8].
  destruct (ai_log _ _ Hinv i) as [Hml _]. rewrite R2 in Hml.
  unfold lastLogIndex in Hprev. rewrite R3 in *.
  destruct Happ as [Hneg|(c & L & p & m & HL & Ep & Hm & Ees & Ept & Hlc & Hset)].
  { exfalso. rewrite <- (Z2Nat.id (ae_PrevLogIndex args)), termAt_logTerm in Hpt by (done || lia).
    pose proof (logTerm_nonneg s (log rf) (Z.to_nat (ae_PrevLogIndex args)) Hinv Hml) as Hnn.
    unfold zlen in *. lia. }
  destruct (ai_lead _ _ Hinv _ _ _ HL) as (_ & HmL & _).
  rewrite Ep in Hpt, Hprev, Hlog. rewrite termAt_logTerm in Hpt by done.
  unfold zlen in Hprev. replace (Z.to_nat (Z.of_nat p - 0)) with p in Hlog by lia.
  rewrite Ees in Hlog. rewrite <- Ht in HL.
  destruct (sim_adopt s i rf c L m (log rf')) as (s' & Ha & Hl' & Ht' & Hv' & Hack & Em & Hset');
    [done|done|done|lia| |].
  { rewrite Hlog. apply (merge_adopts s); [done|done|lia|].
    apply (logTerm_agree s); done || lia. }
  assert (m <= length (log rf'))%nat as Hlen.
  { apply (f_equal length) in Em. rewrite !length_take in Em. lia. }
  exists s'. split_and!; [done| |].
  - split; rewrite ?K1, ?K2, ?K3, ?F1, ?F2, ?Hidx, ?Hst, ?Ht', ?Hv'; try done.
    rewrite Hci. bcase; [|done].
    rewrite Z.min_l by (unfold lastLogIndex, zlen; lia). split; [lia|].
    eapply settled_prefix; [eapply settled_mono; [by eapply acts_extends|]; rewrite Ht; done
                           |done|].
    eapply take_shorter; [|exact Em]. lia.
  - intros _. rewrite Ep, Ees, <- Ht. split; [lia|].
    unfold zlen. rewrite length_take, length_drop.
    replace (Z.to_nat _) with m by lia. done.
Qed.

Lemma sim_AppendEntries s i r rf rf' src args reply :
  abs_inv n s -> peer_rel s i rf -> msg_rel s (MApp src i args) ->
  AppendEntries r args rf = Some (rf', reply) ->
  exists s', acts i s s' /\ peer_rel s' i rf' /\ msg_rel s' (MAppR i src args reply).
Proof.
  intros Hinv Hp Hm. unfold AppendEntries. bcase.
  { intros [= <- <-]. exists s. split_and!; [apply rtc_refl|done|done]. }
  intros Hap. destruct (sim_followLeader s i rf r (ae_Term args)) as (s1 & Ha1 & Hp1 & Ht1);
    [done|done|lia|].
  destruct (sim_appendChecked s1 i (followLeader r (ae_Term args) rf) rf' src args reply)
    as (s2 & Ha2 & Hp2 & Hm2); try done.
  - by eapply acts_inv.
  - eapply msg_rel_mono; [by eapply acts_extends|done].
  - exists s2. split_and!; [by eapply acts_trans|done|done].
Qed.

Lemma sim_InstallSnapshot s i r rf rf' src args reply msg :
  abs_inv n s -> peer_rel s i rf -> msg_rel s (MSnap src i args) ->
  InstallSnapshot r args rf = (rf', reply, msg) ->
  exists s', acts i s s' /\ peer_rel s' i rf' /\ msg_rel s' (MSnapR i src args reply).
Proof.
  intros Hinv Hp Hm. unfold InstallSnapshot. bcase.
  { intros [= <- <- <-]. exists s. split_and!; [apply rtc_refl|done|done]. }
  destruct (sim_followLeader s i rf r (is_Term args)) as (s1 & Ha1 & Hp1 & _);
    [done|done|lia|].
  intros H. exists s1. split_and!; [done| |done].
  by destruct (_ <=? _); simplify_eq.
Qed.

(** ** The leader's side *)

Lemma sim_replicateTo s i peer rf args :
  peer_rel s i rf -> replicateTo peer rf = Some (SendAppendEntries args) ->
  msg_rel s (MApp i peer args).
Proof.
  intros [R1 R2 [R3 R3'] R4 R5 R6 [R7 [R7' R7'']] R8]. unfold replicateTo.
  bcase; [done|]. destruct (R6 ltac:(done)) as [HL _].
  destruct (zget (nextIndex rf) peer) as [a|]; [|done]. cbn. bcase; [done|].
  unfold lastLogIndex, toSliceIndex in *. rewrite R3 in *. bcase.
  - rewrite slice_from_Some by lia. cbn. intros [= <-].
    right. exists i, (log rf), (Z.to_nat (a - 1)), (length (log rf)). cbn. unfold zlen in *.
    split_and!; try done; try lia.
    + rewrite take_ge; [f_equal; lia|rewrite length_drop; lia].
    + rewrite <- termAt_logTerm by done. f_equal. lia.
  - cbn. intros [= <-]. destruct (decide (a - 1 = zlen (log rf))) as [Ea|Ea].
    + right. exists i, (log rf), (length (log rf)), (length (log rf)). cbn.
      unfold zlen in *. split_and!; try done; try lia.
      * by rewrite Nat.sub_diag, take_0.
      * rewrite Ea. by rewrite termAt_logTerm.
    + left. cbn. rewrite <- (Z2Nat.id (a - 1)), termAt_logTerm by (done || lia).
      destruct (Z.to_nat (a - 1)) as [|k] eqn:Ek; [unfold zlen in *; lia|]. cbn.
      by rewrite lookup_ge_None_2 by (unfold zlen in *; lia).
Qed.

Lemma peer_rel_match s i rf rf' :
  peer_rel s i rf -> keeps rf rf' ->
  currentTerm rf' = currentTerm rf -> votedFor rf' = votedFor rf -> state rf' = state rf ->
  (state rf = StateLeader -> forall p m, 0 <= p < Z.of_nat n -> p <> i ->
     zget (matchIndex rf') p = Some m -> 0 < m ->
     (p, currentTerm rf, Z.to_nat m) ∈ a_ack s) ->
  peer_rel s i rf'.
Proof.
  intros [R1 R2 [R3 R3'] R4 R5 R6 R7 R8] [K1 K2 K3 K4 K5] Ht Hv Hst Hm.
  split; rewrite ?Ht, ?Hv, ?Hst, ?K1, ?K2, ?K3, ?K4; try done; [|lia].
  intros Hl. destruct (R6 Hl) as [? _]. split; [done|]. by apply Hm.
Qed.

(** The commit rule of [tryCommit] commits in the sense of the protocol. *)
Lemma sim_commit s i rf k :
  abs_inv n s -> peer_rel s i rf -> me rf = i -> peers rf = n -> state rf = StateLeader ->
  commitIndex rf < k <= lastLogIndex rf -> committable rf k = true ->
  peer_rel s i (signal (with_commitIndex k rf)).
Proof.
  intros Hinv [R1 R2 [R3 R3'] R4 R5 R6 [R7 R7'] R8] Hme Hn Hst Hk Hc.
  split; cbn; try done. split; [lia|].
  destruct (R6 Hst) as [HL Hack]. unfold committable in Hc.
  apply andb_true_iff in Hc as [Ht%Z.eqb_eq Hmaj].
  unfold lastLogIndex in Hk. rewrite R3 in Hk. unfold zlen in Hk.
  destruct (Z.to_nat k) as [|k'] eqn:Ek; [lia|].
  rewrite <- (Z2Nat.id k), Ek, termAt_logTerm in Ht by (done || lia). cbn in Ht.
  destruct (lookup_lt_is_Some_2 (log rf) k') as [e He]; [lia|]. rewrite He in Ht.
  assert (own s (currentTerm rf) k' (log rf)) as Ho by (by exists i, e).
  split; [lia|]. right. exists (currentTerm rf), k', (log rf). split_and!; try done.
  exists (log rf), (filter (holds rf k) (zrange n)). split; [done|]. split; [split_and!|].
  - apply NoDup_filter, NoDup_zrange.
  - intros v [_ ?]%list_elem_of_filter. done.
  - unfold onMajority in Hmaj. rewrite countb_filter, Hn in Hmaj.
    Z.to_euclidean_division_equations. lia.
  - intros v [Hh Hv%elem_of_zrange]%list_elem_of_filter. unfold holds in Hh.
    destruct (decide (v = i)) as [->|Hvi]; [by eapply (ai_own _ _ Hinv)|].
    destruct (Z.eqb_spec v (me rf)); [congruence|]. cbn in Hh.
    destruct (zget (matchIndex rf) v) as [m|] eqn:Hm; [|done].
    apply Is_true_true, Z.leb_le in Hh. exists (Z.to_nat m). split; [lia|].
    apply (Hack v m); done || lia.
Qed.

Lemma sim_tryCommit s i rf rf' :
  abs_inv n s -> peer_rel s i rf -> me rf = i -> peers rf = n -> 0 <= i < Z.of_nat n ->
  state rf = StateLeader -> tryCommit rf = Some rf' -> peer_rel s i rf'.
Proof.
  intros Hinv Hp Hme Hn Hi Hst H.
  apply tryCommitLoop_spec in H as [[-> _]|(k & -> & Hk & Hc & _)]; [done| |lia|lia].
  by apply sim_commit.
Qed.

Lemma sim_AppendReply s i rf rf' peer args reply :
  abs_inv n s -> peer_rel s i rf -> me rf = i -> peers rf = n -> 0 <= i < Z.of_nat n ->
  msg_rel s (MAppR peer i args reply) ->
  appendEntriesReply peer args reply rf = Some rf' ->
  exists s', acts i s s' /\ peer_rel s' i rf'.
Proof.
  intros Hinv Hp Hme Hn Hi Hm. unfold appendEntriesReply. bcase.
  { intros [= <-]. by apply sim_stepDown. }
  destruct (decide (state rf = StateLeader /\ currentTerm rf = ae_Term args)) as [[Hst Ht]|Hne].
  2:{ bcase; [intros [= <-]; exists s; split; [apply rtc_refl|done]|]. naive_solver. }
  rewrite bool_decide_eq_true_2, (proj2 (Z.eqb_eq _ _)) by done. cbn [negb orb].
  intros Hr. exists s. split; [apply rtc_refl|].
  pose proof (pr_lead _ _ _ Hp Hst) as [_ Hack]. destruct (aer_Success reply) eqn:Hok.
  - destruct (Hm Hok) as [Hprev Hin]. rewrite <- Ht in Hin.
    go_inv; (match goal with E : tryCommit ?x = _ |- _ =>
        apply (sim_tryCommit s _ x); [done| |done..|exact E] end);
      (eapply peer_rel_match; [done|by split|done..|]); intros _ p m Hpn Hpi; cbn; [|by apply Hack].
    match goal with E : zset (matchIndex _) _ _ = _ |- _ => rewrite (zset_zget _ _ _ _ _ E) end.
    case_decide; [intros [= <-] _; congruence|by apply Hack].
  - go_inv; (eapply peer_rel_match; [done|by split|done..|]); by intros _; cbn.
Qed.

Lemma sim_SnapshotReply s i rf rf' peer args reply :
  abs_inv n s -> peer_rel s i rf -> msg_rel s (MSnapR peer i args reply) ->
  installSnapshotReply peer args reply rf = Some rf' ->
  exists s', acts i s s' /\ peer_rel s' i rf'.
Proof.
  intros Hinv Hp Hm. unfold installSnapshotReply. cbn in Hm. rewrite Hm. bcase.
  { intros [= <-]. by apply sim_stepDown. }
  intros Hr. exists s. split; [apply rtc_refl|].
  go_inv; try done; (eapply peer_rel_match; [done|by split|done..|]);
    intros Hst; pose proof (pr_lead _ _ _ Hp Hst) as [_ Hack]; try done;
    intros p m Hpn Hpi; cbn;
    match goal with E : zset (matchIndex _) _ _ = _ |- _ => rewrite (zset_zget _ _ _ _ _ E) end;
    (case_decide; [intros [= <-]; lia|by apply Hack]).
Qed.

Lemma sim_Start s i rf rf' cmd ret :
  abs_inv n s -> peer_rel s i rf -> me rf = i -> Start cmd rf = Some (rf', ret) ->
  exists s', acts i s s' /\ peer_rel s' i rf'.
Proof.
  intros Hinv Hp Hme. unfold Start. bcase.
  { intros [= <- <-]. exists s. split; [apply rtc_refl|done]. }
  intros Hr. go_inv. pose proof Hp as [R1 R2 [R3 R3'] R4 R5 R6 [R7 R7'] R8].
  destruct R6 as [HL Hack]; [done|].
  set (l := log rf ++ [Entry (currentTerm rf) cmd]).
  assert (abs_step n s {| a_term := a_term s; a_log := <[me rf := l]> (a_log s);
    a_vote := a_vote s; a_cand := a_cand s;
    a_lead := <[currentTerm rf := (me rf, l)]> (a_lead s);
    a_ack := (me rf, currentTerm rf, length l) :: a_ack s |}) as Hs.
  { apply abs_append with cmd; [done|by rewrite R2|by rewrite R2]. }
  eexists. split.
  - apply (acts_once _ _ _ Hs). intros j Hj. split; cbn; try done.
    + by rewrite fn_lookup_insert_ne.
    + intros t L. destruct (decide (currentTerm rf = t)) as [<-|]; [|by rewrite lookup_insert_ne].
      rewrite lookup_insert_eq, HL. naive_solver.
  - split; cbn; try done.
    + by rewrite fn_lookup_insert.
    + congruence.
    + intros _. rewrite lookup_insert_eq. split; [done|]. intros p m Hp0 Hpi Hg Hm0.
      match goal with E : zset _ _ _ = _ |- _ => rewrite (zset_zget _ _ _ _ _ E) in Hg end.
      case_decide; [done|]. right. by apply Hack.
    + split; [done|]. destruct R7' as [Hle ?] eqn:E7.
      eapply settled_prefix; [eapply settled_mono; [by eapply abs_step_extends|exact R7']|done|].
      unfold l. by rewrite take_app_le.
Qed.

(** ** The applier and restarts *)

Lemma sim_applierTake s i rf rf' ob :
  peer_rel s i rf -> applierTake rf = (rf', ob) -> peer_rel s i rf' /\ batch_rel s ob.
Proof.
  intros Hp. unfold applierTake.
  pose proof Hp as [R1 R2 [R3 R3'] R4 R5 R6 [R7 R7'] R8]. pose proof R7' as [Hlen _].
  bcase; intros [= <- <-].
  - split; [|done]. eapply peer_rel_match; [done|by split|done..|]. intros Hl.
    by apply (pr_lead _ _ _ Hp).
  - split; [eapply peer_rel_match; [done|by split|done..|]; intros Hl;
            by apply (pr_lead _ _ _ Hp)|].
    intros b [= <-]. cbn. split_and!; [done|lia|].
    exists (currentTerm rf), (log rf), (Z.to_nat (commitIndex rf)). split; [done|].
    rewrite collectLoop_spec by (unfold lastLogIndex, zlen; lia).
    unfold toSliceIndex. rewrite R3. f_equal; [lia|]. f_equal. lia.
Qed.

(** Without a snapshot a restarted peer has applied nothing. *)
Lemma restart_indices `{!CodecLaws (RaftPersist C)} i rf r :
  lastIncludedIndex rf = 0 -> persisted rf ->
  commitIndex (Make n i (persister rf) r : Raft C) = 0 /\
  lastApplied (Make n i (persister rf) r : Raft C) = 0.
Proof.
  intros E Hps. pose proof (Make_persistent n i _ r Hps) as HP.
  unfold persistent in HP. injection HP as _ _ _ Hi _. revert Hi. rewrite E.
  unfold Make, readPersist. bcase; [done|]. destruct (dec _); [|done]. cbn. by intros ->.
Qed.

Lemma sim_restart `{!CodecLaws (RaftPersist C)} s i rf r :
  peer_rel s i rf -> persisted rf -> peer_rel s i (Make n i (persister rf) r).
Proof.
  intros [R1 R2 [R3 R3'] R4 R5 R6 R7 R8] Hps. pose proof (Make_persistent n i _ r Hps) as HP.
  unfold persistent in HP. injection HP as Ht Hv Hl Hi Hit.
  destruct (restart_indices i rf r R3 Hps) as [Hc Ha].
  split; rewrite ?Make_follower, ?Ht, ?Hv, ?Hl, ?Hi, ?Hit, ?Hc, ?Ha; try done.
  split; [done|]. split; [cbn; lia|by left].
Qed.

(** ** Every event of a peer is a sequence of its abstract steps *)

Lemma voted_vote net s v t c : refines net s -> voted net v t c -> a_vote s !! (v, t) = Some c.
Proof.
  intros HR [(dst & args & reply & Hin & Hg & <- & <-)|(<- & dst & args & Hin & <-)];
    apply (rel_msg _ _ HR) in Hin; [by apply Hin|]. by destruct Hin as (_ & _ & ? & _).
Qed.

Lemma voteReply_term args reply votes rf rf' votes' :
  voteReply args reply votes rf = Some (rf', votes') -> state rf' = StateLeader ->
  currentTerm rf' = currentTerm rf.
Proof. unfold voteReply. intros H Hl. go_inv; frames; cbn in *; done. Qed.

(** A peer that leads after counting a vote has the votes of a majority. *)
Lemma elected_quorum net s i nd' :
  0 <= i < Z.of_nat n -> refines net s ->
  net_inv n {| nodes := <[i := nd']> (nodes net); soup := soup net |} ->
  state (raft nd') = StateLeader ->
  exists Q, isQuorum n Q /\
    forall v, v ∈ Q -> a_vote s !! (v, currentTerm (raft nd')) = Some i.
Proof.
  intros Hi HR Hnet' Hl. pose proof (inv_leader _ _ Hnet' i Hi) as HQ. cbn [nodes] in HQ.
  rewrite fn_lookup_insert in HQ. destruct (HQ Hl) as (Q & HN & HS & HZ & HV).
  exists Q. split; [done|]. intros v Hv. eapply voted_vote; [done|]. exact (HV v Hv).
Qed.

(** The event [ev] of peer [i], which takes it to [nd'], is matched from [s]. *)
Definition simulated s (i src : Z) (ev : Event C) (nd' : Node C) : Prop :=
  exists s', acts i s s' /\ peer_rel s' i (raft nd') /\ batch_rel s' (batch nd') /\
    forall m, m ∈ outputs src i nd' ev -> msg_rel s' m.

Lemma sim_case (Q : Abs C -> Prop) s i src ev nd' ob :
  abs_inv n s -> batch_rel s ob -> batch nd' = ob ->
  (exists s', acts i s s' /\ peer_rel s' i (raft nd') /\ Q s') ->
  (forall s', Q s' -> forall m, m ∈ outputs src i nd' ev -> msg_rel s' m) ->
  simulated s i src ev nd'.
Proof.
  intros Hinv Hb <- (s' & Ha & Hp' & HQ) HQm. exists s'. split_and!; eauto.
  eapply batch_rel_mono; [by eapply acts_extends|done].
Qed.

(** Events that send nothing. *)
Lemma sim_silent s i src ev nd' ob :
  abs_inv n s -> batch_rel s ob -> batch nd' = ob -> outputs src i nd' ev = [] ->
  (exists s', acts i s s' /\ peer_rel s' i (raft nd')) -> simulated s i src ev nd'.
Proof.
  intros Hinv Hb Hob Ho (s' & Ha & Hp'). eapply (sim_case (fun _ => True)); eauto.
  intros ? _ m Hm. rewrite Ho in Hm. by inv Hm.
Qed.

(** Events that change neither term, vote, role, log nor indices. *)
Lemma sim_quiet s i src ev rf nd' ob :
  abs_inv n s -> peer_rel s i rf -> batch_rel s ob -> batch nd' = ob ->
  outputs src i nd' ev = [] -> keeps rf (raft nd') ->
  state (raft nd') = state rf -> currentTerm (raft nd') = currentTerm rf ->
  votedFor (raft nd') = votedFor rf -> matchIndex (raft nd') = matchIndex rf ->
  simulated s i src ev nd'.
Proof.
  intros Hinv Hp Hb Hob Ho Hk Hst Ht Hv Hm. eapply sim_silent; eauto.
  exists s. split; [apply rtc_refl|]. eapply peer_rel_same; eauto. right.
  split; [done|]. by rewrite Hm.
Qed.

Lemma sim_event net s i src ev nd' :
  0 <= i < Z.of_nat n -> net_inv n net -> abs_inv n s -> refines net s ->
  node_step (nodes net i) ev nd' ->
  (forall m, input src i ev = Some m -> m ∈ soup net) -> service_event ev = false ->
  simulated s i src ev nd'.
Proof.
  intros Hi Hnet Hinv HR Hs Hin Hse. destruct (inv_me _ _ Hnet i Hi) as [Hme Hn].
  pose proof (rel_peer _ _ HR i Hi) as Hp. pose proof (rel_batch _ _ HR i Hi) as Hb.
  assert (forall m, input src i ev = Some m -> msg_rel s m) as Hmsg
    by (intros m Hm; by apply (rel_msg _ _ HR), Hin).
  pose proof (node_step_inv n net {| nodes := <[i := nd']> (nodes net);
    soup := outputs src i nd' ev ++ soup net |} i src ev nd' Hi Hs Hin eq_refl eq_refl Hnet)
    as Hnet'.
  destruct Hs; try done.
  - eapply sim_case; [done|done|done|eapply sim_ElectionTimer; eauto; lia|].
    intros s' Hm m (p & -> & _)%list_elem_of_fmap. apply Hm.
  - eapply sim_case; [done|done|done|eapply sim_RequestVote; eauto|].
    by intros s' Hm m ->%list_elem_of_singleton.
  - eapply sim_silent; [done|done|done|done|]. eapply sim_VoteReply; eauto.
    intros _ Hl. erewrite <- voteReply_term by eauto.
    exact (elected_quorum _ _ _ _ Hi HR Hnet' Hl).
  - eapply sim_case; [done|done|done|eapply sim_AppendEntries; eauto|].
    by intros s' Hm m ->%list_elem_of_singleton.
  - eapply sim_case; [done|done|done|eapply sim_InstallSnapshot; eauto|].
    by intros s' Hm m ->%list_elem_of_singleton.
  - unfold onHeartbeatTimer in *. go_inv; eapply sim_quiet; done.
  - apply (sim_case (fun s' => s' = s)) with (batch (nodes net i));
      [done|done|done|by exists s; split_and!; [apply rtc_refl|done|]|].
    intros s' -> m Hm. destruct out; [by inv Hm|..]; apply list_elem_of_singleton in Hm as ->.
    + unfold replicateTo in *. go_inv. by apply (pr_snap _ _ _ Hp).
    + by eapply sim_replicateTo.
  - eapply sim_silent; [done|done|done|done|]. eapply sim_AppendReply; eauto.
  - eapply sim_silent; [done|done|done|done|]. eapply sim_SnapshotReply; eauto.
  - eapply sim_silent; [done|done|done|done|]. eapply sim_Start; eauto.
  - destruct (sim_applierTake s i (raft (nodes net i)) rf' ob) as [Hp' Hob]; [done|done|].
    eapply sim_silent; [done|exact Hob|done|done|]. exists s. by split; [apply rtc_refl|].
  - eapply (sim_quiet _ _ _ _ (raft (nodes net i)) _ None); try done; cbn;
      unfold applierDone; bcase; try done; split; cbn; done || lia.
  - by eapply sim_quiet.
Qed.

Lemma plain_sim `{!CodecLaws (RaftPersist C)} net net' s :
  plain_step net net' -> net_inv n net -> abs_inv n s -> refines net s ->
  exists s', rtc (abs_step n) s s' /\ refines net' s'.
Proof.
  intros [i src ev nd' Hi Hs Hin Hse|i r Hi] Hnet Hinv HR.
  - destruct (sim_event net s i src ev nd') as (s' & Ha & Hp & Hb & Hm); try done.
    exists s'. split; [by apply (acts_facts _ _ _ Ha Hinv)|]. by eapply refines_update.
  - exists s. split; [apply rtc_refl|].
    apply (refines_update net s s i _ []); try done; [|intros m Hm; by inv Hm].
    cbn [boot raft]. apply sim_restart; [by apply (rel_peer _ _ HR)|].
    by apply (inv_persisted _ _ Hnet).
Qed.

(** The abstract state before anything happened. *)
Definition abs0 : Abs C :=
  {| a_term := fun _ => 0; a_log := fun _ => []; a_vote := ∅; a_cand := ∅;
     a_lead := ∅; a_ack := [] |}.

Lemma abs0_init : abs_init abs0.
Proof. by repeat split. Qed.

Lemma init_refines net : net_init n net -> refines net abs0.
Proof.
  intros [Hs Hn]. split.
  - intros i Hi. destruct (Hn i) as [r ->]. split; try done.
    split; [done|]. split; [apply Nat.le_0_l|by left].
  - intros i Hi. by destruct (Hn i) as [r ->].
  - intros m Hm. rewrite Hs in Hm. by inv Hm.
Qed.

Lemma run_refines `{!CodecLaws (RaftPersist C)} net net' s :
  rtc plain_step net net' -> net_inv n net -> abs_inv n s -> refines net s ->
  exists s', rtc (abs_step n) s s' /\ refines net' s' /\ abs_inv n s' /\ extends s s'.
Proof.
  intros Hr. revert s. induction Hr as [net|net1 net2 net3 Hs _ IH]; intros s Hnet Hinv HR.
  { exists s. split_and!; [apply rtc_refl|done|done|apply extends_refl]. }
  destruct (plain_sim _ _ _ Hs Hnet Hinv HR) as (s2 & Hr2 & HR2).
  destruct (abs_rtc _ _ _ Hr2 Hinv) as [Hinv2 Hex2].
  destruct (IH s2) as (s3 & ? & ? & ? & ?); try done.
  { eapply (net_step_inv n); [by apply plain_net|done]. }
  exists s3. split_and!; [by etrans|done|done|by eapply extends_trans].
Qed.

Lemma plain_reachable_inv `{!CodecLaws (RaftPersist C)} net :
  plain_reachable net ->
  net_inv n net /\ exists s, abs_reachable n s /\ abs_inv n s /\ refines net s.
Proof.
  intros (net0 & H0 & Hr). split.
  { eapply (RaftNet.rtc_inv n); [|by apply init_inv]. eapply rtc_subrel; [|done]. apply plain_net. }
  destruct (run_refines net0 net abs0) as (s & ? & ? & ? & _);
    [done|by apply init_inv|apply abs_init_inv, abs0_init|by apply init_refines|].
  exists s. split_and!; try done. exists abs0. split; [apply abs0_init|done].
Qed.
End refine.
