(* ===== verification/RaftSafety.v ===== *)
(** * Safety of the cluster of raft.go

    What the refinement of RaftRefine gives for the cluster itself: log matching,
    completeness of leaders, agreement on what is committed and agreement on what
    reaches the services through [applyCh], over whole runs with lost, duplicated,
    delayed and reordered messages and with crashes, as long as no service takes or installs
    a snapshot ([plain_step]).  A run of three peers that
    elects a leader, replicates a command and applies it on two of them shows that
    the hypotheses can hold. *)
From S2P Require Import Prelude Persister RaftNode RaftLocal RaftInv RaftLog RaftNet RaftSpec RaftRefine.
From stdpp Require Import functions relations.
#[local] Open Scope Z_scope.

Section safety.
Context {C : Type} `{!Codec (RaftPersist C), !CodecLaws (RaftPersist C)}.
Variable n : nat.
Implicit Types net : Net C.

(** Without snapshots a global index is a position of the log. *)
Lemma glookup_position s i (rf : Raft C) g :
  peer_rel n s i rf -> 0 < g -> glookup rf g = log rf !! Z.to_nat (g - 1).
Proof.
  intros Hp Hg. destruct (pr_snap _ _ _ _ Hp) as [E _].
  unfold glookup, toSliceIndex. rewrite E. unfold zget. bcase; [|lia]. f_equal. lia.
Qed.

Lemma glookup_nonpos s i (rf : Raft C) g : peer_rel n s i rf -> g <= 0 -> glookup rf g = None.
Proof.
  intros Hp Hg. destruct (pr_snap _ _ _ _ Hp) as [E _].
  unfold glookup, toSliceIndex. rewrite E. unfold zget. by bcase; [lia|].
Qed.

(** Two moments of a run, with their abstract states. *)
Lemma two_moments net net' :
  plain_reachable n net -> rtc (plain_step n) net net' ->
  exists s s', abs_reachable n s /\ rtc (abs_step n) s s' /\ refines n net s /\
    refines n net' s' /\ abs_inv n s' /\ extends s s'.
Proof.
  intros Hr Hrt. destruct (plain_reachable_inv n net Hr) as (Hnet & s & Hs & Hinv & HR).
  destruct (run_refines n net net' s) as (s' & ? & ? & ? & ?); try done.
  exists s, s'. done.
Qed.

(** A step of the cluster leaves every peer's committed entries in its log. *)
Lemma plain_keeps_committed net net' i :
  plain_reachable n net -> plain_step n net net' -> 0 <= i < Z.of_nat n ->
  commitIndex (raft (nodes net i)) <= lastLogIndex (raft (nodes net' i)).
Proof.
  intros Hr Hs Hi. destruct (plain_reachable_inv n net Hr) as (Hnet & s & _ & Hinv & HR).
  destruct (plain_sim n _ _ _ Hs Hnet Hinv HR) as (s' & Hr' & HR').
  pose proof (rel_peer _ _ _ HR i Hi) as P. pose proof (rel_peer _ _ _ HR' i Hi) as P'.
  destruct (pr_commit _ _ _ _ P) as [_ Hset].
  rewrite <- (pr_term _ _ _ _ P), <- (pr_log _ _ _ _ P) in Hset.
  destruct (abs_rtc_keeps _ _ _ _ _ Hr' Hinv Hset) as [Hlen _].
  rewrite (pr_log _ _ _ _ P') in Hlen. destruct (pr_snap _ _ _ _ P') as [E _].
  unfold lastLogIndex, zlen. rewrite E. lia.
Qed.

(** So every peer of the cluster is a peer as RaftInv wants it. *)
Lemma plain_peer net i :
  plain_reachable n net -> 0 <= i < Z.of_nat n -> reachable_kc n i (nodes net i).
Proof.
  intros (net0 & [Hs0 Hn0] & Hr) Hi.
  assert (plain_reachable n net0) as H0 by (exists net0; split; [done|apply rtc_refl]).
  assert (reachable_kc n i (nodes net0 i)) as Hk by (destruct (Hn0 i) as [r ->]; constructor).
  clear Hs0 Hn0. induction Hr as [|net1 net2 net3 Hs _ IH]; [done|]. apply IH.
  - destruct H0 as (net0 & ? & ?). exists net0. split; [done|]. by eapply rtc_r.
  - pose proof (plain_keeps_committed _ _ i H0 Hs Hi) as Hc.
    destruct Hs as [j src ev nd' Hj Hs _ _|j r Hj]; cbn [nodes] in *;
      (destruct (decide (i = j)) as [->|]; [|by rewrite fn_lookup_insert_ne]);
      rewrite fn_lookup_insert in *; [|by apply kc_crash].
    eapply kc_step; [done..|]. by destruct ev.
Qed.

(** C4: the cluster refines the abstract protocol, in runs without snapshots (no service
    takes or installs one; with compaction the logs no longer start at index 1, and
    CondInstallSnapshot can keep a conflicting suffix, finding on raft.go:171).  Every
    such run of the cluster is matched by a run of the protocol of RaftSpec: the peers'
    terms and logs are those of the abstract state, and votes, leaderships,
    acknowledgements and commit indices are backed by it. *)
Theorem raft_refines net net' :
  plain_reachable n net -> rtc (plain_step n) net net' ->
  exists s s', abs_reachable n s /\ rtc (abs_step n) s s' /\
    refines n net s /\ refines n net' s'.
Proof.
  intros Hr Hrt. destruct (two_moments _ _ Hr Hrt) as (s & s' & ? & ? & ? & ? & _). eauto 10.
Qed.

(** C6: log matching, in runs without snapshots (no service takes or installs one).  If
    the logs of two peers have entries of the same term at the same index, they are
    identical up to that index. *)
Theorem log_matching net i j g e1 e2 :
  plain_reachable n net -> 0 <= i < Z.of_nat n -> 0 <= j < Z.of_nat n ->
  glookup (raft (nodes net i)) g = Some e1 -> glookup (raft (nodes net j)) g = Some e2 ->
  le_Term e1 = le_Term e2 ->
  forall g', g' <= g -> glookup (raft (nodes net i)) g' = glookup (raft (nodes net j)) g'.
Proof.
  intros Hr Hi Hj H1 H2 Ht g' Hg.
  destruct (plain_reachable_inv n net Hr) as (_ & s & _ & Hinv & HR).
  pose proof (rel_peer _ _ _ HR i Hi) as Pi. pose proof (rel_peer _ _ _ HR j Hj) as Pj.
  destruct (decide (0 < g')) as [Hg'|];
    [|by rewrite (glookup_nonpos s i _ _ Pi), (glookup_nonpos s j _ _ Pj) by lia].
  rewrite (glookup_position s i _ _ Pi), (glookup_position s j _ _ Pj) by lia.
  rewrite (glookup_position s i _ _ Pi) in H1 by lia.
  rewrite (glookup_position s j _ _ Pj) in H2 by lia.
  destruct (ai_log _ _ Hinv i) as [Mi _]. destruct (ai_log _ _ Hinv j) as [Mj _].
  rewrite (pr_log _ _ _ _ Pi) in Mi. rewrite (pr_log _ _ _ _ Pj) in Mj.
  eapply take_lookup_eq; [eapply (matching_agree s); eauto|]. lia.
Qed.

(** C5: leader completeness, in runs without snapshots (no service takes or installs
    one).  What a peer has committed is in the log of every peer that leads the same or a
    later term, then or at any later moment. *)
Theorem leader_completeness net net' i j g :
  plain_reachable n net -> rtc (plain_step n) net net' ->
  0 <= i < Z.of_nat n -> 0 <= j < Z.of_nat n ->
  g <= commitIndex (raft (nodes net i)) ->
  state (raft (nodes net' j)) = StateLeader ->
  currentTerm (raft (nodes net i)) <= currentTerm (raft (nodes net' j)) ->
  glookup (raft (nodes net' j)) g = glookup (raft (nodes net i)) g.
Proof.
  intros Hr Hrt Hi Hj Hg Hl Ht.
  destruct (two_moments _ _ Hr Hrt) as (s & s' & _ & _ & HR & HR' & Hinv' & Hex).
  pose proof (rel_peer _ _ _ HR i Hi) as Pi. pose proof (rel_peer _ _ _ HR' j Hj) as Pj.
  destruct (decide (0 < g)) as [Hg'|].
  2:{ by rewrite (glookup_nonpos s i _ _ Pi), (glookup_nonpos s' j _ _ Pj) by lia. }
  rewrite (glookup_position s i _ _ Pi), (glookup_position s' j _ _ Pj) by lia.
  destruct (pr_lead _ _ _ _ Pj Hl) as [HL _]. destruct (pr_commit _ _ _ _ Pi) as [_ Hset].
  eapply settled_mono, settled_later in Hset; [|done|done].
  symmetry. eapply take_lookup_eq; [by eapply settled_in_leader|]. lia.
Qed.

(** Committed entries agree.  At any two moments of a run, two peers have the
    same entry at every index up to both their commit indices. *)
Theorem committed_agree net net' i j g :
  plain_reachable n net -> rtc (plain_step n) net net' ->
  0 <= i < Z.of_nat n -> 0 <= j < Z.of_nat n ->
  0 < g <= commitIndex (raft (nodes net i)) -> g <= commitIndex (raft (nodes net' j)) ->
  exists e, glookup (raft (nodes net i)) g = Some e /\
            glookup (raft (nodes net' j)) g = Some e.
Proof.
  intros Hr Hrt Hi Hj Hgi Hgj.
  destruct (two_moments _ _ Hr Hrt) as (s & s' & _ & _ & HR & HR' & Hinv' & Hex).
  pose proof (rel_peer _ _ _ HR i Hi) as Pi. pose proof (rel_peer _ _ _ HR' j Hj) as Pj.
  rewrite (glookup_position s i _ _ Pi), (glookup_position s' j _ _ Pj) by lia.
  destruct (pr_commit _ _ _ _ Pi) as [_ Si]. destruct (pr_commit _ _ _ _ Pj) as [_ Sj].
  eapply settled_mono in Si; [|done].
  apply (settled_shorter _ _ _ _ _ (Z.to_nat g)) in Si; [|lia].
  apply (settled_shorter _ _ _ _ _ (Z.to_nat g)) in Sj; [|lia].
  pose proof (settled_agree _ _ _ _ _ _ _ Hinv' Si Sj) as E. destruct Si as [Hlen _].
  destruct (lookup_lt_is_Some_2 (log (raft (nodes net i))) (Z.to_nat (g - 1))) as [e He]; [lia|].
  exists e. split; [done|]. rewrite <- (take_lookup_eq _ _ _ _ E); [done|lia].
Qed.

(** C33: in runs without snapshots (no service takes or installs one) the indices of every
    peer of the cluster are ordered ([0 <= lastIncludedIndex <= delivered <= commitIndex <=
    lastLogIndex]), its applier never sleeps while there is something to apply, and no
    operation of it panics, whatever arrives: no leader ever makes a follower cut an entry
    that it has committed. *)
Theorem cluster_no_panic net i :
  plain_reachable n net -> 0 <= i < Z.of_nat n ->
  node_wf (nodes net i) /\ no_panic n (nodes net i).
Proof.
  intros Hr Hi. pose proof (plain_peer net i Hr Hi) as Hk.
  pose proof (reachable_kc_wf _ _ _ Hi Hk) as Hwf. split; [done|].
  apply node_wf_no_panic; [done|].
  by apply (reachable_identity _ _ _ (reachable_kc_reachable _ _ _ Hk)).
Qed.

(** The messages of a batch are a slice of a committed prefix. *)
Lemma batch_message s (b : ApplyBatch C) msg :
  batch_rel n s (Some b) -> msg ∈ applierMsgs b ->
  exists T l m e, settled n s T l m /\ l !! Z.to_nat (CommandIndex msg - 1) = Some e /\
    0 < CommandIndex msg <= Z.of_nat m /\ msg = commandMsg (CommandIndex msg) e.
Proof.
  intros Hb Hin. destruct (Hb b eq_refl) as (Hl & Hs & T & l & m & Hset & He).
  rewrite applierMsgs_spec in Hin by lia.
  apply list_elem_of_lookup in Hin as [k Hk]. rewrite list_lookup_imap in Hk.
  destruct (ab_entries b !! k) as [e|] eqn:Hke; [|done]. cbn in Hk. injection Hk as <-.
  rewrite He in Hke. apply lookup_take_Some in Hke as [Hke Hkm]. rewrite lookup_drop in Hke.
  exists T, l, m, e. cbn. split_and!; try done; try lia. rewrite <- Hke. f_equal. lia.
Qed.

(** C1: state machine safety, in runs without snapshots (no service takes or installs
    one; crashes, restarts and any treatment of the messages included).  If two peers, at
    any two moments of such a run, hand messages with the same index to their services,
    the messages are the same. *)
Theorem state_machine_safety net net' i j b1 b2 m1 m2 :
  plain_reachable n net -> rtc (plain_step n) net net' ->
  0 <= i < Z.of_nat n -> 0 <= j < Z.of_nat n ->
  batch (nodes net i) = Some b1 -> batch (nodes net' j) = Some b2 ->
  m1 ∈ applierMsgs b1 -> m2 ∈ applierMsgs b2 -> CommandIndex m1 = CommandIndex m2 ->
  m1 = m2.
Proof.
  intros Hr Hrt Hi Hj Hb1 Hb2 Hm1 Hm2 Hidx.
  destruct (two_moments _ _ Hr Hrt) as (s & s' & _ & _ & HR & HR' & Hinv' & Hex).
  pose proof (rel_batch _ _ _ HR i Hi) as B1. pose proof (rel_batch _ _ _ HR' j Hj) as B2.
  rewrite Hb1 in B1. rewrite Hb2 in B2. eapply batch_rel_mono in B1; [|done].
  destruct (batch_message s' b1 m1 B1 Hm1) as (T1 & l1 & k1 & e1 & S1 & L1 & K1 & ->).
  destruct (batch_message s' b2 m2 B2 Hm2) as (T2 & l2 & k2 & e2 & S2 & L2 & K2 & ->).
  cbn in *. rewrite Hidx in *. f_equal.
  assert (take (Z.to_nat (CommandIndex m2)) l1 = take (Z.to_nat (CommandIndex m2)) l2) as E.
  { eapply (settled_agree n s'); [done|..]; (eapply settled_shorter; [done|lia]). }
  apply (take_lookup_eq _ (Z.to_nat (CommandIndex m2 - 1))) in E; [|lia]. congruence.
Qed.
End safety.

(** ** A concrete run: a command is replicated and applied by two peers *)
Module Run.
Section run.
Context {C : Type} `{!Codec (RaftPersist C)}.
Variable cmd : C.

(** Peer 0 of three asks for votes and gets that of peer 1. *)
Definition net0 : Net C :=
  {| nodes := fun i => boot 3 i Persister.MakePersister 0; soup := [] |}.
Definition args : RequestVoteArgs :=
  {| rva_Term := 1; rva_CandidateId := 0; rva_LastLogIndex := 0; rva_LastLogTerm := 0 |}.
Definition yes : RequestVoteReply := {| rvr_Term := 1; rvr_VoteGranted := true |}.
Definition candidate_rf : Raft C := (onElectionTimer 0 (raft (nodes net0 0))).1.
Definition el : Election :=
  {| el_args := args; el_votes := 1; el_pending := otherPeers candidate_rf |}.
Definition candidate : Node C :=
  {| raft := candidate_rf; elections := <[rva_Term args := el]> ∅; batch := None |}.
Definition net1 : Net C :=
  {| nodes := <[0 := candidate]> (nodes net0); soup := [MVote 0 1 args; MVote 0 2 args] |}.
Definition voter_rf : Raft C := (RequestVote 0 args (raft (nodes net1 1))).1.
Definition voter : Node C := with_rf voter_rf (nodes net1 1).
Definition net2 : Net C :=
  {| nodes := <[1 := voter]> (nodes net1); soup := MVoteR 1 0 args yes :: soup net1 |}.
Definition leader_rf : Raft C :=
  default candidate_rf (fst <$> voteReply args yes 1 candidate_rf).
Definition leader : Node C :=
  {| raft := leader_rf;
     elections := <[rva_Term args := note_vote 1 2 el]> (elections candidate); batch := None |}.
Definition net3 : Net C :=
  {| nodes := <[0 := leader]> (nodes net2); soup := soup net2 |}.

(** The leader starts the command and sends it to peer 1. *)
Definition started : Node C :=
  with_rf (default leader_rf (fst <$> Start cmd leader_rf)) leader.
Definition net4 : Net C := {| nodes := <[0 := started]> (nodes net3); soup := soup net3 |}.
Definition app : AppendEntriesArgs C :=
  {| ae_Term := 1; ae_LeaderId := 0; ae_PrevLogIndex := 0; ae_PrevLogTerm := 0;
     ae_Entries := [Entry 1 cmd]; ae_LeaderCommit := 0 |}.
Definition net5 : Net C :=
  {| nodes := <[0 := nodes net4 0]> (nodes net4); soup := MApp 0 1 app :: soup net4 |}.

(** Peer 1 appends it, the leader commits it. *)
Definition ok : AppendEntriesReply :=
  {| aer_Term := 1; aer_Success := true; aer_ConflictTerm := 0; aer_ConflictIndex := 0 |}.
Definition appended : Node C :=
  with_rf (default voter_rf (fst <$> AppendEntries 0 app voter_rf)) voter.
Definition net6 : Net C :=
  {| nodes := <[1 := appended]> (nodes net5); soup := MAppR 1 0 app ok :: soup net5 |}.
Definition committer : Node C :=
  with_rf (default leader_rf (appendEntriesReply 1 app ok (raft started))) started.
Definition net7 : Net C := {| nodes := <[0 := committer]> (nodes net6); soup := soup net6 |}.

(** The next heartbeat tells peer 1; both take the entry to apply it. *)
Definition beat : AppendEntriesArgs C :=
  {| ae_Term := 1; ae_LeaderId := 0; ae_PrevLogIndex := 1; ae_PrevLogTerm := 1;
     ae_Entries := []; ae_LeaderCommit := 1 |}.
Definition net8 : Net C :=
  {| nodes := <[0 := nodes net7 0]> (nodes net7); soup := MApp 0 1 beat :: soup net7 |}.
Definition informed : Node C :=
  with_rf (default voter_rf (fst <$> AppendEntries 0 beat (raft appended))) appended.
Definition net9 : Net C :=
  {| nodes := <[1 := informed]> (nodes net8); soup := MAppR 1 0 beat ok :: soup net8 |}.
Definition taking (nd : Node C) : Node C :=
  {| raft := (applierTake (raft nd)).1; elections := elections nd;
     batch := (applierTake (raft nd)).2 |}.
Definition net10 : Net C :=
  {| nodes := <[0 := taking committer]> (nodes net9); soup := soup net9 |}.
Definition net11 : Net C :=
  {| nodes := <[1 := taking informed]> (nodes net10); soup := soup net10 |}.

(** The events of the run: event [ev] of peer [i] leads from [net] to [net']. *)
Record fires (i src : Z) (ev : Event C) (net net' : Net C) : Prop := {
  fi_range : 0 <= i < 3;
  fi_node : node_step (nodes net i) ev (nodes net' i);
  fi_input m : input src i ev = Some m -> m ∈ soup net;
  fi_service : service_event ev = false;
  fi_done b : ev <> EvApplierDone b;
  fi_net : {| nodes := <[i := nodes net' i]> (nodes net);
              soup := outputs src i (nodes net' i) ev ++ soup net |} = net';
}.

Lemma fires_plain i src ev net net' : fires i src ev net net' -> plain_step 3 net net'.
Proof. intros [? ? ? ? _ <-]. by eapply plain_event. Qed.

(** [rule] is the rule of [node_step]; its conditions are computed. *)
Ltac fire rule :=
  split; [lia|apply rule; first [vm_compute; reflexivity|done|constructor]
         |try (intros ? [= <-]; constructor); done|done|done|vm_compute; reflexivity].

Lemma fire1 : fires 0 0 (EvElectionTimer args) net0 net1.
Proof. fire (step_ElectionTimer (nodes net0 0) 0 candidate_rf args). Qed.
Lemma fire2 : fires 1 0 (EvRequestVote args yes) net1 net2.
Proof. fire (step_RequestVote (nodes net1 1) 0 args voter_rf yes). Qed.
Lemma fire3 : fires 0 1 (EvVoteReply 1 args yes) net2 net3.
Proof. fire (step_VoteReply candidate 1 args yes el leader_rf 2). Qed.
Lemma fire4 : fires 0 0 (EvStart cmd (1, 1, true)) net3 net4.
Proof. fire (step_Start leader cmd). Qed.
Lemma fire5 : fires 0 0 (EvReplicateTo 1 (SendAppendEntries app)) net4 net5.
Proof. fire (step_ReplicateTo started). Qed.
Lemma fire6 : fires 1 0 (EvAppendEntries app ok) net5 net6.
Proof. fire (step_AppendEntries voter 0). Qed.
Lemma fire7 : fires 0 0 (EvAppendReply 1 app ok) net6 net7.
Proof. fire (step_AppendReply started). Qed.
Lemma fire8 : fires 0 0 (EvReplicateTo 1 (SendAppendEntries beat)) net7 net8.
Proof. fire (step_ReplicateTo committer). Qed.
Lemma fire9 : fires 1 0 (EvAppendEntries beat ok) net8 net9.
Proof. fire (step_AppendEntries appended 0). Qed.
Lemma fire10 : fires 0 0 EvApplierTake net9 net10.
Proof. fire (step_ApplierTake committer). Qed.
Lemma fire11 : fires 1 0 EvApplierTake net10 net11.
Proof. fire (step_ApplierTake informed). Qed.

#[local] Hint Resolve fires_plain fire1 fire2 fire3 fire4 fire5 fire6 fire7 fire8 fire9
  fire10 fire11 : run.

Lemma reach3 : plain_reachable 3 net3.
Proof.
  exists net0. split; [split; [done|by exists 0]|].
  do 3 (eapply rtc_l; [eauto with run|]). apply rtc_refl.
Qed.

Lemma run37 : rtc (plain_step 3) net3 net7.
Proof. do 4 (eapply rtc_l; [eauto with run|]). apply rtc_refl. Qed.

Lemma run79 : rtc (plain_step 3) net7 net9.
Proof. do 2 (eapply rtc_l; [eauto with run|]). apply rtc_refl. Qed.

Lemma run911 : rtc (plain_step 3) net9 net11.
Proof. do 2 (eapply rtc_l; [eauto with run|]). apply rtc_refl. Qed.

Lemma reach_run net net' :
  plain_reachable 3 net -> rtc (plain_step 3) net net' -> plain_reachable 3 net'.
Proof. intros (net_0 & ? & ?) ?. exists net_0. split; [done|]. by etrans. Qed.

Lemma reach7 : plain_reachable 3 net7.
Proof. exact (reach_run _ _ reach3 run37). Qed.

Lemma reach9 : plain_reachable 3 net9.
Proof. exact (reach_run _ _ reach7 run79). Qed.

(** The message both peers hand to their services, from their batches. *)
Definition sent : ApplyMsg C := commandMsg 1 (Entry 1 cmd).
Definition took (nd : Node C) : ApplyBatch C :=
  default {| ab_commitIndex := 0; ab_lastIncludedIndex := 0; ab_startIdx := 0; ab_entries := [] |}
    (batch nd).
End run.
End Run.

Import IntCommands.

Lemma raft_refines_witness :
  commitIndex (raft (nodes (Run.net9 7) 1)) = 1 /\
  exists s s', abs_reachable 3 s /\ rtc (abs_step 3) s s' /\
    refines 3 Run.net3 s /\ refines 3 (Run.net9 7) s'.
Proof.
  split; [vm_compute; reflexivity|].
  apply (raft_refines 3 Run.net3 (Run.net9 7) Run.reach3).
  transitivity (Run.net7 7); [apply (Run.run37 7)|apply (Run.run79 7)].
Defined.

Lemma log_matching_witness :
  glookup (raft (nodes (Run.net7 7) 0)) 1 = Some (Entry 1 7) /\
  forall g, g <= 1 -> glookup (raft (nodes (Run.net7 7) 0)) g = glookup (raft (nodes (Run.net7 7) 1)) g.
Proof.
  split; [vm_compute; reflexivity|].
  apply (log_matching 3 (Run.net7 7) 0 1 1 (Entry 1 7) (Entry 1 7) (Run.reach7 7));
    try lia; vm_compute; reflexivity.
Defined.

Lemma leader_completeness_witness :
  commitIndex (raft (nodes (Run.net9 7) 1)) = 1 /\
  glookup (raft (nodes (Run.net11 7) 0)) 1 = glookup (raft (nodes (Run.net9 7) 1)) 1.
Proof.
  split; [vm_compute; reflexivity|].
  apply (leader_completeness 3 (Run.net9 7) (Run.net11 7) 1 0 1 (Run.reach9 7) (Run.run911 7));
    try lia; vm_compute; done.
Defined.

Lemma cluster_no_panic_witness :
  commitIndex (raft (nodes (Run.net9 7) 1)) = 1 /\
  is_Some (replicateTo 2 (raft (nodes (Run.net9 7) 0))).
Proof.
  split; [vm_compute; reflexivity|].
  destruct (cluster_no_panic 3 (Run.net9 7) 0 (Run.reach9 7) ltac:(lia))
    as (_ & _ & _ & _ & _ & _ & Hp).
  apply Hp. lia.
Defined.

Lemma committed_agree_witness :
  commitIndex (raft (nodes (Run.net7 7) 0)) = 1 /\ commitIndex (raft (nodes (Run.net9 7) 1)) = 1 /\
  exists e, glookup (raft (nodes (Run.net7 7) 0)) 1 = Some e /\
            glookup (raft (nodes (Run.net9 7) 1)) 1 = Some e.
Proof.
  split; [vm_compute; reflexivity|]. split; [vm_compute; reflexivity|].
  apply (committed_agree 3 (Run.net7 7) (Run.net9 7) 0 1 1 (Run.reach7 7) (Run.run79 7));
    try lia; vm_compute; done.
Defined.

Lemma state_machine_safety_witness :
  batch (nodes (Run.net11 7) 0) = Some (Run.took (nodes (Run.net11 7) 0)) /\
  batch (nodes (Run.net11 7) 1) = Some (Run.took (nodes (Run.net11 7) 1)) /\
  forall m, m ∈ applierMsgs (Run.took (nodes (Run.net11 7) 1)) -> CommandIndex m = 1 ->
    (Run.sent 7) = m.
Proof.
  split; [vm_compute; reflexivity|]. split; [vm_compute; reflexivity|].
  intros m Hm Hi.
  apply (state_machine_safety 3 (Run.net11 7) (Run.net11 7) 0 1 (Run.took (nodes (Run.net11 7) 0))
    (Run.took (nodes (Run.net11 7) 1)) (Run.sent 7) m
    (Run.reach_run _ _ (Run.reach9 7) (Run.run911 7)) (rtc_refl _ _) ltac:(lia) ltac:(lia)).
  - vm_compute. reflexivity.
  - vm_compute. reflexivity.
  - vm_compute. constructor.
  - exact Hm.
  - by rewrite Hi.
Defined.
