(* ===== verification/RaftCommands.v ===== *)
(** * Where the entries of a cluster come from

    Raft invents no commands: every entry of a log, and of a request to append, was
    submitted to [Start].  And what a peer's applier hands to its service is the
    prefix of its log up to there, which is committed. *)
From S2P Require Import Prelude Persister RaftNode RaftLocal RaftInv RaftLog RaftNet RaftSpec RaftRefine RaftSafety.
From stdpp Require Import functions relations.
#[local] Open Scope Z_scope.

Section commands.
Context {C : Type} `{!Codec (RaftPersist C)}.
Variable n : nat.
Implicit Types (nd : Node C) (rf : Raft C) (net : Net C) (S : list C) (e : LogEntry C).

(** The commands of the cluster are among [S]. *)
Record submitted S net : Prop := {
  sb_log i e : 0 <= i < Z.of_nat n -> e ∈ log (raft (nodes net i)) -> le_Command e ∈ S;
  sb_msg src dst args e : MApp src dst args ∈ soup net -> e ∈ ae_Entries args -> le_Command e ∈ S;
}.

(** What an event brings in. *)
Definition started (ev : Event C) : list C :=
  match ev with EvStart cmd _ => [cmd] | _ => [] end.

Lemma appendLoop_log prev i es rf rf' e :
  appendLoop prev i es rf = Some rf' -> e ∈ log rf' -> e ∈ log rf \/ e ∈ es.
Proof.
  revert i. induction es as [|x es IH]; intros i; cbn; [intros [= <-]; by left|].
  bcase; [intros H He; destruct (IH _ H He); [by left|right; by right]|].
  bcase; [|intros [= <-]; cbn; apply elem_of_app].
  destruct (zget (log rf) _) as [cur|]; cbn; [|done]. bcase.
  - destruct (slice_to _ _) as [l|] eqn:Hl; cbn; [|done]. intros [= <-]. cbn.
    intros [He|He]%elem_of_app; [left|by right]. unfold slice_to in Hl. go_inv.
    by eapply subseteq_take.
  - intros H He. destruct (IH _ H He); [by left|right; by right].
Qed.

Lemma AppendEntries_log r args rf rf' reply e :
  AppendEntries r args rf = Some (rf', reply) -> e ∈ log rf' ->
  e ∈ log rf \/ e ∈ ae_Entries args.
Proof.
  unfold AppendEntries, appendChecked. intros H He.
  destruct (followLeader_log r (ae_Term args) rf) as [Hf _].
  go_inv; try (rewrite Hf in He); try (by left).
  match goal with E : appendLoop _ _ _ _ = Some ?x |- _ =>
    assert (e ∈ log x) as Hx by (revert He; repeat bcase; done);
    eapply appendLoop_log in E; [|exact Hx]; by rewrite Hf in E end.
Qed.

Lemma node_step_log nd ev nd' e :
  node_step nd ev nd' -> service_event ev = false -> e ∈ log (raft nd') ->
  e ∈ log (raft nd) \/ le_Command e ∈ started ev \/
  exists args reply, ev = EvAppendEntries args reply /\ e ∈ ae_Entries args.
Proof.
  intros Hs Hev He.
  destruct Hs as [| | |r args rf' reply Hr H| | | | | |cmd rf' ret H| | | | |];
    try discriminate Hev; cbn in *.
  4: { eapply AppendEntries_log in H as [?|?]; [by left|right; right; eauto|done]. }
  9: { unfold Start in H. go_inv; cbn in *; [by left|].
       apply elem_of_app in He as [?| ->%list_elem_of_singleton]; [by left|right; left; by left]. }
  all: left; unfold onElectionTimer, startElection, RequestVote, decideVote, voteReply,
      InstallSnapshot, onHeartbeatTimer, appendEntriesReply, installSnapshotReply,
      applierTake, applierDone in *;
    go_inv; frames; try done; rewrite ?(proj1 (followLeader_log _ _ _)) in *; try done.
  revert He. by bcase.
Qed.

Lemma replicateTo_log peer rf args e :
  replicateTo peer rf = Some (SendAppendEntries args) -> e ∈ ae_Entries args -> e ∈ log rf.
Proof.
  unfold replicateTo. intros H He. go_inv; cbn in *; [|by apply not_elem_of_nil in He].
  unfold slice_from in *. go_inv.
  by eapply subseteq_drop.
Qed.

Lemma submitted_mono S S' net : S ⊆ S' -> submitted S net -> submitted S' net.
Proof. intros Hs [H1 H2]. split; intros; apply Hs; eauto. Qed.

Lemma submitted_event S net i src ev nd' :
  submitted S net -> 0 <= i < Z.of_nat n -> node_step (nodes net i) ev nd' ->
  (forall m, input src i ev = Some m -> m ∈ soup net) -> service_event ev = false ->
  submitted (started ev ++ S) {| nodes := <[i := nd']> (nodes net);
                                 soup := outputs src i nd' ev ++ soup net |}.
Proof.
  intros [H1 H2] Hi Hs Hin Hev.
  assert (forall e, e ∈ log (raft nd') -> le_Command e ∈ started ev ++ S) as Hlog.
  { intros e He. apply elem_of_app.
    destruct (node_step_log _ _ _ _ Hs Hev He) as [?|[?|(args & reply & -> & ?)]];
      [right; eauto|by left|right].
    eapply (H2 src i); [by apply Hin|done]. }
  split; cbn [nodes soup].
  - intros j e Hj. destruct (decide (j = i)) as [->|]; [rewrite fn_lookup_insert; apply Hlog|].
    rewrite fn_lookup_insert_ne by done. intros. apply elem_of_app. right. by eapply H1.
  - intros s d args e [Hm|Hm]%elem_of_app He; [|apply elem_of_app; right; by eapply H2].
    apply Hlog. destruct Hs; cbn in Hm; try (by apply not_elem_of_nil in Hm);
      try (by apply list_elem_of_singleton in Hm).
    + by apply list_elem_of_fmap in Hm as (? & ? & _).
    + destruct out as [| |args'];
        [by apply not_elem_of_nil in Hm|by apply list_elem_of_singleton in Hm|].
      apply list_elem_of_singleton in Hm. simplify_eq. by eapply replicateTo_log.
Qed.

Lemma submitted_crash `{!CodecLaws (RaftPersist C)} S net i r :
  submitted S net -> 0 <= i < Z.of_nat n -> persisted (raft (nodes net i)) ->
  submitted S {| nodes := <[i := boot n i (persister (raft (nodes net i))) r]> (nodes net);
                 soup := soup net |}.
Proof.
  intros [H1 H2] Hi Hp. split; cbn [nodes soup]; [|exact H2].
  intros j e Hj. destruct (decide (j = i)) as [->|]; [|rewrite fn_lookup_insert_ne; by eauto].
  rewrite fn_lookup_insert. cbn [raft boot].
  pose proof (Make_persistent n i (raft (nodes net i)) r Hp) as E.
  apply (f_equal rp_log) in E. cbn in E. rewrite E. by eauto.
Qed.

Lemma submitted_init net : net_init n net -> submitted [] net.
Proof.
  intros [Hs Hn]. split; rewrite ?Hs; [|by intros ? ? ? ? ?%not_elem_of_nil].
  intros i e _. destruct (Hn i) as [r ->]. by intros ?%not_elem_of_nil.
Qed.

(** ** Committed prefixes *)

(** [P] is a committed sequence of commands from the first one on. *)
Definition prefix_ok (s : Abs C) (P : list C) : Prop :=
  exists T l m, settled n s T l m /\ (length P <= m)%nat /\ P = le_Command <$> take (length P) l.

Lemma prefix_ok_mono s s' P : extends s s' -> prefix_ok s P -> prefix_ok s' P.
Proof.
  intros Hex (T & l & m & ? & ? & ?). exists T, l, m. split_and!; try done.
  by eapply settled_mono.
Qed.

Lemma prefix_ok_nil s : prefix_ok s [].
Proof. exists 0, [], 0%nat. split_and!; try done. split; [done|by left]. Qed.

(** The shorter of two committed sequences begins the longer one. *)
Lemma prefix_ok_agree s P Q :
  abs_inv n s -> prefix_ok s P -> prefix_ok s Q -> (length P <= length Q)%nat -> P `prefix_of` Q.
Proof.
  intros Hinv (T1 & l1 & m1 & S1 & M1 & E1) (T2 & l2 & m2 & S2 & M2 & E2) Hle.
  assert (take (length P) l1 = take (length P) l2) as E.
  { eapply (settled_agree n s); [done|..]; (eapply settled_shorter; [done|lia]). }
  assert (P = take (length P) Q) as ->; [|by apply prefix_take].
  rewrite E2, <- fmap_take, take_take, Nat.min_l by done. by rewrite <- E.
Qed.
End commands.
