(* ===== verification/ClientId.v ===== *)
(** * Client identifiers (src/src/kvraft/client.go, and the same code in the
    shardctrler and shardkv packages)

    [genClientId] packs the Unix second, 22 random bits and a 10-bit counter into
    an [int64].  The theorems: the fields can be read back, and the identifiers of
    one process are strictly increasing as long as no second makes more than 1024
    of them, so the duplicate tables never confuse two clients of a process. *)
From S2P Require Import Prelude.

Module ClientId.

(** [int64] arithmetic wraps around. *)
Definition int64 (z : Z) : Z := (z + 2 ^ 63) mod 2 ^ 64 - 2 ^ 63.

(** The package variables. *)
Record State := { lastSec : Z; rnd : Z; counter : Z }.

Definition start : State := {| lastSec := 0; rnd := 0; counter := 0 |}.

(** A draw of [bits] random bits. *)
Definition randBits_ok (bits draw : Z) : Prop := 0 <= draw < Z.shiftl 1 bits.

Definition pack (now rnd counter : Z) : Z :=
  Z.lor (Z.lor (int64 (Z.shiftl now 32)) (int64 (Z.shiftl rnd 10))) counter.

(** One call at second [now]; [draw] is what [randBits(22)] gives. *)
Definition genClientId (now draw : Z) (s : State) : Z * State :=
  let s :=
    if negb (now =? lastSec s) then {| lastSec := now; rnd := draw; counter := 0 |}
    else {| lastSec := lastSec s; rnd := rnd s;
            counter := Z.land (counter s + 1) 0x3FF |} in
  (pack now (rnd s) (counter s), s).

(** A sequence of calls: their seconds and draws. *)
Fixpoint genMany (calls : list (Z * Z)) (s : State) : list Z :=
  match calls with
  | [] => []
  | (now, draw) :: calls => let '(id, s) := genClientId now draw s in id :: genMany calls s
  end.

Lemma int64_id z : - 2 ^ 63 <= z < 2 ^ 63 -> int64 z = z.
Proof. intros Hz. unfold int64. rewrite Z.mod_small by lia. lia. Qed.

Lemma int64_add_l a b : int64 (int64 a + b) = int64 (a + b).
Proof.
  unfold int64. f_equal. replace ((a + 2 ^ 63) mod 2 ^ 64 - 2 ^ 63 + b + 2 ^ 63)
    with ((a + 2 ^ 63) mod 2 ^ 64 + b) by lia.
  rewrite Zplus_mod_idemp_l. f_equal. lia.
Qed.

Lemma fields_disjoint hi lo k :
  0 <= k -> 0 <= lo < 2 ^ k -> Z.land (hi * 2 ^ k) lo = 0.
Proof.
  intros Hk Hlo. apply Z.bits_inj'. intros n Hn. rewrite Z.land_spec, Z.bits_0.
  destruct (Z.lt_ge_cases n k).
  - by rewrite Z.mul_pow2_bits_low.
  - rewrite <- (Z.mod_small lo (2 ^ k)) by done.
    rewrite Z.mod_pow2_bits_high by lia. apply andb_false_r.
Qed.

(** Disjoint bit fields: [lor] is addition. *)
Lemma lor_add hi lo k : 0 <= k -> 0 <= lo < 2 ^ k -> Z.lor (hi * 2 ^ k) lo = hi * 2 ^ k + lo.
Proof.
  intros Hk Hlo. pose proof (fields_disjoint hi lo k Hk Hlo) as Hd.
  rewrite <- Z.lxor_lor by done. symmetry. by apply Z.add_nocarry_lxor.
Qed.

(** The packed value, until the seconds outgrow 31 bits. *)
Lemma pack_value now r c :
  0 <= now < 2 ^ 31 -> 0 <= r < 2 ^ 22 -> 0 <= c < 2 ^ 10 ->
  pack now r c = now * 2 ^ 32 + r * 2 ^ 10 + c.
Proof.
  intros Hn Hr Hc. unfold pack. rewrite !Z.shiftl_mul_pow2, !int64_id by lia.
  rewrite (lor_add now (r * 2 ^ 10) 32) by lia.
  replace (now * 2 ^ 32 + r * 2 ^ 10) with ((now * 2 ^ 22 + r) * 2 ^ 10) by lia.
  rewrite lor_add by lia. lia.
Qed.

(** The identifier is a non-negative [int64] and its three fields can be read
    back: seconds in the high half, 22 random bits, 10 counter bits. *)
Theorem pack_fields now r c :
  0 <= now < 2 ^ 31 -> 0 <= r < 2 ^ 22 -> 0 <= c < 2 ^ 10 ->
  0 <= pack now r c < 2 ^ 63 /\
  Z.shiftr (pack now r c) 32 = now /\
  Z.land (Z.shiftr (pack now r c) 10) 0x3FFFFF = r /\
  Z.land (pack now r c) 0x3FF = c.
Proof.
  intros Hn Hr Hc. rewrite pack_value by done.
  change 0x3FFFFF with (Z.ones 22). change 0x3FF with (Z.ones 10).
  rewrite !Z.land_ones, !Z.shiftr_div_pow2 by lia. split; [lia|].
  Z.to_euclidean_division_equations. lia.
Qed.

Definition next_ok (s : State) : Prop := 0 <= counter s < 2 ^ 10 /\ 0 <= rnd s < 2 ^ 22.

Lemma genClientId_spec now draw s :
  next_ok s -> 0 <= draw < 2 ^ 22 ->
  let '(id, s') := genClientId now draw s in
  next_ok s' /\ lastSec s' = now /\ id = pack now (rnd s') (counter s') /\
  if now =? lastSec s
  then rnd s' = rnd s /\ (counter s < 1023 -> counter s' = counter s + 1)
  else counter s' = 0.
Proof.
  intros [Hc Hr] Hd. unfold genClientId, next_ok. change 0x3FF with (Z.ones 10).
  destruct (Z.eqb_spec now (lastSec s)) as [->|]; cbn [negb counter rnd lastSec]; rewrite ?Z.land_ones by lia.
  - pose proof (Z.mod_pos_bound (counter s + 1) (2 ^ 10) ltac:(lia)).
    split_and!; try done; try lia. change (Z.ones 10) with 1023. intros. rewrite Z.mod_small; lia.
  - split_and!; done || lia.
Qed.

(** The number of calls made in second [t]. *)
Definition calls_in (t : Z) (calls : list (Z * Z)) : Z := countb (fun c => c.1 =? t) calls.

Definition calls_ok (calls : list (Z * Z)) : Prop :=
  Forall (fun c => 0 < c.1 < 2 ^ 31 /\ 0 <= c.2 < 2 ^ 22) calls.

Lemma genMany_above calls s :
  calls_ok calls -> next_ok s -> 0 <= lastSec s < 2 ^ 31 ->
  Sorted Z.le (lastSec s :: calls.*1) ->
  counter s + calls_in (lastSec s) calls <= 1023 ->
  (forall t, lastSec s < t -> calls_in t calls <= 1024) ->
  Sorted Z.lt (pack (lastSec s) (rnd s) (counter s) :: genMany calls s).
Proof.
  revert s. induction calls as [|[now draw] calls IH]; intros s Hok Hs Hl HS H1 H2;
    cbn [genMany]; [by repeat constructor|].
  apply Forall_cons in Hok as [[Hnow Hdraw] Hok]. cbn in Hnow, Hdraw.
  cbn [fmap list_fmap fst] in HS. inv HS as [|? ? HS' HR]. inv HR as [|? ? Hle].
  pose proof (genClientId_spec now draw s Hs Hdraw) as HG.
  destruct (genClientId now draw s) as [id s'].
  destruct HG as (Hs' & Hlast & -> & HG). unfold calls_in in *. cbn [countb fst] in H1, H2.
  pose proof (countb_nonneg (fun c => c.1 =? lastSec s) calls) as Hnn.
  assert (pack (lastSec s) (rnd s) (counter s) < pack now (rnd s') (counter s')) as Hlt.
  { destruct Hs, Hs'. rewrite !pack_value by lia.
    destruct (Z.eqb_spec now (lastSec s)) as [->|]; [|lia].
    destruct HG as [-> ->]; lia. }
  rewrite <- Hlast in *.
  constructor; [|by constructor]. apply IH; try done; try lia.
  - destruct (Z.eqb_spec (lastSec s') (lastSec s)) as [E|].
    + rewrite <- E in *. destruct HG as [_ ->]; lia.
    + specialize (H2 (lastSec s') ltac:(lia)). rewrite Z.eqb_refl in H2. lia.
  - intros t Ht. specialize (H2 t ltac:(lia)). destruct (lastSec s' =? t); lia.
Qed.

Lemma calls_in_zero calls : calls_ok calls -> calls_in 0 calls = 0.
Proof.
  unfold calls_in. induction 1 as [|[a b] l [? _] _ IH]; cbn; [done|]. cbn in *.
  rewrite IH. bcase; lia.
Qed.

Lemma genMany_int64 calls s :
  calls_ok calls -> next_ok s -> Forall (fun id => 0 <= id < 2 ^ 63) (genMany calls s).
Proof.
  intros Hok. revert s. induction Hok as [|[now draw] calls [Hn Hd] _ IH]; intros s Hs; [constructor|].
  cbn [genMany]. pose proof (genClientId_spec now draw s Hs Hd) as HG.
  destruct (genClientId now draw s) as [id s']. destruct HG as (Hs' & _ & -> & _).
  constructor; [|by apply IH]. destruct Hs'. cbn in Hn. apply pack_fields; lia.
Qed.

(** C40: the identifiers of the clients generated by one process do not overflow and are
    distinct.  If the clock does not run backwards, stays below 2^31 seconds, and no
    second makes more than 1024 identifiers (the 1025th would wrap the counter
    around), they are strictly increasing and all fit into a non-negative [int64]: no
    shift of [genClientId] loses a bit. *)
Theorem client_ids_increase calls :
  calls_ok calls -> Sorted Z.le calls.*1 -> (forall t, calls_in t calls <= 1024) ->
  Sorted Z.lt (genMany calls start) /\ NoDup (genMany calls start) /\
  Forall (fun id => 0 <= id < 2 ^ 63) (genMany calls start).
Proof.
  intros Hok HS Hn.
  assert (Sorted Z.lt (pack 0 0 0 :: genMany calls start)) as [HL _]%Sorted_inv.
  { apply (genMany_above calls start); [done|done|done| | |].
    - constructor; [done|]. destruct Hok as [|? ? [? _] _]; constructor. cbn. lia.
    - cbn [counter lastSec start]. rewrite calls_in_zero by done. lia.
    - intros. apply Hn. }
  split; [done|]. split; [|by apply genMany_int64].
  apply Sorted_StronglySorted in HL; [|intros x y z; lia].
  induction HL as [|x l _ IH Hx]; constructor; [|done].
  intros Hin. rewrite Forall_forall in Hx. specialize (Hx x Hin). lia.
Qed.

(** Three clients in two seconds. *)
Definition demo : list (Z * Z) := [(1000, 7); (1000, 9); (1001, 3)].

Lemma pack_fields_witness :
  pack 1000 7 5 = 4294967303173 /\ Z.shiftr (pack 1000 7 5) 32 = 1000.
Proof.
  split; [vm_compute; reflexivity|].
  apply (pack_fields 1000 7 5); split; vm_compute; congruence.
Defined.

Lemma client_ids_increase_witness :
  genMany demo start = [4294967303168; 4294967303169; 4299262266368] /\
  NoDup (genMany demo start).
Proof.
  split; [vm_compute; reflexivity|].
  apply (client_ids_increase demo).
  - repeat constructor; vm_compute; congruence.
  - repeat constructor; vm_compute; congruence.
  - intros t. unfold calls_in, demo. cbn [countb fst]. destruct (1000 =? t), (1001 =? t); vm_compute; congruence.
Defined.
End ClientId.
