(* ===== verification/Notify.v ===== *)
(** * Waiting for a log entry to be applied

    The protocol that kvraft, shardctrler and shardkv share between
    [submitAndWait]/[submitOp] and [applier]: a request registers a channel of
    capacity one under the log index it got from [Start]; the applier looks the
    index up and sends the result after releasing the lock; the request takes the
    first of a result and a timeout and removes its registration.  [Id] is what
    the entry is matched by ((ClientId, SeqId) or InternalId).

    The theorem: a request only ever returns a result that the applier computed
    for a log entry carrying the request's own identity at the request's index,
    or one of the two errors of the protocol, whatever the interleaving. *)
From S2P Require Import Prelude.

Module Notify.
Section notify.
Context {Id Res : Type} `{EqDecision Id}.
(** The identity a result carries, and [applyResult{Err: ErrWrongLeader}]. *)
Context (res_id : Res -> Id) (wrongLeader : Res).

Record notifyEntry := { ne_id : Id; ne_ch : nat }.

(** The channels that were made (their buffers) and the map [notifyChans]. *)
Record t := { chans : gmap nat (list Res); notifyChans : gmap Z notifyEntry }.

Definition empty : t := {| chans := ∅; notifyChans := ∅ |}.

(** [ch := make(chan applyResult, 1)]: [ch] must be new. *)
Definition makeChan (ch : nat) (nt : t) : t :=
  {| chans := <[ch := []]> (chans nt); notifyChans := notifyChans nt |}.

(** [ch <- r]; [None]: the buffer is full, the sender blocks. *)
Definition send (ch : nat) (r : Res) (nt : t) : option t :=
  match chans nt !! ch with
  | Some [] => Some {| chans := <[ch := [r]]> (chans nt); notifyChans := notifyChans nt |}
  | _ => None
  end.

(** [<-ch]; [None]: nothing to receive. *)
Definition receive (ch : nat) (nt : t) : option (Res * t) :=
  match chans nt !! ch with
  | Some (r :: rest) =>
      Some (r, {| chans := <[ch := rest]> (chans nt); notifyChans := notifyChans nt |})
  | _ => None
  end.

(** The critical section that registers a request: an older waiter of the same
    index is told that its entry is gone. *)
Definition register (index : Z) (id : Id) (ch : nat) (nt : t) : option t :=
  nt ← (match notifyChans nt !! index with
        | Some old => send (ne_ch old) wrongLeader nt
        | None => Some nt
        end);
  Some {| chans := chans nt;
          notifyChans := <[index := {| ne_id := id; ne_ch := ch |}]> (notifyChans nt) |}.

(** The deferred clean-up: a request removes only its own entry. *)
Definition cleanup (index : Z) (id : Id) (nt : t) : t :=
  match notifyChans nt !! index with
  | Some e => if bool_decide (ne_id e = id)
              then {| chans := chans nt; notifyChans := delete index (notifyChans nt) |}
              else nt
  | None => nt
  end.

(** The channel the applier sends to, if the entry is waited for. *)
Definition notifyCh (index : Z) (id : Id) (nt : t) : option nat :=
  match notifyChans nt !! index with
  | Some e => if bool_decide (ne_id e = id) then Some (ne_ch e) else None
  | None => None
  end.

(** What a request returns. *)
Inductive Answer := Result (r : Res) | WrongLeader | Timeout.

Definition answer (id : Id) (r : Res) : Answer :=
  if bool_decide (res_id r = id) then Result r else WrongLeader.

(** ** The protocol as a transition system *)

Inductive Phase :=
  | Submitted                 (* after Start, before the lock *)
  | Waiting                   (* in the select *)
  | Cleaning (a : Answer)     (* the deferred function runs *)
  | Done (a : Answer).

Record Waiter := { w_index : Z; w_id : Id; w_phase : Phase }.

(** A waiter is known by its channel.  [pending] is what the applier is about to
    send; [applied] lists the entries applied so far, with their results. *)
Record State := {
  nt : t;
  waiters : gmap nat Waiter;
  pending : option (nat * Res);
  applied : list (Z * Res);
}.

Definition set_phase (w : Waiter) (p : Phase) : Waiter :=
  {| w_index := w_index w; w_id := w_id w; w_phase := p |}.

Definition with_waiter (ch : nat) (w : Waiter) (nt' : t) (s : State) : State :=
  {| nt := nt'; waiters := <[ch := w]> (waiters s); pending := pending s;
     applied := applied s |}.

Inductive step (s : State) : State -> Prop :=
  | step_submit ch index id :
      waiters s !! ch = None ->
      step s (with_waiter ch {| w_index := index; w_id := id; w_phase := Submitted |}
                (makeChan ch (nt s)) s)
  | step_register ch w nt' :
      waiters s !! ch = Some w -> w_phase w = Submitted ->
      register (w_index w) (w_id w) ch (nt s) = Some nt' ->
      step s (with_waiter ch (set_phase w Waiting) nt' s)
  | step_apply index r :
      pending s = None ->
      step s {| nt := nt s; waiters := waiters s;
                pending := (fun ch => (ch, r)) <$> notifyCh index (res_id r) (nt s);
                applied := (index, r) :: applied s |}
  | step_send ch r nt' :
      pending s = Some (ch, r) -> send ch r (nt s) = Some nt' ->
      step s {| nt := nt'; waiters := waiters s; pending := None; applied := applied s |}
  | step_receive ch w r nt' :
      waiters s !! ch = Some w -> w_phase w = Waiting ->
      receive ch (nt s) = Some (r, nt') ->
      step s (with_waiter ch (set_phase w (Cleaning (answer (w_id w) r))) nt' s)
  | step_timeout ch w :
      waiters s !! ch = Some w -> w_phase w = Waiting ->
      step s (with_waiter ch (set_phase w (Cleaning Timeout)) (nt s) s)
  | step_cleanup ch w a :
      waiters s !! ch = Some w -> w_phase w = Cleaning a ->
      step s (with_waiter ch (set_phase w (Done a)) (cleanup (w_index w) (w_id w) (nt s)) s).

Definition init : State :=
  {| nt := empty; waiters := ∅; pending := None; applied := [] |}.

Inductive reachable : State -> Prop :=
  | reach_init : reachable init
  | reach_step s s' : reachable s -> step s s' -> reachable s'.

(** ** The invariant *)

(** [r] may be in the channel of [w]. *)
Definition deliverable (s : State) (w : Waiter) (r : Res) : Prop :=
  r = wrongLeader \/ (w_index w, r) ∈ applied s /\ res_id r = w_id w.

Definition answer_ok (s : State) (w : Waiter) (a : Answer) : Prop :=
  match a with Result r => deliverable s w r /\ res_id r = w_id w | _ => True end.

Definition phase_ok (s : State) (w : Waiter) : Prop :=
  match w_phase w with Cleaning a | Done a => answer_ok s w a | _ => True end.

Record inv (s : State) : Prop := {
  inv_entry index e : notifyChans (nt s) !! index = Some e ->
    exists w, waiters s !! ne_ch e = Some w /\ w_index w = index /\ w_id w = ne_id e;
  inv_buffer ch buf r : chans (nt s) !! ch = Some buf -> r ∈ buf ->
    exists w, waiters s !! ch = Some w /\ deliverable s w r;
  inv_chan ch w : waiters s !! ch = Some w -> exists buf, chans (nt s) !! ch = Some buf;
  inv_pending ch r : pending s = Some (ch, r) ->
    exists w, waiters s !! ch = Some w /\ deliverable s w r;
  inv_phase ch w : waiters s !! ch = Some w -> phase_ok s w;
}.

(** Waiters keep their identity and the history grows. *)
Definition extends (s s' : State) : Prop :=
  applied s ⊆ applied s' /\
  forall ch w, waiters s !! ch = Some w ->
    exists w', waiters s' !! ch = Some w' /\ w_index w' = w_index w /\ w_id w' = w_id w.

Lemma deliverable_ext s s' w w' r :
  applied s ⊆ applied s' -> w_index w' = w_index w -> w_id w' = w_id w ->
  deliverable s w r -> deliverable s' w' r.
Proof. unfold deliverable. intros Ha -> ->. intros [?|[? ?]]; auto. Qed.

Lemma extends_deliverable s s' ch r :
  extends s s' ->
  (exists w, waiters s !! ch = Some w /\ deliverable s w r) ->
  exists w, waiters s' !! ch = Some w /\ deliverable s' w r.
Proof.
  intros [Ha Hw] (w & Hl & Hd). destruct (Hw ch w Hl) as (w' & ? & ? & ?).
  exists w'. split; [done|]. by eapply deliverable_ext.
Qed.

Lemma extends_update ch w p nt' s :
  waiters s !! ch = Some w -> extends s (with_waiter ch (set_phase w p) nt' s).
Proof.
  intros Hw. split; [done|]. intros ch' w' Hw'. cbn.
  destruct (decide (ch = ch')) as [<-|].
  - rewrite lookup_insert_eq. simplify_eq. by eexists.
  - rewrite lookup_insert_ne by done. by eexists.
Qed.

Lemma extends_new ch w nt' s : waiters s !! ch = None -> extends s (with_waiter ch w nt' s).
Proof.
  intros Hn. split; [done|]. intros ch' w' Hw'. cbn.
  rewrite lookup_insert_ne by congruence. by eexists.
Qed.

(** The parts of the invariant that only look at identities carry over. *)
Lemma inv_entry_ext s s' index e :
  inv s -> extends s s' -> notifyChans (nt s) !! index = Some e ->
  exists w, waiters s' !! ne_ch e = Some w /\ w_index w = index /\ w_id w = ne_id e.
Proof.
  intros Hinv [_ Hw] (w & Hl & Hi & Hid)%(inv_entry _ Hinv).
  destruct (Hw _ _ Hl) as (w' & ? & ? & ?). exists w'. split_and!; congruence.
Qed.

Lemma phase_ok_ext s s' w : applied s ⊆ applied s' -> phase_ok s w -> phase_ok s' w.
Proof.
  intros Ha. unfold phase_ok. destruct (w_phase w) as [| |[]|[]]; try done; cbn;
    (intros [? ?]; split; [|done]; by eapply deliverable_ext).
Qed.

Lemma inv_phase_update s ch w p nt' :
  inv s -> waiters s !! ch = Some w ->
  phase_ok (with_waiter ch (set_phase w p) nt' s) (set_phase w p) ->
  forall ch' w', waiters (with_waiter ch (set_phase w p) nt' s) !! ch' = Some w' ->
    phase_ok (with_waiter ch (set_phase w p) nt' s) w'.
Proof.
  intros Hinv Hw Hp ch' w'. cbn. intros [[<- <-]|[? Hl]]%lookup_insert_Some; [done|].
  apply (phase_ok_ext s); [done|]. by eapply inv_phase.
Qed.

(** The channels stay where they are when only buffers are written. *)
Lemma inv_chan_update s ch w nt' :
  (forall c, is_Some (chans (nt s) !! c) -> is_Some (chans nt' !! c)) ->
  is_Some (chans nt' !! ch) -> inv s ->
  forall ch' w', waiters (with_waiter ch w nt' s) !! ch' = Some w' ->
    exists buf, chans nt' !! ch' = Some buf.
Proof.
  intros Hc Hch Hinv ch' w'. cbn. intros [[<- <-]|[? Hl]]%lookup_insert_Some; [done|].
  apply Hc. by eapply inv_chan.
Qed.

Lemma send_Some ch r n n' :
  send ch r n = Some n' ->
  chans n !! ch = Some [] /\ chans n' = <[ch := [r]]> (chans n) /\
  notifyChans n' = notifyChans n.
Proof. unfold send. intros. repeat case_match; by simplify_eq/=. Qed.

Lemma register_Some index id ch n n' :
  register index id ch n = Some n' ->
  notifyChans n' = <[index := {| ne_id := id; ne_ch := ch |}]> (notifyChans n) /\
  (chans n' = chans n \/
   exists old, notifyChans n !! index = Some old /\ chans n !! ne_ch old = Some [] /\
     chans n' = <[ne_ch old := [wrongLeader]]> (chans n)).
Proof.
  unfold register. intros (n1 & H & [= <-])%bind_Some. cbn.
  destruct (notifyChans n !! index) as [old|] eqn:E; [|simplify_eq; auto].
  apply send_Some in H as (? & ? & ->). split; [done|]. right. by exists old.
Qed.

Lemma cleanup_entries index id n i e :
  notifyChans (cleanup index id n) !! i = Some e -> notifyChans n !! i = Some e.
Proof.
  unfold cleanup. repeat case_match; try done. cbn. by intros [_ ?]%lookup_delete_Some.
Qed.

Lemma cleanup_chans index id n : chans (cleanup index id n) = chans n.
Proof. unfold cleanup. by repeat case_match. Qed.

Lemma step_register_inv s ch w nt' :
  inv s -> waiters s !! ch = Some w -> w_phase w = Submitted ->
  register (w_index w) (w_id w) ch (nt s) = Some nt' ->
  inv (with_waiter ch (set_phase w Waiting) nt' s).
Proof.
  intros Hinv Hw Hp (Hn & Hc)%register_Some.
  pose proof (extends_update ch w Waiting nt' s Hw) as Hext.
  split.
  - intros index e He. cbn in He. rewrite Hn in He.
    apply lookup_insert_Some in He as [[<- <-]|[_ He]]; [|by eapply inv_entry_ext].
    cbn. rewrite lookup_insert_eq. by eexists.
  - intros c buf r Hl Hr. cbn in Hl. apply (extends_deliverable s); [done|].
    destruct Hc as [Hc|(old & Ho & _ & Hc)]; rewrite Hc in Hl; [by eapply inv_buffer|].
    apply lookup_insert_Some in Hl as [[<- <-]|[_ Hl]]; [|by eapply inv_buffer].
    apply list_elem_of_singleton in Hr as ->.
    apply (inv_entry _ Hinv) in Ho as (w0 & ? & _). exists w0. split; [done|]. by left.
  - apply inv_chan_update; [| |done]; cbn.
    + intros c Hs. destruct Hc as [Hc|(old & Ho & _ & Hc)]; rewrite Hc; [done|].
      apply lookup_insert_is_Some'. auto.
    + destruct (inv_chan _ Hinv ch w Hw) as [buf Hb].
      destruct Hc as [Hc|(old & Ho & _ & Hc)]; rewrite Hc; [by eexists|].
      apply lookup_insert_is_Some'. eauto.
  - intros c r Hpd. apply (extends_deliverable s); [done|]. by eapply inv_pending.
  - by apply inv_phase_update.
Qed.

Lemma step_receive_inv s ch w r nt' :
  inv s -> waiters s !! ch = Some w -> receive ch (nt s) = Some (r, nt') ->
  inv (with_waiter ch (set_phase w (Cleaning (answer (w_id w) r))) nt' s).
Proof.
  intros Hinv Hw Hr. unfold receive in Hr.
  destruct (chans (nt s) !! ch) as [[|r0 rest]|] eqn:Hb; try done. simplify_eq/=.
  destruct (inv_buffer _ Hinv ch _ r Hb ltac:(constructor)) as (w0 & Hw0 & Hd). simplify_eq.
  match goal with |- inv (with_waiter _ (set_phase _ ?p) ?n _) =>
    pose proof (extends_update ch w p n s Hw) as Hext end.
  split.
  - intros index e He. by eapply inv_entry_ext.
  - intros c buf r' Hl Hr'. cbn in Hl. apply (extends_deliverable s); [done|].
    apply lookup_insert_Some in Hl as [[<- <-]|[_ Hl]]; [|by eapply inv_buffer].
    eapply inv_buffer; [done|done|by constructor].
  - apply inv_chan_update; [| |done]; cbn.
    + intros. apply lookup_insert_is_Some'. auto.
    + rewrite lookup_insert_eq. by eexists.
  - intros c r' Hpd. apply (extends_deliverable s); [done|]. by eapply inv_pending.
  - apply inv_phase_update; [done|done|]. unfold phase_ok. cbn. unfold answer.
    case_bool_decide; [|done]. cbn. split; [|done]. exact Hd.
Qed.

Lemma step_submit_inv s ch index id :
  inv s -> waiters s !! ch = None ->
  inv (with_waiter ch {| w_index := index; w_id := id; w_phase := Submitted |}
         (makeChan ch (nt s)) s).
Proof.
  intros Hinv Hn.
  match goal with |- inv (with_waiter _ ?w ?n _) =>
    pose proof (extends_new ch w n s Hn) as Hext end.
  split.
  - intros i e He. by eapply inv_entry_ext.
  - intros c buf r Hl Hr. cbn in Hl. apply (extends_deliverable s); [done|].
    apply lookup_insert_Some in Hl as [[<- <-]|[_ Hl]]; [by inv Hr|by eapply inv_buffer].
  - apply inv_chan_update; [| |done]; cbn.
    + intros. apply lookup_insert_is_Some'. auto.
    + rewrite lookup_insert_eq. by eexists.
  - intros c r Hpd. apply (extends_deliverable s); [done|]. by eapply inv_pending.
  - intros c w'. cbn. intros [[<- <-]|[? Hl]]%lookup_insert_Some; [done|].
    apply (phase_ok_ext s); [done|]. by eapply inv_phase.
Qed.

Lemma step_apply_inv s index r :
  inv s ->
  inv {| nt := nt s; waiters := waiters s;
         pending := (fun ch => (ch, r)) <$> notifyCh index (res_id r) (nt s);
         applied := (index, r) :: applied s |}.
Proof.
  intros Hinv. match goal with |- inv ?s' => assert (extends s s') as Hext end.
  { split; cbn; [intros x ?; by constructor|eauto]. }
  split.
  - intros i e He. by eapply inv_entry_ext.
  - intros c buf r' Hl Hr'. apply (extends_deliverable s); [done|]. by eapply inv_buffer.
  - exact (inv_chan _ Hinv).
  - intros c r' Hpd. cbn in Hpd. unfold notifyCh in Hpd.
    destruct (notifyChans (nt s) !! index) as [e|] eqn:He; [|done].
    case_bool_decide as Hid; [|done]. simplify_eq/=.
    destruct (inv_entry _ Hinv _ _ He) as (w & Hw & Hi & Hwid). exists w. split; [done|].
    right. cbn. rewrite Hi, Hwid, Hid. split; [by constructor|done].
  - intros c w Hl. apply (phase_ok_ext s); [apply Hext|]. by eapply inv_phase.
Qed.

Lemma step_send_inv s ch r nt' :
  inv s -> pending s = Some (ch, r) -> send ch r (nt s) = Some nt' ->
  inv {| nt := nt'; waiters := waiters s; pending := None; applied := applied s |}.
Proof.
  intros Hinv Hp (Hb & Hc & Hn)%send_Some. split; cbn.
  - intros i e He. rewrite Hn in He. by eapply inv_entry.
  - intros c buf r' Hl Hr'. rewrite Hc in Hl.
    apply lookup_insert_Some in Hl as [[<- <-]|[_ Hl]];
      [|exact (inv_buffer _ Hinv _ _ _ Hl Hr')].
    apply list_elem_of_singleton in Hr' as ->. exact (inv_pending _ Hinv _ _ Hp).
  - intros c w Hl. destruct (inv_chan _ Hinv c w Hl) as [buf Hbuf]. rewrite Hc.
    apply lookup_insert_is_Some'. eauto.
  - done.
  - exact (inv_phase _ Hinv).
Qed.

(** Steps of a waiter that touch no buffer: the timeout and the clean-up. *)
Lemma step_quiet_inv s ch w p nt' :
  inv s -> waiters s !! ch = Some w -> chans nt' = chans (nt s) ->
  (forall i e, notifyChans nt' !! i = Some e -> notifyChans (nt s) !! i = Some e) ->
  phase_ok s (set_phase w p) -> inv (with_waiter ch (set_phase w p) nt' s).
Proof.
  intros Hinv Hw Hc Hn Hp. pose proof (extends_update ch w p nt' s Hw) as Hext. split.
  - intros i e He. by eapply inv_entry_ext; [..|apply Hn].
  - intros c buf r Hl Hr. cbn in Hl. rewrite Hc in Hl.
    apply (extends_deliverable s); [done|]. by eapply inv_buffer.
  - apply inv_chan_update; cbn; [by rewrite Hc| |done].
    rewrite Hc. by eapply inv_chan.
  - intros c r Hpd. apply (extends_deliverable s); [done|]. by eapply inv_pending.
  - by apply inv_phase_update.
Qed.

Lemma notify_step_inv s s' : step s s' -> inv s -> inv s'.
Proof.
  intros Hs Hinv. destruct Hs as [| | | | |ch w Hw Hp|ch w a Hw Hp];
    eauto using step_submit_inv, step_register_inv, step_apply_inv, step_send_inv,
      step_receive_inv.
  - by apply step_quiet_inv.
  - apply step_quiet_inv; [done|done|apply cleanup_chans|apply cleanup_entries|].
    pose proof (inv_phase _ Hinv ch w Hw) as Hph. unfold phase_ok in *. by rewrite Hp in Hph.
Qed.

Lemma reachable_inv s : reachable s -> inv s.
Proof.
  induction 1 as [|s s' _ IH Hs]; [|by eapply notify_step_inv].
  split; cbn; try done; intros *; by rewrite lookup_empty.
Qed.

(** C37: a request never returns somebody else's result: the answer of a finished
    request is [Timeout], [WrongLeader], or the result the applier computed for
    the entry at the request's own index with the request's own identity (or the
    [ErrWrongLeader] message itself). *)
Theorem answer_is_own s ch w r :
  reachable s -> waiters s !! ch = Some w -> w_phase w = Done (Result r) ->
  res_id r = w_id w /\ (r = wrongLeader \/ (w_index w, r) ∈ applied s).
Proof.
  intros Hinv%reachable_inv Hw Hp.
  pose proof (inv_phase _ Hinv ch w Hw) as Hph. unfold phase_ok in Hph. rewrite Hp in Hph.
  destruct Hph as [[?|[? ?]] ?]; auto.
Qed.
End notify.
End Notify.

(** ** A concrete exchange: request 7 waits at index 5 and gets 42 *)
Module NotifyDemo.
Import Notify.
Definition st (n : @t Z (Z * Z)) (ph : @Phase (Z * Z)) (p : option (nat * (Z * Z)))
    (l : list (Z * (Z * Z))) : @State Z (Z * Z) :=
  {| nt := n; waiters := {[ 0%nat := {| w_index := 5; w_id := 7; w_phase := ph |} ]};
     pending := p; applied := l |}.
Definition r : Z * Z := (7, 42).
Definition e : @notifyEntry Z := {| ne_id := 7; ne_ch := 0 |}.
Definition n0 : @t Z (Z * Z) := makeChan 0 empty.
Definition n1 : @t Z (Z * Z) := {| chans := chans n0; notifyChans := {[ 5 := e ]} |}.
Definition n2 : @t Z (Z * Z) := {| chans := {[ 0%nat := [r] ]}; notifyChans := {[ 5 := e ]} |}.
Definition final : @State Z (Z * Z) := st (cleanup 5 7 n1) (Done (Result r)) None [(5, r)].

Lemma reach_to (s s1 s2 : @State Z (Z * Z)) :
  reachable fst (0, 0) s -> step fst (0, 0) s s1 -> s1 = s2 -> reachable fst (0, 0) s2.
Proof. intros Hr Hs <-. by eapply reach_step. Qed.

Lemma final_reachable : reachable fst (0, 0) final.
Proof.
  set (w ph := {| w_index := 5; w_id := 7; w_phase := ph |} : @Waiter Z (Z * Z)).
  eapply (reach_to (st n1 (Cleaning (Result r)) None [(5, r)]));
    [|apply (step_cleanup _ _ _ 0 (w (Cleaning (Result r))) (Result r)); reflexivity|reflexivity].
  eapply (reach_to (st n2 Waiting None [(5, r)]));
    [|apply (step_receive _ _ _ 0 (w Waiting) r n1); reflexivity|vm_compute; reflexivity].
  eapply (reach_to (st n1 Waiting (Some (0%nat, r)) [(5, r)]));
    [|apply (step_send _ _ _ 0 r n2); reflexivity|reflexivity].
  eapply (reach_to (st n1 Waiting None []));
    [|apply (step_apply _ _ _ 5 r); reflexivity|vm_compute; reflexivity].
  eapply (reach_to (st n0 Submitted None []));
    [|apply (step_register _ _ _ 0 (w Submitted) n1); reflexivity|reflexivity].
  eapply (reach_to init);
    [apply reach_init|apply (step_submit _ _ _ 0 5 7); reflexivity|reflexivity].
Qed.
End NotifyDemo.

Lemma answer_is_own_witness :
  Notify.waiters NotifyDemo.final !! 0%nat =
    Some {| Notify.w_index := 5; Notify.w_id := 7;
            Notify.w_phase := Notify.Done (Notify.Result (7, 42)) |} /\
  ((7, 42) = (0, 0) \/ (5, (7, 42)) ∈ Notify.applied NotifyDemo.final).
Proof.
  split; [reflexivity|].
  apply (Notify.answer_is_own fst (0, 0) NotifyDemo.final 0 _ (7, 42)
    NotifyDemo.final_reachable eq_refl eq_refl).
Defined.
