(* ===== verification/Service.v ===== *)
(** * A replicated service on top of Raft

    kvraft and shardkv drive Raft with the same applier goroutine: execute the
    command, look up who waits for it, take a snapshot when the Raft state has
    grown, and install snapshots that Raft hands over.  The state machine is a
    parameter here ([exec] under the lock, with its codec); KVServer and ShardKV
    instantiate it.

    The lemma [run_replay]: through commands, snapshots, crashes and restarts, the
    state of a server that applied [k] entries is the replay of the first [k]
    commands from the initial state. *)
From S2P Require Import Prelude Persister RaftNode RaftLocal Notify.

Module Service.

(** A state machine with an identity for each command (what [notifyChans] matches). *)
Class StateMachine (Op St Res Id : Type) := {
  op_id : Op -> Id;
  exec : Op -> St -> option (St * Res);      (* None: runtime panic *)
  initial : St;
}.

Record Server (Op St Res Id : Type) := {
  rf : Raft Op;
  maxraftstate : Z;
  st : St;
  nt : @Notify.t Id Res;
  dead : bool;
}.
Arguments rf {Op St Res Id} _.
Arguments maxraftstate {Op St Res Id} _.
Arguments st {Op St Res Id} _.
Arguments nt {Op St Res Id} _.
Arguments dead {Op St Res Id} _.

Section service.
Context {Op St Res Id : Type} `{EqDecision Id} `{!Codec (RaftPersist Op)} `{!Codec St}.
Context `{!StateMachine Op St Res Id}.
Notation server := (Server Op St Res Id).
Implicit Types sv : server.

Definition with_rf x sv : server :=
  {| rf := x; maxraftstate := maxraftstate sv; st := st sv; nt := nt sv; dead := dead sv |}.
Definition with_st x sv : server :=
  {| rf := rf sv; maxraftstate := maxraftstate sv; st := x; nt := nt sv; dead := dead sv |}.
Definition with_nt x sv : server :=
  {| rf := rf sv; maxraftstate := maxraftstate sv; st := st sv; nt := x; dead := dead sv |}.
Definition with_dead x sv : server :=
  {| rf := rf sv; maxraftstate := maxraftstate sv; st := st sv; nt := nt sv; dead := x |}.

(** Encode the state and hand it to [rf.Snapshot]. *)
Definition doSnapshot (index : Z) sv : option server :=
  x ← Snapshot index (enc (st sv)) (rf sv);
  Some (with_rf x sv).

Definition installSnapshot (data : bytes) sv : server :=
  if zlen data =? 0 then sv
  else match dec data with
  | None => sv
  | Some s => with_st s sv
  end.

(** The branch of the applier for a snapshot message. *)
Definition applySnapshot (msg : ApplyMsg Op) sv : option server :=
  '(x, ok) ← CondInstallSnapshot (SnapshotTerm msg) (SnapshotIndex msg) (Snapshot_ msg) (rf sv);
  let sv := with_rf x sv in
  Some (if (ok : bool) then installSnapshot (Snapshot_ msg) sv else sv).

Definition needSnapshot sv : bool :=
  negb (maxraftstate sv =? -1) &&
  (maxraftstate sv <=? Persister.RaftStateSize (persister (rf sv))).

(** The branch for a command: the new state and what to send after the unlock. *)
Definition applyCommand (index : Z) (op : Op) sv : option (server * option (nat * Res)) :=
  '(s, result) ← exec op (st sv);
  let sv := with_st s sv in
  let ch := Notify.notifyCh index (op_id op) (nt sv) in
  sv ← (if needSnapshot sv then doSnapshot index sv else Some sv);
  Some (sv, (fun c => (c, result)) <$> ch).

(** One round of the applier's loop. *)
Definition applier (msg : ApplyMsg Op) sv : option (server * option (nat * Res)) :=
  if SnapshotValid msg then sv ← applySnapshot msg sv; Some (sv, None)
  else if negb (CommandValid msg) then Some (sv, None)
  else match Command msg with
  | None => Some (sv, None)
  | Some op => applyCommand (CommandIndex msg) op sv
  end.

(** The first part of [submitAndWait]/[submitOp]: [None] as index is the answer
    [ErrWrongLeader]. *)
Definition submit (op : Op) sv : option (server * option Z) :=
  '(x, (index, _, isLeader)) ← Start op (rf sv);
  Some (with_rf x sv, if (isLeader : bool) then Some index else None).

(** The second part, the critical section that registers the new channel [ch];
    [wl] is [applyResult{Err: ErrWrongLeader}]. *)
Definition register (wl : Res) (index : Z) (op : Op) (ch : nat) sv : option server :=
  x ← Notify.register wl index (op_id op) ch (Notify.makeChan ch (nt sv));
  Some (with_nt x sv).

(** The deferred function. *)
Definition unregister (index : Z) (op : Op) sv : server :=
  with_nt (Notify.cleanup index (op_id op) (nt sv)) sv.

Definition Kill sv : server := with_dead true (with_rf (RaftNode.Kill (rf sv)) sv).

(** The constructor: [n] peers, this one being [i]. *)
Definition StartServer (n : nat) (i : Z) (ps : Persister.t) (max r : Z) : server :=
  let sv := {| rf := Make n i ps r; maxraftstate := max; st := initial;
               nt := Notify.empty; dead := false |} in
  let snapshot := Persister.ReadSnapshot ps in
  if 0 <? zlen snapshot then installSnapshot snapshot sv else sv.

(** ** Runs *)

Fixpoint replay (ops : list Op) (s : St) : option St :=
  match ops with
  | [] => Some s
  | op :: ops => '(s, _) ← exec op s; replay ops s
  end.

Definition replayed (cmds : list Op) (k : Z) : option St :=
  replay (take (Z.to_nat k) cmds) initial.

Definition commandMsg (index : Z) (op : Op) : ApplyMsg Op :=
  {| CommandValid := true; Command := Some op; CommandIndex := index;
     SnapshotValid := false; Snapshot_ := []; SnapshotTerm := 0; SnapshotIndex := 0 |}.
Definition snapshotMsg (term index : Z) (data : bytes) : ApplyMsg Op :=
  {| CommandValid := false; Command := None; CommandIndex := 0;
     SnapshotValid := true; Snapshot_ := data; SnapshotTerm := term; SnapshotIndex := index |}.

(** [run late n i max cmds sv k]: a server of the cluster whose committed commands are
    [cmds] has reached [sv] after applying [k] of them.  Raft hands over the commands in
    order, and snapshots of a replica that applied a prefix.  A snapshot may come in the
    middle of a batch of commands that Raft's applier copied before (raft.go 492 and
    673-715): with [late] the rest of the batch, which the snapshot covers, may still
    arrive after it. *)
Inductive run (late : bool) (n : nat) (i max : Z) (cmds : list Op) : server -> Z -> Prop :=
  | run_start r : run late n i max cmds (StartServer n i Persister.MakePersister max r) 0
  | run_command sv k op sv' out :
      run late n i max cmds sv k -> cmds !! Z.to_nat k = Some op ->
      applier (commandMsg (k + 1) op) sv = Some (sv', out) ->
      run late n i max cmds sv' (k + 1)
  | run_snapshot sv k term j s sv' out :
      run late n i max cmds sv k -> 0 < j <= zlen cmds -> replayed cmds j = Some s ->
      applier (snapshotMsg term j (enc s)) sv = Some (sv', out) ->
      run late n i max cmds sv' (if j <=? commitIndex (rf sv) then k else j)
  | run_late sv k j op sv' out :
      late = true -> run late n i max cmds sv k -> 0 <= j < lastIncludedIndex (rf sv) -> j < k ->
      cmds !! Z.to_nat j = Some op ->
      applier (commandMsg (j + 1) op) sv = Some (sv', out) ->
      run late n i max cmds sv' k
  | run_raft sv k nd ev nd' :
      run late n i max cmds sv k -> raft nd = rf sv -> node_step nd ev nd' ->
      service_event ev = false ->
      run late n i max cmds (with_rf (raft nd') sv) k
  | run_notify sv k x : run late n i max cmds sv k -> run late n i max cmds (with_nt x sv) k
  | run_crash sv k r :
      run late n i max cmds sv k ->
      run late n i max cmds (StartServer n i (persister (rf sv)) max r) (lastIncludedIndex (rf sv)).

(** Executing a command once more, after it and others, changes nothing. *)
Definition absorbs (cmds : list Op) : Prop :=
  forall k op s, replayed cmds k = Some s -> op ∈ take (Z.to_nat k) cmds ->
    exists res, exec op s = Some (s, res).

(** The saved snapshot is the replay up to the snapshot index. *)
Definition saved_ok (cmds : list Op) (x : Raft Op) : Prop :=
  Persister.snapshot (persister x) = [] /\ lastIncludedIndex x = 0 \/
  exists s, replayed cmds (lastIncludedIndex x) = Some s /\
            Persister.snapshot (persister x) = enc s /\ 0 <= lastIncludedIndex x.

Record run_inv (cmds : list Op) sv k : Prop := {
  ri_pos : 0 <= k;
  ri_state : replayed cmds k = Some (st sv);
  ri_saved : saved_ok cmds (rf sv);
  ri_persisted : persisted (rf sv);
}.

Lemma replay_app ops1 ops2 s :
  replay (ops1 ++ ops2) s = s' ← replay ops1 s; replay ops2 s'.
Proof.
  revert s. induction ops1 as [|op ops1 IH]; intros s; cbn; [done|].
  destruct (exec op s) as [[s1 ?]|]; cbn; [apply IH|done].
Qed.

Lemma replayed_snoc cmds k op s s' res :
  0 <= k -> cmds !! Z.to_nat k = Some op -> replayed cmds k = Some s ->
  exec op s = Some (s', res) -> replayed cmds (k + 1) = Some s'.
Proof.
  unfold replayed. intros Hk Hop Hs He. replace (Z.to_nat (k + 1)) with (S (Z.to_nat k)) by lia.
  rewrite (take_S_r _ _ _ Hop), replay_app, Hs. cbn. by rewrite He.
Qed.

Lemma Snapshot_saved index snap (x x' : Raft Op) :
  Snapshot index snap x = Some x' ->
  x' = x \/ lastIncludedIndex x' = index /\ lastIncludedIndex x < index /\
    Persister.snapshot (persister x') = snap /\ persisted x'.
Proof.
  unfold Snapshot. intros H. go_inv; [by left|]. right. split_and!; try done.
  - cbn. apply Persister.clone_id.
  - left. cbn. by rewrite Persister.clone_id.
Qed.

Lemma CondInstallSnapshot_saved term index snap (x x' : Raft Op) ok :
  CondInstallSnapshot term index snap x = Some (x', ok) ->
  (ok = false /\ x' = x /\ index <= commitIndex x) \/
  (ok = true /\ commitIndex x < index /\ lastIncludedIndex x' = index /\
   Persister.snapshot (persister x') = snap /\ persisted x').
Proof.
  unfold CondInstallSnapshot. intros H. go_inv; [by left|..]; right; split_and!; try done;
    first [cbn; apply Persister.clone_id|left; cbn; by rewrite Persister.clone_id].
Qed.
End service.

Section replay.
Context {Op St Res Id : Type} `{EqDecision Id} `{!Codec (RaftPersist Op)} `{!Codec St}.
Context `{!CodecLaws (RaftPersist Op)} `{!CodecLaws St} `{!StateMachine Op St Res Id}.
Notation server := (Server Op St Res Id).
Implicit Types sv : server.

Lemma installSnapshot_enc s sv : installSnapshot (enc s) sv = with_st s sv.
Proof.
  unfold installSnapshot. bcase.
  - pose proof (enc_nonempty s). unfold zlen in *. destruct (enc s); cbn in *; [done|lia].
  - by rewrite dec_enc.
Qed.

Lemma StartServer_saved n i (x : Raft Op) max r cmds :
  saved_ok cmds x -> persisted x ->
  let sv := StartServer n i (persister x) max r in
  replayed cmds (lastIncludedIndex x) = Some (st sv) /\ rf sv = Make n i (persister x) r.
Proof.
  intros Hsv Hp. unfold StartServer, Persister.ReadSnapshot. rewrite Persister.clone_id.
  destruct Hsv as [[-> ->]|(s & Hs & -> & _)]; cbn [zlen].
  - done.
  - bcase; [by rewrite installSnapshot_enc|].
    pose proof (enc_nonempty s). unfold zlen in *. destruct (enc s); cbn in *; [done|lia].
Qed.

Lemma run_apply_inv cmds sv k op sv' out :
  run_inv cmds sv k -> cmds !! Z.to_nat k = Some op ->
  applier (commandMsg (k + 1) op) sv = Some (sv', out) -> run_inv cmds sv' (k + 1).
Proof.
  intros [Hk Hst Hsv Hp] Hop H. unfold applier, applyCommand in H. cbn in H.
  apply bind_Some in H as ([s res] & He & H).
  pose proof (replayed_snoc _ _ _ _ _ _ Hk Hop Hst He) as Hs. go_inv.
  - unfold doSnapshot in *. go_inv. cbn in *.
    match goal with E : Snapshot _ _ _ = _ |- _ =>
      apply Snapshot_saved in E as [->|(Hi & _ & Hsn & Hpp)] end;
      [by split; cbn; [lia|..]|].
    split; cbn; try done; [lia|]. right. exists s. rewrite Hi. split_and!; done || lia.
  - split; cbn; try done. lia.
Qed.

(** A command that was already executed. *)
Lemma run_late_inv cmds sv k j op sv' out :
  absorbs cmds -> run_inv cmds sv k -> 0 <= j < lastIncludedIndex (rf sv) -> j < k ->
  cmds !! Z.to_nat j = Some op ->
  applier (commandMsg (j + 1) op) sv = Some (sv', out) -> run_inv cmds sv' k.
Proof.
  intros Hab [Hk Hst Hsv Hp] Hj Hjk Hop H. unfold applier, applyCommand in H. cbn in H.
  destruct (Hab k op (st sv) Hst) as [res He].
  { apply list_elem_of_lookup. exists (Z.to_nat j). rewrite lookup_take_lt by lia. done. }
  rewrite He in H. cbn in H. go_inv; [|by destruct sv].
  unfold doSnapshot in *. go_inv. cbn in *.
  match goal with E : Snapshot _ _ _ = _ |- _ =>
    apply Snapshot_saved in E as [->|(_ & Hlt & _)] end; [by destruct sv|cbn in Hlt; lia].
Qed.

Lemma run_replay late n i max cmds sv k :
  (late = true -> absorbs cmds) -> run late n i max cmds sv k -> run_inv cmds sv k.
Proof.
  intros Hlate. induction 1 as [r|sv k op sv' out _ IH Hop H|sv k term j s sv' out _ IH Hj Hs H
                 |sv k j op sv' out Hl _ IH Hj Hjk Hop H
                 |sv k nd ev nd' _ IH Hnd Hstep Hev|sv k x _ IH|sv k r _ IH].
  - split; cbn; [lia|done|by left|by right].
  - by eapply run_apply_inv.
  - destruct IH as [Hk Hst Hsv Hp]. unfold applier, applySnapshot in H. cbn in H.
    apply bind_Some in H as (sv1 & H & Hsv1). apply bind_Some in H as ([x ok] & E & Hx).
    simplify_eq/=.
    apply CondInstallSnapshot_saved in E as [(-> & -> & Hle)|(-> & Hlt & Hi & Hsn & Hpp)];
      bcase; try lia.
    + by destruct sv.
    + rewrite installSnapshot_enc. split; cbn; try done; [lia|].
      right. exists s. rewrite Hi. split_and!; done || lia.
  - by eapply run_late_inv; [by apply Hlate|..].
  - destruct IH as [Hk Hst Hsv Hp]. destruct (node_step_snapshot _ _ _ Hstep Hev) as [E1 E2].
    split; cbn; try done.
    + unfold saved_ok. rewrite E1, E2, Hnd. done.
    + eapply node_step_persisted; [done|]. by rewrite Hnd.
  - by destruct IH.
  - destruct IH as [Hk Hst Hsv Hp].
    destruct (StartServer_saved n i (rf sv) max r cmds Hsv Hp) as [E1 E2].
    pose proof (Make_persistent n i (rf sv) r Hp) as HP.
    assert (lastIncludedIndex (Make n i (persister (rf sv)) r : Raft Op)
      = lastIncludedIndex (rf sv)) as E3 by (by injection HP).
    split; [|done|..]; rewrite ?E2.
    + destruct Hsv as [[_ ->]|(? & _ & _ & ?)]; lia.
    + unfold saved_ok. by rewrite Make_persister, E3.
    + unfold persisted in *. by rewrite Make_persister, HP.
Qed.
End replay.
End Service.
