(* ===== verification/Cluster.v ===== *)
(** * A cluster of servers that apply what Raft hands them

    [Sys] is a Raft cluster together with the state of the service on every peer.
    A server receives the messages of its applier's batch one by one from
    [applyCh] and executes their commands; a crash loses the state, which is
    rebuilt from the log.  This is the composition of raft.go with a service that
    takes no snapshots: the shard controller, and kvraft started with
    [maxraftstate = -1].  The theorem: of any two servers of the cluster, at any two
    moments, the one that applied more entries is ahead by exactly the commands it
    applied more. *)
From S2P Require Import Prelude Persister RaftNode RaftLocal RaftInv RaftLog RaftNet RaftSpec RaftRefine RaftSafety Notify Service.
From stdpp Require Import functions relations.
#[local] Open Scope Z_scope.

Module Cluster.

(** One server: its state, the index it has applied and its position in the
    batch that the applier of its Raft peer is sending. *)
Record App (St : Type) := { ap_st : St; ap_index : Z; ap_pos : nat }.
Arguments Build_App {St} _ _ _.
Arguments ap_st {St} _.
Arguments ap_index {St} _.
Arguments ap_pos {St} _.

Record Sys (Op St : Type) := { sys_net : Net Op; sys_apps : Z -> App St }.
Arguments Build_Sys {Op St} _ _.
Arguments sys_net {Op St} _.
Arguments sys_apps {Op St} _ _.

Section cluster.
Context {Op St Res Id : Type} `{!Codec (RaftPersist Op)}.
Context `{!Service.StateMachine Op St Res Id}.
Variable n : nat.
Implicit Types (sy : Sys Op St) (a : App St) (nd : Node Op).

Definition fresh : App St := Build_App Service.initial 0 0.

(** The applier goroutine returns to the lock when all its sends are received.  With the 64
    places of [applyCh] in kvraft and shardctrler it may return earlier; it then only moves
    [lastApplied], so its steps can as well be taken later. *)
Definition next_pos (ev : Event Op) a : App St :=
  match ev with
  | EvApplierDone _ => Build_App (ap_st a) (ap_index a) 0
  | _ => a
  end.

Inductive sys_step sy : Sys Op St -> Prop :=
  | sys_event i src ev nd' :
      0 <= i < Z.of_nat n ->
      node_step (nodes (sys_net sy) i) ev nd' ->
      (forall m, input src i ev = Some m -> m ∈ soup (sys_net sy)) ->
      service_event ev = false ->
      (forall b, ev = EvApplierDone b -> ap_pos (sys_apps sy i) = length (applierMsgs b)) ->
      sys_step sy
        (Build_Sys {| nodes := <[i := nd']> (nodes (sys_net sy));
                      soup := outputs src i nd' ev ++ soup (sys_net sy) |}
                   (<[i := next_pos ev (sys_apps sy i)]> (sys_apps sy)))
  | sys_deliver i b msg op st' res :
      0 <= i < Z.of_nat n ->
      batch (nodes (sys_net sy) i) = Some b ->
      applierMsgs b !! ap_pos (sys_apps sy i) = Some msg ->
      Command msg = Some op ->
      Service.exec op (ap_st (sys_apps sy i)) = Some (st', res) ->
      sys_step sy
        (Build_Sys (sys_net sy)
           (<[i := Build_App st' (CommandIndex msg) (S (ap_pos (sys_apps sy i)))]>
              (sys_apps sy)))
  | sys_crash i r :
      0 <= i < Z.of_nat n ->
      sys_step sy
        (Build_Sys {| nodes := <[i := boot n i (persister (raft (nodes (sys_net sy) i))) r]>
                                 (nodes (sys_net sy));
                      soup := soup (sys_net sy) |}
                   (<[i := fresh]> (sys_apps sy))).

Definition sys_init sy : Prop :=
  net_init n (sys_net sy) /\ forall i, sys_apps sy i = fresh.

Definition sys_reachable sy : Prop :=
  exists sy0, sys_init sy0 /\ rtc sys_step sy0 sy.

(** ** What the applier and the service agree on *)

(** The batch of a peer starts after what it applied and ends at its commit index. *)
Definition pos_ok nd a : Prop :=
  match batch nd with
  | None => ap_pos a = 0%nat /\ ap_index a = lastApplied (raft nd)
  | Some b =>
      ap_index a = lastApplied (raft nd) + Z.of_nat (ap_pos a) /\
      ab_startIdx b = lastApplied (raft nd) + 1 /\
      ab_commitIndex b = lastApplied (raft nd) + zlen (ab_entries b)
  end.

(** The state is the replay of a committed prefix. *)
Definition state_ok (s : Abs Op) a : Prop :=
  exists T l m, settled n s T l m /\ 0 <= ap_index a <= Z.of_nat m /\
    Service.replayed (le_Command <$> l) (ap_index a) = Some (ap_st a).

Record sys_rel sy (s : Abs Op) : Prop := {
  sr_net : net_inv n (sys_net sy);
  sr_abs : abs_inv n s;
  sr_refines : refines n (sys_net sy) s;
  sr_pos i : 0 <= i < Z.of_nat n -> pos_ok (nodes (sys_net sy) i) (sys_apps sy i);
  sr_state i : 0 <= i < Z.of_nat n -> state_ok s (sys_apps sy i);
}.

Lemma state_ok_mono s s' a : extends s s' -> state_ok s a -> state_ok s' a.
Proof.
  intros Hex (T & l & m & ? & ? & ?). exists T, l, m. split_and!; try done; try lia.
  by eapply settled_mono.
Qed.

(** Only the applier moves [lastApplied] and the batch. *)
Lemma node_step_applied nd ev nd' :
  node_step nd ev nd' -> service_event ev = false ->
  (ev = EvApplierTake /\ batch nd = None /\ applierTake (raft nd) = (raft nd', batch nd')) \/
  (exists b, ev = EvApplierDone b /\ batch nd = Some b /\
     raft nd' = applierDone b (raft nd) /\ batch nd' = None) \/
  ((forall b, ev <> EvApplierDone b) /\ batch nd' = batch nd /\
   lastApplied (raft nd') = lastApplied (raft nd)).
Proof.
  intros Hs Hev. destruct Hs; try discriminate Hev; cbn; try (by left);
    try (right; left; eauto; done); right; right; split_and!; try done;
    unfold onElectionTimer, startElection, RequestVote, decideVote, voteReply, AppendEntries,
      appendChecked, followLeader, InstallSnapshot, onHeartbeatTimer, appendEntriesReply,
      installSnapshotReply, Start in *;
    go_inv; frames; try done; repeat (bcase; try done).
  all: unfold followLeader; by bcase.
Qed.

Lemma applierMsgs_length (b : ApplyBatch Op) :
  ab_lastIncludedIndex b < ab_startIdx b -> length (applierMsgs b) = length (ab_entries b).
Proof. intros Hb. rewrite applierMsgs_spec by done. apply length_imap. Qed.

Lemma pos_event s i nd ev nd' a :
  peer_rel n s i (raft nd) -> batch_rel n s (batch nd) -> node_step nd ev nd' ->
  service_event ev = false ->
  (forall b, ev = EvApplierDone b -> ap_pos a = length (applierMsgs b)) ->
  pos_ok nd a -> pos_ok nd' (next_pos ev a).
Proof.
  intros Hp Hb Hs Hev Hdone Hpos. unfold pos_ok in *.
  destruct (node_step_applied _ _ _ Hs Hev) as
    [(-> & Hnone & Ht)|[(b & -> & Hsome & Hr & ->)|(Hne & -> & ->)]].
  - rewrite Hnone in Hpos. destruct Hpos as [Hz Hi]. cbn [next_pos].
    destruct (pr_snap _ _ _ _ Hp) as [E0 _]. destruct (pr_commit _ _ _ _ Hp) as [_ [Hle _]].
    pose proof (pr_applied _ _ _ _ Hp) as Ha0.
    unfold applierTake in Ht. bcase_in Ht; injection Ht as <- <-; cbn; [done|].
    split_and!; [lia|done|]. rewrite collectLoop_spec by (unfold lastLogIndex, zlen in *; lia).
    unfold zlen, toSliceIndex. rewrite length_take, length_drop. lia.
  - rewrite Hsome in Hpos. destruct Hpos as (Hi & Hst & Hci). cbn.
    specialize (Hdone b eq_refl). destruct (Hb b Hsome) as (Hl & H0 & _).
    rewrite applierMsgs_length in Hdone by lia. unfold zlen in Hci.
    rewrite Hr. unfold applierDone. bcase; cbn; split; done || lia.
  - destruct ev; try done. by exfalso; eapply Hne.
Qed.

Lemma state_deliver s b nd a msg op st' res :
  abs_inv n s -> batch_rel n s (Some b) -> batch nd = Some b -> pos_ok nd a -> state_ok s a ->
  applierMsgs b !! ap_pos a = Some msg -> Command msg = Some op ->
  Service.exec op (ap_st a) = Some (st', res) ->
  CommandIndex msg = ap_index a + 1 /\ state_ok s (Build_App st' (CommandIndex msg) (S (ap_pos a))).
Proof.
  intros Hinv Hb Hnd Hpos (T & l & m & Hset & Hm & Hr) Hmsg Hop He.
  unfold pos_ok in Hpos. rewrite Hnd in Hpos. destruct Hpos as (Hi & Hst & _).
  destruct (Hb b eq_refl) as (Hl0 & Hs0 & _).
  destruct (batch_message n s b msg Hb) as (T' & l' & m' & e & Hset' & Hle & Hm' & Hmsg');
    [by eapply list_elem_of_lookup_2|].
  assert (CommandIndex msg = ap_index a + 1) as Hidx.
  { rewrite applierMsgs_spec, list_lookup_imap in Hmsg by lia.
    destruct (ab_entries b !! ap_pos a); [|done]. cbn in Hmsg. injection Hmsg as <-. cbn. lia. }
  rewrite Hidx in *. rewrite Hmsg' in Hop. injection Hop as <-.
  replace (ap_index a + 1 - 1) with (ap_index a) in Hle by lia.
  split; [done|]. exists T', l', m'. split_and!; try done; cbn; try lia.
  eapply Service.replayed_snoc; [lia| | |done].
  - by rewrite list_lookup_fmap, Hle.
  - rewrite <- Hr. unfold Service.replayed. rewrite <- !fmap_take. do 2 f_equal.
    eapply (settled_agree n s); [done|..]; (eapply settled_shorter; [done|lia]).
Qed.

Lemma state_ok_fresh s : state_ok s fresh.
Proof. exists 0, [], 0%nat. split_and!; cbn; try done. split; [done|by left]. Qed.

Lemma sys_init_rel sy : sys_init sy -> sys_rel sy abs0.
Proof.
  intros [Hn Ha]. split.
  - by apply init_inv.
  - apply abs_init_inv, abs0_init.
  - by apply init_refines.
  - intros i _. rewrite Ha. destruct Hn as [_ Hn]. by destruct (Hn i) as [r ->].
  - intros i _. rewrite Ha. apply state_ok_fresh.
Qed.

Context `{!CodecLaws (RaftPersist Op)}.

(** The cluster part of a step, and what it means for the servers. *)
Lemma sys_net_step sy s net' apps' i :
  sys_rel sy s -> plain_step n (sys_net sy) net' -> 0 <= i < Z.of_nat n ->
  (forall j, j <> i -> nodes net' j = nodes (sys_net sy) j /\ apps' j = sys_apps sy j) ->
  (forall s', state_ok s' (sys_apps sy i) -> state_ok s' (apps' i)) ->
  pos_ok (nodes net' i) (apps' i) ->
  exists s', extends s s' /\ sys_rel (Build_Sys net' apps') s'.
Proof.
  intros [Hnet Hinv HR Hpos Hst] Hs Hi Hother Hsti Hposi.
  destruct (plain_sim n _ _ _ Hs Hnet Hinv HR) as (s' & Hr & HR').
  destruct (abs_rtc _ _ _ Hr Hinv) as [Hinv' Hex]. exists s'. split; [done|].
  split; cbn [sys_net sys_apps]; [|done|done|intros j Hj..].
  - eapply (net_step_inv n); [by apply plain_net|done].
  - destruct (decide (j = i)) as [->|Hne]; [done|]. destruct (Hother j Hne) as [-> ->]. auto.
  - destruct (decide (j = i)) as [->|Hne].
    + apply Hsti. eapply state_ok_mono; eauto.
    + destruct (Hother j Hne) as [_ ->]. eapply state_ok_mono; eauto.
Qed.

Lemma sys_step_rel sy sy' s :
  sys_step sy sy' -> sys_rel sy s -> exists s', extends s s' /\ sys_rel sy' s'.
Proof.
  intros Hs HS. pose proof HS as [Hnet Hinv HR Hpos Hst].
  destruct Hs as [i src ev nd' Hi Hs Hin Hev Hd|i b msg op st' res Hi Hb Hm Hop He|i r Hi].
  - apply (sys_net_step sy s _ _ i); try done.
    + by apply plain_event.
    + intros j Hj. cbn. by rewrite !fn_lookup_insert_ne.
    + intros s' Hst'. rewrite fn_lookup_insert. by destruct ev.
    + cbn. rewrite !fn_lookup_insert. eapply (pos_event s i); eauto.
      * by apply (rel_peer _ _ _ HR).
      * by apply (rel_batch _ _ _ HR).
  - exists s. split; [apply extends_refl|].
    pose proof (rel_batch _ _ _ HR i Hi) as Hbr. rewrite Hb in Hbr.
    destruct (state_deliver s b (nodes (sys_net sy) i) (sys_apps sy i) msg op st' res)
      as [Hidx Hst']; try done; auto.
    specialize (Hpos i Hi) as Hpi.
    split; cbn [sys_net sys_apps]; try done.
    + intros j Hj. destruct (decide (j = i)) as [->|]; [|rewrite fn_lookup_insert_ne; auto].
      rewrite fn_lookup_insert. unfold pos_ok in *. rewrite Hb in *. cbn. rewrite Hidx.
      destruct Hpi as (? & ? & ?). split_and!; done || lia.
    + intros j Hj. destruct (decide (j = i)) as [->|]; [|rewrite fn_lookup_insert_ne; auto].
      by rewrite fn_lookup_insert.
  - apply (sys_net_step sy s _ _ i); try done.
    + by apply plain_crash.
    + intros j Hj. cbn. by rewrite !fn_lookup_insert_ne.
    + intros s' _. rewrite fn_lookup_insert. apply state_ok_fresh.
    + cbn. rewrite !fn_lookup_insert. unfold pos_ok. cbn. split; [done|].
      destruct (restart_indices n i (raft (nodes (sys_net sy) i)) r) as [_ ->]; [| |done].
      * by apply (pr_snap _ _ _ _ (rel_peer _ _ _ HR i Hi)).
      * by apply (inv_persisted _ _ Hnet).
Qed.

Lemma sys_run_rel sy sy' s :
  rtc sys_step sy sy' -> sys_rel sy s -> exists s', extends s s' /\ sys_rel sy' s'.
Proof.
  intros Hr. revert s. induction Hr as [sy|sy1 sy2 sy3 Hs _ IH]; intros s HS.
  { exists s. split; [apply extends_refl|done]. }
  destruct (sys_step_rel _ _ _ Hs HS) as (s2 & Hex2 & HS2).
  destruct (IH s2 HS2) as (s3 & Hex3 & HS3). exists s3. split; [|done].
  by eapply extends_trans.
Qed.

(** Two committed replays: the longer one continues the shorter one. *)
Lemma state_ok_order s a1 a2 :
  abs_inv n s -> state_ok s a1 -> state_ok s a2 -> ap_index a1 <= ap_index a2 ->
  exists ops, zlen ops = ap_index a2 - ap_index a1 /\
    Service.replay ops (ap_st a1) = Some (ap_st a2).
Proof.
  intros Hinv (T1 & l1 & m1 & S1 & M1 & R1) (T2 & l2 & m2 & S2 & M2 & R2) Hle.
  pose proof S2 as [Hl2 _].
  assert (take (Z.to_nat (ap_index a1)) l1 = take (Z.to_nat (ap_index a1)) l2) as E.
  { eapply (settled_agree n s); [done|..]; (eapply settled_shorter; [done|lia]). }
  unfold Service.replayed in *. rewrite <- !fmap_take in *.
  exists (le_Command <$> take (Z.to_nat (ap_index a2 - ap_index a1))
            (drop (Z.to_nat (ap_index a1)) l2)).
  split; [unfold zlen; rewrite length_fmap, length_take, length_drop; lia|].
  replace (Z.to_nat (ap_index a2)) with
    (Z.to_nat (ap_index a1) + Z.to_nat (ap_index a2 - ap_index a1))%nat in R2 by lia.
  rewrite <- take_take_drop, fmap_app, Service.replay_app, <- E, R1 in R2. exact R2.
Qed.

(** Two servers of a run, in one abstract state. *)
Lemma two_servers sy sy' :
  sys_reachable sy -> rtc sys_step sy sy' ->
  exists s, abs_inv n s /\
    (forall i, 0 <= i < Z.of_nat n -> state_ok s (sys_apps sy i)) /\
    (forall j, 0 <= j < Z.of_nat n -> state_ok s (sys_apps sy' j)).
Proof.
  intros (sy0 & H0 & Hr0) Hr.
  destruct (sys_run_rel _ _ _ Hr0 (sys_init_rel _ H0)) as (s & _ & HS).
  destruct (sys_run_rel _ _ _ Hr HS) as (s' & Hex & HS'). exists s'. split_and!.
  - apply (sr_abs _ _ HS').
  - intros i Hi. eapply state_ok_mono; [done|]. by apply (sr_state _ _ HS).
  - apply (sr_state _ _ HS').
Qed.

(** C14: replicas are one state machine.  In any run of a cluster of servers over
    raft.go without snapshots (messages lost, duplicated, delayed or reordered,
    servers crashing and rebuilding their state from the log), of two servers at
    any two moments the one that applied more entries is ahead by exactly the
    commands it applied more; with equally many the states are equal. *)
Theorem replicas_one_machine sy sy' i j :
  sys_reachable sy -> rtc sys_step sy sy' ->
  0 <= i < Z.of_nat n -> 0 <= j < Z.of_nat n ->
  let a := sys_apps sy i in
  let b := sys_apps sy' j in
  (ap_index a <= ap_index b -> exists ops, zlen ops = ap_index b - ap_index a /\
     Service.replay ops (ap_st a) = Some (ap_st b)) /\
  (ap_index b <= ap_index a -> exists ops, zlen ops = ap_index a - ap_index b /\
     Service.replay ops (ap_st b) = Some (ap_st a)).
Proof.
  intros Hr0 Hr Hi Hj a b. destruct (two_servers _ _ Hr0 Hr) as (s & Hinv & Ha & Hb).
  split; intros Hle; [apply (state_ok_order s a b)|apply (state_ok_order s b a)]; auto;
    [by apply Ha|by apply Hb|by apply Hb|by apply Ha].
Qed.
End cluster.

(** ** A concrete run: two servers apply a command *)
Section demo.
Context {Op St Res Id : Type} `{!Codec (RaftPersist Op)}.
Context `{!Service.StateMachine Op St Res Id}.
Context (cmd : Op) (st1 : St) (res1 : Res).
Hypothesis (Hexec : Service.exec cmd Service.initial = Some (st1, res1)).

Definition all_fresh (net : Net Op) (sy : Sys Op St) : Prop :=
  sys_reachable 3 sy /\ sys_net sy = net /\ forall i, sys_apps sy i = fresh.

Lemma fires_sys i src ev net net' :
  Run.fires i src ev net net' -> (exists sy, all_fresh net sy) -> exists sy, all_fresh net' sy.
Proof.
  intros [? ? ? ? Hd Hnet] ([net0 apps] & (sy0 & H0 & Hr) & <- & Hf). cbn in *.
  eexists. split_and!; [exists sy0; split; [done|eapply rtc_r; [exact Hr|]]| |].
  - eapply (sys_event 3 _ i src ev); eauto. intros b E. by apply Hd in E.
  - exact Hnet.
  - apply (fn_insert_case (fun _ a => a = fresh)); [|auto]. cbn. rewrite Hf. by destruct ev.
Qed.

Lemma demo11 : exists sy, all_fresh (Run.net11 cmd) sy.
Proof.
  apply (fires_sys _ _ _ _ _ (Run.fire11 cmd)). apply (fires_sys _ _ _ _ _ (Run.fire10 cmd)).
  apply (fires_sys _ _ _ _ _ (Run.fire9 cmd)). apply (fires_sys _ _ _ _ _ (Run.fire8 cmd)).
  apply (fires_sys _ _ _ _ _ (Run.fire7 cmd)). apply (fires_sys _ _ _ _ _ (Run.fire6 cmd)).
  apply (fires_sys _ _ _ _ _ (Run.fire5 cmd)). apply (fires_sys _ _ _ _ _ (Run.fire4 cmd)).
  apply (fires_sys _ _ _ _ _ Run.fire3). apply (fires_sys _ _ _ _ _ Run.fire2).
  apply (fires_sys _ _ _ _ _ Run.fire1).
  exists (Build_Sys Run.net0 (fun _ => fresh)). split_and!; try done.
  exists (Build_Sys Run.net0 (fun _ => fresh)). split; [|apply rtc_refl].
  split; [split; [done|by exists 0]|done].
Qed.

Lemma demo_run : exists sy, sys_reachable 3 sy /\
  sys_apps sy 0 = Build_App st1 1 1 /\ sys_apps sy 1 = Build_App st1 1 1.
Proof.
  destruct demo11 as ([net apps] & (sy0 & H0 & Hr) & Hnet & Hf). cbn in *. subst net.
  assert (forall i b (apps' : Z -> App St), 0 <= i < 3 -> apps' i = fresh ->
    batch (nodes (Run.net11 cmd) i) = Some b -> applierMsgs b !! 0%nat = Some (Run.sent cmd) ->
    sys_step 3 (Build_Sys (Run.net11 cmd) apps')
      (Build_Sys (Run.net11 cmd) (<[i := Build_App st1 1 1]> apps'))) as Hstep.
  { intros i b apps' Hi Hfi Hb Hm.
    pose proof (sys_deliver 3 (Build_Sys (Run.net11 cmd) apps') i b (Run.sent cmd) cmd st1 res1)
      as Hs. cbn in Hs. rewrite Hfi in Hs. cbn in Hs. by apply Hs. }
  eexists. split_and!.
  - exists sy0. split; [done|]. eapply rtc_r; [eapply rtc_r; [exact Hr|]|].
    + apply (Hstep 0 (Run.took (nodes (Run.net11 cmd) 0))); [lia|done|..]; vm_compute; reflexivity.
    + apply (Hstep 1 (Run.took (nodes (Run.net11 cmd) 1))); [lia| |vm_compute; reflexivity..].
      by rewrite fn_lookup_insert_ne.
  - cbn. rewrite fn_lookup_insert_ne by done. by rewrite fn_lookup_insert.
  - cbn. by rewrite fn_lookup_insert.
Qed.
End demo.
End Cluster.

(** A service that keeps the list of its commands. *)
Module Tally.
Import Cluster.
#[export] Existing Instance IntCommands.codec.
#[export] Existing Instance IntCommands.codec_laws.
#[export] Instance machine : Service.StateMachine Z (list Z) unit Z := {
  Service.op_id x := x;
  Service.exec x l := Some (l ++ [x], tt);
  Service.initial := [];
}.
End Tally.
Import Cluster Tally.

Lemma replicas_one_machine_witness :
  exists sy : Sys Z (list Z), sys_reachable 3 sy /\ ap_st (sys_apps sy 0) = [7] /\
    exists ops, zlen ops = 0 /\
      Service.replay ops (ap_st (sys_apps sy 0)) = Some (ap_st (sys_apps sy 1)).
Proof.
  destruct (demo_run (St := list Z) (Res := unit) (Id := Z) 7 [7] tt ltac:(done)) as (sy & Hr & H0 & H1).
  exists sy. split; [exact Hr|]. split; [by rewrite H0|].
  destruct (replicas_one_machine 3 sy sy 0 1 Hr (rtc_refl _ _)) as [Hle _]; [lia|lia|].
  destruct Hle as (ops & Hl & Hops); [by rewrite H0, H1|].
  exists ops. split; [by rewrite H0, H1 in Hl|exact Hops].
Defined.
