(* ===== verification/KVProps.v ===== *)
(** * The key/value server: properties

    An abstract specification of the service (a map to which every write is
    applied once, at the first position it has in the log) and the refinement of
    it by the server's [execute] with its duplicate table, then the state across
    snapshots and crashes. *)
From S2P Require Import Prelude Persister Serial RaftNode RaftLocal Notify Service KVServer.
Import KVServer.

(** ** Histories *)

Definition isWrite (op : Op) : bool := negb (isGet op).

(** The store after executing a log. *)
Definition runLog (log : list Op) : Store :=
  foldl (fun s op => (execute op s).1) emptyStore log.

(** [op] repeats a write of the history [h]. *)
Definition seenIn (h : list Op) (op : Op) : bool :=
  existsb (fun o => isWrite o && (ClientId o =? ClientId op) && (SeqId o =? SeqId op)) h.

(** The writes of a log at their first position. *)
Fixpoint firsts (h ops : list Op) : list Op :=
  match ops with
  | [] => []
  | op :: ops =>
      if isWrite op && negb (seenIn h op) then op :: firsts (h ++ [op]) ops
      else firsts (h ++ [op]) ops
  end.

(** The specification: a plain map. *)
Definition applyAll (ops : list Op) : gmap string string :=
  foldl (fun m op => (applyOp op m).2) ∅ ops.

(** Clients number their operations in order and start the next one only when the
    previous one has been applied: a write that is new in the log has a higher
    number than every earlier write of its client. *)
Definition clerk_order (log : list Op) : Prop :=
  forall pre op post, log = pre ++ op :: post -> isWrite op = true -> seenIn pre op = false ->
  forall o, o ∈ pre -> isWrite o = true -> ClientId o = ClientId op -> SeqId o < SeqId op.

Lemma runLog_snoc log op : runLog (log ++ [op]) = (execute op (runLog log)).1.
Proof. unfold runLog. by rewrite foldl_app. Qed.

Lemma firsts_snoc h log op :
  firsts h (log ++ [op]) =
    firsts h log ++ (if isWrite op && negb (seenIn (h ++ log) op) then [op] else []).
Proof.
  revert h. induction log as [|x log IH]; intros h; cbn.
  - rewrite app_nil_r. by bcase.
  - rewrite IH, <- (assoc_L (++) h). cbn. by bcase.
Qed.

Lemma clerk_order_app log log' : clerk_order (log ++ log') -> clerk_order log.
Proof.
  intros Hc pre op post -> Hw Hs. eapply (Hc pre op (post ++ log')); [|done..].
  by rewrite <- (assoc_L (++)).
Qed.

Lemma seenIn_spec h op :
  seenIn h op = true <->
  exists o, o ∈ h /\ isWrite o = true /\ ClientId o = ClientId op /\ SeqId o = SeqId op.
Proof.
  unfold seenIn. rewrite existsb_exists. split.
  - intros (o & Ho%list_elem_of_In & H). breflect. eauto.
  - intros (o & Ho%list_elem_of_In & H1 & H2 & H3). exists o. split; [done|].
    by rewrite H1, H2, H3, !Z.eqb_refl.
Qed.

(** The duplicate table holds the highest write number of each client. *)
Definition dup_ok (log : list Op) (s : Store) : Prop :=
  forall c, match dupTable s !! c with
  | None => forall o, o ∈ log -> isWrite o = true -> ClientId o <> c
  | Some last =>
      (exists o, o ∈ log /\ isWrite o = true /\ ClientId o = c /\ SeqId o = lr_SeqId last) /\
      (forall o, o ∈ log -> isWrite o = true -> ClientId o = c -> SeqId o <= lr_SeqId last)
  end.

(** The number of the last write of a client is below [n]. *)
Definition newer (s : Store) (op : Op) : bool :=
  match dupTable s !! ClientId op with
  | Some last => lr_SeqId last <? SeqId op
  | None => true
  end.

(** [execute] when the command is not a duplicate, and when it is. *)
Lemma execute_newer op s :
  newer s op = true ->
  execute op s =
    ({| kvStore := (applyOp op (kvStore s)).2;
        dupTable := if isWrite op
          then <[ClientId op := {| lr_SeqId := SeqId op;
                   lr_Reply := result (applyOp op (kvStore s)).1.1
                                      (applyOp op (kvStore s)).1.2 op |}]> (dupTable s)
          else dupTable s |},
     result (applyOp op (kvStore s)).1.1 (applyOp op (kvStore s)).1.2 op).
Proof.
  unfold newer, execute, isWrite. intros H.
  destruct (applyOp op (kvStore s)) as [[err v] m]. cbn.
  destruct (dupTable s !! ClientId op) as [last|]; [|done].
  apply Z.ltb_lt in H. bcase; [lia|done].
Qed.

Lemma execute_duplicate op s last :
  dupTable s !! ClientId op = Some last -> SeqId op <= lr_SeqId last ->
  execute op s = (s, result (ar_Err (lr_Reply last)) (ar_Value (lr_Reply last)) op).
Proof. intros Hl Hle. unfold execute. rewrite Hl. bcase; [done|lia]. Qed.

Lemma newer_false s op :
  newer s op = false ->
  exists last, dupTable s !! ClientId op = Some last /\ SeqId op <= lr_SeqId last.
Proof.
  unfold newer. destruct (dupTable s !! ClientId op) as [last|]; [|done].
  intros. breflect. eauto.
Qed.

Lemma execute_store_same op s :
  newer s op = false -> (execute op s).1 = s.
Proof. intros (last & Hl & Hle)%newer_false. by rewrite (execute_duplicate _ _ last). Qed.

Lemma dup_ok_snoc_skip log s op :
  dup_ok log s -> (isWrite op = true -> newer s op = false) -> dup_ok (log ++ [op]) s.
Proof.
  intros Hd Hn c. specialize (Hd c).
  assert (forall o, o ∈ log ++ [op] -> isWrite o = true -> ClientId o = c ->
    o ∈ log \/ exists last, dupTable s !! c = Some last /\ SeqId o <= lr_SeqId last) as Hin.
  { intros o [?| ->%list_elem_of_singleton]%elem_of_app Hw Hc; [by left|]. right.
    rewrite <- Hc. by apply newer_false, Hn. }
  destruct (dupTable s !! c) as [last|].
  - destruct Hd as [(o & ? & ?) Hle]. split.
    + exists o. split; [|done]. apply elem_of_app. by left.
    + intros o' Ho' Hw Hc. destruct (Hin o' Ho' Hw Hc) as [?|(l & [= <-] & ?)]; auto.
  - intros o Ho Hw Hc. destruct (Hin o Ho Hw Hc) as [?|(l & ? & _)]; [|done].
    by apply (Hd o).
Qed.

Lemma dup_ok_runLog log : dup_ok log (runLog log).
Proof.
  induction log as [|op log IH] using rev_ind.
  { intros c. cbn. rewrite lookup_empty. by intros o ?%not_elem_of_nil. }
  rewrite runLog_snoc. destruct (newer (runLog log) op) eqn:Hn.
  2: { rewrite execute_store_same by done. by apply dup_ok_snoc_skip. }
  rewrite execute_newer by done. cbn.
  destruct (isWrite op) eqn:Hw; [|by apply dup_ok_snoc_skip; [|congruence]].
  intros c. cbn. destruct (decide (ClientId op = c)) as [<-|Hne].
  - rewrite lookup_insert_eq. cbn. split.
    + exists op. split; [|done]. apply elem_of_app. right. constructor.
    + intros o [Ho| ->%list_elem_of_singleton]%elem_of_app Hwo Hc; [|done].
      unfold newer in Hn. specialize (IH (ClientId op)).
      destruct (dupTable (runLog log) !! ClientId op) as [last|]; [|by destruct (IH o)].
      breflect. destruct IH as [_ IH]. specialize (IH o Ho Hwo Hc). lia.
  - rewrite lookup_insert_ne by done. specialize (IH c).
    destruct (dupTable (runLog log) !! c) as [last|].
    + destruct IH as [(o & ? & ?) Hle]. split.
      * exists o. split; [|done]. apply elem_of_app. by left.
      * intros o' [?| ->%list_elem_of_singleton]%elem_of_app ? ?; [auto|done].
    + intros o [?| ->%list_elem_of_singleton]%elem_of_app ?; [auto|done].
Qed.

(** Whether a command is a duplicate can be read off the log. *)
Lemma newer_log log op :
  newer (runLog log) op = true <->
  forall o, o ∈ log -> isWrite o = true -> ClientId o = ClientId op -> SeqId o < SeqId op.
Proof.
  pose proof (dup_ok_runLog log (ClientId op)) as Hd. unfold newer.
  destruct (dupTable (runLog log) !! ClientId op) as [last|].
  - destruct Hd as [(o & Ho & Hw & Hc & Hs) Hle]. split.
    + intros Hlt o' Ho' Hw' Hc'. breflect. specialize (Hle o' Ho' Hw' Hc'). lia.
    + intros H. specialize (H o Ho Hw Hc). lia.
  - split; [|done]. intros _ o Ho Hw Hc. by destruct (Hd o Ho Hw).
Qed.

Lemma applyOp_get op m : isWrite op = false -> (applyOp op m).2 = m.
Proof.
  unfold isWrite, isGet, applyOp. intros ->%negb_false_iff. by destruct (m !! Key op).
Qed.

Lemma kvStore_firsts log :
  clerk_order log -> kvStore (runLog log) = applyAll (firsts [] log).
Proof.
  induction log as [|op log IH] using rev_ind; intros Hc; [done|].
  specialize (IH (clerk_order_app _ _ Hc)).
  rewrite runLog_snoc, firsts_snoc. cbn [app]. unfold applyAll in *.
  destruct (isWrite op) eqn:Hw; cbn [andb].
  - destruct (seenIn log op) eqn:Hs; cbn [negb].
    + rewrite app_nil_r, execute_store_same; [done|].
      apply not_true_iff_false. rewrite newer_log. intros Hn.
      apply seenIn_spec in Hs as (o & Ho & Hwo & Hco & Hso). specialize (Hn o Ho Hwo Hco). lia.
    + rewrite execute_newer, foldl_app, <- IH; [done|].
      apply newer_log. by eapply (Hc log op []).
  - rewrite app_nil_r, <- IH. destruct (newer (runLog log) op) eqn:Hn.
    + rewrite execute_newer by done. cbn. by apply applyOp_get.
    + by rewrite execute_store_same.
Qed.

Lemma elem_of_firsts h log op :
  op ∈ firsts h log -> op ∈ log /\ isWrite op = true /\ seenIn h op = false.
Proof.
  revert h. induction log as [|x log IH]; intros h; cbn; [by intros ?%not_elem_of_nil|].
  assert (op ∈ firsts (h ++ [x]) log -> op ∈ x :: log /\ isWrite op = true /\ seenIn h op = false)
    as Hr.
  { intros (Hi & Hw & Hs)%IH. split_and!; [by constructor|done|].
    unfold seenIn in *. rewrite existsb_app in Hs. by apply orb_false_iff in Hs as [? _]. }
  bcase; [|done]. intros [->|?]%elem_of_cons; [|auto]. split_and!; [constructor|done..].
Qed.

Lemma firsts_NoDup h log : NoDup ((fun op => (ClientId op, SeqId op)) <$> firsts h log).
Proof.
  revert h. induction log as [|x log IH]; intros h; cbn; [constructor|].
  bcase; [|done]. cbn. constructor; [|done].
  intros (o & [= Ho1 Ho2] & (_ & _ & Hs)%elem_of_firsts)%list_elem_of_fmap.
  apply not_true_iff_false in Hs. apply Hs. apply seenIn_spec. exists x.
  split_and!; try done. apply elem_of_app. right. constructor.
Qed.

(** ** The theorems *)

(** C11: exactly-once semantics.  For every log that clients produce by numbering
    their operations in order and retrying as often as they like, the server's map
    is the plain map after applying each distinct write once, at its first position
    in the log. *)
Theorem writes_exactly_once log :
  clerk_order log ->
  kvStore (runLog log) = applyAll (firsts [] log) /\
  NoDup ((fun op => (ClientId op, SeqId op)) <$> firsts [] log) /\
  (forall op, op ∈ log -> isWrite op = true ->
     exists o, o ∈ firsts [] log /\ ClientId o = ClientId op /\ SeqId o = SeqId op).
Proof.
  intros Hc. split_and!; [by apply kvStore_firsts|apply firsts_NoDup|].
  clear Hc. induction log as [|x log IH] using rev_ind; [by intros ? ?%not_elem_of_nil|].
  intros op Hop Hw. rewrite firsts_snoc. cbn [app].
  assert (op ∈ log \/ op = x) as [Hin| ->].
  { apply elem_of_app in Hop as [?| ->%list_elem_of_singleton]; auto. }
  - destruct (IH op Hin Hw) as (o & ? & ?). exists o. split; [|done]. apply elem_of_app. by left.
  - rewrite Hw. destruct (seenIn log x) eqn:Hs; cbn.
    + apply seenIn_spec in Hs as (o & Ho & Hwo & E1 & E2).
      destruct (IH o Ho Hwo) as (o' & ? & ? & ?). exists o'. rewrite app_nil_r.
      split_and!; congruence.
    + exists x. split; [|done]. apply elem_of_app. right. constructor.
Qed.

(** a read is answered from the state at its own position in the log: if the
    client has no later write there, [Get] returns the value all the distinct
    earlier writes leave under the key, or [ErrNoKey], and changes nothing in the
    map. *)
Theorem read_sees_log log op :
  clerk_order log -> isGet op = true ->
  (forall o, o ∈ log -> isWrite o = true -> ClientId o = ClientId op -> SeqId o < SeqId op) ->
  execute op (runLog log) =
    (runLog log, match applyAll (firsts [] log) !! Key op with
                 | Some v => result OK v op
                 | None => result ErrNoKey EmptyString op
                 end).
Proof.
  intros Hc Hg Hn%newer_log. assert (isWrite op = false) as Hw by (unfold isWrite; by rewrite Hg).
  rewrite execute_newer, Hw, applyOp_get by done.
  rewrite <- (kvStore_firsts _ Hc). unfold applyOp, isGet in *. rewrite Hg.
  destruct (runLog log) as [m d]. cbn. by destruct (m !! Key op).
Qed.

Lemma dupTable_stays log mid c last :
  dupTable (runLog log) !! c = Some last ->
  (forall o, o ∈ mid -> isWrite o = true -> ClientId o = c -> SeqId o <= lr_SeqId last) ->
  dupTable (runLog (log ++ mid)) !! c = Some last.
Proof.
  intros Hl. induction mid as [|o mid IH] using rev_ind; intros Hm; [by rewrite app_nil_r|].
  rewrite (assoc_L (++)), runLog_snoc.
  specialize (IH ltac:(intros; apply Hm; [apply elem_of_app; by left|done..])).
  destruct (newer (runLog (log ++ mid)) o) eqn:Hn; [|by rewrite execute_store_same].
  rewrite execute_newer by done. cbn. destruct (isWrite o) eqn:Hw; [|done].
  destruct (decide (ClientId o = c)) as [Hc|]; [|by rewrite lookup_insert_ne].
  unfold newer in Hn. rewrite Hc, IH in Hn. breflect.
  specialize (Hm o ltac:(apply elem_of_app; right; constructor) Hw Hc). lia.
Qed.

(** A retry is answered like the original: executing a write again, after
    anything but a later write of the same client, returns the error and value of
    the first execution and leaves the state unchanged. *)
Theorem retry_same_reply log op mid :
  isWrite op = true -> newer (runLog log) op = true ->
  (forall o, o ∈ mid -> isWrite o = true -> ClientId o = ClientId op -> SeqId o <= SeqId op) ->
  execute op (runLog (log ++ op :: mid)) =
    (runLog (log ++ op :: mid), (execute op (runLog log)).2).
Proof.
  intros Hw Hn Hm. rewrite (execute_newer op (runLog log)) by done. cbn [snd].
  replace (log ++ op :: mid) with ((log ++ [op]) ++ mid) by (by rewrite <- (assoc_L (++))).
  erewrite (execute_duplicate op).
  2: { apply dupTable_stays.
       - rewrite runLog_snoc, execute_newer by done. cbn. rewrite Hw. apply lookup_insert_eq.
       - exact Hm. }
  - done.
  - cbn. lia.
Qed.

(** ** Across snapshots and crashes *)
Section durable.
Context `{!Codec (RaftPersist Op), !CodecLaws (RaftPersist Op), !Codec Store, !CodecLaws Store}.

Lemma kv_replay_runLog ops s :
  Service.replay ops s = Some (foldl (fun s op => (execute op s).1) s ops).
Proof.
  revert s. induction ops as [|op ops IH]; intros s; [done|]. cbn -[execute].
  destruct (execute op s) as [s' r] eqn:E. cbn. by rewrite IH.
Qed.

(** A command of the log changes nothing when it is executed again: its client has this
    or a later number in the duplicate table. *)
Lemma execute_again log op : op ∈ log -> (execute op (runLog log)).1 = runLog log.
Proof.
  intros Hin. destruct (newer (runLog log) op) eqn:Hn; [|by apply execute_store_same].
  destruct (isWrite op) eqn:Hw.
  - rewrite newer_log in Hn. specialize (Hn op Hin Hw eq_refl). lia.
  - rewrite execute_newer, Hw, applyOp_get by done. by destruct (runLog log).
Qed.

Lemma kv_absorbs cmds : Service.absorbs cmds.
Proof.
  intros k op s Hs Hin. unfold Service.replayed in Hs. rewrite kv_replay_runLog in Hs. injection Hs as <-.
  change (foldl _ _ _) with (runLog (take (Z.to_nat k) cmds)).
  pose proof (execute_again _ op Hin) as E. exists (execute op (runLog (take (Z.to_nat k) cmds))).2.
  cbn [Service.exec machine]. by rewrite <- E at 2; destruct (execute _ _).
Qed.

(** C35: whatever a server goes through - commands handed over in order, snapshots taken,
    handed over and installed (also in the middle of a batch of older commands, the rest of
    which then still arrives), Raft activity, crashes and restarts - after applying [k]
    entries its state is the one obtained by executing the first [k] committed commands
    from scratch; in particular replicas that applied the same prefix agree. *)
Theorem state_is_replay n i max cmds kv k :
  Service.run true n i max cmds kv k ->
  Service.st kv = runLog (take (Z.to_nat k) cmds).
Proof.
  intros H%Service.run_replay; [|intros _; apply kv_absorbs]. pose proof (Service.ri_state _ _ _ H) as Hs.
  unfold Service.replayed in Hs. rewrite kv_replay_runLog in Hs. by injection Hs.
Qed.
End durable.

(** ** Concrete codecs and a concrete history *)
Module Concrete.
#[export] Instance applyResult_ser : Serial.Ser applyResult :=
  Serial.ser_via (fun r => (ar_Err r, ar_Value r, ar_ClientId r, ar_SeqId r))
    (fun '(a, b, c, d) => Build_applyResult a b c d).
#[export] Instance applyResult_ser_laws : Serial.SerLaws applyResult.
Proof. apply Serial.ser_via_laws. by intros []. Qed.
#[export] Instance lastReply_ser : Serial.Ser lastReply :=
  Serial.ser_via (fun r => (lr_SeqId r, lr_Reply r)) (fun '(a, b) => Build_lastReply a b).
#[export] Instance lastReply_ser_laws : Serial.SerLaws lastReply.
Proof. apply Serial.ser_via_laws. by intros []. Qed.
#[export] Instance Op_ser : Serial.Ser Op :=
  Serial.ser_via (fun o => (OpType o, Key o, Value o, ClientId o, SeqId o))
    (fun '(a, b, c, d, e) => Build_Op a b c d e).
#[export] Instance Op_ser_laws : Serial.SerLaws Op.
Proof. apply Serial.ser_via_laws. by intros []. Qed.
#[export] Instance Store_ser : Serial.Ser Store :=
  Serial.ser_via (fun s => (kvStore s, dupTable s)) (fun '(a, b) => Build_Store a b).
#[export] Instance Store_ser_laws : Serial.SerLaws Store.
Proof. apply Serial.ser_via_laws. by intros []. Qed.
#[export] Instance raft_codec : Codec (RaftPersist Op) := Serial.codec _.
#[export] Instance raft_codec_laws : CodecLaws (RaftPersist Op) := Serial.codec_laws _.
#[export] Instance store_codec : Codec Store := Serial.codec _.
#[export] Instance store_codec_laws : CodecLaws Store := Serial.codec_laws _.

(** Client 1 appends twice, its first append retried in between; client 2 puts. *)
Definition app1 : Op :=
  {| OpType := "Append"; Key := "x"; Value := "a"; ClientId := 1; SeqId := 1 |}.
Definition app2 : Op :=
  {| OpType := "Append"; Key := "x"; Value := "b"; ClientId := 1; SeqId := 2 |}.
Definition put : Op :=
  {| OpType := "Put"; Key := "y"; Value := "c"; ClientId := 2; SeqId := 1 |}.
Definition get : Op :=
  {| OpType := "Get"; Key := "x"; Value := ""; ClientId := 2; SeqId := 2 |}.
Definition history : list Op := [app1; put; app1; app2; app2].

(** Decide [clerk_order] position by position. *)
Fixpoint orderedb (h ops : list Op) : bool :=
  match ops with
  | [] => true
  | op :: ops =>
      (negb (isWrite op) || seenIn h op ||
       forallb (fun o => negb (isWrite o) || negb (ClientId o =? ClientId op)
                         || (SeqId o <? SeqId op)) h) && orderedb (h ++ [op]) ops
  end.

Lemma orderedb_sound h ops : orderedb h ops = true ->
  forall pre op post, ops = pre ++ op :: post -> isWrite op = true ->
  seenIn (h ++ pre) op = false ->
  forall o, o ∈ h ++ pre -> isWrite o = true -> ClientId o = ClientId op -> SeqId o < SeqId op.
Proof.
  revert h. induction ops as [|x ops IH]; intros h Ho [|p pre] op post E Hw Hs o Hin Hwo Hc;
    try done; cbn in Ho; injection E as -> ->; apply andb_true_iff in Ho as [H1 H2].
  - rewrite app_nil_r in *. rewrite Hw, Hs in H1. cbn in H1. rewrite forallb_forall in H1.
    apply list_elem_of_In, H1 in Hin. rewrite Hwo in Hin. breflect. lia.
  - assert (h ++ p :: pre = (h ++ [p]) ++ pre) as E by (by rewrite <- (assoc_L (++))).
    rewrite E in *. by eapply IH.
Qed.

Lemma history_ordered : clerk_order history.
Proof. intros pre op post. apply (orderedb_sound [] history eq_refl pre op post). Qed.

(** A server with a snapshot threshold of one byte receives two commands, applies
    the first, snapshots, crashes, restarts and applies the second. *)
Definition cmds : list Op := [app1; put].
Definition server : Type := Service.Server Op Store applyResult (Z * Z).
Definition kv0 : server := StartKVServer 3 0 Persister.MakePersister 1 0.
Definition nd0 : Node Op := {| raft := Service.rf kv0; elections := ∅; batch := None |}.
Definition args : AppendEntriesArgs Op :=
  {| ae_Term := 1; ae_LeaderId := 1; ae_PrevLogIndex := 0; ae_PrevLogTerm := 0;
     ae_Entries := [Entry 1 app1; Entry 1 put]; ae_LeaderCommit := 2 |}.
Definition rf1 : Raft Op := default (raft nd0) (fst <$> AppendEntries 0 args (raft nd0)).
Definition nd1 : Node Op := RaftLocal.with_rf rf1 nd0.
Definition kv1 : server := Service.with_rf (raft nd1) kv0.
Definition kv2 : server := default kv1 (fst <$> applier (Service.commandMsg 1 app1) kv1).
Definition kv3 : server := StartKVServer 3 0 (persister (Service.rf kv2)) 1 5.
(** ... after which its first command comes once more. *)
Definition kv3' : server := default kv3 (fst <$> applier (Service.commandMsg 1 app1) kv3).
Definition kv4 : server := default kv3 (fst <$> applier (Service.commandMsg 2 put) kv3).

Lemma run1 : Service.run true 3 0 1 cmds kv1 0.
Proof.
  unfold kv1. eapply (Service.run_raft true 3 0 1 cmds kv0 0 nd0
    (EvAppendEntries args {| aer_Term := 1; aer_Success := true; aer_ConflictTerm := 0;
                             aer_ConflictIndex := 0 |}) nd1).
  - apply Service.run_start.
  - reflexivity.
  - apply (step_AppendEntries nd0 0); [done|]. vm_compute. reflexivity.
  - reflexivity.
Qed.

Lemma run2 : Service.run true 3 0 1 cmds kv2 1.
Proof.
  apply (Service.run_command true 3 0 1 cmds kv1 0 app1 kv2 None); [apply run1|reflexivity|].
  vm_compute. reflexivity.
Qed.

Lemma run3 : Service.run true 3 0 1 cmds kv3 1.
Proof.
  pose proof (Service.run_crash true 3 0 1 cmds kv2 1 5 run2) as H.
  replace (lastIncludedIndex (Service.rf kv2)) with 1 in H by (vm_compute; reflexivity).
  exact H.
Qed.

Lemma run3' : Service.run true 3 0 1 cmds kv3' 1.
Proof.
  apply (Service.run_late true 3 0 1 cmds kv3 1 0 app1 kv3' None eq_refl run3);
    [vm_compute; by split|lia|reflexivity|vm_compute; reflexivity].
Qed.
End Concrete.
Import Concrete.

Lemma writes_exactly_once_witness :
  kvStore (runLog history) !! "x"%string = Some "ab"%string /\
  kvStore (runLog history) = applyAll [app1; put; app2].
Proof.
  split; [vm_compute; reflexivity|].
  apply (writes_exactly_once history history_ordered).
Defined.

Lemma read_sees_log_witness :
  (execute get (runLog history)).2 = result OK "ab" get.
Proof.
  rewrite (read_sees_log history get history_ordered eq_refl); [vm_compute; reflexivity|].
  intros o Ho Hw Hc. repeat (apply elem_of_cons in Ho as [->|Ho]; [vm_compute in *; congruence|]).
  by inv Ho.
Defined.

Lemma retry_same_reply_witness :
  (execute app1 (runLog ([] ++ app1 :: [put]))).2 = result OK "" app1.
Proof.
  rewrite (retry_same_reply [] app1 [put] eq_refl eq_refl); [vm_compute; reflexivity|].
  intros o Ho Hw Hc. apply list_elem_of_singleton in Ho as ->. vm_compute in Hc. congruence.
Defined.

Lemma state_is_replay_witness :
  lastIncludedIndex (Service.rf kv3') = 1 /\
  Service.st kv3' = runLog [app1] /\
  kvStore (Service.st kv3') !! "x"%string = Some "a"%string.
Proof.
  split; [vm_compute; reflexivity|].
  split; [exact (state_is_replay 3 0 1 cmds kv3' 1 run3')|].
  rewrite (state_is_replay 3 0 1 cmds kv3' 1 run3'). vm_compute. reflexivity.
Defined.
