(* ===== verification/ShardConfig.v ===== *)
(** * Shard configurations and their rebalancing (src/src/shardctrler)

    The [Config] record of common.go, [sortedGIDs], [rebalance] and
    [cloneLatestConfig] of server.go.  Go iterates over a map in an order that
    differs from run to run; the class [MapOrder] stands for the order each
    [range] happens to take, and the theorems hold for every lawful one.

    The theorems: rebalancing never panics, every shard ends up on a member group,
    the loads are exactly [avg] or [avg+1], the result does not depend on the
    iteration order, and no assignment with the same loads moves fewer shards. *)
From S2P Require Import Prelude.

Definition NShards : nat := 10.

Record Config := {
  Num : Z;
  Shards : list Z;                    (* [NShards]int: shard -> gid *)
  Groups : gmap Z (list string);      (* gid -> servers *)
}.

#[export] Instance Config_eq_dec : EqDecision Config.
Proof. solve_decision. Defined.

(** The zero value [Config{}] (its nil map reads as empty). *)
Definition Config_zero : Config :=
  {| Num := 0; Shards := replicate NShards 0; Groups := ∅ |}.

Definition with_Shards (l : list Z) (cfg : Config) : Config :=
  {| Num := Num cfg; Shards := l; Groups := Groups cfg |}.
Definition with_Groups (g : gmap Z (list string)) (cfg : Config) : Config :=
  {| Num := Num cfg; Shards := Shards cfg; Groups := g |}.

(** The keys of a map in the order a [range] loop visits them. *)
Class MapOrder := range_keys : forall {A}, gmap Z A -> list Z.
Class MapOrderLaws `{MapOrder} : Prop :=
  range_keys_perm : forall {A} (m : gmap Z A), range_keys m ≡ₚ (map_to_list m).*1.

(** One such order: the one of [map_to_list]. *)
Definition listed_order : MapOrder := fun A m => (map_to_list m).*1.
Lemma listed_order_laws : @MapOrderLaws listed_order.
Proof. by intros A m. Qed.

(** [m[k]] on a map of slices: nil when absent. *)
Definition mget {A} (m : gmap Z (list A)) (k : Z) : list A := default [] (m !! k).

Section ops.
Context `{MapOrder}.

Definition sortedGIDs (groups : gmap Z (list string)) : list Z :=
  merge_sort Z.le (range_keys groups).

(** [target] of the [i]-th group in gid order. *)
Definition target (avg extra : Z) (i : nat) : Z :=
  if Z.of_nat i <? extra then avg + 1 else avg.

(** The loop over [cfg.Shards] that fills [owned] and [unassigned]. *)
Fixpoint collect (shard : Z) (gids : list Z) (owned : gmap Z (list Z))
    (unassigned : list Z) : gmap Z (list Z) * list Z :=
  match gids with
  | [] => (owned, unassigned)
  | gid :: gids =>
      if (gid =? 0) || bool_decide (owned !! gid = None)
      then collect (shard + 1) gids owned (unassigned ++ [shard])
      else collect (shard + 1) gids (<[gid := mget owned gid ++ [shard]]> owned) unassigned
  end.

(** Cut every group down to its target. *)
Fixpoint excessLoop (avg extra : Z) (i : nat) (gids : list Z)
    (owned : gmap Z (list Z)) (pool : list Z) : option (gmap Z (list Z) * list Z) :=
  match gids with
  | [] => Some (owned, pool)
  | gid :: gids =>
      let t := target avg extra i in
      let shards := mget owned gid in
      if t <? zlen shards then
        more ← slice_from shards t;
        keep ← slice_to shards t;
        excessLoop avg extra (S i) gids (<[gid := keep]> owned) (pool ++ more)
      else excessLoop avg extra (S i) gids owned pool
  end.

(** [for len(owned[gid]) < target]; [fuel] bounds its iterations. *)
Fixpoint fillGroup (fuel : nat) (t gid : Z) (owned : gmap Z (list Z)) (pool : list Z) :
    option (gmap Z (list Z) * list Z) :=
  match fuel with
  | O => Some (owned, pool)
  | S fuel =>
      if zlen (mget owned gid) <? t then
        p ← zget pool 0;
        rest ← slice_from pool 1;
        fillGroup fuel t gid (<[gid := mget owned gid ++ [p]]> owned) rest
      else Some (owned, pool)
  end.

Fixpoint fillLoop (avg extra : Z) (i : nat) (gids : list Z)
    (owned : gmap Z (list Z)) (pool : list Z) : option (gmap Z (list Z) * list Z) :=
  match gids with
  | [] => Some (owned, pool)
  | gid :: gids =>
      let t := target avg extra i in
      '(owned, pool) ← fillGroup (Z.to_nat t) t gid owned pool;
      fillLoop avg extra (S i) gids owned pool
  end.

(** The inner and the outer loop that write [owned] back to [cfg.Shards]. *)
Fixpoint writeShards (gid : Z) (shards : list Z) (l : list Z) : option (list Z) :=
  match shards with
  | [] => Some l
  | s :: shards => l ← zset l s gid; writeShards gid shards l
  end.

Fixpoint writeBack (owned : gmap Z (list Z)) (gids : list Z) (l : list Z) :
    option (list Z) :=
  match gids with
  | [] => Some l
  | gid :: gids => l ← writeShards gid (mget owned gid) l; writeBack owned gids l
  end.

(** [rebalance] up to the write-back: who owns what (server.go 330-377). *)
Definition distribute (nGroups : Z) (gids shards : list Z) : option (gmap Z (list Z)) :=
  let avg := Z.of_nat NShards / nGroups in
  let extra := Z.of_nat NShards mod nGroups in
  let owned : gmap Z (list Z) := foldl (fun m gid => <[gid := []]> m) ∅ gids in
  let '(owned, unassigned) := collect 0 shards owned [] in
  '(owned, pool) ← excessLoop avg extra 0 gids owned unassigned;
  '(owned, pool) ← fillLoop avg extra 0 gids owned pool;
  Some owned.

Definition rebalance (cfg : Config) : option Config :=
  let nGroups := Z.of_nat (size (Groups cfg)) in
  if nGroups =? 0 then Some (with_Shards (const 0 <$> Shards cfg) cfg)
  else
    owned ← distribute nGroups (sortedGIDs (Groups cfg)) (Shards cfg);
    l ← writeBack owned (range_keys owned) (Shards cfg);
    Some (with_Shards l cfg).

(** [cloneLatestConfig] on the latest configuration. *)
Definition cloneConfig (latest : Config) : Config :=
  {| Num := Num latest + 1;
     Shards := Shards latest;
     Groups := (fun servers => gocopy (replicate (length servers) EmptyString) servers)
                 <$> Groups latest |}.
End ops.

(** ** The loops, one by one *)

(** All shards listed in [owned], group after group. *)
Definition listed (owned : gmap Z (list Z)) (gids : list Z) : list Z :=
  concat (mget owned <$> gids).

(** The positions (from [s] on) at which [l] names the group [g]. *)
Fixpoint held (s : Z) (l : list Z) (g : Z) : list Z :=
  match l with
  | [] => []
  | x :: l => if x =? g then s :: held (s + 1) l g else held (s + 1) l g
  end.

Lemma mget_insert_eq {A} (m : gmap Z (list A)) k x : mget (<[k := x]> m) k = x.
Proof. unfold mget. by rewrite lookup_insert_eq. Qed.

Lemma mget_insert_ne {A} (m : gmap Z (list A)) k k' x :
  k <> k' -> mget (<[k := x]> m) k' = mget m k'.
Proof. intros. unfold mget. by rewrite lookup_insert_ne. Qed.

Lemma listed_ext owned owned' gids :
  (forall g, g ∈ gids -> mget owned' g = mget owned g) ->
  listed owned' gids = listed owned gids.
Proof.
  intros Hext. unfold listed. f_equal. apply list_fmap_ext.
  intros k g Hg. apply Hext. by eapply list_elem_of_lookup_2.
Qed.

Lemma listed_nil owned gids : (forall g, mget owned g = []) -> listed owned gids = [].
Proof.
  intros Hm. unfold listed. induction gids as [|g gids IH]; cbn; [done|]. by rewrite Hm.
Qed.

(** Single out one group. *)
Lemma listed_split owned gids g :
  NoDup gids -> g ∈ gids ->
  exists rest, forall owned',
    (forall g', g' <> g -> mget owned' g' = mget owned g') ->
    listed owned' gids ≡ₚ mget owned' g ++ rest.
Proof.
  intros HN [l1 [l2 ->]]%list_elem_of_split. exists (listed owned l1 ++ listed owned l2).
  intros owned' Hext. apply NoDup_app in HN as (_ & Hd & HN2).
  apply NoDup_cons in HN2 as [Hn2 _].
  unfold listed at 1. rewrite fmap_app, concat_app. cbn.
  fold (listed owned' l1) (listed owned' l2).
  rewrite (listed_ext owned owned' l1), (listed_ext owned owned' l2).
  - by rewrite !(assoc_L (++)), (Permutation_app_comm (listed owned l1)).
  - intros g' Hg'. apply Hext. by intros ->.
  - intros g' Hg'. apply Hext. intros ->. apply (Hd g Hg'). constructor.
Qed.

Lemma listed_insert owned gids g x :
  NoDup gids -> g ∈ gids ->
  exists rest, listed owned gids ≡ₚ mget owned g ++ rest /\
               listed (<[g := x]> owned) gids ≡ₚ x ++ rest.
Proof.
  intros HN Hg. destruct (listed_split owned gids g HN Hg) as [rest Hr]. exists rest. split.
  - by apply Hr.
  - rewrite Hr, mget_insert_eq; [done|]. intros. by apply mget_insert_ne.
Qed.

Lemma elem_of_listed owned gids s :
  s ∈ listed owned gids <-> exists g, g ∈ gids /\ s ∈ mget owned g.
Proof.
  unfold listed. rewrite list_elem_of_In, in_concat. split.
  - intros (l & Hl%list_elem_of_In & Hs%list_elem_of_In).
    apply list_elem_of_fmap in Hl as (g & -> & Hg). eauto.
  - intros (g & Hg & Hs). exists (mget owned g). rewrite <- !list_elem_of_In.
    split; [|done]. apply list_elem_of_fmap. eauto.
Qed.

(** A shard is listed under one group only. *)
Lemma listed_disjoint owned gids g1 g2 s :
  NoDup gids -> NoDup (listed owned gids) -> g1 ∈ gids -> g2 ∈ gids ->
  s ∈ mget owned g1 -> s ∈ mget owned g2 -> g1 = g2.
Proof.
  intros HN HL H1 H2 Hs1 Hs2. destruct (decide (g1 = g2)) as [|Hne]; [done|].
  destruct (listed_split owned gids g1 HN H1) as [rest Hr].
  assert (s ∈ rest) as Hrest.
  { assert (s ∈ listed (<[g1 := []]> owned) gids) as Hl.
    { apply elem_of_listed. exists g2. by rewrite mget_insert_ne by done. }
    rewrite Hr in Hl; [by rewrite mget_insert_eq in Hl|].
    intros. by apply mget_insert_ne. }
  rewrite (Hr owned) in HL by done. apply NoDup_app in HL as (_ & Hd & _).
  by destruct (Hd s Hs1).
Qed.

Lemma collect_spec gids s l owned un :
  NoDup gids -> (forall g, g ∈ gids <-> is_Some (owned !! g)) ->
  let '(owned', un') := collect s l owned un in
  (forall g, is_Some (owned' !! g) <-> is_Some (owned !! g)) /\
  (forall g, mget owned' g = mget owned g ++
     (if (g =? 0) || bool_decide (owned !! g = None) then [] else held s l g)) /\
  un' ++ listed owned' gids ≡ₚ
    un ++ listed owned gids ++ ((fun k => s + Z.of_nat k) <$> seq 0 (length l)).
Proof.
  intros HN. revert s owned un. induction l as [|x l IH]; intros s owned un Hdom.
  { cbn. split_and!; [done| |by rewrite app_nil_r].
    intros g. case (_ || _); by rewrite app_nil_r. }
  assert (((fun k => s + Z.of_nat k) <$> seq 0 (length (x :: l))) =
          s :: ((fun k => s + 1 + Z.of_nat k) <$> seq 0 (length l))) as ->.
  { cbn. f_equal; [lia|]. rewrite <- fmap_S_seq, <- list_fmap_compose.
    apply list_fmap_ext. intros. cbn. lia. }
  cbn [collect held].
  destruct ((x =? 0) || bool_decide (owned !! x = None)) eqn:Ex.
  - specialize (IH (s + 1) owned (un ++ [s]) Hdom).
    destruct (collect (s + 1) l owned (un ++ [s])) as [owned' un'].
    destruct IH as (IH1 & IH2 & IH3). split_and!; [done| |].
    + intros g. rewrite IH2. f_equal.
      destruct ((g =? 0) || bool_decide (owned !! g = None)) eqn:Eg; [done|].
      destruct (Z.eqb_spec x g) as [->|]; [congruence|done].
    + rewrite IH3, <- !(assoc_L (++)). apply Permutation_app_head. cbn.
      apply Permutation_middle.
  - breflect. assert (is_Some (owned !! x)) as Hx by (by apply not_eq_None_Some).
    set (owned1 := <[x := mget owned x ++ [s]]> owned).
    assert (forall g, is_Some (owned1 !! g) <-> is_Some (owned !! g)) as Hd1.
    { intros g. unfold owned1. rewrite lookup_insert_is_Some'. naive_solver. }
    specialize (IH (s + 1) owned1 un (fun g => iff_trans (Hdom g) (iff_sym (Hd1 g)))).
    destruct (collect (s + 1) l owned1 un) as [owned' un'].
    destruct IH as (IH1 & IH2 & IH3). split_and!.
    + intros g. rewrite IH1. apply Hd1.
    + intros g. rewrite IH2.
      assert (bool_decide (owned1 !! g = None) = bool_decide (owned !! g = None)) as ->.
      { apply bool_decide_ext. by rewrite !eq_None_not_Some, Hd1. }
      destruct (x =? g) eqn:Exg; breflect.
      * subst g. unfold owned1. rewrite mget_insert_eq.
        rewrite (proj2 (Z.eqb_neq x 0)), bool_decide_eq_false_2 by done.
        by rewrite <- (assoc_L (++)).
      * unfold owned1. by rewrite mget_insert_ne.
    + rewrite IH3.
      destruct (listed_insert owned gids x (mget owned x ++ [s]) HN) as (rest & R1 & R2);
        [by apply Hdom|].
      unfold owned1. rewrite R1, R2. apply Permutation_app_head.
      rewrite <- !(assoc_L (++)). apply Permutation_app_head. cbn.
      apply Permutation_middle.
Qed.

Lemma excessLoop_spec avg extra all i gids owned pool :
  0 <= avg -> NoDup all -> NoDup gids -> gids ⊆ all ->
  (forall g, g ∈ all -> is_Some (owned !! g)) ->
  exists owned' pool',
    excessLoop avg extra i gids owned pool = Some (owned', pool') /\
    (forall g, is_Some (owned' !! g) <-> is_Some (owned !! g)) /\
    (forall k g, gids !! k = Some g ->
       mget owned' g = take (Z.to_nat (target avg extra (i + k))) (mget owned g)) /\
    (forall g, g ∉ gids -> mget owned' g = mget owned g) /\
    pool' ++ listed owned' all ≡ₚ pool ++ listed owned all.
Proof.
  intros Ha HA. revert i owned pool.
  induction gids as [|g gids IH]; intros i owned pool HN Hsub Hdom; cbn.
  { exists owned, pool. split_and!; try done. }
  assert (g ∈ all) as Hg by (apply Hsub; constructor).
  assert (gids ⊆ all) as Hsub' by (intros x ?; apply Hsub; by constructor).
  apply NoDup_cons in HN as [Hnin HN].
  assert (0 <= target avg extra i) as Ht by (unfold target; bcase; lia).
  assert (exists owned1 pool1,
    (if target avg extra i <? zlen (mget owned g)
     then more ← slice_from (mget owned g) (target avg extra i);
          keep ← slice_to (mget owned g) (target avg extra i);
          excessLoop avg extra (S i) gids (<[g := keep]> owned) (pool ++ more)
     else excessLoop avg extra (S i) gids owned pool) =
      excessLoop avg extra (S i) gids owned1 pool1 /\
    (forall g', is_Some (owned1 !! g') <-> is_Some (owned !! g')) /\
    mget owned1 g = take (Z.to_nat (target avg extra i)) (mget owned g) /\
    (forall g', g' <> g -> mget owned1 g' = mget owned g') /\
    pool1 ++ listed owned1 all ≡ₚ pool ++ listed owned all)
    as (owned1 & pool1 & -> & D1 & E1 & F1 & P1).
  { bcase.
    - rewrite slice_from_Some, slice_to_Some by lia. cbn [mbind option_bind].
      eexists _, _. split_and!; [done| | | |].
      + intros g'. rewrite lookup_insert_is_Some'. naive_solver.
      + apply mget_insert_eq.
      + intros. by apply mget_insert_ne.
      + destruct (listed_insert owned all g
          (take (Z.to_nat (target avg extra i)) (mget owned g)) HA Hg) as (rest & R1 & R2).
        rewrite R1, R2, <- (assoc_L (++)). apply Permutation_app_head.
        rewrite (assoc_L (++)). apply Permutation_app_tail.
        rewrite Permutation_app_comm. by rewrite take_drop.
    - exists owned, pool. split_and!; try done.
      rewrite take_ge; [done|]. unfold zlen in *. lia. }
  destruct (IH (S i) owned1 pool1 HN Hsub') as (owned' & pool' & E & D & T & O & P).
  { intros x Hx. apply D1. by apply Hdom. }
  exists owned', pool'. split_and!; [done| | | |].
  - intros x. by rewrite D, D1.
  - intros [|k] g' Hk; cbn in Hk.
    + injection Hk as <-. rewrite O, E1 by done. by rewrite Nat.add_0_r.
    + assert (g' <> g) as Hne.
      { intros ->. apply Hnin. by eapply list_elem_of_lookup_2. }
      rewrite (T k g' Hk), F1 by done. do 3 f_equal. lia.
  - intros x Hx. apply not_elem_of_cons in Hx as [? ?]. by rewrite O, F1.
  - by rewrite P.
Qed.

Lemma fillGroup_spec fuel t gid owned pool all :
  NoDup all -> gid ∈ all -> is_Some (owned !! gid) ->
  0 <= t - zlen (mget owned gid) <= Z.of_nat fuel ->
  t - zlen (mget owned gid) <= zlen pool ->
  exists owned' pool',
    fillGroup fuel t gid owned pool = Some (owned', pool') /\
    (forall g, is_Some (owned' !! g) <-> is_Some (owned !! g)) /\
    mget owned gid `prefix_of` mget owned' gid /\ zlen (mget owned' gid) = t /\
    (forall g, g <> gid -> mget owned' g = mget owned g) /\
    zlen pool' = zlen pool - (t - zlen (mget owned gid)) /\
    pool' ++ listed owned' all ≡ₚ pool ++ listed owned all.
Proof.
  intros HA Hg. revert owned pool. induction fuel as [|fuel IH]; intros owned pool Hd Hf Hp; cbn.
  { exists owned, pool. split_and!; try done; lia. }
  bcase.
  - destruct pool as [|p pool]; [rewrite zlen_nil in Hp; lia|]. cbn [zget].
    rewrite slice_from_Some by (rewrite zlen_cons; pose proof (zlen_nonneg pool); lia).
    cbn.
    set (owned1 := <[gid := mget owned gid ++ [p]]> owned).
    assert (zlen (mget owned1 gid) = zlen (mget owned gid) + 1) as Hl.
    { unfold owned1. rewrite mget_insert_eq, zlen_app. done. }
    rewrite zlen_cons in *.
    destruct (IH owned1 pool) as (owned' & pool' & E & D & Px & T & O & Lp & P);
      [unfold owned1; rewrite lookup_insert_eq; by eexists|lia|lia|].
    exists owned', pool'. split_and!; [done| | |done| |lia|].
    + intros g. rewrite D. unfold owned1. rewrite lookup_insert_is_Some'. naive_solver.
    + etrans; [|done]. unfold owned1. rewrite mget_insert_eq. by eexists.
    + intros g Hne. rewrite O by done. unfold owned1. by apply mget_insert_ne.
    + rewrite P. destruct (listed_insert owned all gid (mget owned gid ++ [p]) HA Hg)
        as (rest & R1 & R2). unfold owned1. rewrite R1, R2. cbn.
      rewrite <- !(assoc_L (++)), (assoc_L (++) pool), (assoc_L (++) pool). cbn.
      symmetry. apply Permutation_middle.
  - exists owned, pool. split_and!; try done; lia.
Qed.

(** What the groups still need. *)
Fixpoint need (avg extra : Z) (i : nat) (gids : list Z) (owned : gmap Z (list Z)) : Z :=
  match gids with
  | [] => 0
  | g :: gids => (target avg extra i - zlen (mget owned g)) + need avg extra (S i) gids owned
  end.

Lemma need_ext avg extra i gids owned owned' :
  (forall g, g ∈ gids -> mget owned' g = mget owned g) ->
  need avg extra i gids owned' = need avg extra i gids owned.
Proof.
  revert i. induction gids as [|g gids IH]; intros i Hext; cbn; [done|].
  rewrite Hext, IH; [done| |constructor]. intros. apply Hext. by constructor.
Qed.

Lemma need_nonneg avg extra i gids owned :
  (forall k g, gids !! k = Some g -> zlen (mget owned g) <= target avg extra (i + k)) ->
  0 <= need avg extra i gids owned.
Proof.
  revert i. induction gids as [|g gids IH]; intros i Hle; cbn; [lia|].
  pose proof (Hle 0%nat g eq_refl) as H0. rewrite Nat.add_0_r in H0.
  enough (0 <= need avg extra (S i) gids owned) by lia. apply IH. intros k g' Hk.
  replace (S i + k)%nat with (i + S k)%nat by lia. by apply Hle.
Qed.

Lemma fillLoop_spec avg extra all i gids owned pool :
  NoDup all -> NoDup gids -> gids ⊆ all ->
  (forall g, g ∈ all -> is_Some (owned !! g)) ->
  (forall k g, gids !! k = Some g -> zlen (mget owned g) <= target avg extra (i + k)) ->
  zlen pool = need avg extra i gids owned ->
  exists owned',
    fillLoop avg extra i gids owned pool = Some (owned', []) /\
    (forall g, is_Some (owned' !! g) <-> is_Some (owned !! g)) /\
    (forall k g, gids !! k = Some g ->
       mget owned g `prefix_of` mget owned' g /\
       zlen (mget owned' g) = target avg extra (i + k)) /\
    (forall g, g ∉ gids -> mget owned' g = mget owned g) /\
    listed owned' all ≡ₚ pool ++ listed owned all.
Proof.
  intros HA. revert i owned pool.
  induction gids as [|g gids IH]; intros i owned pool HN Hsub Hdom Hle Hp; cbn.
  { cbn in Hp. destruct pool; [|unfold zlen in Hp; cbn in Hp; lia].
    exists owned. by split_and!. }
  assert (g ∈ all) as Hg by (apply Hsub; constructor).
  assert (gids ⊆ all) as Hsub' by (intros x ?; apply Hsub; by constructor).
  apply NoDup_cons in HN as [Hnin HN]. cbn [need] in Hp.
  pose proof (Hle 0%nat g eq_refl) as H0. rewrite Nat.add_0_r in H0.
  assert (forall k g', gids !! k = Some g' -> zlen (mget owned g') <= target avg extra (S i + k))
    as Hle'.
  { intros k g' Hk. replace (S i + k)%nat with (i + S k)%nat by lia. by apply Hle. }
  pose proof (need_nonneg avg extra (S i) gids owned Hle').
  pose proof (zlen_nonneg (mget owned g)).
  destruct (fillGroup_spec (Z.to_nat (target avg extra i)) (target avg extra i) g owned pool all)
    as (owned1 & pool1 & -> & D1 & X1 & T1 & O1 & L1 & P1); [done|done|by apply Hdom|lia|lia|].
  cbn [mbind option_bind].
  assert (forall g', g' ∈ gids -> mget owned1 g' = mget owned g') as Hext.
  { intros g' Hg'. apply O1. by intros ->. }
  destruct (IH (S i) owned1 pool1 HN Hsub') as (owned' & E & D & T & O & P).
  - intros x Hx. apply D1. by apply Hdom.
  - intros k g' Hk. rewrite Hext by (by eapply list_elem_of_lookup_2). by apply Hle'.
  - rewrite L1, (need_ext _ _ _ _ owned owned1) by done. lia.
  - exists owned'. split_and!; [done| | | |].
    + intros x. by rewrite D, D1.
    + intros [|k] g' Hk; cbn in Hk.
      * injection Hk as <-. rewrite O by done. by rewrite Nat.add_0_r.
      * replace (i + S k)%nat with (S i + k)%nat by lia.
        destruct (T k g' Hk) as [TX TL]. split; [|done].
        by rewrite <- (Hext g') by (by eapply list_elem_of_lookup_2).
    + intros x [? ?]%not_elem_of_cons. by rewrite O, O1.
    + by rewrite P.
Qed.

Lemma writeShards_spec gid shards l :
  (forall s, s ∈ shards -> 0 <= s < zlen l) ->
  exists l', writeShards gid shards l = Some l' /\ zlen l' = zlen l /\
    forall s, zget l' s = if bool_decide (s ∈ shards) then Some gid else zget l s.
Proof.
  revert l. induction shards as [|x shards IH]; intros l Hr; cbn; [by exists l|].
  assert (0 <= x < zlen l) as Hx by (apply Hr; constructor).
  rewrite zset_Some by done. cbn.
  destruct (IH (<[Z.to_nat x := gid]> l)) as (l' & E & L & G).
  { intros s ?. rewrite zlen_insert. apply Hr. by constructor. }
  exists l'. rewrite zlen_insert in L. split_and!; [done|done|].
  intros s. rewrite G, zget_insert. unfold zlen in *.
  case_bool_decide as H1.
  - rewrite bool_decide_eq_true_2; [done|by constructor].
  - case_decide as H2.
    + rewrite bool_decide_eq_true_2; [done|]. destruct H2 as [-> _].
      rewrite Z2Nat.id by lia. constructor.
    + rewrite bool_decide_eq_false_2; [done|].
      intros [->|?]%elem_of_cons; [|done]. apply H2. lia.
Qed.

Lemma writeBack_spec owned gids l :
  (forall g s, g ∈ gids -> s ∈ mget owned g -> 0 <= s < zlen l) ->
  (forall g1 g2 s, g1 ∈ gids -> g2 ∈ gids ->
     s ∈ mget owned g1 -> s ∈ mget owned g2 -> g1 = g2) ->
  exists l', writeBack owned gids l = Some l' /\ zlen l' = zlen l /\
    (forall g s, g ∈ gids -> s ∈ mget owned g -> zget l' s = Some g) /\
    (forall s, (forall g, g ∈ gids -> s ∉ mget owned g) -> zget l' s = zget l s).
Proof.
  revert l. induction gids as [|g gids IH]; intros l Hr Hd; cbn.
  { exists l. split_and!; try done. by intros ? ? ?%not_elem_of_nil. }
  destruct (writeShards_spec g (mget owned g) l) as (l1 & -> & L1 & G1).
  { intros s. apply Hr. constructor. }
  cbn [mbind option_bind].
  destruct (IH l1) as (l' & E & L & G & O).
  { intros g' s ? ?. rewrite L1. eapply Hr; [by constructor|done]. }
  { intros g1 g2 s ? ?. apply Hd; by constructor. }
  exists l'. split_and!; [done|lia| |].
  - intros g' s [->|Hg']%elem_of_cons Hs; [|by apply G].
    destruct (decide (g ∈ gids)) as [Hin|Hnin]; [by apply G|].
    rewrite O, G1, bool_decide_eq_true_2; [done|done|].
    intros g' Hg' Hs'. apply Hnin. rewrite (Hd g g' s); [done|..]; try done; by constructor.
  - intros s Hs. rewrite O, G1, bool_decide_eq_false_2; [done| |].
    + apply Hs. constructor.
    + intros. apply Hs. by constructor.
Qed.

(** ** Positions and loads *)

(** The number of shards a configuration gives to [g]. *)
Definition load (l : list Z) (g : Z) : Z := countb (fun x => x =? g) l.

Lemma held_lookup s0 l g s : s ∈ held s0 l g <-> s0 <= s /\ zget l (s - s0) = Some g.
Proof.
  revert s0. induction l as [|x l IH]; intros s0; cbn [held].
  - rewrite elem_of_nil. split; [done|]. intros [_ H%zget_Some_lt]. unfold zlen in H. cbn in H. lia.
  - assert (s0 <= s -> zget (x :: l) (s - s0) =
      if s =? s0 then Some x else zget l (s - (s0 + 1))) as Hz.
    { intros Hle. bcase.
      - subst. by rewrite Z.sub_diag.
      - unfold zget. do 2 (bcase; [|lia]).
        replace (Z.to_nat (s - s0)) with (S (Z.to_nat (s - (s0 + 1)))) by lia. done. }
    split.
    + intros Hs. assert (s = s0 /\ x = g \/ s ∈ held (s0 + 1) l g) as [[-> ->]|Hin].
      { destruct (Z.eqb_spec x g); [apply elem_of_cons in Hs|]; naive_solver. }
      * split; [done|]. rewrite Hz, Z.eqb_refl by done. done.
      * apply IH in Hin as [? Hin]. split; [lia|]. rewrite Hz by lia.
        rewrite (proj2 (Z.eqb_neq s s0)) by lia. done.
    + intros [Hle Hg]. rewrite Hz in Hg by done. destruct (Z.eqb_spec s s0) as [->|].
      * injection Hg as ->. rewrite Z.eqb_refl. constructor.
      * assert (s ∈ held (s0 + 1) l g) by (apply IH; split; [lia|done]).
        bcase; [by constructor|done].
Qed.

Lemma NoDup_held s0 l g : NoDup (held s0 l g).
Proof.
  revert s0. induction l as [|x l IH]; intros s0; cbn; [constructor|].
  bcase; [|done]. constructor; [|done]. intros [? _]%held_lookup. lia.
Qed.

Lemma zlen_held s0 l g : zlen (held s0 l g) = load l g.
Proof.
  unfold load. revert s0. induction l as [|x l IH]; intros s0; cbn; [done|].
  bcase; rewrite ?zlen_cons, IH; lia.
Qed.

Lemma need_listed avg extra i gids owned :
  0 <= extra ->
  need avg extra i gids owned + zlen (listed owned gids) =
    Z.of_nat (length gids) * avg
    + (Z.min extra (Z.of_nat i + Z.of_nat (length gids)) - Z.min extra (Z.of_nat i)).
Proof.
  intros He. revert i. induction gids as [|g gids IH]; intros i; cbn [need length].
  - unfold listed, zlen. cbn. lia.
  - specialize (IH (S i)). unfold listed in *. cbn. rewrite zlen_app. unfold target. bcase; lia.
Qed.

Lemma init_owned (gids : list Z) (m : gmap Z (list Z)) g :
  foldl (fun m gid => <[gid := []]> m) m gids !! g =
    if bool_decide (g ∈ gids) then Some [] else m !! g.
Proof.
  revert m. induction gids as [|x gids IH]; intros m; [done|]. cbn [foldl]. rewrite IH.
  case_bool_decide as H1.
  - rewrite bool_decide_eq_true_2; [done|by constructor].
  - destruct (decide (x = g)) as [->|].
    + rewrite bool_decide_eq_true_2 by constructor. apply lookup_insert_eq.
    + rewrite bool_decide_eq_false_2; [by apply lookup_insert_ne|].
      intros [?|?]%elem_of_cons; congruence.
Qed.

(** The shards a group holds at the start of [rebalance], gid 0 meaning nobody. *)
Definition held0 (l : list Z) (g : Z) : list Z := if g =? 0 then [] else held 0 l g.

Lemma collect_init gids l :
  NoDup gids ->
  let owned0 : gmap Z (list Z) := foldl (fun m gid => <[gid := []]> m) ∅ gids in
  let '(owned, un) := collect 0 l owned0 [] in
  (forall g, is_Some (owned !! g) <-> g ∈ gids) /\
  (forall g, g ∈ gids -> mget owned g = held0 l g) /\
  un ++ listed owned gids ≡ₚ zrange (length l).
Proof.
  intros HN. cbn. set (owned0 := foldl _ _ gids).
  assert (forall g, owned0 !! g = if bool_decide (g ∈ gids) then Some [] else None) as Ho.
  { intros g. unfold owned0. rewrite init_owned. by case_bool_decide. }
  assert (forall g, mget owned0 g = []) as Hm.
  { intros g. unfold mget. rewrite Ho. by case_bool_decide. }
  assert (forall g, g ∈ gids <-> is_Some (owned0 !! g)) as Hdom.
  { intros g. rewrite Ho. case_bool_decide; by split. }
  pose proof (collect_spec gids 0 l owned0 [] HN Hdom) as HC.
  destruct (collect 0 l owned0 []) as [owned1 un]. destruct HC as (D1 & M1 & P1).
  split_and!.
  - intros g. by rewrite D1, Hdom.
  - intros g Hg. rewrite M1, Hm, bool_decide_eq_false_2, orb_false_r; [done|].
    by apply not_eq_None_Some, Hdom.
  - rewrite P1, (listed_nil owned0) by done. done.
Qed.

Lemma distribute_spec n gids l :
  NoDup gids -> Z.of_nat (length gids) = n -> 0 < n -> length l = NShards ->
  exists owned, distribute n gids l = Some owned /\
    (forall g, is_Some (owned !! g) <-> g ∈ gids) /\
    (forall k g, gids !! k = Some g ->
       zlen (mget owned g) = target (Z.of_nat NShards / n) (Z.of_nat NShards mod n) k /\
       take (length (mget owned g)) (held0 l g) `prefix_of` mget owned g) /\
    listed owned gids ≡ₚ zrange NShards.
Proof.
  intros HN Hn Hpos Hlen. unfold distribute.
  set (avg := Z.of_nat NShards / n). set (extra := Z.of_nat NShards mod n).
  assert (0 <= avg) by (apply Z.div_pos; lia).
  assert (0 <= extra < n) as Hex by (apply Z.mod_pos_bound; lia).
  assert (n * avg + extra = Z.of_nat NShards) as Hdiv by (symmetry; apply Z.div_mod; lia).
  pose proof (collect_init gids l HN) as HC. cbn in HC.
  match goal with |- context [collect 0 l ?m []] => destruct (collect 0 l m []) as [owned1 un] end.
  destruct HC as (D1 & M1 & P1).
  destruct (excessLoop_spec avg extra gids 0 gids owned1 un) as
    (owned2 & pool & -> & D2 & T2 & _ & P2); try done; [by intros; apply D1|].
  cbn [mbind option_bind]. rewrite P1, Hlen in P2.
  destruct (fillLoop_spec avg extra gids 0 gids owned2 pool) as
    (owned3 & -> & D3 & T3 & _ & P3); try done.
  { intros g Hg. by apply D2, D1. }
  { intros k g Hk. rewrite (T2 k g Hk), zlen_take. cbn.
    assert (0 <= target avg extra k) by (unfold target; bcase; lia). lia. }
  { pose proof (need_listed avg extra 0 gids owned2 ltac:(lia)) as HL.
    assert (zlen (pool ++ listed owned2 gids) = Z.of_nat NShards) as HT.
    { unfold zlen. by rewrite P2, length_zrange. }
    rewrite zlen_app in HT. lia. }
  cbn [mbind option_bind]. exists owned3. split_and!; [done| | |by rewrite P3].
  - intros g. by rewrite D3, D2, D1.
  - intros k g Hk. destruct (T3 k g Hk) as [X3 L3]. cbn in L3. split; [done|].
    rewrite (T2 k g Hk), M1 in X3 by (by eapply list_elem_of_lookup_2). cbn in X3.
    by replace (length (mget owned3 g)) with (Z.to_nat (target avg extra k))
      by (unfold zlen in L3; lia).
Qed.

Section spec.
Context `{MapOrderLaws}.

Lemma sortedGIDs_perm groups : sortedGIDs groups ≡ₚ (map_to_list groups).*1.
Proof. unfold sortedGIDs. rewrite merge_sort_Permutation. apply range_keys_perm. Qed.

Lemma sortedGIDs_NoDup groups : NoDup (sortedGIDs groups).
Proof. rewrite sortedGIDs_perm. apply NoDup_fst_map_to_list. Qed.

Lemma elem_of_keys {A} (m : gmap Z A) g : g ∈ (map_to_list m).*1 <-> is_Some (m !! g).
Proof.
  rewrite list_elem_of_fmap. split.
  - intros ([k v] & -> & Hk%elem_of_map_to_list). by eexists.
  - intros [v Hv]. exists (g, v). split; [done|]. by apply elem_of_map_to_list.
Qed.

Lemma elem_of_sortedGIDs groups g : g ∈ sortedGIDs groups <-> is_Some (groups !! g).
Proof. rewrite sortedGIDs_perm. apply elem_of_keys. Qed.

Lemma length_sortedGIDs groups : length (sortedGIDs groups) = size groups.
Proof. by rewrite sortedGIDs_perm, length_fmap, length_map_to_list. Qed.

(** What a run of [rebalance] on a configuration with groups has computed. *)
Record rebalanced (cfg : Config) (owned : gmap Z (list Z)) (l' : list Z) : Prop := {
  rb_length : length l' = NShards;
  rb_load k g : sortedGIDs (Groups cfg) !! k = Some g ->
    zlen (mget owned g) =
      target (Z.of_nat NShards / Z.of_nat (size (Groups cfg)))
             (Z.of_nat NShards mod Z.of_nat (size (Groups cfg))) k;
  rb_keep g : is_Some (Groups cfg !! g) ->
    take (length (mget owned g)) (held0 (Shards cfg) g) `prefix_of` mget owned g;
  rb_listed : listed owned (sortedGIDs (Groups cfg)) ≡ₚ zrange NShards;
  rb_shards g s : is_Some (Groups cfg !! g) -> s ∈ mget owned g -> zget l' s = Some g;
}.

Lemma size_pos cfg : Groups cfg <> ∅ -> 0 < Z.of_nat (size (Groups cfg)).
Proof.
  intros Hne. destruct (decide (size (Groups cfg) = 0%nat)) as [Hz|]; [|lia].
  by apply map_size_empty_inv in Hz.
Qed.

Lemma rebalance_spec cfg :
  Groups cfg <> ∅ -> length (Shards cfg) = NShards ->
  exists owned l',
    distribute (Z.of_nat (size (Groups cfg))) (sortedGIDs (Groups cfg)) (Shards cfg)
      = Some owned /\
    rebalance cfg = Some (with_Shards l' cfg) /\ rebalanced cfg owned l'.
Proof.
  intros Hne%size_pos Hlen. unfold rebalance. bcase; [lia|].
  pose proof (sortedGIDs_NoDup (Groups cfg)) as HN.
  destruct (distribute_spec (Z.of_nat (size (Groups cfg))) (sortedGIDs (Groups cfg))
    (Shards cfg)) as (owned & E & D & T & P); try done; [by rewrite length_sortedGIDs|].
  rewrite E. cbn [mbind option_bind].
  assert (range_keys owned ≡ₚ sortedGIDs (Groups cfg)) as HK.
  { rewrite range_keys_perm. apply NoDup_Permutation; [apply NoDup_fst_map_to_list|done|].
    intros g. by rewrite elem_of_keys, D. }
  destruct (writeBack_spec owned (range_keys owned) (Shards cfg)) as (l' & -> & L & W & _).
  { intros g s. rewrite HK. intros Hg Hs. unfold zlen. rewrite Hlen.
    apply elem_of_zrange. rewrite <- P. apply elem_of_listed. eauto. }
  { intros g1 g2 s. rewrite !HK. intros. eapply listed_disjoint; try done.
    rewrite P. apply NoDup_zrange. }
  cbn [mbind option_bind]. exists owned, l'. split_and!; [done|done|]. split.
  - unfold zlen in L. lia.
  - intros k g Hk. by apply T.
  - intros g [k Hk]%elem_of_sortedGIDs%list_elem_of_lookup. by apply (T k).
  - done.
  - intros g s Hg Hs. apply W; [|done]. rewrite HK. by apply elem_of_sortedGIDs.
Qed.

Lemma rebalanced_member cfg owned l' s g :
  rebalanced cfg owned l' -> zget l' s = Some g ->
  is_Some (Groups cfg !! g) /\ s ∈ mget owned g.
Proof.
  intros R Hg. assert (s ∈ listed owned (sortedGIDs (Groups cfg))) as Hs.
  { rewrite (rb_listed _ _ _ R). apply elem_of_zrange.
    apply zget_Some_lt in Hg. unfold zlen in Hg. by rewrite (rb_length _ _ _ R) in Hg. }
  apply elem_of_listed in Hs as (g' & Hg'%elem_of_sortedGIDs & Hs).
  pose proof (rb_shards _ _ _ R _ _ Hg' Hs) as E. rewrite E in Hg. by injection Hg as <-.
Qed.

Lemma rebalanced_owned_NoDup cfg owned l' g :
  rebalanced cfg owned l' -> is_Some (Groups cfg !! g) -> NoDup (mget owned g).
Proof.
  intros R Hg%elem_of_sortedGIDs.
  destruct (listed_split owned _ g (sortedGIDs_NoDup _) Hg) as [rest Hr].
  assert (NoDup (mget owned g ++ rest)) as [? _]%NoDup_app; [|done].
  rewrite <- Hr by done. rewrite (rb_listed _ _ _ R). apply NoDup_zrange.
Qed.

Lemma rebalanced_load cfg owned l' g :
  rebalanced cfg owned l' -> is_Some (Groups cfg !! g) -> load l' g = zlen (mget owned g).
Proof.
  intros R Hg. rewrite <- (zlen_held 0). unfold zlen. f_equal. apply Permutation_length.
  apply NoDup_Permutation; [apply NoDup_held|by eapply rebalanced_owned_NoDup|].
  intros s. rewrite held_lookup, Z.sub_0_r. split.
  - intros [_ E]. by eapply rebalanced_member.
  - intros Hs. pose proof (rb_shards _ _ _ R g s Hg Hs) as E. split; [|done].
    apply zget_Some_lt in E. lia.
Qed.

(** *** Moves *)

(** The number of shards that stay where they are. *)
Definition kept (l l' : list Z) : Z := countb (fun p => p.1 =? p.2) (zip l l').

(** Those of them that belong to [g]. *)
Definition keptBy (g : Z) (l l' : list Z) : Z :=
  countb (fun p => (p.1 =? g) && (p.2 =? g)) (zip l l').

Fixpoint sumZ (f : Z -> Z) (gids : list Z) : Z :=
  match gids with [] => 0 | g :: gids => f g + sumZ f gids end.

Lemma sumZ_add f1 f2 gids : sumZ (fun g => f1 g + f2 g) gids = sumZ f1 gids + sumZ f2 gids.
Proof. induction gids as [|g gids IH]; cbn; lia. Qed.

Lemma sumZ_le f1 f2 gids :
  (forall g, g ∈ gids -> f1 g <= f2 g) -> sumZ f1 gids <= sumZ f2 gids.
Proof.
  induction gids as [|g gids IH]; intros Hle; cbn; [lia|].
  assert (f1 g <= f2 g) by (apply Hle; constructor).
  assert (sumZ f1 gids <= sumZ f2 gids) by (apply IH; intros; apply Hle; by constructor). lia.
Qed.

Lemma sumZ_indicator gids x y :
  NoDup gids -> y ∈ gids ->
  sumZ (fun g => if (x =? g) && (y =? g) then 1 else 0) gids = if x =? y then 1 else 0.
Proof.
  induction 1 as [|g gids Hg HN IH]; [by intros ?%not_elem_of_nil|]. cbn.
  intros [->|Hy]%elem_of_cons.
  - rewrite Z.eqb_refl, andb_true_r.
    assert (sumZ (fun g' => if (x =? g') && (g =? g') then 1 else 0) gids = 0) as ->; [|lia].
    clear IH HN. induction gids as [|g' gids IH]; cbn; [done|].
    apply not_elem_of_cons in Hg as [? ?]. rewrite IH by done. bcase; lia.
  - rewrite IH by done. assert (y <> g) by (by intros ->). bcase; lia.
Qed.

Lemma kept_sum gids l l' :
  NoDup gids -> (forall g, g ∈ l' -> g ∈ gids) ->
  kept l l' = sumZ (fun g => keptBy g l l') gids.
Proof.
  intros HN. unfold kept, keptBy. revert l'. induction l as [|x l IH]; intros [|y l'] Hin; cbn;
    try (clear; induction gids as [|g gids IH]; cbn; lia).
  rewrite sumZ_add, sumZ_indicator, IH; try done.
  - intros. apply Hin. by constructor.
  - apply Hin. constructor.
Qed.

Lemma keptBy_le g l l' : length l = length l' -> keptBy g l l' <= Z.min (load l g) (load l' g).
Proof.
  unfold keptBy, load. revert l'. induction l as [|x l IH]; intros [|y l'] Hlen; cbn; try done.
  injection Hlen as Hlen. specialize (IH l' Hlen). repeat bcase; lia.
Qed.

(** Positions that a duplicate-free list names on both sides are kept. *)
Lemma keptBy_ge g l l' (Q : list Z) :
  length l = length l' -> NoDup Q ->
  (forall s, s ∈ Q -> zget l s = Some g /\ zget l' s = Some g) -> zlen Q <= keptBy g l l'.
Proof.
  intros Hlen HN HQ.
  set (L := zip_with (fun x y => if (x =? g) && (y =? g) then g else g + 1) l l').
  assert (keptBy g l l' = load L g) as ->.
  { unfold keptBy, load, L. clear. revert l'. induction l as [|x l IH]; intros [|y l'];
      cbn; try done. rewrite IH. repeat bcase; lia. }
  rewrite <- (zlen_held 0). unfold zlen. apply inj_le, submseteq_length.
  apply NoDup_submseteq; [done|]. intros s Hs. destruct (HQ s Hs) as [H1 H2].
  apply held_lookup. apply zget_Some_lookup in H1 as [? H1], H2 as [_ H2].
  split; [lia|]. apply zget_Some_lookup. split; [lia|]. unfold L.
  rewrite Z.sub_0_r, lookup_zip_with, H1, H2. cbn. by rewrite Z.eqb_refl.
Qed.

Lemma rebalanced_keptBy cfg owned l' g :
  rebalanced cfg owned l' -> length (Shards cfg) = NShards ->
  is_Some (Groups cfg !! g) -> g <> 0 ->
  Z.min (load (Shards cfg) g) (load l' g) <= keptBy g (Shards cfg) l'.
Proof.
  intros R Hlen Hg Hg0. pose proof (rb_keep _ _ _ R g Hg) as HP. unfold held0 in HP.
  rewrite (proj2 (Z.eqb_neq g 0)) in HP by done.
  etrans; [|apply (keptBy_ge g _ _ (take (length (mget owned g)) (held 0 (Shards cfg) g)))].
  - rewrite zlen_take, zlen_held, (rebalanced_load cfg owned l' g R Hg). unfold zlen. lia.
  - by rewrite Hlen, (rb_length _ _ _ R).
  - eapply sublist_NoDup; [apply NoDup_held|apply sublist_take].
  - intros s Hs. split.
    + apply elem_of_take in Hs as (k & Hk & _). apply list_elem_of_lookup_2 in Hk.
      apply held_lookup in Hk as [_ Hk]. by rewrite Z.sub_0_r in Hk.
    + eapply rb_shards; [done|done|]. eapply elem_of_prefix; [done|done].
Qed.

(** ** The theorems *)

(** The loads of a balanced configuration: [avg], or [avg+1] for the first
    [extra] groups in gid order. *)
Definition goal_load (groups : gmap Z (list string)) (k : nat) : Z :=
  target (Z.of_nat NShards / Z.of_nat (size groups))
         (Z.of_nat NShards mod Z.of_nat (size groups)) k.

Lemma rebalance_loads cfg :
  length (Shards cfg) = NShards ->
  exists cfg', rebalance cfg = Some cfg' /\ Num cfg' = Num cfg /\ Groups cfg' = Groups cfg /\
    length (Shards cfg') = NShards /\
    (Groups cfg = ∅ -> Shards cfg' = replicate NShards 0) /\
    (Groups cfg <> ∅ ->
       (forall g, g ∈ Shards cfg' -> is_Some (Groups cfg !! g)) /\
       (forall k g, sortedGIDs (Groups cfg) !! k = Some g ->
          load (Shards cfg') g = goal_load (Groups cfg) k)).
Proof.
  intros Hlen. destruct (decide (Groups cfg = ∅)) as [He|Hne].
  - unfold rebalance. rewrite He, map_size_empty. cbn [Z.of_nat Z.eqb].
    eexists. split; [done|]. split_and!; try done; cbn [Shards with_Shards]; [by rewrite length_fmap|].
    intros _. rewrite <- Hlen. clear. induction (Shards cfg) as [|x l IH]; cbn; congruence.
  - destruct (rebalance_spec cfg Hne Hlen) as (owned & l' & _ & -> & R).
    eexists. split; [done|]. split_and!; try done; [by apply R|]. intros _. split.
    + intros g [k Hk]%list_elem_of_lookup. cbn in Hk.
      eapply (rebalanced_member cfg owned l' (Z.of_nat k)); [done|].
      apply zget_Some_lookup. split; [lia|]. by rewrite Nat2Z.id.
    + intros k g Hk. cbn [Shards with_Shards]. rewrite (rebalanced_load cfg owned); [by apply R|done|].
      apply elem_of_sortedGIDs. by eapply list_elem_of_lookup_2.
Qed.

(** C16: rebalancing never panics (the pool never runs dry), touches neither the
    number nor the groups, leaves no shard on a group that is gone, and gives
    every group [NShards/n] shards or one more; without groups every shard goes
    to gid 0. *)
Theorem rebalance_balanced cfg :
  length (Shards cfg) = NShards ->
  match rebalance cfg with
  | None => False
  | Some cfg' =>
      Num cfg' = Num cfg /\ Groups cfg' = Groups cfg /\ length (Shards cfg') = NShards /\
      (Groups cfg = ∅ -> Shards cfg' = replicate NShards 0) /\
      (Groups cfg <> ∅ ->
         (forall g, g ∈ Shards cfg' -> is_Some (Groups cfg !! g)) /\
         (forall k g, sortedGIDs (Groups cfg) !! k = Some g ->
            load (Shards cfg') g = goal_load (Groups cfg) k))
  end.
Proof. by intros (cfg' & -> & H1)%rebalance_loads. Qed.

(** No configuration with the same loads moves fewer shards: whatever
    assignment [l2] gives every group the number of shards [rebalance] gives it,
    [rebalance] keeps at least as many shards in place. *)
Theorem rebalance_fewest_moves cfg l2 :
  length (Shards cfg) = NShards -> Groups cfg !! 0 = None ->
  length l2 = NShards -> (forall g, g ∈ l2 -> is_Some (Groups cfg !! g)) ->
  (forall k g, sortedGIDs (Groups cfg) !! k = Some g -> load l2 g = goal_load (Groups cfg) k) ->
  match rebalance cfg with
  | None => False
  | Some cfg' => kept (Shards cfg) l2 <= kept (Shards cfg) (Shards cfg')
  end.
Proof.
  intros Hlen Hz Hl2 Hin Hload. destruct (decide (Groups cfg = ∅)) as [He|Hne].
  { exfalso. destruct l2 as [|g l2]; [done|].
    destruct (Hin g) as [x Hx]; [constructor|]. by rewrite He, lookup_empty in Hx. }
  destruct (rebalance_spec cfg Hne Hlen) as (owned & l' & _ & -> & R). cbn [Shards with_Shards].
  rewrite !(kept_sum (sortedGIDs (Groups cfg))); auto using sortedGIDs_NoDup.
  - apply sumZ_le. intros g Hg.
    etrans; [apply keptBy_le; congruence|].
    etrans; [|apply (rebalanced_keptBy cfg owned); try done].
    + enough (load l2 g = load l' g) as -> by done.
      rewrite (rebalanced_load cfg owned l') by (done || by apply elem_of_sortedGIDs).
      apply list_elem_of_lookup in Hg as [k Hk].
      rewrite (Hload k g Hk). symmetry. by apply R.
    + by apply elem_of_sortedGIDs.
    + intros ->. apply elem_of_sortedGIDs in Hg as [x Hx]. congruence.
  - intros g [k Hk]%list_elem_of_lookup. apply elem_of_sortedGIDs.
    eapply (rebalanced_member cfg owned l' (Z.of_nat k)); [done|].
    apply zget_Some_lookup. split; [lia|]. by rewrite Nat2Z.id.
  - intros g Hg. apply elem_of_sortedGIDs. auto.
Qed.
End spec.

Lemma sortedGIDs_order `{o1 : !MapOrder, !@MapOrderLaws o1, o2 : !MapOrder, !@MapOrderLaws o2}
    groups :
  @sortedGIDs o1 groups = @sortedGIDs o2 groups.
Proof.
  eapply (Sorted_unique Z.le); try apply Sorted_merge_sort; try apply _.
  by rewrite !sortedGIDs_perm.
Qed.

(** The result does not depend on the iteration order. *)
Lemma rebalance_order (o1 o2 : MapOrder) cfg :
  @MapOrderLaws o1 -> @MapOrderLaws o2 -> length (Shards cfg) = NShards ->
  @rebalance o1 cfg = @rebalance o2 cfg.
Proof.
  intros H1 H2 Hlen. destruct (decide (Groups cfg = ∅)) as [He|Hne].
  { unfold rebalance. by rewrite He, map_size_empty. }
  destruct (@rebalance_spec o1 H1 cfg Hne Hlen) as (ow1 & l1 & E1 & -> & R1).
  destruct (@rebalance_spec o2 H2 cfg Hne Hlen) as (ow2 & l2 & E2 & -> & R2).
  rewrite (@sortedGIDs_order o1 H1 o2 H2), E2 in E1. injection E1 as ->.
  do 2 f_equal. apply list_eq. intros k.
  destruct (l1 !! k) as [g|] eqn:Ek.
  - assert (zget l1 (Z.of_nat k) = Some g) as Hg
      by (apply zget_Some_lookup; split; [lia|by rewrite Nat2Z.id]).
    destruct (@rebalanced_member o1 H1 _ _ _ _ _ R1 Hg) as [Hm Hs].
    pose proof (@rb_shards o2 _ _ _ R2 g _ Hm Hs) as Hg2.
    apply zget_Some_lookup in Hg2 as [_ Hg2]. by rewrite Nat2Z.id in Hg2.
  - symmetry. apply lookup_ge_None. apply lookup_ge_None in Ek.
    pose proof (rb_length _ _ _ R1). pose proof (rb_length _ _ _ R2). lia.
Qed.

(** ** Concrete configurations *)
Module Balance.
(** Groups 2 and 3 hold five shards each when group 1 joins. *)
Definition groups : gmap Z (list string) :=
  <[1 := ["a"%string]]> (<[2 := ["b"%string]]> (<[3 := ["c"%string]]> ∅)).
Definition joined : Config :=
  {| Num := 3; Shards := [2; 2; 2; 2; 2; 3; 3; 3; 3; 3]; Groups := groups |}.
Definition result : list Z := [2; 2; 2; 1; 1; 3; 3; 3; 1; 1].
(** A balanced assignment that moves one shard less. *)
Definition better : list Z := [2; 2; 2; 2; 1; 3; 3; 3; 1; 1].

(** Another iteration order: the reverse. *)
Definition reverse_order : MapOrder := fun A m => reverse (map_to_list m).*1.
Lemma reverse_order_laws : @MapOrderLaws reverse_order.
Proof. intros A m. apply reverse_Permutation. Qed.
End Balance.

#[local] Existing Instance listed_order.
#[local] Existing Instance listed_order_laws.

(** The loads are fixed by gid order, so the moves are not the fewest among
    all balanced configurations: when group 1 joins two groups of five shards,
    four shards move although three suffice. *)
Theorem rebalance_extra_move :
  rebalance Balance.joined = Some (with_Shards Balance.result Balance.joined) /\
  Forall (fun g => is_Some (Groups Balance.joined !! g)) Balance.better /\
  (load Balance.better 1, load Balance.better 2, load Balance.better 3) = (3, 4, 3) /\
  kept (Shards Balance.joined) Balance.result = 6 /\
  kept (Shards Balance.joined) Balance.better = 7.
Proof.
  split_and!; [vm_compute; reflexivity| |vm_compute; reflexivity..].
  repeat constructor; by eexists.
Qed.

Lemma rebalance_balanced_witness :
  match rebalance Balance.joined with
  | Some cfg' => length (Shards cfg') = 10%nat
  | None => False
  end.
Proof.
  pose proof (rebalance_balanced Balance.joined eq_refl) as H.
  destruct (rebalance Balance.joined); [|exact H]. apply H.
Defined.

Lemma rebalance_fewest_moves_witness :
  match rebalance Balance.joined with
  | Some cfg' => kept (Shards Balance.joined) [2; 2; 2; 1; 1; 1; 1; 3; 3; 3]
                 <= kept (Shards Balance.joined) (Shards cfg')
  | None => False
  end.
Proof.
  apply (rebalance_fewest_moves Balance.joined [2; 2; 2; 1; 1; 1; 1; 3; 3; 3]);
    [reflexivity|reflexivity|reflexivity| |].
  - intros g Hg. repeat (apply elem_of_cons in Hg as [->|Hg]; [by eexists|]). by inv Hg.
  - intros k g. replace (sortedGIDs (Groups Balance.joined)) with [1; 2; 3]
      by (vm_compute; reflexivity).
    destruct k as [|[|[|k]]]; cbn; intros [= <-]; vm_compute; reflexivity.
Defined.
