(* ===== verification/Clerk.v ===== *)
(** * Clerks: retry loops of the clients

    kvraft/client.go and shardctrler/client.go retry one operation, always with the
    same (ClientId, SeqId), at [servers[leaderId]] until a decisive reply comes, and
    move on to the next server on some of the other outcomes.  [callLoop] is that
    loop, over the outcomes the network produces; the clients' operations are
    instances of it. *)
From S2P Require Import Prelude ClientId KVServer.

Module Clerk.
Record Clerk := { servers : nat; clientId : Z; seqId : Z; leaderId : Z }.

(** kvraft/client.go 58-65, shardctrler/client.go 56-63; [id] from [genClientId]. *)
Definition MakeClerk (n : nat) (id : Z) : Clerk :=
  {| servers := n; clientId := id; seqId := 0; leaderId := 0 |}.

Definition nextSeq (ck : Clerk) : Z * Clerk :=
  let seq := ClientId.int64 (seqId ck + 1) in
  (seq, {| servers := servers ck; clientId := clientId ck; seqId := seq;
           leaderId := leaderId ck |}).

(** [ck.leaderId = (ck.leaderId + 1) % len(ck.servers)] *)
Definition rotate (ck : Clerk) : Clerk :=
  {| servers := servers ck; clientId := clientId ck; seqId := seqId ck;
     leaderId := (leaderId ck + 1) mod Z.of_nat (servers ck) |}.

Section loop.
Context {Args Reply Res : Type}.
(** Of one outcome ([None]: the RPC failed): the value the loop returns, if the
    outcome is decisive, and otherwise whether the clerk moves on. *)
Context (decisive : option Reply -> option Res) (rotates : option Reply -> bool).

(** The loop over the outcomes of successive calls: the clerk afterwards, the
    calls made (server and arguments), and the returned value ([None] while it is
    still trying). *)
Fixpoint callLoop (args : Args) (outs : list (option Reply)) (ck : Clerk) :
    Clerk * list (Z * Args) * option Res :=
  match outs with
  | [] => (ck, [], None)
  | o :: outs =>
      match decisive o with
      | Some v => (ck, [(leaderId ck, args)], Some v)
      | None =>
          let ck' := if rotates o then rotate ck else ck in
          let '(ck'', calls, res) := callLoop args outs ck' in
          (ck'', (leaderId ck, args) :: calls, res)
      end
  end.

(** The first decisive outcome is at position [k]. *)
Definition decides_at (outs : list (option Reply)) (k : nat) (v : Res) : Prop :=
  (exists o, outs !! k = Some o /\ decisive o = Some v) /\
  forall j o, (j < k)%nat -> outs !! j = Some o -> decisive o = None.

Lemma callLoop_spec args outs ck :
  0 <= leaderId ck < Z.of_nat (servers ck) ->
  let '(ck', calls, res) := callLoop args outs ck in
  0 <= leaderId ck' < Z.of_nat (servers ck) /\ servers ck' = servers ck /\
  clientId ck' = clientId ck /\ seqId ck' = seqId ck /\
  (forall k srv a, calls !! k = Some (srv, a) ->
     a = args /\
     srv = (leaderId ck + countb rotates (take k outs)) mod Z.of_nat (servers ck)) /\
  (forall v, res = Some v <-> exists k, decides_at outs k v).
Proof.
  revert ck. induction outs as [|o outs IH]; intros ck Hl; cbn.
  { split_and!; try done; try lia. intros v. split; [done|]. by intros (k & (o & ? & _) & _). }
  destruct (decisive o) as [v0|] eqn:Hd.
  - split_and!; try done; try lia.
    + intros [|k] srv a Hk; [|done]. injection Hk as <- <-. split; [done|]. cbn.
      rewrite Z.add_0_r, Z.mod_small by lia. done.
    + intros v. split.
      * intros [= ->]. exists 0%nat. split; [by exists o|]. intros; lia.
      * intros ([|k] & (o' & Ho & Hv) & Hb); cbn in Ho; [congruence|].
        specialize (Hb 0%nat o ltac:(lia) eq_refl). congruence.
  - set (ck1 := if rotates o then rotate ck else ck).
    assert (servers ck1 = servers ck) as E1 by (unfold ck1; by bcase).
    assert (0 <= leaderId ck1 < Z.of_nat (servers ck)) as E2.
    { unfold ck1. bcase; cbn; [apply Z.mod_pos_bound; lia|done]. }
    specialize (IH ck1). rewrite E1 in IH. specialize (IH E2).
    destruct (callLoop args outs ck1) as [[ck' calls] res].
    destruct IH as (I1 & I2 & I3 & I4 & I5 & I6).
    split_and!; [lia|lia|done| | | |].
    + rewrite I3. unfold ck1. by bcase.
    + rewrite I4. unfold ck1. by bcase.
    + intros [|k] srv a Hk; cbn in Hk.
      * injection Hk as <- <-. split; [done|]. cbn. rewrite Z.add_0_r, Z.mod_small by lia. done.
      * destruct (I5 k srv a Hk) as [-> ->]. split; [done|]. cbn. unfold ck1.
        bcase; cbn [leaderId rotate]; [|f_equal; lia].
        rewrite Zplus_mod_idemp_l. f_equal. lia.
    + intros v. rewrite I6. split.
      * intros (k & (o' & Ho & Hv) & Hb). exists (S k). split; [by exists o'|].
        intros [|j] o2 Hj Ho2; cbn in Ho2; [congruence|]. eapply Hb; [|done]. lia.
      * intros ([|k] & (o' & Ho & Hv) & Hb); cbn in Ho; [congruence|].
        exists k. split; [by exists o'|]. intros j o2 Hj Ho2. eapply (Hb (S j)); [lia|done].
Qed.
End loop.
End Clerk.

(** ** The clerk of kvraft *)
Module KVClerk.
Import Clerk KVServer.

(** The switch of [Get] (client.go 85-102). *)
Definition get_decisive (o : option GetReply) : option string :=
  match o with
  | None => None
  | Some r => if String.eqb (gr_Err r) OK then Some (gr_Value r)
              else if String.eqb (gr_Err r) ErrNoKey then Some EmptyString
              else None
  end.
Definition get_rotates (o : option GetReply) : bool :=
  match o with None => true | Some r => String.eqb (gr_Err r) ErrWrongLeader end.

Definition Get (key : string) (outs : list (option GetReply)) (ck : Clerk) :
    Clerk * list (Z * GetArgs) * option string :=
  let '(seq, ck) := nextSeq ck in
  let args := {| ga_Key := key; ga_ClientId := clientId ck; ga_SeqId := seq |} in
  callLoop get_decisive get_rotates args outs ck.

(** The switch of [PutAppend] (client.go 121-132). *)
Definition putAppend_decisive (o : option PutAppendReply) : option unit :=
  match o with
  | None => None
  | Some r => if String.eqb (par_Err r) OK then Some tt else None
  end.
Definition putAppend_rotates (o : option PutAppendReply) : bool :=
  match o with None => true | Some r => String.eqb (par_Err r) ErrWrongLeader end.

Definition PutAppend (key value op : string) (outs : list (option PutAppendReply)) (ck : Clerk) :
    Clerk * list (Z * PutAppendArgs) * option unit :=
  let '(seq, ck) := nextSeq ck in
  let args := {| pa_Key := key; pa_Value := value; pa_Op := op;
                 pa_ClientId := clientId ck; pa_SeqId := seq |} in
  callLoop putAppend_decisive putAppend_rotates args outs ck.

Definition Put (key value : string) := PutAppend key value "Put".
Definition Append (key value : string) := PutAppend key value "Append".

(** One [Get] of a clerk, whatever the network does: every call it makes carries
    the same client id and the same fresh sequence number; the [k]-th call goes to
    the server [k' ] places after the first, [k'] being the number of failed or
    [ErrWrongLeader] outcomes so far (a timeout keeps the server), always in range;
    and it returns exactly the value of the first decisive reply. *)
Theorem get_one_identity key outs ck :
  0 <= leaderId ck < Z.of_nat (servers ck) ->
  let '(ck', calls, res) := Get key outs ck in
  0 <= leaderId ck' < Z.of_nat (servers ck') /\ servers ck' = servers ck /\
  clientId ck' = clientId ck /\ seqId ck' = ClientId.int64 (seqId ck + 1) /\
  (forall k srv a, calls !! k = Some (srv, a) ->
     a = {| ga_Key := key; ga_ClientId := clientId ck; ga_SeqId := seqId ck' |} /\
     srv = (leaderId ck + countb get_rotates (take k outs)) mod Z.of_nat (servers ck)) /\
  (forall v, res = Some v <-> exists k, decides_at get_decisive outs k v).
Proof.
  intros Hl. unfold Get. cbn [nextSeq].
  set (ck1 := {| servers := servers ck; clientId := clientId ck;
                 seqId := ClientId.int64 (seqId ck + 1); leaderId := leaderId ck |}).
  set (args := {| ga_Key := key; ga_ClientId := clientId ck1; ga_SeqId := _ |}).
  pose proof (callLoop_spec get_decisive get_rotates args outs ck1 Hl) as H.
  destruct (callLoop _ _ _ outs ck1) as [[ck' calls] res].
  destruct H as (H1 & H2 & H3 & H4 & H5 & H6). cbn in H2, H3, H4.
  rewrite H2, H3, H4. split_and!; try done; cbn in H1; lia.
Qed.
End KVClerk.

Lemma get_one_identity_witness :
  let '(ck', calls, res) :=
    KVClerk.Get "x" [None; Some {| KVServer.gr_Err := "ErrTimeout"; KVServer.gr_Value := "" |};
                     Some {| KVServer.gr_Err := "OK"; KVServer.gr_Value := "v" |}]
      (Clerk.MakeClerk 3 77) in
  res = Some "v"%string /\ calls.*1 = [0; 1; 1] /\ Clerk.seqId ck' = ClientId.int64 1.
Proof.
  pose proof (KVClerk.get_one_identity "x"
    [None; Some {| KVServer.gr_Err := "ErrTimeout"; KVServer.gr_Value := "" |};
     Some {| KVServer.gr_Err := "OK"; KVServer.gr_Value := "v" |}]
    (Clerk.MakeClerk 3 77) ltac:(split; vm_compute; congruence)) as H.
  destruct (KVClerk.Get _ _ _) as [[ck' calls] res] eqn:E.
  destruct H as (_ & _ & _ & H & _). vm_compute in E. injection E as <- <- <-.
  split; [reflexivity|]. split; [reflexivity|]. exact H.
Defined.
