(* ===== verification/CtrlProps.v ===== *)
(** * The shard controller: properties *)
From S2P Require Import Prelude Persister RaftNode Notify ShardConfig ShardCtrler.
Import ShardCtrler.

(** Configuration [i] of the history has number [i] and ten shards. *)
Definition history_ok (cfgs : list Config) : Prop :=
  cfgs <> [] /\
  forall i c, cfgs !! i = Some c ->
    ShardConfig.Num c = Z.of_nat i /\ length (Shards c) = NShards.

Lemma history_ok_initial : history_ok [Config_zero].
Proof. split; [done|]. by intros [|i] c [= <-]. Qed.

Lemma history_ok_snoc cfgs c :
  history_ok cfgs -> ShardConfig.Num c = zlen cfgs -> length (Shards c) = NShards ->
  history_ok (cfgs ++ [c]).
Proof.
  intros [Hne Hc] Hn Hs. split; [by destruct cfgs|]. intros i c' Hi.
  apply lookup_app_Some in Hi as [Hi|[Hge Hi]]; [by apply Hc|].
  apply list_lookup_singleton_Some in Hi as [E <-]. split; [|done]. unfold zlen in Hn. lia.
Qed.

Lemma history_latest cfgs :
  history_ok cfgs -> exists c, latest cfgs = Some c /\
    ShardConfig.Num c = zlen cfgs - 1 /\ length (Shards c) = NShards.
Proof.
  intros [Hne Hc]. assert (0 < zlen cfgs) by (destruct cfgs; [done|unfold zlen; cbn; lia]).
  destruct (zget_in_range cfgs (zlen cfgs - 1)) as [c Hl]; [lia|]. exists c.
  split; [done|]. apply zget_Some_lookup in Hl as [_ Hl]. destruct (Hc _ _ Hl) as [-> ?].
  split; [lia|done].
Qed.

Lemma cloneConfig_spec c :
  cloneConfig c = {| ShardConfig.Num := ShardConfig.Num c + 1; Shards := Shards c;
                     Groups := Groups c |}.
Proof.
  unfold cloneConfig. f_equal. rewrite <- (map_fmap_id (Groups c)) at 2.
  apply map_fmap_ext. intros k l _. apply gocopy_same_length, length_replicate.
Qed.

(** The groups a Join or Leave asks for. *)
Definition askedGroups (op : Op) (groups : gmap Z (list string)) : gmap Z (list string) :=
  if String.eqb (Type_ op) "Join" then Servers op ∪ groups
  else filter (fun p => p.1 ∉ GIDs op) groups.

Definition isMembership (op : Op) : bool :=
  String.eqb (Type_ op) "Join" || String.eqb (Type_ op) "Leave".

Lemma leaveGroups_spec gids groups :
  leaveGroups gids groups = filter (fun p => p.1 ∉ gids) groups.
Proof.
  unfold leaveGroups. revert groups. induction gids as [|g gids IH]; intros groups; cbn [foldl].
  - symmetry. apply map_filter_id. intros k v _. cbn. apply not_elem_of_nil.
  - rewrite IH. apply map_eq. intros k. apply option_eq. intros v.
    rewrite !map_lookup_filter_Some. cbn. rewrite lookup_delete_Some, not_elem_of_cons.
    naive_solver.
Qed.

Section props.
Context `{MapOrderLaws}.

Lemma joinGroups_spec servers groups : joinGroups servers groups = servers ∪ groups.
Proof.
  assert (forall ks g, (forall k, k ∈ ks -> is_Some (servers !! k)) ->
    foldl (fun g gid => <[gid := mget servers gid]> g) g ks =
    filter (fun p => p.1 ∈ ks) servers ∪ g) as Hfold.
  { induction ks as [|k ks IH]; intros g Hk; cbn [foldl].
    - replace (filter _ servers) with (∅ : gmap Z (list string)); [by rewrite (left_id_L ∅ (∪))|].
      symmetry. apply map_empty. intros k. apply map_lookup_filter_None. right.
      intros v _. cbn. apply not_elem_of_nil.
    - rewrite IH by (intros; apply Hk; by constructor).
      destruct (Hk k ltac:(constructor)) as [v Hv]. unfold mget. rewrite Hv. cbn.
      apply map_eq. intros j. apply option_eq. intros w.
      rewrite !lookup_union_Some_raw, !map_lookup_filter_Some, !map_lookup_filter_None,
        lookup_insert_Some. cbn. setoid_rewrite elem_of_cons.
      destruct (decide (j = k)), (decide (j ∈ ks)); naive_solver. }
  unfold joinGroups. rewrite Hfold.
  - f_equal. apply map_filter_id. intros k v Hv. cbn. rewrite range_keys_perm.
    apply elem_of_keys. by eexists.
  - intros k. rewrite range_keys_perm. apply elem_of_keys.
Qed.

(** The configuration a membership change hands to [rebalance]. *)
Definition asked (op : Op) (c : Config) : Config :=
  {| ShardConfig.Num := ShardConfig.Num c + 1;
     Shards := if String.eqb (Type_ op) "Join" then Shards c
               else dropShards (GIDs op) (Shards c);
     Groups := askedGroups op (Groups c) |}.

Lemma applyOp_membership op cfgs c :
  isMembership op = true -> latest cfgs = Some c ->
  applyOp op cfgs =
    c' ← rebalance (asked op c); Some (OK, Config_zero, cfgs ++ [c']).
Proof.
  unfold isMembership, applyOp, cloneLatestConfig, asked, askedGroups. intros Hm ->. cbn [fmap option_fmap option_map].
  rewrite cloneConfig_spec. cbn [mbind option_bind].
  destruct (String.eqb (Type_ op) "Join").
  - unfold with_Groups. cbn. by rewrite joinGroups_spec.
  - cbn in Hm. rewrite Hm. unfold with_Groups, with_Shards. cbn. by rewrite leaveGroups_spec.
Qed.

Lemma asked_length op c : length (Shards c) = NShards -> length (Shards (asked op c)) = NShards.
Proof.
  intros Hl. unfold asked, dropShards. cbn. bcase; [done|]. by rewrite length_fmap.
Qed.

(** When an operation that is not a duplicate panics. *)
Definition panics (op : Op) : bool :=
  (String.eqb (Type_ op) "Move" && negb ((0 <=? Shard op) && (Shard op <? Z.of_nat NShards))) ||
  (String.eqb (Type_ op) "Query" && (Num op <? -1)).

Lemma applyOp_spec op cfgs :
  history_ok cfgs ->
  match applyOp op cfgs with
  | None => panics op = true
  | Some (_, _, cfgs') =>
      panics op = false /\ history_ok cfgs' /\ exists ext, cfgs' = cfgs ++ ext
  end.
Proof.
  intros Hok. destruct (history_latest cfgs Hok) as (c & Hl & Hn & Hs).
  destruct (isMembership op) eqn:Hm.
  - rewrite (applyOp_membership op cfgs c Hm Hl).
    destruct (rebalance_loads (asked op c)) as (c' & -> & En & Eg & El & _); [by apply asked_length|].
    cbn. split_and!; [|apply history_ok_snoc; [done| |done]|by eexists].
    + unfold isMembership in Hm. unfold panics.
      destruct (String.eqb_spec (Type_ op) "Move") as [E|]; [by rewrite E in Hm|].
      destruct (String.eqb_spec (Type_ op) "Query") as [E|]; [by rewrite E in Hm|]. done.
    + rewrite En. cbn. lia.
  - unfold isMembership in Hm. apply orb_false_iff in Hm as [H1 H2].
    unfold applyOp, cloneLatestConfig, panics. rewrite H1, H2, Hl. cbn [fmap option_fmap option_map].
    rewrite cloneConfig_spec. cbn [mbind option_bind Shards].
    destruct (String.eqb_spec (Type_ op) "Move") as [E|].
    + rewrite E. cbn [String.eqb andb orb]. unfold zset. cbn [Shards].
      unfold zlen at 1. rewrite Hs. destruct ((0 <=? Shard op) && _); [|done].
      cbn. split_and!; [done| |by eexists]. apply history_ok_snoc; [done| |].
      * cbn. lia.
      * cbn [Shards with_Shards]. by rewrite length_insert.
    + cbn [andb orb]. destruct (String.eqb_spec (Type_ op) "Query"); [|cbn; split_and!; [done|done|]; exists []; by rewrite app_nil_r].
      pose proof (zlen_nonneg cfgs). cbn [andb]. bcase; cbn.
      * split_and!; [lia|done|]. exists []. by rewrite app_nil_r.
      * destruct (zget cfgs (Num op)) as [c'|] eqn:Hg; cbn.
        -- apply zget_Some_lt in Hg. split_and!; [lia|done|]. exists []. by rewrite app_nil_r.
        -- apply zget_None in Hg. lia.
Qed.

Lemma execute_history op s s' r :
  history_ok (configs s) -> execute op s = Some (s', r) ->
  history_ok (configs s') /\ exists ext, configs s' = configs s ++ ext.
Proof.
  intros Hok. unfold execute. destruct (duplicate op s) as [r0|].
  - intros [= <- <-]. split; [done|]. exists []. by rewrite app_nil_r.
  - pose proof (applyOp_spec op (configs s) Hok) as Hs.
    destruct (applyOp op (configs s)) as [[[err cfg] cfgs]|]; [|done].
    cbn. intros [= <- <-]. cbn. by destruct Hs as (_ & ? & ?).
Qed.

Lemma runLog_history ops s s' :
  history_ok (configs s) -> runLog ops s = Some s' ->
  history_ok (configs s') /\ exists ext, configs s' = configs s ++ ext.
Proof.
  revert s. induction ops as [|op ops IH]; intros s Hok; cbn.
  - intros [= <-]. split; [done|]. exists []. by rewrite app_nil_r.
  - intros ([s1 r] & He & Hr)%bind_Some.
    destruct (execute_history _ _ _ _ Hok He) as (Hok1 & e1 & E1).
    destruct (IH s1 Hok1 Hr) as (Hok2 & e2 & E2). split; [done|].
    exists (e1 ++ e2). by rewrite E2, E1, (assoc_L (++)).
Qed.

(** ** The theorems *)

(** the history of configurations is append-only and numbered by position:
    after any log, configuration [i] has number [i] and ten shards, and whatever is
    executed later the configurations of now stay where they are, so [Query] for a
    number that exists always gets the same answer. *)
Theorem history_append_only ops1 ops2 s1 s2 :
  runLog ops1 initial = Some s1 -> runLog ops2 s1 = Some s2 ->
  history_ok (configs s2) /\ configs s1 `prefix_of` configs s2 /\
  forall op i c, isQuery op = true -> Num op = Z.of_nat i -> configs s1 !! i = Some c ->
    execute op s2 = Some (s2, result OK c op).
Proof.
  intros H1 H2. destruct (runLog_history _ initial _ history_ok_initial H1) as (Hok1 & _).
  destruct (runLog_history _ _ _ Hok1 H2) as (Hok2 & ext & E). split_and!; [done|by exists ext|].
  intros op i c Hq Hi Hc. pose proof (lookup_app_l_Some _ ext _ _ Hc) as Hc2.
  rewrite <- E in Hc2. pose proof (lookup_lt_Some _ _ _ Hc2) as Hlt.
  unfold execute, duplicate. rewrite Hq. unfold isQuery in Hq. apply String.eqb_eq in Hq.
  unfold applyOp. rewrite Hq. cbn [String.eqb Ascii.eqb Bool.eqb].
  assert ((Num op =? -1) || (zlen (configs s2) <=? Num op) = false) as -> by (unfold zlen; lia).
  assert (zget (configs s2) (Num op) = Some c) as ->.
  { apply zget_Some_lookup. split; [lia|]. by rewrite Hi, Nat2Z.id. }
  cbn. by destruct s2.
Qed.

(** C18: a Join or Leave that is not a duplicate always succeeds and appends one
    configuration: its groups are the old ones with the joining groups added (or
    replaced) or the leaving ones removed, every shard is on one of them, and the
    loads are [avg] or [avg+1]; without groups every shard is on gid 0. *)
Theorem membership_change op s c :
  history_ok (configs s) -> latest (configs s) = Some c ->
  isMembership op = true -> duplicate op s = None ->
  match execute op s with
  | None => False
  | Some (s', r) =>
      ar_Err r = OK /\
      exists c', configs s' = configs s ++ [c'] /\ ShardConfig.Num c' = zlen (configs s) /\
        Groups c' = askedGroups op (Groups c) /\
        (Groups c' = ∅ -> Shards c' = replicate NShards 0) /\
        (Groups c' <> ∅ ->
           (forall g, g ∈ Shards c' -> is_Some (Groups c' !! g)) /\
           (forall k g, sortedGIDs (Groups c') !! k = Some g ->
              load (Shards c') g = goal_load (Groups c') k))
  end.
Proof.
  intros Hok Hl Hm Hd. destruct (history_latest _ Hok) as (c0 & Hl0 & Hn & Hs).
  rewrite Hl in Hl0. injection Hl0 as <-.
  unfold execute. rewrite Hd, (applyOp_membership op _ c Hm Hl).
  pose proof (asked_length op c Hs) as Ha.
  destruct (rebalance_loads (asked op c) Ha) as (c' & -> & En & Eg & _ & E1 & E2).
  cbn. split; [done|]. exists c'. rewrite Eg. split_and!; try done. rewrite En. cbn. lia.
Qed.

(** The operations that bring a server down: executing an operation that is not
    a duplicate panics exactly for a Move of a shard outside [0, NShards) and for a
    Query of a number below -1, which every replica then hits when it applies the
    entry. *)
Theorem execute_panics op s :
  history_ok (configs s) ->
  (execute op s = None <-> duplicate op s = None /\ panics op = true).
Proof.
  intros Hok. unfold execute. destruct (duplicate op s) as [r|]; [naive_solver|].
  pose proof (applyOp_spec op (configs s) Hok) as Hs.
  destruct (applyOp op (configs s)) as [[[err cfg] cfgs]|]; cbn; [|naive_solver].
  destruct Hs as [-> _]. naive_solver.
Qed.
End props.

(** ** Map iteration orders *)
Section orders.
Context (o1 o2 : MapOrder) (L1 : @MapOrderLaws o1) (L2 : @MapOrderLaws o2).

Lemma applyOp_order op cfgs :
  history_ok cfgs -> @applyOp o1 op cfgs = @applyOp o2 op cfgs.
Proof.
  intros Hok. destruct (history_latest _ Hok) as (c & Hl & _ & Hs).
  destruct (isMembership op) eqn:Hm.
  - rewrite (@applyOp_membership o1 L1 op cfgs c Hm Hl),
      (@applyOp_membership o2 L2 op cfgs c Hm Hl).
    by rewrite (rebalance_order o1 o2 _ L1 L2 (asked_length op c Hs)).
  - unfold isMembership in Hm. apply orb_false_iff in Hm as [E1 E2].
    unfold applyOp. by rewrite E1, E2.
Qed.

(** Replicas agree although Go iterates over maps in a random order: executing
    the same log with two different iteration orders gives the same history,
    duplicate table and replies. *)
Theorem replicas_agree ops s :
  history_ok (configs s) -> @runLog o1 ops s = @runLog o2 ops s.
Proof.
  revert s. induction ops as [|op ops IH]; intros s Hok; cbn; [done|].
  assert (@execute o1 op s = @execute o2 op s) as E.
  { unfold execute. by rewrite (applyOp_order op (configs s) Hok). }
  rewrite E. destruct (@execute o2 op s) as [[s' r]|] eqn:E2; [|done]. cbn.
  apply IH. by eapply (@execute_history o2 L2).
Qed.
End orders.

(** ** Concrete histories *)
Module CtrlDemo.
#[export] Existing Instance listed_order.
#[export] Existing Instance listed_order_laws.

Definition join1 : Op :=
  joinOp {| ja_Servers := <[1 := ["a"%string]]> ∅; ja_ClientId := 5; ja_SeqId := 1 |}.
Definition join2 : Op :=
  joinOp {| ja_Servers := <[2 := ["b"%string]]> ∅; ja_ClientId := 5; ja_SeqId := 2 |}.
Definition leave1 : Op :=
  leaveOp {| la_GIDs := [1]; la_ClientId := 5; la_SeqId := 3 |}.
Definition badMove : Op :=
  moveOp {| ma_Shard := 10; ma_GID := 1; ma_ClientId := 6; ma_SeqId := 1 |}.
Definition query1 : Op := queryOp {| qa_Num := 1; qa_ClientId := 7; qa_SeqId := 1 |}.

Definition s1 : State := default initial (runLog [join1; join2] initial).
Definition s2 : State := default s1 (runLog [leave1] s1).
Definition c2 : Config := default Config_zero (latest (configs s1)).

Lemma s1_ok : history_ok (configs s1).
Proof.
  apply (runLog_history [join1; join2] initial s1 history_ok_initial).
  vm_compute. reflexivity.
Qed.
End CtrlDemo.
Import CtrlDemo.

Lemma history_append_only_witness :
  (Shards <$> configs s1) =
    [replicate 10 0; replicate 10 1; [1; 1; 1; 1; 1; 2; 2; 2; 2; 2]] /\
  exists c, configs s1 !! 1%nat = Some c /\ execute query1 s2 = Some (s2, result OK c query1).
Proof.
  split; [vm_compute; reflexivity|].
  destruct (history_append_only [join1; join2] [leave1] s1 s2) as (_ & _ & H);
    [vm_compute; reflexivity..|].
  destruct (configs s1 !! 1%nat) as [c|] eqn:E; [|vm_compute in E; discriminate E].
  exists c. split; [reflexivity|]. apply (H query1 1%nat c eq_refl eq_refl E).
Defined.

Lemma membership_change_witness :
  match execute leave1 s1 with
  | None => False
  | Some (s', r) => ar_Err r = OK /\ Shards <$> latest (configs s') = Some (replicate 10 2)
  end.
Proof.
  pose proof (membership_change leave1 s1 c2 s1_ok eq_refl eq_refl eq_refl) as H.
  destruct (execute leave1 s1) as [[s' r]|] eqn:E; [|exact H].
  split; [apply H|]. vm_compute in E. injection E as <- _. vm_compute. reflexivity.
Defined.

Lemma execute_panics_witness : execute badMove s1 = None.
Proof. apply (execute_panics badMove s1 s1_ok). split; vm_compute; reflexivity. Defined.

Lemma replicas_agree_witness :
  @runLog Balance.reverse_order [join1; join2; leave1] initial = Some s2.
Proof.
  transitivity (@runLog listed_order [join1; join2; leave1] initial); [|vm_compute; reflexivity].
  apply (replicas_agree Balance.reverse_order listed_order Balance.reverse_order_laws
    listed_order_laws [join1; join2; leave1] initial history_ok_initial).
Defined.
