(* ===== verification/CtrlCluster.v ===== *)
(** * A cluster of shard controllers

    The controllers of src/src/shardctrler/server.go over the Raft cluster of
    src/src/raft/raft.go, by instantiating Cluster with the controller's
    [execute]: their histories of configurations are versions of one history. *)
From S2P Require Import Prelude Persister Serial RaftNode RaftLocal RaftNet RaftSafety Notify Service Cluster ShardConfig Clerk ShardCtrler CtrlProps.
From stdpp Require Import functions relations.
Import ShardCtrler Cluster.
#[local] Open Scope Z_scope.

(** The controller as a state machine.  Replicas may iterate maps in different
    orders; CtrlProps shows that the order does not matter, so one stands for all. *)
#[export] Instance ctrl_machine `{MapOrder} :
    Service.StateMachine Op State applyResult (Z * Z) := {
  Service.op_id op := (ClientId op, SeqId op);
  Service.exec op s := execute op s;
  Service.initial := initial;
}.

Section controllers.
Context `{MapOrder, !MapOrderLaws} `{!Codec (RaftPersist Op), !CodecLaws (RaftPersist Op)}.
Variable n : nat.

Lemma replay_runLog ops s : Service.replay ops s = runLog ops s.
Proof.
  revert s. induction ops as [|op ops IH]; intros s; cbn; [done|].
  destruct (execute op s) as [[s' r]|]; cbn; [apply IH|done].
Qed.

(** What a round of the controller's applier does to its state. *)
Lemma applier_executes index (e : LogEntry Op) sc sc' out :
  applier (RaftLog.commandMsg index e) sc = Some (sc', out) ->
  exists r, execute (le_Command e) (st sc) = Some (st sc', r).
Proof. unfold applier. cbn. intros ([s r] & He & [= <- _])%bind_Some. by exists r. Qed.

Lemma server_history s a :
  state_ok n s a -> exists ops, runLog ops initial = Some (ap_st a).
Proof. intros (T & l & m & _ & _ & Hr). eexists. rewrite <- replay_runLog. exact Hr. Qed.

(** C3: one history of configurations.  In any run of a cluster of shard controllers
    (messages lost, duplicated, delayed or reordered, controllers crashing and
    rebuilding their state from the log), of the histories of two controllers at
    any two moments one is a prefix of the other, so two controllers that know
    configuration [k] know the same one, whenever each of them is asked. *)
Theorem controllers_one_history (sy sy' : Sys Op State) i j :
  sys_reachable n sy -> rtc (sys_step n) sy sy' ->
  0 <= i < Z.of_nat n -> 0 <= j < Z.of_nat n ->
  let h1 := configs (ap_st (sys_apps sy i)) in
  let h2 := configs (ap_st (sys_apps sy' j)) in
  (h1 `prefix_of` h2 \/ h2 `prefix_of` h1) /\
  forall k c1 c2, h1 !! k = Some c1 -> h2 !! k = Some c2 ->
    c1 = c2 /\ ShardConfig.Num c1 = Z.of_nat k.
Proof.
  intros Hr0 Hr Hi Hj h1 h2. destruct (two_servers n _ _ Hr0 Hr) as (s & Hinv & Ha & Hb).
  specialize (Ha i Hi). specialize (Hb j Hj).
  destruct (server_history _ _ Ha) as (ops1 & R1). destruct (server_history _ _ Hb) as (ops2 & R2).
  destruct (runLog_history _ initial _ history_ok_initial R1) as [Hok1 _].
  destruct (runLog_history _ initial _ history_ok_initial R2) as [Hok2 _].
  assert (h1 `prefix_of` h2 \/ h2 `prefix_of` h1) as Hpre.
  { destruct (Z.le_ge_cases (ap_index (sys_apps sy i)) (ap_index (sys_apps sy' j))) as [Hle|Hle];
      [left|right].
    - destruct (state_ok_order n s _ _ Hinv Ha Hb Hle) as (ops & _ & Hops).
      rewrite replay_runLog in Hops. by apply (runLog_history _ _ _ Hok1 Hops).
    - destruct (state_ok_order n s _ _ Hinv Hb Ha Hle) as (ops & _ & Hops).
      rewrite replay_runLog in Hops. by apply (runLog_history _ _ _ Hok2 Hops). }
  split; [done|]. intros k c1 c2 H1 H2. split.
  - destruct Hpre as [Hp|Hp].
    + pose proof (prefix_lookup_Some _ _ _ _ H1 Hp). congruence.
    + pose proof (prefix_lookup_Some _ _ _ _ H2 Hp). congruence.
  - by apply Hok1 in H1 as [-> _].
Qed.
End controllers.

(** ** A concrete run: two controllers apply a Join *)
Module CtrlClusterDemo.
Import CtrlDemo.
#[export] Instance Op_ser : Serial.Ser Op :=
  Serial.ser_via
    (fun o => (Type_ o, ClientId o, SeqId o, Servers o, GIDs o, Shard o, GID o, Num o))
    (fun '(a, b, c, d, e, f, g, h) =>
       {| Type_ := a; ClientId := b; SeqId := c; Servers := d; GIDs := e; Shard := f;
          GID := g; Num := h |}).
#[export] Instance Op_ser_laws : Serial.SerLaws Op.
Proof. apply Serial.ser_via_laws. by intros []. Qed.
#[export] Instance op_codec : Codec (RaftPersist Op) := Serial.codec _.
#[export] Instance op_codec_laws : CodecLaws (RaftPersist Op) := Serial.codec_laws _.

Definition joined : State * applyResult :=
  default (initial, wrongLeader) (execute join1 initial).
End CtrlClusterDemo.
Import CtrlDemo CtrlClusterDemo.

Lemma controllers_one_history_witness :
  exists sy : Sys Op State, sys_reachable 3 sy /\
    length (configs (ap_st (sys_apps sy 1))) = 2%nat /\
    forall c1 c2, configs (ap_st (sys_apps sy 0)) !! 1%nat = Some c1 ->
      configs (ap_st (sys_apps sy 1)) !! 1%nat = Some c2 -> c1 = c2.
Proof.
  destruct (demo_run (St := State) join1 joined.1 joined.2) as (sy & Hr & H0 & H1);
    [vm_compute; reflexivity|].
  exists sy. split; [exact Hr|]. split; [rewrite H1; vm_compute; reflexivity|].
  intros c1 c2 E1 E2.
  destruct (controllers_one_history 3 sy sy 0 1 Hr (rtc_refl _ _)) as [_ Hk]; [lia|lia|].
  by destruct (Hk 1%nat c1 c2 E1 E2).
Defined.
