(* ===== verification/ShardKV.v ===== *)
(** * The sharded key/value server and its clerk (src/src/shardkv)

    One replica group: the replicated state ([State]), what the applier executes
    ([execute]: client operations, configuration changes, shard installation and
    garbage collection), the RPC handlers, the rounds of the three background
    goroutines, snapshots and the clerk.  Properties are in ShardKVProps. *)
From S2P Require Import Prelude Persister Serial RaftNode RaftLocal Notify Service ClientId Clerk ShardConfig ShardCtrler.

Module ShardKV.
Definition OK : string := "OK".
Definition ErrNoKey : string := "ErrNoKey".
Definition ErrWrongGroup : string := "ErrWrongGroup".
Definition ErrWrongLeader : string := "ErrWrongLeader".
Definition ErrTimeout : string := "ErrTimeout".
Definition ErrNotReady : string := "ErrNotReady".

(** ** Data (common.go, server.go 37-134) *)

Inductive ShardState := Serving | Pulling | BePulling | GCing.
#[export] Instance ShardState_eq_dec : EqDecision ShardState.
Proof. solve_decision. Defined.

Record Shard := { State_ : ShardState; KV : gmap string string }.

Definition newShard : Shard := {| State_ := Serving; KV := ∅ |}.

(** A fresh map with the same entries. *)
Definition cloneKV (s : Shard) : gmap string string :=
  foldl (fun m p => <[p.1 := p.2]> m) ∅ (map_to_list (KV s)).

Record PutAppendArgs := {
  pa_Key : string; pa_Value : string; pa_Op : string; pa_ClientId : Z; pa_SeqId : Z }.
Record PutAppendReply := { par_Err : string }.
Record GetArgs := { ga_Key : string; ga_ClientId : Z; ga_SeqId : Z }.
Record GetReply := { gr_Err : string; gr_Value : string }.

Record DupEntry := { de_SeqId : Z; de_Err : string; de_Value : string }.

Record PullShardArgs := { ps_ConfigNum : Z; ps_ShardIds : list Z }.
Record PullShardReply := {
  psr_Err : string;
  psr_Shards : gmap Z (gmap string string);
  psr_DupTable : gmap Z DupEntry;
}.
Record GCArgs := { gc_ConfigNum : Z; gc_ShardIds : list Z }.
Record GCReply := { gcr_Err : string }.

Record Op := {
  InternalId : Z;
  Type_ : string; ClientId : Z; SeqId : Z;
  Key : string; Value : string;
  Config_ : Config;
  ConfigNum : Z; Shards_ : gmap Z (gmap string string); DupTable : gmap Z DupEntry;
  GCConfigNum : Z; GCShardIds : list Z;
}.

Record applyResult := { ar_InternalId : Z; ar_Err : string; ar_Value : string }.

(** The replicated part of [ShardKV]; the group's own gid is a parameter. *)
Record State := {
  config : Config;
  lastConfig : Config;
  shards : list Shard;
  dupTable : gmap Z DupEntry;
}.

Definition with_shards (l : list Shard) (s : State) : State :=
  {| config := config s; lastConfig := lastConfig s; shards := l; dupTable := dupTable s |}.
Definition with_dup (d : gmap Z DupEntry) (s : State) : State :=
  {| config := config s; lastConfig := lastConfig s; shards := shards s; dupTable := d |}.

(** client.go 13-20: the first byte of the key, modulo the number of shards. *)
Definition key2shard (key : string) : Z :=
  let shard := match key with
               | EmptyString => 0
               | String c _ => Z.of_N (Ascii.N_of_ascii c)
               end in
  shard mod Z.of_nat NShards.

Section machine.
Context `{MapOrder} (gid : Z).

(** ** Client operations (server.go 357-374) *)

(** [kv.shards[id].f = ...] *)
Definition setState (id : Z) (x : ShardState) (s : State) : option State :=
  sh ← zget (shards s) id;
  l ← zset (shards s) id {| State_ := x; KV := KV sh |};
  Some (with_shards l s).
Definition setKV (id : Z) (m : gmap string string) (s : State) : option State :=
  sh ← zget (shards s) id;
  l ← zset (shards s) id {| State_ := State_ sh; KV := m |};
  Some (with_shards l s).

Definition applyKVOp (op : Op) (s : State) : option (State * (string * string)) :=
  let shardId := key2shard (Key op) in
  sh ← zget (shards s) shardId;
  if String.eqb (Type_ op) "Get" then
    Some (s, match KV sh !! Key op with
             | None => (ErrNoKey, EmptyString)
             | Some v => (OK, v)
             end)
  else if String.eqb (Type_ op) "Put" then
    s ← setKV shardId (<[Key op := Value op]> (KV sh)) s;
    Some (s, (OK, EmptyString))
  else if String.eqb (Type_ op) "Append" then
    s ← setKV shardId (<[Key op := default EmptyString (KV sh !! Key op) +:+ Value op]> (KV sh)) s;
    Some (s, (OK, EmptyString))
  else Some (s, (ErrNoKey, EmptyString)).

(** ** Administrative operations (server.go 378-456) *)

(** The body of the loop of OpConfig over the shards, for shard [i]. *)
Definition configShard (i : Z) (s : State) : option State :=
  now ← zget (Shards (config s)) i;
  prevGid ← zget (Shards (lastConfig s)) i;
  let nowOwner := now =? gid in
  let wasOwner := prevGid =? gid in
  s ← (if nowOwner && negb wasOwner
       then (if prevGid =? 0 then setState i Serving s else setState i Pulling s)
       else Some s);
  if negb nowOwner && wasOwner then setState i BePulling s else Some s.

Fixpoint foldShards {A} (f : A -> State -> option State) (ids : list A) (s : State) :
    option State :=
  match ids with
  | [] => Some s
  | i :: ids => s ← f i s; foldShards f ids s
  end.

(** [range op.Shards]: install one shard. *)
Definition installShard (data : gmap Z (gmap string string)) (id : Z) (s : State) :
    option State :=
  sh ← zget (shards s) id;
  if bool_decide (State_ sh = Pulling) then
    let newKV := cloneKV {| State_ := Pulling; KV := default ∅ (data !! id) |} in
    s ← setKV id newKV s;
    setState id GCing s
  else Some s.

(** [range op.DupTable]: keep the newer entry. *)
Definition mergeEntry (theirs : gmap Z DupEntry) (ours : gmap Z DupEntry) (c : Z) :
    gmap Z DupEntry :=
  match theirs !! c with
  | None => ours
  | Some entry =>
      match ours !! c with
      | Some existing => if de_SeqId existing <? de_SeqId entry then <[c := entry]> ours else ours
      | None => <[c := entry]> ours
      end
  end.

Definition mergeDup (theirs ours : gmap Z DupEntry) : gmap Z DupEntry :=
  foldl (mergeEntry theirs) ours (range_keys theirs).

Definition gcShard (num id : Z) (s : State) : option State :=
  sh ← zget (shards s) id;
  match State_ sh with
  | BePulling =>
      if ShardConfig.Num (config s) =? num
      then s ← setKV id ∅ s; setState id Serving s
      else Some s
  | GCing =>
      if ShardConfig.Num (config s) =? num then setState id Serving s else Some s
  | _ => Some s
  end.

Definition applyAdminOp (op : Op) (s : State) : option State :=
  if String.eqb (Type_ op) "Config" then
    if negb (ShardConfig.Num (Config_ op) =? ShardConfig.Num (config s) + 1) then Some s
    else
      foldShards configShard (zrange NShards)
        {| config := Config_ op; lastConfig := config s; shards := shards s;
           dupTable := dupTable s |}
  else if String.eqb (Type_ op) "Install" then
    if negb (ConfigNum op =? ShardConfig.Num (config s)) then Some s
    else
      s ← foldShards (installShard (Shards_ op)) (range_keys (Shards_ op)) s;
      Some (with_dup (mergeDup (DupTable op) (dupTable s)) s)
  else if String.eqb (Type_ op) "GC" then
    foldShards (gcShard (GCConfigNum op)) (GCShardIds op) s
  else Some s.

(** ** The applier's critical section (server.go 303-336) *)

Definition isKVOp (op : Op) : bool :=
  String.eqb (Type_ op) "Get" || String.eqb (Type_ op) "Put" || String.eqb (Type_ op) "Append".

(** The group owns the shard and has its data. *)
Definition serves (s : State) (id : Z) : option bool :=
  sh ← zget (shards s) id;
  owner ← zget (Shards (config s)) id;
  Some ((owner =? gid) &&
        (bool_decide (State_ sh = Serving) || bool_decide (State_ sh = GCing))).

Definition result (op : Op) (r : string * string) : applyResult :=
  {| ar_InternalId := InternalId op; ar_Err := r.1; ar_Value := r.2 |}.

Definition execute (op : Op) (s : State) : option (State * applyResult) :=
  if isKVOp op then
    ok ← serves s (key2shard (Key op));
    if negb ok then Some (s, result op (ErrWrongGroup, EmptyString))
    else if negb (String.eqb (Type_ op) "Get") then
      let run :=
        '(s', r) ← applyKVOp op s;
        Some (with_dup (<[ClientId op := {| de_SeqId := SeqId op; de_Err := r.1;
                                           de_Value := r.2 |}]> (dupTable s')) s', result op r) in
      match dupTable s !! ClientId op with
      | Some last =>
          if SeqId op <=? de_SeqId last then Some (s, result op (de_Err last, de_Value last))
          else run
      | None => run
      end
    else '(s', r) ← applyKVOp op s; Some (s', result op r)
  else s' ← applyAdminOp op s; Some (s', result op (OK, EmptyString)).

(** server.go 667-669: all shards Serving and empty. *)
Definition initialState : State :=
  {| config := Config_zero; lastConfig := Config_zero;
     shards := replicate NShards newShard; dupTable := ∅ |}.

Definition machine : Service.StateMachine Op State applyResult Z := {|
  Service.op_id := InternalId;
  Service.exec := execute;
  Service.initial := initialState;
|}.
End machine.

(** ** The server *)
Section server.
Context `{MapOrder} `{!Codec (RaftPersist Op)} `{!Codec State} (gid : Z).
#[local] Instance group_machine : Service.StateMachine Op State applyResult Z := machine gid.
Notation ShardKV := (Service.Server Op State applyResult Z).

(** server.go 281-353 *)
Definition applier (msg : ApplyMsg Op) (kv : ShardKV) :
    option (ShardKV * option (nat * applyResult)) := Service.applier msg kv.

(** server.go 599-629 *)
Definition doSnapshot (index : Z) (kv : ShardKV) : option ShardKV := Service.doSnapshot index kv.
Definition installSnapshot (data : bytes) (kv : ShardKV) : ShardKV :=
  Service.installSnapshot data kv.

(** server.go 633-640 *)
Definition Kill (kv : ShardKV) : ShardKV := Service.Kill kv.
Definition killed (kv : ShardKV) : bool := Service.dead kv.

(** server.go 644-686 *)
Definition StartServer (n : nat) (i : Z) (ps : Persister.t) (maxraftstate r : Z) : ShardKV :=
  Service.StartServer n i ps maxraftstate r.

(** *** submitOp (server.go 242-277) in its parts; [id] is the draw of [nrand] *)
Definition with_InternalId (id : Z) (op : Op) : Op :=
  {| InternalId := id; Type_ := Type_ op; ClientId := ClientId op; SeqId := SeqId op;
     Key := Key op; Value := Value op; Config_ := Config_ op; ConfigNum := ConfigNum op;
     Shards_ := Shards_ op; DupTable := DupTable op; GCConfigNum := GCConfigNum op;
     GCShardIds := GCShardIds op |}.

Definition wrongLeader : applyResult :=
  {| ar_InternalId := 0; ar_Err := ErrWrongLeader; ar_Value := EmptyString |}.

Definition submitOp_start (id : Z) (op : Op) (kv : ShardKV) :
    option (ShardKV * option Z) := Service.submit (with_InternalId id op) kv.
Definition submitOp_register (index id : Z) (op : Op) (ch : nat) (kv : ShardKV) :
    option ShardKV := Service.register wrongLeader index (with_InternalId id op) ch kv.
Definition submitOp_return (a : @Notify.Answer applyResult) : string * string :=
  match a with
  | Notify.Result r => (ar_Err r, ar_Value r)
  | Notify.WrongLeader => (ErrWrongLeader, EmptyString)
  | Notify.Timeout => (ErrTimeout, EmptyString)
  end.

(** *** Handlers *)

(** The operations of [Get] and [PutAppend] (server.go 138-162). *)
Definition clientOp (type : string) (client seq : Z) (key value : string) : Op :=
  {| InternalId := 0; Type_ := type; ClientId := client; SeqId := seq; Key := key;
     Value := value; Config_ := Config_zero; ConfigNum := 0; Shards_ := ∅;
     DupTable := ∅; GCConfigNum := 0; GCShardIds := [] |}.
Definition getOp (a : GetArgs) : Op :=
  clientOp "Get" (ga_ClientId a) (ga_SeqId a) (ga_Key a) EmptyString.
Definition putAppendOp (a : PutAppendArgs) : Op :=
  clientOp (pa_Op a) (pa_ClientId a) (pa_SeqId a) (pa_Key a) (pa_Value a).

(** [kv.rf.GetState()].  The callers ask just before they take [kv.mu]; here both
    happen in one state, since nothing below relies on the leadership lasting. *)
Definition isLeader (kv : ShardKV) : bool := (GetState (Service.rf kv)).2.

(** [reply.Shards[shardId] = kv.shards[shardId].cloneKV()] for every id. *)
Fixpoint cloneShards (ids : list Z) (l : list Shard) (acc : gmap Z (gmap string string)) :
    option (gmap Z (gmap string string)) :=
  match ids with
  | [] => Some acc
  | id :: ids => sh ← zget l id; cloneShards ids l (<[id := cloneKV sh]> acc)
  end.

(** The loop that copies [kv.dupTable]. *)
Definition cloneDup (d : gmap Z DupEntry) : gmap Z DupEntry :=
  foldl (fun m p => <[p.1 := p.2]> m) ∅ (map_to_list d).

Definition PullShard (args : PullShardArgs) (kv : ShardKV) : option PullShardReply :=
  let fail e := {| psr_Err := e; psr_Shards := ∅; psr_DupTable := ∅ |} in
  if negb (isLeader kv) then Some (fail ErrWrongLeader)
  else if ShardConfig.Num (config (Service.st kv)) <? ps_ConfigNum args
  then Some (fail ErrNotReady)
  else
    m ← cloneShards (ps_ShardIds args) (shards (Service.st kv)) ∅;
    Some {| psr_Err := OK; psr_Shards := m; psr_DupTable := cloneDup (dupTable (Service.st kv)) |}.

(** Is any of the shards still waiting to be collected? *)
Fixpoint allGCed (ids : list Z) (l : list Shard) : option bool :=
  match ids with
  | [] => Some true
  | id :: ids => sh ← zget l id;
                 if bool_decide (State_ sh = BePulling) then Some false else allGCed ids l
  end.

(** [GCShard] up to [submitOp]: an immediate reply, or the operation to submit. *)
Definition GCShard (args : GCArgs) (kv : ShardKV) : option (GCReply + Op) :=
  if negb (isLeader kv) then Some (inl {| gcr_Err := ErrWrongLeader |})
  else if gc_ConfigNum args <? ShardConfig.Num (config (Service.st kv))
  then Some (inl {| gcr_Err := OK |})
  else
    done ← allGCed (gc_ShardIds args) (shards (Service.st kv));
    if (done : bool) then Some (inl {| gcr_Err := OK |})
    else Some (inr {| InternalId := 0; Type_ := "GC"; ClientId := 0; SeqId := 0;
                      Key := EmptyString; Value := EmptyString; Config_ := Config_zero;
                      ConfigNum := 0; Shards_ := ∅; DupTable := ∅;
                      GCConfigNum := gc_ConfigNum args; GCShardIds := gc_ShardIds args |}).

(** *** Background goroutines: one round each *)

Definition allStable (l : list Shard) : bool :=
  forallb (fun sh => bool_decide (State_ sh = Serving)) l.

(** [configPoller] (server.go 463-490): the number it queries, if it does ... *)
Definition configPoller_query (kv : ShardKV) : option Z :=
  if isLeader kv && allStable (shards (Service.st kv))
  then Some (ShardConfig.Num (config (Service.st kv)) + 1)
  else None.

(** ... and what it hands to [rf.Start] once the controller answered [newCfg] to a
    query for [currentNum + 1]. *)
Definition configPoller_start (currentNum id : Z) (newCfg : Config) : option Op :=
  if ShardConfig.Num newCfg =? currentNum + 1
  then Some {| InternalId := id; Type_ := "Config"; ClientId := 0; SeqId := 0;
               Key := EmptyString; Value := EmptyString; Config_ := newCfg;
               ConfigNum := 0; Shards_ := ∅; DupTable := ∅; GCConfigNum := 0;
               GCShardIds := [] |}
  else None.

(** The shards in a given state, by the group that owned them before. *)
Fixpoint groupShards (x : ShardState) (i : Z) (l : list Shard) (owners : list Z)
    (acc : gmap Z (list Z)) : option (gmap Z (list Z)) :=
  match l with
  | [] => Some acc
  | sh :: l =>
      if bool_decide (State_ sh = x) then
        g ← zget owners i;
        groupShards x (i + 1) l owners (<[g := mget acc g ++ [i]]> acc)
      else groupShards x (i + 1) l owners acc
  end.

(** [migrationPuller] (server.go 498-543): the calls of a round, per group ... *)
Definition migrationPuller_calls (kv : ShardKV) : option (gmap Z (list Z)) :=
  if isLeader kv
  then groupShards Pulling 0 (shards (Service.st kv)) (Shards (lastConfig (Service.st kv))) ∅
  else Some ∅.

(** ... and what the goroutine of one group hands to [rf.Start]: its servers (by the
    last configuration) are called in turn and the first success is installed. *)
Fixpoint pullFrom (configNum id : Z) (servers : list string)
    (call : string -> option PullShardReply) : option Op :=
  match servers with
  | [] => None
  | server :: servers =>
      match call server with
      | Some r =>
          if String.eqb (psr_Err r) OK
          then Some {| InternalId := id; Type_ := "Install"; ClientId := 0; SeqId := 0;
                       Key := EmptyString; Value := EmptyString; Config_ := Config_zero;
                       ConfigNum := configNum; Shards_ := psr_Shards r;
                       DupTable := psr_DupTable r; GCConfigNum := 0; GCShardIds := [] |}
          else pullFrom configNum id servers call
      | None => pullFrom configNum id servers call
      end
  end.

Definition migrationPuller_start (configNum id from : Z) (lastCfg : Config)
    (call : string -> option PullShardReply) : option Op :=
  servers ← Groups lastCfg !! from; pullFrom configNum id servers call.

(** [gcHandler] (server.go 550-595), in the same two parts. *)
Definition gcHandler_calls (kv : ShardKV) : option (gmap Z (list Z)) :=
  if isLeader kv
  then groupShards GCing 0 (shards (Service.st kv)) (Shards (lastConfig (Service.st kv))) ∅
  else Some ∅.

Fixpoint notifyGC (configNum id : Z) (ids : list Z) (servers : list string)
    (call : string -> option GCReply) : option Op :=
  match servers with
  | [] => None
  | server :: servers =>
      match call server with
      | Some r =>
          if String.eqb (gcr_Err r) OK
          then Some {| InternalId := id; Type_ := "GC"; ClientId := 0; SeqId := 0;
                       Key := EmptyString; Value := EmptyString; Config_ := Config_zero;
                       ConfigNum := 0; Shards_ := ∅; DupTable := ∅;
                       GCConfigNum := configNum; GCShardIds := ids |}
          else notifyGC configNum id ids servers call
      | None => notifyGC configNum id ids servers call
      end
  end.

Definition gcHandler_start (configNum id from : Z) (ids : list Z) (lastCfg : Config)
    (call : string -> option GCReply) : option Op :=
  servers ← Groups lastCfg !! from; notifyGC configNum id ids servers call.
End server.
End ShardKV.

(** ** The clerk (client.go) *)
Module ShardClerk.
Import ShardKV.

Definition genClientId := ClientId.genClientId.

Record Clerk := {
  ck_config : Config;
  clientId : Z;
  seqId : Z;
  leaderIds : gmap Z Z;
}.

(** client.go 72-81; [cfg] is the answer to [Query(-1)]. *)
Definition MakeClerk (id : Z) (cfg : Config) : Clerk :=
  {| ck_config := cfg; clientId := id; seqId := 0; leaderIds := ∅ |}.

Definition nextSeq (ck : Clerk) : Z * Clerk :=
  let seq := ClientId.int64 (seqId ck + 1) in
  (seq, {| ck_config := ck_config ck; clientId := clientId ck; seqId := seq;
           leaderIds := leaderIds ck |}).

(** What the inner loop over the servers of a group ends with. *)
Inductive Round (Res : Type) := Return (v : Res) (si : Z) | Refresh.
Arguments Return {Res} _ _.
Arguments Refresh {Res}.

Section rounds.
Context {Reply Res : Type}.
Context (decisive : option Reply -> option Res) (wrongGroup : option Reply -> bool).

(** [for i := 0; i < len(servers); i++], at server [si]; [call server k] is the
    outcome of the [k]-th call.  [None]: index out of range. *)
Fixpoint tryServers (fuel : nat) (servers : list string) (si : Z)
    (call : string -> nat -> option Reply) (k : nat) : option (Round Res * list string) :=
  match fuel with
  | O => Some (Refresh, [])
  | S fuel =>
      srv ← zget servers si;
      let o := call srv k in
      match decisive o with
      | Some v => Some (Return v si, [srv])
      | None =>
          if wrongGroup o then Some (Refresh, [srv])
          else '(r, srvs) ← tryServers fuel servers ((si + 1) mod zlen servers) call (S k);
               Some (r, srv :: srvs)
      end
  end.

(** One iteration of the outer loop, without the sleep and the final [Query]. *)
Definition round (key : string) (call : string -> nat -> option Reply) (ck : Clerk) :
    option (Round Res * list string) :=
  gid ← zget (Shards (ck_config ck)) (key2shard key);
  match Groups (ck_config ck) !! gid with
  | None => Some (Refresh, [])
  | Some servers =>
      tryServers (length servers) servers (default 0 (leaderIds ck !! gid)) call 0
  end.
End rounds.

(** The conditions of [Get] and [PutAppend] on a reply. *)
Definition get_decisive (o : option GetReply) : option string :=
  match o with
  | Some r => if String.eqb (gr_Err r) OK then Some (gr_Value r)
              else if String.eqb (gr_Err r) ErrNoKey then Some EmptyString else None
  | None => None
  end.
Definition get_wrongGroup (o : option GetReply) : bool :=
  match o with Some r => String.eqb (gr_Err r) ErrWrongGroup | None => false end.
Definition put_decisive (o : option PutAppendReply) : option unit :=
  match o with
  | Some r => if String.eqb (par_Err r) OK then Some tt else None
  | None => None
  end.
Definition put_wrongGroup (o : option PutAppendReply) : bool :=
  match o with Some r => String.eqb (par_Err r) ErrWrongGroup | None => false end.

(** The whole call: one configuration and one call function per round, until a
    round returns ([None] as result while the clerk is still trying). *)
Fixpoint operate {Reply Res} (decisive : option Reply -> option Res)
    (wrongGroup : option Reply -> bool) (key : string)
    (rounds : list ((string -> nat -> option Reply) * Config)) (ck : Clerk) :
    option (Clerk * option Res) :=
  match rounds with
  | [] => Some (ck, None)
  | (call, newCfg) :: rounds =>
      '(r, _) ← round decisive wrongGroup key call ck;
      match r with
      | Return v si =>
          gid ← zget (Shards (ck_config ck)) (key2shard key);
          Some ({| ck_config := ck_config ck; clientId := clientId ck; seqId := seqId ck;
                   leaderIds := <[gid := si]> (leaderIds ck) |}, Some v)
      | Refresh =>
          operate decisive wrongGroup key rounds
            {| ck_config := newCfg; clientId := clientId ck; seqId := seqId ck;
               leaderIds := leaderIds ck |}
      end
  end.

Definition Get (key : string)
    (rounds : GetArgs -> list ((string -> nat -> option GetReply) * Config)) (ck : Clerk) :
    option (Clerk * option string) :=
  let '(seq, ck) := nextSeq ck in
  operate get_decisive get_wrongGroup key
    (rounds {| ga_Key := key; ga_ClientId := clientId ck; ga_SeqId := seq |}) ck.

Definition PutAppend (key value op : string)
    (rounds : PutAppendArgs -> list ((string -> nat -> option PutAppendReply) * Config))
    (ck : Clerk) : option (Clerk * option unit) :=
  let '(seq, ck) := nextSeq ck in
  operate put_decisive put_wrongGroup key
    (rounds {| pa_Key := key; pa_Value := value; pa_Op := op; pa_ClientId := clientId ck;
               pa_SeqId := seq |}) ck.

Definition Put (key value : string) := PutAppend key value "Put".
Definition Append (key value : string) := PutAppend key value "Append".
End ShardClerk.
