(* ===== verification/ShardKVProps.v ===== *)
(** * The sharded key/value server: one group

    The shard state machine as pointwise updates, the invariant that ties shard
    states to the two configurations, and the theorems about one replica group:
    what each operation does on every branch, the transitions a shard can make,
    and that configurations change only between complete migrations. *)
From S2P Require Import Prelude Persister Serial RaftNode RaftLocal Notify Service ShardConfig ShardKV.
Import ShardKV.

(** ** Pointwise updates of the shards *)

(** Apply [f] to shard [i]. *)
Definition update (f : Z -> Shard -> Shard) (i : Z) (s : State) : option State :=
  sh ← zget (shards s) i;
  l ← zset (shards s) i (f i sh);
  Some (with_shards l s).

(** The state after updating the shards [ids]. *)
Definition updated (f : Z -> Shard -> Shard) (ids : list Z) (s s' : State) : Prop :=
  config s' = config s /\ lastConfig s' = lastConfig s /\ dupTable s' = dupTable s /\
  zlen (shards s') = zlen (shards s) /\
  forall j, zget (shards s') j =
    if bool_decide (j ∈ ids) then f j <$> zget (shards s) j else zget (shards s) j.

Lemma update_spec f i s :
  0 <= i < zlen (shards s) -> exists s', update f i s = Some s' /\ updated f [i] s s'.
Proof.
  intros Hi. unfold update. destruct (zget_in_range _ _ Hi) as [sh Hsh]. rewrite Hsh.
  cbn [mbind option_bind]. rewrite zset_Some by done. cbn [mbind option_bind].
  eexists. split; [done|]. split_and!; try done; cbn; [apply zlen_insert|].
  intros j. rewrite zget_insert. unfold zlen in Hi. case_decide as Hd.
  - destruct Hd as [-> _]. rewrite Z2Nat.id by lia.
    rewrite bool_decide_eq_true_2 by constructor. by rewrite Hsh.
  - rewrite bool_decide_eq_false_2; [done|]. rewrite list_elem_of_singleton.
    intros ->. apply Hd. lia.
Qed.

(** A loop of updates, for an idempotent update. *)
Lemma foldShards_updated f g ids s :
  (forall i sh, f i (f i sh) = f i sh) ->
  (forall i, i ∈ ids -> 0 <= i < zlen (shards s)) ->
  (forall i s', i ∈ ids -> config s' = config s -> lastConfig s' = lastConfig s ->
     zlen (shards s') = zlen (shards s) -> g i s' = update f i s') ->
  exists s', foldShards g ids s = Some s' /\ updated f ids s s'.
Proof.
  intros Hid. revert s. induction ids as [|i ids IH]; intros s Hr Hg; cbn.
  { exists s. split; [done|]. split_and!; done. }
  destruct (update_spec f i s) as (s1 & E1 & C1 & L1 & D1 & Z1 & P1); [apply Hr; constructor|].
  rewrite Hg, E1 by (done || constructor). cbn [mbind option_bind].
  destruct (IH s1) as (s2 & E2 & C2 & L2 & D2 & Z2 & P2).
  { intros j Hj. rewrite Z1. apply Hr. by constructor. }
  { intros j s' Hj ? ? ?. apply Hg; [by constructor|congruence..]. }
  exists s2. split; [done|]. split_and!; try congruence.
  intros j. rewrite P2, P1. destruct (decide (j = i)) as [->|Hne].
  - rewrite (bool_decide_eq_true_2 (i ∈ [i])), (bool_decide_eq_true_2 (i ∈ i :: ids))
      by constructor.
    case_bool_decide; [|done]. destruct (zget (shards s) i) as [sh|]; cbn; [|done]. by rewrite Hid.
  - rewrite (bool_decide_eq_false_2 (j ∈ [i])) by (by rewrite list_elem_of_singleton).
    rewrite (bool_decide_ext (j ∈ i :: ids) (j ∈ ids)); [done|].
    rewrite elem_of_cons. naive_solver.
Qed.

(** ** The updates of the code *)

(** Ten shards, and ten owners in both configurations. *)
Record state_wf (s : State) : Prop := {
  swf_shards : zlen (shards s) = Z.of_nat NShards;
  swf_config : zlen (Shards (config s)) = Z.of_nat NShards;
  swf_last : zlen (Shards (lastConfig s)) = Z.of_nat NShards;
}.

Definition owner (c : Config) (i : Z) : Z := default 0 (zget (Shards c) i).

Definition set_state (x : ShardState) (sh : Shard) : Shard := {| State_ := x; KV := KV sh |}.

(** The state of shard [i] of group [gid] after the configuration changed from
    [prev] to [now]. *)
Definition config_update (gid : Z) (now prev : Config) (i : Z) (sh : Shard) : Shard :=
  if (owner now i =? gid) && negb (owner prev i =? gid)
  then set_state (if owner prev i =? 0 then Serving else Pulling) sh
  else if negb (owner now i =? gid) && (owner prev i =? gid) then set_state BePulling sh
  else sh.

Definition install_update (data : gmap Z (gmap string string)) (i : Z) (sh : Shard) : Shard :=
  if bool_decide (State_ sh = Pulling)
  then {| State_ := GCing; KV := default ∅ (data !! i) |} else sh.

Definition gc_update (current : bool) (i : Z) (sh : Shard) : Shard :=
  match State_ sh with
  | BePulling => if current then newShard else sh
  | GCing => if current then set_state Serving sh else sh
  | _ => sh
  end.

Lemma cloneKV_spec sh : cloneKV sh = KV sh.
Proof. apply map_copy. Qed.

Lemma setState_update x i s :
  setState i x s = update (fun _ => set_state x) i s.
Proof. done. Qed.

Lemma setState_update_fun x i (o : option State) :
  (s' ← o; setState i x s') = (s' ← o; update (fun _ => set_state x) i s').
Proof. by destruct o. Qed.

Lemma update_update f g i s :
  (s' ← update f i s; update g i s') = update (fun i sh => g i (f i sh)) i s.
Proof.
  unfold update. destruct (zget (shards s) i) as [sh|] eqn:E; [|done]. cbn [mbind option_bind].
  pose proof (zget_Some_lt _ _ _ E) as Hr. rewrite zset_Some by done. cbn [mbind option_bind with_shards shards].
  rewrite zget_insert, decide_True by (unfold zlen in *; lia). cbn [mbind option_bind].
  rewrite !zset_Some by (rewrite ?zlen_insert; done). cbn [mbind option_bind].
  unfold with_shards. cbn. by rewrite list_insert_insert_eq.
Qed.

Lemma update_id f i s sh :
  zget (shards s) i = Some sh -> f i sh = sh -> update f i s = Some s.
Proof.
  intros E Hf. pose proof (zget_Some_lt _ _ _ E) as Hr.
  unfold update. rewrite E. cbn [mbind option_bind]. rewrite zset_Some, Hf by done. cbn.
  apply zget_Some_lookup in E as [_ E]. rewrite list_insert_id by done. by destruct s.
Qed.

Lemma update_ext f g i s sh :
  zget (shards s) i = Some sh -> f i sh = g i sh -> update f i s = update g i s.
Proof. intros E Hf. unfold update. rewrite E. cbn [mbind option_bind]. by rewrite Hf. Qed.

Lemma configShard_update gid i s :
  state_wf s -> 0 <= i < Z.of_nat NShards ->
  configShard gid i s = update (config_update gid (config s) (lastConfig s)) i s.
Proof.
  intros [W1 W2 W3] Hi. unfold configShard.
  destruct (zget_in_range (Shards (config s)) i) as [n Hn]; [lia|].
  destruct (zget_in_range (Shards (lastConfig s)) i) as [p Hp]; [lia|].
  destruct (zget_in_range (shards s) i) as [sh Hsh]; [lia|].
  assert (config_update gid (config s) (lastConfig s) i sh =
    if (n =? gid) && negb (p =? gid) then set_state (if p =? 0 then Serving else Pulling) sh
    else if negb (n =? gid) && (p =? gid) then set_state BePulling sh else sh) as HU.
  { unfold config_update, owner. by rewrite Hn, Hp. }
  rewrite Hn, Hp. cbn [mbind option_bind]. rewrite !setState_update.
  destruct (n =? gid), (p =? gid); cbn [andb negb mbind option_bind] in *.
  - symmetry. by eapply update_id.
  - transitivity (update (config_update gid (config s) (lastConfig s)) i s).
    + destruct (p =? 0); (erewrite (update_ext (fun _ => set_state _)); [|done|by rewrite HU]);
        by destruct (update _ i s).
    + done.
  - rewrite setState_update. eapply update_ext; [done|]. by rewrite HU.
  - symmetry. by eapply update_id.
Qed.

Lemma installShard_update data i s sh :
  zget (shards s) i = Some sh ->
  installShard data i s = update (install_update data) i s.
Proof.
  intros Hsh. unfold installShard. rewrite Hsh. cbn [mbind option_bind].
  assert (install_update data i sh = if bool_decide (State_ sh = Pulling)
    then {| State_ := GCing; KV := default ∅ (data !! i) |} else sh) as HU by done.
  case_bool_decide.
  - rewrite cloneKV_spec.
    change (setKV i _ s) with (update (fun _ sh => {| State_ := State_ sh; KV := default ∅ (data !! i) |}) i s).
    rewrite setState_update_fun, update_update. eapply update_ext; [done|]. by rewrite HU.
  - symmetry. by eapply update_id.
Qed.

Lemma gcShard_update num i s sh :
  zget (shards s) i = Some sh ->
  gcShard num i s = update (gc_update (ShardConfig.Num (config s) =? num)) i s.
Proof.
  intros Hsh. unfold gcShard. rewrite Hsh. cbn [mbind option_bind].
  assert (gc_update (ShardConfig.Num (config s) =? num) i sh =
    match State_ sh with
    | BePulling => if ShardConfig.Num (config s) =? num then newShard else sh
    | GCing => if ShardConfig.Num (config s) =? num then set_state Serving sh else sh
    | _ => sh
    end) as HU by done.
  destruct (State_ sh); try (symmetry; by eapply update_id).
  - destruct (ShardConfig.Num (config s) =? num); [|symmetry; by eapply update_id].
    change (setKV i ∅ s) with (update (fun _ sh => {| State_ := State_ sh; KV := ∅ |}) i s).
    rewrite setState_update_fun, update_update. eapply update_ext; [done|]. by rewrite HU.
  - destruct (ShardConfig.Num (config s) =? num); [|symmetry; by eapply update_id].
    rewrite setState_update. eapply update_ext; [done|]. by rewrite HU.
Qed.

(** ** What one operation does to the shards *)

(** The arguments an operation indexes with are in range (the configurations come
    from the controller and have ten shards). *)
Definition op_ok (op : Op) : Prop :=
  length (Shards (Config_ op)) = NShards /\
  (forall i, is_Some (Shards_ op !! i) -> 0 <= i < Z.of_nat NShards) /\
  (forall i, i ∈ GCShardIds op -> 0 <= i < Z.of_nat NShards).

(** The five ways in which [execute] can change the state. *)
Inductive change (gid : Z) (op : Op) (s s' : State) : Prop :=
  | ch_client :
      isKVOp op = true -> config s' = config s -> lastConfig s' = lastConfig s ->
      (forall j, State_ <$> zget (shards s') j = State_ <$> zget (shards s) j) ->
      change gid op s s'
  | ch_none : isKVOp op = false -> s' = s -> change gid op s s'
  | ch_config :
      Type_ op = "Config"%string -> config s' = Config_ op -> lastConfig s' = config s ->
      ShardConfig.Num (Config_ op) = ShardConfig.Num (config s) + 1 ->
      (forall j, zget (shards s') j =
                 config_update gid (Config_ op) (config s) j <$> zget (shards s) j) ->
      change gid op s s'
  | ch_install :
      Type_ op = "Install"%string -> config s' = config s -> lastConfig s' = lastConfig s ->
      ConfigNum op = ShardConfig.Num (config s) ->
      (forall j, zget (shards s') j =
         if bool_decide (is_Some (Shards_ op !! j))
         then install_update (Shards_ op) j <$> zget (shards s) j else zget (shards s) j) ->
      change gid op s s'
  | ch_gc :
      Type_ op = "GC"%string -> config s' = config s -> lastConfig s' = lastConfig s ->
      (forall j, zget (shards s') j =
         if bool_decide (j ∈ GCShardIds op)
         then gc_update (ShardConfig.Num (config s) =? GCConfigNum op) j <$> zget (shards s) j
         else zget (shards s) j) ->
      change gid op s s'.

Lemma config_update_idemp gid now prev i sh :
  config_update gid now prev i (config_update gid now prev i sh) = config_update gid now prev i sh.
Proof. unfold config_update. by repeat bcase. Qed.

Lemma install_update_idemp data i sh :
  install_update data i (install_update data i sh) = install_update data i sh.
Proof. by destruct sh as [[] kv]. Qed.

Lemma gc_update_idemp b i sh : gc_update b i (gc_update b i sh) = gc_update b i sh.
Proof. destruct sh as [[] kv], b; done. Qed.

Lemma key2shard_range key : 0 <= key2shard key < Z.of_nat NShards.
Proof. apply Z.mod_pos_bound. unfold NShards. lia. Qed.

(** [s'] is [s] with the contents of shard [i], whose state is [x], replaced. *)
Definition contents_changed (i : Z) (x : ShardState) (s s' : State) : Prop :=
  config s' = config s /\ lastConfig s' = lastConfig s /\ dupTable s' = dupTable s /\
  zlen (shards s') = zlen (shards s) /\
  exists m, forall j, zget (shards s') j =
    if bool_decide (j = i) then Some {| State_ := x; KV := m |} else zget (shards s) j.

Lemma contents_changed_refl i s sh :
  zget (shards s) i = Some sh -> contents_changed i (State_ sh) s s.
Proof.
  intros Hsh. split_and!; try done. exists (KV sh). intros j.
  case_bool_decide; [subst; rewrite Hsh; by destruct sh|done].
Qed.

Lemma setKV_changed i m s sh :
  zget (shards s) i = Some sh ->
  exists s', setKV i m s = Some s' /\ contents_changed i (State_ sh) s s'.
Proof.
  intros Hsh.
  destruct (update_spec (fun _ sh => {| State_ := State_ sh; KV := m |}) i s)
    as (s' & E & ? & ? & ? & ? & Hz); [by apply zget_Some_lt in Hsh|].
  exists s'. split; [exact E|]. split_and!; try done. exists m. intros j. rewrite Hz.
  rewrite (bool_decide_ext (j ∈ [i]) (j = i)) by apply list_elem_of_singleton.
  case_bool_decide; [subst; by rewrite Hsh|done].
Qed.

(** [applyKVOp] succeeds and touches only the contents of the key's shard. *)
Lemma applyKVOp_spec op s sh :
  zget (shards s) (key2shard (Key op)) = Some sh ->
  exists s' r, applyKVOp op s = Some (s', r) /\
    contents_changed (key2shard (Key op)) (State_ sh) s s'.
Proof.
  intros Hsh. unfold applyKVOp. rewrite Hsh. cbn [mbind option_bind].
  pose proof (contents_changed_refl _ _ _ Hsh) as Hrefl.
  bcase; [by eexists _, _|]. bcase; [|bcase; [|by eexists _, _]].
  all: match goal with |- context [setKV _ ?m _] =>
         destruct (setKV_changed _ m _ _ Hsh) as (s' & -> & Hs') end; by eexists _, _.
Qed.

Lemma contents_changed_states i s s' sh :
  zget (shards s) i = Some sh -> contents_changed i (State_ sh) s s' ->
  forall j, State_ <$> zget (shards s') j = State_ <$> zget (shards s) j.
Proof.
  intros Hsh (_ & _ & _ & _ & m & Hz) j. rewrite Hz. case_bool_decide; [|done].
  subst. by rewrite Hsh.
Qed.

Section execute.
Context `{MapOrderLaws} (gid : Z).

Lemma serves_spec s i :
  state_wf s -> 0 <= i < Z.of_nat NShards ->
  exists sh, zget (shards s) i = Some sh /\
    serves gid s i = Some ((owner (config s) i =? gid) &&
      (bool_decide (State_ sh = Serving) || bool_decide (State_ sh = GCing))).
Proof.
  intros [W1 W2 _] Hi. unfold serves, owner.
  destruct (zget_in_range (shards s) i) as [sh Hsh]; [lia|].
  destruct (zget_in_range (Shards (config s)) i) as [o Ho]; [lia|].
  exists sh. rewrite Hsh, Ho. done.
Qed.

Lemma execute_client op s :
  state_wf s -> isKVOp op = true ->
  exists s' r, execute gid op s = Some (s', r) /\ state_wf s' /\ change gid op s s'.
Proof.
  intros Hwf HK. unfold execute. rewrite HK.
  destruct (serves_spec s _ Hwf (key2shard_range (Key op))) as (sh & Hsh & ->).
  cbn [mbind option_bind].
  assert (change gid op s s) as Hrefl by (by apply ch_client).
  assert (forall s' d, contents_changed (key2shard (Key op)) (State_ sh) s s' ->
    (state_wf s' /\ change gid op s s') /\
    (state_wf (with_dup d s') /\ change gid op s (with_dup d s'))) as Hch.
  { intros s' d Hc. pose proof (contents_changed_states _ _ _ _ Hsh Hc) as Hst.
    destruct Hc as (E1 & E2 & E3 & E4 & _), Hwf as [W1 W2 W3].
    repeat split; cbn; try congruence; by apply ch_client. }
  destruct (applyKVOp_spec op s sh Hsh) as (s' & r & E & Hc). rewrite E. cbn [mbind option_bind].
  bcase; [by eexists _, _|]. bcase; [|eexists _, _; split; [done|]; by apply (Hch s' ∅ Hc)].
  destruct (dupTable s !! ClientId op) as [last|].
  - bcase; [by eexists _, _|]. eexists _, _. split; [done|]. apply Hch, Hc.
  - eexists _, _. split; [done|]. apply Hch, Hc.
Qed.

Lemma updated_wf f ids s s' : updated f ids s s' -> state_wf s -> state_wf s'.
Proof. intros (E1 & E2 & _ & E4 & _) [W1 W2 W3]. split; congruence. Qed.

Lemma execute_config op s :
  state_wf s -> op_ok op -> Type_ op = "Config"%string ->
  exists s', applyAdminOp gid op s = Some s' /\ state_wf s' /\
    (change gid op s s').
Proof.
  intros Hwf (HC & _ & _) HT. unfold applyAdminOp. rewrite HT.
  cbn [String.eqb Ascii.eqb Bool.eqb].
  assert (isKVOp op = false) as HK by (unfold isKVOp; by rewrite HT).
  destruct (negb _) eqn:En; [exists s; split_and!; [done|done|by apply ch_none]|]. breflect.
  set (s1 := {| config := Config_ op; lastConfig := config s; shards := shards s;
                dupTable := dupTable s |}).
  assert (state_wf s1) as Hwf1.
  { destruct Hwf as [W1 W2 W3]. split; cbn; [done| |done]. unfold zlen. by rewrite HC. }
  destruct (foldShards_updated (config_update gid (Config_ op) (config s)) (configShard gid)
    (zrange NShards) s1) as (s' & E & HU).
  - apply config_update_idemp.
  - intros i ?%elem_of_zrange. by rewrite (swf_shards _ Hwf1).
  - intros i s2 Hi%elem_of_zrange E1 E2 E3. destruct Hwf1 as [W1 W2 W3].
    rewrite configShard_update; [by rewrite E1, E2|split; congruence|done].
  - exists s'. split_and!; [exact E|by eapply updated_wf|].
    destruct HU as (C1 & C2 & C3 & C4 & HZ). apply ch_config; try done.
    intros j. rewrite HZ. case_bool_decide as Hj; [done|].
    cbn. rewrite elem_of_zrange, <- (swf_shards _ Hwf) in Hj.
    destruct (zget (shards s) j) as [sh|] eqn:Hsh; [|done]. apply zget_Some_lt in Hsh. lia.
Qed.

Lemma execute_install op s :
  state_wf s -> op_ok op -> Type_ op = "Install"%string ->
  exists s', applyAdminOp gid op s = Some s' /\ state_wf s' /\ change gid op s s'.
Proof.
  intros Hwf (_ & HI & _) HT. unfold applyAdminOp. rewrite HT.
  cbn [String.eqb Ascii.eqb Bool.eqb].
  assert (isKVOp op = false) as HK by (unfold isKVOp; by rewrite HT).
  destruct (negb _) eqn:En; [exists s; split_and!; [done|done|by apply ch_none]|]. breflect.
  assert (forall i, i ∈ range_keys (Shards_ op) <-> is_Some (Shards_ op !! i)) as Hk.
  { intros i. rewrite range_keys_perm. apply elem_of_keys. }
  destruct (foldShards_updated (install_update (Shards_ op)) (installShard (Shards_ op))
    (range_keys (Shards_ op)) s) as (s' & -> & HU).
  - apply install_update_idemp.
  - intros i Hi%Hk. rewrite (swf_shards _ Hwf). by apply HI.
  - intros i s2 Hi%Hk _ _ E3.
    destruct (zget_in_range (shards s2) i) as [sh Hsh];
      [rewrite E3, (swf_shards _ Hwf); by apply HI|].
    by eapply installShard_update.
  - cbn. eexists. split; [done|].
    pose proof (updated_wf _ _ _ _ HU Hwf) as [W1 W2 W3]. split; [by split|].
    destruct HU as (C1 & C2 & C3 & C4 & HZ). apply ch_install; try done.
    intros j. cbn. rewrite HZ. by rewrite (bool_decide_ext _ _ (Hk j)).
Qed.

Lemma execute_gc op s :
  state_wf s -> op_ok op -> Type_ op = "GC"%string ->
  exists s', applyAdminOp gid op s = Some s' /\ state_wf s' /\ change gid op s s'.
Proof.
  intros Hwf (_ & _ & HG) HT. unfold applyAdminOp. rewrite HT.
  cbn [String.eqb Ascii.eqb Bool.eqb].
  destruct (foldShards_updated (gc_update (ShardConfig.Num (config s) =? GCConfigNum op))
    (gcShard (GCConfigNum op)) (GCShardIds op) s) as (s' & -> & HU).
  - apply gc_update_idemp.
  - intros i Hi. rewrite (swf_shards _ Hwf). by apply HG.
  - intros i s2 Hi E1 _ E3.
    destruct (zget_in_range (shards s2) i) as [sh Hsh];
      [rewrite E3, (swf_shards _ Hwf); by apply HG|].
    rewrite <- E1. by eapply gcShard_update.
  - exists s'. split_and!; [done|by eapply updated_wf|].
    destruct HU as (C1 & C2 & C3 & C4 & HZ). by apply ch_gc.
Qed.

(** Every operation with arguments in range succeeds, with one of the changes. *)
Lemma execute_change op s :
  state_wf s -> op_ok op ->
  exists s' r, execute gid op s = Some (s', r) /\ state_wf s' /\ change gid op s s'.
Proof.
  intros Hwf Hok. destruct (isKVOp op) eqn:HK; [by apply execute_client|].
  unfold execute. rewrite HK.
  enough (exists s', applyAdminOp gid op s = Some s' /\ state_wf s' /\ change gid op s s')
    as (s' & -> & ? & ?) by (by eexists _, _).
  destruct (String.eqb_spec (Type_ op) "Config"); [by apply execute_config|].
  destruct (String.eqb_spec (Type_ op) "Install"); [by apply execute_install|].
  destruct (String.eqb_spec (Type_ op) "GC"); [by apply execute_gc|].
  exists s. unfold applyAdminOp.
  do 3 (rewrite (proj2 (String.eqb_neq _ _)) by done). split_and!; [done|done|by apply ch_none].
Qed.
End execute.

(** ** Shard states and ownership *)

Definition stable (s : State) : Prop :=
  forall i sh, zget (shards s) i = Some sh -> State_ sh = Serving.

Lemma allStable_spec s : allStable (shards s) = true <-> stable s.
Proof.
  unfold allStable, stable. rewrite forallb_forall. split.
  - intros H i sh [_ Hi]%zget_Some_lookup. apply list_elem_of_lookup_2 in Hi.
    apply list_elem_of_In, H in Hi. by apply bool_decide_eq_true in Hi.
  - intros H sh Hin%list_elem_of_In. apply list_elem_of_lookup in Hin as [k Hk].
    apply bool_decide_eq_true, (H (Z.of_nat k)). apply zget_Some_lookup.
    split; [lia|]. by rewrite Nat2Z.id.
Qed.

(** A shard being pulled or collected belongs to the group by the current
    configuration and came from another one; a shard being handed over belonged to
    the group by the previous configuration and is somebody else's now. *)
Definition ownership (gid : Z) (s : State) : Prop :=
  forall i sh, zget (shards s) i = Some sh ->
  match State_ sh with
  | Serving => True
  | Pulling | GCing => owner (config s) i = gid /\ owner (lastConfig s) i <> gid /\
                       owner (lastConfig s) i <> 0
  | BePulling => owner (config s) i <> gid /\ owner (lastConfig s) i = gid
  end.

(** The arrows of the design comment of server.go. *)
Definition edge (x y : ShardState) : Prop :=
  x = y \/
  match x, y with
  | Serving, BePulling | Serving, Pulling | Pulling, GCing | GCing, Serving
  | BePulling, Serving => True
  | _, _ => False
  end.

(** A change of the configuration happens only in a stable state. *)
Definition gated (s s' : State) : Prop :=
  ShardConfig.Num (config s') <> ShardConfig.Num (config s) -> stable s.

Lemma change_states gid op s s' :
  change gid op s s' -> forall i sh', zget (shards s') i = Some sh' ->
  exists sh, zget (shards s) i = Some sh /\
  (State_ sh' = State_ sh \/
   (ShardConfig.Num (config s') = ShardConfig.Num (config s) + 1 /\
    State_ sh' = State_ (config_update gid (config s') (config s) i sh)) \/
   (State_ sh = Pulling /\ State_ sh' = GCing) \/
   ((State_ sh = GCing \/ State_ sh = BePulling) /\ State_ sh' = Serving)).
Proof.
  intros Hch i sh' Hi. destruct Hch as [_ _ _ HZ|_ ->|_ EC _ EN HZ|_ _ _ _ HZ|_ _ _ HZ].
  - specialize (HZ i). rewrite Hi in HZ. destruct (zget (shards s) i) as [sh|]; [|done].
    exists sh. split; [done|]. left. by injection HZ.
  - exists sh'. auto.
  - rewrite HZ in Hi. apply fmap_Some in Hi as (sh & Hsh & ->). exists sh. split; [done|].
    right. left. by rewrite EC.
  - rewrite HZ in Hi. case_bool_decide; [|by exists sh'; auto].
    apply fmap_Some in Hi as (sh & Hsh & ->). exists sh. split; [done|].
    unfold install_update. case_bool_decide; auto.
  - rewrite HZ in Hi. case_bool_decide; [|by exists sh'; auto].
    apply fmap_Some in Hi as (sh & Hsh & ->). exists sh. split; [done|].
    unfold gc_update. destruct (State_ sh) eqn:E, (_ =? _); cbn; auto 10.
Qed.

Lemma change_configs gid op s s' :
  change gid op s s' ->
  (config s' = config s /\ lastConfig s' = lastConfig s) \/
  (config s' = Config_ op /\ lastConfig s' = config s /\ Type_ op = "Config"%string /\
   ShardConfig.Num (config s') = ShardConfig.Num (config s) + 1).
Proof.
  intros [_ E1 E2 _|_ ->|? E1 E2 EN _|_ E1 E2 _ _|_ E1 E2 _]; auto.
  right. rewrite E1. auto.
Qed.

Lemma config_update_state gid now prev i sh :
  State_ sh = Serving ->
  match State_ (config_update gid now prev i sh) with
  | Serving => True
  | Pulling => owner now i = gid /\ owner prev i <> gid /\ owner prev i <> 0
  | BePulling => owner now i <> gid /\ owner prev i = gid
  | GCing => False
  end.
Proof.
  intros Hs. unfold config_update.
  destruct (Z.eqb_spec (owner now i) gid), (Z.eqb_spec (owner prev i) gid); cbn;
    rewrite ?Hs; try done.
  destruct (Z.eqb_spec (owner prev i) 0); cbn; done.
Qed.

Lemma change_ownership gid op s s' :
  change gid op s s' -> gated s s' -> ownership gid s -> ownership gid s'.
Proof.
  intros Hch Hg Ho i sh' Hi. destruct (change_states _ _ _ _ Hch i sh' Hi) as (sh & Hsh & Hx).
  destruct (change_configs _ _ _ _ Hch) as [[EC EL]|(EC & EL & _ & EN)].
  - rewrite EC, EL. specialize (Ho i sh Hsh). destruct Hx as [->|[[EN _]|[[E1 E2]|[_ E2]]]].
    + done.
    + rewrite EC in EN. lia.
    + rewrite E1 in Ho. by rewrite E2.
    + by rewrite E2.
  - assert (State_ sh = Serving) as Hs by (eapply Hg; [lia|done]). rewrite EL.
    pose proof (config_update_state gid (config s') (config s) i sh Hs) as HU.
    destruct Hx as [->|[[_ ->]|[[E1 E2]|[[E1|E1] E2]]]]; try congruence.
    + by rewrite Hs.
    + by destruct (State_ (config_update gid (config s') (config s) i sh)).
Qed.

Lemma change_edge gid op s s' i sh sh' :
  change gid op s s' -> gated s s' -> zget (shards s) i = Some sh ->
  zget (shards s') i = Some sh' -> edge (State_ sh) (State_ sh').
Proof.
  intros Hch Hg Hi Hi'. destruct (change_states _ _ _ _ Hch i sh' Hi') as (sh0 & Hsh & Hx).
  rewrite Hi in Hsh. injection Hsh as <-. unfold edge.
  destruct Hx as [->|[[EN E]|[[E1 E2]|[[E1|E1] E2]]]]; rewrite ?E1, ?E2; auto.
  assert (State_ sh = Serving) as Hs by (eapply Hg; [lia|done]).
  pose proof (config_update_state gid (config s') (config s) i sh Hs) as HU. rewrite E, Hs.
  destruct (State_ (config_update _ _ _ _ _)); auto.
Qed.

(** A stable state stays stable until the configuration changes. *)
Lemma stable_change gid op s s' :
  change gid op s s' -> stable s ->
  ShardConfig.Num (config s') = ShardConfig.Num (config s) -> stable s'.
Proof.
  intros Hch Hst EN i sh' Hi. destruct (change_states _ _ _ _ Hch i sh' Hi) as (sh & Hsh & Hx).
  specialize (Hst i sh Hsh). destruct Hx as [->|[[? _]|[[? _]|[[?|?] ?]]]]; congruence || lia.
Qed.

(** ** Logs of one group *)
Section logs.
Context `{MapOrderLaws} (gid : Z).

Fixpoint runLog (ops : list Op) (s : State) : option State :=
  match ops with
  | [] => Some s
  | op :: ops => '(s, _) ← execute gid op s; runLog ops s
  end.

Lemma runLog_app ops1 ops2 s :
  runLog (ops1 ++ ops2) s = s' ← runLog ops1 s; runLog ops2 s'.
Proof.
  revert s. induction ops1 as [|op ops1 IH]; intros s; cbn; [done|].
  destruct (execute gid op s) as [[s1 ?]|]; cbn; [apply IH|done].
Qed.

Lemma initialState_wf : state_wf initialState.
Proof. by split. Qed.

Lemma runLog_spec ops s :
  Forall op_ok ops -> state_wf s ->
  exists s', runLog ops s = Some s' /\ state_wf s' /\
    ShardConfig.Num (config s) <= ShardConfig.Num (config s') /\
    (stable s -> ShardConfig.Num (config s') = ShardConfig.Num (config s) -> stable s').
Proof.
  intros Hops. revert s. induction Hops as [|op ops Hop Hops IH]; intros s Hwf; cbn.
  { exists s. split_and!; try done. }
  destruct (execute_change gid op s Hwf Hop) as (s1 & r & -> & Hwf1 & Hch).
  cbn. destruct (IH s1 Hwf1) as (s2 & E2 & Hwf2 & Hn2 & Hst2).
  assert (ShardConfig.Num (config s) <= ShardConfig.Num (config s1)) as Hn1.
  { destruct (change_configs _ _ _ _ Hch) as [[-> _]|(_ & _ & _ & ->)]; lia. }
  exists s2. split_and!; [done|done|lia|]. intros Hst EN. apply Hst2; [|lia].
  eapply stable_change; [done|done|lia].
Qed.

(** Configuration entries come from [configPoller]: a server that had applied some
    earlier part of the log asked for configuration [num] and submitted the answer. *)
Definition polled (log : list Op) : Prop :=
  forall pre op post, log = pre ++ op :: post -> Type_ op = "Config"%string ->
  exists pre1 pre2 (kv : Service.Server Op State applyResult Z) num,
    pre = pre1 ++ pre2 /\ runLog pre1 initialState = Some (Service.st kv) /\
    configPoller_query kv = Some num /\
    configPoller_start (num - 1) (InternalId op) (Config_ op) = Some op.

Lemma polled_gated log pre op post s s' r :
  Forall op_ok log -> polled log -> log = pre ++ op :: post ->
  runLog pre initialState = Some s -> execute gid op s = Some (s', r) ->
  change gid op s s' /\ gated s s'.
Proof.
  intros Hok Hp -> Hs He. apply Forall_app in Hok as [Hpre [Hop _]%Forall_cons].
  destruct (runLog_spec pre initialState Hpre initialState_wf) as (s0 & E0 & Hwf & _ & _).
  rewrite Hs in E0. injection E0 as <-.
  destruct (execute_change gid op s Hwf Hop) as (s'' & r' & He' & Hwf' & Hch).
  rewrite He in He'. injection He' as <- <-. split; [done|]. intros Hne.
  destruct (change_configs _ _ _ _ Hch) as [[EC _]|(EC & _ & HT & EN)]; [by rewrite EC in Hne|].
  destruct (Hp pre op post eq_refl HT) as (pre1 & pre2 & kv & num & -> & E1 & Hq & Hnum).
  unfold configPoller_query in Hq. set (s1 := Service.st kv) in *.
  destruct (isLeader kv && allStable (shards s1)) eqn:Hst; [|done]. injection Hq as <-.
  apply andb_true_iff in Hst as [_ Hst].
  apply Forall_app in Hpre as [Hpre1 Hpre2]. rewrite runLog_app, E1 in Hs. cbn in Hs.
  destruct (runLog_spec pre1 initialState Hpre1 initialState_wf) as (s1' & E1' & Hwf1 & _ & _).
  rewrite E1 in E1'. injection E1' as <-.
  destruct (runLog_spec pre2 s1 Hpre2 Hwf1) as (s2 & E2 & _ & _ & Hst2).
  rewrite Hs in E2. injection E2 as <-. apply Hst2; [by apply allStable_spec|].
  unfold configPoller_start in Hnum. bcase_in Hnum; [|done]. rewrite EC in EN. lia.
Qed.

Lemma polled_prefix log log' : polled (log ++ log') -> polled log.
Proof.
  intros Hp pre op post -> HT. apply (Hp pre op (post ++ log')); [|done].
  by rewrite <- (assoc_L (++)).
Qed.

Lemma polled_ownership log s :
  Forall op_ok log -> polled log -> runLog log initialState = Some s -> ownership gid s.
Proof.
  revert s. induction log as [|op log IH] using rev_ind; intros s Hok Hp Hs.
  { cbn in Hs. injection Hs as <-. intros i sh [_ Hi]%zget_Some_lookup.
    by apply lookup_replicate in Hi as [-> _]. }
  pose proof Hok as [Hok1 _]%Forall_app. rewrite runLog_app in Hs.
  apply bind_Some in Hs as (s1 & E1 & Hs). cbn in Hs.
  apply bind_Some in Hs as ([s2 r] & E2 & [= <-]).
  destruct (polled_gated (log ++ [op]) log op [] s1 s2 r Hok Hp eq_refl E1 E2) as [Hch Hg].
  eapply change_ownership; [done|done|]. apply IH; [done|by eapply polled_prefix|done].
Qed.
End logs.

(** ** The store of a group *)

(** The value under [key], in the shard of the key. *)
Definition value_at (s : State) (key : string) : option string :=
  sh ← zget (shards s) (key2shard key); KV sh !! key.

Lemma value_at_setKV key m s s' sh k :
  zget (shards s) (key2shard key) = Some sh -> setKV (key2shard key) m s = Some s' ->
  value_at s' k = if bool_decide (key2shard k = key2shard key) then m !! k else value_at s k.
Proof.
  intros Hsh E. unfold setKV in E. rewrite Hsh in E. cbn in E.
  pose proof (zget_Some_lt _ _ _ Hsh) as Hr. rewrite zset_Some in E by done. cbn in E.
  injection E as <-. unfold value_at. cbn [shards with_shards]. rewrite zget_insert.
  unfold zlen in Hr. case_decide as Hd.
  - rewrite bool_decide_eq_true_2 by lia. done.
  - rewrite bool_decide_eq_false_2; [done|]. intros E. apply Hd. lia.
Qed.

(** Writing one key of its shard. *)
Lemma value_at_insert key v s s' sh k :
  zget (shards s) (key2shard key) = Some sh ->
  setKV (key2shard key) (<[key := v]> (KV sh)) s = Some s' ->
  value_at s' k = if bool_decide (k = key) then Some v else value_at s k.
Proof.
  intros Hsh E. rewrite (value_at_setKV _ _ _ _ _ k Hsh E).
  destruct (decide (k = key)) as [->|Hne].
  - rewrite !bool_decide_eq_true_2 by done. apply lookup_insert_eq.
  - rewrite (bool_decide_eq_false_2 (k = key)) by done. case_bool_decide as Hk; [|done].
    rewrite lookup_insert_ne by done. unfold value_at. by rewrite Hk, Hsh.
Qed.

(** A write does to the whole store what the map operation does. *)
Lemma applyKVOp_write op s sh :
  zget (shards s) (key2shard (Key op)) = Some sh ->
  isKVOp op = true -> String.eqb (Type_ op) "Get" = false ->
  match applyKVOp op s with
  | None => False
  | Some (s', r) =>
      config s' = config s /\ r = (OK, EmptyString) /\ dupTable s' = dupTable s /\
      forall k, value_at s' k =
        if bool_decide (k = Key op)
        then Some ((if String.eqb (Type_ op) "Append"
                    then default EmptyString (value_at s k) else EmptyString) +:+ Value op)
        else value_at s k
  end.
Proof.
  intros Hsh HK EG. unfold applyKVOp. rewrite Hsh, EG. cbn [mbind option_bind].
  assert (value_at s (Key op) = KV sh !! Key op) as Hv by (unfold value_at; by rewrite Hsh).
  unfold isKVOp in HK. rewrite EG in HK. cbn [orb] in HK.
  destruct (String.eqb_spec (Type_ op) "Put") as [EP|_]; cbn [orb] in HK; [|rewrite HK];
    match goal with |- context [setKV _ ?m _] =>
      destruct (setKV_changed _ m _ _ Hsh) as (s' & E & C1 & C2 & C3 & _) end;
    rewrite E; cbn; split_and!; try done; intros k;
    rewrite (value_at_insert _ _ _ _ _ k Hsh E); case_bool_decide as Hk; try done; subst k.
  - by rewrite EP.
  - by rewrite Hv.
Qed.

(** ** Merging duplicate tables *)

(** The entry with the higher sequence number; ours on a tie. *)
Definition newest (theirs ours : option DupEntry) : option DupEntry :=
  match theirs, ours with
  | Some e, Some x => if de_SeqId x <? de_SeqId e then Some e else Some x
  | Some e, None => Some e
  | None, o => o
  end.

Lemma mergeEntry_spec theirs ours c c' :
  mergeEntry theirs ours c !! c' =
    if bool_decide (c = c') then newest (theirs !! c') (ours !! c') else ours !! c'.
Proof.
  unfold mergeEntry, newest. case_bool_decide as Hc.
  - subst c'. destruct (theirs !! c) as [e|] eqn:E1, (ours !! c) as [x|] eqn:E2; try done;
      try apply lookup_insert_eq. bcase; [apply lookup_insert_eq|done].
  - destruct (theirs !! c), (ours !! c); try done; try (by apply lookup_insert_ne).
    bcase; [by apply lookup_insert_ne|done].
Qed.

Lemma newest_idemp e o : newest e (newest e o) = newest e o.
Proof.
  destruct e as [e|], o as [o|]; cbn; try done.
  - destruct (de_SeqId o <? de_SeqId e) eqn:E; cbn; rewrite ?E, ?Z.ltb_irrefl; done.
  - by rewrite Z.ltb_irrefl.
Qed.

Lemma mergeDup_spec `{MapOrderLaws} theirs ours c :
  mergeDup theirs ours !! c = newest (theirs !! c) (ours !! c).
Proof.
  unfold mergeDup.
  assert (forall ks ours, foldl (mergeEntry theirs) ours ks !! c =
    if bool_decide (c ∈ ks) then newest (theirs !! c) (ours !! c) else ours !! c) as Hf.
  { induction ks as [|k ks IH]; intros d; cbn [foldl]; [done|]. rewrite IH, mergeEntry_spec.
    destruct (decide (k = c)) as [->|Hne].
    - rewrite (bool_decide_eq_true_2 (c = c)), (bool_decide_eq_true_2 (c ∈ c :: ks))
        by (done || constructor).
      case_bool_decide; [apply newest_idemp|done].
    - rewrite (bool_decide_eq_false_2 (k = c)) by done.
      rewrite (bool_decide_ext (c ∈ k :: ks) (c ∈ ks)); [done|].
      rewrite elem_of_cons. naive_solver. }
  rewrite Hf. case_bool_decide as Hc; [done|]. rewrite range_keys_perm, elem_of_keys in Hc.
  apply eq_None_not_Some in Hc. rewrite Hc. by destruct (ours !! c).
Qed.

(** ** The theorems *)
Section theorems.
Context `{MapOrderLaws} (gid : Z).

(** C36: the shard state machine of the design comment.  In every log whose
    configuration entries come from [configPoller], at every step: the operation
    does not panic, the configuration changes only when all shards are [Serving]
    (one migration at a time) and only by one number, and every shard follows one
    of the five arrows of the design; and the states agree with the ownership in
    the two configurations. *)
Theorem shards_follow_design log pre op post :
  Forall op_ok log -> polled gid log -> log = pre ++ op :: post ->
  match runLog gid pre initialState with
  | None => False
  | Some s =>
      ownership gid s /\
      match execute gid op s with
      | None => False
      | Some (s', _) =>
          (config s' = config s \/
           ShardConfig.Num (config s') = ShardConfig.Num (config s) + 1 /\
           allStable (shards s) = true) /\
          forall i sh sh', zget (shards s) i = Some sh -> zget (shards s') i = Some sh' ->
            edge (State_ sh) (State_ sh')
      end
  end.
Proof.
  intros Hok Hp Hlog.
  assert (Forall op_ok pre /\ op_ok op /\ polled gid pre) as (Hpre & Hop & Hpp).
  { subst log. pose proof Hok as [? [? _]%Forall_cons]%Forall_app.
    split_and!; [done|done|by eapply polled_prefix]. }
  destruct (runLog_spec gid pre initialState Hpre initialState_wf) as (s & Es & Hwf & _ & _).
  rewrite Es. split; [by eapply polled_ownership|].
  destruct (execute_change gid op s Hwf Hop) as (s' & r & He & _ & _). rewrite He.
  destruct (polled_gated gid log pre op post s s' r Hok Hp Hlog Es He) as [Hch Hg]. split.
  - destruct (change_configs _ _ _ _ Hch) as [[? _]|(? & _ & _ & EN)]; [by left|]. right.
    split; [done|]. apply allStable_spec, Hg. lia.
  - intros i sh sh'. by apply change_edge with (gid := gid) (op := op).
Qed.


(** A slow or repeated acknowledgement is harmless: re-executing a
    configuration change, an installation or a garbage collection changes neither
    the configurations nor any shard. *)
Theorem admin_repeat op s s1 r1 :
  state_wf s -> op_ok op -> isKVOp op = false -> execute gid op s = Some (s1, r1) ->
  match execute gid op s1 with
  | None => False
  | Some (s2, _) => config s2 = config s1 /\ lastConfig s2 = lastConfig s1 /\
                    forall j, zget (shards s2) j = zget (shards s1) j
  end.
Proof.
  intros Hwf Hop HK He.
  destruct (execute_change gid op s Hwf Hop) as (s1' & r1' & He' & Hwf1 & Hch).
  rewrite He in He'. injection He' as <- <-.
  destruct (execute_change gid op s1 Hwf1 Hop) as (s2 & r2 & He2 & _ & Hch2). rewrite He2.
  destruct Hch2 as [HK2|_ ->|HT2 EC2 EL2 EN2 HZ2|HT2 EC2 EL2 EN2 HZ2|HT2 EC2 EL2 HZ2];
    [congruence|done| | |].
  - exfalso. destruct Hch as [HK1|_ ->|HT EC EL EN HZ|HT|HT]; try congruence.
    + rewrite He in He2. injection He2 as <- _. rewrite EC2 in EN2. lia.
    + rewrite EC in EN2. lia.
  - split_and!; try done. intros j. rewrite HZ2. case_bool_decide as Hj; [|done].
    destruct Hch as [HK1|_ E|HT EC EL EN HZ|HT EC EL EN HZ|HT]; try congruence.
    + subst s1. rewrite He in He2. injection He2 as <- _. rewrite HZ2 at 2.
      by rewrite bool_decide_eq_true_2.
    + rewrite HZ, bool_decide_eq_true_2 by done.
      destruct (zget (shards s) j); cbn; [|done]. by rewrite install_update_idemp.
  - split_and!; try done. intros j. rewrite HZ2. case_bool_decide as Hj; [|done].
    destruct Hch as [HK1|_ E|HT EC EL EN HZ|HT|HT EC EL HZ]; try congruence.
    + subst s1. rewrite He in He2. injection He2 as <- _. rewrite HZ2 at 2.
      by rewrite bool_decide_eq_true_2.
    + rewrite HZ, bool_decide_eq_true_2, EC by done.
      destruct (zget (shards s) j); cbn; [|done]. by rewrite gc_update_idemp.
Qed.

Lemma foldShards_dup data ids s s' :
  foldShards (installShard data) ids s = Some s' -> dupTable s' = dupTable s.
Proof.
  revert s. induction ids as [|i ids IH]; intros s; cbn; [by intros [= <-]|].
  intros (s1 & E & ->%IH)%bind_Some. unfold installShard, setKV, setState in E. by go_inv.
Qed.

Lemma newest_ge theirs ours e :
  theirs = Some e \/ ours = Some e ->
  exists l, newest theirs ours = Some l /\ de_SeqId e <= de_SeqId l.
Proof.
  intros He. destruct theirs as [x|], ours as [y|]; cbn; try naive_solver.
  - destruct (Z.ltb_spec (de_SeqId y) (de_SeqId x)); destruct He as [[= ->]|[= ->]];
      eexists; (split; [done|lia]).
Qed.

(** migration does not forget which writes were executed: after a current
    installation the duplicate table has, for every client, the entry with the
    higher sequence number of both groups, so a write that either group had
    executed is recognized as a repetition by the new owner and changes nothing. *)
Theorem install_keeps_duplicates op s w e :
  state_wf s -> op_ok op -> Type_ op = "Install"%string ->
  ConfigNum op = ShardConfig.Num (config s) ->
  isKVOp w = true -> String.eqb (Type_ w) "Get" = false ->
  DupTable op !! ClientId w = Some e \/ dupTable s !! ClientId w = Some e ->
  SeqId w <= de_SeqId e ->
  match execute gid op s with
  | None => False
  | Some (s1, _) =>
      (forall c, dupTable s1 !! c = newest (DupTable op !! c) (dupTable s !! c)) /\
      match execute gid w s1 with None => False | Some (s2, _) => s2 = s1 end
  end.
Proof.
  intros Hwf Hop HT HN HK HG He Hle.
  destruct (execute_change gid op s Hwf Hop) as (s1 & r & E & Hwf1 & _). rewrite E.
  assert (forall c, dupTable s1 !! c = newest (DupTable op !! c) (dupTable s !! c)) as Hd.
  { unfold execute, isKVOp, applyAdminOp in E. rewrite HT in E.
    cbn [String.eqb Ascii.eqb Bool.eqb orb] in E. rewrite HN, Z.eqb_refl in E. cbn [negb] in E.
    apply bind_Some in E as (s' & E & [= <- _]). apply bind_Some in E as (s0 & E0 & [= <-]).
    intros c. cbn. rewrite mergeDup_spec. do 2 f_equal. by eapply foldShards_dup. }
  split; [done|]. destruct (newest_ge _ _ e He) as (l & Hl & Hge). rewrite <- Hd in Hl.
  unfold execute. rewrite HK.
  destruct (serves_spec gid s1 _ Hwf1 (key2shard_range (Key w))) as (sh & _ & ->).
  cbn [mbind option_bind]. destruct (_ && _); cbn [negb]; [|done]. rewrite HG, Hl. cbn [negb].
  bcase; [done|lia].
Qed.
End theorems.

(** ** The server *)
Section server.
Context `{MapOrderLaws} (gid : Z).
Context `{!Codec (RaftPersist Op), !CodecLaws (RaftPersist Op), !Codec State, !CodecLaws State}.
#[local] Instance this_machine : Service.StateMachine Op State applyResult Z := machine gid.

Lemma group_replay_runLog ops s : Service.replay ops s = runLog gid ops s.
Proof.
  revert s. induction ops as [|op ops IH]; intros s; cbn; [done|].
  destruct (execute gid op s) as [[s' r]|]; cbn; [apply IH|done].
Qed.

(** Shards, duplicate table and both configurations survive snapshots, crashes
    and restarts: after applying [k] entries the state of a server is what executing
    the first [k] entries of the group's log from scratch gives. *)
Theorem group_state_is_replay n i max cmds kv k :
  Service.run false n i max cmds kv k ->
  runLog gid (take (Z.to_nat k) cmds) initialState = Some (Service.st kv).
Proof.
  intros Hr%Service.run_replay; [|done]. rewrite <- group_replay_runLog. apply (Service.ri_state _ _ _ Hr).
Qed.

(** A leader of the old owner that has not yet applied the configuration (it has
    just taken over, say) acknowledges a [GCShard] request without deleting
    anything, since none of its shards is [BePulling] yet; the new owner's
    [gcHandler] takes that reply as final and submits its own GC entry, the one that
    ends its requests to the old owner. *)
Theorem gc_acknowledged_early args kv srv rest id :
  isLeader kv = true ->
  ShardConfig.Num (config (Service.st kv)) < gc_ConfigNum args ->
  (forall i, i ∈ gc_ShardIds args ->
     exists sh, zget (shards (Service.st kv)) i = Some sh /\ State_ sh <> BePulling) ->
  match GCShard args kv with
  | Some (inl reply) =>
      gcr_Err reply = OK /\
      Type_ <$> notifyGC (gc_ConfigNum args) id (gc_ShardIds args) (srv :: rest)
                  (fun _ => Some reply) = Some "GC"%string
  | _ => False
  end.
Proof.
  intros HL Hn Hs. unfold GCShard. rewrite HL. cbn [negb]. bcase; [lia|].
  assert (allGCed (gc_ShardIds args) (shards (Service.st kv)) = Some true) as ->; [|done].
  induction (gc_ShardIds args) as [|i ids IH]; cbn; [done|].
  destruct (Hs i ltac:(constructor)) as (sh & -> & Hne). cbn.
  rewrite bool_decide_eq_false_2 by done. apply IH. intros j Hj. apply Hs. by constructor.
Qed.
End server.

(** ** Concrete groups *)
Module GroupDemo.
#[export] Existing Instance listed_order.
#[export] Existing Instance listed_order_laws.

#[export] Instance Shard_ser : Serial.Ser Shard :=
  Serial.ser_via (fun s => (match State_ s with Serving => 0 | Pulling => 1 | BePulling => 2
                            | GCing => 3 end, KV s))
    (fun '(x, m) => {| State_ := if x =? 0 then Serving else if x =? 1 then Pulling
                                 else if x =? 2 then BePulling else GCing; KV := m |}).
#[export] Instance Shard_ser_laws : Serial.SerLaws Shard.
Proof. apply Serial.ser_via_laws. by intros [[] m]. Qed.
#[export] Instance Config_ser : Serial.Ser Config :=
  Serial.ser_via (fun c => (ShardConfig.Num c, Shards c, Groups c))
    (fun '(a, b, c) => {| ShardConfig.Num := a; Shards := b; Groups := c |}).
#[export] Instance Config_ser_laws : Serial.SerLaws Config.
Proof. apply Serial.ser_via_laws. by intros []. Qed.
#[export] Instance DupEntry_ser : Serial.Ser DupEntry :=
  Serial.ser_via (fun e => (de_SeqId e, de_Err e, de_Value e))
    (fun '(a, b, c) => Build_DupEntry a b c).
#[export] Instance DupEntry_ser_laws : Serial.SerLaws DupEntry.
Proof. apply Serial.ser_via_laws. by intros []. Qed.
#[export] Instance State_ser : Serial.Ser State :=
  Serial.ser_via (fun s => (config s, lastConfig s, shards s, dupTable s))
    (fun '(a, b, c, d) => Build_State a b c d).
#[export] Instance State_ser_laws : Serial.SerLaws State.
Proof. apply Serial.ser_via_laws. by intros []. Qed.
#[export] Instance Op_ser : Serial.Ser Op :=
  Serial.ser_via (fun o => (InternalId o, Type_ o, ClientId o, SeqId o, Key o, Value o,
      Config_ o, ConfigNum o, Shards_ o, DupTable o, GCConfigNum o, GCShardIds o))
    (fun '(a, b, c, d, e, f, g, h, i, j, k, l) => Build_Op a b c d e f g h i j k l).
#[export] Instance Op_ser_laws : Serial.SerLaws Op.
Proof. apply Serial.ser_via_laws. by intros []. Qed.
#[export] Instance op_codec : Codec (RaftPersist Op) := Serial.codec _.
#[export] Instance op_codec_laws : CodecLaws (RaftPersist Op) := Serial.codec_laws _.
#[export] Instance state_codec : Codec State := Serial.codec _.
#[export] Instance state_codec_laws : CodecLaws State := Serial.codec_laws _.

Definition cfg (num gid : Z) : Config :=
  {| ShardConfig.Num := num; Shards := replicate NShards gid; Groups := ∅ |}.
Definition admin (type : string) (c : Config) (num : Z) (data : gmap Z (gmap string string))
    (d : gmap Z DupEntry) (ids : list Z) : Op :=
  {| InternalId := 5; Type_ := type; ClientId := 0; SeqId := 0; Key := ""; Value := "";
     Config_ := c; ConfigNum := num; Shards_ := data; DupTable := d; GCConfigNum := num;
     GCShardIds := ids |}.
(** Group 2 sees all shards with group 1, then with itself; key d is in shard 0. *)
Definition toOne : Op := admin "Config" (cfg 1 1) 0 ∅ ∅ [].
Definition toTwo : Op := admin "Config" (cfg 2 2) 0 ∅ ∅ [].
Definition entry : DupEntry := {| de_SeqId := 4; de_Err := "OK"; de_Value := "" |}.
Definition install : Op :=
  admin "Install" Config_zero 2 (<[0 := <["d"%string := "v"%string]> ∅]> ∅) (<[8 := entry]> ∅) [].
Definition append : Op := clientOp "Append" 8 5 "d" "w".
Definition repeated : Op := clientOp "Append" 8 4 "d" "w".

Definition at1 : State := default initialState (runLog 2 [toOne] initialState).
Definition at2 : State := default at1 (runLog 2 [toTwo] at1).
Definition at3 : State := default at2 (runLog 2 [install] at2).

Lemma admin_ok type c num d ids :
  length (Shards c) = NShards -> (forall i, i ∈ ids -> 0 <= i < Z.of_nat NShards) ->
  op_ok (admin type c num ∅ d ids).
Proof. intros Hc Hi. split_and!; [done| |done]. intros i. cbn. rewrite lookup_empty. by intros []. Qed.

Lemma install_ok : op_ok install.
Proof.
  split_and!; [done| |by intros i ?%not_elem_of_nil]. intros i [m Hm]. cbn in Hm.
  apply lookup_insert_Some in Hm as [[<- _]|[_ Hm]]; [done|]. by rewrite lookup_empty in Hm.
Qed.

Lemma wf1 : state_wf at1.
Proof. by split. Qed.
Lemma wf2 : state_wf at2.
Proof. by split. Qed.
Lemma wf3 : state_wf at3.
Proof. by split. Qed.

Lemma log_ok : Forall op_ok [toOne; toTwo].
Proof.
  apply Forall_cons. split; [|apply Forall_cons; split; [|by constructor]];
    apply admin_ok; try done; by intros i ?%not_elem_of_nil.
Qed.

(** A leader of group 1 that has applied nothing yet. *)
#[export] Instance machine1 : Service.StateMachine Op State applyResult Z := machine 1.
Definition fresh : Service.Server Op State applyResult Z :=
  StartServer 1 3 0 Persister.MakePersister (-1) 0.
Definition leader : Service.Server Op State applyResult Z :=
  Service.with_rf (with_state StateLeader (Service.rf fresh)) fresh.
(** A leader of group 2 in a given state. *)
Definition leaderAt (s : State) : Service.Server Op State applyResult Z :=
  Service.with_st s (Service.with_rf (with_state StateLeader (Service.rf fresh)) fresh).

Lemma log_polled : polled 2 [toOne; toTwo].
Proof.
  intros [|p [|q pre]] op post E HT; cbn in E; simplify_eq.
  - exists [], [], (leaderAt initialState), 1. repeat split; vm_compute; congruence.
  - exists [toOne], [], (leaderAt at1), 2. repeat split; vm_compute; congruence.
  - by destruct pre.
Qed.

(** A write that came before the group had the shard was refused.  Executed once more on
    top of a snapshot that includes the configuration, it is applied: the replica now
    differs from those that did not see it twice. *)
Example late_entry_diverges :
  exists s s', runLog 1 [append; toOne] initialState = Some s /\
    value_at s "d" = None /\
    execute 1 append s = Some (s', result append ("OK"%string, ""%string)) /\
    value_at s' "d" = Some "w"%string.
Proof. do 2 eexists. split; [vm_compute; reflexivity|]. split; [reflexivity|]. split; vm_compute; reflexivity. Qed.

Definition fresh1 : Service.Server Op State applyResult Z :=
  default fresh (fst <$> applier 1 (Service.commandMsg 1 toOne) fresh).
Definition gcArgs : GCArgs := {| gc_ConfigNum := 2; gc_ShardIds := [0; 1] |}.
End GroupDemo.
Import GroupDemo.

Lemma shards_follow_design_witness :
  match runLog 2 [toOne] initialState with
  | None => False
  | Some s => ownership 2 s /\ (State_ <$> zget (shards at2) 0) = Some Pulling
  end.
Proof.
  pose proof (shards_follow_design 2 [toOne; toTwo] [toOne] toTwo [] log_ok log_polled eq_refl) as H.
  destruct (runLog 2 [toOne] initialState) as [s|]; [|exact H].
  split; [apply H|vm_compute; reflexivity].
Defined.


Lemma admin_repeat_witness :
  match execute 2 install at3 with
  | None => False
  | Some (s2, _) => forall j, zget (shards s2) j = zget (shards at3) j
  end.
Proof.
  assert (execute 2 install at2 = Some (at3, result install (OK, EmptyString))) as E
    by (vm_compute; reflexivity).
  pose proof (admin_repeat 2 install at2 at3 _ wf2 install_ok eq_refl E) as H.
  destruct (execute 2 install at3) as [[s2 r2]|]; [|exact H]. apply H.
Defined.

Lemma install_keeps_duplicates_witness :
  match execute 2 install at2 with
  | None => False
  | Some (s1, _) =>
      match execute 2 repeated s1 with None => False | Some (s2, _) => s2 = s1 end
  end.
Proof.
  pose proof (install_keeps_duplicates 2 install at2 repeated entry wf2 install_ok eq_refl
    eq_refl eq_refl eq_refl (or_introl eq_refl) ltac:(vm_compute; congruence)) as H.
  destruct (execute 2 install at2) as [[s1 r1]|]; [|exact H]. apply H.
Defined.

Lemma group_state_is_replay_witness :
  runLog 1 [toOne] initialState = Some (Service.st fresh1).
Proof.
  apply (group_state_is_replay 1 3 0 (-1) [toOne] fresh1 1).
  apply (Service.run_command false 3 0 (-1) [toOne] fresh 0 toOne fresh1 None);
    [apply Service.run_start|reflexivity|vm_compute; reflexivity].
Defined.

Lemma gc_acknowledged_early_witness :
  match GCShard gcArgs leader with
  | Some (inl reply) => gcr_Err reply = OK
  | _ => False
  end.
Proof.
  pose proof (gc_acknowledged_early gcArgs leader "s" [] 7 eq_refl
    ltac:(vm_compute; reflexivity)) as H.
  destruct (GCShard gcArgs leader) as [[reply|op]|]; apply H; intros i Hi;
    exists newShard; (split; [|discriminate]);
    repeat (apply elem_of_cons in Hi as [->|Hi]; [reflexivity|]); by inv Hi.
Defined.
