(* ===== verification/ShardNet.v ===== *)
(** * Several shard groups: a shard is served by one group at a time

    [World] is the state of every replica group (each group is a replicated state
    machine, so its state advances by executing entries).  Configurations are the
    controller's history [cfgs].  A group takes the next configuration only when
    it is stable (ShardKVProps) and installs a shard only if the group that owned
    it before had reached the configuration, which is what [PullShard] checks.
    The theorem: no two groups serve the same shard at the same moment. *)
From S2P Require Import Prelude Persister Serial RaftNode RaftLocal Notify Service ShardConfig ShardKV ShardKVProps.
From stdpp Require Import functions relations.
Import ShardKV.
#[local] Open Scope Z_scope.

Abbreviation World := (Z -> State).

(** The number of the configuration a group is at. *)
Definition num_of (w : World) (g : Z) : Z := ShardConfig.Num (config (w g)).

(** The controller's history: numbered, ten shards each, starting with the empty
    configuration. *)
Record history (cfgs : Z -> Config) : Prop := {
  hist_zero : cfgs 0 = Config_zero;
  hist_num k : 0 <= k -> ShardConfig.Num (cfgs k) = k;
  hist_len k : length (Shards (cfgs k)) = NShards;
}.

(** A shard that has an owner keeps having one. *)
Definition never_orphaned (cfgs : Z -> Config) : Prop :=
  forall k i, 0 <= k -> owner (cfgs k) i <> 0 -> owner (cfgs (k + 1)) i <> 0.

Section world.
Context `{MapOrderLaws} (cfgs : Z -> Config).

(** What the background goroutines guarantee about the entries of a group's log. *)
Definition legal (w : World) (g : Z) (op : Op) : Prop :=
  op_ok op /\
  (Type_ op = "Config"%string ->
   ShardConfig.Num (Config_ op) = num_of w g + 1 ->
   Config_ op = cfgs (num_of w g + 1) /\ allStable (shards (w g)) = true) /\
  (Type_ op = "Install"%string -> ConfigNum op = num_of w g ->
   forall i, is_Some (Shards_ op !! i) ->
     let from := owner (lastConfig (w g)) i in from <> 0 -> ConfigNum op <= num_of w from).

Inductive world_step (w : World) : World -> Prop :=
  | group_step g op s' r :
      g <> 0 -> legal w g op -> execute g op (w g) = Some (s', r) ->
      world_step w (<[g := s']> w).

Definition world_init : World := fun _ => initialState.

Definition world_reachable (w : World) : Prop := rtc world_step world_init w.

(** The group has the data of the shard. *)
Definition has (s : State) (i : Z) : Prop :=
  exists sh, zget (shards s) i = Some sh /\ (State_ sh = Serving \/ State_ sh = GCing).

(** Every other group that owned shard [i] before configuration [m] has moved past
    the configuration in which it did. *)
Definition past (w : World) (i m g : Z) : Prop :=
  forall j, 0 <= j < m -> owner (cfgs j) i <> 0 -> owner (cfgs j) i <> g ->
    j < num_of w (owner (cfgs j) i).

Record world_inv (w : World) : Prop := {
  wi_wf g : g <> 0 -> state_wf (w g);
  wi_num g : g <> 0 -> 0 <= num_of w g;
  wi_config g : g <> 0 -> config (w g) = cfgs (num_of w g);
  wi_last g : g <> 0 -> 0 < num_of w g -> lastConfig (w g) = cfgs (num_of w g - 1);
  wi_own g : g <> 0 -> ownership g (w g);
  wi_past g i m : g <> 0 -> 0 <= m -> owner (cfgs m) i = g ->
    m < num_of w g \/ m = num_of w g /\ has (w g) i -> past w i m g;
}.

Lemma past_mono w w' i m g :
  (forall h, num_of w h <= num_of w' h) -> past w i m g -> past w' i m g.
Proof. intros Hle Hp j Hj H1 H2. specialize (Hp j Hj H1 H2). specialize (Hle (owner (cfgs j) i)). lia. Qed.

Section history.
Hypothesis (Hist : history cfgs).
Hypothesis (Keep : never_orphaned cfgs).

Lemma owner_zero_before k i j :
  0 <= j <= k -> owner (cfgs k) i = 0 -> owner (cfgs j) i = 0.
Proof.
  intros Hj. replace k with (j + Z.of_nat (Z.to_nat (k - j))) by lia.
  induction (Z.to_nat (k - j)) as [|n IH]; intros Ho; [by rewrite Z.add_0_r in Ho|].
  apply IH. destruct (decide (owner (cfgs (j + Z.of_nat n)) i = 0)) as [|Hne]; [done|].
  apply Keep in Hne; [|lia].
  by replace (j + Z.of_nat (S n)) with (j + Z.of_nat n + 1) in Ho by lia.
Qed.

Lemma owner_initial i : owner (cfgs 0) i = 0.
Proof.
  rewrite (hist_zero _ Hist). unfold owner.
  destruct (zget (Shards Config_zero) i) as [x|] eqn:E; [|done].
  apply zget_Some_lookup in E as [_ E]. by apply lookup_replicate in E as [-> _].
Qed.

(** A shard pulled from a previous owner that reached the configuration. *)
Lemma pulled_past w g i :
  world_inv w -> g <> 0 -> 0 < num_of w g ->
  let h := owner (cfgs (num_of w g - 1)) i in
  h <> 0 -> num_of w g <= num_of w h -> past w i (num_of w g) g.
Proof.
  intros Hinv Hg Hpos h Hnz HI.
  assert (past w i (num_of w g - 1) h) as Hph by (apply (wi_past _ Hinv); try done; lia).
  intros j Hj Hj0 Hjg. destruct (decide (j = num_of w g - 1)) as [->|]; [fold h; lia|].
  destruct (decide (owner (cfgs j) i = h)) as [->|]; [lia|]. apply Hph; done || lia.
Qed.

Lemma world_init_inv : world_inv world_init.
Proof.
  split; unfold world_init, num_of; cbn; try done.
  - intros. symmetry. apply (hist_zero _ Hist).
  - intros g _ i sh [_ Hi]%zget_Some_lookup. by apply lookup_replicate in Hi as [-> _].
  - intros g i m Hg Hm Ho Hx j Hj. lia.
Qed.

Section step.
Context (w : World) (g : Z) (op : Op) (s' : State) (r : applyResult).
Hypothesis (Hinv : world_inv w).
Hypothesis (Hg : g <> 0).
Hypothesis (Hlegal : legal w g op).
Hypothesis (Hexec : execute g op (w g) = Some (s', r)).

Lemma step_change : state_wf s' /\ change g op (w g) s'.
Proof.
  destruct Hlegal as [Hok _].
  destruct (execute_change g op (w g) (wi_wf _ Hinv g Hg) Hok) as (s1 & r1 & E & ? & ?).
  rewrite Hexec in E. by injection E as <- <-.
Qed.

(** Either nothing happened to the configurations, or the group was stable and
    took the next one. *)
Lemma step_configs :
  (config s' = config (w g) /\ lastConfig s' = lastConfig (w g)) \/
  (stable (w g) /\ config s' = cfgs (num_of w g + 1) /\ lastConfig s' = config (w g) /\
   ShardConfig.Num (config s') = num_of w g + 1).
Proof.
  destruct step_change as [_ Hch]. destruct (change_configs _ _ _ _ Hch) as [?|(E1 & E2 & HT & EN)];
    [by left|]. right. destruct Hlegal as (_ & HC & _). rewrite E1 in EN.
  destruct (HC HT EN) as [E Hst]. rewrite E1. split_and!; try done. by apply allStable_spec.
Qed.

Lemma step_gated : gated (w g) s'.
Proof. intros Hne. destruct step_configs as [[E _]|[? _]]; [by rewrite E in Hne|done]. Qed.

Lemma step_mono h : num_of w h <= num_of (<[g := s']> w) h.
Proof.
  unfold num_of. destruct (decide (h = g)) as [->|].
  - rewrite fn_lookup_insert. destruct step_configs as [[-> _]|(_ & _ & _ & ->)]; unfold num_of; lia.
  - by rewrite fn_lookup_insert_ne.
Qed.

(** In the same configuration, a shard whose data is new was pulled. *)
Lemma step_past_same i :
  config s' = config (w g) -> owner (cfgs (num_of w g)) i = g -> has s' i ->
  past w i (num_of w g) g.
Proof.
  intros EC Ho (sh' & Hsh' & Hx). destruct step_change as [_ Hch].
  destruct (change_states _ _ _ _ Hch i sh' Hsh') as (sh & Hsh & Hcase).
  assert (has (w g) i -> past w i (num_of w g) g) as Hold.
  { intros ?. apply (wi_past _ Hinv); [done|by apply (wi_num _ Hinv)|done|by right]. }
  pose proof (wi_own _ Hinv g Hg i sh Hsh) as Hown.
  destruct Hcase as [E|[[EN _]|[[E1 E2]|[[E1|E1] E2]]]].
  - apply Hold. exists sh. rewrite <- E. auto.
  - rewrite EC in EN. lia.
  - rewrite E1 in Hown. destruct Hown as (_ & Hne & Hnz).
    destruct Hch as [_ _ _ HZ|_ E|_ E _ EN _|HT _ _ EN HZ|_ _ _ HZ].
    + specialize (HZ i). rewrite Hsh', Hsh in HZ. cbn in HZ. congruence.
    + congruence.
    + rewrite EC in E. unfold num_of in *. rewrite <- E in EN. lia.
    + rewrite HZ in Hsh'. case_bool_decide as Hin; [|congruence].
      destruct Hlegal as (_ & _ & HI). specialize (HI HT EN i Hin Hnz).
      assert (0 < num_of w g) as Hpos.
      { destruct (decide (num_of w g = 0)) as [Ez|]; [|pose proof (wi_num _ Hinv g Hg); lia].
        rewrite Ez, owner_initial in Ho. congruence. }
      rewrite (wi_last _ Hinv g Hg Hpos) in HI, Hnz. rewrite EN in HI. fold (num_of w g) in HI.
      by apply pulled_past.
    + rewrite HZ, Hsh in Hsh'. case_bool_decide; [|by injection Hsh' as <-; congruence].
      cbn in Hsh'. injection Hsh' as <-. unfold gc_update in E2. rewrite E1 in E2. congruence.
  - apply Hold. exists sh. auto.
  - rewrite E1 in Hown. destruct Hown as [Hne _]. rewrite (wi_config _ Hinv g Hg) in Hne. done.
Qed.

(** In the next configuration, a shard with data was kept, or had no owner. *)
Lemma step_past_next i :
  stable (w g) -> config s' = cfgs (num_of w g + 1) ->
  ShardConfig.Num (config s') = num_of w g + 1 ->
  owner (cfgs (num_of w g + 1)) i = g -> has s' i -> past w i (num_of w g + 1) g.
Proof.
  intros Hst EC EN Ho (sh' & Hsh' & Hx). destruct step_change as [_ Hch].
  pose proof (wi_num _ Hinv g Hg) as Hpos.
  destruct Hch as [_ E _ _|_ ->|_ _ _ _ HZ|_ E _ _ _|_ E _ _];
    try (unfold num_of in EN; rewrite ?E in EN; lia).
  rewrite HZ in Hsh'. apply fmap_Some in Hsh' as (sh & Hsh & ->).
  specialize (Hst i sh Hsh). intros j Hj Hj0 Hjg.
  assert (Config_ op = cfgs (num_of w g + 1)) as E1.
  { destruct (change_configs _ _ _ _ (proj2 step_change)) as [[E _]|(E & _)]; [|congruence].
    unfold num_of in EN. rewrite E in EN. lia. }
  rewrite E1, (wi_config _ Hinv g Hg) in Hx. unfold config_update in Hx.
  rewrite Ho, Z.eqb_refl in Hx. cbn [andb negb] in Hx.
  destruct (Z.eqb_spec (owner (cfgs (num_of w g)) i) g) as [Hk|Hk].
  - destruct (decide (j = num_of w g)) as [->|]; [done|].
    assert (past w i (num_of w g) g) as Hp; [|apply Hp; done || lia].
    apply (wi_past _ Hinv); [done|done|done|]. right. split; [done|]. exists sh. auto.
  - cbn in Hx. destruct (Z.eqb_spec (owner (cfgs (num_of w g)) i) 0) as [Hz|].
    + exfalso. apply Hj0, (owner_zero_before (num_of w g)); [lia|done].
    + by destruct Hx.
Qed.

Lemma step_wi_past h i m :
  h <> 0 -> 0 <= m -> owner (cfgs m) i = h ->
  m < num_of (<[g := s']> w) h \/ m = num_of (<[g := s']> w) h /\ has ((<[g := s']> w) h) i ->
  past w i m h.
Proof.
  intros Hh Hm Ho Hx. unfold num_of in Hx. destruct (decide (h = g)) as [->|Hne].
  - rewrite fn_lookup_insert in Hx.
    assert (m <= num_of w g -> (m = num_of w g -> has (w g) i) -> past w i m g) as Hold.
    { intros Hle Hhas. apply (wi_past _ Hinv); try done.
      destruct (decide (m = num_of w g)); [right; auto|left; lia]. }
    destruct step_configs as [[EC _]|(Hst & EC & _ & EN)].
    + rewrite EC in Hx. fold (num_of w g) in Hx.
      destruct Hx as [?|[-> Hhas]]; [apply Hold; lia|]. by apply step_past_same.
    + rewrite EN in Hx. destruct Hx as [Hlt|[-> Hhas]]; [|by apply step_past_next].
      apply Hold; [lia|]. intros ->.
      destruct (wi_wf _ Hinv g Hg) as [W1 W2 _].
      destruct (zget (shards (w g)) i) as [sh|] eqn:Hsh;
        [exists sh; split; [done|left; by apply (Hst i)]|].
      apply zget_None in Hsh. exfalso. apply Hh. rewrite <- Ho. unfold owner.
      rewrite <- (wi_config _ Hinv g Hg).
      by rewrite (proj2 (zget_None (Shards (config (w g))) i)) by lia.
  - rewrite fn_lookup_insert_ne in Hx by done. by apply (wi_past _ Hinv).
Qed.

Lemma step_world_inv : world_inv (<[g := s']> w).
Proof.
  destruct step_change as [Hwf' Hch].
  assert (forall h, h <> g -> num_of (<[g := s']> w) h = num_of w h) as Hnum.
  { intros h Hne. unfold num_of. by rewrite fn_lookup_insert_ne. }
  split.
  6: { intros h i m Hh Hm Ho Hx. apply (past_mono w); [apply step_mono|].
       by apply step_wi_past. }
  all: intros h Hh; destruct (decide (h = g)) as [->|Hne];
    [unfold num_of; rewrite fn_lookup_insert|
     rewrite ?Hnum, ?fn_lookup_insert_ne by done; by apply Hinv].
  - done.
  - pose proof (wi_num _ Hinv g Hg). unfold num_of in *.
    destruct step_configs as [[-> _]|(_ & _ & _ & ->)]; unfold num_of; lia.
  - destruct step_configs as [[-> _]|(_ & E & _ & ->)]; [by apply Hinv|done].
  - destruct step_configs as [[-> ->]|(_ & _ & -> & ->)]; [by apply Hinv|]. intros _.
    replace (num_of w g + 1 - 1) with (num_of w g) by lia. by apply Hinv.
  - eapply change_ownership; [done|apply step_gated|by apply Hinv].
Qed.
End step.

Lemma world_reachable_inv w : world_reachable w -> world_inv w.
Proof.
  intros Hr. assert (forall w1 w2, rtc world_step w1 w2 -> world_inv w1 -> world_inv w2) as Hi.
  { induction 1 as [|w1 w2 w3 Hs _ IH]; [done|]. intros Hinv. apply IH.
    destruct Hs as [g op s' r Hg Hl He]. by eapply step_world_inv. }
  eapply Hi; [exact Hr|apply world_init_inv].
Qed.
End history.

(** Group [g] answers client operations on shard [i]. *)
Definition is_serving (w : World) (g i : Z) : Prop := serves g (w g) i = Some true.

Lemma is_serving_spec w g i :
  is_serving w g i -> owner (config (w g)) i = g /\ has (w g) i.
Proof.
  unfold is_serving, serves, owner, has. intros (sh & Hsh & E)%bind_Some.
  apply bind_Some in E as (o & Ho & [= E]). rewrite Ho. cbn.
  apply andb_true_iff in E as [E1 E2]. apply Z.eqb_eq in E1. split; [done|].
  exists sh. split; [done|]. apply orb_true_iff in E2 as [E2|E2];
    apply bool_decide_eq_true in E2; auto.
Qed.

(** A shard has one holder. *)
Lemma one_holder w g1 g2 i :
  world_inv w -> g1 <> 0 -> g2 <> 0 ->
  owner (cfgs (num_of w g1)) i = g1 -> has (w g1) i ->
  owner (cfgs (num_of w g2)) i = g2 -> has (w g2) i -> g1 = g2.
Proof.
  intros Hinv H1 H2 O1 D1 O2 D2.
  pose proof (wi_past _ Hinv g1 i _ H1 (wi_num _ Hinv g1 H1) O1 (or_intror (conj eq_refl D1))) as P1.
  pose proof (wi_past _ Hinv g2 i _ H2 (wi_num _ Hinv g2 H2) O2 (or_intror (conj eq_refl D2))) as P2.
  destruct (decide (g1 = g2)) as [|Hne]; [done|]. exfalso.
  destruct (Ztrichotomy (num_of w g1) (num_of w g2)) as [Hlt|[Heq|Hgt]].
  - specialize (P2 (num_of w g1)). rewrite O1 in P2.
    pose proof (wi_num _ Hinv g1 H1). specialize (P2 ltac:(lia) H1 Hne). lia.
  - rewrite Heq in O1. congruence.
  - specialize (P1 (num_of w g2)). rewrite O2 in P1.
    pose proof (wi_num _ Hinv g2 H2). specialize (P1 ltac:(lia) H2 (not_eq_sym Hne)). lia.
Qed.

(** C13: at every moment at most one group serves a shard, even while groups are at
    different configurations and a migration is under way, provided that no
    configuration takes a shard away from its owner without giving it to another
    group. *)
Theorem one_server_per_shard w g1 g2 i :
  history cfgs -> never_orphaned cfgs -> world_reachable w -> g1 <> 0 -> g2 <> 0 ->
  is_serving w g1 i -> is_serving w g2 i -> g1 = g2.
Proof.
  intros Hist Keep Hr H1 H2 [O1 D1]%is_serving_spec [O2 D2]%is_serving_spec.
  pose proof (world_reachable_inv Hist Keep w Hr) as Hinv.
  rewrite (wi_config _ Hinv) in O1, O2 by done. by eapply one_holder.
Qed.
End world.

(** ** Concrete worlds *)
Module Worlds.
#[export] Existing Instance listed_order.
#[export] Existing Instance listed_order_laws.

Definition all (num gid : Z) : Config :=
  {| ShardConfig.Num := num; Shards := replicate NShards gid; Groups := ∅ |}.

(** All shards go to group 1, then to group 2. *)
Definition handover (k : Z) : Config :=
  if k =? 0 then Config_zero else if k =? 1 then all 1 1 else all k 2.

(** All shards go to group 1, then nobody owns them, then group 2 does. *)
Definition orphaned (k : Z) : Config :=
  if k =? 0 then Config_zero else if k =? 1 then all 1 1
  else if k =? 2 then all 2 0 else all k 2.

Definition configOp (c : Config) : Op :=
  {| InternalId := 9; Type_ := "Config"; ClientId := 0; SeqId := 0; Key := "";
     Value := ""; Config_ := c; ConfigNum := 0; Shards_ := ∅; DupTable := ∅;
     GCConfigNum := 0; GCShardIds := [] |}.
Definition installOp : Op :=
  {| InternalId := 9; Type_ := "Install"; ClientId := 0; SeqId := 0; Key := "";
     Value := ""; Config_ := Config_zero; ConfigNum := 2;
     Shards_ := <[0 := <["d"%string := "v"%string]> ∅]> ∅;
     DupTable := ∅; GCConfigNum := 0; GCShardIds := [] |}.

(** Run one entry of a group. *)
Definition run1 (g : Z) (op : Op) (s : State) : State :=
  match execute g op s with Some (s', _) => s' | None => s end.

Definition a1 : State := run1 1 (configOp (all 1 1)) initialState.
Definition a2 : State := run1 1 (configOp (all 2 2)) a1.
Definition b1 : State := run1 2 (configOp (all 1 1)) initialState.
Definition b2 : State := run1 2 (configOp (all 2 2)) b1.
Definition b3 : State := run1 2 installOp b2.
Definition o2 : State := run1 2 (configOp (all 2 0)) b1.
Definition o3 : State := run1 2 (configOp (all 3 2)) o2.

Definition handed : World :=
  <[2 := b3]> (<[2 := b2]> (<[2 := b1]> (<[1 := a2]> (<[1 := a1]> world_init)))).
Definition split_brain : World :=
  <[2 := o3]> (<[2 := o2]> (<[2 := b1]> (<[1 := a1]> world_init))).

Lemma all_len num gid : length (Shards (all num gid)) = NShards.
Proof. done. Qed.

Lemma handover_history : history handover.
Proof.
  split; [done|..]; unfold handover; intros k.
  - intros Hk. destruct (Z.eqb_spec k 0); [by subst|]. destruct (Z.eqb_spec k 1); [by subst|done].
  - destruct (k =? 0); [done|]. by destruct (k =? 1).
Qed.

Lemma handover_kept : never_orphaned handover.
Proof.
  assert (forall num gid i, owner (all num gid) i = 0 \/ owner (all num gid) i = gid) as Ha.
  { intros num gid i. unfold owner.
    destruct (zget (Shards (all num gid)) i) as [x|] eqn:E; [|by left]. right.
    apply zget_Some_lookup in E as [_ E]. by apply lookup_replicate in E as [-> _]. }
  assert (forall n1 g1 n2 g2 i, g2 <> 0 -> owner (all n1 g1) i <> 0 -> owner (all n2 g2) i <> 0)
    as Hb.
  { intros n1 g1 n2 g2 i Hg. unfold owner, zget. cbn [Shards all].
    destruct (0 <=? i); [|done]. destruct (replicate NShards g1 !! Z.to_nat i) as [x|] eqn:E; [|done].
    apply lookup_replicate in E as [_ E]. rewrite lookup_replicate_2 by done. done. }
  intros k i Hk. unfold handover at 2.
  destruct (Z.eqb_spec (k + 1) 0); [lia|]. unfold handover.
  destruct (Z.eqb_spec k 0) as [->|].
  - cbn. intros Hz. exfalso. apply Hz. destruct (Ha 0 0 i); done.
  - destruct (Z.eqb_spec (k + 1) 1); [lia|]. destruct (Z.eqb_spec k 1); by apply Hb.
Qed.

Lemma orphaned_history : history orphaned.
Proof.
  split; [done|..]; unfold orphaned; intros k.
  - intros Hk. destruct (Z.eqb_spec k 0); [by subst|]. destruct (Z.eqb_spec k 1); [by subst|].
    destruct (Z.eqb_spec k 2); [by subst|done].
  - destruct (k =? 0); [done|]. destruct (k =? 1); [done|]. by destruct (k =? 2).
Qed.

(** A configuration entry is legal when the group is stable at the number before. *)
Lemma legal_config cfgs w g c :
  length (Shards c) = NShards -> cfgs (num_of w g + 1) = c -> allStable (shards (w g)) = true ->
  legal cfgs w g (configOp c).
Proof.
  intros Hl Hc Hs. split; [|split; [done|done]].
  split_and!; [done|..]; cbn; intros i; [by rewrite lookup_empty; intros []|by intros ?%not_elem_of_nil].
Qed.

Ltac config_step cfgs g c s :=
  eapply rtc_l; [apply (group_step cfgs _ g (configOp c) s
    (result (configOp c) (OK, EmptyString)));
    [done|apply legal_config; vm_compute; reflexivity|vm_compute; reflexivity]|].

Lemma handed_reachable : world_reachable handover handed.
Proof.
  unfold world_reachable.
  config_step handover 1 (all 1 1) a1.
  config_step handover 1 (all 2 2) a2.
  config_step handover 2 (all 1 1) b1.
  config_step handover 2 (all 2 2) b2.
  eapply rtc_l; [apply (group_step handover _ 2 installOp b3
    (result installOp (OK, EmptyString))); [done| |vm_compute; reflexivity]|apply rtc_refl].
  split; [|split; [done|]].
  - split_and!; [done|..]; cbn; intros i.
    + intros [m Hm]. apply lookup_insert_Some in Hm as [[<- _]|[_ Hm]]; [done|].
      by rewrite lookup_empty in Hm.
    + by intros ?%not_elem_of_nil.
  - intros _ _ i [m Hm]. cbn in Hm. apply lookup_insert_Some in Hm as [[<- _]|[_ Hm]].
    + cbn zeta. intros _. vm_compute. discriminate.
    + by rewrite lookup_empty in Hm.
Qed.

Lemma split_brain_reachable : world_reachable orphaned split_brain.
Proof.
  unfold world_reachable.
  config_step orphaned 1 (all 1 1) a1.
  config_step orphaned 2 (all 1 1) b1.
  config_step orphaned 2 (all 2 0) o2.
  config_step orphaned 2 (all 3 2) o3.
  apply rtc_refl.
Qed.
End Worlds.
Import Worlds.

Lemma one_server_per_shard_witness :
  is_serving handed 2 0 /\ value_at (handed 2) "d" = Some "v"%string /\
  forall g, g <> 0 -> is_serving handed g 0 -> 2 = g.
Proof.
  split; [vm_compute; reflexivity|]. split; [vm_compute; reflexivity|]. intros g Hg Hs.
  apply (one_server_per_shard handover handed 2 g 0 handover_history handover_kept
    handed_reachable); [done|done|vm_compute; reflexivity|exact Hs].
Defined.

(** Without that proviso the claim fails: when every group has left
    (configuration 2) and another one joins (configuration 3), the new group serves
    the shard at once, with no data and without waiting for the old owner, while
    the old owner, still at configuration 1, serves it too. *)
Theorem orphaned_shard_two_servers :
  history orphaned /\ world_reachable orphaned split_brain /\
  is_serving split_brain 1 0 /\ is_serving split_brain 2 0.
Proof.
  split; [apply orphaned_history|]. split; [apply split_brain_reachable|].
  split; vm_compute; reflexivity.
Qed.
