(* ===== verification/ShardData.v ===== *)
(** * Shard groups with their background goroutines

    [World] of ShardNet with the entries of the logs traced to where they come from: the
    clerks, and the rounds of [configPoller], [migrationPuller] and [gcHandler] of some
    replica, which has executed a prefix of the log of its group.  [writes] collects
    the writes of clients that took effect anywhere, in the order in which they did;
    the whole system is meant to be one store that executes them. *)
From S2P Require Import Prelude Persister Serial RaftNode RaftLocal Notify Service ShardConfig ShardKV ShardKVProps ShardNet.
From stdpp Require Import functions relations.
Import ShardKV.
#[local] Open Scope Z_scope.

(** ** One store *)

(** A write on a plain map. *)
Definition write (m : gmap string string) (op : Op) : gmap string string :=
  <[Key op := (if String.eqb (Type_ op) "Append" then default EmptyString (m !! Key op)
               else EmptyString) +:+ Value op]> m.
Definition store (ops : list Op) : gmap string string := foldl write ∅ ops.

Definition shardOf (op : Op) : Z := key2shard (Key op).
Definition isPut (op : Op) : bool := isKVOp op && negb (String.eqb (Type_ op) "Get").

(** The sequence number is not in the duplicate table yet. *)
Definition newer (d : gmap Z DupEntry) (op : Op) : bool :=
  match d !! ClientId op with Some last => negb (SeqId op <=? de_SeqId last) | None => true end.

(** The write that executing an entry makes, if it makes one. *)
Definition effect (g : Z) (op : Op) (s : State) : list Op :=
  if isPut op && default false (serves g s (shardOf op)) && newer (dupTable s) op
  then [op] else [].

(** ** Runs *)

(** [seen g] are the states that replicas of group [g] may be in. *)
Record Trace := { cur : World; seen : Z -> list State; writes : list Op }.

Section trace.
Context `{MapOrder} `{!Codec (RaftPersist Op)} `{!Codec State} (cfgs : Z -> Config).
Notation Server := (Service.Server Op State applyResult Z).

(** [kv] is a server of group [g]. *)
Definition server_of (w : Trace) (g : Z) (kv : Server) : Prop := Service.st kv ∈ seen w g.

Definition num (s : State) : Z := ShardConfig.Num (config s).

(** The entries that end up in the log of a group. *)
Inductive submits (w : Trace) (g : Z) : Op -> Prop :=
  | sub_client type client seq key value id :
      type = "Get"%string \/ type = "Put"%string \/ type = "Append"%string ->
      submits w g (with_InternalId id (clientOp type client seq key value))
  | sub_config kv k id op :
      server_of w g kv -> configPoller_query kv = Some k ->
      configPoller_start (k - 1) id (cfgs k) = Some op -> submits w g op
  | sub_install kv m from ids call id op :
      server_of w g kv -> migrationPuller_calls kv = Some m -> m !! from = Some ids ->
      (forall server r, call server = Some r -> exists kv', server_of w from kv' /\
         PullShard {| ps_ConfigNum := num (Service.st kv); ps_ShardIds := ids |} kv' = Some r) ->
      migrationPuller_start (num (Service.st kv)) id from (lastConfig (Service.st kv)) call = Some op ->
      submits w g op
  | sub_gc_old h kv m ids kv' id op :
      (* [GCShard] at the old owner, called by the new one *)
      h <> 0 -> server_of w h kv -> gcHandler_calls kv = Some m -> m !! g = Some ids ->
      server_of w g kv' ->
      GCShard {| gc_ConfigNum := num (Service.st kv); gc_ShardIds := ids |} kv' = Some (inr op) ->
      submits w g (with_InternalId id op)
  | sub_gc_new kv m from ids call id op :
      server_of w g kv -> gcHandler_calls kv = Some m -> m !! from = Some ids ->
      gcHandler_start (num (Service.st kv)) id from ids (lastConfig (Service.st kv)) call = Some op ->
      submits w g op.

Definition after (w : Trace) (g : Z) (op : Op) (s' : State) : Trace :=
  {| cur := <[g := s']> (cur w); seen := <[g := s' :: seen w g]> (seen w);
     writes := writes w ++ effect g op (cur w g) |}.

Inductive trace_step (w : Trace) : Trace -> Prop :=
  | trace_execute g op s' r :
      g <> 0 -> submits w g op -> execute g op (cur w g) = Some (s', r) ->
      trace_step w (after w g op s').

Definition trace_init : Trace :=
  {| cur := world_init; seen := fun _ => [initialState]; writes := [] |}.

Definition trace_reachable (w : Trace) : Prop := rtc trace_step trace_init w.
End trace.

(** ** The rounds of the goroutines *)

Definition in_state (s : State) (i : Z) (x : ShardState) : Prop :=
  exists sh, zget (shards s) i = Some sh /\ State_ sh = x.

Lemma groupShards_spec x i0 l owners acc m g ids i :
  groupShards x i0 l owners acc = Some m -> 0 <= i0 -> m !! g = Some ids -> i ∈ ids ->
  (exists ids0, acc !! g = Some ids0 /\ i ∈ ids0) \/
  (exists sh, i0 <= i /\ l !! Z.to_nat (i - i0) = Some sh /\ State_ sh = x /\ zget owners i = Some g).
Proof.
  revert i0 acc. induction l as [|sh l IH]; intros i0 acc; cbn.
  { intros [= <-] _ Hm Hi. left. eauto. }
  intros H Hi0 Hm Hi. case_bool_decide as Hx.
  - destruct (zget owners i0) as [o|] eqn:Ho; cbn in H; [|done].
    destruct (IH _ _ H ltac:(lia) Hm Hi) as [(ids0 & Ha & Hin)|(sh' & Hle & Hl & Hs & Hg)].
    + destruct (decide (o = g)) as [->|Hne]; [|rewrite lookup_insert_ne in Ha by done; left; eauto].
      rewrite lookup_insert_eq in Ha. injection Ha as <-.
      apply elem_of_app in Hin as [Hin| ->%list_elem_of_singleton].
      * left. unfold mget in Hin. destruct (acc !! g) as [ids0|]; [eauto|by apply not_elem_of_nil in Hin].
      * right. exists sh. split_and!; try done. by replace (i0 - i0) with 0 by lia.
    + right. exists sh'. split_and!; try done; [lia|].
      by replace (Z.to_nat (i - i0)) with (S (Z.to_nat (i - (i0 + 1)))) by lia.
  - destruct (IH _ _ H ltac:(lia) Hm Hi) as [?|(sh' & Hle & Hl & Hs & Hg)]; [by left|right].
    exists sh'. split_and!; try done; [lia|].
    by replace (Z.to_nat (i - i0)) with (S (Z.to_nat (i - (i0 + 1)))) by lia.
Qed.

(** The shards of a round are in the state asked for and came from the group called. *)
Lemma groupShards_round x s m g ids i :
  groupShards x 0 (shards s) (Shards (lastConfig s)) ∅ = Some m -> m !! g = Some ids -> i ∈ ids ->
  in_state s i x /\ owner (lastConfig s) i = g.
Proof.
  intros H Hm Hi. destruct (groupShards_spec _ _ _ _ _ _ _ _ _ H ltac:(lia) Hm Hi)
    as [(ids0 & E & _)|(sh & Hle & Hl & Hs & Ho)]; [by rewrite lookup_empty in E|].
  rewrite Z.sub_0_r in Hl. split; [|unfold owner; by rewrite Ho].
  exists sh. split; [by apply zget_Some_lookup|done].
Qed.

Lemma cloneShards_spec ids l acc m i kv :
  cloneShards ids l acc = Some m -> m !! i = Some kv ->
  acc !! i = Some kv \/ (i ∈ ids /\ exists sh, zget l i = Some sh /\ KV sh = kv).
Proof.
  revert acc. induction ids as [|j ids IH]; intros acc; cbn; [intros [= <-]; by left|].
  intros (sh & Hsh & H)%bind_Some Hm.
  destruct (IH _ H Hm) as [Ha|(Hin & ?)]; [|right; split; [by right|done]].
  apply lookup_insert_Some in Ha as [[<- <-]|[_ Ha]]; [|by left].
  right. split; [by left|]. exists sh. by rewrite cloneKV_spec.
Qed.

Lemma pullFrom_spec n id servers call op :
  pullFrom n id servers call = Some op ->
  exists server r, call server = Some r /\ psr_Err r = OK /\ Type_ op = "Install"%string /\
    ConfigNum op = n /\ Shards_ op = psr_Shards r /\ DupTable op = psr_DupTable r /\
    Shards (Config_ op) = Shards Config_zero /\ GCShardIds op = [].
Proof.
  induction servers as [|s l IH]; cbn; [done|]. destruct (call s) as [r|] eqn:E; [|done].
  destruct (String.eqb_spec (psr_Err r) OK) as [Ho|]; [|done]. intros [= <-]. cbn.
  exists s, r. by split_and!.
Qed.

Lemma notifyGC_spec n id ids servers call op :
  notifyGC n id ids servers call = Some op ->
  Type_ op = "GC"%string /\ GCConfigNum op = n /\ GCShardIds op = ids /\
  Shards (Config_ op) = Shards Config_zero /\ Shards_ op = ∅.
Proof.
  induction servers as [|s l IH]; cbn; [done|]. destruct (call s) as [r|]; [|done].
  destruct (String.eqb _ _); [|done]. by intros [= <-].
Qed.

(** ** What is known of the entries *)
Section facts.
Context `{MapOrder} `{!Codec (RaftPersist Op)} `{!Codec State} (cfgs : Z -> Config).
Hypothesis (Hcfgs : history cfgs).

Inductive origin (w : Trace) (g : Z) (op : Op) : Prop :=
  | or_client : isKVOp op = true -> origin w g op
  | or_config s1 :
      s1 ∈ seen w g -> stable s1 -> Type_ op = "Config"%string ->
      Config_ op = cfgs (num s1 + 1) -> origin w g op
  | or_install s1 from s0 :
      s1 ∈ seen w g -> s0 ∈ seen w from -> Type_ op = "Install"%string ->
      ConfigNum op = num s1 -> num s1 <= num s0 -> DupTable op = dupTable s0 ->
      (forall i kv, Shards_ op !! i = Some kv -> in_state s1 i Pulling /\
         owner (lastConfig s1) i = from /\ exists sh, zget (shards s0) i = Some sh /\ KV sh = kv) ->
      origin w g op
  | or_gc h s1 :
      h <> 0 -> s1 ∈ seen w h -> Type_ op = "GC"%string -> GCConfigNum op = num s1 ->
      (forall i, i ∈ GCShardIds op -> in_state s1 i GCing) -> origin w g op.

Lemma PullShard_spec args kv r :
  PullShard args kv = Some r -> psr_Err r = OK ->
  ps_ConfigNum args <= num (Service.st kv) /\ psr_DupTable r = dupTable (Service.st kv) /\
  forall i m, psr_Shards r !! i = Some m -> i ∈ ps_ShardIds args /\
    exists sh, zget (shards (Service.st kv)) i = Some sh /\ KV sh = m.
Proof.
  unfold PullShard, num. intros E Hok. bcase_in E; [by injection E as <-|].
  bcase_in E; [by injection E as <-|].
  destruct (cloneShards _ _ _) as [m|] eqn:Em; [|done]. cbn in E. injection E as <-. cbn in *.
  split_and!; [lia|apply map_copy|]. intros i kvm Hi.
  destruct (cloneShards_spec _ _ _ _ _ _ Em Hi) as [Ha|?]; [by rewrite lookup_empty in Ha|done].
Qed.

Lemma in_state_range s i x : state_wf s -> in_state s i x -> 0 <= i < Z.of_nat NShards.
Proof. intros [W _ _] (sh & Hi & _). rewrite <- W. by eapply zget_Some_lt. Qed.

Lemma config_ok : length (Shards Config_zero) = NShards.
Proof using Hcfgs. by rewrite <- (hist_zero _ Hcfgs), (hist_len _ Hcfgs). Qed.

Lemma submits_origin w g op :
  g <> 0 -> (forall h s, s ∈ seen w h -> state_wf s) -> submits cfgs w g op ->
  op_ok op /\ origin w g op.
Proof using Hcfgs.
  intros Hg Hwf Hs. destruct Hs as [type c seq key value id HT|kv k id op Hkv Hq Hst
    |kv m from ids call id op Hkv Hc Hm Hcall Hst|h kv m ids kv' id op Hh Hkv Hc Hm Hkv' Hgc
    |kv m from ids call id op Hkv Hc Hm Hst].
  - split.
    + split_and!; [apply config_ok|..]; cbn; [intros i; rewrite lookup_empty; by intros []|by intros i ?%not_elem_of_nil].
    + apply or_client. unfold isKVOp. cbn. by destruct HT as [->|[->| ->]].
  - unfold configPoller_query in Hq. bcase_in Hq; [|done]. injection Hq as <-. breflect.
    unfold configPoller_start in Hst. bcase_in Hst; [|done]. injection Hst as <-. split.
    + split_and!; [apply (hist_len _ Hcfgs)|..]; cbn;
        [intros i; rewrite lookup_empty; by intros []|by intros i ?%not_elem_of_nil].
    + eapply or_config; [exact Hkv|by apply allStable_spec|done|done].
  - unfold migrationPuller_calls in Hc. bcase_in Hc; [|by injection Hc as <-; rewrite lookup_empty in Hm].
    unfold migrationPuller_start in Hst.
    destruct (Groups (lastConfig (Service.st kv)) !! from) as [servers|]; [|done]. cbn in Hst.
    apply pullFrom_spec in Hst as (srv & r & Hr & Hok & HT & HN & HS & HD & HC & HG).
    destruct (Hcall srv r Hr) as (kv' & Hkv' & HP).
    destruct (PullShard_spec _ _ _ HP Hok) as (Hle & Hdup & Hdata). cbn in Hle, Hdata.
    assert (forall i kvm, Shards_ op !! i = Some kvm -> in_state (Service.st kv) i Pulling /\
         owner (lastConfig (Service.st kv)) i = from /\
         exists sh, zget (shards (Service.st kv')) i = Some sh /\ KV sh = kvm) as Hfrom.
    { intros i kvm Hi. rewrite HS in Hi. destruct (Hdata i kvm Hi) as [Hin ?].
      by destruct (groupShards_round _ _ _ _ _ _ Hc Hm Hin). }
    split.
    + split_and!; [rewrite HC; apply config_ok| |by rewrite HG; intros i ?%not_elem_of_nil].
      intros i [kvm Hi]. destruct (Hfrom i kvm Hi) as [Hp _].
      eapply in_state_range; [|exact Hp]. by eapply Hwf.
    + eapply or_install; try done. by rewrite HD.
  - unfold gcHandler_calls in Hc. bcase_in Hc; [|by injection Hc as <-; rewrite lookup_empty in Hm].
    unfold GCShard in Hgc. bcase_in Hgc; [done|]. bcase_in Hgc; [done|].
    destruct (allGCed _ _) as [[]|]; [done| |done]. cbn in Hgc. injection Hgc as <-.
    assert (forall i, i ∈ ids -> in_state (Service.st kv) i GCing) as Hin
      by (intros i Hi; by destruct (groupShards_round _ _ _ _ _ _ Hc Hm Hi)).
    split; [|eapply or_gc; [done|exact Hkv|done|done|exact Hin]].
    split_and!; [apply config_ok|cbn; intros i; rewrite lookup_empty; by intros []|].
    cbn. intros i Hi. eapply in_state_range; [|by apply Hin]. by eapply Hwf.
  - unfold gcHandler_calls in Hc. bcase_in Hc; [|by injection Hc as <-; rewrite lookup_empty in Hm].
    unfold gcHandler_start in Hst.
    destruct (Groups (lastConfig (Service.st kv)) !! from) as [servers|]; [|done]. cbn in Hst.
    apply notifyGC_spec in Hst as (HT & HN & HI & HC & HS).
    assert (forall i, i ∈ GCShardIds op -> in_state (Service.st kv) i GCing) as Hin
      by (rewrite HI; intros i Hi; by destruct (groupShards_round _ _ _ _ _ _ Hc Hm Hi)).
    split.
    + split_and!; [rewrite HC; apply config_ok|rewrite HS; intros i; rewrite lookup_empty; by intros []|].
      intros i Hi. eapply in_state_range; [|by apply Hin]. by eapply Hwf.
    + by eapply or_gc.
Qed.
End facts.
