(* ===== verification/ShardStore.v ===== *)
(** * The sharded store is one store

    Over all runs of ShardData: the shards of all groups together behave as one
    key/value map to which every write is applied once, across any number of
    migrations. *)
From S2P Require Import Prelude Persister Serial RaftNode RaftLocal Notify Service ShardConfig ShardKV ShardKVProps ShardNet ShardData.
From stdpp Require Import functions relations.
Import ShardKV.
#[local] Open Scope Z_scope.

(** ** What one entry does to the contents *)

Lemma foldShards_keeps {A} (f : A -> State -> option State) ids s s' :
  (forall i s s', f i s = Some s' -> dupTable s' = dupTable s) ->
  foldShards f ids s = Some s' -> dupTable s' = dupTable s.
Proof.
  intros Hf. revert s. induction ids as [|i ids IH]; intros s; cbn; [by intros [= <-]|].
  intros (s1 & E & ->%IH)%bind_Some. by eapply Hf.
Qed.

Section effects.
Context `{MapOrderLaws} (g : Z).

(** A client operation changes nothing, or is a write that takes effect. *)
Lemma execute_write op s s' r :
  state_wf s -> isKVOp op = true -> execute g op s = Some (s', r) ->
  (effect g op s = [] /\ s' = s) \/
  (effect g op s = [op] /\ is_Some (zget (shards s) (shardOf op)) /\
   serves g s (shardOf op) = Some true /\ newer (dupTable s) op = true /\ isPut op = true /\
   config s' = config s /\ lastConfig s' = lastConfig s /\
   dupTable s' = <[ClientId op := {| de_SeqId := SeqId op; de_Err := OK; de_Value := EmptyString |}]>
                   (dupTable s) /\
   (forall k, value_at s' k = if bool_decide (k = Key op)
      then Some ((if String.eqb (Type_ op) "Append" then default EmptyString (value_at s k)
                  else EmptyString) +:+ Value op)
      else value_at s k) /\
   (forall j, State_ <$> zget (shards s') j = State_ <$> zget (shards s) j) /\
   r = result op (OK, EmptyString)).
Proof.
  intros Hwf HK. unfold execute, effect, isPut. rewrite HK. fold (shardOf op).
  destruct (serves_spec g s _ Hwf (key2shard_range (Key op))) as (sh & Hsh & Hserv).
  fold (shardOf op) in Hserv, Hsh. destruct (serves g s (shardOf op)) as [[]|]; [|by intros [= <- <-]; left; rewrite andb_false_r|done].
  cbn [mbind option_bind negb default andb].
  destruct (String.eqb (Type_ op) "Get") eqn:EG; cbn [negb andb].
  { unfold applyKVOp. fold (shardOf op). rewrite Hsh, EG. cbn. intros [= <- _]. by left. }
  pose proof (applyKVOp_write op s sh Hsh HK EG) as HA.
  destruct (applyKVOp_spec op s sh Hsh) as (s1 & r1 & E1 & Hcc). rewrite E1 in HA |- *.
  destruct HA as (C1 & -> & C3 & C4). pose proof (contents_changed_states _ _ _ _ Hsh Hcc) as Hst.
  destruct Hcc as (_ & C5 & _). cbn [mbind option_bind].
  assert (forall d, let s2 := with_dup (<[ClientId op := d]> (dupTable s1)) s1 in
    config s2 = config s /\ lastConfig s2 = lastConfig s /\
    dupTable s2 = <[ClientId op := d]> (dupTable s) /\
    (forall k, value_at s2 k = value_at s1 k) /\
    (forall j, State_ <$> zget (shards s2) j = State_ <$> zget (shards s) j)) as Hd.
  { intros d. cbn. rewrite C3. by split_and!. }
  destruct (Hd {| de_SeqId := SeqId op; de_Err := OK; de_Value := EmptyString |})
    as (D1 & D2 & D3 & D4 & D5).
  unfold newer. destruct (dupTable s !! ClientId op) as [last|] eqn:EL; [bcase|]; cbn [negb];
    intros [= <- <-]; [by left|right; by split_and!..].
Qed.

(** The duplicate table after an administrative entry. *)
Lemma admin_dup op s s' r :
  isKVOp op = false -> execute g op s = Some (s', r) ->
  (dupTable s' = dupTable s /\
     ~ (Type_ op = "Install"%string /\ ConfigNum op = ShardConfig.Num (config s))) \/
  (Type_ op = "Install"%string /\ forall c, dupTable s' !! c = newest (DupTable op !! c) (dupTable s !! c)).
Proof.
  intros HK. unfold execute. rewrite HK. intros (s1 & E & [= <- _])%bind_Some.
  unfold applyAdminOp in E.
  destruct (String.eqb_spec (Type_ op) "Config") as [ET|_].
  { left. rewrite ET. split; [|by intros [? _]]. bcase_in E; [by injection E as <-|].
    change (dupTable s) with (dupTable {| config := Config_ op; lastConfig := config s;
      shards := shards s; dupTable := dupTable s |}).
    eapply foldShards_keeps; [|exact E]. intros i s0 s0' E0.
    unfold configShard, setState in E0. by go_inv. }
  destruct (String.eqb_spec (Type_ op) "Install") as [ET|HnI].
  { bcase_in E.
    - injection E as <-. left. split; [done|]. intros [_ ?]. lia.
    - right. split; [done|]. intros c. apply bind_Some in E as (s0 & E & [= <-]). cbn.
      rewrite mergeDup_spec. do 2 f_equal. by eapply foldShards_dup. }
  destruct (String.eqb_spec (Type_ op) "GC"); left; (split; [|intros [? _]; contradiction]).
  - eapply foldShards_keeps; [|exact E]. intros i s0 s0' E0.
    unfold gcShard, setState, setKV in E0. apply bind_Some in E0 as (sh & _ & E0).
    destruct (State_ sh); by go_inv.
  - by injection E as <-.
Qed.

(** The contents of a shard after an administrative entry. *)
Lemma admin_shard op s s' i sh sh' :
  isKVOp op = false -> change g op s s' ->
  zget (shards s) i = Some sh -> zget (shards s') i = Some sh' ->
  KV sh' = KV sh \/
  (Type_ op = "Install"%string /\ ConfigNum op = ShardConfig.Num (config s) /\
   config s' = config s /\ State_ sh = Pulling /\ Shards_ op !! i = Some (KV sh')) \/
  (Type_ op = "GC"%string /\ GCConfigNum op = ShardConfig.Num (config s) /\
   config s' = config s /\ State_ sh = BePulling /\ i ∈ GCShardIds op /\ KV sh' = ∅).
Proof.
  intros HK Hch Hi Hi'. destruct Hch as [? _ _ _|_ ->|_ _ _ _ HZ|HT EC _ EN HZ|HT EC _ HZ].
  - congruence.
  - left. congruence.
  - rewrite HZ, Hi in Hi'. injection Hi' as <-. left. unfold config_update. by repeat bcase.
  - rewrite HZ, Hi in Hi'. case_bool_decide as Hin; [|left; congruence].
    cbn in Hi'. injection Hi' as <-. unfold install_update. case_bool_decide; [|by left].
    right. left. split_and!; try done. cbn. by destruct Hin as [m ->].
  - rewrite HZ, Hi in Hi'. case_bool_decide as Hin; [|left; congruence].
    cbn in Hi'. injection Hi' as <-. unfold gc_update.
    destruct (State_ sh) eqn:Es; try (by left); destruct (Z.eqb_spec (ShardConfig.Num (config s)) (GCConfigNum op));
      try (by left).
    right. right. by split_and!.
Qed.

(** Data arrives with an installation. *)
Lemma pulling_installed op s s' i sh sh' :
  change g op s s' -> config s' = config s -> zget (shards s) i = Some sh ->
  zget (shards s') i = Some sh' -> State_ sh = Pulling -> State_ sh' <> Pulling ->
  Type_ op = "Install"%string /\ ConfigNum op = ShardConfig.Num (config s) /\
  Shards_ op !! i = Some (KV sh').
Proof.
  intros Hch EC Hi Hi' Hp Hp'. destruct Hch as [_ _ _ HZ|_ ->|_ EC' _ EN HZ|HT _ _ EN HZ|_ _ _ HZ].
  - specialize (HZ i). rewrite Hi, Hi' in HZ. cbn in HZ. congruence.
  - congruence.
  - rewrite <- EC', EC in EN. lia.
  - rewrite HZ, Hi in Hi'. case_bool_decide as Hin; [|congruence]. cbn in Hi'. injection Hi' as <-.
    split_and!; [done|done|]. unfold install_update. rewrite bool_decide_eq_true_2 by done.
    cbn. by destruct Hin as [m ->].
  - rewrite HZ, Hi in Hi'. case_bool_decide; [|congruence]. cbn in Hi'. injection Hi' as <-.
    unfold gc_update in Hp'. by rewrite Hp in Hp'.
Qed.
End effects.

(** ** What replicas have seen *)

(** [s'] is a later state of the group: in the same configuration, what was complete
    stays complete. *)
Definition later (s s' : State) : Prop :=
  num s <= num s' /\
  (num s = num s' -> config s' = config s /\ lastConfig s' = lastConfig s /\
     (stable s -> stable s') /\ forall i, has s i -> has s' i).

Lemma later_refl s : later s s.
Proof. done. Qed.

Lemma later_trans s1 s2 s3 : later s1 s2 -> later s2 s3 -> later s1 s3.
Proof.
  intros [L1 E1] [L2 E2]. split; [lia|]. intros E.
  destruct E1 as (C1 & D1 & S1 & H1); [lia|]. destruct E2 as (C2 & D2 & S2 & H2); [lia|].
  split_and!; try congruence; auto.
Qed.

Lemma has_change gid op s s' i :
  state_wf s -> state_wf s' -> change gid op s s' -> num s' = num s -> has s i -> has s' i.
Proof.
  intros [W1 _ _] [W2 _ _] Hch EN (sh & Hsh & Hx).
  destruct (zget_in_range (shards s') i) as [sh' Hsh'];
    [rewrite W2, <- W1; by eapply zget_Some_lt|].
  exists sh'. split; [done|]. destruct (change_states _ _ _ _ Hch i sh' Hsh') as (sh0 & E0 & Hc).
  rewrite Hsh in E0. injection E0 as <-. unfold num in EN.
  destruct Hc as [->|[[? _]|[[E _]|[[E|E] E']]]]; [done|lia|destruct Hx; congruence|by left|by left].
Qed.

Section base.
Context `{MapOrderLaws} `{!Codec (RaftPersist Op)} `{!Codec State} (cfgs : Z -> Config).
Implicit Types (w : Trace).

Record base_inv w : Prop := {
  bi_world : world_inv cfgs (cur w);
  bi_cur g : cur w g ∈ seen w g;
  bi_wf g s : s ∈ seen w g -> state_wf s;
  bi_later g s : s ∈ seen w g -> later s (cur w g);
  bi_config g s : g <> 0 -> s ∈ seen w g -> 0 <= num s /\ config s = cfgs (num s) /\
    (0 < num s -> lastConfig s = cfgs (num s - 1)) /\ ownership g s;
}.

Section history.
Hypothesis (Hcfgs : history cfgs).
Hypothesis (Keep : never_orphaned cfgs).

(** The entries are what ShardNet asks of them. *)
Lemma origin_legal w g op :
  base_inv w -> g <> 0 -> op_ok op -> origin cfgs w g op -> legal cfgs (cur w) g op.
Proof using H0 Hcfgs.
  intros Hinv Hg Hok Ho. split; [done|]. unfold num_of.
  destruct Ho as [HK|s1 Hs1 Hst HT HC|s1 from s0 Hs1 Hs0 HT HN Hle HD HS|h s1 Hh Hs1 HT _ _].
  - split; intros HT; unfold isKVOp in HK; by rewrite HT in HK.
  - split; [|intros HT'; congruence]. intros _ EN.
    destruct (bi_config _ Hinv g s1 Hg Hs1) as (Hz & _).
    destruct (bi_later _ Hinv g s1 Hs1) as [_ HL]. unfold num in *.
    rewrite HC, (hist_num _ Hcfgs) in EN by lia.
    destruct HL as (_ & _ & Hs & _); [lia|]. rewrite HC. split; [f_equal; lia|].
    by apply allStable_spec, Hs.
  - split; [intros HT'; congruence|]. intros _ EN i [m Hm].
    destruct (HS i m Hm) as (_ & Ho & _). destruct (bi_later _ Hinv g s1 Hs1) as [_ HL].
    unfold num in *. destruct HL as (_ & EL & _); [lia|]. rewrite EL, Ho. intros _.
    pose proof (proj1 (bi_later _ Hinv from s0 Hs0)). unfold num in *. lia.
  - split; intros HT'; congruence.
Qed.

(** Where group [g] is and where it goes. *)
Record entry w g op s' r : Prop := {
  en_group : g <> 0;
  en_origin : origin cfgs w g op;
  en_ok : op_ok op;
  en_exec : execute g op (cur w g) = Some (s', r);
  en_wf : state_wf s';
  en_change : change g op (cur w g) s';
  en_configs : (config s' = config (cur w g) /\ lastConfig s' = lastConfig (cur w g)) \/
    (stable (cur w g) /\ config s' = cfgs (num (cur w g) + 1) /\
     lastConfig s' = config (cur w g) /\ num s' = num (cur w g) + 1);
}.

Lemma step_entry w g op s' r :
  base_inv w -> g <> 0 -> submits cfgs w g op -> execute g op (cur w g) = Some (s', r) ->
  entry w g op s' r.
Proof using H0 Hcfgs.
  intros Hinv Hg Hs He.
  destruct (submits_origin cfgs Hcfgs w g op Hg (bi_wf _ Hinv) Hs) as [Hok Ho].
  pose proof (origin_legal w g op Hinv Hg Hok Ho) as Hl. pose proof (bi_world _ Hinv) as Hw.
  destruct (step_change cfgs (cur w) g op s' r Hw Hg Hl He) as [Hwf Hch].
  split; try done. by eapply step_configs.
Qed.

Lemma entry_later w g op s' r : base_inv w -> entry w g op s' r -> later (cur w g) s'.
Proof.
  intros Hinv [Hg _ _ _ Hwf Hch Hc]. destruct Hc as [[EC EL]|(_ & _ & _ & EN)].
  - assert (num s' = num (cur w g)) as EN by (unfold num; by rewrite EC). split; [lia|]. intros _.
    split_and!; [done|done| |].
    + intros Hst. by eapply stable_change.
    + intros i. eapply has_change; try done. by apply (bi_wf _ Hinv g), (bi_cur _ Hinv).
  - split; [lia|]. intros. lia.
Qed.

Lemma step_base w g op s' r : base_inv w -> entry w g op s' r -> base_inv (after w g op s').
Proof using H0 Hcfgs Keep.
  intros Hinv He. pose proof (entry_later _ _ _ _ _ Hinv He) as Hlat.
  destruct He as [Hg Ho Hok He Hwf Hch Hc]. pose proof (bi_world _ Hinv) as Hw.
  pose proof (step_world_inv cfgs Hcfgs Keep (cur w) g op s' r Hw Hg
    (origin_legal _ _ _ Hinv Hg Hok Ho) He) as Hw'.
  assert (forall h s, s ∈ seen (after w g op s') h -> h = g /\ s = s' \/ s ∈ seen w h) as Hpast.
  { intros h s. cbn. destruct (decide (h = g)) as [->|].
    - rewrite fn_lookup_insert. intros [->|?]%elem_of_cons; auto.
    - rewrite fn_lookup_insert_ne by done. auto. }
  split; [done|..].
  - intros h. cbn. destruct (decide (h = g)) as [->|].
    + rewrite !fn_lookup_insert. by left.
    + rewrite !fn_lookup_insert_ne by done. apply (bi_cur _ Hinv).
  - intros h s [[-> ->]|Hs]%Hpast; [done|by eapply bi_wf].
  - intros h s Hs. cbn. destruct (decide (h = g)) as [->|Hne].
    + rewrite fn_lookup_insert. destruct (Hpast g s Hs) as [[_ ->]|Hs'].
      * apply later_refl.
      * eapply later_trans; [by apply (bi_later _ Hinv)|done].
    + rewrite fn_lookup_insert_ne by done. destruct (Hpast h s Hs) as [[-> _]|]; [done|].
      by apply (bi_later _ Hinv).
  - intros h s Hh [[-> ->]|Hs]%Hpast; [|by apply (bi_config _ Hinv)].
    pose proof (wi_num _ _ Hw' g Hg) as W1. pose proof (wi_config _ _ Hw' g Hg) as W2.
    pose proof (wi_last _ _ Hw' g Hg) as W3. pose proof (wi_own _ _ Hw' g Hg) as W4.
    unfold num_of in *. rewrite fn_lookup_insert in *. by split_and!.
Qed.

Lemma init_base : base_inv trace_init.
Proof using H0 Hcfgs.
  pose proof (world_init_inv cfgs Hcfgs) as Hw. split; [done|..].
  - intros g. by left.
  - intros g s ->%list_elem_of_singleton. by split.
  - intros g s ->%list_elem_of_singleton. apply later_refl.
  - intros g s Hg ->%list_elem_of_singleton. split_and!; [done|..].
    + symmetry. apply (hist_zero _ Hcfgs).
    + done.
    + by apply (wi_own _ _ Hw).
Qed.
End history.
End base.
