(* ===== verification/ShardOne.v ===== *)
(** * The sharded store is one store

    Over all runs of ShardData, in which configurations change and shards migrate: the
    shards of all groups together behave as one key/value map to which every write is
    applied once. *)
From S2P Require Import Prelude Persister Serial RaftNode RaftLocal Notify Service ShardConfig ShardKV ShardKVProps ShardNet ShardData ShardStore.
From stdpp Require Import functions relations.
Import ShardKV.
#[local] Open Scope Z_scope.

(** ** The data of a shard *)

(** The group has all writes to shard [i], and knows that it has them. *)
Definition current (s : State) (ws : list Op) (i : Z) : Prop :=
  (forall key, key2shard key = i -> value_at s key = store ws !! key) /\
  (forall o, o ∈ ws -> shardOf o = i ->
     exists e, dupTable s !! ClientId o = Some e /\ SeqId o <= de_SeqId e).

(** [o1] comes before [o2] if they are of one client and one shard. *)
Definition numbered (o1 o2 : Op) : Prop :=
  shardOf o1 = shardOf o2 -> ClientId o1 = ClientId o2 -> SeqId o1 < SeqId o2.

Definition dup_le (d d' : gmap Z DupEntry) : Prop :=
  forall c e, d !! c = Some e -> exists e', d' !! c = Some e' /\ de_SeqId e <= de_SeqId e'.

Lemma store_snoc ws op : store (ws ++ [op]) = write (store ws) op.
Proof. unfold store. by rewrite foldl_app. Qed.

Lemma current_grow s ws es i :
  (forall o, o ∈ es -> shardOf o <> i) -> current s ws i -> current s (ws ++ es) i.
Proof.
  intros Hes [Hv Hd]. split.
  - intros key Hk. rewrite Hv by done. clear Hv Hd. induction es as [|o es IH] using rev_ind.
    { by rewrite app_nil_r. }
    rewrite (assoc_L (++)), store_snoc. unfold write. rewrite lookup_insert_ne.
    + apply IH. intros o' Ho'. apply Hes, elem_of_app. by left.
    + intros E. apply (Hes o); [apply elem_of_app; right; by left|]. unfold shardOf. congruence.
  - intros o [Ho|Ho]%elem_of_app Hi; [by apply Hd|]. by destruct (Hes o Ho).
Qed.

Lemma current_keep s s' ws i :
  (forall key, key2shard key = i -> value_at s' key = value_at s key) ->
  dup_le (dupTable s) (dupTable s') -> current s ws i -> current s' ws i.
Proof.
  intros Hv Hd [Cv Cd]. split.
  - intros key Hk. rewrite Hv by done. by apply Cv.
  - intros o Ho Hi. destruct (Cd o Ho Hi) as (e & He & Hle).
    destruct (Hd _ _ He) as (e' & ? & ?). exists e'. split; [done|lia].
Qed.

Lemma value_at_shard s i sh key :
  zget (shards s) i = Some sh -> key2shard key = i -> value_at s key = KV sh !! key.
Proof. intros Hsh <-. unfold value_at. by rewrite Hsh. Qed.

Section data.
Context `{MapOrderLaws} `{!Codec (RaftPersist Op)} `{!Codec State} (cfgs : Z -> Config).
Implicit Types (w : Trace).

(** The owner of shard [i] in configuration [n] does not have its data yet. *)
Definition waiting w (n i : Z) : Prop :=
  let h := owner (cfgs n) i in
  num (cur w h) < n \/ num (cur w h) = n /\ in_state (cur w h) i Pulling.

Record data_inv w : Prop := {
  da_base : base_inv cfgs w;
  (* the holder of a shard is current *)
  da_held g i : g <> 0 -> owner (cfgs (num (cur w g))) i = g -> has (cur w g) i ->
    current (cur w g) (writes w) i;
  (* and so is whoever hands it over, until the next owner has installed it *)
  da_left n i s : 0 < n -> owner (cfgs (n - 1)) i <> 0 ->
    owner (cfgs n) i <> owner (cfgs (n - 1)) i -> owner (cfgs n) i <> 0 -> waiting w n i ->
    s ∈ seen w (owner (cfgs (n - 1)) i) -> n <= num s ->
    num s = n /\ in_state s i BePulling /\ current s (writes w) i;
  (* a write was made by an owner that had the shard *)
  da_made o : o ∈ writes w -> isPut o = true /\ exists k, 0 <= k /\
    let g := owner (cfgs k) (shardOf o) in
    g <> 0 /\ (k < num (cur w g) \/ k = num (cur w g) /\ has (cur w g) (shardOf o));
  (* whoever never owned a shard has nothing in it *)
  da_empty g key : g <> 0 ->
    (forall j, 0 <= j <= num (cur w g) -> owner (cfgs j) (key2shard key) <> g) ->
    value_at (cur w g) key = None;
  (* duplicate tables only know writes that were made *)
  da_dup g s c e : s ∈ seen w g -> dupTable s !! c = Some e ->
    de_Err e = OK /\ de_Value e = EmptyString /\
    exists o, o ∈ writes w /\ ClientId o = c /\ SeqId o = de_SeqId e;
  da_order : StronglySorted numbered (writes w);
}.

Section history.
Hypothesis (Hcfgs : history cfgs).
Hypothesis (Keep : never_orphaned cfgs).

(** While a shard waits for its next owner, nobody serves it. *)
Lemma waiting_idle w n i g s :
  base_inv cfgs w -> 0 < n -> owner (cfgs (n - 1)) i <> 0 ->
  owner (cfgs n) i <> owner (cfgs (n - 1)) i -> owner (cfgs n) i <> 0 -> waiting w n i ->
  s ∈ seen w (owner (cfgs (n - 1)) i) -> n <= num s ->
  g <> 0 -> owner (cfgs (num (cur w g))) i = g -> has (cur w g) i -> False.
Proof.
  intros Hinv Hn Hf Hne Hh Hw Hs Hns Hg Ho Hhas. pose proof (bi_world _ _ Hinv) as Hwi.
  set (f := owner (cfgs (n - 1)) i) in *. set (h := owner (cfgs n) i) in *.
  pose proof (proj1 (bi_later _ _ Hinv f s Hs)) as Hlf.
  pose proof (wi_past _ _ Hwi g i _ Hg (wi_num _ _ Hwi g Hg) Ho (or_intror (conj eq_refl Hhas))) as Pg.
  assert (past cfgs (cur w) i (n - 1) f) as Pf.
  { apply (wi_past _ _ Hwi); [done|lia|done|]. left. unfold num_of, num in *. lia. }
  unfold waiting in Hw. fold h in Hw. unfold num_of, num in *.
  destruct (Z.lt_trichotomy n (ShardConfig.Num (config (cur w g)))) as [Hlt|[Heq|Hgt]].
  - destruct (decide (h = g)) as [->|Hhg]; [lia|].
    specialize (Pg n ltac:(lia) Hh Hhg). fold h in Pg. unfold num_of in Pg. lia.
  - assert (h = g) as E by (unfold h; congruence).
    rewrite E in Hw. destruct Hw as [?|[_ (sh & Hsh & Hp)]]; [lia|].
    destruct Hhas as (sh' & Hsh' & Hx). rewrite Hsh in Hsh'. injection Hsh' as <-.
    destruct Hx; congruence.
  - destruct (decide (g = f)) as [->|Hgf]; [lia|].
    destruct (decide (ShardConfig.Num (config (cur w g)) = n - 1)) as [E|].
    { rewrite E in Ho. done. }
    pose proof (wi_num _ _ Hwi g Hg) as Hng. unfold num_of in Hng.
    specialize (Pf (ShardConfig.Num (config (cur w g)))). rewrite Ho in Pf.
    specialize (Pf ltac:(lia) Hg Hgf). unfold num_of in Pf. lia.
Qed.

(** A shard nobody owned so far has no writes. *)
Lemma unowned_no_writes w g i o :
  data_inv w -> g <> 0 -> owner (cfgs (num (cur w g))) i = 0 ->
  owner (cfgs (num (cur w g) + 1)) i = g -> o ∈ writes w -> shardOf o <> i.
Proof.
  intros Hinv Hg Hz Ho Hin E. pose proof (bi_world _ _ (da_base _ Hinv)) as Hwi.
  destruct (da_made _ Hinv o Hin) as (_ & k & Hk & Hne & Hx). rewrite E in Hne, Hx.
  set (f := owner (cfgs k) i) in *.
  assert (num (cur w g) < k) as Hlt.
  { destruct (decide (k <= num (cur w g))); [|lia]. exfalso. apply Hne.
    apply (owner_zero_before cfgs Keep (num (cur w g))); [lia|done]. }
  assert (past cfgs (cur w) i k f) as Pf by (apply (wi_past _ _ Hwi); done).
  assert (k <= num (cur w f)) as Hkf by lia.
  destruct (decide (k = num (cur w g) + 1)) as [->|].
  { assert (f = g) as Ef by done. rewrite Ef in *. lia. }
  destruct (decide (g = f)) as [->|Hgf]; [lia|].
  pose proof (wi_num _ _ Hwi g Hg) as Hng. unfold num_of, num in *.
  specialize (Pf (ShardConfig.Num (config (cur w g)) + 1)). rewrite Ho in Pf.
  specialize (Pf ltac:(lia) Hg Hgf). unfold num_of in Pf. lia.
Qed.

Section step.
Context (w : Trace) (g : Z) (op : Op) (s' : State) (r : applyResult).
Hypothesis (Hinv : data_inv w).
Hypothesis (He : entry cfgs w g op s' r).
Notation st := (cur w g).
Notation w' := (after w g op s').
Notation es := (effect g op st).

Lemma step_wf : state_wf st.
Proof using Hinv. eapply (bi_wf _ _ (da_base _ Hinv)), (bi_cur _ _ (da_base _ Hinv)). Qed.

Lemma st_config : config st = cfgs (num st) /\ (0 < num st -> lastConfig st = cfgs (num st - 1)) /\
  ownership g st.
Proof using Hinv He.
  by apply (bi_config _ _ (da_base _ Hinv) g st (en_group _ _ _ _ _ _ He)), (bi_cur _ _ (da_base _ Hinv)).
Qed.

Lemma shard_before i sh' : zget (shards s') i = Some sh' -> exists sh, zget (shards st) i = Some sh.
Proof using Hinv He.
  intros Hi%zget_Some_lt. apply zget_in_range. rewrite (swf_shards _ step_wf).
  by rewrite <- (swf_shards _ (en_wf _ _ _ _ _ _ He)).
Qed.

Lemma shard_after i sh : zget (shards st) i = Some sh -> exists sh', zget (shards s') i = Some sh'.
Proof using Hinv He.
  intros Hi%zget_Some_lt. apply zget_in_range. rewrite (swf_shards _ (en_wf _ _ _ _ _ _ He)).
  by rewrite <- (swf_shards _ step_wf).
Qed.

(** An effect is a write to a shard that the group holds. *)
Lemma effect_held o : o ∈ es -> o = op /\ isPut op = true /\
  serves g st (shardOf op) = Some true /\ newer (dupTable st) op = true.
Proof using.
  unfold effect. destruct (isPut op), (serves g st (shardOf op)) as [[]|], (newer (dupTable st) op);
    cbn; intros Ho; try (by apply not_elem_of_nil in Ho). by apply list_elem_of_singleton in Ho.
Qed.

Lemma serves_held i :
  serves g st i = Some true -> owner (cfgs (num st)) i = g /\ has st i.
Proof using Hinv He.
  intros Hs. destruct (is_serving_spec (cur w) g i Hs) as [Ho ?]. split; [|done].
  by rewrite (proj1 st_config) in Ho.
Qed.

(** Client entries, effective or not, and administrative ones. *)
Lemma entry_cases :
  (es = [] /\ s' = st) \/
  (es = [op] /\ serves g st (shardOf op) = Some true /\ newer (dupTable st) op = true /\
   isPut op = true /\ config s' = config st /\ lastConfig s' = lastConfig st /\
   dupTable s' = <[ClientId op := {| de_SeqId := SeqId op; de_Err := OK; de_Value := EmptyString |}]>
                   (dupTable st) /\
   (forall k, value_at s' k = if bool_decide (k = Key op)
      then Some ((if String.eqb (Type_ op) "Append" then default EmptyString (value_at st k)
                  else EmptyString) +:+ Value op)
      else value_at st k) /\
   (forall j, State_ <$> zget (shards s') j = State_ <$> zget (shards st) j)) \/
  (es = [] /\ isKVOp op = false).
Proof using Hinv He H0.
  destruct (isKVOp op) eqn:HK.
  - destruct (execute_write g op st s' r step_wf HK (en_exec _ _ _ _ _ _ He))
      as [?|(? & _ & ? & ? & ? & ? & ? & ? & ? & ? & _)]; [by left|right; left; by split_and!].
  - right. right. unfold effect, isPut. by rewrite HK.
Qed.

Lemma entry_dup_le : dup_le (dupTable st) (dupTable s').
Proof using Hinv He H0.
  intros c e Hc. destruct entry_cases as [[_ ->]|[(_ & _ & Hn & _ & _ & _ & Hd & _)|[_ HK]]].
  - by exists e.
  - rewrite Hd. destruct (decide (ClientId op = c)) as [<-|].
    + rewrite lookup_insert_eq. eexists. split; [done|]. cbn. unfold newer in Hn. rewrite Hc in Hn.
      breflect. lia.
    + rewrite lookup_insert_ne by done. by exists e.
  - destruct (admin_dup g op st s' r HK (en_exec _ _ _ _ _ _ He)) as [[-> _]|[_ Hd]]; [by exists e|].
    rewrite Hd. destruct (newest_ge (DupTable op !! c) (dupTable st !! c) e) as (l & Hl & ?); eauto.
Qed.

(** What stays in a shard. *)
Lemma entry_values i sh sh' :
  zget (shards st) i = Some sh -> zget (shards s') i = Some sh' ->
  (forall o, o ∈ es -> shardOf o <> i) ->
  (forall key, key2shard key = i -> value_at s' key = value_at st key) \/
  (Type_ op = "Install"%string /\ ConfigNum op = num st /\ config s' = config st /\
   State_ sh = Pulling /\ Shards_ op !! i = Some (KV sh')) \/
  (Type_ op = "GC"%string /\ GCConfigNum op = num st /\ config s' = config st /\
   State_ sh = BePulling /\ i ∈ GCShardIds op /\ KV sh' = ∅).
Proof using Hinv He H0.
  intros Hi Hi' Hes. destruct entry_cases as [[_ ->]|[(E & _ & _ & _ & _ & _ & _ & Hv & _)|[_ HK]]].
  - by left.
  - left. intros key Hk. rewrite Hv, bool_decide_eq_false_2; [done|]. intros ->.
    apply (Hes op); [rewrite E; by left|done].
  - destruct (admin_shard g op st s' i sh sh' HK (en_change _ _ _ _ _ _ He) Hi Hi') as [E|Hx];
      [|by right].
    left. intros key Hk. by rewrite (value_at_shard _ _ _ _ Hi Hk), (value_at_shard _ _ _ _ Hi' Hk), E.
Qed.

(** The new write. *)
Lemma current_write :
  es = [op] -> current st (writes w) (shardOf op) -> current s' (writes w ++ es) (shardOf op).
Proof using Hinv He H0.
  intros Ee [Cv Cd]. destruct entry_cases as [[E _]|[(E & _ & Hn & _ & _ & _ & Hd & Hv & _)|[E _]]];
    [congruence| |congruence]. rewrite E. split.
  - intros key Hk. rewrite Hv, store_snoc. unfold write. rewrite <- Cv by done.
    case_bool_decide as Ek; [subst; by rewrite lookup_insert_eq|].
    rewrite lookup_insert_ne by done. by apply Cv.
  - intros o [Ho| ->%list_elem_of_singleton]%elem_of_app Hi; rewrite Hd.
    + destruct (Cd o Ho Hi) as (e & Hc & Hle). destruct (decide (ClientId op = ClientId o)) as [Eo|].
      * rewrite Eo, lookup_insert_eq. eexists. split; [done|]. cbn. unfold newer in Hn.
        rewrite Eo, Hc in Hn. breflect. lia.
      * rewrite lookup_insert_ne by done. by exists e.
    + rewrite lookup_insert_eq. eexists. split; [done|]. cbn. lia.
Qed.

Lemma seen_after h s :
  s ∈ seen w' h -> (h = g /\ s = s') \/ s ∈ seen w h.
Proof using.
  cbn. destruct (decide (h = g)) as [->|].
  - rewrite fn_lookup_insert. intros [->|?]%elem_of_cons; auto.
  - rewrite fn_lookup_insert_ne by done. auto.
Qed.

(** In the next configuration: a kept shard, or one nobody had. *)
Lemma next_held i :
  stable st -> config s' = cfgs (num st + 1) -> num s' = num st + 1 ->
  owner (cfgs (num st + 1)) i = g -> has s' i ->
  (owner (cfgs (num st)) i = g /\ has st i) \/ owner (cfgs (num st)) i = 0.
Proof using Hinv He.
  intros Hst EC EN Ho (sh' & Hi' & Hx). destruct (shard_before _ _ Hi') as [sh Hi].
  specialize (Hst i sh Hi).
  destruct (change_states _ _ _ _ (en_change _ _ _ _ _ _ He) i sh' Hi') as (sh0 & E0 & Hc).
  rewrite Hi in E0. injection E0 as <-. rewrite EC, (proj1 st_config) in Hc.
  destruct (decide (owner (cfgs (num st)) i = g)) as [|Hne].
  - left. split; [done|]. exists sh. auto.
  - right. destruct (decide (owner (cfgs (num st)) i = 0)) as [|Hz]; [done|]. exfalso.
    destruct (en_change _ _ _ _ _ _ He) as [_ E _ _|_ ->|_ E _ _ HZ|_ E _ _ _|_ E _ _];
      try (unfold num in EN; rewrite ?E in EN; lia).
    rewrite HZ, Hi in Hi'. injection Hi' as <-. unfold config_update in Hx.
    rewrite <- E, EC, (proj1 st_config), Ho, Z.eqb_refl in Hx. cbn [andb negb] in Hx.
    destruct (Z.eqb_spec (owner (cfgs (num st)) i) g); [done|]. cbn in Hx.
    destruct (Z.eqb_spec (owner (cfgs (num st)) i) 0); [done|]. by destruct Hx.
Qed.

Lemma step_held_other h i :
  h <> 0 -> h <> g -> owner (cfgs (num (cur w h))) i = h -> has (cur w h) i ->
  current (cur w h) (writes w ++ es) i.
Proof using Hinv He.
  intros Hh Hne Ho Hhas. apply current_grow; [|by apply (da_held _ Hinv)].
  intros o (-> & _ & Hs & _)%effect_held E. apply Hne. rewrite E in Hs.
  destruct (serves_held _ Hs) as [Ho' Hhas'].
  eapply (one_holder cfgs (cur w)); try done; [apply (bi_world _ _ (da_base _ Hinv))|].
  by apply (en_group _ _ _ _ _ _ He).
Qed.

Lemma effect_at i :
  (es = [op] /\ shardOf op = i /\ serves g st i = Some true) \/ (forall o, o ∈ es -> shardOf o <> i).
Proof using.
  destruct es as [|o l] eqn:E; [right; by intros o ?%not_elem_of_nil|].
  assert (es = [op] /\ serves g st (shardOf op) = Some true) as [E' Hs].
  { destruct (effect_held o) as (_ & _ & Hs & _); [rewrite E; by left|]. split; [|done].
    unfold effect in *. by destruct (_ && _). }
  rewrite <- E, E'. destruct (decide (shardOf op = i)) as [<-|]; [by left|right].
  by intros o' ->%list_elem_of_singleton.
Qed.

(** An installation brings current data. *)
Lemma installed_current i sh sh' :
  config s' = config st -> zget (shards st) i = Some sh -> zget (shards s') i = Some sh' ->
  State_ sh = Pulling -> State_ sh' <> Pulling -> current s' (writes w) i.
Proof using Hinv He H0 Hcfgs.
  intros EC Hi Hi' Hp Hp'. pose proof (da_base _ Hinv) as Hb.
  destruct (pulling_installed g op st s' i sh sh' (en_change _ _ _ _ _ _ He) EC Hi Hi' Hp Hp')
    as (HT & HN & Hd).
  destruct st_config as (SC & SL & Hown). specialize (Hown i sh Hi). rewrite SC, Hp in Hown.
  destruct Hown as (Ho & Hne & Hz).
  destruct (en_origin _ _ _ _ _ _ He) as [HK|? _ _ HT' _|s1 from s0 Hs1 Hs0 _ HN1 Hle HD HS|? ? _ _ HT' _ _];
    [unfold isKVOp in HK; by rewrite HT in HK|congruence| |congruence].
  destruct (HS i _ Hd) as (_ & Hfrom & sh0 & Hsh0 & EK).
  destruct (bi_later _ _ Hb g s1 Hs1) as [_ HL]. fold (num st) in HN.
  destruct HL as (_ & EL & _); [congruence|]. rewrite <- EL in Hfrom.
  assert (0 < num st) as Hpos.
  { destruct (decide (num st = 0)) as [E|].
    - exfalso. rewrite E, (owner_initial cfgs Hcfgs) in Ho.
      by apply (en_group _ _ _ _ _ _ He).
    - destruct (bi_config _ _ Hb g st (en_group _ _ _ _ _ _ He) (bi_cur _ _ Hb g)) as (? & _). lia. }
  rewrite (SL Hpos) in Hfrom, Hne, Hz.
  assert (current s0 (writes w) i) as [Cv Cd].
  { apply (da_left _ Hinv (num st) i s0); rewrite ?Ho; try done.
    - by apply (en_group _ _ _ _ _ _ He).
    - unfold waiting. rewrite Ho. right. split; [done|]. by exists sh.
    - by rewrite Hfrom.
    - lia. }
  split.
  - intros key Hk. rewrite <- Cv, (value_at_shard _ _ _ _ Hi' Hk), (value_at_shard _ _ _ _ Hsh0 Hk) by done.
    by rewrite EK.
  - intros o Hin Hio. destruct (Cd o Hin Hio) as (e & Hc & Hle').
    assert (isKVOp op = false) as HK by (unfold isKVOp; by rewrite HT).
    destruct (admin_dup g op st s' r HK (en_exec _ _ _ _ _ _ He)) as [[_ Hno]|[_ Hm]];
      [by destruct Hno|].
    rewrite Hm, HD. destruct (newest_ge (dupTable s0 !! ClientId o) (dupTable st !! ClientId o) e)
      as (l & Hl & ?); [by left|]. exists l. split; [done|lia].
Qed.

(** In the same configuration: the shard was held, or is installed now. *)
Lemma step_held_same i :
  config s' = config st -> owner (cfgs (num st)) i = g -> has s' i ->
  current s' (writes w ++ es) i.
Proof using Hinv He H0 Hcfgs.
  intros EC Ho Hhas. pose proof Hhas as (sh' & Hi' & Hx). destruct (shard_before _ _ Hi') as [sh Hi].
  assert (g <> 0) as Hg by apply (en_group _ _ _ _ _ _ He).
  destruct (effect_at i) as [(Ee & <- & Hs)|Hes].
  { apply current_write; [done|]. apply (da_held _ Hinv); [done|done|by apply serves_held]. }
  apply current_grow; [exact Hes|].
  destruct (decide (State_ sh = Pulling)) as [Hp|Hnp].
  { eapply installed_current; try done. intros E. destruct Hx; congruence. }
  destruct st_config as (SC & SL & Hown). specialize (Hown i sh Hi). rewrite SC in Hown.
  assert (State_ sh <> BePulling) as Hnb by (intros E; rewrite E in Hown; by destruct Hown).
  destruct (entry_values i sh sh' Hi Hi' Hes) as [Hv|[(_ & _ & _ & Hp & _)|(_ & _ & _ & Hp & _)]];
    [|done|done].
  eapply current_keep; [exact Hv|apply entry_dup_le|]. apply (da_held _ Hinv); [done|done|].
  exists sh. split; [done|]. by destruct (State_ sh); auto.
Qed.

(** In the next configuration nothing is written. *)
Lemma next_values :
  config s' <> config st -> es = [] /\ (forall key, value_at s' key = value_at st key).
Proof using Hinv He H0.
  intros Hne. assert (es = []) as Ee.
  { destruct entry_cases as [[? _]|[(_ & _ & _ & _ & E & _)|[? _]]]; done. }
  split; [done|]. intros key.
  destruct (zget_in_range (shards st) (key2shard key)) as [sh Hi];
    [rewrite (swf_shards _ step_wf); apply key2shard_range|].
  destruct (shard_after _ _ Hi) as [sh' Hi'].
  destruct (entry_values _ sh sh' Hi Hi') as [Hv|[(_ & _ & ? & _)|(_ & _ & ? & _)]]; try done.
  - rewrite Ee. by intros o ?%not_elem_of_nil.
  - by apply Hv.
Qed.

Lemma next_differs : num s' = num st + 1 -> config s' <> config st.
Proof using. unfold num. intros EN E. rewrite E in EN. lia. Qed.

Lemma step_held_next i :
  stable st -> config s' = cfgs (num st + 1) -> num s' = num st + 1 ->
  owner (cfgs (num st + 1)) i = g -> has s' i -> current s' (writes w ++ es) i.
Proof using Hinv He H0 Hcfgs Keep.
  intros Hst EC EN Ho Hhas. destruct (next_values (next_differs EN)) as [Ee Hv].
  assert (g <> 0) as Hg by apply (en_group _ _ _ _ _ _ He). rewrite Ee, app_nil_r.
  destruct (next_held i Hst EC EN Ho Hhas) as [[Hp Hs]|Hz].
  - eapply current_keep; [intros key _; apply Hv|apply entry_dup_le|]. by apply (da_held _ Hinv).
  - assert (forall o, o ∈ writes w -> shardOf o <> i) as Hno
      by (intros o; by apply (unowned_no_writes w g i)).
    split; [|intros o Hin E; by destruct (Hno o Hin)].
    intros key Hk. rewrite Hv, (da_empty _ Hinv g key Hg).
    + symmetry. clear -Hno Hk. induction (writes w) as [|o ws IH] using rev_ind; [done|].
      rewrite store_snoc. unfold write. rewrite lookup_insert_ne.
      * apply IH. intros o' Ho'. apply Hno, elem_of_app. by left.
      * intros E. apply (Hno o); [apply elem_of_app; right; by left|]. unfold shardOf. congruence.
    + intros j Hj. rewrite Hk, (owner_zero_before cfgs Keep (num st) i j Hj Hz). auto.
Qed.

(** ** Handing over *)

Lemma entry_num h : num (cur w h) <= num (cur w' h).
Proof using Hinv He.
  cbn. destruct (decide (h = g)) as [->|Hne]; [|rewrite fn_lookup_insert_ne by done; lia].
  rewrite fn_lookup_insert.
  apply (entry_later cfgs w g op s' r (da_base _ Hinv) He).
Qed.

Lemma waiting_before n i : waiting w' n i -> waiting w n i.
Proof using Hinv He.
  unfold waiting. set (h := owner (cfgs n) i). pose proof (entry_num h) as Hle.
  intros [?|[EN Hp]]; [left; lia|]. cbn in *.
  destruct (decide (h = g)) as [->|Hne]; [|rewrite fn_lookup_insert_ne in * by done; by right].
  rewrite fn_lookup_insert in *. destruct (en_configs _ _ _ _ _ _ He) as [[EC _]|(_ & _ & _ & E)];
    [right|left; lia]. unfold num in *. rewrite EC in EN. split; [done|].
  destruct Hp as (sh' & Hi' & Hp). destruct (shard_before _ _ Hi') as [sh Hi].
  destruct (change_states _ _ _ _ (en_change _ _ _ _ _ _ He) i sh' Hi') as (sh0 & E0 & Hc).
  rewrite Hi in E0. injection E0 as <-. exists sh. split; [done|].
  destruct Hc as [E|[[E _]|[[_ E]|[_ E]]]]; congruence || (rewrite EC in E; lia).
Qed.

(** In the same configuration a shard that is waited for stays as it is. *)
Lemma left_same n i :
  config s' = config st -> 0 < n -> g = owner (cfgs (n - 1)) i ->
  owner (cfgs n) i <> g -> owner (cfgs n) i <> 0 -> waiting w n i -> n <= num st ->
  num s' = n /\ in_state s' i BePulling /\ current s' (writes w) i.
Proof using Hinv He H0 Hcfgs.
  intros EC Hn Eg Hh Hz Hw Hle. pose proof (da_base _ Hinv) as Hb.
  assert (g <> 0) as Hg by apply (en_group _ _ _ _ _ _ He).
  destruct (da_left _ Hinv n i st) as (EN & (sh & Hi & Hs) & Hc);
    rewrite <- ?Eg; try done; [apply (bi_cur _ _ Hb)|].
  destruct (shard_after _ _ Hi) as [sh' Hi'].
  assert (forall o, o ∈ es -> shardOf o <> i) as Hes.
  { destruct (effect_at i) as [(_ & _ & Hsv)|?]; [|done]. exfalso.
    destruct (serves_held _ Hsv) as [Ho _]. congruence. }
  assert (~ (Type_ op = "GC"%string /\ GCConfigNum op = num st /\ i ∈ GCShardIds op)) as Hngc.
  { intros (HT & HN & Hin).
    destruct (en_origin _ _ _ _ _ _ He) as [HK|? _ _ HT' _|? ? ? _ _ HT' _ _ _ _|h s1 Hh0 Hs1 _ HN1 HG];
      [unfold isKVOp in HK; by rewrite HT in HK|congruence|congruence|].
    destruct (HG i Hin) as (sh1 & Hi1 & Hst1).
    destruct (bi_config _ _ Hb h s1 Hh0 Hs1) as (_ & SC1 & _ & Hown1).
    specialize (Hown1 i sh1 Hi1). rewrite Hst1 in Hown1. destruct Hown1 as (Ho1 & _).
    assert (num s1 = n) as En1 by congruence. rewrite SC1, En1 in Ho1.
    destruct (bi_later _ _ Hb h s1 Hs1) as [HL1 HL2]. unfold waiting in Hw. rewrite Ho1 in Hw.
    destruct Hw as [?|[E1 (shh & Hih & Hp)]]; [lia|].
    destruct HL2 as (_ & _ & _ & Hhas); [lia|].
    destruct (Hhas i) as (shh' & Hih' & Hx); [exists sh1; auto|].
    rewrite Hih in Hih'. injection Hih' as <-. destruct Hx; congruence. }
  split; [unfold num in *; by rewrite EC|].
  destruct (entry_values i sh sh' Hi Hi' Hes) as [Hv|[(_ & _ & _ & Hp & _)|(? & ? & _ & _ & ? & _)]];
    [|congruence|by destruct Hngc].
  split; [|by eapply current_keep; [exact Hv|apply entry_dup_le|]].
  exists sh'. split; [done|].
  destruct (change_states _ _ _ _ (en_change _ _ _ _ _ _ He) i sh' Hi') as (sh0 & E0 & Hcs).
  rewrite Hi in E0. injection E0 as <-.
  destruct Hcs as [->|[[E _]|[[E _]|[_ E]]]]; [done|rewrite EC in E; lia|congruence|].
  exfalso. destruct (en_change _ _ _ _ _ _ He) as [_ _ _ HZ|_ ->|_ E' _ EN' _|_ _ _ _ HZ|HT _ _ HZ].
  - specialize (HZ i). rewrite Hi, Hi' in HZ. cbn in HZ. congruence.
  - congruence.
  - rewrite <- E', EC in EN'. lia.
  - rewrite HZ, Hi in Hi'. case_bool_decide; [|congruence]. cbn in Hi'. injection Hi' as <-.
    unfold install_update in E. rewrite bool_decide_eq_false_2 in E by congruence. congruence.
  - rewrite HZ, Hi in Hi'. case_bool_decide as Hin; [|congruence]. cbn in Hi'. injection Hi' as <-.
    unfold gc_update in E. rewrite Hs in E.
    destruct (Z.eqb_spec (ShardConfig.Num (config st)) (GCConfigNum op)); [|congruence].
    by apply Hngc.
Qed.

Lemma left_next n i :
  stable st -> config s' = cfgs (num st + 1) -> num s' = num st + 1 -> 0 < n ->
  g = owner (cfgs (n - 1)) i -> owner (cfgs n) i <> g -> owner (cfgs n) i <> 0 ->
  waiting w n i -> n <= num s' ->
  num s' = n /\ in_state s' i BePulling /\ current s' (writes w) i.
Proof using Hinv He H0 Hcfgs.
  intros Hst EC EN Hn Eg Hh Hz Hw Hle. pose proof (da_base _ Hinv) as Hb.
  assert (g <> 0) as Hg by apply (en_group _ _ _ _ _ _ He).
  destruct (decide (n = num st + 1)) as [->|].
  2: { destruct (da_left _ Hinv n i st) as (_ & (sh & Hi & Hs) & _);
         rewrite <- ?Eg; try done; [apply (bi_cur _ _ Hb)|lia|].
       exfalso. specialize (Hst i sh Hi). congruence. }
  replace (num st + 1 - 1) with (num st) in * by lia. split; [done|].
  destruct (next_values (next_differs EN)) as [_ Hv].
  destruct (zget (shards st) i) as [sh|] eqn:Hi.
  2: { exfalso. apply Hg. rewrite Eg. unfold owner. apply zget_None in Hi.
       rewrite (swf_shards _ step_wf), <- (swf_config _ step_wf), (proj1 st_config) in Hi.
       by apply zget_None in Hi as ->. }
  pose proof (Hst i sh Hi) as Hs. destruct (shard_after _ _ Hi) as [sh' Hi']. split.
  - exists sh'. split; [done|].
    destruct (en_change _ _ _ _ _ _ He) as [_ E _ _|_ ->|_ E _ _ HZ|_ E _ _ _|_ E _ _];
      try (unfold num in EN; rewrite ?E in EN; lia).
    rewrite HZ, Hi in Hi'. injection Hi' as <-. unfold config_update.
    rewrite <- E, EC, (proj1 st_config), <- Eg, Z.eqb_refl.
    by rewrite (proj2 (Z.eqb_neq _ _) Hh).
  - eapply current_keep; [intros key _; apply Hv|apply entry_dup_le|].
    apply (da_held _ Hinv); [done|done|]. exists sh. auto.
Qed.

Lemma step_left n i s :
  0 < n -> owner (cfgs (n - 1)) i <> 0 -> owner (cfgs n) i <> owner (cfgs (n - 1)) i ->
  owner (cfgs n) i <> 0 -> waiting w' n i -> s ∈ seen w' (owner (cfgs (n - 1)) i) -> n <= num s ->
  num s = n /\ in_state s i BePulling /\ current s (writes w ++ es) i.
Proof using Hinv He H0 Hcfgs.
  intros Hn Hf Hne Hh Hw%waiting_before Hs Hle. pose proof (da_base _ Hinv) as Hb.
  assert (g <> 0) as Hg by apply (en_group _ _ _ _ _ _ He).
  assert (forall s0, s0 ∈ seen w (owner (cfgs (n - 1)) i) -> n <= num s0 ->
    forall o, o ∈ es -> shardOf o <> i) as Hidle.
  { intros s0 Hs0 Hle0. destruct (effect_at i) as [(_ & _ & Hsv)|?]; [exfalso|done].
    destruct (serves_held _ Hsv) as [Ho Hhas].
    by apply (waiting_idle w n i g s0 Hb Hn Hf Hne Hh Hw Hs0 Hle0 Hg Ho Hhas). }
  apply seen_after in Hs as [[Eg ->]|Hs].
  - rewrite Eg in Hf, Hne, Hidle. symmetry in Eg.
    destruct (en_configs _ _ _ _ _ _ He) as [[EC _]|(Hst & EC & _ & EN)].
    + assert (n <= num st) as Hle0 by (unfold num in *; by rewrite EC in Hle).
      destruct (left_same n i) as (? & ? & ?); try done.
      split_and!; [done|done|]. apply current_grow; [|done].
      apply (Hidle st); [apply (bi_cur _ _ Hb)|done].
    + destruct (left_next n i) as (? & ? & ?); try done. split_and!; [done|done|].
      destruct (next_values (next_differs EN)) as [-> _]. by rewrite app_nil_r.
  - destruct (da_left _ Hinv n i s) as (? & ? & ?); try done. split_and!; [done|done|].
    apply current_grow; [by apply (Hidle s)|done].
Qed.

(** ** The other parts *)

Lemma made_after i k :
  let h := owner (cfgs k) i in
  k < num (cur w h) \/ k = num (cur w h) /\ has (cur w h) i ->
  k < num (cur w' h) \/ k = num (cur w' h) /\ has (cur w' h) i.
Proof using Hinv He.
  intros h Hx. pose proof (entry_num h) as Hle. cbn in *.
  destruct (decide (h = g)) as [->|Hne]; [|by rewrite fn_lookup_insert_ne].
  rewrite fn_lookup_insert in *. destruct Hx as [?|[E Hhas]]; [left; lia|].
  destruct (decide (num s' = num st)) as [EN|]; [right|left; lia]. split; [lia|].
  eapply has_change; [apply step_wf|apply (en_wf _ _ _ _ _ _ He)|apply (en_change _ _ _ _ _ _ He)|done|done].
Qed.

Lemma step_empty key :
  (forall j, 0 <= j <= num s' -> owner (cfgs j) (key2shard key) <> g) -> value_at s' key = None.
Proof using Hinv He H0.
  intros Hj. assert (g <> 0) as Hg by apply (en_group _ _ _ _ _ _ He).
  pose proof (da_base _ Hinv) as Hb.
  destruct (bi_config _ _ Hb g st Hg (bi_cur _ _ Hb g)) as (Hn0 & SC & _ & Hown).
  pose proof (entry_later cfgs w g op s' r Hb He) as [Hle _].
  assert (value_at st key = None) as Hv by (apply (da_empty _ Hinv g key Hg); intros j ?; apply Hj; lia).
  assert (owner (cfgs (num st)) (key2shard key) <> g) as Hno by (apply Hj; lia).
  destruct (zget_in_range (shards st) (key2shard key)) as [sh Hi];
    [rewrite (swf_shards _ step_wf); apply key2shard_range|].
  destruct (shard_after _ _ Hi) as [sh' Hi']. specialize (Hown _ sh Hi). rewrite SC in Hown.
  destruct (effect_at (key2shard key)) as [(_ & _ & Hsv)|Hes].
  { destruct (serves_held _ Hsv) as [Ho _]. done. }
  destruct (entry_values _ sh sh' Hi Hi' Hes) as [Hk|[(_ & _ & _ & Hp & _)|(_ & _ & _ & _ & _ & E)]].
  - by rewrite Hk.
  - rewrite Hp in Hown. by destruct Hown.
  - rewrite (value_at_shard _ _ _ _ Hi' eq_refl), E. apply lookup_empty.
Qed.

Lemma step_dup c e :
  dupTable s' !! c = Some e -> de_Err e = OK /\ de_Value e = EmptyString /\
  exists o, o ∈ writes w ++ es /\ ClientId o = c /\ SeqId o = de_SeqId e.
Proof using Hinv He H0.
  intros Hc. pose proof (da_base _ Hinv) as Hb.
  assert (forall h s, s ∈ seen w h -> dupTable s !! c = Some e ->
    de_Err e = OK /\ de_Value e = EmptyString /\
    exists o, o ∈ writes w ++ es /\ ClientId o = c /\ SeqId o = de_SeqId e) as Hold.
  { intros h s Hs Hd. destruct (da_dup _ Hinv h s c e Hs Hd) as (? & ? & o & ? & ? & ?).
    split_and!; [done|done|]. exists o. split_and!; [apply elem_of_app; by left|done|done]. }
  destruct entry_cases as [[_ ->]|[(E & _ & _ & _ & _ & _ & Hd & _)|[_ HK]]].
  - by apply (Hold g st), Hc; apply (bi_cur _ _ Hb).
  - rewrite Hd in Hc. apply lookup_insert_Some in Hc as [[<- <-]|[_ Hc]].
    + split_and!; [done|done|]. exists op. split_and!; [|done|done]. rewrite E. apply elem_of_app. right. by left.
    + apply (Hold g st); [apply (bi_cur _ _ Hb)|done].
  - destruct (admin_dup g op st s' r HK (en_exec _ _ _ _ _ _ He)) as [[Ed _]|[HT Hm]].
    + rewrite Ed in Hc. apply (Hold g st); [apply (bi_cur _ _ Hb)|done].
    + rewrite Hm in Hc.
      destruct (en_origin _ _ _ _ _ _ He) as [HK'|? _ _ HT' _|s1 from s0 _ Hs0 _ _ _ HD _|? ? _ _ HT' _ _];
        [congruence|congruence| |congruence]. rewrite HD in Hc. unfold newest in Hc.
      destruct (dupTable s0 !! c) as [x|] eqn:E0; [|apply (Hold g st); [apply (bi_cur _ _ Hb)|done]].
      destruct (dupTable st !! c) as [y|] eqn:E1; [bcase_in Hc|]; injection Hc as <-.
      * by apply (Hold from s0).
      * apply (Hold g st); [apply (bi_cur _ _ Hb)|done].
      * by apply (Hold from s0).
Qed.

Lemma step_order : StronglySorted numbered (writes w ++ es).
Proof using Hinv He.
  apply StronglySorted_app. split_and!; [|apply (da_order _ Hinv)|].
  - intros o1 o2 Ho1 (-> & _ & Hs & Hn)%effect_held E1 E2.
    destruct (serves_held _ Hs) as [Ho Hhas].
    destruct (da_held _ Hinv g (shardOf op) (en_group _ _ _ _ _ _ He) Ho Hhas) as [_ Hd].
    destruct (Hd o1 Ho1 E1) as (e & Hc & Hle). rewrite E2 in Hc. unfold newer in Hn.
    rewrite Hc in Hn. breflect. lia.
  - unfold effect. bcase; repeat constructor.
Qed.

Lemma step_data : data_inv w'.
Proof using Hinv He H0 Hcfgs Keep.
  assert (g <> 0) as Hg by apply (en_group _ _ _ _ _ _ He).
  split.
  - eapply step_base; try done. apply (da_base _ Hinv).
  - intros h i Hh. cbn. destruct (decide (h = g)) as [->|Hne].
    + rewrite fn_lookup_insert. intros Ho Hhas.
      destruct (en_configs _ _ _ _ _ _ He) as [[EC _]|(Hst & EC & _ & EN)].
      * apply step_held_same; [done| |done]. unfold num in *. by rewrite <- EC.
      * rewrite EN in Ho. by apply step_held_next.
    + rewrite fn_lookup_insert_ne by done. by apply step_held_other.
  - intros n i s. apply step_left.
  - intros o [Ho|Ho]%elem_of_app.
    + destruct (da_made _ Hinv o Ho) as (? & k & Hk & Hne & Hx). split; [done|].
      exists k. split; [done|]. split; [done|]. by apply made_after.
    + apply effect_held in Ho as (-> & Hp & [Ho Hhas]%serves_held & _). split; [done|].
      exists (num st). destruct (bi_config _ _ (da_base _ Hinv) g st Hg (bi_cur _ _ (da_base _ Hinv) g)) as (? & _).
      split; [done|]. split; [by rewrite Ho|]. apply made_after. rewrite Ho. by right.
  - intros h key Hh. cbn. destruct (decide (h = g)) as [->|Hne].
    + rewrite fn_lookup_insert. apply step_empty.
    + rewrite fn_lookup_insert_ne by done. by apply (da_empty _ Hinv).
  - intros h s c e [[-> ->]|Hs]%seen_after Hc; [by apply step_dup|].
    destruct (da_dup _ Hinv h s c e Hs Hc) as (? & ? & o & ? & ? & ?).
    split_and!; [done|done|]. exists o. split_and!; [apply elem_of_app; by left|done|done].
  - apply step_order.
Qed.
End step.

Lemma init_data : data_inv trace_init.
Proof using H0 Hcfgs.
  split.
  - by apply init_base.
  - intros g i Hg Ho. cbn in Ho. unfold num in Ho. cbn in Ho.
    rewrite (owner_initial cfgs Hcfgs) in Ho. congruence.
  - intros n i s Hn _ _ _ _ ->%list_elem_of_singleton. unfold num. cbn. lia.
  - by intros o ?%not_elem_of_nil.
  - intros g key _ _. unfold value_at, trace_init, world_init, initialState. cbn [cur shards].
    destruct (zget (replicate NShards newShard) (key2shard key)) as [sh|] eqn:E; [|done].
    apply zget_Some_lookup in E as [_ E]. by apply lookup_replicate in E as [-> _].
  - by intros g s c e ->%list_elem_of_singleton.
  - constructor.
Qed.

Lemma reachable_data w : trace_reachable cfgs w -> data_inv w.
Proof using H0 Hcfgs Keep.
  assert (forall w1 w2, rtc (trace_step cfgs) w1 w2 -> data_inv w1 -> data_inv w2) as Hi.
  { induction 1 as [|w1 w2 w3 [g op s' r Hg Hs He] _ IH]; [done|]. intros Hinv. apply IH.
    eapply step_data; [done|]. eapply step_entry; try done. apply (da_base _ Hinv). }
  intros Hr. eapply Hi; [exact Hr|apply init_data].
Qed.
End history.
End data.

(** C12: the shards of all groups together are one store, provided the controller's
    history never takes a shard from a group and leaves it to nobody (gid 0; after that the
    next owner starts with an empty shard: finding on server.go:398).  In every run in
    which configurations change, shards migrate and old copies are collected, with requests
    and entries repeated and late, whoever answers a client operation (other than with
    [ErrWrongGroup]) answers a read with the value in the one map to which all writes have
    been applied, in the order in which they took effect anywhere; a write takes effect
    then, or its client has a write with this or a higher number among them; and of one
    client and shard every write is applied once, in the order of their numbers. *)
Theorem shards_are_one_store `{MapOrderLaws} `{!Codec (RaftPersist Op)} `{!Codec State}
    cfgs w g op s' r :
  history cfgs -> never_orphaned cfgs -> trace_reachable cfgs w ->
  g <> 0 -> submits cfgs w g op -> isKVOp op = true ->
  execute g op (cur w g) = Some (s', r) -> ar_Err r <> ErrWrongGroup ->
  let ws := writes w ++ effect g op (cur w g) in
  StronglySorted numbered ws /\
  if isPut op then
    ar_Err r = OK /\ (ws = writes w \/ ws = writes w ++ [op]) /\
    exists o, o ∈ ws /\ ClientId o = ClientId op /\ SeqId op <= SeqId o
  else
    ws = writes w /\
    (ar_Err r, ar_Value r) =
      match store (writes w) !! Key op with Some v => (OK, v) | None => (ErrNoKey, EmptyString) end.
Proof.
  intros Hcfgs Keep Hr Hg Hs HK He Hne ws. pose proof (reachable_data cfgs Hcfgs Keep w Hr) as Hinv.
  pose proof (step_entry cfgs Hcfgs w g op s' r (da_base _ _ Hinv) Hg Hs He) as Hen.
  pose proof (step_wf cfgs w g Hinv) as Hwf. split; [by eapply step_order|].
  destruct (serves_spec g (cur w g) _ Hwf (key2shard_range (Key op))) as (sh & Hsh & _).
  assert (serves g (cur w g) (shardOf op) = Some true) as Hsv.
  { unfold execute in He. rewrite HK in He. unfold shardOf.
    destruct (serves g (cur w g) (key2shard (Key op))) as [[]|]; cbn in He; [done| |done].
    injection He as <- <-. by destruct Hne. }
  destruct (serves_held cfgs w g op s' r Hinv Hen _ Hsv) as [Ho Hhas].
  destruct (da_held _ _ Hinv g _ Hg Ho Hhas) as [Cv _].
  assert (value_at (cur w g) (Key op) = store (writes w) !! Key op) as Hv by (by apply Cv).
  rewrite (value_at_shard _ _ _ _ Hsh eq_refl) in Hv.
  destruct (execute_write g op (cur w g) s' r Hwf HK He)
    as [[E _]|(E & _ & _ & _ & Hp & _ & _ & _ & _ & _ & ->)]; unfold ws; rewrite E in *.
  - unfold execute in He. rewrite HK in He. unfold shardOf in Hsv. rewrite Hsv in He.
    unfold isPut. rewrite HK. rewrite app_nil_r.
    cbn [mbind option_bind negb andb] in *.
    destruct (String.eqb (Type_ op) "Get") eqn:EG; cbn [negb] in *.
    + split; [done|]. unfold applyKVOp in He. rewrite Hsh, EG in He. cbn in He.
      injection He as _ <-. rewrite <- Hv. cbn. by destruct (KV sh !! Key op).
    + unfold effect, isPut, shardOf in E. rewrite HK, EG, Hsv in E. cbn in E.
      unfold newer in E. destruct (dupTable (cur w g) !! ClientId op) as [last|] eqn:EL; [|done].
      destruct (SeqId op <=? de_SeqId last) eqn:ES; [|done]. injection He as <- <-.
      destruct (da_dup _ _ Hinv g (cur w g) _ _ (bi_cur _ _ (da_base _ _ Hinv) g) EL)
        as (-> & _ & o & Hin & Hc & Hq).
      split_and!; [done|by left|]. exists o. split_and!; [done|done|]. apply Z.leb_le in ES. lia.
  - rewrite Hp. split_and!; [|by right|exists op; split_and!; [apply elem_of_app; right; by left|done|lia]].
    done.
Qed.

(** ** A concrete run: a write, a migration, a read *)
Module Moving.
#[export] Existing Instance listed_order.
#[export] Existing Instance listed_order_laws.
#[export] Existing Instance GroupDemo.op_codec.
#[export] Existing Instance GroupDemo.state_codec.

Definition config_to (k gid : Z) : Config :=
  {| ShardConfig.Num := k; Shards := replicate NShards gid;
     Groups := <[1 := ["a"%string]]> (<[2 := ["b"%string]]> ∅) |}.
(** All shards go to group 1, then to group 2. *)
Definition moving (k : Z) : Config :=
  if k =? 0 then Config_zero else if k =? 1 then config_to 1 1 else config_to k 2.

Lemma moving_history : history moving.
Proof.
  split; [done|..]; unfold moving; intros k.
  - intros Hk. destruct (Z.eqb_spec k 0); [by subst|]. destruct (Z.eqb_spec k 1); [by subst|done].
  - destruct (k =? 0); [done|]. by destruct (k =? 1).
Qed.

Lemma moving_kept : never_orphaned moving.
Proof.
  intros k i Hk Ho. assert (0 <= i < Z.of_nat NShards) as Hi.
  { unfold owner in Ho. destruct (zget (Shards (moving k)) i) eqn:E; [|done].
    apply zget_Some_lt in E. unfold zlen in E. by rewrite (hist_len _ moving_history) in E. }
  assert (forall m gid, owner (config_to m gid) i = gid) as Ha.
  { intros m gid. unfold owner, zget, config_to. cbn [Shards].
    rewrite (proj2 (Z.leb_le 0 i)) by lia. by rewrite lookup_replicate_2 by (unfold NShards in *; lia). }
  unfold moving. destruct (Z.eqb_spec (k + 1) 0); [lia|].
  destruct (k + 1 =? 1); rewrite Ha; lia.
Qed.

(** A server that leads its group and has the state [s]. *)
Definition leaderAt (s : State) : Service.Server Op State applyResult Z :=
  {| Service.rf := Service.rf GroupDemo.leader; Service.maxraftstate := -1; Service.st := s;
     Service.nt := Service.nt GroupDemo.leader; Service.dead := false |}.

Definition put : Op := with_InternalId 3 (clientOp "Put" 8 1 "d" "v").
Definition get : Op := with_InternalId 4 (clientOp "Get" 9 1 "d" "").
Definition to (k : Z) : Op := Worlds.configOp (moving k).

Definition a1 : State := Worlds.run1 1 (to 1) initialState.
Definition a2 : State := Worlds.run1 1 put a1.
Definition a3 : State := Worlds.run1 1 (to 2) a2.
Definition b1 : State := Worlds.run1 2 (to 1) initialState.
Definition b2 : State := Worlds.run1 2 (to 2) b1.

(** Group 2 pulls from group 1. *)
Definition calls : gmap Z (list Z) := default ∅ (migrationPuller_calls (leaderAt b2)).
Definition ids : list Z := mget calls 1.
Definition pulled : option PullShardReply :=
  PullShard {| ps_ConfigNum := 2; ps_ShardIds := ids |} (leaderAt a3).
Definition install : Op :=
  default put (migrationPuller_start 2 5 1 (moving 1) (fun _ => pulled)).
Definition b3 : State := Worlds.run1 2 install b2.

Definition t1 : Trace := after trace_init 1 (to 1) a1.
Definition t2 : Trace := after t1 1 put a2.
Definition t3 : Trace := after t2 1 (to 2) a3.
Definition t4 : Trace := after t3 2 (to 1) b1.
Definition t5 : Trace := after t4 2 (to 2) b2.
Definition t6 : Trace := after t5 2 install b3.

Lemma seen_now w g op s' : s' ∈ seen (after w g op s') g.
Proof. cbn. rewrite fn_lookup_insert. by left. Qed.

Lemma seen_still w g op s' h s : s ∈ seen w h -> s ∈ seen (after w g op s') h.
Proof.
  intros Hs. cbn. destruct (decide (h = g)) as [->|].
  - rewrite fn_lookup_insert. by right.
  - by rewrite fn_lookup_insert_ne.
Qed.

Lemma submits_config w g k s :
  s ∈ seen w g -> configPoller_query (leaderAt s) = Some k ->
  ShardConfig.Num (moving k) = k -> submits moving w g (to k).
Proof.
  intros Hs Hq Hk. apply (sub_config _ _ _ (leaderAt s) k 9); [exact Hs|exact Hq|].
  unfold configPoller_start. rewrite Hk, (proj2 (Z.eqb_eq _ _)) by lia. done.
Qed.

Lemma submits_install : submits moving t5 2 install.
Proof.
  apply (sub_install _ _ _ (leaderAt b2) calls 1 ids (fun _ => pulled) 5).
  - apply seen_now.
  - vm_compute. reflexivity.
  - vm_compute. reflexivity.
  - intros _ r Hr. exists (leaderAt a3). split; [|exact Hr].
    apply seen_still, seen_still, seen_now.
  - vm_compute. reflexivity.
Qed.

Lemma reach6 : trace_reachable moving t6.
Proof.
  assert (forall w g op s', trace_reachable moving w -> g <> 0 -> submits moving w g op ->
    execute g op (cur w g) = Some (s', result op (OK, EmptyString)) ->
    trace_reachable moving (after w g op s')) as Hstep.
  { intros w g op s' Hr Hg Hs He. eapply rtc_r; [exact Hr|]. by eapply trace_execute. }
  apply Hstep; [|done|apply submits_install|vm_compute; reflexivity].
  apply Hstep; [|done|apply (submits_config _ _ 2 b1); [apply seen_now|vm_compute; reflexivity..]|vm_compute; reflexivity].
  apply Hstep; [|done|apply (submits_config _ _ 1 initialState); [by left|vm_compute; reflexivity..]|vm_compute; reflexivity].
  apply Hstep; [|done|apply (submits_config _ _ 2 a2); [apply seen_now|vm_compute; reflexivity..]|vm_compute; reflexivity].
  apply Hstep; [|done|apply sub_client; auto|vm_compute; reflexivity].
  apply Hstep; [|done|apply (submits_config _ _ 1 initialState); [by left|vm_compute; reflexivity..]|vm_compute; reflexivity].
  apply rtc_refl.
Qed.
End Moving.
Import Moving.

Lemma shards_are_one_store_witness :
  writes Moving.t6 = [Moving.put] /\
  execute 2 Moving.get (cur Moving.t6 2) = Some (cur Moving.t6 2, result Moving.get (OK, "v"%string)) /\
  (OK, "v"%string) =
    match store (writes Moving.t6) !! "d"%string with Some v => (OK, v) | None => (ErrNoKey, EmptyString) end.
Proof.
  assert (execute 2 Moving.get (cur Moving.t6 2) = Some (cur Moving.t6 2, result Moving.get (OK, "v"%string)))
    as He by (vm_compute; reflexivity).
  split; [vm_compute; reflexivity|]. split; [exact He|].
  destruct (shards_are_one_store Moving.moving Moving.t6 2 Moving.get (cur Moving.t6 2)
    (result Moving.get (OK, "v"%string)) Moving.moving_history Moving.moving_kept Moving.reach6)
    as (_ & _ & E); [done|apply sub_client; auto|done|exact He|done|exact E].
Defined.
