(* ===== verification/MrCoordinator.v ===== *)
(** * The MapReduce coordinator (src/src/mr/coordinator.go, rpc.go)

    The record [Coordinator], the two handlers, the timeout goroutine [timeadd], one
    round of [watchWorkers], [Done], [MakeCoordinator] and the worker id generator
    of rpc.go.  [step] is the system of a coordinator with the [timeadd] goroutines
    it has started, under requests with any arguments.  Properties are in MrProps;
    the files that [cleanup] removes are part of MrWorker. *)
From stdpp Require Import pretty.
From S2P Require Import Prelude ClientId.

Module Mr.

(** ** Worker ids (rpc.go 12-56) *)
Definition sequenceBits : Z := 12.
Definition workerBits : Z := 10.
Definition maxSequence : Z := Z.lxor (-1) (Z.shiftl (-1) sequenceBits).
Definition timeShift : Z := workerBits + sequenceBits.
Definition workerShift : Z := sequenceBits.
Definition epoch : Z := 1700000000000.

Record snowflake := { lastStamp : Z; sf_workerID : Z; sequence : Z }.

Definition sf_start (pid : Z) : snowflake :=
  {| lastStamp := 0; sf_workerID := Z.land pid 0x3FF; sequence := 0 |}.

(** One call at millisecond [now]; [later] is the first reading of the clock above
    [lastStamp], which the loop waits for when the sequence overflows. *)
Definition GenerateID (now later : Z) (sf : snowflake) : Z * snowflake :=
  let '(now, seq) :=
    if now =? lastStamp sf then
      let seq := Z.land (sequence sf + 1) maxSequence in
      (if seq =? 0 then later else now, seq)
    else (now, 0) in
  (Z.lor (Z.lor (ClientId.int64 (Z.shiftl (now - epoch) timeShift))
                (ClientId.int64 (Z.shiftl (sf_workerID sf) workerShift))) seq,
   {| lastStamp := now; sf_workerID := sf_workerID sf; sequence := seq |}).

(** ** Messages (rpc.go 60-78) *)
Record Args := { a_Addr : string }.
Record Reply := { T : string; N : Z; Addr : string; Index : Z; MapIndex : Z }.
Definition Reply_zero : Reply :=
  {| T := EmptyString; N := 0; Addr := EmptyString; Index := 0; MapIndex := 0 |}.
Definition kind (t : string) : Reply :=
  {| T := t; N := 0; Addr := EmptyString; Index := 0; MapIndex := 0 |}.

(** ** State (coordinator.go 17-36) *)
Record workerInfo := { lastSeen : Z }.

(** [book] maps a task to 0 (idle), 1 (in progress) or 2 (completed). *)
Record Coordinator := {
  mf : list string;
  book : gmap string Z;
  r : Z;
  mtnum : Z;
  rtnum : Z;
  workers : gmap Z workerInfo;
  done : bool;
}.

Definition with_book b c : Coordinator :=
  {| mf := mf c; book := b; r := r c; mtnum := mtnum c; rtnum := rtnum c;
     workers := workers c; done := done c |}.
Definition with_mtnum x c : Coordinator :=
  {| mf := mf c; book := book c; r := r c; mtnum := x; rtnum := rtnum c;
     workers := workers c; done := done c |}.
Definition with_rtnum x c : Coordinator :=
  {| mf := mf c; book := book c; r := r c; mtnum := mtnum c; rtnum := x;
     workers := workers c; done := done c |}.
Definition with_workers x c : Coordinator :=
  {| mf := mf c; book := book c; r := r c; mtnum := mtnum c; rtnum := rtnum c;
     workers := x; done := done c |}.
Definition with_done x c : Coordinator :=
  {| mf := mf c; book := book c; r := r c; mtnum := mtnum c; rtnum := rtnum c;
     workers := workers c; done := x |}.

(** [c.book[key]]: a missing key reads as 0. *)
Definition status (b : gmap string Z) (key : string) : Z := default 0 (b !! key).

(** [fmt.Sprintf("reduce-%d", i)] *)
Definition reduceKey (i : Z) : string := "reduce-" +:+ pretty i.

(** ** Handing out tasks (coordinator.go 40-98) *)

(** The third component of a handler's result is the key that a [timeadd] goroutine
    is started for. *)
Definition Handled : Type := Coordinator * Reply * option string.

(** The loop over [c.mf]: the first idle file, with its index. *)
Fixpoint idleMap (i : Z) (files : list string) (b : gmap string Z) : option (Z * string) :=
  match files with
  | [] => None
  | addr :: files => if status b addr =? 0 then Some (i, addr) else idleMap (i + 1) files b
  end.

Definition maptask (args : Args) (c : Coordinator) : Handled :=
  let c := if bool_decide (book c !! a_Addr args = Some 1)
           then with_mtnum (mtnum c + 1) (with_book (<[a_Addr args := 2]> (book c)) c)
           else c in
  if mtnum c =? zlen (mf c) then (c, kind "wait", None)
  else match idleMap 0 (mf c) (book c) with
  | Some (i, addr) =>
      (with_book (<[addr := 1]> (book c)) c,
       {| T := "map"; N := r c; Addr := addr; Index := 0; MapIndex := i |}, Some addr)
  | None => (c, kind "wait", None)
  end.

(** The loop over the reduce tasks from [i]; [fuel] bounds its iterations. *)
Fixpoint idleReduce (fuel : nat) (i r : Z) (b : gmap string Z) : option Z :=
  match fuel with
  | O => None
  | S fuel =>
      if i <? r then
        if status b (reduceKey i) =? 0 then Some i else idleReduce fuel (i + 1) r b
      else None
  end.

Definition reducetask (args : Args) (c : Coordinator) : Handled :=
  let c := if bool_decide (book c !! a_Addr args = Some 1)
           then with_rtnum (rtnum c + 1) (with_book (<[a_Addr args := 2]> (book c)) c)
           else c in
  if rtnum c =? r c then (with_done true c, kind "exit", None)
  else match idleReduce (Z.to_nat (r c)) 0 (r c) (book c) with
  | Some i =>
      (with_book (<[reduceKey i := 1]> (book c)) c,
       {| T := "reduce"; N := 0; Addr := reduceKey i; Index := i; MapIndex := 0 |},
       Some (reduceKey i))
  | None => (c, kind "wait", None)
  end.

Definition CoordinatorHandler (args : Args) (c : Coordinator) : Handled :=
  if mtnum c <? zlen (mf c) then maptask args c else reducetask args c.

(** The second half of [timeadd], ten seconds later. *)
Definition timeadd (key : string) (c : Coordinator) : Coordinator :=
  if status (book c) key =? 1 then with_book (<[key := 0]> (book c)) c else c.

(** ** Workers and termination (coordinator.go 114-203), times in seconds *)

Definition Heartbeat (now id : Z) (c : Coordinator) : Coordinator * bool :=
  if done c then (with_workers (delete id (workers c)) c, true)
  else (with_workers (<[id := {| lastSeen := now |}]> (workers c)) c, false).

(** One round of [watchWorkers]; [true]: it cleans up and returns. *)
Definition watchWorkers (now : Z) (c : Coordinator) : Coordinator * bool :=
  let c := with_workers (filter (fun p => ~ 15 < now - lastSeen p.2) (workers c)) c in
  (c, done c && bool_decide (size (workers c) = 0%nat)).

Definition Done (c : Coordinator) : bool :=
  done c && bool_decide (size (workers c) = 0%nat).

(** [MakeCoordinator] without the listening socket. *)
Definition MakeCoordinator (files : list string) (nReduce : Z) : Coordinator :=
  let b := foldl (fun b v => <[v := 0]> b) ∅ files in
  let b := foldl (fun b i => <[reduceKey i := 0]> b) b (zrange (Z.to_nat nReduce)) in
  {| mf := files; book := b; r := nReduce; mtnum := 0; rtnum := 0; workers := ∅;
     done := false |}.

(** ** The coordinator and its [timeadd] goroutines *)
Record State := { co : Coordinator; timers : list string }.

Inductive step (s : State) : State -> Prop :=
  | step_request args c' reply tm :
      CoordinatorHandler args (co s) = (c', reply, tm) ->
      step s {| co := c'; timers := option_list tm ++ timers s |}
  | step_timer l1 key l2 :
      timers s = l1 ++ key :: l2 ->
      step s {| co := timeadd key (co s); timers := l1 ++ l2 |}
  | step_heartbeat now id :
      step s {| co := (Heartbeat now id (co s)).1; timers := timers s |}
  | step_watch now :
      step s {| co := (watchWorkers now (co s)).1; timers := timers s |}.

Definition reachable (files : list string) (nReduce : Z) (s : State) : Prop :=
  rtc step {| co := MakeCoordinator files nReduce; timers := [] |} s.
End Mr.
