(* ===== verification/MrWorker.v ===== *)
(** * The MapReduce worker (src/src/mr/worker.go)

    The worker's loop, the map and reduce tasks on a file system (a map from names to
    contents), and a job: a coordinator with its timers and any number of workers
    that share the files.  An RPC decodes the answer into the worker's old [Reply]:
    gob does not transmit zero fields, so those keep their old values
    ([decodeInto]).  [mapf] and [reducef] are the application; [sort.Slice] may
    order equal keys in any way and is a class with its law. *)
From stdpp Require Import pretty sorting.
From S2P Require Import Prelude MrCoordinator.
Import Mr.

Record KeyValue := { Key : string; Value : string }.

(** ** FNV-1a and strings *)

Definition bytesOf (s : string) : list Z :=
  (fun c => Z.of_N (Ascii.N_of_ascii c)) <$> String.list_ascii_of_string s.

(** [fnv.New32a] *)
Definition fnv32a (s : string) : Z :=
  foldl (fun h b => (Z.lxor h b * 16777619) mod 2 ^ 32) 2166136261 (bytesOf s).
Definition ihash (key : string) : Z := Z.land (fnv32a key) 0x7fffffff.

Definition ch (n : nat) : string := String (Ascii.ascii_of_nat n) EmptyString.
Definition tab : string := ch 9.
Definition newline : string := ch 10.

(** [strings.SplitN(s, sep, 2)] for a separator of one byte: [None] without [sep]. *)
Fixpoint cut (sep : nat) (s : string) : option (string * string) :=
  match s with
  | EmptyString => None
  | String c s =>
      if Nat.eqb (Ascii.nat_of_ascii c) sep then Some (EmptyString, s)
      else '(a, b) ← cut sep s; Some (String c a, b)
  end.

Definition dropCR (s : string) : string :=
  let n := String.length s in
  match String.get (n - 1) s with
  | Some c => if Nat.eqb (Ascii.nat_of_ascii c) 13 then String.substring 0 (n - 1) s else s
  | None => s
  end.

(** The lines of a file, without their newlines; [fuel] bounds their number. *)
Fixpoint scanLines (fuel : nat) (s : string) : list string :=
  match fuel with
  | O => []
  | S fuel =>
      match s with
      | EmptyString => []
      | _ => match cut 10 s with
             | Some (l, rest) => l :: scanLines fuel rest
             | None => [s]
             end
      end
  end.
Definition rawLines (s : string) : list string := scanLines (S (String.length s)) s.

(** The tokens of a [bufio.Scanner], which fails when a line with its newline does
    not fit into its buffer. *)
Definition lines (s : string) : list string := dropCR <$> rawLines s.
Definition maxLine : Z := 1048576.
Definition tooLong (s : string) : bool :=
  existsb (fun l => maxLine <=? Z.of_nat (String.length l)) (rawLines s).

(** ** Tasks (worker.go 115-238) *)
Abbreviation fileSystem := (gmap string string).

Definition mapResult (m i : Z) : string :=
  "map-result-" +:+ pretty m +:+ "-" +:+ pretty i.
Definition mrOut (i : Z) : string := "mr-out-" +:+ pretty i.

(** [fmt.Fprintf(tmpFiles[index], "%v\t%v\n", kv.Key, kv.Value)] for all pairs;
    [None]: division by zero or an index out of range. *)
Fixpoint writeBuckets (N : Z) (kva : list KeyValue) (tmp : list string) : option (list string) :=
  match kva with
  | [] => Some tmp
  | kv :: kva =>
      if N =? 0 then None
      else
        let index := ihash (Key kv) mod N in
        old ← zget tmp index;
        tmp ← zset tmp index (old +:+ Key kv +:+ tab +:+ Value kv +:+ newline);
        writeBuckets N kva tmp
  end.

(** The renames, from bucket [i] on. *)
Fixpoint renameAll (m i : Z) (tmp : list string) (fs : fileSystem) : fileSystem :=
  match tmp with
  | [] => fs
  | content :: tmp => renameAll m (i + 1) tmp (<[mapResult m i := content]> fs)
  end.

(** The result: the files and whether the task succeeded ([err == nil]).  [fail]
    is the number of renames done before an I/O error, if there is one; an error
    of [CreateTemp] or of a write comes before the first. *)
Definition maptask (mapf : string -> string -> list KeyValue) (fail : option nat)
    (reply : Reply) (fs : fileSystem) : option (fileSystem * bool) :=
  match fs !! Addr reply with
  | None => Some (fs, false)
  | Some content =>
      let kva := mapf (Addr reply) content in
      if N reply <? 0 then None
      else
        tmp ← writeBuckets (N reply) kva (replicate (Z.to_nat (N reply)) EmptyString);
        match fail with
        | Some k => Some (renameAll (MapIndex reply) 0 (take k tmp) fs, false)
        | None => Some (renameAll (MapIndex reply) 0 tmp fs, true)
        end
  end.

(** [filepath.Glob] on the pattern [pre*suf] in the working directory, sorted. *)
Definition globMatch (pre suf name : string) : bool :=
  let n := String.length name in
  let a := String.length pre in
  let b := String.length suf in
  (a + b <=? n)%nat && String.prefix pre name
  && String.eqb (String.substring (n - b) b name) suf
  && bool_decide (cut 47 (String.substring a (n - b - a) name) = None).

Definition Glob (pre suf : string) (fs : fileSystem) : list string :=
  merge_sort string_le (filter (fun name => globMatch pre suf name = true) (map_to_list fs).*1).

(** The pairs of the intermediate files; [None]: a line is too long. *)
Fixpoint readPairs (names : list string) (fs : fileSystem) : option (list KeyValue) :=
  match names with
  | [] => Some []
  | name :: names =>
      let content := default EmptyString (fs !! name) in
      if tooLong content then None
      else
        rest ← readPairs names fs;
        Some (omap (fun l => '(k, v) ← cut 9 l; Some {| Key := k; Value := v |}) (lines content)
              ++ rest)
  end.

(** [sort.Slice(kva, ...)] by key; the order of equal keys is not specified. *)
Class KVSort := sortKV : list KeyValue -> list KeyValue.
Definition key_le (a b : KeyValue) : Prop := string_le (Key a) (Key b).
Class KVSortLaws `{KVSort} : Prop := {
  sortKV_perm : forall l, sortKV l ≡ₚ l;
  sortKV_sorted : forall l, Sorted key_le (sortKV l);
}.

#[export] Instance key_le_dec : RelDecision key_le.
Proof. intros a b. exact (decide (string_le (Key a) (Key b))). Defined.
Definition merge_sortKV : KVSort := merge_sort key_le.

(** The values that follow with the same key: the loop on [j]. *)
Fixpoint sameKey (key : string) (kva : list KeyValue) : list string * list KeyValue :=
  match kva with
  | kv :: kva' =>
      if String.eqb (Key kv) key then
        let '(vs, rest) := sameKey key kva' in (Value kv :: vs, rest)
      else ([], kva)
  | [] => ([], [])
  end.

(** The loop on [i]; [fuel] bounds the number of groups. *)
Fixpoint reduceGroups (fuel : nat) (reducef : string -> list string -> string)
    (kva : list KeyValue) : string :=
  match fuel, kva with
  | S fuel, kv :: kva =>
      let '(vs, rest) := sameKey (Key kv) kva in
      Key kv +:+ " " +:+ reducef (Key kv) (Value kv :: vs) +:+ newline
      +:+ reduceGroups fuel reducef rest
  | _, _ => EmptyString
  end.

(** [fail]: an I/O error before the rename. *)
Definition reducetask `{KVSort} (reducef : string -> list string -> string) (fail : bool)
    (reply : Reply) (fs : fileSystem) : option (fileSystem * bool) :=
  let names := Glob "map-result-" ("-" +:+ pretty (Index reply)) fs in
  if bool_decide (names = []) then Some (fs, false)
  else match readPairs names fs with
  | None => Some (fs, false)
  | Some kva =>
      if fail then Some (fs, false)
      else
        let kva := sortKV kva in
        Some (<[mrOut (Index reply) := reduceGroups (length kva) reducef kva]> fs, true)
  end.

(** coordinator.go 154-161 *)
Definition cleanup (fs : fileSystem) : fileSystem :=
  filter (fun p => globMatch "map-result-" EmptyString p.1 = false) fs.

(** ** The loop (worker.go 54-110) *)
Record WorkerState := { w_args : Args; w_reply : Reply }.
Definition freshWorker : WorkerState :=
  {| w_args := {| a_Addr := EmptyString |}; w_reply := Reply_zero |}.

(** gob: a field with the zero value is not sent and not touched. *)
Definition decodeInto (sent old : Reply) : Reply :=
  {| T := if String.eqb (T sent) EmptyString then T old else T sent;
     N := if N sent =? 0 then N old else N sent;
     Addr := if String.eqb (Addr sent) EmptyString then Addr old else Addr sent;
     Index := if Index sent =? 0 then Index old else Index sent;
     MapIndex := if MapIndex sent =? 0 then MapIndex old else MapIndex sent |}.

Section worker.
(** The two tasks on the shared files. *)
Context (mapt redt : Reply -> fileSystem -> option (fileSystem * bool)).

(** One iteration up to [Call]: the arguments of the call, or [None] to return. *)
Definition Worker_iter (w : WorkerState) (fs : fileSystem) : option (fileSystem * option Args) :=
  let reply := w_reply w in
  let perform (task : Reply -> fileSystem -> option (fileSystem * bool)) :=
    '(fs, ok) ← task reply fs;
    Some (fs, Some {| a_Addr := if (ok : bool) then Addr reply else EmptyString |}) in
  if String.eqb (T reply) "map" then perform mapt
  else if String.eqb (T reply) "reduce" then perform redt
  else if String.eqb (T reply) "wait" then Some (fs, Some {| a_Addr := EmptyString |})
  else if String.eqb (T reply) "exit" then Some (fs, None)
  else Some (fs, Some {| a_Addr := EmptyString |}).

(** ** Jobs *)
Record Job := { j_state : State; j_files : fileSystem; j_workers : gmap Z WorkerState }.

Inductive JobEvent := Turn (worker : Z) | Crash (worker : Z) | Timer (key : string).

Fixpoint removeTimer (key : string) (l : list string) : option (list string) :=
  match l with
  | [] => None
  | k :: l => if String.eqb k key then Some l else l ← removeTimer key l; Some (k :: l)
  end.

(** A turn of a worker is one iteration of its loop, the call included.  A worker that
    crashes, or cannot reach the coordinator, leaves what its task did to the files; a
    worker that starts later may get its number. *)
Definition jobEvent (e : JobEvent) (j : Job) : option Job :=
  match e with
  | Turn id =>
      let w := default freshWorker (j_workers j !! id) in
      '(fs, call) ← Worker_iter w (j_files j);
      match call with
      | None => Some {| j_state := j_state j; j_files := fs; j_workers := j_workers j |}
      | Some args =>
          let '(c, reply, tm) := CoordinatorHandler args (co (j_state j)) in
          Some {| j_state := {| co := c; timers := option_list tm ++ timers (j_state j) |};
                  j_files := fs;
                  j_workers := <[id := {| w_args := args;
                                          w_reply := decodeInto reply (w_reply w) |}]>
                                 (j_workers j) |}
      end
  | Crash id =>
      let w := default freshWorker (j_workers j !! id) in
      '(fs, _) ← Worker_iter w (j_files j);
      Some {| j_state := j_state j; j_files := fs; j_workers := delete id (j_workers j) |}
  | Timer key =>
      l ← removeTimer key (timers (j_state j));
      Some {| j_state := {| co := timeadd key (co (j_state j)); timers := l |};
              j_files := j_files j; j_workers := j_workers j |}
  end.

Fixpoint runJob (es : list JobEvent) (j : Job) : option Job :=
  match es with
  | [] => Some j
  | e :: es => j ← jobEvent e j; runJob es j
  end.
End worker.

Definition startJob (names : list string) (nReduce : Z) (fs : fileSystem) : Job :=
  {| j_state := {| co := MakeCoordinator names nReduce; timers := [] |};
     j_files := fs; j_workers := ∅ |}.
