(* ===== verification/MrBeat.v ===== *)
(** * The MapReduce worker as a process (src/src/mr/worker.go)

    [Worker] runs its loop beside a goroutine that sends heartbeats.  The two share the
    channel [stopHeartbeat], which either may close: the goroutine when the coordinator
    is done or out of reach, the loop when a call fails or it is told to exit.  Closing
    it a second time is a panic, [None] here.  [closed_twice] shows that it can happen. *)
From S2P Require Import Prelude MrCoordinator MrWorker.
Import Mr.

(** Where the two goroutines are. *)
Inductive MainAt := Top | Busy | Returned.
Inductive BeatAt := Selecting | Calling | Ended.
#[export] Instance MainAt_dec : EqDecision MainAt := ltac:(solve_decision).
#[export] Instance BeatAt_dec : EqDecision BeatAt := ltac:(solve_decision).

Record Proc := {
  p_main : MainAt;
  p_beat : BeatAt;
  p_closed : bool;                           (* [stopHeartbeat] *)
  p_worker : WorkerState;
  p_files : fileSystem;
}.

Definition at_main m p : Proc :=
  {| p_main := m; p_beat := p_beat p; p_closed := p_closed p; p_worker := p_worker p;
     p_files := p_files p |}.
Definition at_beat b p : Proc :=
  {| p_main := p_main p; p_beat := b; p_closed := p_closed p; p_worker := p_worker p;
     p_files := p_files p |}.
Definition with_work w fs p : Proc :=
  {| p_main := p_main p; p_beat := p_beat p; p_closed := p_closed p; p_worker := w;
     p_files := fs |}.

(** [close(stopHeartbeat)] *)
Definition closeStop (p : Proc) : option Proc :=
  if p_closed p then None
  else Some {| p_main := p_main p; p_beat := p_beat p; p_closed := true;
               p_worker := p_worker p; p_files := p_files p |}.

Definition startProc (fs : fileSystem) : Proc :=
  {| p_main := Top; p_beat := Selecting; p_closed := false; p_worker := freshWorker; p_files := fs |}.

Section proc.
Context (mapt redt : Reply -> fileSystem -> option (fileSystem * bool)).
Implicit Types p : Proc.

(** The check at the top of the loop. *)
Definition mainTop p : Proc := at_main (if p_closed p then Returned else Busy) p.

(** The rest of an iteration; [answer] is what the call gives, [None] if it fails. *)
Definition mainBody (answer : option Reply) p : option Proc :=
  '(fs, call) ← Worker_iter mapt redt (p_worker p) (p_files p);
  let p := with_work (p_worker p) fs p in
  match call, answer with
  | Some args, Some reply =>
      Some (at_main Top (with_work
        {| w_args := args; w_reply := decodeInto reply (w_reply (p_worker p)) |} fs p))
  | _, _ => p ← closeStop p; Some (at_main Returned p)
  end.

(** The heartbeat came back. *)
Definition beatReply (ok stop : bool) p : option Proc :=
  if negb ok || stop then p ← closeStop p; Some (at_beat Ended p)
  else Some (at_beat Selecting p).

(** [hb] says which answers the heartbeats may get.  A [select] with two channels that
    are ready takes any. *)
Inductive proc_step (hb : bool -> bool -> Prop) (p : Proc) : option Proc -> Prop :=
  | ps_top : p_main p = Top -> proc_step hb p (Some (mainTop p))
  | ps_body answer : p_main p = Busy -> proc_step hb p (mainBody answer p)
  | ps_stop : p_beat p = Selecting -> p_closed p = true -> proc_step hb p (Some (at_beat Ended p))
  | ps_tick : p_beat p = Selecting -> proc_step hb p (Some (at_beat Calling p))
  | ps_reply ok stop : p_beat p = Calling -> hb ok stop -> proc_step hb p (beatReply ok stop p).

Inductive proc_reachable (hb : bool -> bool -> Prop) (fs : fileSystem) : Proc -> Prop :=
  | pr_start : proc_reachable hb fs (startProc fs)
  | pr_step p p' : proc_reachable hb fs p -> proc_step hb p (Some p') -> proc_reachable hb fs p'.

(** ** Who closed the channel has ended *)

Lemma closeStop_inv p p' : closeStop p = Some p' -> p_closed p = false /\ p_closed p' = true /\
  p_main p' = p_main p /\ p_beat p' = p_beat p.
Proof. unfold closeStop. destruct (p_closed p); [done|]. by intros [= <-]. Qed.

Lemma mainBody_inv answer p p' :
  mainBody answer p = Some p' -> p_beat p' = p_beat p /\
  (p_main p' = Top /\ p_closed p' = p_closed p \/
   p_main p' = Returned /\ p_closed p = false /\ p_closed p' = true).
Proof.
  unfold mainBody. destruct (Worker_iter mapt redt (p_worker p) (p_files p)) as [[fs call]|]; [|done].
  cbn [mbind option_bind]. destruct call as [args|], answer as [reply|];
    [intros [= <-]; split; [done|by left]|..];
    (destruct (closeStop _) as [q|] eqn:E; [|done]; apply closeStop_inv in E as (? & ? & ? & Hb);
     intros [= <-]; split; [exact Hb|right; by split_and!]).
Qed.

Definition ended hb p : Prop :=
  (p_closed p = true -> p_main p = Returned \/ p_beat p = Ended) /\
  (p_main p = Returned \/ p_beat p = Ended -> p_closed p = true) /\
  (p_beat p = Ended -> p_main p <> Returned -> exists ok stop : bool, hb ok stop /\ negb ok || stop = true).

Lemma reachable_ended hb fs p : proc_reachable hb fs p -> ended hb p.
Proof.
  induction 1 as [|p p' _ (H1 & H2 & H3) Hs]; [by repeat split; intros; destruct_or?|].
  unfold ended. inv Hs.
  - unfold mainTop. cbn. destruct (p_closed p) eqn:Hc.
    + split_and!; [by left|done|by intros _ []].
    + assert (p_beat p <> Ended) as Hb by (intros Hb; discriminate (H2 (or_intror Hb))).
      split_and!; [done|by intros [?|?]|done].
  - match goal with H : mainBody _ _ = Some _ |- _ => apply mainBody_inv in H as (-> & [[-> ->]|(-> & Hc & ->)]) end.
    + repeat split; [intros Hc; destruct (H1 Hc); [congruence|by right]| |].
      * intros [?|Hb]; [done|]. apply H2. by right.
      * intros Hb _. apply H3; [done|congruence].
    + repeat split; [by left|]. intros _ Hn. done.
  - cbn. repeat split; [by right|done|]. intros _ Hm. exfalso.
    match goal with H : p_closed p = true |- _ => destruct (H1 H) end; congruence.
  - cbn. repeat split; [intros Hc; destruct (H1 Hc); [by left|congruence]|intros [?|?]; [auto|done]|done].
  - match goal with H : beatReply _ _ _ = Some _ |- _ => unfold beatReply in H; bcase_in H end.
    + destruct (closeStop p) as [q|] eqn:E; [|done]. apply closeStop_inv in E as (Hc & Hq & Hm & _).
      simplify_eq/=. repeat split; [by right|done|]. intros _ _. exists ok, stop. split; [done|]. by apply orb_true_iff.
    + simplify_eq/=. repeat split; [intros Hc; destruct (H1 Hc); [by left|congruence]|intros [?|?]; [auto|done]|done].
Qed.

Hypothesis Hmap : forall reply fs, is_Some (mapt reply fs).
Hypothesis Hred : forall reply fs, is_Some (redt reply fs).

Lemma iter_total w fs : is_Some (Worker_iter mapt redt w fs).
Proof using Hmap Hred.
  unfold Worker_iter. destruct (Hmap (w_reply w) fs) as [[fs1 ok1] Em], (Hred (w_reply w) fs) as [[fs2 ok2] Er].
  repeat case_match; rewrite ?Em, ?Er; by eexists.
Qed.

(** The process panics only when both goroutines close the channel: one has done so and
    has ended while the other was in a call, and that call fails or tells it to stop. *)
Theorem worker_panics_only_twice_closed hb fs p :
  proc_reachable hb fs p -> proc_step hb p None ->
  p_closed p = true /\ (p_main p = Busy /\ p_beat p = Ended \/ p_main p = Returned /\ p_beat p = Calling).
Proof using Hmap Hred.
  intros (H1 & H2 & _)%reachable_ended Hs. inversion Hs as [|answer Hm E| | |ok stop Hb _ E].
  - unfold mainBody in E. destruct (iter_total (p_worker p) (p_files p)) as [[fs' call] Ei].
    rewrite Ei in E. cbn [mbind option_bind] in E.
    assert (p_closed p = true) as Hc.
    { destruct call, answer; [done|..]; unfold closeStop in E; cbn in E; by destruct (p_closed p). }
    split; [done|]. left. split; [done|]. by destruct (H1 Hc); [congruence|].
  - unfold beatReply in E. bcase_in E; [|done]. unfold closeStop in E.
    destruct (p_closed p) eqn:Hc; [|done]. split; [done|]. right. split; [|done].
    by destruct (H1 eq_refl); [|congruence].
Qed.

(** While the coordinator is there and not done, the process does not panic. *)
Theorem worker_steady fs p :
  proc_reachable (fun ok stop => ok = true /\ stop = false) fs p ->
  ~ proc_step (fun ok stop => ok = true /\ stop = false) p None.
Proof using Hmap Hred.
  intros Hr Hs. destruct (worker_panics_only_twice_closed _ _ _ Hr Hs) as (Hc & [[Hm Hb]|[Hm Hb]]).
  - apply reachable_ended in Hr as (_ & _ & H3).
    destruct (H3 Hb) as (ok & stop & [-> ->] & ?); [congruence|done].
  - inversion Hs as [|answer Hm' E| | |ok stop _ [-> ->] E]; congruence.
Qed.

(** After the channel is closed the loop starts no further iteration. *)
Theorem worker_stops p :
  p_closed p = true ->
  (p_main p = Top -> p_main (mainTop p) = Returned) /\
  (p_main p = Busy -> forall answer p', mainBody answer p = Some p' ->
     p_main p' = Top /\ p_main (mainTop p') = Returned).
Proof.
  intros Hc. split; [intros _; unfold mainTop; cbn; by rewrite Hc|].
  intros _ answer p' (_ & [[Ht Hc']|(_ & ? & _)])%mainBody_inv; [|congruence].
  split; [done|]. unfold mainTop. cbn. by rewrite Hc', Hc.
Qed.
End proc.

(** The job is over while the worker waits: the heartbeat is told to stop, then the
    coordinator is gone when the worker calls. *)
Example closed_twice mapt redt fs :
  let p := {| p_main := Busy; p_beat := Ended; p_closed := true; p_worker := freshWorker; p_files := fs |} in
  proc_reachable mapt redt (fun _ _ => True) fs p /\ mainBody mapt redt None p = None.
Proof.
  split; [|reflexivity].
  eapply pr_step; [eapply pr_step; [eapply pr_step; [apply pr_start|]|]|].
  - by apply ps_top.
  - by apply ps_tick.
  - by apply (ps_reply _ _ _ (at_beat Calling (mainTop (startProc fs))) true true).
Qed.
