(* ===== verification/MrProps.v ===== *)
(** * Properties of the MapReduce coordinator

    The invariant of the coordinator under any requests: the two counters count the
    completed tasks, no reduce task starts before the last map task is completed,
    the job is done only when every task is, and every task in progress has a
    timer that will make it available again.  From it: what each answer of the
    handler means, and that a single worker that does its tasks finishes the job. *)
From stdpp Require Import pretty.
From S2P Require Import Prelude MrCoordinator MrWorker.
Import Mr.

Definition completed (b : gmap string Z) (key : string) : bool := status b key =? 2.

Definition reduceKeys (n : Z) : list string := reduceKey <$> zrange (Z.to_nat n).
Definition tasks (files : list string) (n : Z) : list string := files ++ reduceKeys n.

(** Distinct input files with names, none of them named like a reduce task. *)
Definition job_ok (files : list string) (n : Z) : Prop :=
  0 <= n /\ NoDup (tasks files n) /\ EmptyString ∉ files.

(** ** Counting tasks *)

Lemma countb_le_len {A} (f : A -> bool) l : countb f l <= zlen l.
Proof. induction l as [|x l IH]; [done|]. cbn [countb]. rewrite zlen_cons. bcase; lia. Qed.

Lemma countb_all {A} (f : A -> bool) l :
  countb f l = zlen l <-> forall x, x ∈ l -> f x = true.
Proof.
  induction l as [|x l IH]; [split; [intros _ y Hy; by inv Hy|done]|].
  cbn [countb]. rewrite zlen_cons. pose proof (countb_le_len f l).
  split.
  - intros E y [->|Hy]%elem_of_cons; destruct (f x) eqn:Ex; try done; try lia.
    apply IH; [lia|done].
  - intros Hall. rewrite (Hall x) by constructor.
    rewrite (proj2 IH); [lia|]. intros y Hy. apply Hall. by constructor.
Qed.

Lemma status_insert b k k' v :
  status (<[k := v]> b) k' = if decide (k = k') then v else status b k'.
Proof. unfold status. rewrite lookup_insert. by case_decide. Qed.

(** Writing an entry outside the list, or without changing whether it is completed. *)
Lemma countb_same b k v l :
  k ∉ l \/ (v =? 2) = completed b k ->
  countb (completed (<[k := v]> b)) l = countb (completed b) l.
Proof.
  intros H. apply countb_ext. intros x Hx. unfold completed. rewrite status_insert.
  case_decide as E; [|done]. subst x. destruct H as [?|H]; [done|exact H].
Qed.

(** Completing a task of the list. *)
Lemma countb_complete b k l :
  NoDup l -> k ∈ l -> completed b k = false ->
  countb (completed (<[k := 2]> b)) l = countb (completed b) l + 1.
Proof.
  intros HN Hk Hc. rewrite (countb_remove _ l k HN Hk).
  - rewrite Z.add_comm. f_equal. apply countb_ext. intros x Hx. unfold completed at 1.
    rewrite status_insert. case_bool_decide as E; cbn.
    + rewrite decide_False; [done|congruence].
    + subst x. by rewrite Hc.
  - unfold completed. by rewrite status_insert, decide_True.
Qed.

Lemma reduceKey_inj i j : reduceKey i = reduceKey j -> i = j.
Proof. intros H. by apply (inj pretty), (inj (String.append "reduce-")). Qed.

Lemma elem_of_reduceKeys n k : k ∈ reduceKeys n <-> exists i, 0 <= i < n /\ k = reduceKey i.
Proof.
  unfold reduceKeys. rewrite list_elem_of_fmap. setoid_rewrite elem_of_zrange.
  split; intros (i & H1 & H2); exists i; split; done || lia.
Qed.

Lemma zlen_reduceKeys n : 0 <= n -> zlen (reduceKeys n) = n.
Proof. intros. unfold zlen, reduceKeys. rewrite length_fmap, length_zrange. lia. Qed.

(** ** The searches for an idle task *)

Lemma idleMap_Some i files b j k :
  idleMap i files b = Some (j, k) ->
  i <= j /\ files !! Z.to_nat (j - i) = Some k /\ status b k = 0 /\
  forall p f, i <= p < j -> files !! Z.to_nat (p - i) = Some f -> status b f <> 0.
Proof.
  revert i. induction files as [|f files IH]; intros i H; cbn in H; [done|]. go_inv.
  - split_and!; [lia| |done|lia]. by rewrite Z.sub_diag.
  - apply IH in H as (? & Hl & ? & Hall). split_and!; [lia| |done|].
    + replace (Z.to_nat (j - i)) with (S (Z.to_nat (j - (i + 1)))) by lia. done.
    + intros p f' Hp Hf'. destruct (decide (p = i)) as [->|Hne].
      * rewrite Z.sub_diag in Hf'. by injection Hf' as <-.
      * apply (Hall p f'); [lia|].
        by replace (Z.to_nat (p - i)) with (S (Z.to_nat (p - (i + 1)))) in Hf' by lia.
Qed.

Lemma idleMap_None i files b k :
  idleMap i files b = None -> k ∈ files -> status b k <> 0.
Proof.
  revert i. induction files as [|f files IH]; intros i H; [by inversion 1|]. cbn in H. go_inv.
  intros [->|Hk]%elem_of_cons; [done|by eapply IH].
Qed.

Lemma idleReduce_Some fuel i n b j :
  idleReduce fuel i n b = Some j -> i <= j < n /\ status b (reduceKey j) = 0 /\
  forall p, i <= p < j -> status b (reduceKey p) <> 0.
Proof.
  revert i. induction fuel as [|fuel IH]; intros i H; cbn in H; [done|]. go_inv.
  - split_and!; [lia..|done|lia].
  - apply IH in H as (? & ? & Hall). split_and!; [lia..|done|]. intros p Hp.
    destruct (decide (p = i)) as [->|Hne]; [done|]. apply Hall. lia.
Qed.

(** The fuel [Z.to_nat n] is enough. *)
Lemma idleReduce_None fuel i n b j :
  idleReduce fuel i n b = None -> (Z.to_nat (n - i) <= fuel)%nat -> i <= j < n ->
  status b (reduceKey j) <> 0.
Proof.
  revert i. induction fuel as [|fuel IH]; intros i H Hf Hj; cbn in H; [lia|]. go_inv; [|lia].
  destruct (decide (i = j)) as [->|Hn]; [done|]. eapply (IH (i + 1)); [done|lia..].
Qed.

(** ** The invariant *)
Section job.
Context (files : list string) (n : Z) (Hjob : job_ok files n).

Record inv (c : Coordinator) (timers : list string) : Prop := {
  inv_mf : mf c = files;
  inv_r : r c = n;
  inv_book k : k ∈ tasks files n -> book c !! k ∈ [Some 0; Some 1; Some 2];
  inv_dom k : k ∉ tasks files n -> book c !! k = None;
  inv_mt : mtnum c = countb (completed (book c)) files;
  inv_rt : rtnum c = countb (completed (book c)) (reduceKeys n);
  inv_phase k : k ∈ reduceKeys n -> status (book c) k <> 0 -> mtnum c = zlen files;
  inv_done : done c = true -> mtnum c = zlen files /\ rtnum c = n;
  inv_timer k : status (book c) k = 1 -> k ∈ timers;
}.

Lemma job_disjoint k : k ∈ files -> k ∈ reduceKeys n -> False.
Proof. destruct Hjob as (_ & H & _). apply NoDup_app in H as (_ & H & _). intros H1 H2. by apply (H k). Qed.
Lemma job_files : NoDup files.
Proof. destruct Hjob as (_ & H & _). by apply NoDup_app in H as (? & _ & _). Qed.
Lemma job_reduces : NoDup (reduceKeys n).
Proof. destruct Hjob as (_ & H & _). by apply NoDup_app in H as (_ & _ & ?). Qed.

Lemma inv_lookup c ts k v :
  inv c ts -> v <> 0 -> status (book c) k = v <-> book c !! k = Some v.
Proof.
  intros I Hv. unfold status. split; [|by intros ->].
  destruct (book c !! k) eqn:E; cbn; [by intros ->|congruence].
Qed.

Lemma inv_task c ts k : inv c ts -> status (book c) k <> 0 -> k ∈ tasks files n.
Proof.
  intros I Hk. destruct (decide (k ∈ tasks files n)) as [|Hn]; [done|].
  apply (inv_dom _ _ I) in Hn. unfold status in Hk. by rewrite Hn in Hk.
Qed.

Lemma inv_idle c ts k : inv c ts -> k ∈ tasks files n -> status (book c) k = 0 ->
  book c !! k = Some 0.
Proof.
  intros I Hk Hs. pose proof (inv_book _ _ I k Hk) as Hb. unfold status in Hs.
  destruct (book c !! k) as [v|] eqn:E; cbn in Hs; [by subst|]. set_solver.
Qed.

Lemma all_maps c ts :
  inv c ts -> mtnum c = zlen files <-> forall k, k ∈ files -> book c !! k = Some 2.
Proof.
  intros I. rewrite (inv_mt _ _ I), countb_all. apply forall_proper. intros k.
  unfold completed. rewrite Z.eqb_eq, (inv_lookup c ts) by done. done.
Qed.

Lemma all_reduces c ts :
  inv c ts -> rtnum c = n <-> forall k, k ∈ reduceKeys n -> book c !! k = Some 2.
Proof.
  intros I. rewrite (inv_rt _ _ I). rewrite <- (zlen_reduceKeys n) at 2 by apply Hjob.
  rewrite countb_all. apply forall_proper. intros k.
  unfold completed. rewrite Z.eqb_eq, (inv_lookup c ts) by done. done.
Qed.

Lemma inv_init : inv (MakeCoordinator files n) [].
Proof.
  assert (forall l (b : gmap string Z) k, foldl (fun b v => <[v := 0]> b) b l !! k =
            if decide (k ∈ l) then Some 0 else b !! k) as Hf.
  { induction l as [|x l IH]; intros b k; cbn.
    - rewrite decide_False by (by inversion 1). done.
    - rewrite IH, lookup_insert. repeat case_decide; set_solver. }
  assert (forall k, book (MakeCoordinator files n) !! k =
            if decide (k ∈ tasks files n) then Some 0 else None) as Hb.
  { intros k. unfold MakeCoordinator, tasks, reduceKeys. cbn [book].
    assert (forall l b, foldl (fun b i => <[reduceKey i := 0]> b) b l
              = foldl (fun (b : gmap string Z) v => <[v := 0]> b) b (reduceKey <$> l)) as E.
    { induction l as [|x l IH]; intros b; cbn; [done|]. apply IH. }
    rewrite E, Hf, Hf, lookup_empty.
    repeat case_decide; set_solver. }
  assert (forall k, status (book (MakeCoordinator files n)) k = 0) as Hs.
  { intros k. unfold status. rewrite Hb. by case_decide. }
  assert (forall l, countb (completed (book (MakeCoordinator files n))) l = 0) as Hc.
  { induction l as [|x l IH]; [done|]. cbn [countb]. rewrite IH. unfold completed.
    by rewrite Hs. }
  split; try done.
  - intros k Hk. rewrite Hb, decide_True by done. set_solver.
  - intros k Hk. by rewrite Hb, decide_False.
  - intros k _ Hk. by rewrite Hs in Hk.
  - intros k Hk. by rewrite Hs in Hk.
Qed.

(** While a task is not completed, the job is not done. *)
Lemma inv_not_done c ts k :
  inv c ts -> k ∈ tasks files n -> book c !! k <> Some 2 -> done c = false.
Proof.
  intros I Hk Hb. apply not_true_is_false. intros [Hm Hr]%(inv_done _ _ I).
  apply Hb. apply elem_of_app in Hk as [Hk|Hk].
  - by apply (proj1 (all_maps c ts I)).
  - by apply (proj1 (all_reduces c ts I)).
Qed.

(** Every write to [book] by the coordinator. *)
Lemma inv_write c c' ts ts' k v :
  inv c ts -> k ∈ tasks files n -> book c !! k <> Some 2 -> v ∈ [0; 1; 2] ->
  (k ∈ reduceKeys n -> v <> 0 -> mtnum c = zlen files) ->
  (v = 1 -> k ∈ ts') -> (forall k', k' <> k -> k' ∈ ts -> k' ∈ ts') ->
  mf c' = mf c -> r c' = r c -> book c' = <[k := v]> (book c) -> done c' = done c ->
  mtnum c' = mtnum c + (if decide (k ∈ files /\ v = 2) then 1 else 0) ->
  rtnum c' = rtnum c + (if decide (k ∈ reduceKeys n /\ v = 2) then 1 else 0) ->
  inv c' ts'.
Proof.
  intros I Hk Hb Hv Hp H1 Hts E1 E2 E3 E4 E5 E6.
  pose proof (inv_not_done _ _ _ I Hk Hb) as Hd.
  assert (completed (book c) k = false) as Hc.
  { unfold completed. apply Z.eqb_neq. by rewrite (inv_lookup c ts). }
  assert (forall l d, NoDup l -> d = (if decide (k ∈ l /\ v = 2) then 1 else 0) ->
    countb (completed (<[k := v]> (book c))) l = countb (completed (book c)) l + d) as Hcount.
  { intros l d HN ->. destruct (decide (k ∈ l /\ v = 2)) as [[Hl Hv2]|E];
      [rewrite Hv2; by apply countb_complete|].
    rewrite Z.add_0_r. apply countb_same. destruct (decide (k ∈ l)); [|by left].
    right. rewrite Hc. apply Z.eqb_neq. naive_solver. }
  assert (mtnum c' = countb (completed (book c')) files) as Hmt.
  { rewrite E3, E5, (inv_mt _ _ I). symmetry. by apply Hcount; [apply job_files|]. }
  pose proof (countb_le_len (completed (book c')) files) as Hle.
  split; rewrite ?E1, ?E2; try apply I; rewrite ?E3; try done.
  - intros k' Hk'. rewrite lookup_insert. destruct (decide (k = k')); [|by apply I].
    clear -Hv. rewrite !elem_of_cons in *. destruct Hv as [->|[->|[->|Hv]]]; [naive_solver..|by inv Hv].
  - intros k' Hk'. rewrite lookup_insert_ne; [by apply I|]. by intros ->.
  - by rewrite <- E3.
  - rewrite E6, (inv_rt _ _ I). symmetry. by apply Hcount; [apply job_reduces|].
  - intros k' Hk'. rewrite status_insert. destruct (decide (k = k')) as [E|E].
    + subst k'. intros Hn0. rewrite E5, decide_False; [rewrite Hp by done; lia|].
      intros [Hf _]. by eapply job_disjoint.
    + intros Hs. pose proof (inv_phase _ _ I k' Hk' Hs) as Hm.
      clear E6. case_decide; lia.
  - rewrite E4, Hd. done.
  - intros k'. rewrite status_insert. destruct (decide (k = k')) as [E|E]; [subst; auto|].
    intros Hs. apply Hts; [done|]. by apply I.
Qed.

(** A completion report: what the first lines of [maptask] and [reducetask] do. *)
Lemma inv_report_map c ts k :
  inv c ts -> mtnum c < zlen files -> book c !! k = Some 1 ->
  inv (with_mtnum (mtnum c + 1) (with_book (<[k := 2]> (book c)) c)) ts.
Proof.
  intros I Hm Hk. assert (status (book c) k = 1) as Hs by (unfold status; by rewrite Hk).
  assert (k ∈ tasks files n) as Ht by (eapply inv_task; [done|lia]).
  assert (k ∉ reduceKeys n) as Hr.
  { intros Hr. pose proof (inv_phase _ _ I k Hr ltac:(lia)). lia. }
  assert (k ∈ files) as Hf by (apply elem_of_app in Ht; naive_solver).
  eapply (inv_write c _ ts ts k 2); try done; cbn; [congruence|set_solver| |].
  - by rewrite decide_True.
  - rewrite decide_False by naive_solver. lia.
Qed.

Lemma inv_report_reduce c ts k :
  inv c ts -> mtnum c = zlen files -> book c !! k = Some 1 ->
  inv (with_rtnum (rtnum c + 1) (with_book (<[k := 2]> (book c)) c)) ts.
Proof.
  intros I Hm Hk. assert (status (book c) k = 1) as Hs by (unfold status; by rewrite Hk).
  assert (k ∈ tasks files n) as Ht by (eapply inv_task; [done|lia]).
  assert (k ∉ files) as Hf.
  { intros Hf. pose proof (proj1 (all_maps c ts I) Hm k Hf). congruence. }
  assert (k ∈ reduceKeys n) as Hr by (apply elem_of_app in Ht; naive_solver).
  eapply (inv_write c _ ts ts k 2); try done; cbn; [congruence|set_solver| |].
  - rewrite decide_False by naive_solver. lia.
  - by rewrite decide_True.
Qed.

Lemma inv_assign c ts k :
  inv c ts -> k ∈ tasks files n -> status (book c) k = 0 ->
  (k ∈ reduceKeys n -> mtnum c = zlen files) ->
  inv (with_book (<[k := 1]> (book c)) c) (k :: ts).
Proof.
  intros I Hk Hs Hp. pose proof (inv_idle _ _ _ I Hk Hs) as Hb.
  eapply (inv_write c _ ts (k :: ts) k 1); try done; cbn; try set_solver;
    try congruence; rewrite decide_False by naive_solver; lia.
Qed.

Lemma inv_timeadd c l1 k l2 : inv c (l1 ++ k :: l2) -> inv (timeadd k c) (l1 ++ l2).
Proof.
  intros I. unfold timeadd. bcase.
  - assert (k ∈ tasks files n) as Ht by (eapply inv_task; [done|lia]).
    eapply (inv_write c _ _ (l1 ++ l2) k 0); try done; cbn; try set_solver;
      [|rewrite decide_False by naive_solver; lia..].
    rewrite <- (inv_lookup c (l1 ++ k :: l2)) by done. lia.
  - destruct I. split; try done. intros k' Hk'. specialize (inv_timer0 k' Hk').
    assert (k' <> k) by congruence. set_solver.
Qed.

Lemma inv_workers c ts w : inv c ts -> inv (with_workers w c) ts.
Proof. by intros []. Qed.

Lemma inv_finish c ts :
  inv c ts -> mtnum c = zlen files -> rtnum c = n -> inv (with_done true c) ts.
Proof. by intros []. Qed.

(** ** The handler *)

(** [book] after the report in [args]. *)
Definition reported (args : Args) (b : gmap string Z) : gmap string Z :=
  if bool_decide (b !! a_Addr args = Some 1) then <[a_Addr args := 2]> b else b.

(** ... and after handing out [tm]. *)
Definition handed (args : Args) (tm : option string) (b : gmap string Z) : gmap string Z :=
  match tm with
  | Some k => <[k := 1]> (reported args b)
  | None => reported args b
  end.

(** The four answers, from state [c] to state [c']. *)
Inductive answered (c c' : Coordinator) : Reply -> option string -> Prop :=
  | answered_map i f :
      files !! Z.to_nat i = Some f -> 0 <= i -> book c !! f = Some 0 ->
      (forall p f', 0 <= p < i -> files !! Z.to_nat p = Some f' -> book c !! f' <> Some 0) ->
      answered c c' {| T := "map"; N := n; Addr := f; Index := 0; MapIndex := i |} (Some f)
  | answered_reduce i :
      0 <= i < n -> (forall f, f ∈ files -> book c !! f = Some 2) ->
      book c !! reduceKey i = Some 0 ->
      (forall p, 0 <= p < i -> book c !! reduceKey p <> Some 0) ->
      answered c c' {| T := "reduce"; N := 0; Addr := reduceKey i; Index := i; MapIndex := 0 |}
        (Some (reduceKey i))
  | answered_exit :
      (forall k, k ∈ tasks files n -> book c' !! k = Some 2) -> done c' = true ->
      answered c c' (kind "exit") None
  | answered_wait k :
      k ∈ tasks files n -> book c' !! k = Some 1 -> done c' = done c ->
      answered c c' (kind "wait") None
  | answered_maps_over :
      mtnum c < zlen files -> (forall f, f ∈ files -> book c' !! f = Some 2) ->
      done c' = done c ->
      answered c c' (kind "wait") None.

Lemma reported_idle args b k v : v <> 2 -> reported args b !! k = Some v -> b !! k = Some v.
Proof.
  unfold reported. intros Hv. case_bool_decide as E; [|done].
  rewrite lookup_insert. case_decide; congruence.
Qed.

Lemma reported_not_idle args b k : status (reported args b) k <> 0 -> b !! k <> Some 0.
Proof.
  unfold reported, status. intros Hs Hb. case_bool_decide as E; [|by rewrite Hb in Hs].
  rewrite lookup_insert_ne, Hb in Hs; [done|]. intros Ek. by rewrite Ek, Hb in E.
Qed.

(** A task of a phase that is not over and has no idle task is in progress. *)
Lemma in_progress c ts l :
  inv c ts -> l ⊆ tasks files n -> (forall k, k ∈ l -> status (book c) k <> 0) ->
  countb (completed (book c)) l <> zlen l -> exists k, k ∈ l /\ book c !! k = Some 1.
Proof.
  intros I Hl H0 Hc.
  destruct (decide (Exists (fun k => status (book c) k = 1) l)) as [He|He].
  - apply Exists_exists in He as (k & Hk & Hs). exists k. split; [done|].
    by apply (inv_lookup c ts).
  - exfalso. apply Hc, countb_all. intros k Hk. unfold completed. apply Z.eqb_eq.
    assert (status (book c) k <> 1) as H1 by (intros E; apply He, Exists_exists; eauto).
    specialize (H0 k Hk). pose proof (inv_book _ _ I k (Hl k Hk)) as Hb. unfold status in *.
    rewrite !elem_of_cons in Hb. destruct Hb as [E|[E|[E|E]]]; [rewrite E in *; done..|by inv E].
Qed.

Lemma maptask_spec args c ts c' reply tm :
  inv c ts -> mtnum c < zlen files -> maptask args c = (c', reply, tm) ->
  inv c' (option_list tm ++ ts) /\ answered c c' reply tm /\ book c' = handed args tm (book c).
Proof.
  intros I Hm H. unfold maptask in H.
  set (c1 := if bool_decide _ then _ else _) in H.
  assert (inv c1 ts /\ book c1 = reported args (book c) /\ done c1 = done c) as (I1 & Hb & Hd).
  { unfold c1, reported. case_bool_decide; [|done]. split; [by apply inv_report_map|done]. }
  rewrite (inv_mf _ _ I1), (inv_r _ _ I1) in H.
  destruct (Z.eqb_spec (mtnum c1) (zlen files)) as [E|E].
  { injection H as <- <- <-. split_and!; [done| |done]. apply answered_maps_over; [done| |done].
    by apply (all_maps c1 ts). }
  destruct (idleMap 0 files (book c1)) as [[i f]|] eqn:Ei; injection H as <- <- <-.
  - apply idleMap_Some in Ei as (Hi & Hf & Hs & Hfirst). rewrite Z.sub_0_r in Hf.
    assert (f ∈ files) as Hin by (by eapply list_elem_of_lookup_2).
    assert (f ∈ tasks files n) as Ht by (apply elem_of_app; by left).
    split_and!.
    + apply inv_assign; [done..|]. intros Hr. by destruct (job_disjoint f).
    + apply answered_map; [done..| |].
      * apply (reported_idle args); [done|]. rewrite <- Hb. by eapply inv_idle.
      * intros p f' Hp Hf'. apply (reported_not_idle args). rewrite <- Hb.
        apply (Hfirst p f' Hp). by rewrite Z.sub_0_r.
    + cbn. by rewrite Hb.
  - split_and!; [done| |done].
    destruct (in_progress c1 ts files) as (k & Hk & Hk1); [done| | | |].
    + intros k Hk. apply elem_of_app. by left.
    + intros k Hk. by eapply idleMap_None.
    + by rewrite <- (inv_mt _ _ I1).
    + apply (answered_wait _ _ k); [apply elem_of_app; by left|done..].
Qed.

Lemma reducetask_spec args c ts c' reply tm :
  inv c ts -> mtnum c = zlen files -> reducetask args c = (c', reply, tm) ->
  inv c' (option_list tm ++ ts) /\ answered c c' reply tm /\ book c' = handed args tm (book c).
Proof.
  intros I Hm H. unfold reducetask in H.
  set (c1 := if bool_decide _ then _ else _) in H.
  assert (inv c1 ts /\ book c1 = reported args (book c) /\ done c1 = done c /\
          mtnum c1 = mtnum c) as (I1 & Hb & Hd & Hm1).
  { unfold c1, reported. case_bool_decide; [|done]. split; [by apply inv_report_reduce|done]. }
  assert (forall f, f ∈ files -> book c !! f = Some 2) as Hall by (by apply (all_maps c ts)).
  assert (forall f, f ∈ files -> book c1 !! f = Some 2) as Hall1
    by (apply (all_maps c1 ts); [done|congruence]).
  rewrite (inv_r _ _ I1) in H. destruct (Z.eqb_spec (rtnum c1) n) as [E|E].
  { injection H as <- <- <-. split_and!; [apply inv_finish; done || congruence| |done].
    apply answered_exit; [|done]. cbn. intros k [Hk|Hk]%elem_of_app; [by apply Hall1|].
    by apply (proj1 (all_reduces c1 ts I1)). }
  destruct (idleReduce _ 0 n (book c1)) as [i|] eqn:Ei; injection H as <- <- <-.
  - apply idleReduce_Some in Ei as (Hi & Hs & Hfirst).
    assert (reduceKey i ∈ reduceKeys n) as Hr by (apply elem_of_reduceKeys; eauto).
    assert (reduceKey i ∈ tasks files n) as Ht by (apply elem_of_app; by right).
    split_and!.
    + apply inv_assign; [done..|congruence].
    + apply answered_reduce; [done..| |].
      * apply (reported_idle args); [done|]. rewrite <- Hb. by eapply inv_idle.
      * intros p Hp. apply (reported_not_idle args). rewrite <- Hb. by apply Hfirst.
    + cbn. by rewrite Hb.
  - split_and!; [done| |done].
    destruct (in_progress c1 ts (reduceKeys n)) as (k & Hk & Hk1); [done| | | |].
    + intros k Hk. apply elem_of_app. by right.
    + intros k (j & Hj & ->)%elem_of_reduceKeys. eapply idleReduce_None; [done| |done].
      rewrite Z.sub_0_r. done.
    + rewrite <- (inv_rt _ _ I1), zlen_reduceKeys; [done|apply Hjob].
    + apply (answered_wait _ _ k); [apply elem_of_app; by right|done..].
Qed.

Lemma handler_spec args c ts c' reply tm :
  inv c ts -> CoordinatorHandler args c = (c', reply, tm) ->
  inv c' (option_list tm ++ ts) /\ answered c c' reply tm /\ book c' = handed args tm (book c).
Proof.
  intros I H. unfold CoordinatorHandler in H. rewrite (inv_mf _ _ I) in H.
  bcase_in H; [by apply maptask_spec|]. apply reducetask_spec; [done| |done].
  pose proof (countb_le_len (completed (book c)) files). rewrite (inv_mt _ _ I) in *. lia.
Qed.

Lemma mr_step_inv s s' : inv (co s) (timers s) -> step s s' -> inv (co s') (timers s').
Proof.
  intros I [args c' reply tm H|l1 key l2 H|now id|now]; cbn.
  - by apply (handler_spec args _ _ _ _ _ I H).
  - rewrite H in I. by apply inv_timeadd.
  - unfold Heartbeat. destruct (done (co s)); by apply inv_workers.
  - by apply inv_workers.
Qed.

Lemma mr_reachable_inv s : reachable files n s -> inv (co s) (timers s).
Proof.
  unfold reachable. intros H. remember {| co := MakeCoordinator files n; timers := [] |} as s0.
  assert (inv (co s0) (timers s0)) as I by (subst; apply inv_init).
  clear Heqs0. induction H as [|s0 s1 s2 Hs _ IH]; [done|]. apply IH. by eapply mr_step_inv.
Qed.
End job.

(** ** A lone worker *)
Section lone.
Context (files : list string) (n : Z) (Hjob : job_ok files n).
Context (mapt redt : Reply -> fileSystem -> option (fileSystem * bool)) (id : Z).

(** The task a worker has in hand. *)
Definition current (w : WorkerState) : option string :=
  if String.eqb (T (w_reply w)) "map" || String.eqb (T (w_reply w)) "reduce"
  then Some (Addr (w_reply w)) else None.

(** [Good]: what makes worker [id] succeed in its tasks. *)
Context (Good : Job -> Prop).
Context (Hiter : forall j w, Good j -> j_workers j !! id = Some w -> T (w_reply w) <> "exit" ->
  exists fs', Worker_iter mapt redt w (j_files j) =
    Some (fs', Some {| a_Addr := default EmptyString (current w) |})).
Context (Hturn : forall j j', Good j -> jobEvent mapt redt (Turn id) j = Some j' -> Good j').
Context (Htimer : forall key j j', Good j -> jobEvent mapt redt (Timer key) j = Some j' ->
  co (j_state j') = co (j_state j) -> Good j').

Definition is_turn (e : JobEvent) : bool := match e with Turn _ => true | _ => false end.

(** Only worker [id] takes turns, and no timer expires before its task was reported. *)
Fixpoint timely (es : list JobEvent) (j : Job) : Prop :=
  match es with
  | [] => True
  | e :: es =>
      match e with
      | Turn i => i = id
      | Timer key => key ∈ timers (j_state j) /\
                     current (default freshWorker (j_workers j !! id)) <> Some key
      | Crash _ => False
      end /\ forall j', jobEvent mapt redt e j = Some j' -> timely es j'
  end.

(** Only the task in hand is in progress. *)
Definition lone (w : WorkerState) (c : Coordinator) : Prop :=
  forall k, book c !! k = Some 1 -> current w = Some k.

(** The calls that are still needed. *)
Definition needed (w : WorkerState) (c : Coordinator) : Z :=
  zlen (tasks files n) - countb (completed (book c)) (tasks files n)
  + (if mtnum c <? zlen files then 1 else 0)
  + (if bool_decide (book c !! default EmptyString (current w) = Some 1) then 0 else 1).

Lemma removeTimer_in key l : key ∈ l ->
  exists l1 l2, l = l1 ++ key :: l2 /\ removeTimer key l = Some (l1 ++ l2).
Proof.
  induction l as [|k l IH]; [by intros ?%not_elem_of_nil|]. cbn [removeTimer].
  destruct (String.eqb_spec k key) as [->|Hne]; [by exists [], l|].
  intros [->|(l1 & l2 & -> & ->)%IH]%elem_of_cons; [done|]. by exists (k :: l1), l2.
Qed.

(** The timer of a task that is not in progress. *)
Lemma timer_late j key w :
  let c := co (j_state j) in
  inv files n c (timers (j_state j)) -> j_workers j !! id = Some w -> lone w c ->
  key ∈ timers (j_state j) -> current w <> Some key ->
  exists l, jobEvent mapt redt (Timer key) j =
    Some {| j_state := {| co := c; timers := l |}; j_files := j_files j; j_workers := j_workers j |} /\
    inv files n c l.
Proof.
  intros c I Hw Hl Hin Hc. destruct (removeTimer_in key _ Hin) as (l1 & l2 & El & Er).
  exists (l1 ++ l2). cbn. rewrite Er. cbn. rewrite El in I. pose proof (inv_timeadd files n Hjob _ _ _ _ I) as I'.
  assert (timeadd key c = c) as E.
  { unfold timeadd. bcase; [|done]. exfalso. apply Hc, Hl. apply (inv_lookup files n c (l1 ++ key :: l2)); done. }
  fold c. rewrite E in *. by split.
Qed.

(** A worker that was told to exit does nothing, and nothing changes any more. *)
Lemma exit_turns es j w :
  inv files n (co (j_state j)) (timers (j_state j)) -> lone w (co (j_state j)) ->
  j_workers j !! id = Some w -> T (w_reply w) = "exit" -> Good j -> timely es j ->
  done (co (j_state j)) = true ->
  exists j', runJob mapt redt es j = Some j' /\ Good j' /\ done (co (j_state j')) = true.
Proof.
  revert j. induction es as [|e es IH]; intros j I Hl Hw Hx HG Ht Hd; [by exists j|].
  destruct Ht as [He Ht]. cbn [runJob]. destruct e as [i|i|key]; [subst i|done|].
  - assert (jobEvent mapt redt (Turn id) j = Some j) as E.
    { unfold jobEvent. rewrite Hw. cbn. unfold Worker_iter. rewrite Hx. by destruct j. }
    rewrite E. cbn [mbind option_bind]. apply IH; auto.
  - rewrite Hw in He. destruct He as [Hin Hc].
    destruct (timer_late j key w I Hw Hl Hin Hc) as (l & E & I'). rewrite E.
    cbn [mbind option_bind]. apply IH; auto. by eapply Htimer.
Qed.

(** What a call completes. *)
Lemma handed_count c ts c' args reply tm :
  inv files n c ts -> answered files n c c' reply tm ->
  book c' = handed args tm (book c) ->
  countb (completed (book c')) (tasks files n) =
    countb (completed (book c)) (tasks files n) +
    (if bool_decide (book c !! a_Addr args = Some 1) then 1 else 0).
Proof.
  intros I A E.
  assert (countb (completed (reported args (book c))) (tasks files n) =
    countb (completed (book c)) (tasks files n) +
    (if bool_decide (book c !! a_Addr args = Some 1) then 1 else 0)) as Hr.
  { unfold reported. case_bool_decide as H1; [|lia]. apply countb_complete; [apply Hjob| |].
    - eapply inv_task; [done|]. unfold status. by rewrite H1.
    - unfold completed, status. by rewrite H1. }
  rewrite E, <- Hr. destruct tm as [k|]; [|done]. cbn [handed]. apply countb_same. right.
  assert (book c !! k = Some 0) as Hk by (by inv A).
  unfold completed, status, reported. case_bool_decide as H1; [|by rewrite Hk].
  rewrite lookup_insert_ne; [by rewrite Hk|]. congruence.
Qed.

(** After the call the only task in progress is the one handed out. *)
Lemma handed_lone w c ts c' tm k :
  inv files n c ts -> lone w c ->
  book c' = handed {| a_Addr := default EmptyString (current w) |} tm (book c) ->
  book c' !! k = Some 1 -> tm = Some k.
Proof.
  intros I Hl E Hk. rewrite E in Hk. unfold handed, reported in Hk. cbn in Hk.
  destruct tm as [k'|]; [destruct (decide (k' = k)) as [->|Hn]; [done|]|];
    [rewrite lookup_insert_ne in Hk by done|];
    exfalso; case_bool_decide as H1.
  all: try (destruct (decide (default EmptyString (current w) = k)) as [<-|Hn'];
    [by rewrite lookup_insert_eq in Hk|rewrite lookup_insert_ne in Hk by done]).
  all: specialize (Hl k Hk); rewrite Hl in *; cbn in *; done.
Qed.

(** When the job is done no task is in progress. *)
Lemma done_lone c ts : inv files n c ts -> done c = true -> forall w', lone w' c.
Proof.
  intros I Hd w' k Hk. exfalso. assert (k ∈ tasks files n) as Ht.
  { apply (inv_task _ _ c ts); [done|]. unfold status. by rewrite Hk. }
  assert (done c = false) as E; [|congruence]. eapply inv_not_done; [apply Hjob|exact I|exact Ht|congruence].
Qed.

Lemma needed_bounds w c ts : inv files n c ts -> 0 < needed w c.
Proof.
  intros I. unfold needed. pose proof (countb_le_len (completed (book c)) (tasks files n)).
  case_bool_decide as H1; [|bcase; lia].
  assert (countb (completed (book c)) (tasks files n) <> zlen (tasks files n)).
  { rewrite countb_all. intros Ha.
    assert (status (book c) (default EmptyString (current w)) = 1) as Hs
      by (unfold status; by rewrite H1).
    assert (default EmptyString (current w) ∈ tasks files n) as Hin
      by (apply (inv_task _ _ _ _ _ I); lia).
    specialize (Ha _ Hin). unfold completed in Ha. by rewrite Hs in Ha. }
  bcase; lia.
Qed.

(** Completed tasks stay completed. *)
Lemma handed_completed c c' args reply tm k :
  answered files n c c' reply tm -> book c' = handed args tm (book c) ->
  book c !! k = Some 2 -> book c' !! k = Some 2.
Proof.
  intros A -> Hk.
  assert (reported args (book c) !! k = Some 2) as Hr.
  { unfold reported. case_bool_decide; [|done]. rewrite lookup_insert. case_decide; congruence. }
  destruct tm as [k'|]; [|done]. assert (book c !! k' = Some 0) as Hk' by (by inv A).
  cbn. rewrite lookup_insert_ne; [done|congruence].
Qed.

Lemma mtnum_mono c ts c' ts' args reply tm :
  inv files n c ts -> inv files n c' ts' -> answered files n c c' reply tm ->
  book c' = handed args tm (book c) -> mtnum c <= mtnum c'.
Proof.
  intros I I' A E. rewrite (inv_mt _ _ _ _ I), (inv_mt _ _ _ _ I'). apply countb_le.
  intros k _ Hc. unfold completed in *. apply Z.eqb_eq in Hc. apply Z.eqb_eq.
  apply (inv_lookup files n c' ts'); [done..|]. eapply handed_completed; [done..|].
  by apply (inv_lookup files n c ts).
Qed.

(** One call of the worker: it is told to exit, or less is needed afterwards. *)
Lemma lone_call w c ts c' reply tm :
  let args := {| a_Addr := default EmptyString (current w) |} in
  let w' := {| w_args := args; w_reply := decodeInto reply (w_reply w) |} in
  inv files n c ts -> lone w c -> CoordinatorHandler args c = (c', reply, tm) ->
  inv files n c' (option_list tm ++ ts) /\
  (T (w_reply w') = "exit" /\ done c' = true \/
   T (w_reply w') <> "exit" /\ lone w' c' /\ needed w' c' < needed w c).
Proof.
  intros args w' I Hl H. destruct (handler_spec files n Hjob args c ts c' reply tm I H) as (I' & A & E).
  split; [done|]. pose proof (handed_count c ts c' args reply tm I A E) as Hn.
  pose proof (mtnum_mono _ _ _ _ _ _ _ I I' A E) as Hm.
  assert (forall k, book c' !! k = Some 1 -> tm = Some k) as Ht
    by (intros k; by eapply (handed_lone w c ts c')).
  assert (forall k, tm = Some k -> book c' !! k = Some 1) as Htm.
  { intros k ->. rewrite E. apply lookup_insert_eq. }
  unfold needed. rewrite Hn. clear Hn E.
  destruct A as [i f Hf Hi Hb _|i Hi Ha Hb _|Ha Hd|k _ Hk Hd|Hlt Ha Hd];
    [right|right|left; by split|by specialize (Ht k Hk)|right]; (split; [done|]).
  - assert (f <> EmptyString) as Hne.
    { intros ->. destruct Hjob as (_ & _ & Hno). apply Hno. by eapply list_elem_of_lookup_2. }
    assert (current w' = Some f) as Hcur.
    { unfold current, w', decodeInto. cbn. by rewrite (proj2 (String.eqb_neq _ _) Hne). }
    split; [intros k Hk; rewrite Hcur; by apply Ht|].
    rewrite Hcur. cbn [default from_option]. rewrite (bool_decide_eq_true_2 _ (Htm f eq_refl)).
    subst args. cbn [a_Addr]. repeat bcase; lia.
  - assert (current w' = Some (reduceKey i)) as Hcur by done.
    split; [intros k Hk; rewrite Hcur; by apply Ht|].
    rewrite Hcur. cbn [default from_option].
    rewrite (bool_decide_eq_true_2 _ (Htm (reduceKey i) eq_refl)).
    subst args. cbn [a_Addr]. repeat bcase; lia.
  - split; [intros k Hk; by specialize (Ht k Hk)|].
    apply (all_maps files n c' _ I') in Ha. subst args. cbn [a_Addr]. repeat bcase; lia.
Qed.

Lemma lone_run es j w :
  inv files n (co (j_state j)) (timers (j_state j)) -> j_workers j !! id = Some w ->
  lone w (co (j_state j)) -> T (w_reply w) <> "exit" -> Good j -> timely es j ->
  exists j', runJob mapt redt es j = Some j' /\ Good j' /\
    (needed w (co (j_state j)) <= countb is_turn es -> done (co (j_state j')) = true).
Proof.
  revert j w. induction es as [|e es IH]; intros j w I Hw Hl Hx HG Ht.
  { exists j. split; [done|]. split; [done|]. pose proof (needed_bounds w _ _ I). cbn. lia. }
  destruct Ht as [He Ht]. cbn [runJob countb]. destruct e as [i|i|key]; [subst i|done|].
  - destruct (Hiter j w HG Hw Hx) as [fs' Ei].
    destruct (CoordinatorHandler {| a_Addr := default EmptyString (current w) |} (co (j_state j)))
      as [[c' reply] tm] eqn:E.
    assert (jobEvent mapt redt (Turn id) j = Some
      {| j_state := {| co := c'; timers := option_list tm ++ timers (j_state j) |}; j_files := fs';
         j_workers := <[id := {| w_args := {| a_Addr := default EmptyString (current w) |};
                                 w_reply := decodeInto reply (w_reply w) |}]> (j_workers j) |}) as Ej.
    { unfold jobEvent. rewrite Hw. cbn [default from_option Datatypes.id]. rewrite Ei.
      cbn [mbind option_bind]. by rewrite E. }
    rewrite Ej. cbn [mbind option_bind]. specialize (Ht _ Ej). apply Hturn in Ej; [|done].
    destruct (lone_call w _ _ c' reply tm I Hl E) as (I' & [[Hx' Hd]|(Hx' & Hl' & Hn)]).
    + match type of Ht with timely _ ?x => destruct (exit_turns es x _ I' (done_lone _ _ I' Hd _)
        (lookup_insert_eq _ _ _) Hx' Ej Ht Hd) as (j' & Hr & Hg & Hd') end.
      by exists j'.
    + match type of Ht with timely _ ?x => destruct (IH x _ I'
        (lookup_insert_eq _ _ _) Hl' Hx' Ej Ht) as (j' & Hr & Hg & Hd) end. exists j'.
      split; [done|]. split; [done|]. cbn [is_turn]. cbn in Hd. intros Hle. apply Hd. cbn in Hn. lia.
  - rewrite Hw in He. destruct He as [Hin Hc].
    destruct (timer_late j key w I Hw Hl Hin Hc) as (l & E & I'). rewrite E.
    cbn [mbind option_bind is_turn]. specialize (Ht _ E).
    apply Htimer in E; [|done|done].
    match type of Ht with timely _ ?x => destruct (IH x w I' Hw Hl Hx E Ht) as (j' & Hr & Hg & Hd) end.
    by exists j'.
Qed.
End lone.

(** ** Theorems *)

(** C39: the coordinator's bookkeeping, for a job whose input names are distinct, not empty
    and none of them like that of a reduce task (otherwise [mtnum] counts names and not
    tasks: finding on coordinator.go:43) and any sequence of requests, timeouts and
    heartbeats: [mtnum] and [rtnum] are the numbers of completed map and reduce tasks, no
    reduce task is touched before all map tasks are completed, the job is declared done only
    when every task is completed, and every task in progress has a timer running that will
    make it available again, so none is ever lost. *)
Theorem coordinator_invariant files n s :
  job_ok files n -> reachable files n s ->
  mtnum (co s) = countb (completed (book (co s))) files /\
  rtnum (co s) = countb (completed (book (co s))) (reduceKeys n) /\
  (forall k, k ∈ reduceKeys n -> status (book (co s)) k <> 0 ->
     forall f, f ∈ files -> book (co s) !! f = Some 2) /\
  (done (co s) = true -> forall k, k ∈ tasks files n -> book (co s) !! k = Some 2) /\
  (forall k, status (book (co s)) k = 1 -> k ∈ timers s).
Proof.
  intros Hj Hr. pose proof (mr_reachable_inv files n Hj s Hr) as I. split_and!; try apply I.
  - intros k Hk Hs. apply (all_maps files n _ _ I). by eapply inv_phase.
  - intros [Hm Hn]%(inv_done _ _ _ _ I) k [Hk|Hk]%elem_of_app.
    + by apply (proj1 (all_maps files n _ _ I)).
    + by apply (proj1 (all_reduces files n Hj _ _ I)).
Qed.

(** C19: what an answer of the coordinator means, for a job whose input names are distinct,
    not empty and none of them like that of a reduce task (with the same file listed twice
    the map phase never ends: finding on coordinator.go:43).  A task is handed out only
    while it is idle (the first idle map task with its position and the number of reduce
    tasks; the first idle reduce task, and only after all map tasks) and is then in progress
    under a fresh timer; "exit" is answered only when every task is completed; "wait" only
    when some task is in progress, or when the last map task has just been reported.
    Nothing else changes: the reported task, if it was in progress, becomes completed. *)
Theorem handler_answers files n s args c' reply tm :
  job_ok files n -> reachable files n s ->
  CoordinatorHandler args (co s) = (c', reply, tm) ->
  answered files n (co s) c' reply tm /\ book c' = handed args tm (book (co s)).
Proof.
  intros Hj Hr H. pose proof (mr_reachable_inv files n Hj s Hr) as I.
  by destruct (handler_spec files n Hj args _ _ _ _ _ I H) as (_ & ? & ?).
Qed.

(** C38: the job terminates, for a job whose input names are distinct, not empty and none of
    them like that of a reduce task (see the finding on coordinator.go:43).  Start in any
    reachable state whose timers have all expired (every other worker may have died with
    tasks in hand) and let one worker take turns that succeed in their tasks, each before
    the timer of its hand-out expires; the timers may expire at any time after that.
    Nothing goes wrong, and once the worker has had as many turns as there are tasks left,
    plus two, the coordinator is [done]. *)
Theorem lone_worker_finishes files n s mapt redt fs id es :
  let j0 := {| j_state := s; j_files := fs; j_workers := <[id := freshWorker]> ∅ |} in
  job_ok files n -> reachable files n s -> timers s = [] ->
  (forall reply fs, exists fs', mapt reply fs = Some (fs', true)) ->
  (forall reply fs, exists fs', redt reply fs = Some (fs', true)) ->
  timely mapt redt id es j0 ->
  exists j, runJob mapt redt es j0 = Some j /\
    (zlen files + n - mtnum (co s) - rtnum (co s) + 2 <= countb is_turn es ->
     done (co (j_state j)) = true).
Proof.
  intros j0 Hj Hr Ht Hm Hd Hes. pose proof (mr_reachable_inv files n Hj s Hr) as I.
  destruct s as [c ts]. cbn in Ht, I. subst ts. unfold j0 in *.
  assert (needed files n freshWorker c <= zlen files + n - mtnum c - rtnum c + 2) as Hn.
  { unfold needed, tasks. rewrite zlen_app, countb_app, (zlen_reduceKeys n) by apply Hj.
    rewrite <- (inv_mt _ _ _ _ I), <- (inv_rt _ _ _ _ I). repeat bcase; lia. }
  destruct (lone_run files n Hj mapt redt id (fun _ => True)) with
    (es := es) (w := freshWorker)
    (j := {| j_state := {| co := c; timers := [] |}; j_files := fs; j_workers := <[id := freshWorker]> ∅ |})
    as (j & Hrun & _ & Hdone); try done.
  - intros j w _ _ Hx. unfold Worker_iter, current.
    bcase; [destruct (Hm (w_reply w) (j_files j)) as [fs' ->]; eauto|].
    bcase; [destruct (Hd (w_reply w) (j_files j)) as [fs' ->]; eauto|].
    cbn. bcase; [eauto|]. apply String.eqb_neq in Hx. rewrite Hx. eauto.
  - apply lookup_insert_eq.
  - intros k Hk. cbn in Hk. exfalso. assert (status (book c) k = 1) as Hs by (unfold status; by rewrite Hk).
    apply (inv_timer _ _ _ _ I) in Hs. by inv Hs.
  - exists j. split; [exact Hrun|]. intros Hle. apply Hdone. cbn in *. lia.
Qed.

(** ** A concrete job: two files, one reduce task *)
Module MrDemo.
Definition mapf (_ content : string) : list KeyValue := [ {| Key := content; Value := "1" |} ].
Definition reducef (_ : string) (vs : list string) : string := pretty (length vs).
Definition names : list string := ["a"; "b"].
Definition fs0 : fileSystem := <["a" := "x"]> (<["b" := "y"]> ∅).
Definition job0 : Job := startJob names 1 fs0.
#[export] Instance sort : KVSort := merge_sortKV.
Definition run (es : list JobEvent) : option Job :=
  runJob (MrWorker.maptask mapf None) (MrWorker.reducetask reducef false) es job0.

(** Worker 1 takes the first file and dies; worker 2 does the second file, waits, and
    gets the first file after the timeout. *)
Definition schedule : list JobEvent :=
  [Turn 1; Turn 2; Turn 2; Timer "a"; Turn 2; Turn 2; Turn 2; Turn 2].

Lemma job_ok0 : job_ok names 1.
Proof.
  split_and!; [lia| |].
  - apply (bool_decide_unpack _). by vm_compute.
  - apply (bool_decide_unpack _). by vm_compute.
Qed.

(** Two requests in: both files are being processed. *)
Definition c1 : Coordinator :=
  (CoordinatorHandler {| a_Addr := EmptyString |} (MakeCoordinator names 1)).1.1.
Lemma demo_reach1 : reachable names 1 {| co := c1; timers := ["a"] |}.
Proof.
  apply rtc_once.
  refine (step_request {| co := MakeCoordinator names 1; timers := [] |}
    {| a_Addr := EmptyString |} c1
    {| T := "map"; N := 1; Addr := "a"; Index := 0; MapIndex := 0 |} (Some "a") _).
  by vm_compute.
Qed.
(** ... and the timer of the first has expired. *)
Definition c2 : Coordinator := timeadd "a" c1.
Lemma demo_reach2 : reachable names 1 {| co := c2; timers := [] |}.
Proof.
  eapply rtc_r; [exact demo_reach1|]. exact (step_timer {| co := c1; timers := ["a"] |} [] "a" [] eq_refl).
Qed.
End MrDemo.

(** A worker can write the output of one map task over another's.  [Worker] reuses
    its [Reply] and gob does not transmit zero fields, so a worker that did file 1 and
    then gets file 0 (after the timeout of a dead worker) keeps [MapIndex] 1: it
    overwrites the intermediate file of file 1.  The coordinator declares the job
    done and the word of the second file is missing from the output; without the
    crash the same job outputs both words. *)
Theorem stale_map_index :
  (forall old f N, MapIndex (decodeInto {| T := "map"; N := N; Addr := f; Index := 0;
                                          MapIndex := 0 |} old) = MapIndex old) /\
  (exists j, MrDemo.run MrDemo.schedule = Some j /\ done (co (j_state j)) = true /\
     j_files j !! mrOut 0 = Some ("x 1" +:+ newline)) /\
  (exists j, MrDemo.run (replicate 6 (Turn 1)) = Some j /\ done (co (j_state j)) = true /\
     j_files j !! mrOut 0 = Some ("x 1" +:+ newline +:+ "y 1" +:+ newline)).
Proof.
  split; [done|]. split.
  - assert (exists j, MrDemo.run MrDemo.schedule = Some j) as [j Hj]
      by (eexists; vm_compute; reflexivity).
    exists j. split; [done|]. vm_compute in Hj. injection Hj as <-. by vm_compute.
  - assert (exists j, MrDemo.run (replicate 6 (Turn 1)) = Some j) as [j Hj]
      by (eexists; vm_compute; reflexivity).
    exists j. split; [done|]. vm_compute in Hj. injection Hj as <-. by vm_compute.
Qed.

Lemma coordinator_invariant_witness :
  status (book MrDemo.c1) "a" = 1 /\ mtnum MrDemo.c1 = 0 /\ "a" ∈ ["a"].
Proof.
  destruct (coordinator_invariant _ _ _ MrDemo.job_ok0 MrDemo.demo_reach1) as (H1 & _ & _ & _ & H2).
  assert (status (book MrDemo.c1) "a" = 1) as E by (vm_compute; reflexivity).
  split; [exact E|]. split; [exact (eq_trans H1 eq_refl)|exact (H2 "a" E)].
Defined.

Lemma handler_answers_witness :
  exists c', CoordinatorHandler {| a_Addr := EmptyString |} MrDemo.c2 =
    (c', {| T := "map"; N := 1; Addr := "a"; Index := 0; MapIndex := 0 |}, Some "a") /\
    book c' = handed {| a_Addr := EmptyString |} (Some "a") (book MrDemo.c2).
Proof.
  eexists. split; [vm_compute; reflexivity|].
  eapply (handler_answers MrDemo.names 1 _ _ _ _ _ MrDemo.job_ok0 MrDemo.demo_reach2).
  vm_compute. reflexivity.
Defined.

(** The timer of the first task expires after the task was reported. *)
Lemma lone_worker_finishes_witness :
  exists j,
    runJob (fun _ fs => Some (fs, true)) (fun _ fs => Some (fs, true))
      [Turn 7; Turn 7; Timer "a"; Turn 7; Turn 7; Turn 7]
      {| j_state := {| co := MrDemo.c2; timers := [] |}; j_files := ∅;
         j_workers := <[7 := freshWorker]> ∅ |} = Some j /\
    done (co (j_state j)) = true.
Proof.
  destruct (lone_worker_finishes MrDemo.names 1 {| co := MrDemo.c2; timers := [] |}
    (fun _ fs => Some (fs, true)) (fun _ fs => Some (fs, true)) ∅ 7
    [Turn 7; Turn 7; Timer "a"; Turn 7; Turn 7; Turn 7]
    MrDemo.job_ok0 MrDemo.demo_reach2 eq_refl) as (j & Hr & Hd).
  - intros reply fs. exists fs. reflexivity.
  - intros reply fs. exists fs. reflexivity.
  - repeat lazymatch goal with
           | |- timely _ _ _ (Timer _ :: _) _ =>
               split; [split; [apply (bool_decide_unpack _); vm_compute; reflexivity|vm_compute; congruence]|];
               intros j Hj; vm_compute in Hj; injection Hj as <-
           | |- timely _ _ _ (_ :: _) _ =>
               split; [reflexivity|]; intros j Hj; vm_compute in Hj; injection Hj as <-
           | |- timely _ _ _ [] _ => exact I
           end.
  - exists j. split; [exact Hr|]. apply Hd. vm_compute. congruence.
Defined.
