(* ===== verification/MrStrings.v ===== *)
(** * The text of the intermediate and output files

    Lemmas on [cut] and [rawLines]: a line written with its newline is read back,
    also when more follows; decimal numbers have no dash and no slash; which file
    names a pattern of [filepath.Glob] matches. *)
From stdpp Require Import pretty sorting.
From S2P Require Import Prelude MrCoordinator MrWorker.

#[local] Arguments String.append !_ _ / : simpl nomatch.

(** ** Strings *)
Lemma str_app_assoc (a b c : string) : a +:+ (b +:+ c) = (a +:+ b) +:+ c.
Proof. induction a as [|x a IH]; cbn; [done|]. by f_equal. Qed.
Lemma str_app_nil (a : string) : a +:+ EmptyString = a.
Proof. induction a as [|x a IH]; cbn; [done|]. by f_equal. Qed.
Lemma str_length_app (a b : string) :
  String.length (a +:+ b) = (String.length a + String.length b)%nat.
Proof. induction a as [|x a IH]; cbn; [done|]. by f_equal. Qed.

Lemma str_app_inj_len (a a' b b' : string) :
  String.length a = String.length a' -> a +:+ b = a' +:+ b' -> a = a' /\ b = b'.
Proof.
  revert a'. induction a as [|x a IH]; intros [|y a']; cbn; try done.
  intros [= Hl] [= -> E]. by destruct (IH a' Hl E) as [-> ->].
Qed.

Lemma prefix_app (a b : string) : String.prefix a (a +:+ b) = true.
Proof.
  induction a as [|x a IH]; cbn; [by destruct b|].
  destruct (Ascii.ascii_dec x x); [done|done].
Qed.

Lemma prefix_inv (a s : string) : String.prefix a s = true -> exists b, s = a +:+ b.
Proof.
  revert s. induction a as [|x a IH]; intros [|y s]; cbn; try done; [by eexists|by eexists|].
  destruct (Ascii.ascii_dec x y) as [->|]; [|done]. intros [b ->]%IH. by exists b.
Qed.

Lemma substring_all (s : string) : String.substring 0 (String.length s) s = s.
Proof. induction s as [|x s IH]; cbn; [done|]. by rewrite IH. Qed.

Lemma substring_app_0 (a b : string) : String.substring 0 (String.length a) (a +:+ b) = a.
Proof. induction a as [|x a IH]; cbn; [by destruct b|]. by rewrite IH. Qed.

Lemma substring_app (a b c : string) :
  String.substring (String.length a) (String.length b) (a +:+ b +:+ c) = b.
Proof. induction a as [|x a IH]; cbn; [apply substring_app_0|done]. Qed.

Lemma substring_app_end (a b : string) :
  String.substring (String.length a) (String.length b) (a +:+ b) = b.
Proof. pose proof (substring_app a b EmptyString) as H. by rewrite str_app_nil in H. Qed.

(** A string is its first [n] bytes and the rest. *)
Lemma substring_split n (s : string) : (n <= String.length s)%nat ->
  s = String.substring 0 n s +:+ String.substring n (String.length s - n) s.
Proof.
  revert s. induction n as [|n IH]; intros s Hn.
  - rewrite Nat.sub_0_r, substring_all. by destruct s.
  - destruct s as [|x s]; cbn in *; [lia|]. f_equal. apply IH. lia.
Qed.

(** ** [cut] *)
Lemma cut_found sep (a b : string) c :
  cut sep a = None -> Ascii.nat_of_ascii c = sep -> cut sep (a +:+ String c b) = Some (a, b).
Proof.
  intros Ha Hc. induction a as [|x a IH]; cbn in *.
  - by rewrite (proj2 (Nat.eqb_eq _ _) Hc).
  - destruct (Nat.eqb _ _); [done|]. destruct (cut sep a) as [[]|]; [done|]. by rewrite IH.
Qed.

Lemma cut_None_app sep (a b : string) :
  cut sep (a +:+ b) = None <-> cut sep a = None /\ cut sep b = None.
Proof.
  induction a as [|x a IH]; cbn; [naive_solver|]. destruct (Nat.eqb _ _); [naive_solver|].
  destruct (cut sep (a +:+ b)) as [[]|], (cut sep a) as [[]|]; cbn; naive_solver.
Qed.

Lemma cut_inv sep (s l r : string) :
  cut sep s = Some (l, r) -> cut sep l = None /\ exists c, Ascii.nat_of_ascii c = sep /\ s = l +:+ String c r.
Proof.
  revert l. induction s as [|x s IH]; intros l; cbn; [done|].
  destruct (Nat.eqb_spec (Ascii.nat_of_ascii x) sep) as [Hx|Hx].
  - intros [= <- <-]. split; [done|]. by exists x.
  - destruct (cut sep s) as [[a b]|]; [|done]. intros [= <- <-].
    destruct (IH a eq_refl) as (Ha & c & Hc & ->). cbn. rewrite (proj2 (Nat.eqb_neq _ _) Hx), Ha.
    split; [done|]. by exists c.
Qed.

(** ** Lines *)
Definition endsLine (s : string) : Prop := exists s', s = s' +:+ newline.

Lemma cut_newline (l rest : string) :
  cut 10 l = None -> cut 10 (l +:+ newline +:+ rest) = Some (l, rest).
Proof. intros Hl. by apply cut_found. Qed.

Lemma cut_shorter sep (s l rest : string) :
  cut sep s = Some (l, rest) -> (String.length rest < String.length s)%nat.
Proof.
  revert l. induction s as [|x s IH]; intros l; cbn; [done|].
  destruct (Nat.eqb _ _); [intros [= _ ->]; lia|].
  destruct (cut sep s) as [[a b]|]; [|done]. intros [= _ ->]. specialize (IH _ eq_refl). lia.
Qed.

Lemma scanLines_more (s : string) fuel fuel' :
  (String.length s < fuel)%nat -> (String.length s < fuel')%nat ->
  scanLines fuel s = scanLines fuel' s.
Proof.
  revert s fuel'. induction fuel as [|fuel IH]; intros s fuel' H1 H2; [lia|].
  destruct fuel' as [|fuel']; [lia|]. cbn. destruct s as [|x s]; [done|].
  destruct (cut 10 (String x s)) as [[l rest]|] eqn:E; [|done]. f_equal.
  apply cut_shorter in E. apply IH; lia.
Qed.

Lemma rawLines_line (l rest : string) :
  cut 10 l = None -> rawLines (l +:+ newline +:+ rest) = l :: rawLines rest.
Proof.
  intros Hl. unfold rawLines at 1. cbn [scanLines]. rewrite cut_newline by done.
  destruct (l +:+ newline +:+ rest) eqn:E; [by destruct l|].
  f_equal. rewrite <- E. apply scanLines_more; [|lia]. rewrite !str_length_app. cbn. lia.
Qed.

Lemma rawLines_app (a b : string) : endsLine a -> rawLines (a +:+ b) = rawLines a ++ rawLines b.
Proof.
  intros [a' ->]. remember (String.length a') as n eqn:Hn. revert a' Hn.
  induction n as [n IH] using (well_founded_induction lt_wf). intros a' Hn.
  destruct (cut 10 a') as [[l r]|] eqn:E.
  - apply cut_inv in E as (Hl & c & Hc & ->).
    assert (String c r = newline +:+ r) as ->.
    { cbn. f_equal. by rewrite <- (Ascii.ascii_nat_embedding c), Hc. }
    rewrite <- !str_app_assoc. rewrite (rawLines_line l (r +:+ newline +:+ b)) by done.
    rewrite (rawLines_line l (r +:+ newline)) by done. rewrite <- app_comm_cons. f_equal.
    rewrite str_app_assoc. eapply IH; [|done]. rewrite Hn, !str_length_app. cbn. lia.
  - rewrite <- str_app_assoc. rewrite rawLines_line by done.
    pose proof (rawLines_line a' EmptyString E) as Hr. rewrite str_app_nil in Hr. by rewrite Hr.
Qed.

(** ** Numbers in names *)
Lemma pretty_go_cut sep x (s : string) :
  (sep < 48)%nat -> cut sep s = None -> cut sep (pretty_N_go x s) = None.
Proof.
  intros Hsep. revert s. induction (N.lt_wf_0 x) as [x _ IH]; intros s Hs.
  destruct (N.eq_dec x 0) as [->|Hx]; [by rewrite pretty_N_go_0|].
  rewrite pretty_N_go_step by lia. apply IH; [apply N.div_lt; lia|].
  assert (48 <= Ascii.nat_of_ascii (pretty_N_char (x `mod` 10)))%nat as Hc.
  { unfold pretty_N_char. repeat case_match; vm_compute; lia. }
  cbn. rewrite (proj2 (Nat.eqb_neq _ _)) by lia. by rewrite Hs.
Qed.

(** Decimal numbers have no dash (45) and no slash (47). *)
Lemma cut_pretty sep (i : Z) : (sep < 48)%nat -> 0 <= i -> cut sep (pretty i) = None.
Proof.
  intros Hsep Hi. destruct i as [|p|p]; [|by apply pretty_go_cut|lia].
  cbn. destruct sep as [|sep]; [done|]. repeat (destruct sep as [|sep]; [done|]). lia.
Qed.

(** The part after the last dash is determined. *)
Lemma last_dash (x y a b : string) :
  cut 45 a = None -> cut 45 b = None -> x +:+ "-" +:+ a = y +:+ "-" +:+ b -> a = b.
Proof.
  intros Ha Hb. revert y. induction x as [|c x IH]; intros [|d y]; cbn; intros E.
  - by injection E.
  - injection E as _ E. rewrite E in Ha. apply cut_None_app in Ha as [_ Ha]. done.
  - injection E as _ E. rewrite <- E in Hb. apply cut_None_app in Hb as [_ Hb]. done.
  - injection E as _ E. by eapply IH.
Qed.

Lemma mapResult_app m i :
  mapResult m i = "map-result-" +:+ pretty m +:+ ("-" +:+ pretty i).
Proof. done. Qed.

(** Two numbers with a dash between them. *)
Lemma dashed_inj (a b a' b' : Z) :
  0 <= a -> 0 <= b -> 0 <= a' -> 0 <= b' ->
  pretty a +:+ "-" +:+ pretty b = pretty a' +:+ "-" +:+ pretty b' -> a = a' /\ b = b'.
Proof.
  intros Ha Hb Ha' Hb' E.
  pose proof (last_dash _ _ _ _ (cut_pretty 45 b ltac:(lia) Hb) (cut_pretty 45 b' ltac:(lia) Hb') E) as Eb.
  split; [|by apply (inj pretty)].
  assert (forall c d : Z, 0 <= c -> cut 45 (pretty c +:+ "-" +:+ pretty d) = Some (pretty c, pretty d)) as Hc.
  { intros c d Hz. apply (cut_found 45 (pretty c) (pretty d) (Ascii.ascii_of_nat 45)); [apply cut_pretty; lia|done]. }
  pose proof (f_equal (cut 45) E) as Ec. rewrite !Hc in Ec by done. injection Ec as Ec _.
  by apply (inj pretty).
Qed.

Lemma mapResult_inj m i m' i' :
  0 <= m -> 0 <= i -> 0 <= m' -> 0 <= i' -> mapResult m i = mapResult m' i' -> m = m' /\ i = i'.
Proof.
  intros Hm Hi Hm' Hi' E. rewrite !mapResult_app in E.
  apply (String.app_inj "map-result-") in E. by apply dashed_inj.
Qed.

(** ** Which intermediate files a reduce task reads *)
Lemma globMatch_suffix pre suf name :
  globMatch pre suf name = true -> exists x, name = x +:+ suf.
Proof.
  unfold globMatch. rewrite !andb_true_iff. intros [[[Hl _] Hs] _].
  apply String.eqb_eq in Hs. apply Nat.leb_le in Hl.
  exists (String.substring 0 (String.length name - String.length suf) name).
  rewrite <- Hs at 2.
  replace (String.length suf) with (String.length name - (String.length name - String.length suf))%nat at 3 by lia.
  apply substring_split. lia.
Qed.

Lemma globMatch_mid pre mid suf :
  cut 47 mid = None -> globMatch pre suf (pre +:+ mid +:+ suf) = true.
Proof.
  intros Hm. unfold globMatch. rewrite !str_length_app, prefix_app.
  replace (String.length pre + (String.length mid + String.length suf) - String.length suf - String.length pre)%nat
    with (String.length mid) by lia.
  rewrite substring_app, Hm.
  replace (String.length pre + (String.length mid + String.length suf) - String.length suf)%nat
    with (String.length (pre +:+ mid)) by (rewrite str_length_app; lia).
  rewrite str_app_assoc, substring_app_end, String.eqb_refl.
  rewrite (proj2 (Nat.leb_le _ _)) by lia. done.
Qed.

Lemma globMatch_mapResult m i i' : 0 <= m -> 0 <= i -> 0 <= i' ->
  globMatch "map-result-" ("-" +:+ pretty i) (mapResult m i') = true <-> i = i'.
Proof.
  intros Hm Hi Hi'. split.
  - intros [x E]%globMatch_suffix. apply (inj pretty). symmetry.
    rewrite mapResult_app, str_app_assoc in E.
    eapply (last_dash _ _ _ _ (cut_pretty 45 i' ltac:(lia) Hi') (cut_pretty 45 i ltac:(lia) Hi)), E.
  - intros <-. rewrite mapResult_app. apply globMatch_mid. apply cut_pretty; lia.
Qed.
