(* ===== verification/MrApps.v ===== *)
(** * MapReduce applications and the sequential reference (src/src/mrapps: wc.go,
    indexer.go, nocrash.go; src/src/main/mrsequential.go)

    [FieldsFunc] splits a string as the Standard Library does, rune by rune.
    [mrsequential] is what the tests compare the distributed runs with.  The table of
    letters above Latin-1 is a parameter; [sort.Strings] is a total order, so its
    result is determined. *)
From stdpp Require Import pretty sorting.
From S2P Require Import Prelude MrCoordinator MrWorker.

Module MrApps.

(** ** UTF-8, as [range] over a string decodes it *)
Definition byteAt (i : nat) (s : string) : Z :=
  match String.get i s with Some c => Z.of_N (Ascii.N_of_ascii c) | None => -1 end.
Definition inRange (lo hi b : Z) : bool := (lo <=? b) && (b <=? hi).
Definition cont (b : Z) : bool := inRange 0x80 0xBF b.

(** [utf8.RuneError] *)
Definition RuneError : Z := 0xFFFD.

(** The rune at the start of a nonempty string and its width. *)
Definition decodeRune (s : string) : Z * nat :=
  let b0 := byteAt 0 s in let b1 := byteAt 1 s in
  let b2 := byteAt 2 s in let b3 := byteAt 3 s in
  if b0 <? 0x80 then (b0, 1%nat)
  else if inRange 0xC2 0xDF b0 && cont b1 then ((b0 - 0xC0) * 64 + (b1 - 0x80), 2%nat)
  else if inRange 0xE0 0xEF b0 && cont b1 && cont b2
          && (negb (b0 =? 0xE0) || (0xA0 <=? b1)) && (negb (b0 =? 0xED) || (b1 <=? 0x9F))
  then ((b0 - 0xE0) * 4096 + (b1 - 0x80) * 64 + (b2 - 0x80), 3%nat)
  else if inRange 0xF0 0xF4 b0 && cont b1 && cont b2 && cont b3
          && (negb (b0 =? 0xF0) || (0x90 <=? b1)) && (negb (b0 =? 0xF4) || (b1 <=? 0x8F))
  then ((b0 - 0xF0) * 262144 + (b1 - 0x80) * 4096 + (b2 - 0x80) * 64 + (b3 - 0x80), 4%nat)
  else (RuneError, 1%nat).

(** [strings.FieldsFunc]; [field] is the field that has begun; [fuel] bounds the number
    of runes. *)
Fixpoint fieldsFrom (fuel : nat) (f : Z -> bool) (s : string) (field : option string) :
    list string :=
  match fuel, s with
  | S fuel, String _ _ =>
      let '(r, w) := decodeRune s in
      let bytes := String.substring 0 w s in
      let rest := String.substring w (String.length s - w) s in
      if f r then option_list field ++ fieldsFrom fuel f rest None
      else fieldsFrom fuel f rest (Some (default EmptyString field +:+ bytes))
  | _, _ => option_list field
  end.
Definition FieldsFunc (s : string) (f : Z -> bool) : list string :=
  fieldsFrom (String.length s) f s None.

Section apps.
(** [unicode.IsLetter] above Latin-1 is a table. *)
Context (letterAbove : Z -> bool).
Definition IsLetter (r : Z) : bool :=
  if r <=? 0xFF then
    inRange 65 90 r || inRange 97 122 r || (r =? 0xAA) || (r =? 0xB5) || (r =? 0xBA)
    || inRange 0xC0 0xD6 r || inRange 0xD8 0xF6 r || inRange 0xF8 0xFF r
  else letterAbove r.

(** ** Word count (wc.go) *)
Definition wc_Map (filename contents : string) : list KeyValue :=
  (fun w => {| Key := w; Value := "1" |}) <$> FieldsFunc contents (fun r => negb (IsLetter r)).
Definition wc_Reduce (key : string) (values : list string) : string :=
  pretty (Z.of_nat (length values)).

(** ** Index (indexer.go) *)
Fixpoint Join (sep : string) (l : list string) : string :=
  match l with
  | [] => EmptyString
  | [x] => x
  | x :: l => x +:+ sep +:+ Join sep l
  end.

(** [range] over the map of words: each word once, in an order [rangeOrder] that the
    language leaves open. *)
Definition indexer_Map (rangeOrder : list string -> list string) (document value : string) :
    list KeyValue :=
  let words := FieldsFunc value (fun r => negb (IsLetter r)) in
  (fun w => {| Key := w; Value := document |}) <$> rangeOrder (remove_dups words).
Definition indexer_Reduce (key : string) (values : list string) : string :=
  pretty (Z.of_nat (length values)) +:+ " " +:+ Join "," (merge_sort string_le values).
End apps.

(** ** nocrash.go *)
Definition nocrash_Map (filename contents : string) : list KeyValue :=
  [ {| Key := "a"; Value := filename |};
    {| Key := "b"; Value := pretty (Z.of_nat (String.length filename)) |};
    {| Key := "c"; Value := pretty (Z.of_nat (String.length contents)) |};
    {| Key := "d"; Value := "xyzzy" |} ].
Definition nocrash_Reduce (key : string) (values : list string) : string :=
  Join " " (merge_sort string_le values).

(** ** mrsequential.go *)

(** The loop over the input files; [None]: [log.Fatalf]. *)
Fixpoint intermediate (mapf : string -> string -> list KeyValue) (filenames : list string)
    (fs : fileSystem) : option (list KeyValue) :=
  match filenames with
  | [] => Some []
  | filename :: filenames =>
      content ← fs !! filename;
      rest ← intermediate mapf filenames fs;
      Some (mapf filename content ++ rest)
  end.

(** The files after a run; [None]: the program exits with an error. *)
Definition mrsequential `{KVSort} (mapf : string -> string -> list KeyValue)
    (reducef : string -> list string -> string) (filenames : list string) (fs : fileSystem) :
    option fileSystem :=
  if bool_decide (filenames = []) then None
  else
    kva ← intermediate mapf filenames fs;
    let kva := sortKV kva in
    Some (<["mr-out-0" := reduceGroups (length kva) reducef kva]> fs).

Example fields_example :
  FieldsFunc "the cat, the hat" (fun r => negb (IsLetter (fun _ => false) r)) = ["the"; "cat"; "the"; "hat"].
Proof. vm_compute. reflexivity. Qed.
End MrApps.
