(* ===== verification/MrFlow.v ===== *)
(** * From the input files to the output files

    The intermediate files read back give the pairs of their bucket ([readPairs_text]);
    a reduce loop over sorted pairs prints one line for every key with all values of
    the key ([groups_spec]); a key is in one bucket.  A task, with or without an I/O error,
    leaves the files [sound]; when it succeeds its output is there ([maptask_any],
    [reducetask_any]); with all outputs there, the output files have the lines of the
    output of [mrsequential]. *)
From stdpp Require Import pretty sorting.
From S2P Require Import Prelude MrCoordinator MrWorker MrStrings MrApps.
Import MrApps.
#[local] Arguments String.append !_ _ / : simpl nomatch.

(** ** Round trip of the pairs *)

Definition lineOf (kv : KeyValue) : string := Key kv +:+ tab +:+ Value kv.

(** What the format of the intermediate files can hold: no tab in the key, no newline,
    no carriage return at the end, and a line that fits into the scanner's buffer. *)
Definition clean (kv : KeyValue) : bool :=
  bool_decide (cut 9 (Key kv) = None) && bool_decide (cut 10 (lineOf kv) = None)
  && bool_decide (dropCR (lineOf kv) = lineOf kv)
  && (Z.of_nat (String.length (lineOf kv)) <? maxLine).

Definition textOf (kva : list KeyValue) : string :=
  foldr (fun kv s => lineOf kv +:+ newline +:+ s) EmptyString kva.

Lemma textOf_cons kv kva : textOf (kv :: kva) = lineOf kv +:+ newline +:+ textOf kva.
Proof. done. Qed.

Lemma textOf_lines kva : Forall clean kva -> rawLines (textOf kva) = lineOf <$> kva.
Proof.
  induction 1 as [|kv kva Hc _ IH]; [done|]. cbn [textOf foldr fmap list_fmap].
  apply Is_true_true, andb_true_iff in Hc as [[[_ Hn]%andb_true_iff _]%andb_true_iff _].
  apply bool_decide_eq_true in Hn. rewrite rawLines_line by done. f_equal. apply IH.
Qed.

Lemma parse_line kv : clean kv ->
  ('(k, v) ← cut 9 (lineOf kv); Some {| Key := k; Value := v |}) = Some kv.
Proof.
  intros Hc. apply Is_true_true, andb_true_iff in Hc as [[[Hn _]%andb_true_iff _]%andb_true_iff _].
  apply bool_decide_eq_true in Hn. unfold lineOf.
  assert (cut 9 (Key kv +:+ tab +:+ Value kv) = Some (Key kv, Value kv)) as -> by (by apply cut_found).
  by destruct kv.
Qed.

(** Reading what was written. *)
Lemma parse_text kva : Forall clean kva ->
  tooLong (textOf kva) = false /\
  omap (fun l => '(k, v) ← cut 9 l; Some {| Key := k; Value := v |}) (lines (textOf kva)) = kva.
Proof.
  intros HF. unfold tooLong, lines. rewrite textOf_lines by done.
  induction HF as [|kv kva Hc HF [IH1 IH2]]; [done|]. cbn [fmap list_fmap existsb].
  pose proof (parse_line kv Hc) as Hp. pose proof Hc as Hc'.
  apply Is_true_true, andb_true_iff in Hc' as [[_ Hd]%andb_true_iff Hl].
  apply bool_decide_eq_true in Hd. apply Z.ltb_lt in Hl. split.
  - rewrite IH1, orb_false_r. apply Z.leb_gt. lia.
  - cbn [omap list_omap]. rewrite Hd, Hp. f_equal. exact IH2.
Qed.

(** ** Buckets *)
Definition bucket (N : Z) (i : Z) (kva : list KeyValue) : list KeyValue :=
  filter (fun kv => ihash (Key kv) mod N = i) kva.

Lemma writeBuckets_spec N kva tmp : 0 < N -> zlen tmp = N ->
  exists tmp', writeBuckets N kva tmp = Some tmp' /\ zlen tmp' = N /\
    forall i s, zget tmp i = Some s -> zget tmp' i = Some (s +:+ textOf (bucket N i kva)).
Proof.
  intros HN. revert tmp. induction kva as [|kv kva IH]; intros tmp Hl; cbn [writeBuckets].
  { exists tmp. split_and!; [done|done|]. intros i s Hs. by rewrite str_app_nil. }
  rewrite (proj2 (Z.eqb_neq _ _)) by lia.
  assert (0 <= ihash (Key kv) mod N < zlen tmp) as Hb by (rewrite Hl; by apply Z.mod_pos_bound).
  destruct (zget_in_range tmp _ Hb) as [old Hold]. rewrite Hold. cbn [mbind option_bind].
  rewrite zset_Some by done. cbn [mbind option_bind]. set (idx := ihash (Key kv) mod N) in *.
  destruct (IH (<[Z.to_nat idx := old +:+ Key kv +:+ tab +:+ Value kv +:+ newline]> tmp))
    as (tmp' & Hw & Hl' & Hs'); [by rewrite zlen_insert|].
  exists tmp'. split_and!; [done|done|]. intros i s Hi. unfold bucket.
  destruct (decide (idx = i)) as [<-|Hne].
  - rewrite filter_cons_True by done. rewrite Hi in Hold. injection Hold as ->.
    rewrite (Hs' idx (old +:+ Key kv +:+ tab +:+ Value kv +:+ newline)).
    + f_equal. rewrite textOf_cons. unfold lineOf. by rewrite !str_app_assoc.
    + rewrite zget_insert, decide_True; [done|]. unfold zlen in Hb. lia.
  - rewrite filter_cons_False by done. apply Hs'. rewrite zget_insert, decide_False; [done|lia].
Qed.

(** ** Groups *)
Definition valuesOf (k : string) (kva : list KeyValue) : list string :=
  Value <$> filter (fun kv => Key kv = k) kva.
Definition outLine (reducef : string -> list string -> string) (k : string) (vs : list string) : string :=
  k +:+ " " +:+ reducef k vs +:+ newline.
Definition unlines (l : list string) : string := foldr String.append EmptyString l.

Lemma valuesOf_app k a b : valuesOf k (a ++ b) = valuesOf k a ++ valuesOf k b.
Proof. unfold valuesOf. by rewrite filter_app, fmap_app. Qed.

Lemma valuesOf_same k kva : (forall kv, kv ∈ kva -> Key kv = k) -> valuesOf k kva = Value <$> kva.
Proof.
  intros H. unfold valuesOf. f_equal. induction kva as [|kv kva IH]; [done|].
  rewrite filter_cons_True by (apply H; constructor). f_equal. apply IH. intros. apply H. by constructor.
Qed.

Lemma valuesOf_none k kva : (forall kv, kv ∈ kva -> Key kv <> k) -> valuesOf k kva = [].
Proof.
  intros H. unfold valuesOf. induction kva as [|kv kva IH]; [done|].
  rewrite filter_cons_False by (apply H; constructor). apply IH. intros. apply H. by constructor.
Qed.

Lemma valuesOf_perm k a b : a ≡ₚ b -> valuesOf k a ≡ₚ valuesOf k b.
Proof. intros H. unfold valuesOf. by rewrite H. Qed.

Lemma sameKey_spec key kva vs rest :
  sameKey key kva = (vs, rest) -> exists same, kva = same ++ rest /\
    (forall kv, kv ∈ same -> Key kv = key) /\ vs = Value <$> same /\
    (forall kv r, rest = kv :: r -> Key kv <> key).
Proof.
  revert vs. induction kva as [|kv kva IH]; intros vs; cbn.
  - intros [= <- <-]. exists []. split_and!; [done| |done|done]. intros kv Hkv. inv Hkv.
  - destruct (String.eqb_spec (Key kv) key) as [Hk|Hk].
    + destruct (sameKey key kva) as [vs' rest']. intros [= <- <-].
      destruct (IH vs' eq_refl) as (same & -> & Hs & -> & Hr). exists (kv :: same).
      split_and!; [done| |done|done]. intros x [->|Hx]%elem_of_cons; [done|by apply Hs].
    + intros [= <- <-]. exists []. split_and!; [done| |done|by intros x r' [= -> ->]].
      intros x Hx. inv Hx.
Qed.

Lemma string_le_antisym a b : string_le a b -> string_le b a -> a = b.
Proof. intros H1 H2. apply (anti_symm String.le); by apply Is_true_true. Qed.
#[export] Instance key_le_trans : Transitive key_le.
Proof.
  intros a b c H1 H2. unfold key_le, string_le in *. apply Is_true_true in H1, H2.
  apply Is_true_true. change (String.le (Key a) (Key c)). by transitivity (Key b).
Qed.
#[export] Instance key_le_total : Total key_le.
Proof.
  intros a b. unfold key_le, string_le. rewrite <- !Is_true_true. apply (total String.le).
Qed.

(** After the values of a key the key does not come again. *)
Lemma sorted_rest kv same rest :
  StronglySorted key_le (kv :: same ++ rest) ->
  (forall x r, rest = x :: r -> Key x <> Key kv) -> forall x, x ∈ rest -> Key x <> Key kv.
Proof.
  intros Hs Hr x Hx Ek. destruct rest as [|y rest]; [inv Hx|].
  apply elem_of_cons in Hx as [->|Hx]; [by apply (Hr y rest)|].
  apply (Hr y rest eq_refl). apply string_le_antisym.
  - rewrite <- Ek. change (key_le y x). rewrite app_comm_cons in Hs. apply StronglySorted_app_1_r in Hs.
    eapply (StronglySorted_app_1_elem_of _ [y] rest); [exact Hs|constructor|done].
  - change (key_le kv y).
    eapply (StronglySorted_app_1_elem_of _ [kv] (same ++ y :: rest)); [exact Hs|constructor|set_solver].
Qed.

(** The loop prints one line for every key, with all its values. *)
Lemma groups_spec reducef fuel kva : StronglySorted key_le kva -> (length kva <= fuel)%nat ->
  exists ks, NoDup ks /\ (forall k, k ∈ ks <-> k ∈ Key <$> kva) /\
    reduceGroups fuel reducef kva = unlines ((fun k => outLine reducef k (valuesOf k kva)) <$> ks).
Proof.
  revert kva. induction fuel as [|fuel IH]; intros kva Hs Hf.
  { destruct kva; [|cbn in Hf; lia]. exists []. by split_and!; [constructor| |]. }
  destruct kva as [|kv kva]; [exists []; by split_and!; [constructor| |]|]. cbn [reduceGroups].
  destruct (sameKey (Key kv) kva) as [vs rest] eqn:Esame.
  destruct (sameKey_spec _ _ _ _ Esame) as (same & -> & Hsame & -> & Hrest).
  pose proof (sorted_rest _ _ _ Hs Hrest) as Hno.
  destruct (IH rest) as (ks & HN & Hks & Hg).
  { rewrite app_comm_cons in Hs. by apply StronglySorted_app_1_r in Hs. }
  { cbn in Hf. rewrite length_app in Hf. lia. }
  assert (Key kv ∉ ks) as Hnk.
  { rewrite Hks. intros (x & E & Hx)%list_elem_of_fmap. by apply (Hno x Hx). }
  exists (Key kv :: ks). split_and!.
  - by constructor.
  - intros k. cbn. rewrite !elem_of_cons, fmap_app, elem_of_app, Hks. split; [naive_solver|].
    intros [?|[(x & -> & Hx)%list_elem_of_fmap|?]]; [by left| |by right]. left. by apply Hsame.
  - rewrite Hg. cbn [fmap list_fmap unlines foldr]. unfold outLine at 2.
    assert (valuesOf (Key kv) (kv :: same ++ rest) = Value kv :: (Value <$> same)) as ->.
    { change (kv :: same ++ rest) with ([kv] ++ same ++ rest).
      rewrite !valuesOf_app, (valuesOf_same _ [kv]), (valuesOf_same _ same), (valuesOf_none _ rest) by
        (done || by intros ? ->%list_elem_of_singleton). by rewrite app_nil_r. }
    rewrite !str_app_assoc. f_equal. f_equal. apply list_fmap_ext. intros _ k Hk%list_elem_of_lookup_2.
    f_equal. change (kv :: same ++ rest) with ([kv] ++ same ++ rest).
    assert (k <> Key kv) as Hne by (by intros ->).
    rewrite !valuesOf_app, (valuesOf_none _ [kv]), (valuesOf_none _ same); [done| |].
    + intros x Hx%Hsame. congruence.
    + intros x ->%list_elem_of_singleton. congruence.
Qed.

Lemma rawLines_unlines l : Forall endsLine l -> rawLines (unlines l) = l ≫= rawLines.
Proof.
  induction 1 as [|s l Hs _ IH]; [done|]. cbn [unlines foldr]. rewrite rawLines_app by done.
  rewrite bind_cons. by f_equal.
Qed.

Lemma outLine_ends reducef k vs : endsLine (outLine reducef k vs).
Proof. exists (k +:+ " " +:+ reducef k vs). unfold outLine. by rewrite !str_app_assoc. Qed.

(** ** The files of a run *)

(** [map-result-*] *)
Definition isMapResult (name : string) : Prop := String.prefix "map-result-" name = true.

Lemma mapResult_is m i : isMapResult (mapResult m i).
Proof. apply prefix_app. Qed.
Lemma mrOut_not i : ~ isMapResult (mrOut i).
Proof. done. Qed.

Lemma renameAll_spec m i tmp fs : 0 <= m -> 0 <= i ->
  (forall j s, zget tmp j = Some s -> renameAll m i tmp fs !! mapResult m (i + j) = Some s) /\
  (forall name, (forall j, i <= j < i + zlen tmp -> name <> mapResult m j) ->
     renameAll m i tmp fs !! name = fs !! name).
Proof.
  intros Hm. revert i fs. induction tmp as [|x tmp IH]; intros i fs Hi; cbn [renameAll].
  { split; [|done]. intros j s [_ Hj]%zget_Some_lookup. by rewrite lookup_nil in Hj. }
  destruct (IH (i + 1) (<[mapResult m i := x]> fs)) as [IH1 IH2]; [lia|]. split.
  - intros j s Hj. pose proof (zget_Some_lt _ _ _ Hj) as Hr. destruct (decide (j = 0)) as [->|Hne].
    + rewrite IH2.
      * rewrite Z.add_0_r, lookup_insert_eq. by apply zget_Some_lookup in Hj as [_ Hj].
      * intros j Hj' [_ E]%mapResult_inj; lia.
    + replace (i + j) with (i + 1 + (j - 1)) by lia. apply IH1.
      apply zget_Some_lookup in Hj as [Hj0 Hj]. apply zget_Some_lookup. split; [lia|].
      replace (Z.to_nat j) with (S (Z.to_nat (j - 1))) in Hj by lia. done.
  - intros name Hn. rewrite zlen_cons in Hn. pose proof (zlen_nonneg tmp). rewrite IH2.
    + apply lookup_insert_ne. intros E. apply (Hn i); [lia|done].
    + intros j Hj. apply Hn. lia.
Qed.

Section flow.
Context (mapf : string -> string -> list KeyValue).
Context (names : list string) (N : Z) (fs0 : fileSystem).
Context (HN : 0 < N).
(** The directory has the inputs and no intermediate files. *)
Context (Hinputs : forall name, name ∈ names -> is_Some (fs0 !! name)).
Context (Hfresh : forall name, is_Some (fs0 !! name) -> ~ isMapResult name).
Context (Hout : forall name i, name ∈ names -> 0 <= i < N -> name <> mrOut i).

(** The pairs of the [m]th file, and all pairs. *)
Definition pairsOf (m : Z) : list KeyValue :=
  let name := default EmptyString (zget names m) in
  mapf name (default EmptyString (fs0 !! name)).
Definition allPairs : list KeyValue := zrange (length names) ≫= pairsOf.

(** What the [m]th map task writes for reduce task [i]. *)
Definition textAt (m i : Z) : string := textOf (bucket N i (pairsOf m)).

(** The inputs are there, and no intermediate file has other contents than these. *)
Record sound (fs : fileSystem) : Prop := {
  so_inputs name : name ∈ names -> fs !! name = fs0 !! name;
  so_only name : is_Some (fs !! name) -> isMapResult name ->
    exists m i, 0 <= m < zlen names /\ 0 <= i < N /\ name = mapResult m i /\
      fs !! name = Some (textAt m i);
}.

Definition map_done (fs : fileSystem) (m : Z) : Prop :=
  forall i, 0 <= i < N -> fs !! mapResult m i = Some (textAt m i).

Lemma sound_start : sound fs0.
Proof using Hfresh. split; [done|]. intros name Hs Hp. by apply Hfresh in Hs. Qed.

(** Some of the files of a map task come into place. *)
Lemma rename_any m tmp fs :
  0 <= m < zlen names -> zlen tmp <= N -> (forall j s, zget tmp j = Some s -> s = textAt m j) ->
  sound fs ->
  let fs' := renameAll m 0 tmp fs in
  sound fs' /\ (forall m', 0 <= m' < zlen names -> map_done fs m' -> map_done fs' m') /\
  (forall i, fs' !! mrOut i = fs !! mrOut i) /\ (zlen tmp = N -> map_done fs' m).
Proof using Hinputs Hfresh.
  intros Hm Hl Htmp [S1 S2] fs'. destruct (renameAll_spec m 0 tmp fs) as [R1 R2]; [lia|lia|].
  assert (forall j, 0 <= j < zlen tmp -> fs' !! mapResult m j = Some (textAt m j)) as Hnew.
  { intros j Hj. destruct (zget_in_range tmp j Hj) as [s Hs]. rewrite <- (Htmp _ _ Hs). by apply (R1 j). }
  assert (forall name, ~ isMapResult name -> fs' !! name = fs !! name) as Hold.
  { intros name Hn. apply R2. intros j _ ->. apply Hn, mapResult_is. }
  assert (forall m' j, 0 <= m' -> 0 <= j -> fs' !! mapResult m' j = fs !! mapResult m' j \/
    m' = m /\ 0 <= j < zlen tmp) as Hother.
  { intros m' j Hm' Hj. destruct (decide (m' = m /\ 0 <= j < zlen tmp)) as [?|Hne]; [by right|left].
    apply R2. intros j' Hj' [E1 E2]%mapResult_inj; lia. }
  split_and!.
  - split.
    + intros name Hn. rewrite Hold; [by apply S1|]. by apply Hfresh, Hinputs.
    + intros name Hs Hr. destruct (decide (Exists (fun j => name = mapResult m j) (zrange (length tmp)))) as [He|He].
      * apply Exists_exists in He as (j & Hj%elem_of_zrange & ->). exists m, j.
        unfold zlen in Hl. split_and!; try lia; try done. apply Hnew. unfold zlen. lia.
      * assert (fs' !! name = fs !! name) as E.
        { apply R2. intros j Hj ->. apply He, Exists_exists. exists j.
          split; [apply elem_of_zrange; unfold zlen in Hj; lia|done]. }
        rewrite E in Hs |- *. by apply S2.
  - intros m' Hm' Hd i Hi. destruct (Hother m' i) as [->|[-> Hj]]; [lia|lia|by apply Hd|by apply Hnew].
  - intros i. by apply Hold.
  - intros E i Hi. apply Hnew. lia.
Qed.

(** A map task, with or without an I/O error. *)
Lemma maptask_any fault m name reply fs :
  sound fs -> zget names m = Some name -> Mr.Addr reply = name -> Mr.MapIndex reply = m -> Mr.N reply = N ->
  exists fs' ok, maptask mapf fault reply fs = Some (fs', ok) /\ sound fs' /\
    (forall m', 0 <= m' < zlen names -> map_done fs m' -> map_done fs' m') /\
    (forall i, fs' !! mrOut i = fs !! mrOut i) /\ (ok = true -> map_done fs' m) /\
    (fault = None -> ok = true).
Proof using HN Hinputs Hfresh.
  intros HS Hname Ea Em En. pose proof (zget_Some_lt _ _ _ Hname) as Hm.
  assert (name ∈ names) as Hin by (apply zget_Some_lookup in Hname as [_ ?]; by eapply list_elem_of_lookup_2).
  destruct (Hinputs name Hin) as [content Hc].
  unfold maptask. rewrite Ea, Em, En, (so_inputs _ HS _ Hin), Hc. rewrite (proj2 (Z.ltb_ge _ _)) by lia.
  destruct (writeBuckets_spec N (mapf name content) (replicate (Z.to_nat N) EmptyString) HN)
    as (tmp & Hw & Hl & Hb); [unfold zlen; rewrite length_replicate; lia|].
  rewrite Hw. cbn [mbind option_bind].
  assert (pairsOf m = mapf name content) as Hp by (unfold pairsOf; by rewrite Hname; cbn; rewrite Hc).
  assert (forall j s, zget tmp j = Some s -> s = textAt m j) as Htmp.
  { intros j s Hs. pose proof (zget_Some_lt _ _ _ Hs) as Hj.
    assert (zget tmp j = Some (textOf (bucket N j (mapf name content)))) as E.
    { apply (Hb j EmptyString). apply zget_Some_lookup. split; [lia|].
      apply lookup_replicate. split; [done|lia]. }
    rewrite E in Hs. injection Hs as <-. unfold textAt. by rewrite Hp. }
  destruct fault as [k|].
  - destruct (rename_any m (take k tmp) fs Hm) as (? & ? & ? & _); [| |done|eexists _, false; by split_and!].
    + unfold zlen in *. rewrite length_take. lia.
    + intros j s [Hj Hs]%zget_Some_lookup. apply lookup_take_Some in Hs as [Hs _].
      apply Htmp. by apply zget_Some_lookup.
  - destruct (rename_any m tmp fs Hm) as (? & ? & ? & ?); [lia|done|done|].
    eexists _, true. split; [done|]. split_and!; auto.
Qed.

(** What a reduce task reads. *)
Definition inputOf (fs : fileSystem) (name : string) : list KeyValue :=
  omap (fun l => '(k, v) ← cut 9 l; Some {| Key := k; Value := v |})
    (lines (default EmptyString (fs !! name))).

Lemma readPairs_spec l fs :
  (forall name, name ∈ l -> tooLong (default EmptyString (fs !! name)) = false) ->
  readPairs l fs = Some (l ≫= inputOf fs).
Proof.
  induction l as [|name l IH]; intros Hl; [done|]. cbn [readPairs].
  rewrite Hl by constructor. rewrite IH by (intros; apply Hl; by constructor). done.
Qed.

Lemma elem_of_Glob pre suf (fs : fileSystem) name :
  name ∈ Glob pre suf fs <-> is_Some (fs !! name) /\ globMatch pre suf name = true.
Proof.
  unfold Glob. rewrite merge_sort_Permutation, list_elem_of_filter, list_elem_of_fmap. split.
  - intros [Hg ([k v] & -> & Hk%elem_of_map_to_list)]. cbn in *. by rewrite Hk.
  - intros [[v Hv] Hg]. split; [done|]. exists (name, v). by rewrite elem_of_map_to_list.
Qed.

Lemma NoDup_Glob pre suf (fs : fileSystem) : NoDup (Glob pre suf fs).
Proof.
  unfold Glob. rewrite merge_sort_Permutation. apply NoDup_filter, NoDup_fst_map_to_list.
Qed.

Lemma globMatch_prefix pre suf name : globMatch pre suf name = true -> String.prefix pre name = true.
Proof. unfold globMatch. rewrite !andb_true_iff. naive_solver. Qed.

(** The files of bucket [i]. *)
Definition resultsOf (i : Z) : list string := (fun m => mapResult m i) <$> zrange (length names).

(** All map tasks have left their files. *)
Definition ready (fs : fileSystem) : Prop :=
  sound fs /\ forall m, 0 <= m < zlen names -> map_done fs m.

Lemma Glob_results fs i : ready fs -> 0 <= i < N ->
  Glob "map-result-" ("-" +:+ pretty i) fs ≡ₚ resultsOf i.
Proof using HN.
  intros [[_ R2] R1] Hi. apply NoDup_Permutation; [apply NoDup_Glob| |].
  - unfold resultsOf. apply NoDup_alt. intros a b x Ha Hb.
    apply list_lookup_fmap_Some in Ha as (m & -> & Ha). apply list_lookup_fmap_Some in Hb as (m' & E & Hb).
    assert (m ∈ zrange (length names)) as Hm%elem_of_zrange by (by eapply list_elem_of_lookup_2).
    assert (m' ∈ zrange (length names)) as Hm'%elem_of_zrange by (by eapply list_elem_of_lookup_2).
    apply mapResult_inj in E as [<- _]; [|lia..].
    eapply NoDup_lookup; [apply NoDup_zrange|done|done].
  - intros name. rewrite elem_of_Glob. unfold resultsOf. rewrite list_elem_of_fmap. split.
    + intros [Hs Hg]. destruct (R2 name Hs (globMatch_prefix _ _ _ Hg)) as (m & i' & Hm & Hi' & -> & _).
      apply globMatch_mapResult in Hg; [|lia..]. subst i'. exists m. split; [done|].
      apply elem_of_zrange. unfold zlen in Hm. lia.
    + intros (m & -> & Hm%elem_of_zrange).
      rewrite (R1 m) by (unfold zlen; lia). split; [done|]. apply globMatch_mapResult; lia.
Qed.

Lemma filter_bind {A B} (P : B -> Prop) `{!forall x, Decision (P x)} (f : A -> list B) l :
  filter P (l ≫= f) = l ≫= (fun x => filter P (f x)).
Proof. induction l as [|x l IH]; [done|]. by rewrite !bind_cons, filter_app, IH. Qed.

Context (Hclean : Forall clean allPairs).

Lemma bucket_clean m i : 0 <= m < zlen names -> Forall clean (bucket N i (pairsOf m)).
Proof using Hclean.
  intros Hm. apply Forall_forall. intros kv [_ Hkv]%list_elem_of_filter.
  rewrite Forall_forall in Hclean. apply Hclean. unfold allPairs. apply list_elem_of_bind. exists m.
  split; [done|]. apply elem_of_zrange. unfold zlen in Hm. lia.
Qed.

(** The pairs of the bucket, in some order. *)
Lemma read_bucket fs i : ready fs -> 0 <= i < N ->
  exists kva, readPairs (Glob "map-result-" ("-" +:+ pretty i) fs) fs = Some kva /\
    kva ≡ₚ bucket N i allPairs.
Proof using HN Hclean.
  intros HR Hi. pose proof (Glob_results fs i HR Hi) as HG.
  assert (forall m, 0 <= m < zlen names -> tooLong (default EmptyString (fs !! mapResult m i)) = false /\
    inputOf fs (mapResult m i) = bucket N i (pairsOf m)) as Hm.
  { intros m Hm. unfold inputOf. rewrite (proj2 HR m Hm i Hi). cbn [default from_option Datatypes.id].
    apply parse_text. by apply bucket_clean. }
  exists (Glob "map-result-" ("-" +:+ pretty i) fs ≫= inputOf fs). split.
  - apply readPairs_spec. intros name. rewrite HG. intros (m & -> & Hz%elem_of_zrange)%list_elem_of_fmap.
    apply Hm. unfold zlen. lia.
  - rewrite HG. unfold resultsOf, bucket, allPairs. rewrite filter_bind, list_fmap_bind.
    apply reflexive_eq, Forall_bind_ext, Forall_forall. intros m Hz%elem_of_zrange. apply Hm. unfold zlen. lia.
Qed.

Lemma allPairs_names :
  allPairs = names ≫= (fun name => mapf name (default EmptyString (fs0 !! name))).
Proof.
  set (f name := mapf name (default EmptyString (fs0 !! name))). unfold allPairs.
  transitivity (((fun m => default EmptyString (zget names m)) <$> zrange (length names)) ≫= f).
  - by rewrite list_fmap_bind.
  - f_equal. apply list_eq. intros k. unfold zrange. rewrite !list_lookup_fmap.
    destruct (decide (k < length names)%nat) as [Hk|Hk].
    + rewrite lookup_seq_lt by done. cbn. destruct (lookup_lt_is_Some_2 _ _ Hk) as [x Hx].
      rewrite Hx. f_equal. assert (zget names (Z.of_nat k) = Some x) as ->; [|done].
      apply zget_Some_lookup. rewrite Nat2Z.id. split; [lia|done].
    + rewrite lookup_seq_ge by lia. cbn. symmetry. apply lookup_ge_None. lia.
Qed.

Lemma intermediate_all : intermediate mapf names fs0 = Some allPairs.
Proof using Hinputs.
  rewrite allPairs_names. clear -Hinputs. induction names as [|name l IH]; [done|]. cbn [intermediate].
  destruct (Hinputs name) as [c Hc]; [constructor|]. rewrite Hc. cbn [mbind option_bind].
  rewrite IH by (intros; apply Hinputs; by constructor). cbn [mbind option_bind].
  by rewrite bind_cons, Hc.
Qed.

(** ** The reduce tasks *)
Context (reducef : string -> list string -> string).
(** The order of the values does not matter. *)
Context (Hred : forall k vs vs', vs ≡ₚ vs' -> reducef k vs = reducef k vs').

Lemma bind_perm {A B} (f g : A -> list B) l :
  (forall x, x ∈ l -> f x ≡ₚ g x) -> l ≫= f ≡ₚ l ≫= g.
Proof.
  induction l as [|x l IH]; intros Hfg; [done|]. rewrite !bind_cons.
  apply Permutation_app; [apply Hfg; constructor|]. apply IH. intros. apply Hfg. by constructor.
Qed.

Lemma bind_bind {A B C} (f : A -> list B) (g : B -> list C) l :
  (l ≫= f) ≫= g = l ≫= (fun x => f x ≫= g).
Proof. induction l as [|x l IH]; [done|]. by rewrite !bind_cons, bind_app, IH. Qed.

Definition keyLines (kva : list KeyValue) (k : string) : list string :=
  rawLines (outLine reducef k (valuesOf k kva)).

(** The lines of the output for pairs in any order. *)
Lemma reduce_lines `{KVSort} `{!KVSortLaws} kva B : kva ≡ₚ B ->
  rawLines (reduceGroups (length (sortKV kva)) reducef (sortKV kva)) ≡ₚ
    remove_dups (Key <$> B) ≫= keyLines B.
Proof using Hred.
  intros HB. assert (sortKV kva ≡ₚ B) as HP by (by rewrite (sortKV_perm kva)).
  destruct (groups_spec reducef (length (sortKV kva)) (sortKV kva)) as (ks & HNk & Hks & ->).
  { apply Sorted_StronglySorted; [apply _|apply sortKV_sorted]. }
  { done. }
  rewrite rawLines_unlines.
  - rewrite list_fmap_bind. assert (ks ≡ₚ remove_dups (Key <$> B)) as <-.
    { apply NoDup_Permutation; [done|apply NoDup_remove_dups|]. intros k.
      rewrite Hks, elem_of_remove_dups. by rewrite HP. }
    apply bind_perm. intros k _. unfold keyLines, outLine, compose.
    by rewrite (Hred k _ _ (valuesOf_perm k _ _ HP)).
  - apply Forall_fmap, Forall_true. intros k. apply outLine_ends.
Qed.

Lemma valuesOf_bucket k i l : ihash k mod N = i -> valuesOf k (bucket N i l) = valuesOf k l.
Proof.
  intros Hi. unfold valuesOf, bucket. f_equal. induction l as [|kv l IH]; [done|].
  destruct (decide (ihash (Key kv) mod N = i)) as [Hb|Hb].
  - rewrite (filter_cons_True (fun kv => ihash (Key kv) mod N = i)) by done.
    destruct (decide (Key kv = k)).
    + rewrite !(filter_cons_True (fun kv => Key kv = k)) by done. by rewrite IH.
    + rewrite !(filter_cons_False (fun kv => Key kv = k)) by done. by rewrite IH.
  - rewrite (filter_cons_False (fun kv => ihash (Key kv) mod N = i)) by done.
    rewrite (filter_cons_False (fun kv => Key kv = k)) by (by intros <-). by rewrite IH.
Qed.

Definition keysOf (i : Z) : list string := remove_dups (Key <$> bucket N i allPairs).

Lemma elem_of_keysOf i k : k ∈ keysOf i <-> k ∈ Key <$> allPairs /\ ihash k mod N = i.
Proof.
  unfold keysOf, bucket. rewrite elem_of_remove_dups, !list_elem_of_fmap.
  setoid_rewrite list_elem_of_filter. naive_solver.
Qed.

(** The keys of the buckets are all keys. *)
Lemma keys_partition : zrange (Z.to_nat N) ≫= keysOf ≡ₚ remove_dups (Key <$> allPairs).
Proof using HN.
  apply NoDup_Permutation; [apply NoDup_bind|apply NoDup_remove_dups|].
  - intros i j k _ _ [_ <-]%elem_of_keysOf [_ <-]%elem_of_keysOf. done.
  - intros i _. apply NoDup_remove_dups.
  - apply NoDup_zrange.
  - intros k. rewrite list_elem_of_bind, elem_of_remove_dups. split.
    + intros (i & [? _]%elem_of_keysOf & _). done.
    + intros Hk. exists (ihash k mod N). split; [by apply elem_of_keysOf|].
      apply elem_of_zrange. pose proof (Z.mod_pos_bound (ihash k) N HN). lia.
Qed.

Definition reduce_done (fs : fileSystem) (i : Z) : Prop :=
  exists text, fs !! mrOut i = Some text /\ rawLines text ≡ₚ keysOf i ≫= keyLines allPairs.

Context (Hne : names <> []).

Lemma mrOut_inj i j : mrOut i = mrOut j -> i = j.
Proof. intros E. by apply (String.app_inj "mr-out-"), (inj pretty) in E. Qed.

(** A reduce task after all map tasks, with or without an I/O error. *)
Lemma reducetask_any `{KVSort} `{!KVSortLaws} fault i reply fs :
  ready fs -> 0 <= i < N -> Mr.Index reply = i ->
  exists fs' ok, reducetask reducef fault reply fs = Some (fs', ok) /\ sound fs' /\
    (forall m, 0 <= m < zlen names -> map_done fs m -> map_done fs' m) /\
    (forall j, reduce_done fs j -> reduce_done fs' j) /\ (ok = true -> reduce_done fs' i) /\
    (fault = false -> ok = true).
Proof using HN Hinputs Hfresh Hclean Hred Hne Hout.
  intros HR Hi Ei. destruct (read_bucket fs i HR Hi) as (kva & Hread & Hkva).
  unfold reducetask. rewrite Ei, Hread.
  rewrite bool_decide_eq_false_2.
  2: { intros E. pose proof (Glob_results fs i HR Hi) as HG. rewrite E in HG.
       apply Permutation_length in HG. unfold resultsOf in HG. rewrite length_fmap, length_zrange in HG.
       by destruct names. }
  pose proof HR as [[S1 S2] _].
  destruct fault; [eexists _, false; split_and!; [done|apply HR|by auto|by auto|done|done]|].
  eexists _, true. split; [done|].
  assert (rawLines (reduceGroups (length (sortKV kva)) reducef (sortKV kva)) ≡ₚ
    keysOf i ≫= keyLines allPairs) as Hlines.
  { rewrite (reduce_lines kva _ Hkva). fold (keysOf i). apply bind_perm.
    intros k [_ Hk]%elem_of_keysOf. unfold keyLines. by rewrite valuesOf_bucket. }
  split_and!.
  - split.
    + intros name Hn. rewrite lookup_insert_ne; [by apply S1|]. intros E. by apply (Hout name i).
    + intros name Hs Hp. assert (mrOut i <> name) as Hno by (intros <-; by apply mrOut_not in Hp).
      rewrite lookup_insert_ne in Hs |- * by done. by apply S2.
  - intros m Hm Hd j Hj. rewrite lookup_insert_ne by done. by apply Hd.
  - intros j (text & Ht & Hl). unfold reduce_done. rewrite lookup_insert. case_decide as E; [|eauto].
    apply mrOut_inj in E as <-. by eexists.
  - intros _. unfold reduce_done. rewrite lookup_insert_eq. by eexists.
  - done.
Qed.

(** The lines of all output files. *)
Definition outputs (fs : fileSystem) : list string :=
  zrange (Z.to_nat N) ≫= (fun i => rawLines (default EmptyString (fs !! mrOut i))).

Lemma reduced_lines fs : (forall i, 0 <= i < N -> reduce_done fs i) ->
  outputs fs ≡ₚ remove_dups (Key <$> allPairs) ≫= keyLines allPairs.
Proof using HN.
  intros HD. unfold outputs. rewrite <- keys_partition, bind_bind. apply bind_perm. intros i Hi.
  destruct (HD i) as (text & -> & Ht); [apply elem_of_zrange in Hi; lia|]. done.
Qed.

(** [cleanup] leaves the output alone. *)
Lemma outputs_cleanup fs : outputs (cleanup fs) = outputs fs.
Proof.
  unfold outputs. apply Forall_bind_ext, Forall_forall. intros i _. do 2 f_equal.
  unfold cleanup. apply option_eq. intros text. rewrite map_lookup_filter_Some.
  split; [by intros []|]. intros Ht. split; [done|].
  apply not_true_iff_false. cbn. by intros Hg%globMatch_prefix%mrOut_not.
Qed.

(** What [mrsequential] writes. *)
Lemma sequential_lines `{KVSort} `{!KVSortLaws} :
  exists fs out, mrsequential mapf reducef names fs0 = Some fs /\ fs !! "mr-out-0" = Some out /\
    rawLines out ≡ₚ remove_dups (Key <$> allPairs) ≫= keyLines allPairs.
Proof using Hinputs Hred Hne.
  unfold mrsequential. rewrite bool_decide_eq_false_2 by done. rewrite intermediate_all. cbn [mbind option_bind].
  eexists _, _. split; [done|]. split; [by rewrite lookup_insert_eq|]. by apply reduce_lines.
Qed.
End flow.

(** C32: whatever pairs the format can hold are written into the buckets by hash of the
    key, and reading a bucket's file back gives exactly the pairs of the bucket, in
    order: nothing is lost, merged or split by the text format. *)
Theorem buckets_roundtrip N kva :
  0 < N -> Forall clean kva ->
  exists tmp, writeBuckets N kva (replicate (Z.to_nat N) EmptyString) = Some tmp /\
    forall i, 0 <= i < N -> exists s, zget tmp i = Some s /\
      forall name fs, fs !! name = Some s -> readPairs [name] fs = Some (bucket N i kva).
Proof.
  intros HN Hc.
  destruct (writeBuckets_spec N kva (replicate (Z.to_nat N) EmptyString) HN) as (tmp & Hw & Hl & Hs).
  { unfold zlen. rewrite length_replicate. lia. }
  exists tmp. split; [done|]. intros i Hi. exists (textOf (bucket N i kva)). split.
  { rewrite (Hs i EmptyString); [done|]. apply zget_Some_lookup. split; [lia|].
    apply lookup_replicate. split; [done|lia]. }
  intros name fs Hf. assert (Forall clean (bucket N i kva)) as Hcb.
  { rewrite Forall_forall in *. intros kv [_ Hkv]%list_elem_of_filter. by apply Hc. }
  destruct (parse_text _ Hcb) as [Hlong Hp].
  rewrite readPairs_spec.
  - rewrite bind_cons, app_nil_r. unfold inputOf. rewrite Hf. cbn [default from_option Datatypes.id].
    by rewrite Hp.
  - intros x ->%list_elem_of_singleton. by rewrite Hf.
Qed.

Lemma buckets_roundtrip_witness :
  let kva := [ {| Key := "a"; Value := "1" |}; {| Key := "b"; Value := "x y" |}; {| Key := "a"; Value := "" |} ] in
  0 < 3 /\ Forall clean kva /\
  exists tmp, writeBuckets 3 kva (replicate (Z.to_nat 3) EmptyString) = Some tmp /\
    forall i, 0 <= i < 3 -> exists s, zget tmp i = Some s /\
      forall name fs, fs !! name = Some s -> readPairs [name] fs = Some (bucket 3 i kva).
Proof.
  intros kva. assert (Forall clean kva) as Hc by
    (do 3 (apply Forall_cons_2; [by apply Is_true_true; vm_compute|]); by apply Forall_nil_2).
  split; [lia|]. split; [exact Hc|]. exact (buckets_roundtrip 3 kva ltac:(lia) Hc).
Defined.
