(* ===== verification/MrJob.v ===== *)
(** * A MapReduce job from start to end

    A coordinator with its timers, any number of workers that share the files, tasks that
    fail in the middle, workers that die and are replaced.  A task that is completed has
    left its output, and the output stays; when the coordinator is done, the output files
    have the lines of the output of [mrsequential].

    This needs that the workers are in step: the index a worker works with is the index
    of the task it was given.  Since [Worker] reuses its [Reply] (MrProps,
    [stale_map_index]), this fails when a worker that had another task of a phase is given
    the first one, which only happens after the first one has timed out
    ([calm_reached]). *)
From stdpp Require Import pretty sorting.
From S2P Require Import Prelude MrCoordinator MrWorker MrProps MrStrings MrApps MrFlow.
Import MrApps.
#[local] Arguments String.append !_ _ / : simpl nomatch.

(** ** Runs *)
Section runs.
Context `{KVSort} (mapf : string -> string -> list KeyValue).
Context (reducef : string -> list string -> string).
Context (names : list string) (N : Z) (fs0 : fileSystem).
Implicit Types (j : Job) (w : WorkerState) (c : Mr.Coordinator).

(** An event with the tasks of mr/worker.go; [fault] is an I/O error in the task, after
    that many renames. *)
Definition taskEvent (fault : option nat) (e : JobEvent) j : option Job :=
  jobEvent (maptask mapf fault) (reducetask reducef (bool_decide (is_Some fault))) e j.

(** The index in the worker's [Reply] is that of its task. *)
Definition told w : Prop :=
  (Mr.T (w_reply w) = "map"%string -> zget names (Mr.MapIndex (w_reply w)) = Some (Mr.Addr (w_reply w))) /\
  (Mr.T (w_reply w) = "reduce"%string -> Mr.Addr (w_reply w) = Mr.reduceKey (Mr.Index (w_reply w))).
Definition in_step j : Prop := forall id w, j_workers j !! id = Some w -> told w.

Definition newWorker (id : Z) j : Job :=
  {| j_state := j_state j; j_files := j_files j; j_workers := <[id := freshWorker]> (j_workers j) |}.

(** The runs of a job in which all workers are in step. *)
Inductive reached : Job -> Prop :=
  | reached_start : reached (startJob names N fs0)
  | reached_worker id j : reached j -> j_workers j !! id = None -> reached (newWorker id j)
  | reached_event fault e j j' : reached j -> taskEvent fault e j = Some j' -> in_step j' -> reached j'.

(** While the first task of a phase is idle, the worker has not had any task of it. *)
Definition first_ok c w : Prop :=
  (forall f, zget names 0 = Some f -> Mr.status (Mr.book c) f = 0 -> Mr.MapIndex (w_reply w) = 0) /\
  (Mr.status (Mr.book c) (Mr.reduceKey 0) = 0 -> Mr.Index (w_reply w) = 0).

(** The runs in which the first task of a phase never times out. *)
Definition first_task (key : string) : Prop := zget names 0 = Some key \/ key = Mr.reduceKey 0.
Inductive calm : Job -> Prop :=
  | calm_start : calm (startJob names N fs0)
  | calm_worker id j : calm j -> j_workers j !! id = None -> calm (newWorker id j)
  | calm_event fault e j j' : calm j -> taskEvent fault e j = Some j' ->
      (forall key, e = Timer key -> first_task key -> Mr.status (Mr.book (Mr.co (j_state j))) key <> 1) ->
      calm j'.

(** The same as a function on a list of events. *)
Definition calmEvent (e : JobEvent) j : bool :=
  match e with
  | Timer key => negb (bool_decide (zget names 0 = Some key) || String.eqb key (Mr.reduceKey 0))
                 || negb (Mr.status (Mr.book (Mr.co (j_state j))) key =? 1)
  | _ => true
  end.
Fixpoint calmRun (es : list (option nat * JobEvent)) j : option Job :=
  match es with
  | [] => Some j
  | (fault, e) :: es => if calmEvent e j then j ← taskEvent fault e j; calmRun es j else None
  end.

Lemma calmRun_calm es j j' : calm j -> calmRun es j = Some j' -> calm j'.
Proof.
  revert j. induction es as [|[fault e] es IH]; intros j Hj; cbn [calmRun]; [by intros [= <-]|].
  destruct (calmEvent e j) eqn:Ec; [|done]. destruct (taskEvent fault e j) as [j1|] eqn:Ee; [|done].
  cbn [mbind option_bind]. apply IH. eapply calm_event; [done..|]. intros key -> Hf Hs.
  cbn in Ec. rewrite Hs in Ec. destruct Hf as [Hf| ->].
  - by rewrite bool_decide_eq_true_2 in Ec.
  - by rewrite String.eqb_refl, orb_true_r in Ec.
Qed.
End runs.

(** ** What is in place *)
Section job.
Context `{KVSort} `{!KVSortLaws} (mapf : string -> string -> list KeyValue).
Context (reducef : string -> list string -> string).
Context (names : list string) (N : Z) (fs0 : fileSystem).
Context (Hjob : job_ok names N) (Hne : names <> []) (HN : 0 < N).
Context (Hinputs : forall name, name ∈ names -> is_Some (fs0 !! name)).
Context (Hfresh : forall name, is_Some (fs0 !! name) -> ~ isMapResult name).
Context (Hout : forall name i, name ∈ names -> 0 <= i < N -> name <> mrOut i).
Context (Hclean : Forall clean (allPairs mapf names fs0)).
Context (Hred : forall k vs vs', vs ≡ₚ vs' -> reducef k vs = reducef k vs').
Implicit Types (j : Job) (w : WorkerState) (c : Mr.Coordinator).

Notation told := (told names).
Notation in_step := (in_step names).
Notation event := (taskEvent mapf reducef).
Notation reach := (reached mapf reducef names N fs0).
Notation sound := (sound mapf names N fs0).
Notation map_done := (map_done mapf names N fs0).
Notation reduce_done := (reduce_done mapf names N fs0 reducef).
Notation first_ok := (first_ok names).

(** What a worker holds. *)
Definition holds (b : gmap string Z) w : Prop :=
  told w /\ (Mr.T (w_reply w) = "map"%string -> Mr.N (w_reply w) = N) /\
  (Mr.T (w_reply w) = "reduce"%string -> 0 <= Mr.Index (w_reply w) < N /\ forall f, f ∈ names -> b !! f = Some 2).

Record job_inv j : Prop := {
  ji_co : inv names N (Mr.co (j_state j)) (Mr.timers (j_state j));
  ji_sound : sound (j_files j);
  ji_maps m f : zget names m = Some f -> Mr.book (Mr.co (j_state j)) !! f = Some 2 ->
    map_done (j_files j) m;
  ji_reduces i : 0 <= i < N -> Mr.book (Mr.co (j_state j)) !! Mr.reduceKey i = Some 2 ->
    reduce_done (j_files j) i;
  ji_workers id w : j_workers j !! id = Some w -> holds (Mr.book (Mr.co (j_state j))) w;
}.

Lemma zget_names m f : zget names m = Some f -> 0 <= m < zlen names /\ f ∈ names.
Proof.
  intros Hm. split; [by eapply zget_Some_lt|]. apply zget_Some_lookup in Hm as [_ ?].
  by eapply list_elem_of_lookup_2.
Qed.

Lemma names_inj m m' f : zget names m = Some f -> zget names m' = Some f -> m = m'.
Proof using Hjob.
  intros [? Ha1]%zget_Some_lookup [? Ha2]%zget_Some_lookup.
  pose proof (NoDup_lookup _ _ _ _ (job_files names N Hjob) Ha1 Ha2). lia.
Qed.

Lemma name_not_reduce f i : f ∈ names -> 0 <= i < N -> f <> Mr.reduceKey i.
Proof using Hjob.
  intros Hf Hi ->. apply (job_disjoint names N Hjob (Mr.reduceKey i)); [done|].
  apply elem_of_reduceKeys. by exists i.
Qed.

(** The task reported in a call has left its output. *)
Definition delivered (fs : fileSystem) (addr : string) : Prop :=
  (forall m, zget names m = Some addr -> map_done fs m) /\
  (forall i, 0 <= i < N -> addr = Mr.reduceKey i -> reduce_done fs i).

Lemma delivered_nothing fs : delivered fs EmptyString.
Proof using Hjob.
  split; [|done]. intros m [_ Hm]%zget_names. by destruct Hjob as (_ & _ & ?).
Qed.

(** One iteration of a worker. *)
Lemma iter_any fault w j : job_inv j -> holds (Mr.book (Mr.co (j_state j))) w ->
  exists fs call, Worker_iter (maptask mapf fault) (reducetask reducef (bool_decide (is_Some fault))) w
      (j_files j) = Some (fs, call) /\
    sound fs /\ (forall m, 0 <= m < zlen names -> map_done (j_files j) m -> map_done fs m) /\
    (forall i, reduce_done (j_files j) i -> reduce_done fs i) /\
    (forall args, call = Some args -> delivered fs (Mr.a_Addr args)) /\
    (fault = None -> Mr.T (w_reply w) <> "exit" -> call = Some {| Mr.a_Addr := default EmptyString (current w) |}).
Proof using All.
  intros I (Ht & HwN & Hwr). pose proof (delivered_nothing (j_files j)) as Hno. unfold Worker_iter, current.
  destruct (String.eqb_spec (Mr.T (w_reply w)) "map") as [Em|_].
  { destruct (zget_names _ _ (proj1 Ht Em)) as [Hm Hin].
    destruct (maptask_any mapf names N fs0 HN Hinputs Hfresh fault (Mr.MapIndex (w_reply w))
      (Mr.Addr (w_reply w)) (w_reply w) (j_files j)) as (fs & ok & -> & HS & Ha1 & Ha2 & Ha3 & Ha4);
      [by apply ji_sound|by apply Ht|done|done|by apply HwN|].
    cbn [mbind option_bind]. eexists fs, _. split; [done|]. split; [done|]. split; [done|]. split.
    - intros i (text & ? & ?). exists text. by rewrite Ha2.
    - split; [|intros E _; by rewrite (Ha4 E)].
      intros args [= <-]. cbn. destruct ok; [|apply delivered_nothing]. split.
      + intros m Hm'. rewrite (names_inj _ _ _ Hm' (proj1 Ht Em)). by apply Ha3.
      + intros i Hi E. by destruct (name_not_reduce _ i Hin Hi). }
  destruct (String.eqb_spec (Mr.T (w_reply w)) "reduce") as [Er|_].
  { destruct (Hwr Er) as [Hi Hall].
    assert (ready mapf names N fs0 (j_files j)) as HR.
    { split; [by apply ji_sound|]. intros m Hm. destruct (zget_in_range names m Hm) as [f Hf].
      apply (ji_maps _ I m f Hf), Hall. by eapply zget_names. }
    destruct (reducetask_any mapf names N fs0 HN Hinputs Hfresh Hout Hclean reducef Hred Hne
      (bool_decide (is_Some fault)) (Mr.Index (w_reply w)) (w_reply w) (j_files j) HR Hi eq_refl)
      as (fs & ok & -> & HS & Ha1 & Ha2 & Ha3 & Ha4).
    cbn [mbind option_bind]. eexists fs, _. split; [done|]. split; [done|]. split; [done|].
    split; [done|]. split; [|intros -> _; by rewrite (Ha4 eq_refl)].
    intros args [= <-]. cbn. destruct ok; [|apply delivered_nothing]. rewrite (proj2 Ht Er). split.
    - intros m [_ Hm]%zget_names. by destruct (name_not_reduce _ (Mr.Index (w_reply w)) Hm Hi).
    - intros i _ <-%reduceKey_inj. by apply Ha3. }
  destruct (String.eqb_spec (Mr.T (w_reply w)) "wait"), (String.eqb_spec (Mr.T (w_reply w)) "exit");
    eexists _, _; (split; [done|]); (split; [by apply ji_sound|]); (split; [done|]); (split; [done|]);
    (split; [by intros args [= <-]|done]).
Qed.

(** ** The coordinator's answer *)

Lemma handed_two args tm b k : handed args tm b !! k = Some 2 -> b !! k = Some 2 \/ k = Mr.a_Addr args.
Proof.
  intros Hk. assert (reported args b !! k = Some 2) as Hr.
  { destruct tm as [k'|]; [|done]. cbn in Hk. apply lookup_insert_Some in Hk as [[_ ?]|[_ ?]]; done. }
  unfold reported in Hr. case_bool_decide; [|by left].
  apply lookup_insert_Some in Hr as [[<- _]|[_ ?]]; [by right|by left].
Qed.

Lemma handed_idle args tm b k : Mr.status (handed args tm b) k = 0 -> Mr.status b k = 0.
Proof.
  intros Hk. assert (Mr.status (reported args b) k = 0) as Hr.
  { destruct tm as [k'|]; [|done]. cbn in Hk. rewrite status_insert in Hk. by case_decide. }
  unfold reported in Hr. case_bool_decide; [|done]. rewrite status_insert in Hr. by case_decide.
Qed.

(** What the worker holds after the answer, if it is in step. *)
Lemma answer_holds c c' args reply tm w :
  answered names N c c' reply tm -> Mr.book c' = handed args tm (Mr.book c) ->
  told {| w_args := args; w_reply := decodeInto reply (w_reply w) |} ->
  holds (Mr.book c') {| w_args := args; w_reply := decodeInto reply (w_reply w) |}.
Proof using HN.
  intros A E Ht. split; [done|]. split.
  - destruct A; cbn; try done. intros _. by rewrite (proj2 (Z.eqb_neq _ _)) by lia.
  - intros Er. pose proof (proj2 Ht Er) as Ea.
    assert (forall f, Mr.book c !! f = Some 2 -> Mr.book c' !! f = Some 2) as Hstay
      by (intros f; by eapply handed_completed).
    destruct A as [| i Hi Hall Hb _| | |]; try done.
    cbn in Ea. apply reduceKey_inj in Ea. cbn. rewrite <- Ea. split; [done|].
    intros f Hf. by apply Hstay, Hall.
Qed.

(** A worker that was in order is told the index of its task. *)
Lemma answer_told c ts c' args reply tm w :
  inv names N c ts -> answered names N c c' reply tm -> Mr.book c' = handed args tm (Mr.book c) -> first_ok c w ->
  told {| w_args := args; w_reply := decodeInto reply (w_reply w) |} /\
  first_ok c' {| w_args := args; w_reply := decodeInto reply (w_reply w) |}.
Proof using Hjob HN.
  intros I A E [F1 F2].
  assert (forall k, Mr.status (Mr.book c') k = 0 -> Mr.status (Mr.book c) k = 0) as Hidle
    by (intros k; rewrite E; apply handed_idle).
  assert (forall k, Mr.book c !! k = Some 0 -> Mr.status (Mr.book c) k = 0) as Hzero
    by (intros k Hk; unfold Mr.status; by rewrite Hk).
  destruct A as [i f Hf Hi Hb Hfirst|i Hi Hall Hb Hfirst|Ha Hd|k _ Hk Hd|Hlt Ha Hd];
    (split; [split|split]); cbn; try done; try (intros *; by eauto).
  - intros _. assert (zget names i = Some f) as Hz by (by apply zget_Some_lookup).
    assert (f <> EmptyString) as Hnf by (intros ->; apply zget_names in Hz as [_ Hz]; by destruct Hjob as (_ & _ & ?)).
    rewrite (proj2 (String.eqb_neq _ _) Hnf). destruct (Z.eqb_spec i 0) as [->|]; [|done].
    by rewrite (F1 f Hz (Hzero _ Hb)).
  - intros f0 Hf0 Hs. destruct (Z.eqb_spec i 0) as [->|Hne0]; [by eapply F1; eauto|].
    exfalso. apply (Hfirst 0 f0 ltac:(lia) Hf0). apply (inv_idle names N Hjob c ts); [done| |by apply Hidle].
    apply elem_of_app. left. by eapply list_elem_of_lookup_2.
  - intros _. destruct (Z.eqb_spec i 0) as [->|]; [|done]. by rewrite (F2 (Hzero _ Hb)).
  - intros Hs. destruct (Z.eqb_spec i 0) as [->|Hne0]; [by eauto|].
    exfalso. apply (Hfirst 0 ltac:(lia)). apply (inv_idle names N Hjob c ts); [done| |by apply Hidle].
    apply elem_of_app. right. apply elem_of_reduceKeys. exists 0. split; [lia|done].
Qed.

(** ** Every event keeps the invariant *)

Lemma fresh_holds b : holds b freshWorker.
Proof. by split_and!. Qed.

Lemma holds_mono b b' w : (forall k, b !! k = Some 2 -> b' !! k = Some 2) -> holds b w -> holds b' w.
Proof.
  intros Hb (Ht & Hm & Hr). split_and!; [done|done|]. intros Er. destruct (Hr Er) as [Hi Hall].
  split; [done|]. intros f Hf. by apply Hb, Hall.
Qed.

Lemma job_worker j id : job_inv j -> holds (Mr.book (Mr.co (j_state j))) (default freshWorker (j_workers j !! id)).
Proof.
  intros I. destruct (j_workers j !! id) as [w|] eqn:E; [by apply (ji_workers _ I id)|apply fresh_holds].
Qed.

Lemma job_step j c ts fs ws :
  job_inv j -> inv names N c ts -> sound fs ->
  (forall m, 0 <= m < zlen names -> map_done (j_files j) m -> map_done fs m) ->
  (forall i, reduce_done (j_files j) i -> reduce_done fs i) ->
  (forall k, Mr.book c !! k = Some 2 -> Mr.book (Mr.co (j_state j)) !! k = Some 2 \/ delivered fs k) ->
  (forall id w, ws !! id = Some w -> holds (Mr.book c) w) ->
  job_inv {| j_state := {| Mr.co := c; Mr.timers := ts |}; j_files := fs; j_workers := ws |}.
Proof.
  intros I Ic HS Hmaps Hreds Hnew Hws. split; try done; cbn.
  - intros m f Hf [Hk|[Hk _]]%Hnew; [|by apply Hk].
    apply Hmaps; [by eapply zget_names|by apply (ji_maps _ I m f)].
  - intros i Hi [Hk|[_ Hk]]%Hnew; [|by apply Hk]. by apply Hreds, (ji_reduces _ I i).
Qed.

Lemma removeTimer_split key l l' : removeTimer key l = Some l' ->
  exists l1 l2, l = l1 ++ key :: l2 /\ l' = l1 ++ l2.
Proof.
  revert l'. induction l as [|k l IH]; intros l'; cbn [removeTimer]; [done|].
  destruct (String.eqb_spec k key) as [->|_]; [intros [= ->]; by exists [], l'|].
  destruct (removeTimer key l) as [r|]; cbn; [|done]. intros [= <-].
  destruct (IH r eq_refl) as (l1 & l2 & -> & ->). by exists (k :: l1), l2.
Qed.

Lemma timeadd_two key c k : Mr.book (Mr.timeadd key c) !! k = Some 2 <-> Mr.book c !! k = Some 2.
Proof.
  unfold Mr.timeadd. bcase; [|done]. cbn. rewrite lookup_insert. case_decide as E; [|done]. subst k.
  split; [done|]. intros Hk. unfold Mr.status in *. rewrite Hk in *. cbn in *. lia.
Qed.

Lemma event_inv fault e j j' :
  job_inv j -> event fault e j = Some j' -> in_step j' -> job_inv j'.
Proof using All.
  intros I He Hs. unfold taskEvent, jobEvent in He. destruct e as [id|id|key].
  - pose proof (job_worker j id I) as Hw. revert He Hw. generalize (default freshWorker (j_workers j !! id)).
    intros w He Hw. destruct (iter_any fault w j I Hw) as (fs & call & E & HS & Hm & Hr & Hd & _).
    rewrite E in He. cbn [mbind option_bind] in He. destruct call as [args|].
    2:{ injection He as <-. destruct (j_state j) as [c ts] eqn:Ej. apply (job_step j); rewrite ?Ej; auto.
        - pose proof (ji_co _ I) as Hc. by rewrite Ej in Hc.
        - intros id' w'. pose proof (ji_workers _ I id' w') as Hh. by rewrite Ej in Hh. }
    destruct (Mr.CoordinatorHandler args (Mr.co (j_state j))) as [[c' reply] tm] eqn:Eh.
    injection He as <-. destruct (handler_spec names N Hjob _ _ _ _ _ _ (ji_co _ I) Eh) as (I' & A & Eb).
    apply (job_step j); try done.
    + intros k. rewrite Eb. intros [Hk| ->]%handed_two; [by left|right]. by apply Hd.
    + intros id' w'. rewrite lookup_insert. case_decide as E'.
      * intros [= <-]. apply (answer_holds (Mr.co (j_state j)) c' args reply tm w A Eb).
        apply (Hs id). cbn. by rewrite lookup_insert_eq.
      * intros Hw'. apply (holds_mono (Mr.book (Mr.co (j_state j)))); [|by apply (ji_workers _ I id')].
        intros k. by apply (handed_completed names N (Mr.co (j_state j)) c' args reply tm).
  - destruct (iter_any fault _ j I (job_worker j id I)) as (fs & call & E & HS & Hm & Hr & _).
    rewrite E in He. cbn [mbind option_bind] in He. injection He as <-.
    destruct (j_state j) as [c ts] eqn:Ej. apply (job_step j); rewrite ?Ej; auto.
    + pose proof (ji_co _ I) as Hc. by rewrite Ej in Hc.
    + intros id' w' [_ Hw]%lookup_delete_Some. pose proof (ji_workers _ I id' w' Hw) as Hh. by rewrite Ej in Hh.
  - destruct (removeTimer key (Mr.timers (j_state j))) as [l|] eqn:El; [|done]. cbn in He. injection He as <-.
    apply removeTimer_split in El as (l1 & l2 & El & ->). pose proof (ji_co _ I) as Hc. rewrite El in Hc.
    apply (job_step j); try done.
    + by apply inv_timeadd.
    + by apply ji_sound.
    + intros k Hk%timeadd_two. by left.
    + intros id' w' Hw. apply (holds_mono (Mr.book (Mr.co (j_state j)))); [|by apply (ji_workers _ I id')].
      intros k. apply timeadd_two.
Qed.

Lemma worker_inv id j : job_inv j -> job_inv (newWorker id j).
Proof.
  intros I. split; try apply I. cbn. intros id' w. rewrite lookup_insert. case_decide; [|apply I].
  intros [= <-]. apply fresh_holds.
Qed.

Lemma start_open k : Mr.book (Mr.MakeCoordinator names N) !! k <> Some 2.
Proof.
  assert (forall {A} (f : A -> string) l (b : gmap string Z), b !! k <> Some 2 ->
    foldl (fun b x => <[f x := 0]> b) b l !! k <> Some 2) as Hf.
  { intros A f l. induction l as [|x l IH]; intros b Hb; cbn; [done|]. apply IH.
    rewrite lookup_insert. by case_decide. }
  apply (Hf _ Mr.reduceKey), (Hf _ (fun v => v)). by rewrite lookup_empty.
Qed.

Lemma reached_inv j : reach j -> job_inv j.
Proof using All.
  induction 1 as [|id j _ IH _|fault e j j' _ IH He Hs]; [|by apply worker_inv|by eapply event_inv].
  split; try done; [by apply inv_init|by apply (sound_start mapf names N)|..].
  - intros m f _ Hk. by apply start_open in Hk.
  - intros i _ Hk. by apply start_open in Hk.
Qed.

(** No turn of a worker goes wrong. *)
Lemma event_total fault e j : job_inv j -> (forall key, e <> Timer key) -> is_Some (event fault e j).
Proof using All.
  intros I Hk. unfold taskEvent, jobEvent. destruct e as [id|id|key]; [| |by destruct (Hk key)];
    destruct (iter_any fault _ j I (job_worker j id I)) as (fs & call & E & _); rewrite E;
    cbn [mbind option_bind]; [|by eexists].
  destruct call as [args|]; [|by eexists].
  destruct (Mr.CoordinatorHandler args (Mr.co (j_state j))) as [[c' reply] tm]. by eexists.
Qed.
(** ** Staying in step *)

Lemma fresh_first c : first_ok c freshWorker.
Proof. by split. Qed.

Lemma first_mono c c' w :
  (forall f, first_task names f -> Mr.status (Mr.book c') f = 0 -> Mr.status (Mr.book c) f = 0) ->
  first_ok c w -> first_ok c' w.
Proof.
  intros Hc [F1 F2]. split; [intros f Hf Hs; apply (F1 f Hf), Hc|intros Hs; apply F2, Hc]; try done;
    [by left|by right].
Qed.

(** An event keeps the workers [P] in order, if only they take turns. *)
Lemma event_first fault e j j' (P : Z -> Prop) :
  let c := Mr.co (j_state j) in
  job_inv j -> (forall id w, P id -> j_workers j !! id = Some w -> first_ok c w) ->
  match e with
  | Turn id => P id
  | Crash _ => True
  | Timer key => first_task names key -> Mr.status (Mr.book c) key <> 1
  end ->
  event fault e j = Some j' ->
  in_step j' /\ forall id w, P id -> j_workers j' !! id = Some w -> first_ok (Mr.co (j_state j')) w.
Proof using All.
  intros c I HF Hok He. subst c. assert (in_step j) as Hs by (intros id w Hw; apply (ji_workers _ I id w Hw)).
  unfold taskEvent, jobEvent in He. destruct e as [id|id|key].
  - pose proof (job_worker j id I) as Hw.
    assert (first_ok (Mr.co (j_state j)) (default freshWorker (j_workers j !! id))) as HFw.
    { destruct (j_workers j !! id) as [w|] eqn:E; [by apply (HF id)|apply fresh_first]. }
    revert He Hw HFw. generalize (default freshWorker (j_workers j !! id)). intros w He Hw HFw.
    destruct (iter_any fault w j I Hw) as (fs & call & E & _).
    rewrite E in He. cbn [mbind option_bind] in He. destruct call as [args|]; [|by injection He as <-].
    destruct (Mr.CoordinatorHandler args (Mr.co (j_state j))) as [[c' reply] tm] eqn:Eh.
    injection He as <-. destruct (handler_spec names N Hjob _ _ _ _ _ _ (ji_co _ I) Eh) as (_ & A & Eb).
    destruct (answer_told _ _ _ _ _ _ _ (ji_co _ I) A Eb HFw) as [Ht HF']. split.
    + intros id' w'. cbn. rewrite lookup_insert. case_decide; [by intros [= <-]|apply Hs].
    + intros id' w' HP. cbn. rewrite lookup_insert. case_decide; [by intros [= <-]|].
      intros Hw'. apply (first_mono (Mr.co (j_state j))); [|by apply (HF id')].
      intros f _. rewrite Eb. apply handed_idle.
  - destruct (iter_any fault _ j I (job_worker j id I)) as (fs & call & E & _).
    rewrite E in He. cbn [mbind option_bind] in He. injection He as <-. split.
    + intros id' w' Hw. cbn in Hw. apply lookup_delete_Some in Hw as [_ Hw]. by apply (Hs id').
    + intros id' w' HP Hw. cbn in Hw. apply lookup_delete_Some in Hw as [_ Hw]. by apply (HF id').
  - destruct (removeTimer key (Mr.timers (j_state j))) as [l|]; [|done]. cbn in He. injection He as <-.
    split; [exact Hs|]. intros id' w' HP Hw. apply (first_mono (Mr.co (j_state j))); [|by apply (HF id')].
    intros f Hf. cbn. unfold Mr.timeadd. bcase; [|done]. cbn. rewrite status_insert.
    case_decide as E; [|done]. subst f. intros _. exfalso. apply (Hok Hf). lia.
Qed.

(** While the first task of a phase does not time out, all workers are in step. *)
Lemma calm_inv j : calm mapf reducef names N fs0 j ->
  reach j /\ forall id w, j_workers j !! id = Some w -> first_ok (Mr.co (j_state j)) w.
Proof using All.
  induction 1 as [|id j _ [IH1 IH2] Hn|fault e j j' _ [IH1 IH2] He Ht].
  - split; [constructor|]. intros id w Hw. cbn in Hw. by rewrite lookup_empty in Hw.
  - split; [by apply reached_worker|]. intros id' w. cbn. rewrite lookup_insert.
    case_decide; [|apply IH2]. intros [= <-]. apply fresh_first.
  - destruct (event_first fault e j j' (fun _ => True)) as [Hs HF]; try done.
    + by apply reached_inv.
    + intros id w _. apply IH2.
    + destruct e; try done. intros Hf. by apply Ht.
    + split; [by eapply reached_event|]. intros id w. by apply HF.
Qed.

(** ** Finishing *)

(** A new worker that takes over when all timers have expired. *)
Lemma takes_over id j es :
  reach j -> j_workers j !! id = None -> Mr.timers (j_state j) = [] ->
  timely (maptask mapf None) (reducetask reducef false) id es (newWorker id j) ->
  exists j', runJob (maptask mapf None) (reducetask reducef false) es (newWorker id j) = Some j' /\ reach j' /\
    (zlen names + N + 2 <= countb is_turn es -> Mr.done (Mr.co (j_state j')) = true).
Proof using All.
  intros Hr Hn Ht Hes. pose proof (reached_inv j Hr) as I.
  set (Good x := reach x /\ forall i w, i = id -> j_workers x !! i = Some w -> first_ok (Mr.co (j_state x)) w).
  assert (forall e x x', match e with Turn i => i = id | Crash _ => True
      | Timer key => Mr.co (j_state x') = Mr.co (j_state x) end ->
    Good x -> event None e x = Some x' -> Good x') as Hkeep.
  { intros e x x' Hok [Hx HF] He. pose proof (reached_inv x Hx) as Ix.
    destruct (event_first None e x x' (fun i => i = id)) as [Hs HF']; [done|done| |done|].
    - destruct e as [i|i|key]; [done|done|]. intros _ E. unfold taskEvent, jobEvent in He.
      destruct (removeTimer key (Mr.timers (j_state x))); [|done]. cbn in He. injection He as <-.
      cbn in Hok. unfold Mr.timeadd in Hok. rewrite E in Hok. cbn in Hok.
      rewrite <- Hok in E. cbn in E. rewrite status_insert, decide_True in E by done. lia.
    - split; [by eapply reached_event|done]. }
  destruct (lone_run names N Hjob (maptask mapf None) (reducetask reducef false) id Good) with
    (es := es) (w := freshWorker) (j := newWorker id j) as (j' & Hrun & [Hr' _] & Hd); try done.
  - intros x w [Hx _] Hw Hex. pose proof (reached_inv x Hx) as Ix.
    destruct (iter_any None w x Ix (ji_workers _ Ix id w Hw)) as (fs & call & E & _ & _ & _ & _ & Hc).
    exists fs. rewrite <- Hc by done. exact E.
  - intros x x' HG He. by apply (Hkeep (Turn id) x).
  - intros key x x' HG He Hco. by apply (Hkeep (Timer key) x).
  - apply I.
  - by apply lookup_insert_eq.
  - intros k Hk. exfalso. assert (k ∈ Mr.timers (j_state j)) as Hin.
    { apply (inv_timer _ _ _ _ (ji_co _ I)). unfold Mr.status. cbn in Hk. by rewrite Hk. }
    rewrite Ht in Hin. by apply not_elem_of_nil in Hin.
  - split; [by apply reached_worker|]. intros i w -> Hw. cbn in Hw. rewrite lookup_insert_eq in Hw.
    injection Hw as <-. apply fresh_first.
  - exists j'. split; [exact Hrun|]. split; [exact Hr'|]. intros Hle. apply Hd.
    assert (needed names N freshWorker (Mr.co (j_state j)) <= zlen names + N + 2) as Hb; [|cbn in *; lia].
    unfold needed, tasks. rewrite zlen_app, (zlen_reduceKeys N) by lia.
    match goal with |- context [countb ?f ?l] => pose proof (countb_nonneg f l) end.
    repeat bcase; lia.
Qed.
(** The output when the coordinator is done, also after [cleanup]. *)
Lemma done_outputs j : reach j -> Mr.done (Mr.co (j_state j)) = true ->
  outputs N (j_files j) ≡ₚ
    remove_dups (Key <$> allPairs mapf names fs0) ≫= keyLines reducef (allPairs mapf names fs0) /\
  outputs N (cleanup (j_files j)) = outputs N (j_files j).
Proof using All.
  intros Hr Hd. pose proof (reached_inv j Hr) as I. split; [|apply outputs_cleanup].
  apply (reduced_lines mapf names N fs0 HN). intros i Hi. apply (ji_reduces _ I); [done|].
  destruct (inv_done _ _ _ _ (ji_co _ I) Hd) as [_ Hrt].
  apply (proj1 (all_reduces names N Hjob _ _ (ji_co _ I)) Hrt), elem_of_reduceKeys. by exists i.
Qed.
End job.

(** ** The theorem *)

(** The files have the output of [mrsequential], before and after [cleanup]. *)
Definition sequentialOutput (sortS : KVSort) mapf reducef names N (fs0 fs : fileSystem) : Prop :=
  exists fsS out, @mrsequential sortS mapf reducef names fs0 = Some fsS /\ fsS !! "mr-out-0" = Some out /\
    outputs N fs ≡ₚ rawLines out /\ outputs N (cleanup fs) ≡ₚ rawLines out.

(** C10: a MapReduce job computes what [mrsequential] computes.  The job is run by a
    coordinator with its timers and any number of workers with the loop of worker.go, which
    may fail in the middle of a task, die, be slow or be replaced.  As long as the workers
    are in step (a worker's index is that of its task), no turn goes wrong; when the
    coordinator is done, the lines of the output files, before and after [cleanup], are the
    lines of mrsequential's output; and if all other workers die, a new worker that is in time finishes the
    job.  Workers stay in step as long as the first map task and the first reduce task never
    time out; otherwise a reused [Reply] can keep a stale index and words are lost (finding
    on worker.go:54).  For at least one input file, all existing and distinct, with names
    that are not empty or like an output or a reduce task, no intermediate files, pairs that
    fit the text format, and a [Reduce] that does not depend on the order of the values. *)
Theorem distributed_equals_sequential (sortW sortS : KVSort) mapf reducef names N fs0 j :
  @KVSortLaws sortW -> @KVSortLaws sortS ->
  job_ok names N -> names <> [] -> 0 < N ->
  (forall name, name ∈ names -> is_Some (fs0 !! name)) ->
  (forall name, is_Some (fs0 !! name) -> ~ isMapResult name) ->
  (forall name i, name ∈ names -> 0 <= i < N -> name <> mrOut i) ->
  Forall clean (allPairs mapf names fs0) ->
  (forall k vs vs', vs ≡ₚ vs' -> reducef k vs = reducef k vs') ->
  @reached sortW mapf reducef names N fs0 j \/ @calm sortW mapf reducef names N fs0 j ->
  (forall fault e, (forall key, e <> Timer key) -> is_Some (@taskEvent sortW mapf reducef fault e j)) /\
  (Mr.done (Mr.co (j_state j)) = true -> sequentialOutput sortS mapf reducef names N fs0 (j_files j)) /\
  forall id es, j_workers j !! id = None -> Mr.timers (j_state j) = [] ->
    timely (maptask mapf None) (@reducetask sortW reducef false) id es (newWorker id j) ->
    zlen names + N + 2 <= countb is_turn es ->
    exists j', runJob (maptask mapf None) (@reducetask sortW reducef false) es (newWorker id j) = Some j' /\
      Mr.done (Mr.co (j_state j')) = true /\ sequentialOutput sortS mapf reducef names N fs0 (j_files j').
Proof.
  intros LW LS Hjob Hne HN Hin Hfresh Hout Hclean Hred Hj.
  assert (@reached sortW mapf reducef names N fs0 j) as Hr.
  { destruct Hj as [|Hj]; [done|].
    by destruct (calm_inv mapf reducef names N fs0 Hjob Hne HN Hin Hfresh Hout Hclean Hred j Hj). }
  assert (forall j, @reached sortW mapf reducef names N fs0 j -> Mr.done (Mr.co (j_state j)) = true ->
    sequentialOutput sortS mapf reducef names N fs0 (j_files j)) as Hfin.
  { clear j Hj Hr. intros j Hr Hd.
    destruct (sequential_lines mapf names fs0 Hin reducef Hred Hne) as (fs & out & E1 & E2 & Hl).
    exists fs, out. split; [done|]. split; [done|].
    destruct (done_outputs mapf reducef names N fs0 Hjob Hne HN Hin Hfresh Hout Hclean Hred j Hr Hd) as [Ho ->].
    by rewrite Ho, Hl. }
  split_and!.
  - intros fault e He.
    pose proof (reached_inv mapf reducef names N fs0 Hjob Hne HN Hin Hfresh Hout Hclean Hred j Hr) as I.
    by eapply event_total; [..|exact I|exact He].
  - by apply Hfin.
  - intros id es Hid Ht Hes Hle.
    destruct (takes_over mapf reducef names N fs0 Hjob Hne HN Hin Hfresh Hout Hclean Hred id j es Hr Hid Ht Hes)
      as (j' & Hrun & Hr' & Hd). exists j'. specialize (Hd Hle). split_and!; [done|done|by apply Hfin].
Qed.
