(* ===== verification/MrWordCount.v ===== *)
(** * Word count end to end

    The words that [FieldsFunc] finds consist of letters, so the pairs of wc.go fit
    the intermediate format; a distributed run of word count prints every word once,
    with the number of its occurrences in all files.  Also: the [Reduce] functions do
    not depend on the order of their values. *)
From stdpp Require Import pretty sorting.
From S2P Require Import Prelude MrCoordinator MrWorker MrStrings MrProps MrApps MrFlow MrJob.
Import MrApps.
#[local] Arguments String.append !_ _ / : simpl nomatch.

(** ** The order of the values *)
Lemma wc_reduce_perm k vs vs' : vs ≡ₚ vs' -> wc_Reduce k vs = wc_Reduce k vs'.
Proof. intros H. unfold wc_Reduce. by rewrite H. Qed.

#[export] Instance string_le_trans : Transitive string_le.
Proof.
  intros a b c H1 H2. unfold string_le in *. apply Is_true_true in H1, H2.
  apply Is_true_true. change (String.le a c). by transitivity b.
Qed.
#[export] Instance string_le_total : Total string_le.
Proof. intros a b. unfold string_le. rewrite <- !Is_true_true. apply (total String.le). Qed.

Lemma merge_sort_unique l l' : l ≡ₚ l' -> merge_sort string_le l = merge_sort string_le l'.
Proof.
  intros H. apply (StronglySorted_unique_strong string_le).
  - intros x y _ _. apply string_le_antisym.
  - apply (StronglySorted_merge_sort _).
  - apply (StronglySorted_merge_sort _).
  - by rewrite !merge_sort_Permutation.
Qed.

Lemma indexer_reduce_perm k vs vs' : vs ≡ₚ vs' -> indexer_Reduce k vs = indexer_Reduce k vs'.
Proof. intros H. unfold indexer_Reduce. by rewrite (merge_sort_unique _ _ H), (Permutation_length H). Qed.

Lemma nocrash_reduce_perm k vs vs' : vs ≡ₚ vs' -> nocrash_Reduce k vs = nocrash_Reduce k vs'.
Proof. intros H. unfold nocrash_Reduce. by rewrite (merge_sort_unique _ _ H). Qed.

(** ** Words *)

(** Every byte is at least ['A']. *)
Fixpoint wordy (s : string) : bool :=
  match s with
  | EmptyString => true
  | String c s => (65 <=? Z.of_N (Ascii.N_of_ascii c)) && wordy s
  end.

Lemma wordy_app a b : wordy a = true -> wordy b = true -> wordy (a +:+ b) = true.
Proof.
  induction a as [|c a IH]; cbn; [done|]. rewrite !andb_true_iff. intros [? ?] ?. split; [done|]. by apply IH.
Qed.

Lemma wordy_cut sep s : (sep < 65)%nat -> wordy s = true -> cut sep s = None.
Proof.
  intros Hs. induction s as [|c s IH]; cbn; [done|]. rewrite andb_true_iff. intros [Hc%Z.leb_le Hw].
  rewrite (proj2 (Nat.eqb_neq _ _)).
  - by rewrite IH.
  - unfold Ascii.nat_of_ascii. lia.
Qed.

Lemma IsLetter_ascii above r : r < 0x80 -> IsLetter above r = true -> 65 <= r.
Proof.
  intros Hr. unfold IsLetter, inRange. rewrite (proj2 (Z.leb_le _ _)) by lia.
  rewrite !orb_true_iff, !andb_true_iff, !Z.leb_le, !Z.eqb_eq. lia.
Qed.

Lemma byteAt_S i c s : byteAt (S i) (String c s) = byteAt i s.
Proof. done. Qed.
Lemma byteAt_cont i s : cont (byteAt i s) = true -> exists c, String.get i s = Some c /\ 65 <= Z.of_N (Ascii.N_of_ascii c).
Proof.
  unfold cont, inRange, byteAt. rewrite andb_true_iff, !Z.leb_le.
  destruct (String.get i s) as [c|]; [|lia]. intros. exists c. split; [done|lia].
Qed.

(** The bytes of a letter. *)
Lemma decode_wordy above s r w c0 s0 :
  s = String c0 s0 -> decodeRune s = (r, w) -> IsLetter above r = true ->
  wordy (String.substring 0 w s) = true.
Proof.
  intros -> Hd Hl. unfold decodeRune in Hd. set (b0 := byteAt 0 (String c0 s0)) in *.
  assert (b0 = Z.of_N (Ascii.N_of_ascii c0)) as Hb0 by done.
  assert (forall n, 65 <= b0 -> wordy (String.substring 0 n s0) = true ->
    wordy (String.substring 0 (S n) (String c0 s0)) = true) as Hfirst.
  { intros n H1 H2. cbn. rewrite H2, <- Hb0. rewrite (proj2 (Z.leb_le _ _)) by lia. done. }
  assert (forall s, String.substring 0 0 s = EmptyString) as H0 by (by intros []).
  destruct (Z.ltb_spec b0 0x80).
  { injection Hd as <- <-. apply Hfirst; [by eapply IsLetter_ascii|]. by rewrite H0. }
  assert (forall n (t : string), (forall i, (i < n)%nat -> cont (byteAt i t) = true) ->
    wordy (String.substring 0 n t) = true) as Hc.
  { induction n as [|n IH]; intros t Ht; [by rewrite H0|].
    destruct (byteAt_cont 0 t (Ht 0%nat ltac:(lia))) as (c & Hg & Hcc).
    destruct t as [|d t]; [done|]. injection Hg as ->. cbn.
    rewrite (proj2 (Z.leb_le _ _)) by lia. apply IH. intros i Hi. rewrite <- (byteAt_S i c t). apply Ht. lia. }
  assert (forall n, (forall i, (1 <= i <= n)%nat -> cont (byteAt i (String c0 s0)) = true) ->
    wordy (String.substring 0 (S n) (String c0 s0)) = true) as Hall.
  { intros n Hi. apply Hfirst; [lia|]. apply Hc. intros i Hn. rewrite <- (byteAt_S i c0 s0). apply Hi. lia. }
  repeat match goal with
         | H : context [if ?x then _ else _] |- _ => destruct x eqn:?
         end; injection Hd as <- <-; apply Hall; intros i Hi;
    repeat match goal with H : _ && _ = true |- _ => apply andb_true_iff in H as [? ?] end;
    destruct i as [|[|[|[|i]]]]; try lia; done.
Qed.

Lemma fields_wordy above fuel s field :
  (forall w, field = Some w -> wordy w = true) ->
  Forall (fun w => wordy w = true) (fieldsFrom fuel (fun r => negb (IsLetter above r)) s field).
Proof.
  revert s field. induction fuel as [|fuel IH]; intros s field Hf; cbn [fieldsFrom].
  { destruct field; cbn; [|done]. constructor; [by apply Hf|done]. }
  assert (Forall (fun w => wordy w = true) (option_list field)) as Ho.
  { destruct field; cbn; [|done]. constructor; [by apply Hf|done]. }
  destruct s as [|c s]; [done|]. destruct (decodeRune (String c s)) as [r w] eqn:Hd.
  destruct (IsLetter above r) eqn:Hl; cbn [negb].
  - apply IH. intros x [= <-]. apply wordy_app; [destruct field; [by apply Hf|done]|].
    change (wordy (String.substring 0 w (String c s)) = true). by eapply decode_wordy.
  - apply Forall_app. split; [done|]. by apply IH.
Qed.

(** ** Word count *)
Section wc.
Context (letterAbove : Z -> bool).
Notation wordsOf s := (FieldsFunc s (fun r => negb (IsLetter letterAbove r))).

Definition allWords (names : list string) (fs : fileSystem) : list string :=
  names ≫= (fun name => wordsOf (default EmptyString (fs !! name))).
Definition occurrences (w : string) (l : list string) : Z := zlen (filter (fun x => x = w) l).

Notation one w := {| Key := w; Value := "1" |}.

Lemma wc_pairs names fs :
  allPairs (wc_Map letterAbove) names fs = (fun w => one w) <$> allWords names fs.
Proof.
  rewrite allPairs_names. unfold allWords. induction names as [|name l IH]; [done|].
  rewrite !bind_cons, fmap_app, IH. done.
Qed.

Lemma allWords_wordy names fs : Forall (fun w => wordy w = true) (allWords names fs).
Proof.
  apply Forall_bind, Forall_true. intros name. by apply fields_wordy.
Qed.

(** The pairs fit the format. *)
Lemma wc_clean w : wordy w = true -> Z.of_nat (String.length w) + 2 < maxLine -> clean (one w).
Proof.
  intros Hw Hl. unfold clean, lineOf. cbn [Key Value].
  apply Is_true_true. rewrite !andb_true_iff, !bool_decide_eq_true, Z.ltb_lt. split_and!.
  - by apply wordy_cut; [lia|].
  - apply cut_None_app. split; [by apply wordy_cut; [lia|]|done].
  - unfold dropCR. rewrite str_length_app. change (String.length (tab +:+ "1")) with 2%nat.
    replace (String.length w + 2 - 1)%nat with (String.length (w +:+ tab)) by
      (rewrite str_length_app; change (String.length tab) with 1%nat; lia).
    rewrite str_app_assoc. assert (String.get (String.length (w +:+ tab)) ((w +:+ tab) +:+ "1") =
      Some (Ascii.ascii_of_nat 49)) as ->; [|done].
    generalize (w +:+ tab). intros s. induction s as [|c s IH]; [done|]. exact IH.
  - rewrite str_length_app. change (String.length (tab +:+ "1")) with 2%nat. lia.
Qed.

Lemma valuesOf_words w l : zlen (valuesOf w ((fun w => one w) <$> l)) = occurrences w l.
Proof.
  unfold valuesOf, occurrences, zlen. rewrite length_fmap. f_equal. induction l as [|x l IH]; [done|].
  cbn [fmap list_fmap]. destruct (decide (x = w)).
  - rewrite (filter_cons_True _ (one x)), (filter_cons_True _ x) by done. cbn. by f_equal.
  - by rewrite (filter_cons_False _ (one x)), (filter_cons_False _ x).
Qed.

Lemma wc_line w l : wordy w = true ->
  keyLines wc_Reduce ((fun w => one w) <$> l) w = [w +:+ " " +:+ pretty (occurrences w l)].
Proof.
  intros Hw. unfold keyLines, outLine, wc_Reduce. fold (zlen (valuesOf w ((fun w => one w) <$> l))).
  rewrite valuesOf_words. rewrite !str_app_assoc.
  rewrite <- (str_app_nil (_ +:+ newline)), <- str_app_assoc. rewrite rawLines_line; [done|].
  apply cut_None_app. split; [apply cut_None_app; split; [by apply wordy_cut; [lia|]|done]|].
  apply cut_pretty; [lia|]. apply zlen_nonneg.
Qed.

Lemma bind_singletons {A B} (f : A -> B) (g : A -> list B) l :
  (forall x, x ∈ l -> g x = [f x]) -> l ≫= g = f <$> l.
Proof.
  induction l as [|x l IH]; intros Hg; [done|]. rewrite bind_cons, Hg by constructor. cbn.
  f_equal. apply IH. intros. apply Hg. by constructor.
Qed.

(** Every word once, with the number of its occurrences. *)
Definition wordLines (names : list string) (fs : fileSystem) : list string :=
  (fun w => w +:+ " " +:+ pretty (occurrences w (allWords names fs))) <$> remove_dups (allWords names fs).

Lemma wc_lines names fs :
  remove_dups (Key <$> allPairs (wc_Map letterAbove) names fs) ≫=
    keyLines wc_Reduce (allPairs (wc_Map letterAbove) names fs) = wordLines names fs.
Proof.
  pose proof (allWords_wordy names fs) as Hw. rewrite Forall_forall in Hw. rewrite wc_pairs.
  replace (Key <$> ((fun w => one w) <$> allWords names fs)) with (allWords names fs) by
    (rewrite <- list_fmap_compose; symmetry; apply list_fmap_id).
  apply bind_singletons. intros w Hx. rewrite elem_of_remove_dups in Hx. apply wc_line. by apply Hw.
Qed.

Lemma wc_all_clean names fs :
  (forall w, w ∈ allWords names fs -> Z.of_nat (String.length w) + 2 < maxLine) ->
  Forall clean (allPairs (wc_Map letterAbove) names fs).
Proof.
  intros Hlen. pose proof (allWords_wordy names fs) as Hw. rewrite Forall_forall in Hw.
  rewrite wc_pairs. apply Forall_fmap, Forall_forall. intros w Hin. apply wc_clean; [by apply Hw|by apply Hlen].
Qed.

(** C31: word count end to end, with the workers and the coordinator of a job: when the
    coordinator is done, the output files together list every word of the inputs exactly
    once, with the number of its occurrences in all of them; and a new worker that takes
    over when all timers have expired brings the job to this state.  As in C10 the workers
    must be in step, which they are as long as the first map task and the first reduce task
    never time out (otherwise words can be lost: finding on worker.go:54).  For at
    least one input file, all existing and distinct, with names that are not empty or like
    an output or a reduce task, no intermediate files, and no word of a megabyte. *)
Theorem word_count `{KVSort} `{!KVSortLaws} names N fs0 j :
  job_ok names N -> names <> [] -> 0 < N ->
  (forall name, name ∈ names -> is_Some (fs0 !! name)) ->
  (forall name, is_Some (fs0 !! name) -> ~ isMapResult name) ->
  (forall name i, name ∈ names -> 0 <= i < N -> name <> mrOut i) ->
  (forall w, w ∈ allWords names fs0 -> Z.of_nat (String.length w) + 2 < maxLine) ->
  reached (wc_Map letterAbove) wc_Reduce names N fs0 j \/ calm (wc_Map letterAbove) wc_Reduce names N fs0 j ->
  (Mr.done (Mr.co (j_state j)) = true -> outputs N (j_files j) ≡ₚ wordLines names fs0) /\
  forall id es, j_workers j !! id = None -> Mr.timers (j_state j) = [] ->
    timely (maptask (wc_Map letterAbove) None) (reducetask wc_Reduce false) id es (newWorker id j) ->
    zlen names + N + 2 <= countb is_turn es ->
    exists j', runJob (maptask (wc_Map letterAbove) None) (reducetask wc_Reduce false) es (newWorker id j) = Some j' /\
      Mr.done (Mr.co (j_state j')) = true /\ outputs N (j_files j') ≡ₚ wordLines names fs0.
Proof.
  intros Hjob Hne HN Hin Hfresh Hout Hlen Hj. pose proof (wc_all_clean names fs0 Hlen) as Hclean.
  assert (reached (wc_Map letterAbove) wc_Reduce names N fs0 j) as Hr.
  { destruct Hj as [|Hj]; [done|].
    by destruct (calm_inv _ wc_Reduce names N fs0 Hjob Hne HN Hin Hfresh Hout Hclean wc_reduce_perm j Hj). }
  split.
  - intros Hd. destruct (done_outputs _ wc_Reduce names N fs0 Hjob Hne HN Hin Hfresh Hout Hclean wc_reduce_perm j Hr Hd)
      as [Ho _]. by rewrite Ho, wc_lines.
  - intros id es Hid Ht Hes Hle.
    destruct (takes_over _ wc_Reduce names N fs0 Hjob Hne HN Hin Hfresh Hout Hclean wc_reduce_perm id j es Hr Hid Ht Hes)
      as (j' & Hrun & Hr' & Hd). exists j'. specialize (Hd Hle). split; [done|]. split; [done|].
    destruct (done_outputs _ wc_Reduce names N fs0 Hjob Hne HN Hin Hfresh Hout Hclean wc_reduce_perm j' Hr' Hd)
      as [Ho _]. by rewrite Ho, wc_lines.
Qed.
End wc.

(** ** A concrete run *)
Definition wc_names : list string := ["a"; "b"].
Definition wc_files : fileSystem := <["a" := "the cat"]> (<["b" := "the hat"]> ∅).

#[export] Instance merge_sortKV_laws : @KVSortLaws merge_sortKV.
Proof.
  split; intros l; unfold sortKV, merge_sortKV.
  - apply merge_sort_Permutation.
  - apply (Sorted_merge_sort _).
Qed.

Lemma wc_files_ok : (forall name, name ∈ wc_names -> is_Some (wc_files !! name)) /\
  (forall name, is_Some (wc_files !! name) -> ~ isMapResult name).
Proof.
  split.
  - apply Forall_forall. unfold wc_names.
    do 2 (apply Forall_cons_2; [vm_compute; by eexists|]). by apply Forall_nil_2.
  - intros name. unfold wc_files. rewrite !lookup_insert_is_Some, lookup_empty.
    intros [<-|[_ [<-|[_ []]]]]; by vm_compute.
Qed.

Lemma wc_words_short w :
  w ∈ allWords (fun _ => false) wc_names wc_files -> Z.of_nat (String.length w) + 2 < maxLine.
Proof.
  revert w. apply Forall_forall.
  assert (allWords (fun _ => false) wc_names wc_files = ["the"; "cat"; "the"; "hat"]) as -> by
    (vm_compute; reflexivity).
  do 4 (apply Forall_cons_2; [vm_compute; reflexivity|]). by apply Forall_nil_2.
Qed.

Lemma wc_pairs_clean : Forall clean (allPairs (wc_Map (fun _ => false)) wc_names wc_files).
Proof.
  rewrite wc_pairs. apply Forall_fmap, Forall_forall. intros w Hw.
  apply wc_clean; [|by apply wc_words_short].
  pose proof (allWords_wordy (fun _ => false) wc_names wc_files) as Hall. rewrite Forall_forall in Hall.
  by apply Hall.
Qed.

Lemma wc_job_ok : job_ok wc_names 2.
Proof. split_and!; [lia|apply (bool_decide_unpack _); by vm_compute..]. Qed.

Lemma wc_not_out name i : name ∈ wc_names -> 0 <= i < 2 -> name <> mrOut i.
Proof. intros [->|[->|[]%elem_of_nil]%elem_of_cons]%elem_of_cons _; done. Qed.

(** Worker 2 dies with its first bucket written; worker 1 does that task after the timeout,
    and fails once in a reduce task. *)
Definition wc_events : list (option nat * JobEvent) :=
  [(None, Turn 1); (None, Turn 2); (Some 1%nat, Crash 2); (None, Turn 1); (None, Timer "b"); (None, Turn 1);
   (None, Turn 1); (None, Timer "a"); (None, Turn 1); (None, Turn 1); (Some 0%nat, Turn 1);
   (None, Timer "reduce-1"); (None, Turn 1)].
Definition wc_job (es : list (option nat * JobEvent)) : option Job :=
  @calmRun merge_sortKV (wc_Map (fun _ => false)) wc_Reduce wc_names es (startJob wc_names 2 wc_files).

Lemma wc_job_calm es j : wc_job es = Some j ->
  @calm merge_sortKV (wc_Map (fun _ => false)) wc_Reduce wc_names 2 wc_files j.
Proof. apply calmRun_calm. constructor. Qed.

Example wc_run :
  (j ← wc_job (wc_events ++ [(None, Turn 1)]);
   Some (Mr.done (Mr.co (j_state j)), rawLines (default EmptyString (j_files j !! "mr-out-0")),
         rawLines (default EmptyString (j_files j !! "mr-out-1")))) =
  Some (true, ["hat 1"; "the 2"], ["cat 1"]).
Proof. vm_compute. reflexivity. Qed.

(** The job above, when it is done. *)
Lemma wc_job_done : exists j, wc_job (wc_events ++ [(None, Turn 1)]) = Some j /\ Mr.done (Mr.co (j_state j)) = true.
Proof.
  assert ((fun j => Mr.done (Mr.co (j_state j))) <$> wc_job (wc_events ++ [(None, Turn 1)]) = Some true) as E by
    (vm_compute; reflexivity).
  destruct (wc_job (wc_events ++ [(None, Turn 1)])) as [j|]; [|done]. exists j. split; [done|]. by injection E.
Qed.

(** ... and a worker that does it alone from the start. *)
Lemma wc_timely : timely (maptask (wc_Map (fun _ => false)) None) (@reducetask merge_sortKV wc_Reduce false) 7
  (replicate 6 (Turn 7)) (newWorker 7 (startJob wc_names 2 wc_files)).
Proof. do 6 (split; [done|intros ? _]). done. Qed.

Lemma word_count_witness :
  let w := fun _ => false in
  (exists j, wc_job (wc_events ++ [(None, Turn 1)]) = Some j /\
     outputs 2 (j_files j) ≡ₚ wordLines w wc_names wc_files) /\
  exists j, runJob (maptask (wc_Map w) None) (@reducetask merge_sortKV wc_Reduce false) (replicate 6 (Turn 7))
      (newWorker 7 (startJob wc_names 2 wc_files)) = Some j /\
    outputs 2 (j_files j) ≡ₚ wordLines w wc_names wc_files.
Proof.
  pose (f j := @word_count (fun _ => false) merge_sortKV merge_sortKV_laws wc_names 2 wc_files j wc_job_ok
    ltac:(done) ltac:(lia) (proj1 wc_files_ok) (proj2 wc_files_ok) wc_not_out wc_words_short).
  split.
  - destruct wc_job_done as (j & Hj & Hd). exists j. split; [exact Hj|].
    exact (proj1 (f j (or_intror (wc_job_calm _ _ Hj))) Hd).
  - destruct (proj2 (f (startJob wc_names 2 wc_files) (or_introl (reached_start _ _ _ _ _)))
      7 (replicate 6 (Turn 7)) eq_refl eq_refl wc_timely ltac:(by vm_compute)) as (j & Hr & _ & Ho).
    exists j. split; [exact Hr|exact Ho].
Defined.

Lemma distributed_equals_sequential_witness :
  let mapf := wc_Map (fun _ => false) in
  (exists j, wc_job (wc_events ++ [(None, Turn 1)]) = Some j /\
     sequentialOutput merge_sortKV mapf wc_Reduce wc_names 2 wc_files (j_files j)) /\
  exists j, runJob (maptask mapf None) (@reducetask merge_sortKV wc_Reduce false) (replicate 6 (Turn 7))
      (newWorker 7 (startJob wc_names 2 wc_files)) = Some j /\
    sequentialOutput merge_sortKV mapf wc_Reduce wc_names 2 wc_files (j_files j).
Proof.
  pose (f j := distributed_equals_sequential merge_sortKV merge_sortKV (wc_Map (fun _ => false)) wc_Reduce wc_names 2
    wc_files j merge_sortKV_laws merge_sortKV_laws wc_job_ok
    ltac:(done) ltac:(lia) (proj1 wc_files_ok) (proj2 wc_files_ok) wc_not_out wc_pairs_clean wc_reduce_perm).
  split.
  - destruct wc_job_done as (j & Hj & Hd). exists j. split; [exact Hj|].
    exact (proj1 (proj2 (f j (or_intror (wc_job_calm _ _ Hj)))) Hd).
  - destruct (proj2 (proj2 (f (startJob wc_names 2 wc_files) (or_introl (reached_start _ _ _ _ _))))
      7 (replicate 6 (Turn 7)) eq_refl eq_refl wc_timely ltac:(by vm_compute)) as (j & Hr & _ & Ho).
    exists j. split; [exact Hr|exact Ho].
Defined.
