(* ===== verification/Bitset.v ===== *)
(** * The bitset of the linearizability checker (src/src/porcupine/bitset.go)

    A bitset is a slice of 64-bit words.  The lemmas: [get] after [set] and
    [clear], extensionality ([equals] decides equality of the sets) and that [clear]
    undoes [set]. *)
From S2P Require Import Prelude.

Module Bitset.
Definition t : Type := list Z.

(** Every word is a [uint64]. *)
Definition wf (b : t) : Prop := Forall (fun w => 0 <= w < 2 ^ 64) b.

Definition newBitset (bits : Z) : t :=
  let extra := if negb (bits mod 64 =? 0) then 1 else 0 in
  let chunks := bits / 64 + extra in
  replicate (Z.to_nat chunks) 0.

Definition clone (b : t) : t := gocopy (replicate (length b) 0) b.

Definition bitsetIndex (pos : Z) : Z * Z := (pos / 64, pos mod 64).

(** [None]: index out of range. *)
Definition set (pos : Z) (b : t) : option t :=
  let '(major, minor) := bitsetIndex pos in
  w ← zget b major; zset b major (Z.lor w (Z.shiftl 1 minor)).

Definition clear (pos : Z) (b : t) : option t :=
  let '(major, minor) := bitsetIndex pos in
  w ← zget b major; zset b major (Z.ldiff w (Z.shiftl 1 minor)).

Definition get (pos : Z) (b : t) : option bool :=
  let '(major, minor) := bitsetIndex pos in
  w ← zget b major; Some (negb (Z.land w (Z.shiftl 1 minor) =? 0)).

(** [bits.OnesCount64] *)
Definition OnesCount64 (w : Z) : Z := countb (Z.testbit w) (zrange 64).

Definition popcnt (b : t) : Z := foldl (fun total v => total + OnesCount64 v) 0 b.

Definition hash (b : t) : Z := foldl Z.lxor (popcnt b) b.

(** The loop of [equals] over two slices of the same length. *)
Fixpoint equalWords (b b2 : t) : bool :=
  match b, b2 with
  | x :: b, y :: b2 => if negb (x =? y) then false else equalWords b b2
  | _, _ => true
  end.

Definition equals (b b2 : t) : bool :=
  if negb (zlen b =? zlen b2) then false else equalWords b b2.

(** ** The set a bitset stands for *)

Definition mem (b : t) (pos : Z) : bool :=
  match zget b (pos / 64) with Some w => Z.testbit w (pos mod 64) | None => false end.

(** The positions of a bitset of [n] words. *)
Definition in_range (b : t) (pos : Z) : Prop := 0 <= pos < 64 * zlen b.

Lemma bitset_clone_id b : clone b = b.
Proof. apply gocopy_same_length, length_replicate. Qed.

Lemma in_range_word b pos : in_range b pos -> exists w, zget b (pos / 64) = Some w.
Proof.
  intros [? ?]. apply zget_in_range. split; [apply Z.div_pos; lia|].
  apply Z.div_lt_upper_bound; lia.
Qed.

Lemma minor_range pos : 0 <= pos mod 64 < 64.
Proof. apply Z.mod_pos_bound. lia. Qed.

Lemma get_mem b pos : in_range b pos -> get pos b = Some (mem b pos).
Proof.
  intros Hr. unfold get, mem, bitsetIndex. destruct (in_range_word b pos Hr) as [w ->]. cbn.
  f_equal. pose proof (minor_range pos) as Hm. rewrite Z.shiftl_1_l.
  destruct (Z.testbit w (pos mod 64)) eqn:E.
  - apply negb_true_iff, Z.eqb_neq. intros H0.
    assert (Z.testbit (Z.land w (2 ^ (pos mod 64))) (pos mod 64) = false) as H1
      by (rewrite H0; apply Z.bits_0).
    rewrite Z.land_spec, E, Z.pow2_bits_true in H1 by lia. done.
  - apply negb_false_iff, Z.eqb_eq. apply Z.bits_inj'. intros k Hk.
    rewrite Z.land_spec, Z.bits_0, Z.pow2_bits_eqb by lia.
    destruct (Z.eqb_spec (pos mod 64) k) as [<-|]; [by rewrite E|apply andb_false_r].
Qed.

(** Two positions of the same word with the same remainder are equal. *)
Lemma pos_eq p q : p / 64 = q / 64 -> p mod 64 = q mod 64 -> p = q.
Proof. intros. rewrite (Z.div_mod p 64), (Z.div_mod q 64) by lia. congruence. Qed.

Lemma mem_zset b b' pos w q :
  in_range b pos -> zset b (pos / 64) w = Some b' ->
  mem b' q = if decide (pos / 64 = q / 64) then Z.testbit w (q mod 64) else mem b q.
Proof.
  intros [Hp _] [Hz ->]%zset_inv. unfold mem. rewrite zget_insert.
  assert (0 <= pos / 64) by (apply Z.div_pos; lia). unfold zlen in Hz.
  destruct (decide (pos / 64 = q / 64)) as [E|E].
  - rewrite decide_True by (split; lia). done.
  - rewrite decide_False by lia. done.
Qed.

Lemma set_spec b pos :
  in_range b pos -> exists b', set pos b = Some b' /\ zlen b' = zlen b /\
    forall q, mem b' q = bool_decide (q = pos) || mem b q.
Proof.
  intros Hr. unfold set, bitsetIndex. destruct (in_range_word b pos Hr) as [w Hw]. rewrite Hw. cbn.
  pose proof (zget_Some_lt _ _ _ Hw) as Hlt. rewrite zset_Some by done.
  eexists. split; [done|]. split; [apply zlen_insert|]. intros q.
  pose proof (zset_Some b (pos / 64) (Z.lor w (Z.shiftl 1 (pos mod 64))) Hlt) as Hz.
  rewrite (mem_zset _ _ _ _ q Hr Hz). pose proof (minor_range pos). pose proof (minor_range q).
  case_decide as E.
  - rewrite Z.lor_spec, Z.shiftl_1_l, Z.pow2_bits_eqb by lia. rewrite orb_comm.
    unfold mem. rewrite <- E, Hw. f_equal. case_bool_decide as Eq; [subst; apply Z.eqb_refl|].
    apply Z.eqb_neq. intros Em. apply Eq. by apply pos_eq.
  - rewrite bool_decide_eq_false_2; [done|]. by intros ->.
Qed.

Lemma clear_spec b pos :
  in_range b pos -> exists b', clear pos b = Some b' /\ zlen b' = zlen b /\
    forall q, mem b' q = negb (bool_decide (q = pos)) && mem b q.
Proof.
  intros Hr. unfold clear, bitsetIndex. destruct (in_range_word b pos Hr) as [w Hw]. rewrite Hw. cbn.
  pose proof (zget_Some_lt _ _ _ Hw) as Hlt. rewrite zset_Some by done.
  eexists. split; [done|]. split; [apply zlen_insert|]. intros q.
  pose proof (zset_Some b (pos / 64) (Z.ldiff w (Z.shiftl 1 (pos mod 64))) Hlt) as Hz.
  rewrite (mem_zset _ _ _ _ q Hr Hz). pose proof (minor_range pos). pose proof (minor_range q).
  case_decide as E.
  - rewrite Z.ldiff_spec, Z.shiftl_1_l, Z.pow2_bits_eqb by lia. rewrite andb_comm.
    unfold mem. rewrite <- E, Hw. f_equal. f_equal.
    case_bool_decide as Eq; [subst; apply Z.eqb_refl|].
    apply Z.eqb_neq. intros Em. apply Eq. by apply pos_eq.
  - rewrite bool_decide_eq_false_2; [done|]. by intros ->.
Qed.

Lemma equalWords_eq b b2 : zlen b = zlen b2 -> equalWords b b2 = true <-> b = b2.
Proof.
  revert b2. induction b as [|x b IH]; intros [|y b2]; rewrite ?zlen_cons, ?zlen_nil; intros Hl; cbn;
    try (pose proof (zlen_nonneg b); lia); try (pose proof (zlen_nonneg b2); lia); [done|].
  destruct (Z.eqb_spec x y) as [->|Hn]; cbn.
  - rewrite IH by lia. split; [by intros ->|by intros [= ->]].
  - split; [done|congruence].
Qed.

Lemma equals_eq b b2 : equals b b2 = true <-> b = b2.
Proof.
  unfold equals. destruct (Z.eqb_spec (zlen b) (zlen b2)) as [E|E]; cbn.
  - by apply equalWords_eq.
  - split; [done|]. by intros ->.
Qed.

Lemma mem_newBitset n pos : mem (newBitset n) pos = false.
Proof.
  unfold mem, newBitset. destruct (zget _ _) eqn:E; [|done].
  apply zget_Some_lookup in E as [_ E]. apply lookup_replicate in E as [-> _]. apply Z.bits_0.
Qed.

(** A new bitset has room for [n] positions. *)
Lemma newBitset_range n pos : 0 <= pos < n -> in_range (newBitset n) pos.
Proof.
  intros Hp. unfold in_range, newBitset, zlen. rewrite length_replicate.
  pose proof (Z.div_mod n 64 ltac:(lia)). pose proof (minor_range n).
  destruct (Z.eqb_spec (n mod 64) 0); cbn [negb]; lia.
Qed.

Lemma newBitset_wf n : wf (newBitset n).
Proof. apply Forall_replicate. lia. Qed.

Lemma word_bits w k : 0 <= w < 2 ^ 64 -> 64 <= k -> Z.testbit w k = false.
Proof.
  intros Hw Hk. rewrite <- (Z.mod_small w (2 ^ 64)) by done. apply Z.mod_pow2_bits_high. lia.
Qed.

(** Equal sets of the same capacity are equal slices. *)
Lemma mem_ext (b b2 : list Z) :
  wf b -> wf b2 -> zlen b = zlen b2 -> (forall q, 0 <= q -> mem b q = mem b2 q) -> b = b2.
Proof.
  intros Hb Hb2 Hl He. apply list_eq. intros i.
  destruct (b !! i) as [w|] eqn:E1, (b2 !! i) as [w2|] eqn:E2; [| | |done].
  - f_equal. apply Z.bits_inj'. intros k Hk.
    unfold wf in Hb, Hb2. rewrite Forall_lookup in Hb, Hb2. specialize (Hb _ _ E1). specialize (Hb2 _ _ E2).
    destruct (Z.lt_ge_cases k 64) as [Hk2|Hk2]; [|by rewrite (word_bits w), (word_bits w2)].
    assert ((64 * Z.of_nat i + k) / 64 = Z.of_nat i) as Hd.
    { symmetry. apply Z.div_unique_pos with k; lia. }
    assert ((64 * Z.of_nat i + k) mod 64 = k) as Hm.
    { symmetry. apply Z.mod_unique_pos with (Z.of_nat i); lia. }
    specialize (He (64 * Z.of_nat i + k) ltac:(lia)). unfold mem in He.
    rewrite Hd, Hm in He. unfold zget in He. bcase_in He; [|lia].
    rewrite Nat2Z.id, E1, E2 in He. done.
  - apply lookup_lt_Some in E1. apply lookup_ge_None in E2. unfold zlen in Hl. lia.
  - apply lookup_lt_Some in E2. apply lookup_ge_None in E1. unfold zlen in Hl. lia.
Qed.

(** [equals] decides equality of the sets. *)
Lemma equals_mem b b2 :
  wf b -> wf b2 -> zlen b = zlen b2 ->
  equals b b2 = true <-> forall q, 0 <= q -> mem b q = mem b2 q.
Proof. intros. rewrite equals_eq. split; [by intros ->|]. by apply mem_ext. Qed.
End Bitset.
