(* ===== verification/Porcupine.v ===== *)
(** * The linearizability checker (src/src/porcupine: model.go, checker.go,
    porcupine.go)

    [I] and [O] are the types of inputs and outputs and [St] of the model's states
    (all [interface{}] in the source); an entry holds one of the first two.  The doubly linked list of entries lives on a heap of
    nodes, on which [lift] and [unlift] write pointers as the source does; [iter] is
    one iteration of the loop of [checkSingle].  Pointers to sequences ([*[]int]) are
    positions in the list of the sequences allocated so far. *)
From S2P Require Import Prelude Bitset.

Module Porcupine.

(** ** Data (model.go, checker.go 9-27) *)

Section data.
Context {I O St : Type}.

Record Operation := {
  ClientId : Z; Input : I; Call : Z; Output : O; Return : Z }.

(** [CallEvent] is false, [ReturnEvent] true. *)
Record Event := { ev_ClientId : Z; ev_Kind : bool; ev_Value : I + O; ev_Id : Z }.

(** The fields that may be nil are options; the two that only describe operations and
    states for the visualization are left out. *)
Record Model := {
  Partition : option (list Operation -> list (list Operation));
  PartitionEvent : option (list Event -> list (list Event));
  Init : St;
  Step : St -> I -> O -> bool * St;
  Equal : option (St -> St -> bool);
}.

(** [callEntry] is false, [returnEntry] true. *)
Record entry := { kind : bool; value : I + O; id : Z; time : Z; clientId : Z }.

(** [byTime.Less] *)
Definition Less (a b : entry) : bool :=
  if negb (time a =? time b) then time a <? time b
  else negb (kind a) && kind b.
End data.
Arguments Operation : clear implicits.
Arguments Event : clear implicits.
Arguments Model : clear implicits.
Arguments entry : clear implicits.

(** [b] is not [Less] than [a]. *)
Definition entry_le {I O} (a b : entry I O) : Prop := Less b a = false.
#[export] Instance entry_le_dec {I O} : RelDecision (@entry_le I O).
Proof. intros a b. exact (decide (Less b a = false)). Defined.

(** [sort.Sort(byTime(entries))]: not stable, so the order of entries that are not
    [Less] than each other is left open. *)
Class EntrySort (I O : Type) := sortEntries : list (entry I O) -> list (entry I O).
Class EntrySortLaws (I O : Type) `{!EntrySort I O} : Prop := {
  sortEntries_perm : forall l : list (entry I O), sortEntries l ≡ₚ l;
  sortEntries_sorted : forall l : list (entry I O),
    StronglySorted entry_le (sortEntries l);
}.

(** A stable order is one of them. *)
Definition stableSort {I O} : EntrySort I O := fun l => merge_sort entry_le l.

(** [CheckResult] *)
Inductive CheckResult := Unknown | Ok | Illegal.
#[export] Instance CheckResult_eq_dec : EqDecision CheckResult.
Proof. solve_decision. Defined.

Section checker.
Context {I O St : Type} `{EqDecision St}.
Notation entry := (entry I O).
Notation Operation := (Operation I O).
Notation Event := (Event I O).
Notation Model := (Model I O St).

(** ** Defaults (model.go 51-61, checker.go 255-272) *)
Definition NoPartition (history : list Operation) : list (list Operation) := [history].
Definition NoPartitionEvent (history : list Event) : list (list Event) := [history].
Definition ShallowEqual (state1 state2 : St) : bool := bool_decide (state1 = state2).

(** The model after [fillDefault], when nothing is nil. *)
Record FullModel := {
  f_Partition : list Operation -> list (list Operation);
  f_PartitionEvent : list Event -> list (list Event);
  f_Init : St;
  f_Step : St -> I -> O -> bool * St;
  f_Equal : St -> St -> bool;
}.

Definition fillDefault (model : Model) : FullModel :=
  {| f_Partition := default NoPartition (Partition model);
     f_PartitionEvent := default NoPartitionEvent (PartitionEvent model);
     f_Init := Init model; f_Step := Step model;
     f_Equal := default ShallowEqual (Equal model) |}.

(** ** Entries (checker.go 48-60, 92-119) *)

(** The loop of [makeEntries] from [id] on. *)
Fixpoint appendEntries (i : Z) (history : list Operation) : list entry :=
  match history with
  | [] => []
  | elem :: history =>
      {| kind := false; value := inl (Input elem); id := i; time := Call elem;
         clientId := ClientId elem |} ::
      {| kind := true; value := inr (Output elem); id := i; time := Return elem;
         clientId := ClientId elem |} :: appendEntries (i + 1) history
  end.

Definition makeEntries `{!EntrySort I O} (history : list Operation) : list entry :=
  sortEntries (appendEntries 0 history).

Fixpoint renumberLoop (events : list Event) (m : gmap Z Z) (i : Z) : list Event :=
  match events with
  | [] => []
  | v :: events =>
      let renamed x := {| ev_ClientId := ev_ClientId v; ev_Kind := ev_Kind v;
                          ev_Value := ev_Value v; ev_Id := x |} in
      match m !! ev_Id v with
      | Some r => renamed r :: renumberLoop events m i
      | None => renamed i :: renumberLoop events (<[ev_Id v := i]> m) (i + 1)
      end
  end.
Definition renumber (events : list Event) : list Event := renumberLoop events ∅ 0.

Definition convertEntries (events : list Event) : list entry :=
  imap (fun i elem => {| kind := ev_Kind elem; value := ev_Value elem; id := ev_Id elem;
                         time := Z.of_nat i; clientId := ev_ClientId elem |}) events.

(** ** The linked list (checker.go 62-90, 121-138, 159-177) *)

Record node := {
  n_value : option (I + O);     (* nil in the head *)
  n_match : option nat;    (* call if match is not nil, otherwise return *)
  n_id : Z;
  n_next : option nat;
  n_prev : option nat;
}.
Abbreviation heap := (gmap nat node).

Definition with_next (x : option nat) (n : node) : node :=
  {| n_value := n_value n; n_match := n_match n; n_id := n_id n; n_next := x;
     n_prev := n_prev n |}.
Definition with_prev (x : option nat) (n : node) : node :=
  {| n_value := n_value n; n_match := n_match n; n_id := n_id n; n_next := n_next n;
     n_prev := x |}.

(** [p.next = x] and [p.prev = x]; [None]: [p] is nil. *)
Definition setNext (p : option nat) (x : option nat) (h : heap) : option heap :=
  p ← p; n ← h !! p; Some (<[p := with_next x n]> h).
Definition setPrev (p : option nat) (x : option nat) (h : heap) : option heap :=
  p ← p; n ← h !! p; Some (<[p := with_prev x n]> h).

Definition insertBefore (n : nat) (mark : option nat) (h : heap) : option heap :=
  match mark with
  | None => Some h
  | Some m =>
      mk ← h !! m;
      let beforeMark := n_prev mk in
      h ← setPrev mark (Some n) h;
      h ← setNext (Some n) mark h;
      match beforeMark with
      | None => Some h
      | Some b => h ← setPrev (Some n) beforeMark h; setNext beforeMark (Some n) h
      end
  end.

(** [fuel] bounds the length of the list. *)
Fixpoint lengthFrom (fuel : nat) (n : option nat) (h : heap) : option Z :=
  match n with
  | None => Some 0
  | Some p =>
      match fuel with
      | 0%nat => None
      | S fuel => nd ← h !! p; l ← lengthFrom fuel (n_next nd) h; Some (l + 1)
      end
  end.

(** The loop of [makeLinkedEntries], on the entries from the last one; [k] is the
    location of the next node. *)
Fixpoint linkEntries (rev_entries : list entry) (k : nat) (root : option nat)
    (matches : gmap Z nat) (h : heap) : option (option nat * heap) :=
  match rev_entries with
  | [] => Some (root, h)
  | elem :: rest =>
      let fresh m := {| n_value := Some (value elem); n_match := m; n_id := id elem;
                        n_next := None; n_prev := None |} in
      if kind elem then
        h ← insertBefore k root (<[k := fresh None]> h);
        linkEntries rest (k + 1) (Some k) (<[id elem := k]> matches) h
      else
        h ← insertBefore k root (<[k := fresh (matches !! id elem)]> h);
        linkEntries rest (k + 1) (Some k) matches h
  end.

Definition makeLinkedEntries (entries : list entry) : option (option nat * heap) :=
  linkEntries (reverse entries) 0 None ∅ ∅.

Definition lift (e : nat) (h : heap) : option heap :=
  en ← h !! e;
  h ← setNext (n_prev en) (n_next en) h;
  en ← h !! e;
  h ← setPrev (n_next en) (n_prev en) h;
  en ← h !! e;
  m ← n_match en;
  mn ← h !! m;
  h ← setNext (n_prev mn) (n_next mn) h;
  mn ← h !! m;
  match n_next mn with
  | None => Some h
  | Some _ => setPrev (n_next mn) (n_prev mn) h
  end.

Definition unlift (e : nat) (h : heap) : option heap :=
  en ← h !! e;
  m ← n_match en;
  mn ← h !! m;
  h ← setNext (n_prev mn) (Some m) h;
  mn ← h !! m;
  h ← (match n_next mn with
       | None => Some h
       | Some _ => setPrev (n_next mn) (Some m) h
       end);
  en ← h !! e;
  h ← setNext (n_prev en) (Some e) h;
  en ← h !! e;
  setPrev (n_next en) (Some e) h.

(** ** The search (checker.go 140-253) *)

Record cacheEntry := { c_linearized : Bitset.t; c_state : St }.

Definition cacheContains (model : FullModel) (cache : gmap Z (list cacheEntry))
    (e : cacheEntry) : bool :=
  existsb (fun elem => Bitset.equals (c_linearized e) (c_linearized elem) &&
                       f_Equal model (c_state e) (c_state elem))
    (default [] (cache !! Bitset.hash (c_linearized e))).

Record callsEntry := { ce_entry : nat; ce_state : St }.

Record config := {
  hp : heap;
  cur : option nat;                      (* [entry] *)
  linearized : Bitset.t;
  cache : gmap Z (list cacheEntry);
  calls : list callsEntry;
  st : St;
  longest : list (option nat);           (* pointers to sequences *)
  seqs : list (list Z);                  (* the sequences allocated so far *)
}.

(** [v.entry.id] for every element of [calls]. *)
Fixpoint callIds (h : heap) (cs : list callsEntry) : option (list Z) :=
  match cs with
  | [] => Some []
  | v :: cs => n ← h !! ce_entry v; l ← callIds h cs; Some (n_id n :: l)
  end.

(** The loop over [calls] that records the current sequence [seq] as the longest one
    for its members; [ptr] is its pointer once it was created. *)
Fixpoint noteLongest (ids seq : list Z) (ptr : option nat) (lg : list (option nat))
    (ss : list (list Z)) : option (list (option nat) * list (list Z)) :=
  match ids with
  | [] => Some (lg, ss)
  | i :: ids =>
      old ← zget lg i;
      better ← (match old with
                | None => Some true
                | Some p => s ← ss !! p; Some (zlen s <? zlen seq)
                end);
      if (better : bool) then
        let '(p, ss) := match ptr with
                        | Some p => (p, ss)
                        | None => (length ss, ss ++ [seq])
                        end in
        lg ← zset lg i (Some p);
        noteLongest ids seq (Some p) lg ss
      else noteLongest ids seq ptr lg ss
  end.

Inductive outcome := Continue (c : config) | Finished (ok : bool) (c : config).

(** The location of [headEntry] is [hd]. *)
Definition iterCall (model : FullModel) (hd e : nat) (en : node) (m : nat) (c : config) :
    option outcome :=
  matching ← hp c !! m;
  '(vin, vout) ← (match n_value en, n_value matching with
                  | Some (inl vin), Some (inr vout) => Some (vin, vout)
                  | _, _ => None
                  end);
  let next := Some (Continue {| hp := hp c; cur := n_next en; linearized := linearized c;
                                cache := cache c; calls := calls c; st := st c;
                                longest := longest c; seqs := seqs c |}) in
  let '(ok, newState) := f_Step model (st c) vin vout in
  if (ok : bool) then
    newLinearized ← Bitset.set (n_id en) (Bitset.clone (linearized c));
    let newCacheEntry := {| c_linearized := newLinearized; c_state := newState |} in
    if negb (cacheContains model (cache c) newCacheEntry) then
      let hash := Bitset.hash newLinearized in
      lin ← Bitset.set (n_id en) (linearized c);
      h ← lift e (hp c);
      headEntry ← h !! hd;
      Some (Continue
        {| hp := h; cur := n_next headEntry; linearized := lin;
           cache := <[hash := default [] (cache c !! hash) ++ [newCacheEntry]]> (cache c);
           calls := calls c ++ [ {| ce_entry := e; ce_state := st c |} ];
           st := newState; longest := longest c; seqs := seqs c |})
    else next
  else next.

Definition iterReturn (computePartial : bool) (c : config) : option outcome :=
  match last (calls c) with
  | None => Some (Finished false c)
  | Some callsTop =>
      ids ← callIds (hp c) (calls c);
      '(lg, ss) ← (if computePartial then noteLongest ids ids None (longest c) (seqs c)
                   else Some (longest c, seqs c));
      let e := ce_entry callsTop in
      en ← hp c !! e;
      lin ← Bitset.clear (n_id en) (linearized c);
      h ← unlift e (hp c);
      en ← h !! e;
      Some (Continue
        {| hp := h; cur := n_next en; linearized := lin; cache := cache c;
           calls := take (length (calls c) - 1) (calls c); st := ce_state callsTop;
           longest := lg; seqs := ss |})
  end.

(** One iteration of the loop; [killed] is what [atomic.LoadInt32(kill)] gives. *)
Definition iter (model : FullModel) (computePartial killed : bool) (hd : nat) (c : config) :
    option outcome :=
  headEntry ← hp c !! hd;
  match n_next headEntry with
  | None =>
      ids ← callIds (hp c) (calls c);
      let p := length (seqs c) in
      Some (Finished true
        {| hp := hp c; cur := cur c; linearized := linearized c; cache := cache c;
           calls := calls c; st := st c;
           longest := (fun _ => Some p) <$> longest c; seqs := seqs c ++ [ids] |})
  | Some _ =>
      if killed then Some (Finished false c)
      else
        e ← cur c;
        en ← hp c !! e;
        match n_match en with
        | Some m => iterCall model hd e en m c
        | None => iterReturn computePartial c
        end
  end.

(** The loop; [kill]: the iteration that finds the flag set, if any.  [None] when the
    fuel runs out or the code panics. *)
Fixpoint searchLoop (fuel : nat) (model : FullModel) (computePartial : bool)
    (kill : option nat) (hd : nat) (c : config) : option (bool * config) :=
  match fuel with
  | 0%nat => None
  | S fuel =>
      o ← iter model computePartial (bool_decide (kill = Some 0%nat)) hd c;
      match o with
      | Finished ok c => Some (ok, c)
      | Continue c => searchLoop fuel model computePartial (pred <$> kill) hd c
      end
  end.

Definition startSearch (model : FullModel) (history : list entry) : option (nat * config) :=
  '(e, h) ← makeLinkedEntries history;
  len ← lengthFrom (S (length history)) e h;
  let n := len / 2 in
  let hd := length history in
  let head := {| n_value := None; n_match := None; n_id := -1; n_next := None;
                 n_prev := None |} in
  h ← insertBefore hd e (<[hd := head]> h);
  Some (hd, {| hp := h; cur := e; linearized := Bitset.newBitset n; cache := ∅; calls := [];
               st := f_Init model; longest := replicate (Z.to_nat n) None; seqs := [] |}).

Definition checkSingle (fuel : nat) (model : FullModel) (history : list entry)
    (computePartial : bool) (kill : option nat) : option (bool * config) :=
  '(hd, c) ← startSearch model history; searchLoop fuel model computePartial kill hd c.

(** ** Partitions in parallel (checker.go 274-373) *)

(** The sequences of the distinct pointers in [longest] (the order of [range set] is
    left open in the source; here it is the order of [longest]). *)
Definition partialsOf (c : config) : list (list Z) :=
  omap (fun p => seqs c !! p) (remove_dups (omap (fun x => x) (longest c))).

Record linearizationInfo := {
  li_history : list (list entry);
  partialLinearizations : list (list (list Z));
}.

(** The loop.  [order]: the goroutine whose result is received next, or [None] when the
    timeout fires; [longest]: what the goroutines that were received left.  The result
    is [ok], [timedOut] and [longest]; [None]: the loop blocks, or a search does not
    end within the fuel. *)
Fixpoint awaitResults (fuel : nat) (model : FullModel) (history : list (list entry))
    (computeInfo : bool) (order : list (option nat)) (count : Z) (ok : bool)
    (longest : gmap nat config) : option (bool * bool * gmap nat config) :=
  match order with
  | [] => None
  | None :: _ => Some (ok, true, longest)
  | Some i :: order =>
      match longest !! i with
      | Some _ => None                   (* a goroutine sends one result *)
      | None =>
          subhistory ← history !! i;
          '(result, c) ← checkSingle fuel model subhistory computeInfo None;
          let count := count + 1 in
          let ok := ok && result in
          let longest := <[i := c]> longest in
          if negb ok && negb computeInfo then Some (ok, false, longest)
          else if zlen history <=? count then Some (ok, false, longest)
          else awaitResults fuel model history computeInfo order count ok longest
      end
  end.

(** [computeInfo]: the goroutines that are still running are waited for; [kills i] is
    the iteration at which goroutine [i] sees [kill], if it does. *)
Definition collectPartials (fuel : nat) (model : FullModel) (history : list (list entry))
    (longest : gmap nat config) (kills : nat -> option nat) : option (list (list (list Z))) :=
  mapM (fun '(i, subhistory) =>
    match longest !! i with
    | Some c => Some (partialsOf c)
    | None => '(_, c) ← checkSingle fuel model subhistory true (kills i); Some (partialsOf c)
    end) (imap pair history).

Definition verdict (ok timedOut : bool) : CheckResult :=
  if negb ok then Illegal else if timedOut then Unknown else Ok.

Definition checkParallel (fuel : nat) (model : FullModel) (history : list (list entry))
    (computeInfo : bool) (order : list (option nat)) (kills : nat -> option nat) :
    option (CheckResult * linearizationInfo) :=
  '(ok, timedOut, longest) ← awaitResults fuel model history computeInfo order 0 true ∅;
  info ← (if computeInfo then
            partials ← collectPartials fuel model history longest kills;
            Some {| li_history := history; partialLinearizations := partials |}
          else Some {| li_history := []; partialLinearizations := [] |});
  Some (verdict ok timedOut, info).

Definition checkOperations `{!EntrySort I O} (fuel : nat) (model : Model)
    (history : list Operation) (verbose : bool) (order : list (option nat))
    (kills : nat -> option nat) : option (CheckResult * linearizationInfo) :=
  let model := fillDefault model in
  checkParallel fuel model (makeEntries <$> f_Partition model history) verbose order kills.

Definition checkEvents (fuel : nat) (model : Model) (history : list Event) (verbose : bool)
    (order : list (option nat)) (kills : nat -> option nat) :
    option (CheckResult * linearizationInfo) :=
  let model := fillDefault model in
  checkParallel fuel model
    ((fun sub => convertEntries (renumber sub)) <$> f_PartitionEvent model history)
    verbose order kills.

(** ** porcupine.go: without a timeout [order] has no [None] *)
Definition CheckOperations `{!EntrySort I O} (fuel : nat) (model : Model)
    (history : list Operation) (order : list nat) : option bool :=
  '(res, _) ← checkOperations fuel model history false (Some <$> order) (fun _ => None);
  Some (bool_decide (res = Ok)).
Definition CheckOperationsTimeout `{!EntrySort I O} (fuel : nat) (model : Model)
    (history : list Operation) (order : list (option nat)) (kills : nat -> option nat) :
    option CheckResult :=
  '(res, _) ← checkOperations fuel model history false order kills; Some res.
Definition CheckOperationsVerbose `{!EntrySort I O} (fuel : nat) (model : Model)
    (history : list Operation) (order : list (option nat)) (kills : nat -> option nat) :
    option (CheckResult * linearizationInfo) :=
  checkOperations fuel model history true order kills.
Definition CheckEvents (fuel : nat) (model : Model) (history : list Event)
    (order : list nat) : option bool :=
  '(res, _) ← checkEvents fuel model history false (Some <$> order) (fun _ => None);
  Some (bool_decide (res = Ok)).
Definition CheckEventsTimeout (fuel : nat) (model : Model) (history : list Event)
    (order : list (option nat)) (kills : nat -> option nat) : option CheckResult :=
  '(res, _) ← checkEvents fuel model history false order kills; Some res.
Definition CheckEventsVerbose (fuel : nat) (model : Model) (history : list Event)
    (order : list (option nat)) (kills : nat -> option nat) :
    option (CheckResult * linearizationInfo) :=
  checkEvents fuel model history true order kills.
End checker.
End Porcupine.
