(* ===== verification/KvModel.v ===== *)
(** * The sequential specification the tests check against (src/src/models/kv.go)

    [KvModel] models the value of a single key; [Partition] splits a history by key.
    The specification of the whole store is in PorcProps. *)
From S2P Require Import Prelude Bitset Porcupine.

Module KvModel.
Import Porcupine.

(** [Op]: 0 => get, 1 => put, 2 => append *)
Record KvInput := { Op : Z; Key : string; Value : string }.
Record KvOutput := { out_Value : string }.
Abbreviation KvOperation := (Operation KvInput KvOutput).

(** The first loop of [Partition]: the operations of every key, in order. *)
Definition byKey (history : list KvOperation) : gmap string (list KvOperation) :=
  foldl (fun m v => let key := Key (Input v) in
                    <[key := default [] (m !! key) ++ [v]]> m) ∅ history.

Definition Partition (history : list KvOperation) : list (list KvOperation) :=
  let m := byKey history in
  let keys := merge_sort string_le (map_to_list m).*1 in
  (fun k => default [] (m !! k)) <$> keys.

Definition Init : string := EmptyString.

Definition Step (state : string) (inp : KvInput) (out : KvOutput) : bool * string :=
  if Op inp =? 0 then (String.eqb (out_Value out) state, state)
  else if Op inp =? 1 then (true, Value inp)
  else (true, state +:+ Value inp).

Definition DescribeOperation (inp : KvInput) (out : KvOutput) : string :=
  if Op inp =? 0 then "get('" +:+ Key inp +:+ "') -> '" +:+ out_Value out +:+ "'"
  else if Op inp =? 1 then "put('" +:+ Key inp +:+ "', '" +:+ Value inp +:+ "')"
  else if Op inp =? 2 then "append('" +:+ Key inp +:+ "', '" +:+ Value inp +:+ "')"
  else "<invalid>".

Definition KvModel : Model KvInput KvOutput string :=
  {| Porcupine.Partition := Some Partition; PartitionEvent := None;
     Porcupine.Init := Init; Porcupine.Step := Step; Equal := None |}.
End KvModel.
