(* ===== verification/PorcLin.v ===== *)
(** * Linearizability of a history of entries

    The declarative definition ([linearizes], [linearizable]): an order of the
    operations in which a [Step] exists for each and which keeps the order of
    operations that do not overlap.  [Path] and [Lin] are its operational forms, one
    operation at a time from the remaining history: a prefix that was already chosen
    and a completion that is still possible.  The lemmas relate the three. *)
From S2P Require Import Prelude Bitset Porcupine.
Import Porcupine.

Section history.
Context {I O : Type}.
Notation entry := (entry I O).

(** ** Histories *)

Definition callOf (en : entry) (i : Z) (v : I) : Prop :=
  kind en = false /\ id en = i /\ value en = inl v.
Definition returnOf (en : entry) (i : Z) (v : O) : Prop :=
  kind en = true /\ id en = i /\ value en = inr v.

(** The entries of operation [i] are [e] and [m], between [A], [B] and [C]. *)
Definition splits (l : list entry) (i : Z) (vi : I) (vo : O) (A B C : list entry)
    (e m : entry) : Prop :=
  l = A ++ e :: B ++ m :: C /\ callOf e i vi /\ returnOf m i vo /\
  forall en, en ∈ A ++ B ++ C -> id en <> i.

(** [n] operations, each with one call and a later return. *)
Record wf_history (hist : list entry) (n : Z) : Prop := {
  wh_n : 0 <= n;
  wh_op i : 0 <= i < n -> exists vi vo A B C e m, splits hist i vi vo A B C e m;
  wh_id en : en ∈ hist -> 0 <= id en < n;
}.

Definition calls_only (l : list entry) : Prop := forall en, en ∈ l -> kind en = false.

(** The entries of the operations outside a set. *)
Definition remaining (b : Z -> bool) (l : list entry) : list entry :=
  filter (fun en => b (id en) = false) l.

(** Operation [i] returns before operation [j] is called. *)
Definition precedes (hist : list entry) (i j : Z) : Prop :=
  exists l1 l2 r c, hist = l1 ++ l2 /\ r ∈ l1 /\ kind r = true /\ id r = i /\
                    c ∈ l2 /\ kind c = false /\ id c = j.

Definition isOp (hist : list entry) (i : Z) (vi : I) (vo : O) : Prop :=
  (exists e, e ∈ hist /\ callOf e i vi) /\ (exists m, m ∈ hist /\ returnOf m i vo).

Lemma remaining_app b l1 l2 : remaining b (l1 ++ l2) = remaining b l1 ++ remaining b l2.
Proof. apply filter_app. Qed.

Lemma elem_of_remaining b l en : en ∈ remaining b l <-> en ∈ l /\ b (id en) = false.
Proof. unfold remaining. rewrite list_elem_of_filter. naive_solver. Qed.

Lemma remaining_cons_in b e l : b (id e) = false -> remaining b (e :: l) = e :: remaining b l.
Proof. intros. unfold remaining. by rewrite filter_cons_True. Qed.

Lemma remaining_cons_out b e l : b (id e) = true -> remaining b (e :: l) = remaining b l.
Proof. intros H. unfold remaining. rewrite filter_cons_False; [done|congruence]. Qed.

Lemma remaining_none b l : (forall en, en ∈ l -> b (id en) = false) -> remaining b l = l.
Proof.
  induction l as [|e l IH]; intros H; [done|].
  rewrite remaining_cons_in by (apply H; constructor). f_equal. apply IH.
  intros en ?. apply H. by constructor.
Qed.

Lemma remaining_ext b b' l :
  (forall en, en ∈ l -> b (id en) = b' (id en)) -> remaining b l = remaining b' l.
Proof.
  induction l as [|e l IH]; intros H; [done|].
  assert (b (id e) = b' (id e)) as He by (apply H; constructor).
  assert (remaining b l = remaining b' l) as Hl by (apply IH; intros; apply H; by constructor).
  destruct (b (id e)) eqn:E; [rewrite !remaining_cons_out|rewrite !remaining_cons_in]; congruence.
Qed.

(** An operation that is left keeps its place in the remaining history. *)
Lemma splits_remaining b hist i vi vo A B C e m :
  splits hist i vi vo A B C e m -> b i = false ->
  splits (remaining b hist) i vi vo (remaining b A) (remaining b B) (remaining b C) e m.
Proof.
  intros (-> & Hc & Hr & Hn) Hb. split_and!; [|done|done|].
  - rewrite remaining_app, remaining_cons_in by (destruct Hc as (_ & -> & _); done).
    by rewrite remaining_app, remaining_cons_in by (destruct Hr as (_ & -> & _); done).
  - intros en Hen. apply Hn. rewrite !elem_of_app, !elem_of_remaining in Hen.
    rewrite !elem_of_app. naive_solver.
Qed.

(** Taking an operation out. *)
Lemma splits_take b b' hist i vi vo A B C e m :
  splits hist i vi vo A B C e m ->
  (forall q, b' q = bool_decide (q = i) || b q) ->
  remaining b' hist = remaining b A ++ remaining b B ++ remaining b C.
Proof.
  intros (-> & Hc & Hr & Hn) Hb.
  assert (forall l, l ⊆ A ++ B ++ C -> remaining b' l = remaining b l) as Hs.
  { intros l Hl. apply remaining_ext. intros en Hen. rewrite Hb.
    rewrite bool_decide_eq_false_2; [done|]. apply Hn. by apply Hl. }
  assert (b' i = true) as Hi by (rewrite Hb; by rewrite bool_decide_eq_true_2).
  rewrite remaining_app, remaining_cons_out by (destruct Hc as (_ & -> & _); done).
  rewrite remaining_app, remaining_cons_out by (destruct Hr as (_ & -> & _); done).
  rewrite !Hs; set_solver.
Qed.

(** The only entry of [i] in a list has one place. *)
Lemma mid_unique (B C B' C' : list entry) m m' i :
  (forall en, en ∈ B ++ C -> id en <> i) -> id m' = i -> B ++ m :: C = B' ++ m' :: C' ->
  B' = B /\ m' = m /\ C' = C.
Proof.
  intros Hn Hm E. apply app_eq_inv in E as [(k & E1 & E2)|(k & E1 & E2)].
  - destruct k as [|x k]; cbn in E2; [injection E2 as -> ->; by rewrite app_nil_r in E1|].
    injection E2 as -> E2. exfalso. apply (Hn x); [|done]. rewrite E1. set_solver.
  - destruct k as [|x k]; cbn in E2; [injection E2 as -> ->; by rewrite app_nil_r in E1|].
    injection E2 as -> E2. exfalso. apply (Hn m'); [|done]. rewrite E2. set_solver.
Qed.

(** The place of the call in a list determines the split. *)
Lemma splits_call l i vi vo A B C e m A' l' e' vi' :
  splits l i vi vo A B C e m -> l = A' ++ e' :: l' -> callOf e' i vi' ->
  A' = A /\ e' = e /\ l' = B ++ m :: C.
Proof.
  intros (-> & Hc & Hr & Hn) E Hc'. symmetry in E.
  assert (forall en, en ∈ A ++ B ++ C -> en <> e') as Hne.
  { intros en Hen ->. destruct Hc' as (_ & Hi & _). by apply (Hn e'). }
  assert (e' <> m) as Hm by (destruct Hr as (? & _), Hc' as (? & _); congruence).
  apply app_eq_inv in E as [(k & E1 & E2)|(k & E1 & E2)].
  - destruct k as [|x k]; cbn in E2.
    { injection E2 as -> <-. by rewrite app_nil_r in E1. }
    injection E2 as -> E2. assert (e' ∈ B ++ m :: C) as Hin by (rewrite E2; set_solver).
    exfalso. rewrite elem_of_app, elem_of_cons in Hin. destruct Hin as [?|[?|?]]; [|done|];
      (apply (Hne e'); [|done]); set_solver.
  - destruct k as [|x k]; cbn in E2.
    { injection E2 as -> ->. by rewrite app_nil_r in E1. }
    injection E2 as -> E2. exfalso. apply (Hne x); [|done]. rewrite E1. set_solver.
Qed.

Definition chosen (seq : list Z) : Z -> bool := fun q => bool_decide (q ∈ seq).

(** A remaining operation is the one the list shows. *)
Lemma remaining_op hist n seq A e B m C i vi vo :
  wf_history hist n -> A ++ e :: B ++ m :: C = remaining (chosen seq) hist ->
  callOf e i vi -> returnOf m i vo ->
  i ∉ seq /\ exists A0 B0 C0, splits hist i vi vo A0 B0 C0 e m /\
    A = remaining (chosen seq) A0 /\ B = remaining (chosen seq) B0 /\
    C = remaining (chosen seq) C0.
Proof.
  intros W E Hc Hr.
  assert (e ∈ hist /\ chosen seq (id e) = false) as [Hin Hch].
  { apply elem_of_remaining. rewrite <- E. set_solver. }
  destruct Hc as (Hk & <- & Hv). unfold chosen in Hch. apply bool_decide_eq_false in Hch.
  split; [done|].
  destruct (wh_op _ _ W (id e) (wh_id _ _ W e Hin)) as (vi' & vo' & A0 & B0 & C0 & e0 & m0 & Hsp).
  assert (chosen seq (id e) = false) as Hch' by (by apply bool_decide_eq_false_2).
  pose proof (splits_remaining _ _ _ _ _ _ _ _ _ _ Hsp Hch') as Hsp'.
  destruct (splits_call _ _ _ _ _ _ _ _ _ A (B ++ m :: C) e vi Hsp' (eq_sym E)) as (-> & -> & E2);
    [done|].
  destruct Hsp' as (_ & _ & Hm0 & Hn).
  assert (B = remaining (chosen seq) B0 /\ m = m0 /\ C = remaining (chosen seq) C0) as (-> & -> & ->).
  { symmetry in E2. apply (mid_unique _ _ _ _ _ _ (id e0)) in E2; [done| |apply Hr].
    intros en Hen. apply Hn. set_solver. }
  exists A0, B0, C0. split_and!; try done.
  destruct Hsp as (H1 & (? & ? & ?) & (? & ? & ?) & H4). split_and!; try done;
    destruct Hr as (? & ? & ?); split_and!; done || congruence.
Qed.

(** An operation has one call and one return. *)
Lemma splits_unique hist i vi vo A B C e m en :
  splits hist i vi vo A B C e m -> en ∈ hist -> id en = i ->
  en = if kind en then m else e.
Proof.
  intros (-> & (Hk & _) & (Hkm & _) & Hn) Hin Hi.
  rewrite elem_of_app, elem_of_cons, elem_of_app, elem_of_cons in Hin.
  destruct Hin as [?|[->|[?|[->|?]]]]; [|by rewrite Hk| |by rewrite Hkm|];
    exfalso; apply (Hn en); set_solver.
Qed.

Lemma splits_isOp hist i vi vo A B C e m :
  splits hist i vi vo A B C e m -> isOp hist i vi vo.
Proof. intros (-> & Hc & Hr & _). split; [exists e|exists m]; (split; [set_solver|done]). Qed.

(** The call of an operation that is next is after the returns that precede it. *)
Lemma precedes_in hist i j vi vo A B C e m :
  splits hist j vi vo A B C e m -> precedes hist i j ->
  exists r, r ∈ A /\ kind r = true /\ id r = i.
Proof.
  intros Hsp (l1 & l2 & r & c & E & Hr & Hk & Hi & Hc & Hkc & Hj). exists r. split; [|done].
  pose proof Hsp as (E0 & Hce & (Hkm & _) & Hn).
  assert (e ∉ l1) as He1.
  { intros (x & y & ->)%list_elem_of_split. rewrite <- app_assoc in E.
    destruct (splits_call _ _ _ _ _ _ _ _ _ x (y ++ l2) e vi Hsp E Hce) as (_ & _ & E2).
    assert (c ∈ B ++ m :: C) as Hin by (rewrite <- E2; set_solver).
    rewrite elem_of_app, elem_of_cons in Hin. destruct Hin as [?|[->|?]];
      [apply (Hn c); set_solver|congruence|apply (Hn c); set_solver]. }
  rewrite E0 in E. apply app_eq_inv in E as [(k & -> & _)|(k & -> & E2)]; [set_solver|].
  destruct k as [|u k]; [set_solver|]. injection E2 as -> E2. set_solver.
Qed.

End history.

Section lin.
Context {I O St : Type}.
Notation entry := (entry I O).
Context (step : St -> I -> O -> bool * St) (init : St).

(** ** The declarative definition *)

(** The sequential execution of the operations [seq]. *)
Inductive executes (hist : list entry) : St -> list Z -> St -> Prop :=
  | executes_nil s : executes hist s [] s
  | executes_cons s i vi vo s1 seq s2 :
      isOp hist i vi vo -> step s vi vo = (true, s1) -> executes hist s1 seq s2 ->
      executes hist s (i :: seq) s2.

(** [seq] is a linearization of a part of the history that is closed under
    [precedes], ending in state [s]. *)
Record linearizes (hist : list entry) (seq : list Z) (s : St) : Prop := {
  lz_run : executes hist init seq s;
  lz_once : NoDup seq;
  lz_order l1 j l2 i : seq = l1 ++ j :: l2 -> precedes hist i j -> i ∈ l1;
}.

Definition linearizable (hist : list entry) (n : Z) : Prop :=
  exists seq s, linearizes hist seq s /\ forall i, 0 <= i < n -> i ∈ seq.

(** ** The operational forms *)

(** The rest of the history can be completed from state [s]. *)
Inductive Lin : list entry -> St -> Prop :=
  | Lin_nil s : Lin [] s
  | Lin_op A e B m C s i vi vo s' :
      calls_only A -> callOf e i vi -> returnOf m i vo -> step s vi vo = (true, s') ->
      Lin (A ++ B ++ C) s' -> Lin (A ++ e :: B ++ m :: C) s.

(** [Path hist seq L s]: after [seq] the entries [L] remain, in state [s]. *)
Inductive Path (hist : list entry) : list Z -> list entry -> St -> Prop :=
  | Path_nil : Path hist [] hist init
  | Path_op seq A e B m C s i vi vo s' :
      Path hist seq (A ++ e :: B ++ m :: C) s ->
      calls_only A -> callOf e i vi -> returnOf m i vo -> step s vi vo = (true, s') ->
      Path hist (seq ++ [i]) (A ++ B ++ C) s'.

(** ** The three agree *)

Lemma executes_snoc hist s seq s1 i vi vo s2 :
  executes hist s seq s1 -> isOp hist i vi vo -> step s1 vi vo = (true, s2) ->
  executes hist s (seq ++ [i]) s2.
Proof.
  induction 1 as [s|s j vj wj s1 seq s3 Hop Hs _ IH]; intros Hi Hi2; cbn.
  - econstructor; [done..|constructor].
  - econstructor; [done..|]. by apply IH.
Qed.

Lemma Path_spec hist n seq L s :
  wf_history hist n -> Path hist seq L s ->
  linearizes hist seq s /\ L = remaining (chosen seq) hist.
Proof.
  intros W. induction 1 as [|seq A e B m C s i vi vo s' HP [IH1 IH2] Ha Hc Hr Hs].
  - split; [split; [constructor|constructor|by intros []]|].
    symmetry. apply remaining_none. intros en _. by apply bool_decide_eq_false_2, not_elem_of_nil.
  - destruct (remaining_op _ _ _ _ _ _ _ _ _ _ _ W IH2 Hc Hr) as (Hi & A0 & B0 & C0 & Hsp & EA & EB & EC).
    split.
    + destruct IH1 as [H1 H2 H3]. split.
      * eapply executes_snoc; [done|by eapply splits_isOp|done].
      * apply NoDup_app. split_and!; [done| |apply NoDup_singleton]. set_solver.
      * intros l1 j l2 i' E Hp. destruct l2 as [|y l2 _] using rev_ind.
        -- apply app_inj_tail in E as [<- <-].
           destruct (precedes_in _ _ _ _ _ _ _ _ _ _ Hsp Hp) as (r & Hr1 & Hr2 & <-).
           destruct (decide (id r ∈ seq)) as [|Hno]; [done|]. exfalso.
           assert (kind r = false); [|congruence]. apply Ha. rewrite EA.
           apply elem_of_remaining. split; [done|]. by apply bool_decide_eq_false_2.
        -- rewrite app_comm_cons, app_assoc in E. apply app_inj_tail in E as [E _].
           by eapply H3.
    + rewrite EA, EB, EC. symmetry. eapply splits_take; [done|]. intros q. unfold chosen.
      rewrite <- bool_decide_or. apply bool_decide_ext. rewrite elem_of_app, list_elem_of_singleton.
      naive_solver.
Qed.

(** A path to the end is a linearization of the whole history. *)
Lemma Path_linearizable hist n seq s :
  wf_history hist n -> Path hist seq [] s ->
  linearizes hist seq s /\ forall i, 0 <= i < n -> i ∈ seq.
Proof.
  intros W HP. destruct (Path_spec _ _ _ _ _ W HP) as [Hl Hr]. split; [done|].
  intros i Hi. destruct (wh_op _ _ W i Hi) as (vi & vo & A & B & C & e & m & -> & (_ & <- & _) & _).
  destruct (decide (id e ∈ seq)) as [|Hno]; [done|]. exfalso.
  assert (e ∈ remaining (chosen seq) (A ++ e :: B ++ m :: C)) as Hin.
  { apply elem_of_remaining. split; [set_solver|]. by apply bool_decide_eq_false_2. }
  rewrite <- Hr in Hin. by apply not_elem_of_nil in Hin.
Qed.

(** A linearization can be followed from any of its prefixes. *)
Lemma linearizes_Lin hist n seq s : wf_history hist n ->
  linearizes hist seq s -> (forall i, 0 <= i < n -> i ∈ seq) -> Lin hist init.
Proof.
  intros W [H1 H2 H3] Hall.
  assert (forall rest s1 done, seq = done ++ rest -> executes hist s1 rest s ->
    Lin (remaining (chosen done) hist) s1) as Hgen.
  { clear H1. induction rest as [|j rest IH]; intros s1 done E Hx.
    - rewrite app_nil_r in E. subst done.
      assert (remaining (chosen seq) hist = []) as ->; [|constructor].
      apply elem_of_nil_inv. intros en [Hin Hch]%elem_of_remaining.
      apply bool_decide_eq_false in Hch. apply Hch, Hall. by apply (wh_id _ _ W).
    - inversion Hx as [|? ? vi vo s2 ? ? [(e0 & Hin0 & Hc0) (m0 & Hm0 & Hr0)] Hs Hx']; subst.
      assert (j ∉ done) as Hj.
      { apply NoDup_app in H2 as (_ & Hd & _). intros Hj. apply (Hd j Hj). set_solver. }
      pose proof (wh_id _ _ W e0 Hin0) as Hrange. destruct Hc0 as (Hk0 & Hid & Hv0).
      rewrite Hid in Hrange.
      destruct (wh_op _ _ W j Hrange) as (vi' & vo' & A & B & C & e & m & Hsp).
      assert (chosen done j = false) as Hch by (by apply bool_decide_eq_false_2).
      destruct (splits_remaining _ _ _ _ _ _ _ _ _ _ Hsp Hch) as (E1 & Hce & Hrm & _).
      assert (e0 = e /\ m0 = m) as [-> ->].
      { destruct Hr0 as (Hkm & Him & _). split.
        - by rewrite (splits_unique _ _ _ _ _ _ _ _ _ e0 Hsp Hin0 Hid), Hk0.
        - by rewrite (splits_unique _ _ _ _ _ _ _ _ _ m0 Hsp Hm0 Him), Hkm. }
      rewrite E1. eapply Lin_op; [|by split_and!|exact Hr0|exact Hs|].
      + intros en [Hin Hd]%elem_of_remaining. destruct (kind en) eqn:Hk; [|done]. exfalso.
        apply bool_decide_eq_false in Hd. apply Hd. apply (H3 done j rest); [done|].
        destruct Hsp as (-> & (? & ? & _) & _). exists A, (e :: B ++ m :: C), en, e.
        split_and!; try done. set_solver.
      + rewrite <- (splits_take (chosen done) (chosen (done ++ [j])) _ _ _ _ _ _ _ _ _ Hsp).
        * apply IH; [by rewrite <- app_assoc|done].
        * intros q. unfold chosen. rewrite <- bool_decide_or. apply bool_decide_ext.
          rewrite elem_of_app, list_elem_of_singleton. naive_solver. }
  specialize (Hgen seq init [] eq_refl H1).
  assert (remaining (chosen []) hist = hist) as E; [|by rewrite E in Hgen].
  apply remaining_none. intros en _. by apply bool_decide_eq_false_2, not_elem_of_nil.
Qed.

(** States that [equal] identifies allow the same completions. *)
Lemma Lin_equal (equal : St -> St -> bool) L s s' :
  (forall s s' vi vo t, equal s s' = true -> step s vi vo = (true, t) ->
     exists t', step s' vi vo = (true, t') /\ equal t t' = true) ->
  Lin L s -> equal s s' = true -> Lin L s'.
Proof.
  intros Heq HL. revert s'. induction HL as [s|A e B m C s i vi vo t Ha Hc Hr Hs HL IH];
    intros s' He; [constructor|].
  destruct (Heq _ _ _ _ _ He Hs) as (t' & Hs' & He'). by eapply Lin_op; eauto.
Qed.
End lin.
