(* ===== verification/PorcHeap.v ===== *)
(** * The linked list of the checker on the heap

    [seg h p l nx]: the nodes [l] form a doubly linked segment between [p] and [nx].
    [unlink] takes one node out, [relink] puts it back; [lift] and [unlift] are two of
    them each, so [unlift] restores the heap that [lift] changed.  [represents] says
    which entries a list of nodes stands for; [makeLinkedEntries] builds one for the
    history. *)
From S2P Require Import Prelude Bitset Porcupine PorcLin.
Import Porcupine.

Section heap.
Context {I O : Type}.
Notation entry := (entry I O).
Notation node := (@node I O).
Notation heap := (gmap nat node).
Implicit Types (h : heap) (l : list nat).

Definition first_or (l : list nat) (nx : option nat) : option nat :=
  match l with [] => nx | b :: _ => Some b end.
Definition last_or (l : list nat) (p : option nat) : option nat :=
  match last l with Some x => Some x | None => p end.

Fixpoint seg h (p : option nat) (l : list nat) (nx : option nat) : Prop :=
  match l with
  | [] => True
  | a :: l => exists n, h !! a = Some n /\ n_prev n = p /\ n_next n = first_or l nx /\
                        seg h (Some a) l nx
  end.

(** What [lift] and [unlift] never change. *)
Definition info h (a : nat) : option (option (I + O) * option nat * Z) :=
  (fun n => (n_value n, n_match n, n_id n)) <$> h !! a.

Lemma seg_app h p l1 l2 nx :
  seg h p (l1 ++ l2) nx <-> seg h p l1 (first_or l2 nx) /\ seg h (last_or l1 p) l2 nx.
Proof.
  revert p. induction l1 as [|a l1 IH]; intros p; cbn; [naive_solver|].
  assert (first_or (l1 ++ l2) nx = first_or l1 (first_or l2 nx)) as E by (by destruct l1).
  assert (last_or (a :: l1) p = last_or l1 (Some a)) as E2.
  { unfold last_or. rewrite last_cons. by destruct (last l1). }
  rewrite E2. setoid_rewrite IH. rewrite E. naive_solver.
Qed.

Lemma seg_lookup h p l nx a : seg h p l nx -> a ∈ l -> exists n, h !! a = Some n.
Proof.
  revert p. induction l as [|b l IH]; intros p H Ha; [by inv Ha|].
  destruct H as (n & Hn & _ & _ & H). apply elem_of_cons in Ha as [->|Ha]; eauto.
Qed.

Lemma seg_frame h p l nx a n : a ∉ l -> seg (<[a := n]> h) p l nx <-> seg h p l nx.
Proof.
  revert p. induction l as [|b l IH]; intros p Ha; cbn; [done|].
  apply not_elem_of_cons in Ha as [Hne Ha]. setoid_rewrite IH; [|done].
  by rewrite lookup_insert_ne by done.
Qed.

Lemma seg_next h p l a nx x n :
  seg h p (l ++ [a]) nx -> a ∉ l -> h !! a = Some n ->
  seg (<[a := with_next x n]> h) p (l ++ [a]) x.
Proof.
  rewrite !seg_app. cbn. intros [H1 (n' & Hn' & Hp & _)] Ha Hn.
  split; [by apply seg_frame|]. exists (with_next x n). rewrite lookup_insert_eq.
  split_and!; [done| |done|done]. cbn. congruence.
Qed.

Lemma seg_prev h p l a nx x n :
  seg h p (a :: l) nx -> a ∉ l -> h !! a = Some n ->
  seg (<[a := with_prev x n]> h) x (a :: l) nx.
Proof.
  cbn. intros (n' & Hn' & _ & Hx & H) Ha Hn. exists (with_prev x n). rewrite lookup_insert_eq.
  split_and!; [done|done| |by apply seg_frame]. cbn. congruence.
Qed.

Lemma info_next h a n x b : h !! a = Some n -> info (<[a := with_next x n]> h) b = info h b.
Proof. intros Hn. unfold info. rewrite lookup_insert. case_decide; [subst; by rewrite Hn|done]. Qed.
Lemma info_prev h a n x b : h !! a = Some n -> info (<[a := with_prev x n]> h) b = info h b.
Proof. intros Hn. unfold info. rewrite lookup_insert. case_decide; [subst; by rewrite Hn|done]. Qed.

(** ** Taking one node out and putting it back *)

Definition unlink (a : nat) h : option heap :=
  n ← h !! a;
  h ← setNext (n_prev n) (n_next n) h;
  n ← h !! a;
  match n_next n with None => Some h | Some _ => setPrev (n_next n) (n_prev n) h end.

Definition relink (a : nat) h : option heap :=
  n ← h !! a;
  h ← setNext (n_prev n) (Some a) h;
  n ← h !! a;
  match n_next n with None => Some h | Some _ => setPrev (n_next n) (Some a) h end.

Lemma with_next_id (n : node) x : n_next n = x -> with_next x n = n.
Proof. destruct n. by intros <-. Qed.
Lemma with_prev_id (n : node) x : n_prev n = x -> with_prev x n = n.
Proof. destruct n. by intros <-. Qed.

Lemma unlink_spec h A p a R :
  NoDup (A ++ p :: a :: R) -> seg h None (A ++ p :: a :: R) None ->
  exists h', unlink a h = Some h' /\ seg h' None (A ++ p :: R) None /\
    relink a h' = Some h /\ h' !! a = h !! a /\ forall b, info h' b = info h b.
Proof.
  intros HN Hs. rewrite seg_app in Hs. destruct Hs as [HA Hs]. cbn in HA, Hs.
  destruct Hs as (np & Hnp & Hpp & Hpn & na & Hna & Hap & Han & HR).
  assert (p <> a /\ p ∉ A /\ a ∉ A /\ p ∉ R /\ a ∉ R /\ NoDup R) as (Hpa & HpA & HaA & HpR & HaR & HNR).
  { rewrite NoDup_app, !NoDup_cons in HN. set_solver. }
  unfold unlink. rewrite Hna. cbn. rewrite Hap, Han. unfold setNext at 1. cbn. rewrite Hnp. cbn.
  rewrite lookup_insert_ne by done. rewrite Hna. cbn. rewrite Han, Hap.
  destruct R as [|y R]; cbn in HR |- *.
  - eexists. split; [done|]. split_and!.
    + eapply seg_next; [|done|done]. apply seg_app. split; [exact HA|]. cbn. naive_solver.
    + unfold relink. rewrite lookup_insert_ne, Hna by done. cbn. rewrite Hap. unfold setNext. cbn.
      rewrite lookup_insert_eq. cbn. rewrite insert_insert_eq, lookup_insert_ne, Hna by done. cbn.
      rewrite Han. f_equal. rewrite (with_next_id _ _ Hpn) || idtac.
      apply insert_id. by rewrite Hnp, <- Hpn; destruct np.
    + by rewrite lookup_insert_ne.
    + intros b. by apply info_next.
  - destruct HR as (ny & Hny & Hyp & Hyn & HR).
    apply NoDup_cons in HNR as [HyR HNR].
    assert (y <> p /\ y <> a /\ y ∉ A) as (Hyp' & Hya & HyA).
    { rewrite NoDup_app, !NoDup_cons in HN. set_solver. }
    unfold setPrev. cbn. rewrite lookup_insert_ne, Hny by done. cbn.
    eexists. split; [done|]. split_and!.
    + apply seg_app. split.
      * apply seg_frame; [done|]. apply seg_frame; [done|]. exact HA.
      * cbn. exists (with_next (Some y) np). rewrite lookup_insert_ne, lookup_insert_eq by done.
        split_and!; [done|done|done|]. exists (with_prev (Some p) ny). rewrite lookup_insert_eq.
        split_and!; [done|done|done|]. apply seg_frame; [done|]. apply seg_frame; [set_solver|done].
    + unfold relink. rewrite !lookup_insert_ne, Hna by done. cbn. rewrite Hap. unfold setNext. cbn.
      rewrite lookup_insert_ne, lookup_insert_eq by done. cbn.
      rewrite !lookup_insert_ne, Hna by done. cbn. rewrite Han. unfold setPrev. cbn.
      rewrite lookup_insert_ne, lookup_insert_eq by done. cbn. f_equal.
      apply map_eq. intros b. rewrite !lookup_insert.
      repeat case_decide; subst; try done.
      * rewrite Hny, <- Hyp. by destruct ny.
      * rewrite Hnp, <- Hpn. by destruct np.
    + by rewrite !lookup_insert_ne.
    + intros b. rewrite info_prev by (by rewrite lookup_insert_ne). by apply info_next.
Qed.

Lemma unlink_spec' h A a R :
  A <> [] -> NoDup (A ++ a :: R) -> seg h None (A ++ a :: R) None ->
  exists h', unlink a h = Some h' /\ seg h' None (A ++ R) None /\
    relink a h' = Some h /\ h' !! a = h !! a /\ forall b, info h' b = info h b.
Proof.
  intros HA. destruct A as [|p A _] using rev_ind; [done|].
  rewrite <- !app_assoc. cbn. apply unlink_spec.
Qed.

(** [lift] takes a call and its return out, [unlift] puts both back where they were. *)
Lemma lift_spec h A e B m C n :
  A <> [] -> NoDup (A ++ e :: B ++ m :: C) -> seg h None (A ++ e :: B ++ m :: C) None ->
  h !! e = Some n -> n_match n = Some m ->
  exists h', lift e h = Some h' /\ seg h' None (A ++ B ++ C) None /\
    unlift e h' = Some h /\ forall b, info h' b = info h b.
Proof.
  intros HA HN Hs Hn Hm.
  destruct (unlink_spec' h A e (B ++ m :: C)) as (h1 & Hu1 & Hs1 & Hr1 & He1 & Hi1); [done..|].
  assert (NoDup ((A ++ B) ++ m :: C)) as HN1.
  { rewrite <- app_assoc. rewrite <- (Permutation_middle A (B ++ m :: C) e) in HN.
    by apply NoDup_cons in HN as [_ ?]. }
  destruct (unlink_spec' h1 (A ++ B) m C) as (h2 & Hu2 & Hs2 & Hr2 & Hm2 & Hi2);
    [by destruct A|done|by rewrite <- app_assoc|].
  assert (exists y, n_next n = Some y) as [y Hy].
  { apply seg_app in Hs as [_ (n' & Hn' & _ & Hx & _)]. rewrite Hn in Hn'. injection Hn' as <-.
    rewrite Hx. destruct B; cbn; eauto. }
  exists h2. rewrite <- app_assoc in Hs2. split_and!; [| done | |].
  - unfold lift, unlink in *. rewrite Hn in *. cbn in *.
    destruct (setNext _ _ h) as [h0|]; [|done]. cbn in *.
    destruct (h0 !! e) as [n0|] eqn:E0; [|done]. cbn in *. destruct (n_next n0) eqn:Ex.
    + rewrite Hu1. cbn. rewrite He1. cbn. by rewrite Hm.
    + injection Hu1 as ->. congruence.
  - specialize (Hi2 e). unfold info in Hi2. rewrite He1, Hn in Hi2. unfold unlift, relink in *.
    destruct (h2 !! e) as [n2|]; [|done]. cbn in *. injection Hi2 as _ Hm2' _. rewrite Hm2', Hm.
    cbn. destruct (h2 !! m) as [mn|]; [|done]. cbn in *.
    destruct (setNext _ _ h2) as [h3|]; [|done]. cbn in *.
    destruct (h3 !! m) as [mn3|]; [|done]. cbn in *. rewrite Hr2. cbn.
    destruct (h1 !! e) as [n1|]; [|done]. cbn in *.
    destruct (setNext _ _ h1) as [h4|]; [|done]. cbn in *.
    destruct (h4 !! e) as [n4|] eqn:E4; [|done]. cbn in *. destruct (n_next n4) eqn:Ex; [done|].
    injection Hr1 as ->. congruence.
  - intros b. by rewrite Hi2, Hi1.
Qed.

(** ** Building the list *)

Lemma insertBefore_spec h n l nd :
  n ∉ l -> NoDup l -> h !! n = Some nd -> n_next nd = None -> n_prev nd = None -> seg h None l None ->
  exists h', insertBefore n (first_or l None) h = Some h' /\ seg h' None (n :: l) None /\
    forall b, info h' b = info h b.
Proof.
  intros Hnl HN Hn Hx Hp Hs. destruct l as [|m l]; cbn [first_or insertBefore].
  { exists h. split_and!; [done| |done]. by exists nd. }
  pose proof Hs as (nm & Hm & Hmp & Hmn & _). apply not_elem_of_cons in Hnl as [Hnm Hnl].
  apply NoDup_cons in HN as [Hml HN].
  rewrite Hm. cbn. unfold setPrev, setNext. cbn. rewrite Hm. cbn.
  rewrite lookup_insert_ne, Hn by done. cbn. rewrite Hmp. eexists. split_and!; [done| |].
  - exists (with_next (Some m) nd). rewrite lookup_insert_eq. split_and!; [done..|].
    apply (seg_frame _ _ (m :: l)); [by apply not_elem_of_cons|]. by eapply seg_prev.
  - intros b. rewrite info_next by (by rewrite lookup_insert_ne). by apply info_prev.
Qed.

Lemma lengthFrom_spec h p l fuel :
  seg h p l None -> (length l <= fuel)%nat -> lengthFrom fuel (first_or l None) h = Some (zlen l).
Proof.
  revert p l. induction fuel as [|fuel IH]; intros p [|a l] Hs Hf; cbn in *; try done; [lia|].
  destruct Hs as (n & -> & _ & Hn & Hs). cbn. rewrite Hn. rewrite (IH _ _ Hs) by lia. cbn.
  by rewrite zlen_cons, Z.add_comm.
Qed.

(** The node of an entry, when [X] are the nodes and entries after it. *)
Definition node_ok h (X : list (nat * entry)) (a : nat) (en : entry) : Prop :=
  exists mt, info h a = Some (Some (value en), mt, id en) /\
    if kind en then mt = None
    else match mt with
         | Some m => exists r, (m, r) ∈ X /\ kind r = true /\ id r = id en
         | None => forall m r, (m, r) ∈ X -> kind r = true -> id r <> id en
         end.

(** The nodes [X] hold the entries they are paired with. *)
Fixpoint represents h (X : list (nat * entry)) : Prop :=
  match X with
  | [] => True
  | (a, en) :: X => node_ok h X a en /\ represents h X
  end.

Lemma represents_info h h' X :
  (forall a, a ∈ X.*1 -> info h' a = info h a) -> represents h X -> represents h' X.
Proof.
  induction X as [|[a en] X IH]; intros Hi; [done|]. intros [(mt & H1 & H2) HX]. split.
  - exists mt. split; [|done]. rewrite Hi; [done|]. cbn. constructor.
  - apply IH; [|done]. intros b Hb. apply Hi. cbn. by constructor.
Qed.

Lemma represents_app h X1 a en X2 : represents h (X1 ++ (a, en) :: X2) -> node_ok h X2 a en.
Proof. induction X1 as [|[b en'] X1 IH]; cbn; naive_solver. Qed.

Definition matches_ok (matches : gmap Z nat) (X : list (nat * entry)) : Prop :=
  forall i, match matches !! i with
            | Some m => exists r, (m, r) ∈ X /\ kind r = true /\ id r = i
            | None => forall m r, (m, r) ∈ X -> kind r = true -> id r <> i
            end.

Lemma insert_node h X k matches en :
  (forall a, a ∈ X.*1 -> (a < k)%nat) -> NoDup X.*1 -> seg h None X.*1 None -> represents h X ->
  matches_ok matches X ->
  let fresh := {| n_value := Some (value en);
                  n_match := if kind en then None else matches !! id en; n_id := id en;
                  n_next := None; n_prev := None |} in
  exists h', insertBefore k (first_or X.*1 None) (<[k := fresh]> h) = Some h' /\
    seg h' None ((k, en) :: X).*1 None /\ represents h' ((k, en) :: X).
Proof.
  intros Hk HN Hs HR HM fresh.
  assert (k ∉ X.*1) as Hkx by (intros Hin; apply Hk in Hin; lia).
  destruct (insertBefore_spec (<[k := fresh]> h) k X.*1 fresh) as (h' & Hh & Hs' & Hi);
    [done|done|by rewrite lookup_insert_eq|done|done|by apply seg_frame|].
  exists h'. split_and!; [done|done|]. split.
  - exists (n_match fresh). split; [by rewrite Hi; unfold info; rewrite lookup_insert_eq|].
    cbn. destruct (kind en); [done|]. exact (HM (id en)).
  - eapply represents_info; [|done]. intros a Ha. rewrite Hi. unfold info.
    rewrite lookup_insert_ne; [done|]. intros ->. done.
Qed.

Lemma linkEntries_spec rev k X matches h :
  (forall a, a ∈ X.*1 -> (a < k)%nat) -> NoDup X.*1 -> seg h None X.*1 None -> represents h X ->
  matches_ok matches X ->
  exists Y h', linkEntries rev k (first_or X.*1 None) matches h = Some (first_or Y.*1 None, h') /\
    Y.*2 = reverse rev ++ X.*2 /\ (forall a, a ∈ Y.*1 -> (a < k + length rev)%nat) /\
    NoDup Y.*1 /\ seg h' None Y.*1 None /\ represents h' Y.
Proof.
  revert k X matches h. induction rev as [|en rev IH]; intros k X matches h Hk HN Hs HR HM.
  { exists X, h. split_and!; try done. intros a Ha%Hk. cbn. lia. }
  destruct (insert_node h X k matches en Hk HN Hs HR HM) as (h' & Hins & Hs' & HR').
  assert (k ∉ X.*1) as Hkx by (intros Hin; apply Hk in Hin; lia).
  destruct (IH (k + 1)%nat ((k, en) :: X)
              (if kind en then <[id en := k]> matches else matches) h') as (Y & h2 & HY).
  - intros a. cbn. intros [->|Ha%Hk]%elem_of_cons; lia.
  - by constructor.
  - done.
  - done.
  - intros i. specialize (HM i). destruct (kind en) eqn:Ek.
    + rewrite lookup_insert. case_decide as Ei.
      * exists en. split_and!; [constructor|done|done].
      * destruct (matches !! i); [destruct HM as (r & ? & ?); exists r; split; [by constructor|done]|].
        intros m r [[= -> ->]|?]%elem_of_cons; [done|by eapply HM].
    + destruct (matches !! i); [destruct HM as (r & ? & ?); exists r; split; [by constructor|done]|].
      intros m r [[= -> ->]|?]%elem_of_cons; [congruence|by eapply HM].
  - exists Y, h2. destruct HY as (H1 & H2 & H3 & H4 & H5 & H6). split_and!; try done.
    + cbn. destruct (kind en); rewrite Hins; done.
    + by rewrite H2, reverse_cons, <- app_assoc.
    + intros a Ha%H3. cbn. lia.
Qed.
End heap.
