(* ===== verification/PorcSearch.v ===== *)
(** * The search of [checkSingle] decides linearizability

    [inv c X]: the nodes [X] are in the list, they are the entries of the operations
    that are not in [linearized], and [calls] is a [Path] to them.  [explore]: from such
    a configuration the loop either ends with a linearization or reaches the first
    return with heap, stack, state and set as before, and then no completion exists;
    every entry the cache gained has no completion either.  [explore] is by induction
    on the remaining nodes, so it also gives termination. *)
From S2P Require Import Prelude Bitset Porcupine PorcLin PorcHeap.
Import Porcupine.
#[local] Arguments Bitset.hash : simpl never.
#[local] Arguments Bitset.set : simpl never.
#[local] Arguments Bitset.clear : simpl never.
#[local] Arguments Bitset.clone : simpl never.
#[local] Arguments cacheContains : simpl never.
#[local] Arguments lift : simpl never.
#[local] Arguments unlift : simpl never.

(** ** Lists of nodes with their entries *)
Section nodes.
Context {I O : Type}.
Notation entry := (entry I O).
Implicit Types (X : list (nat * entry)).

Definition rem (b : Z -> bool) X : list (nat * entry) := filter (fun x => b (id x.2) = false) X.

Lemma rem_remaining b X : (rem b X).*2 = remaining b X.*2.
Proof.
  unfold rem, remaining. induction X as [|[a en] X IH]; [done|]. cbn [fmap list_fmap snd].
  destruct (decide (b (id en) = false)).
  - rewrite !filter_cons_True by done. cbn. by f_equal.
  - by rewrite !filter_cons_False by done.
Qed.

Lemma rem_ext b b' X : (forall q, b q = b' q) -> rem b X = rem b' X.
Proof. intros H. apply list_filter_iff. intros x. by rewrite H. Qed.

Lemma rem_none b X : (forall q, b q = false) -> rem b X = X.
Proof.
  intros H. unfold rem. induction X as [|x X IH]; [done|]. rewrite filter_cons_True by done. by f_equal.
Qed.

Lemma rem_sublist b X : sublist (rem b X).*1 X.*1.
Proof. unfold rem. apply fmap_sublist, sublist_filter. Qed.

Lemma rem_NoDup b X : NoDup X.*1 -> NoDup (rem b X).*1.
Proof. intros H. eapply sublist_NoDup; [exact H|apply rem_sublist]. Qed.

Lemma elem_of_rem b X x : x ∈ rem b X <-> x ∈ X /\ b (id x.2) = false.
Proof. unfold rem. rewrite list_elem_of_filter. naive_solver. Qed.

Lemma rem_ext_in b b' X : (forall x, x ∈ X -> b (id x.2) = b' (id x.2)) -> rem b X = rem b' X.
Proof.
  unfold rem. induction X as [|x X IH]; intros H; [done|].
  assert (b (id x.2) = b' (id x.2)) as Hx by (apply H; constructor).
  assert (rem b X = rem b' X) as HX by (apply IH; intros; apply H; by constructor).
  unfold rem in HX. destruct (decide (b (id x.2) = false)).
  - rewrite !filter_cons_True by congruence. by f_equal.
  - by rewrite !filter_cons_False by congruence.
Qed.

Lemma rem_app b X1 X2 : rem b (X1 ++ X2) = rem b X1 ++ rem b X2.
Proof. apply filter_app. Qed.
Lemma rem_in b a en X : b (id en) = false -> rem b ((a, en) :: X) = (a, en) :: rem b X.
Proof. intros. unfold rem. by rewrite filter_cons_True. Qed.
Lemma rem_out b a en X : b (id en) = true -> rem b ((a, en) :: X) = rem b X.
Proof. intros H. unfold rem. rewrite filter_cons_False; [done|]. cbn. congruence. Qed.

(** A node has one place. *)
Lemma place_unique (A A' B B' : list (nat * entry)) x :
  NoDup (A ++ x :: B).*1 -> A ++ x :: B = A' ++ x :: B' -> A = A' /\ B = B'.
Proof.
  revert A'. induction A as [|y A IH]; intros [|y' A'] HN E; cbn in *.
  - by injection E as ->.
  - injection E as -> ->. exfalso. apply NoDup_cons in HN as [Hn _]. apply Hn.
    rewrite fmap_app. set_solver.
  - injection E as -> <-. exfalso. apply NoDup_cons in HN as [Hn _]. apply Hn.
    rewrite fmap_app. set_solver.
  - injection E as <- E. apply NoDup_cons in HN as [_ HN]. destruct (IH A' HN E) as [-> ->]. done.
Qed.

(** The two nodes of an operation. *)
Lemma op_nodes X0 hist n i :
  X0.*2 = hist -> wf_history hist n -> 0 <= i < n ->
  exists vi vo YA e en YB m rn YC, X0 = YA ++ (e, en) :: YB ++ (m, rn) :: YC /\
    callOf en i vi /\ returnOf rn i vo /\
    forall x, x ∈ YA ++ YB ++ YC -> id x.2 <> i.
Proof.
  intros HX W Hi. destruct (wh_op _ _ W i Hi) as (vi & vo & A & B & C & en & rn & E & Hc & Hr & Hn).
  rewrite E in HX. symmetry in HX.
  apply symmetry, fmap_app_inv in HX as (YA & Y & -> & E2 & ->).
  destruct Y as [|[e en'] Y]; [done|]. cbn in E2. injection E2 as <- E2.
  apply symmetry, fmap_app_inv in E2 as (YB & Y' & -> & E2 & ->).
  destruct Y' as [|[m rn'] YC]; [done|]. cbn in E2. injection E2 as -> ->.
  exists vi, vo, YA, e, en, YB, m, rn', YC. split_and!; try done.
  intros x Hx. apply Hn. rewrite <- !fmap_app. by apply list_elem_of_fmap_2.
Qed.
End nodes.

(** ** A call of the remaining list *)
Section call.
Context {I O : Type} (X0 : list (nat * entry I O)) (hist : list (entry I O)) (n : Z).
Context (h0 : gmap nat (@node I O)).
Context (HX : X0.*2 = hist) (W : wf_history hist n) (HN : NoDup X0.*1) (HR : represents h0 X0).

Lemma call_node b XP e en XM :
  rem b X0 = XP ++ (e, en) :: XM -> kind en = false ->
  exists vi vo XB m rn XC, XM = XB ++ (m, rn) :: XC /\
    callOf en (id en) vi /\ returnOf rn (id en) vo /\ b (id en) = false /\ 0 <= id en < n /\
    info h0 e = Some (Some (inl vi), Some m, id en) /\
    info h0 m = Some (Some (inr vo), None, id en) /\
    (forall en', en' ∈ XB.*2 ++ XC.*2 -> id en' <> id en) /\
    (forall b', (forall q, b' q = bool_decide (q = id en) || b q) -> rem b' X0 = XP ++ XB ++ XC).
Proof.
  intros E Hk.
  assert ((e, en) ∈ X0 /\ b (id en) = false) as [Hin Hb].
  { apply (elem_of_rem b X0 (e, en)). rewrite E. set_solver. }
  assert (0 <= id en < n) as Hid.
  { apply (wh_id _ _ W). rewrite <- HX. by apply (list_elem_of_fmap_2 snd _ (e, en)). }
  destruct (op_nodes X0 hist n (id en) HX W Hid)
    as (vi & vo & YA & e' & en' & YB & m & rn & YC & E0 & Hc & Hr & Hn).
  assert (e' = e /\ en' = en) as [-> ->].
  { rewrite E0, !elem_of_app, elem_of_cons, elem_of_app, elem_of_cons in Hin.
    destruct Hin as [?|[[= -> ->]|[?|[[= -> ->]|?]]]]; try done;
      try (destruct Hr as [? _]; congruence);
      (exfalso; apply (Hn (e, en)); [set_solver|done]). }
  assert (rem b X0 = rem b YA ++ (e, en) :: rem b YB ++ (m, rn) :: rem b YC) as E1.
  { destruct Hr as (_ & Hri & _). by rewrite E0, rem_app, rem_in, rem_app, rem_in by congruence. }
  rewrite E1 in E. apply place_unique in E as [<- <-]; [|rewrite <- E1; by apply rem_NoDup].
  exists vi, vo, (rem b YB), m, rn, (rem b YC). split_and!; try done; try lia.
  - rewrite E0 in HR. apply represents_app in HR as (mt & Hi & Hm). rewrite Hk in Hm.
    destruct Hc as (_ & _ & Hv). rewrite Hv in Hi. destruct mt as [m'|].
    + destruct Hm as (r & Hin' & Hkr & Hir).
      rewrite !elem_of_app, elem_of_cons in Hin'. destruct Hin' as [?|[[= -> ->]|?]]; [|done|];
        (exfalso; apply (Hn (m', r)); [set_solver|done]).
    + exfalso. destruct Hr as (? & ? & _). apply (Hm m rn); [set_solver|done|done].
  - rewrite E0 in HR. rewrite app_comm_cons, app_assoc in HR.
    apply represents_app in HR as (mt & Hi & Hm). destruct Hr as (Hkr & Hir & Hv).
    rewrite Hkr in Hm. by rewrite Hi, Hv, Hir, Hm.
  - rewrite <- fmap_app. intros en' (x & -> & Hx)%list_elem_of_fmap. apply Hn.
    rewrite <- rem_app, elem_of_rem in Hx. set_solver.
  - intros b' Hb'. destruct Hr as (_ & Hri & _).
    assert (b' (id en) = true) as Hi by (rewrite Hb'; by rewrite bool_decide_eq_true_2).
    assert (forall Y, Y ⊆ YA ++ YB ++ YC -> rem b' Y = rem b Y) as Hs.
    { intros Y HY. apply rem_ext_in. intros x Hx.
      rewrite Hb', bool_decide_eq_false_2; [done|]. apply Hn. by apply HY. }
    rewrite E0, rem_app, rem_out, rem_app, rem_out by congruence. rewrite !Hs; set_solver.
Qed.
End call.

(** ** The loop *)
Section search.
Context {I O St : Type} (model : @FullModel I O St) (computePartial : bool).
Context (X0 : list (nat * entry I O)) (hist : list (entry I O)) (n : Z) (hd : nat).
Context (h0 : gmap nat (@node I O)).
Context (HX : X0.*2 = hist) (W : wf_history hist n) (HN : NoDup (hd :: X0.*1)).
Context (HR : represents h0 X0).
(** [Equal] never identifies states that allow different steps. *)
Context (Hequal : forall s s' vi vo t, f_Equal model s s' = true -> f_Step model s vi vo = (true, t) ->
           exists t', f_Step model s' vi vo = (true, t') /\ f_Equal model t t' = true).
Notation Path := (Path (f_Step model) (f_Init model) hist).
Notation Lin := (Lin (f_Step model)).
Notation config := (@config I O St).

(** The sequences recorded so far. *)
Record seqs_ok (lg : list (option nat)) (ss : list (list Z)) : Prop := {
  so_len : zlen lg = n;
  so_ptr p : Some p ∈ lg -> is_Some (ss !! p);
  so_path seq : seq ∈ ss -> exists L s, Path seq L s;
}.

Lemma seqs_ok_grow lg ss seq L s : seqs_ok lg ss -> Path seq L s -> seqs_ok lg (ss ++ [seq]).
Proof.
  intros [H1 H2 H3] HP. split; [done| |].
  - intros p [x Hx]%H2. exists x. by apply lookup_app_l_Some.
  - intros q. rewrite elem_of_app, list_elem_of_singleton. intros [?| ->]; eauto.
Qed.

Lemma seqs_ok_set lg ss i p lg' :
  seqs_ok lg ss -> is_Some (ss !! p) -> zset lg i (Some p) = Some lg' -> seqs_ok lg' ss.
Proof.
  intros [H1 H2 H3] Hp [Hz ->]%zset_inv. split; [by rewrite zlen_insert| |done].
  intros q [k Hk]%list_elem_of_lookup. apply list_lookup_insert_Some in Hk as [(_ & [= ->] & _)|[_ Hk]];
    [done|]. apply H2. by eapply list_elem_of_lookup_2.
Qed.

Lemma noteLongest_ok ids seq ptr lg ss L s :
  (forall i, i ∈ ids -> 0 <= i < n) -> Path seq L s -> seqs_ok lg ss ->
  (forall p, ptr = Some p -> is_Some (ss !! p)) ->
  exists lg' ss', noteLongest ids seq ptr lg ss = Some (lg', ss') /\ seqs_ok lg' ss'.
Proof.
  intros Hids HP. revert ptr lg ss. induction ids as [|i ids IH]; intros ptr lg ss Hs Hptr; cbn.
  { eauto. }
  assert (0 <= i < n) as Hi by (apply Hids; constructor).
  assert (forall i, i ∈ ids -> 0 <= i < n) as Hids' by (intros; apply Hids; by constructor).
  destruct (zget_in_range lg i) as [old Hold]; [by rewrite (so_len _ _ Hs)|]. rewrite Hold. cbn.
  assert (exists better, (match old with
      | None => Some true
      | Some p => s ← ss !! p; Some (zlen s <? zlen seq) end) = Some better) as [better ->].
  { destruct old as [p|]; [|eauto]. destruct (so_ptr _ _ Hs p) as [x ->]; [|cbn; eauto].
    apply zget_Some_lookup in Hold as [_ Hold]. by eapply list_elem_of_lookup_2. }
  cbn. destruct better; [|by apply IH]. destruct ptr as [p|].
  - rewrite zset_Some by (by rewrite (so_len _ _ Hs)). cbn. apply IH; [done| |done].
    eapply seqs_ok_set; [done|by apply Hptr|]. apply zset_Some. by rewrite (so_len _ _ Hs).
  - rewrite zset_Some by (by rewrite (so_len _ _ Hs)). cbn.
    assert (is_Some ((ss ++ [seq]) !! length ss)) as Hl.
    { rewrite lookup_app_r, Nat.sub_diag by lia. eauto. }
    apply IH; [done| |by intros p [= <-]].
    eapply seqs_ok_set; [by eapply seqs_ok_grow|exact Hl|]. apply zset_Some. by rewrite (so_len _ _ Hs).
Qed.

(** The stack only depends on what [lift] keeps. *)
Lemma callIds_info (h h' : gmap nat (@node I O)) (cs : list (@callsEntry St)) :
  (forall b, info h' b = info h b) -> callIds h' cs = callIds h cs.
Proof.
  intros Hi. induction cs as [|v cs IH]; [done|]. cbn. specialize (Hi (ce_entry v)). unfold info in Hi.
  destruct (h' !! ce_entry v) as [x|], (h !! ce_entry v) as [y|]; try done. cbn in *.
  injection Hi as _ _ ->. by rewrite IH.
Qed.

Lemma callIds_snoc (h : gmap nat (@node I O)) cs v ids nd :
  callIds h cs = Some ids -> h !! ce_entry v = Some nd ->
  callIds h (cs ++ [v] : list (@callsEntry St)) = Some (ids ++ [n_id nd]).
Proof.
  revert ids. induction cs as [|w cs IH]; intros ids H Hv; cbn in *.
  - injection H as <-. by rewrite Hv.
  - destruct (h !! ce_entry w) as [x|]; [|done]. cbn in *.
    destruct (callIds h cs) as [l|]; [|done]. cbn in *. injection H as <-.
    by rewrite (IH l eq_refl Hv).
Qed.

Lemma Path_ids seq L s i : Path seq L s -> i ∈ seq -> 0 <= i < n.
Proof.
  intros HP Hi. destruct (Path_spec _ _ _ _ _ _ _ W HP) as [[Hx _ _] _]. clear HP.
  induction Hx as [|s0 j vi vo s1 seq s2 [(e & He & _ & <- & _) _] _ _ IH]; [by inv Hi|].
  apply elem_of_cons in Hi as [->|?]; [by apply (wh_id _ _ W)|by apply IH].
Qed.

(** ** The invariant *)

Definition dead (x : cacheEntry) : Prop :=
  ~ Lin (remaining (Bitset.mem (c_linearized x)) hist) (c_state x).
Definition cached (x : cacheEntry) (c : gmap Z (list (@cacheEntry St))) : Prop :=
  exists k l, c !! k = Some l /\ x ∈ l.

(** A cached entry has no completion, or its search has not ended. *)
Definition cache_ok (lin : Z -> bool) (c : gmap Z (list cacheEntry)) : Prop :=
  forall x, cached x c -> dead x \/ forall q, Bitset.mem (c_linearized x) q = true -> lin q = true.

Record inv (c : config) (X : list (nat * entry I O)) : Prop := {
  i_seg : seg (hp c) None (hd :: X.*1) None;
  i_info b : info (hp c) b = info h0 b;
  i_rem : X = rem (Bitset.mem (linearized c)) X0;
  i_room : forall i, 0 <= i < n -> Bitset.in_range (linearized c) i;
  i_calls : exists ids, callIds (hp c) (calls c) = Some ids /\ Path ids X.*2 (st c);
  i_seqs : seqs_ok (longest c) (seqs c);
  i_cache : cache_ok (Bitset.mem (linearized c)) (cache c);
}.

Definition set_cur (c : config) (a : option nat) : config :=
  {| hp := hp c; cur := a; linearized := linearized c; cache := cache c; calls := calls c;
     st := st c; longest := longest c; seqs := seqs c |}.

Lemma inv_set_cur c X a : inv c X -> inv (set_cur c a) X.
Proof. intros []. by split. Qed.

(** The node under the cursor. *)
Lemma iter_at c X XP e en XM :
  inv c X -> X = XP ++ (e, en) :: XM -> cur c = Some e ->
  exists nd, hp c !! e = Some nd /\ n_next nd = first_or XM.*1 None /\ n_id nd = id en /\
    info h0 e = Some (n_value nd, n_match nd, n_id nd) /\
    iter model computePartial false hd c =
      match n_match nd with
      | Some m => iterCall model hd e nd m c
      | None => iterReturn computePartial c
      end.
Proof.
  intros HI E Hc. pose proof (i_seg _ _ HI) as Hs. rewrite E in Hs.
  destruct Hs as (nh & Hh & _ & Hnx & Hs). rewrite fmap_app in Hs, Hnx.
  apply seg_app in Hs as [_ (nd & Hnd & _ & Hx & _)]. cbn in Hnd.
  assert ((e, en) ∈ X0) as Hin.
  { apply (elem_of_rem (Bitset.mem (linearized c))). rewrite <- (i_rem _ _ HI), E. set_solver. }
  pose proof (i_info _ _ HI e) as Hi.
  assert (info h0 e = Some (n_value nd, n_match nd, n_id nd)) as Hi0.
  { rewrite <- Hi. unfold info. by rewrite Hnd. }
  exists nd. split_and!; [done|done| |done|].
  - apply list_elem_of_split in Hin as (Y1 & Y2 & EY). rewrite EY in HR.
    apply represents_app in HR as (mt & Hmt & _). congruence.
  - unfold iter. rewrite Hh. cbn. rewrite Hnx, Hc. cbn. rewrite Hnd. cbn.
    by destruct (XP.*1).
Qed.

Lemma cached_insert x c k y :
  cached x (<[k := default [] (c !! k) ++ [y]]> c) -> cached x c \/ x = y.
Proof.
  intros (k' & l' & Hl & Hx). rewrite lookup_insert in Hl. case_decide as Ek.
  - injection Hl as <-. apply elem_of_app in Hx as [Hx|Hx].
    + left. destruct (c !! k) as [l0|] eqn:E0; [by exists k, l0|by inv Hx].
    + right. by apply list_elem_of_singleton in Hx.
  - left. by exists k', l'.
Qed.

(** A hit in the cache for the next set is an entry without completion. *)
Lemma cacheContains_dead c lin b i s :
  cacheContains model c {| c_linearized := b; c_state := s |} = true ->
  cache_ok lin c -> lin i = false -> Bitset.mem b i = true ->
  ~ Lin (remaining (Bitset.mem b) hist) s.
Proof.
  intros Hc Hok Hi Hb HL. unfold cacheContains in Hc. cbn in Hc.
  apply existsb_exists in Hc as (x & Hx & [He Hq]%andb_true_iff).
  apply Bitset.equals_eq in He.
  destruct (c !! Bitset.hash b) as [l|] eqn:El; cbn in Hx; [|done].
  destruct (Hok x) as [Hd|Hd].
  - exists (Bitset.hash b), l. split; [done|]. by apply list_elem_of_In.
  - apply Hd. rewrite <- He. by eapply Lin_equal.
  - rewrite <- He in Hd. apply Hd in Hb. congruence.
Qed.

(** One iteration on a call: the cursor moves on and the call has no completion, or
    the operation is taken out. *)
Lemma call_step c X XP e en XM :
  inv c X -> X = XP ++ (e, en) :: XM -> cur c = Some e -> kind en = false ->
  exists vi vo XB m rn XC, XM = XB ++ (m, rn) :: XC /\
    callOf en (id en) vi /\ returnOf rn (id en) vo /\
    (forall en', en' ∈ XB.*2 ++ XC.*2 -> id en' <> id en) /\
    ((iter model computePartial false hd c = Some (Continue (set_cur c (first_or XM.*1 None))) /\
      forall s', f_Step model (st c) vi vo = (true, s') -> ~ Lin (XP ++ XB ++ XC).*2 s') \/
     (calls_only XP.*2 -> exists s' c1,
      f_Step model (st c) vi vo = (true, s') /\
      iter model computePartial false hd c = Some (Continue c1) /\ inv c1 (XP ++ XB ++ XC) /\
      cur c1 = first_or (XP ++ XB ++ XC).*1 None /\ st c1 = s' /\
      calls c1 = calls c ++ [ {| ce_entry := e; ce_state := st c |} ] /\
      unlift e (hp c1) = Some (hp c) /\
      (forall q, Bitset.mem (linearized c1) q = bool_decide (q = id en) || Bitset.mem (linearized c) q) /\
      (forall x, cached x (cache c1) -> cached x (cache c) \/
         (remaining (Bitset.mem (c_linearized x)) hist = (XP ++ XB ++ XC).*2 /\ c_state x = s')))).
Proof.
  intros HI E Hcur Hk.
  destruct (iter_at _ _ _ _ _ _ HI E Hcur) as (nd & Hnd & Hnx & Hid & Hi0 & Hit).
  assert (NoDup X0.*1) as HN0 by (by apply NoDup_cons in HN as [_ ?]).
  pose proof (i_rem _ _ HI) as Hrem. rewrite E in Hrem.
  destruct (call_node X0 hist n h0 HX W HN0 HR _ _ _ _ _ (eq_sym Hrem) Hk)
    as (vi & vo & XB & m & rn & XC & -> & Hc & Hr & Hb & Hrange & Hie & Him & Hother & Htake).
  exists vi, vo, XB, m, rn, XC. do 4 (split; [done|]).
  rewrite Hie in Hi0. injection Hi0 as Hv Hm _. rewrite <- Hm in Hit.
  assert (exists mn, hp c !! m = Some mn /\ n_value mn = Some (inr vo)) as (mn & Hmn & Hmv).
  { pose proof (i_info _ _ HI m) as Hi. rewrite Him in Hi. unfold info in Hi.
    destruct (hp c !! m) as [mn|]; [|done]. cbn in Hi. injection Hi as Hi _ _. by exists mn. }
  unfold iterCall in Hit. rewrite Hmn in Hit. cbn in Hit. rewrite <- Hv, Hmv, Hnx, Hid in Hit. cbn in Hit.
  destruct (f_Step model (st c) vi vo) as [ok s'] eqn:Estep. destruct ok; [|left; by split].
  destruct (Bitset.set_spec (linearized c) (id en)) as (lin & Hset & Hlen & Hmem);
    [by apply (i_room _ _ HI)|].
  rewrite Bitset.bitset_clone_id, Hset in Hit. cbn in Hit.
  specialize (Htake _ Hmem).
  assert (remaining (Bitset.mem lin) hist = (XP ++ XB ++ XC).*2) as Hrl
    by (rewrite <- HX, <- rem_remaining; by rewrite Htake).
  destruct (cacheContains _ _ _) eqn:Ecc.
  { left. cbn in Hit. split; [done|]. intros s'' [= <-]. rewrite <- Hrl.
    eapply cacheContains_dead; [exact Ecc|apply (i_cache _ _ HI)|exact Hb|].
    rewrite Hmem. by rewrite bool_decide_eq_true_2. }
  right. intros Hco. cbn in Hit.
  assert (NoDup ((hd :: XP.*1) ++ e :: XB.*1 ++ m :: XC.*1)) as HND.
  { replace (_ ++ _) with (hd :: X.*1) by (rewrite E, fmap_app; cbn; by rewrite fmap_app).
    rewrite (i_rem _ _ HI). eapply sublist_NoDup; [exact HN|].
    apply sublist_skip, rem_sublist. }
  assert (seg (hp c) None ((hd :: XP.*1) ++ e :: XB.*1 ++ m :: XC.*1) None) as Hseg.
  { replace (_ ++ _) with (hd :: X.*1) by (rewrite E, fmap_app; cbn; by rewrite fmap_app).
    apply (i_seg _ _ HI). }
  destruct (lift_spec (hp c) (hd :: XP.*1) e XB.*1 m XC.*1 nd) as (h' & Hl & Hs' & Hu & Hinf);
    [done..|].
  rewrite Hl in Hit. cbn in Hit.
  assert (seg h' None (hd :: (XP ++ XB ++ XC).*1) None) as Hs2 by (by rewrite !fmap_app).
  destruct Hs2 as (nh & Hnh & Hnp & Hnn & Hs2). rewrite Hnh in Hit. cbn in Hit. rewrite Hnn in Hit.
  eexists s', _. split; [done|]. split; [exact Hit|]. destruct HI as [I1 I2 I3 I4 I5 I6 I7].
  split_and!; try done.
  - split; cbn; try done.
    + by exists nh.
    + intros b. by rewrite Hinf, I2.
    + intros i Hi. unfold Bitset.in_range. rewrite Hlen. by apply I4.
    + destruct I5 as (ids & Hids & HP). exists (ids ++ [id en]). split.
      * rewrite (callIds_info (hp c)) by done. rewrite <- Hid. by eapply callIds_snoc.
      * rewrite !fmap_app. eapply Path_op; [|exact Hco|exact Hc|exact Hr|exact Estep].
        rewrite E, fmap_app in HP. cbn in HP. by rewrite fmap_app in HP.
    + intros x [Hx| ->]%cached_insert.
      * destruct (I7 x Hx) as [?|Hq]; [by left|right]. intros q ?%Hq. rewrite Hmem.
        by apply orb_true_intro; right.
      * by right.
  - intros x [Hx| ->]%cached_insert; [by left|right]. by split.
Qed.

(** One iteration on a return: the last operation is put back. *)
Lemma return_step c X XP r en XM cs e s h :
  inv c X -> X = XP ++ (r, en) :: XM -> cur c = Some r -> kind en = true ->
  calls c = cs ++ [ {| ce_entry := e; ce_state := s |} ] -> unlift e (hp c) = Some h ->
  forall nd, h !! e = Some nd -> 0 <= n_id nd < n -> (forall b, info (hp c) b = info h b) ->
  exists c3, iter model computePartial false hd c = Some (Continue c3) /\ hp c3 = h /\
    cur c3 = n_next nd /\ calls c3 = cs /\ st c3 = s /\ cache c3 = cache c /\
    (forall q, Bitset.mem (linearized c3) q =
       negb (bool_decide (q = n_id nd)) && Bitset.mem (linearized c) q) /\
    (forall i, 0 <= i < n -> Bitset.in_range (linearized c3) i) /\
    seqs_ok (longest c3) (seqs c3).
Proof.
  intros HI E Hcur Hk Hcs Hu nd Hnd Hrange Hinf.
  destruct (iter_at _ _ _ _ _ _ HI E Hcur) as (nr & _ & _ & _ & Hi0 & Hit).
  assert (n_match nr = None) as Hmr.
  { assert ((r, en) ∈ X0) as Hin.
    { apply (elem_of_rem (Bitset.mem (linearized c))). rewrite <- (i_rem _ _ HI), E. set_solver. }
    apply list_elem_of_split in Hin as (Y1 & Y2 & EY). pose proof HR as HR'. rewrite EY in HR'.
    apply represents_app in HR' as (mt & Hmt & Hm). rewrite Hk in Hm. congruence. }
  rewrite Hmr in Hit. unfold iterReturn in Hit. rewrite Hcs, last_snoc in Hit. rewrite <- Hcs in Hit.
  destruct (i_calls _ _ HI) as (ids & Hids & HP). rewrite Hids in Hit. cbn in Hit.
  assert (exists lg ss, (if computePartial then noteLongest ids ids None (longest c) (seqs c)
    else Some (longest c, seqs c)) = Some (lg, ss) /\ seqs_ok lg ss) as (lg & ss & Hnote & Hok).
  { destruct computePartial; [|eexists _, _; split; [done|apply (i_seqs _ _ HI)]].
    eapply noteLongest_ok; [|exact HP|apply (i_seqs _ _ HI)|done]. intros i. by eapply Path_ids. }
  rewrite Hnote in Hit. cbn in Hit.
  assert (exists ne, hp c !! e = Some ne /\ n_id ne = n_id nd) as (ne & Hne & Hidn).
  { specialize (Hinf e). unfold info in Hinf. rewrite Hnd in Hinf.
    destruct (hp c !! e) as [ne|]; [|done]. cbn in Hinf. injection Hinf as _ _ Hq. by exists ne. }
  rewrite Hne in Hit. cbn in Hit. rewrite Hidn in Hit.
  destruct (Bitset.clear_spec (linearized c) (n_id nd)) as (lin & Hclr & Hlen & Hmem);
    [by apply (i_room _ _ HI)|].
  rewrite Hclr in Hit. cbn in Hit. rewrite Hu in Hit. cbn in Hit. rewrite Hnd in Hit. cbn in Hit.
  eexists. split; [exact Hit|]. cbn. split_and!; try done.
  - rewrite Hcs, length_app. cbn. by rewrite Nat.add_sub, take_app_length.
  - intros i Hi. unfold Bitset.in_range. rewrite Hlen. by apply (i_room _ _ HI).
Qed.

(** ** Exploring *)

(** The calls of the first [k] entries of [L] have no completion. *)
Definition tried (k : nat) (L : list (entry I O)) (s : St) : Prop :=
  forall A en B m C i vi vo s', L = A ++ en :: B ++ m :: C -> (length A < k)%nat ->
    callOf en i vi -> returnOf m i vo -> f_Step model s vi vo = (true, s') -> ~ Lin (A ++ B ++ C) s'.

Lemma tried_next P en B rn C i vi vo s :
  tried (length P) (P ++ en :: B ++ rn :: C) s -> callOf en i vi -> returnOf rn i vo ->
  (forall en', en' ∈ B ++ C -> id en' <> i) ->
  (forall s', f_Step model s vi vo = (true, s') -> ~ Lin (P ++ B ++ C) s') ->
  tried (S (length P)) (P ++ en :: B ++ rn :: C) s.
Proof.
  intros Ht Hc Hr HB Hd A en' B' m C' i' vi' vo' s' E Hl Hc' Hr' Hs.
  destruct (decide (length A < length P)%nat); [by eapply Ht|].
  apply app_inj_1 in E as [<- E]; [|lia]. injection E as <- E.
  destruct Hc as (_ & <- & Hv), Hc' as (_ & <- & Hv'). rewrite Hv in Hv'. injection Hv' as <-.
  apply (mid_unique _ _ _ _ _ _ (id en)) in E as (-> & -> & ->); [|done|apply Hr'].
  destruct Hr as (_ & _ & Hw), Hr' as (_ & _ & Hw'). rewrite Hw in Hw'. injection Hw' as <-.
  by apply Hd.
Qed.

(** Iterations of the loop, with records that are fine at each. *)
Inductive goes : config -> config -> Prop :=
  | goes_refl c : goes c c
  | goes_step c c1 c2 :
      seqs_ok (longest c) (seqs c) -> iter model computePartial false hd c = Some (Continue c1) ->
      goes c1 c2 -> goes c c2.

Lemma goes_trans c c1 c2 : goes c c1 -> goes c1 c2 -> goes c c2.
Proof. induction 1; [done|]. intros. econstructor; eauto. Qed.

Lemma goes_one c c1 X :
  inv c X -> iter model computePartial false hd c = Some (Continue c1) -> goes c c1.
Proof. intros HI H. econstructor; [apply (i_seqs _ _ HI)|exact H|constructor]. Qed.

(** The loop ends with a linearization of the whole history. *)
Definition found (c : config) : Prop :=
  exists c1 c' ids s, goes c c1 /\ seqs_ok (longest c1) (seqs c1) /\
    iter model computePartial false hd c1 = Some (Finished true c') /\
    Path ids [] s /\ seqs_ok (longest c') (seqs c') /\
    forall x, x ∈ longest c' -> exists p, x = Some p /\ seqs c' !! p = Some ids.

(** The loop comes back to the first return, where it will take back the last
    operation. *)
Definition exhausted (c : config) (X : list (nat * entry I O)) : Prop :=
  exists c', goes c c' /\
    hp c' = hp c /\ calls c' = calls c /\ st c' = st c /\
    (forall q, Bitset.mem (linearized c') q = Bitset.mem (linearized c) q) /\ inv c' X /\
    (exists XP r en XM, X = XP ++ (r, en) :: XM /\ cur c' = Some r /\ kind en = true) /\
    (forall x, cached x (cache c') -> cached x (cache c) \/ dead x) /\ ~ Lin X.*2 (st c).

Lemma found_end c : inv c [] -> found c.
Proof.
  intros [Hs _ _ _ (ids & Hids & HP) H6 _]. destruct Hs as (nh & Hh & _ & Hnx & _). cbn in Hnx.
  eexists c, _, ids, (st c). split; [constructor|]. split; [done|]. split.
  { unfold iter. rewrite Hh. cbn. rewrite Hnx, Hids. cbn. done. }
  cbn. split; [done|].
  assert ((seqs c ++ [ids]) !! length (seqs c) = Some ids) as Hl
    by (by rewrite lookup_app_r, Nat.sub_diag).
  destruct H6 as [G1 G2 G3]. split.
  - split.
    + unfold zlen in *. by rewrite length_fmap.
    + intros p (x & [= ->] & _)%list_elem_of_fmap. by rewrite Hl.
    + intros q. rewrite elem_of_app, list_elem_of_singleton. intros [?| ->]; eauto.
  - intros x (y & -> & _)%list_elem_of_fmap. eauto.
Qed.

(** From the first return on nothing is left to try. *)
Lemma tried_all (XP : list (nat * entry I O)) (r : nat) en XM s :
  kind en = true -> tried (length XP) (XP ++ (r, en) :: XM).*2 s ->
  ~ Lin (XP ++ (r, en) :: XM).*2 s.
Proof.
  intros Hk Ht HL. rewrite fmap_app in *. cbn in *.
  inversion HL as [? E|A e B m C ? i vi vo s' HA Hc Hr Hs HL' E]; subst; [by destruct XP|].
  eapply (Ht A e B m C); [done| |done..].
  assert (length XP = length XP.*2) as -> by (by rewrite length_fmap).
  symmetry in E. apply app_eq_inv in E as [(k & -> & E2)|(k & -> & E2)].
  - destruct k as [|x k]; [|rewrite length_app; cbn; lia]. cbn in E2. injection E2 as -> _.
    destruct Hc; congruence.
  - destruct k as [|x k]; cbn in E2; injection E2 as -> _; [destruct Hc; congruence|].
    assert (kind x = false); [|congruence]. apply HA. set_solver.
Qed.

(** A list of calls has a return. *)
Lemma no_calls_only c X : inv c X -> calls_only X.*2 -> X = [].
Proof.
  intros HI Hc. destruct X as [|[e en] XM]; [done|]. exfalso.
  assert (NoDup X0.*1) as HN0 by (by apply NoDup_cons in HN as [_ ?]).
  pose proof (i_rem _ _ HI) as E. symmetry in E.
  destruct (call_node X0 hist n h0 HX W HN0 HR _ [] e en XM E) as (? & ? & XB & m & rn & XC & -> & _ & Hr & _).
  - apply Hc. cbn. constructor.
  - destruct Hr as [Hr _]. specialize (Hc rn). rewrite Hc in Hr; [done|]. cbn. rewrite fmap_app. set_solver.
Qed.

(** Transport of the invariant to a configuration that differs in cursor, cache and
    records only. *)
Lemma inv_again c c3 X :
  inv c X -> hp c3 = hp c -> calls c3 = calls c -> st c3 = st c ->
  (forall q, Bitset.mem (linearized c3) q = Bitset.mem (linearized c) q) ->
  (forall i, 0 <= i < n -> Bitset.in_range (linearized c3) i) ->
  seqs_ok (longest c3) (seqs c3) ->
  (forall x, cached x (cache c3) -> cached x (cache c) \/ dead x) -> inv c3 X.
Proof.
  intros [H1 H2 H3 H4 H5 H6 H7] Eh Ec Es Hl Hr Hs Hc.
  split; rewrite ?Eh, ?Ec, ?Es; try done.
  - rewrite H3. apply rem_ext. intros q. by rewrite Hl.
  - intros x Hx. destruct (Hc x Hx) as [Hx'|]; [|by left]. destruct (H7 x Hx') as [|Hq]; [by left|right].
    intros q ?%Hq. by rewrite Hl.
Qed.

(** After the search below an operation failed, the operation is taken back. *)
Lemma back_step c X XP e en XM s' c1 X1 c2 :
  inv c X -> X = XP ++ (e, en) :: XM -> Bitset.mem (linearized c) (id en) = false -> 0 <= id en < n ->
  cur c = Some e ->
  inv c1 X1 -> st c1 = s' -> calls c1 = calls c ++ [ {| ce_entry := e; ce_state := st c |} ] ->
  unlift e (hp c1) = Some (hp c) ->
  (forall q, Bitset.mem (linearized c1) q = bool_decide (q = id en) || Bitset.mem (linearized c) q) ->
  (forall x, cached x (cache c1) -> cached x (cache c) \/
     (remaining (Bitset.mem (c_linearized x)) hist = X1.*2 /\ c_state x = s')) ->
  goes c1 c2 -> hp c2 = hp c1 -> calls c2 = calls c1 ->
  (forall q, Bitset.mem (linearized c2) q = Bitset.mem (linearized c1) q) -> inv c2 X1 ->
  (exists XP r en XM, X1 = XP ++ (r, en) :: XM /\ cur c2 = Some r /\ kind en = true) ->
  (forall x, cached x (cache c2) -> cached x (cache c1) \/ dead x) -> ~ Lin X1.*2 s' ->
  exists c3, goes c1 c3 /\ hp c3 = hp c /\
    calls c3 = calls c /\ st c3 = st c /\ cur c3 = first_or XM.*1 None /\
    (forall q, Bitset.mem (linearized c3) q = Bitset.mem (linearized c) q) /\ inv c3 X /\
    (forall x, cached x (cache c3) -> cached x (cache c) \/ dead x).
Proof.
  intros HI E Hno Hid Hcur HI1 Hst1 Hcs1 Hu Hm1 Hc1 Hrun Hh2 Hcs2 Hm2 HI2 (XP' & r & rn & XM' & E1 & Hcur2 & Hk)
    Hc2 HL.
  destruct (iter_at _ _ _ _ _ _ HI E Hcur) as (nd & Hnd & Hnx & Hnid & _).
  assert (forall b, info (hp c2) b = info (hp c) b) as Hinf.
  { intros b. by rewrite (i_info _ _ HI2), (i_info _ _ HI). }
  rewrite Hcs1 in Hcs2.
  destruct (return_step c2 X1 XP' r rn XM' (calls c) e (st c) (hp c)) with (nd := nd)
    as (c3 & Hit & G1 & G2 & G3 & G4 & G5 & G6 & G7 & G8);
    [done|done|done|done|done|by rewrite Hh2|done|by rewrite Hnid|done|].
  assert (forall x, cached x (cache c3) -> cached x (cache c) \/ dead x) as Hc3.
  { rewrite G5. intros x [Hx|]%Hc2; [|by right]. destruct (Hc1 x Hx) as [|[Hx1 Hx2]]; [by left|right].
    unfold dead. by rewrite Hx1, Hx2. }
  assert (forall q, Bitset.mem (linearized c3) q = Bitset.mem (linearized c) q) as Hm3.
  { intros q. rewrite G6, Hm2, Hm1, Hnid. case_bool_decide; [by subst|done]. }
  exists c3. split_and!; try done; [|by rewrite G2|by eapply inv_again].
  eapply goes_trans; [exact Hrun|by eapply goes_one].
Qed.

Lemma found_step c c1 : goes c c1 -> found c1 -> found c.
Proof.
  intros Hg (c2 & c' & ids & s & Hr & H). exists c2, c', ids, s. split; [by eapply goes_trans|done].
Qed.

Lemma exhausted_step c c1 X :
  goes c c1 -> hp c1 = hp c -> calls c1 = calls c ->
  st c1 = st c -> (forall q, Bitset.mem (linearized c1) q = Bitset.mem (linearized c) q) ->
  (forall x, cached x (cache c1) -> cached x (cache c) \/ dead x) ->
  found c1 \/ exhausted c1 X -> found c \/ exhausted c X.
Proof.
  intros Hr E1 E2 E3 Hl Hc [Hf|(c' & Hr' & H1 & H2 & H3 & H4 & H5 & H6 & H7 & H8)].
  - left. by eapply found_step.
  - right. exists c'. rewrite E1 in H1. rewrite E2 in H2. rewrite E3 in H3, H8.
    split_and!; try done.
    + by eapply goes_trans.
    + intros q. by rewrite H4, Hl.
    + intros x [Hx|?]%H7; [by apply Hc|by right].
Qed.

Lemma explore len X :
  (length X <= len)%nat -> forall XM XP c, inv c X -> X = XP ++ XM -> calls_only XP.*2 ->
  cur c = first_or XM.*1 None -> tried (length XP) X.*2 (st c) -> found c \/ exhausted c X.
Proof.
  revert X. induction len as [len IHlen] using (well_founded_induction lt_wf). intros X Hlen XM.
  induction XM as [|[e en] XM IHXM]; intros XP c HI E Hco Hcur Ht.
  { rewrite app_nil_r in E. subst XP. left. apply found_end.
    by rewrite (no_calls_only _ _ HI Hco) in HI. }
  cbn in Hcur. destruct (kind en) eqn:Hk.
  { right. exists c. split_and!; try done; [constructor|by exists XP, e, en, XM|by left|].
    rewrite E in *. by apply tried_all. }
  assert (calls_only (XP ++ [(e, en)]).*2) as Hco'.
  { intros x. rewrite fmap_app, elem_of_app. intros [?|Hx]; [by apply Hco|].
    by apply list_elem_of_singleton in Hx as ->. }
  assert (X = (XP ++ [(e, en)]) ++ XM) as E' by (by rewrite <- app_assoc).
  assert (Bitset.mem (linearized c) (id en) = false /\ 0 <= id en < n) as [Hno Hid].
  { pose proof (i_rem _ _ HI) as Hr. rewrite E in Hr.
    assert ((e, en) ∈ X0 /\ Bitset.mem (linearized c) (id en) = false) as [Hin ?].
    { apply (elem_of_rem _ X0 (e, en)). rewrite <- Hr. set_solver. }
    split; [done|]. apply (wh_id _ _ W). rewrite <- HX. by apply (list_elem_of_fmap_2 snd _ (e, en)). }
  destruct (call_step _ _ _ _ _ _ HI E Hcur Hk)
    as (vi & vo & XB & m & rn & XC & EM & Hc & Hr & Hother & Hcase).
  assert ((forall s', f_Step model (st c) vi vo = (true, s') -> ~ Lin (XP ++ XB ++ XC).*2 s') ->
    tried (length (XP ++ [(e, en)])) X.*2 (st c)) as Htn.
  { intros Hd. replace (length (XP ++ [(e, en)])) with (S (length XP.*2))
      by (rewrite length_fmap, length_app; cbn; lia).
    rewrite E, EM, fmap_app in *. cbn in *. rewrite !fmap_app in *. cbn in *.
    eapply tried_next; [by rewrite length_fmap|done..]. }
  destruct Hcase as [[Hit Hd]|Hcase].
  { eapply (exhausted_step c _ X); [by eapply goes_one|done..|by left|].
    eapply IHXM; [by apply inv_set_cur|exact E'|done|done|by apply Htn]. }
  destruct (Hcase Hco) as (s' & c1 & Hs' & Hit & HI1 & Hcur1 & Hst1 & Hcs1 & Hu & Hm1 & Hc1).
  destruct (IHlen (length (XP ++ XB ++ XC))) with (X := XP ++ XB ++ XC) (XM := XP ++ XB ++ XC)
    (XP := @nil (nat * entry I O)) (c := c1)
    as [Hf|(c2 & Hrun & Hh2 & Hcs2 & _ & Hm2 & HI2 & Hret & Hc2 & HL)].
  - rewrite E, EM in Hlen. repeat (rewrite length_app in Hlen || cbn in Hlen). rewrite !length_app.
    lia.
  - done.
  - done.
  - done.
  - intros x Hx. by apply not_elem_of_nil in Hx.
  - done.
  - intros ? ? ? ? ? ? ? ? ? ? Hl. cbn in Hl. lia.
  - left. eapply found_step; [by eapply goes_one|done].
  - rewrite Hst1 in HL.
    destruct (back_step c X XP e en XM s' c1 (XP ++ XB ++ XC) c2)
      as (c3 & Hrun3 & Hh3 & Hcs3 & Hst3 & Hcur3 & Hm3 & HI3 & Hc3); try done.
    eapply (exhausted_step c c3 X); try done.
    + eapply goes_trans; [by eapply goes_one|exact Hrun3].
    + eapply IHXM; [exact HI3|exact E'|done|done|]. rewrite Hst3. apply Htn.
      intros s'' Hs''. by replace s'' with s' by congruence.
Qed.
End search.
