(* ===== verification/PorcProps.v ===== *)
(** * What the checker decides

    [checkSingle] terminates and returns true exactly for the linearizable histories;
    the sequences it records are linearizations of parts of the history. *)
From S2P Require Import Prelude Bitset Porcupine PorcLin PorcHeap PorcSearch.
Import Porcupine.

Lemma wf_history_length {I O} (hist : list (entry I O)) n : wf_history hist n -> zlen hist = 2 * n.
Proof.
  intros W. assert (0 <= n) as Hn by apply (wh_n _ _ W). revert n Hn hist W.
  refine (natlike_ind _ _ _).
  - intros hist W. destruct hist as [|en hist]; [done|].
    pose proof (wh_id _ _ W en ltac:(constructor)). lia.
  - intros n Hn IH hist W.
    destruct (wh_op _ _ W n ltac:(lia)) as (vi & vo & A & B & C & e & m & Hsp).
    set (b := fun q => bool_decide (q = n) || false).
    assert (remaining b hist = A ++ B ++ C) as Hrem.
    { erewrite splits_take with (b := fun _ => false); [|exact Hsp|done].
      by rewrite !remaining_none by done. }
    assert (wf_history (A ++ B ++ C) n) as W'.
    { rewrite <- Hrem. split; [done| |].
      - intros i Hi. destruct (wh_op _ _ W i ltac:(lia)) as (vi' & vo' & A' & B' & C' & e' & m' & Hsp').
        eexists vi', vo', _, _, _, e', m'. eapply splits_remaining; [exact Hsp'|].
        unfold b. rewrite bool_decide_eq_false_2; [done|lia].
      - intros en [Hin Hb]%elem_of_remaining. pose proof (wh_id _ _ W en Hin). unfold b in Hb.
        rewrite orb_false_r in Hb. apply bool_decide_eq_false in Hb. lia. }
    apply IH in W'. destruct Hsp as (-> & _). unfold zlen in *.
    rewrite !length_app in *. cbn. rewrite length_app. cbn. lia.
Qed.

Section single.
Context {I O St : Type} (model : @FullModel I O St) (computePartial : bool).
Context (hist : list (entry I O)) (n : Z) (W : wf_history hist n).

Lemma startSearch_spec :
  exists hd c X, startSearch model hist = Some (hd, c) /\ NoDup (hd :: X.*1) /\ X.*2 = hist /\
    represents (hp c) X /\ inv model X hist n hd (hp c) c X /\ cur c = first_or X.*1 None /\
    calls c = [] /\ st c = f_Init model.
Proof.
  destruct (linkEntries_spec (reverse hist) 0 [] ∅ ∅) as (X & h & Hl & HX & Hlt & HN & Hs & HR).
  - intros a Ha. by inv Ha.
  - constructor.
  - done.
  - done.
  - intros i. rewrite lookup_empty. intros m r Hr. by inv Hr.
  - rewrite app_nil_r, reverse_involutive in HX. cbn in HX.
    assert (length X.*1 = length hist) as Hlen by (by rewrite <- HX, !length_fmap).
    set (hd := length hist). set (head := {| n_value := @None (I + O); n_match := None; n_id := -1;
      n_next := None; n_prev := None |}).
    assert (hd ∉ X.*1) as Hhd by (intros Ha%Hlt; rewrite length_reverse in Ha; unfold hd in Ha; lia).
    destruct (insertBefore_spec (<[hd := head]> h) hd X.*1 head) as (h' & Hins & Hs' & Hinf);
      [done|done|by rewrite lookup_insert_eq|done|done|by apply seg_frame|].
    pose proof (wf_history_length _ _ W) as Hn2.
    assert (zlen hist / 2 = n) as Hdiv by (rewrite Hn2, Z.mul_comm; by apply Z.div_mul).
    assert (represents h' X) as HR'.
    { eapply represents_info; [|exact HR]. intros a Ha. rewrite Hinf. unfold info.
      rewrite lookup_insert_ne; [done|]. by intros ->. }
    eexists hd, _, X. split.
    { unfold startSearch, makeLinkedEntries. cbn [fmap list_fmap first_or] in Hl.
      rewrite Hl. cbn [mbind option_bind]. rewrite (lengthFrom_spec _ None) by (done || lia).
      cbn [mbind option_bind]. fold hd head. rewrite Hins. cbn. reflexivity. }
    cbn. unfold zlen in *. rewrite Hlen, Hdiv. split_and!; try done; [by constructor|].
    split; cbn; try done.
    + symmetry. apply rem_none. apply Bitset.mem_newBitset.
    + intros i Hi. by apply Bitset.newBitset_range.
    + exists []. split; [done|]. rewrite HX. constructor.
    + split; [|by intros p [[=] _]%elem_of_replicate|by intros p Hp; inv Hp].
      unfold zlen. rewrite length_replicate. pose proof (wh_n _ _ W). lia.
    + intros x (k & l & Hk & _). by rewrite lookup_empty in Hk.
Qed.

(** [Equal] never identifies states that allow different steps. *)
Definition equal_ok : Prop :=
  forall s s' vi vo t, f_Equal model s s' = true -> f_Step model s vi vo = (true, t) ->
    exists t', f_Step model s' vi vo = (true, t') /\ f_Equal model t t' = true.

Notation run hd fuel kill c := (searchLoop fuel model computePartial kill hd c).
Notation goes := (goes model computePartial hist n).
Notation seqs_ok := (seqs_ok model hist n).

Lemma goes_run hd c c' :
  goes hd c c' -> exists k, forall fuel, run hd (k + fuel)%nat None c = run hd fuel None c'.
Proof.
  induction 1 as [c|c c1 c2 _ Hi _ [k IH]]; [by exists 0%nat|]. exists (S k). intros fuel.
  cbn [Nat.add searchLoop]. rewrite bool_decide_eq_false_2 by done. rewrite Hi. apply IH.
Qed.

Lemma iter_killed hd c :
  iter model computePartial true hd c = iter model computePartial false hd c \/
  iter model computePartial true hd c = Some (Finished false c).
Proof.
  unfold iter. destruct (hp c !! hd) as [nd|]; [|by left]. cbn.
  destruct (n_next nd); [by right|by left].
Qed.

(** A search that may be killed stops earlier, or ends like the one that is not. *)
Lemma goes_killed hd c c1 ok c' :
  goes hd c c1 -> seqs_ok (longest c1) (seqs c1) ->
  iter model computePartial false hd c1 = Some (Finished ok c') -> seqs_ok (longest c') (seqs c') ->
  forall fuel kill r c'', run hd fuel kill c = Some (r, c'') ->
  seqs_ok (longest c'') (seqs c'') /\ (r = true -> ok = true).
Proof.
  intros Hg H1 Hi H'. induction Hg as [c1|c c1 c2 Hc Hc1 _ IH]; intros [|fuel] kill r c'' Hr; try done;
    cbn [searchLoop] in Hr.
  - destruct (bool_decide _); [destruct (iter_killed hd c1) as [E|E]|].
    1, 3: rewrite ?E, Hi in Hr; cbn in Hr; by injection Hr as <- <-.
    rewrite E in Hr. cbn in Hr. by injection Hr as <- <-.
  - destruct (bool_decide _); [destruct (iter_killed hd c) as [E|E]|].
    1, 3: rewrite ?E, Hc1 in Hr; cbn in Hr; by eapply IH.
    rewrite E in Hr. cbn in Hr. by injection Hr as <- <-.
Qed.

Lemma run_end hd c c1 ok c' :
  goes hd c c1 -> iter model computePartial false hd c1 = Some (Finished ok c') ->
  exists k, forall fuel, run hd (k + fuel)%nat None c = Some (ok, c').
Proof.
  intros [k Hk]%goes_run Hi. exists (k + 1)%nat. intros fuel. rewrite <- Nat.add_assoc, Hk.
  cbn [Nat.add searchLoop]. rewrite bool_decide_eq_false_2 by done. by rewrite Hi.
Qed.

Notation Path := (Path (f_Step model) (f_Init model) hist).

Lemma search_ends : equal_ok -> exists hd c0 c1 ok c',
  startSearch model hist = Some (hd, c0) /\ goes hd c0 c1 /\
  iter model computePartial false hd c1 = Some (Finished ok c') /\
  seqs_ok (longest c1) (seqs c1) /\ seqs_ok (longest c') (seqs c') /\
  if ok then exists ids s, Path ids [] s /\
    forall x, x ∈ longest c' -> exists p, x = Some p /\ seqs c' !! p = Some ids
  else ~ Lin (f_Step model) hist (f_Init model).
Proof.
  intros Heq. destruct startSearch_spec as (hd & c0 & X & Hst & HN & HX & HR & HI & Hcur & Hcs & Hinit).
  destruct (explore model computePartial X hist n hd (hp c0) HX W HN HR Heq (length X) X (le_n _) X [] c0)
    as [(c1 & c' & ids & s & Hg & Hs1 & Hi & HP & Hs' & Hall)|
        (c1 & Hg & Hh & Hcs1 & _ & _ & HI1 & (XP & r & en & XM & E & Hcur1 & Hk) & _ & HL)];
    [done|done|by intros x Hx; inv Hx|done|by intros ? ? ? ? ? ? ? ? ? ? Hl; cbn in Hl; lia| |].
  - exists hd, c0, c1, true, c'. split_and!; try done. by exists ids, s.
  - exists hd, c0, c1, false, c1. split_and!; try done; try apply (i_seqs _ _ _ _ _ _ _ _ HI1).
    + destruct (iter_at model computePartial X hist n hd (hp c0) HX W HN HR Heq _ _ _ _ _ _ HI1 E Hcur1)
        as (nd & _ & _ & _ & Hinf & ->).
      assert (n_match nd = None) as ->.
      { rewrite E in HR. apply represents_app in HR as (mt & Hmt & Hm). rewrite Hk in Hm. congruence. }
      unfold iterReturn. by rewrite Hcs1, Hcs.
    + by rewrite HX, Hinit in HL.
Qed.
End single.

(** ** One partition *)
Section verdicts.
Context {I O St : Type} (model : @FullModel I O St).
Context (Heq : equal_ok model).
Notation entry := (entry I O).

(** Every operation of [hist] has its call and a later return. *)
Definition complete (hist : list entry) : Prop := wf_history hist (zlen hist / 2).
Definition linearizable_history (hist : list entry) : Prop :=
  linearizable (f_Step model) (f_Init model) hist (zlen hist / 2).

Lemma searchLoop_more fuel k computePartial kill hd c r :
  searchLoop fuel model computePartial kill hd c = Some r ->
  searchLoop (fuel + k) model computePartial kill hd c = Some r.
Proof.
  revert kill c. induction fuel as [|fuel IH]; intros kill c; [done|]. cbn [Nat.add searchLoop].
  destruct (iter _ _ _ _ _) as [[c1|ok c1]|]; cbn; [apply IH|done|done].
Qed.

Lemma checkSingle_more fuel k computePartial hist kill r :
  checkSingle fuel model hist computePartial kill = Some r ->
  checkSingle (fuel + k) model hist computePartial kill = Some r.
Proof.
  unfold checkSingle. destruct (startSearch model hist) as [[hd c]|]; [|done]. cbn.
  apply searchLoop_more.
Qed.

(** A search that is told to stop ends no later. *)
Lemma iter_killed_ends cp hd (c : @config I O St) o :
  iter model cp false hd c = Some o -> exists ok c', iter model cp true hd c = Some (Finished ok c').
Proof.
  unfold iter. destruct (hp c !! hd) as [h|]; [|done]. cbn. destruct (n_next h); [eauto|].
  destruct (callIds _ _); [|done]. cbn. eauto.
Qed.

Lemma searchLoop_killed fuel cp hd c r kill :
  searchLoop fuel model cp None hd c = Some r -> is_Some (searchLoop fuel model cp kill hd c).
Proof.
  revert kill c. induction fuel as [|fuel IH]; intros kill c; [done|]. cbn [searchLoop].
  rewrite (bool_decide_eq_false_2 (None = Some 0%nat)) by done.
  destruct (iter model cp false hd c) as [o|] eqn:Ho; [|done]. cbn [mbind option_bind].
  intros Hr. case_bool_decide as Hk.
  - destruct (iter_killed_ends _ _ _ _ Ho) as (ok & c' & ->). by eexists.
  - rewrite Ho. cbn. destruct o as [c1|ok c1]; [by apply IH|by eexists].
Qed.

Lemma checkSingle_killed fuel cp hist r kill :
  checkSingle fuel model hist cp None = Some r -> is_Some (checkSingle fuel model hist cp kill).
Proof.
  unfold checkSingle. destruct (startSearch model hist) as [[hd c]|]; [|done]. cbn.
  apply searchLoop_killed.
Qed.

Lemma Lin_linearizable hist : complete hist ->
  linearizable_history hist -> Lin (f_Step model) hist (f_Init model).
Proof. intros W (seq & s & Hl & Hall). by eapply linearizes_Lin. Qed.

(** The search ends, with the answer. *)
Lemma single_ends computePartial hist : complete hist ->
  exists N ok c, (forall fuel, (N <= fuel)%nat ->
    checkSingle fuel model hist computePartial None = Some (ok, c)) /\
    (ok = true <-> linearizable_history hist).
Proof using Heq.
  intros W. destruct (search_ends model computePartial hist _ W Heq)
    as (hd & c0 & c1 & ok & c' & Hst & Hg & Hi & _ & _ & Hok).
  destruct (run_end _ _ _ _ _ _ _ _ _ Hg Hi) as [k Hk]. exists k, ok, c'. split.
  - intros fuel Hf. unfold checkSingle. rewrite Hst. cbn.
    replace fuel with (k + (fuel - k))%nat by lia. apply Hk.
  - destruct ok.
    + destruct Hok as (ids & s & HP & _). split; [intros _|done]. exists ids, s.
      by eapply Path_linearizable.
    + split; [done|]. intros Hl%Lin_linearizable; done.
Qed.

Lemma single_result fuel computePartial hist ok c : complete hist ->
  checkSingle fuel model hist computePartial None = Some (ok, c) ->
  ok = true <-> linearizable_history hist.
Proof using Heq.
  intros W Hc. destruct (single_ends computePartial hist W) as (N & ok' & c' & HN & Hok).
  apply (checkSingle_more _ N) in Hc. rewrite HN in Hc by lia. by injection Hc as -> ->.
Qed.

(** What a search leaves, even one that was killed. *)
Lemma single_records fuel computePartial hist kill ok c : complete hist ->
  checkSingle fuel model hist computePartial kill = Some (ok, c) ->
  seqs_ok model hist (zlen hist / 2) (longest c) (seqs c) /\ (ok = true -> linearizable_history hist).
Proof using Heq.
  intros W Hc. destruct (search_ends model computePartial hist _ W Heq)
    as (hd & c0 & c1 & ok' & c' & Hst & Hg & Hi & Hs1 & Hs' & Hok).
  unfold checkSingle in Hc. rewrite Hst in Hc. cbn in Hc.
  destruct (goes_killed _ _ _ _ _ _ _ _ _ Hg Hs1 Hi Hs' _ _ _ _ Hc) as [H1 H2]. split; [done|].
  intros Ht%H2. subst ok'. destruct Hok as (ids & s & HP & _). exists ids, s. by eapply Path_linearizable.
Qed.

Lemma partialsOf_sound hist (c : @config I O St) seq : complete hist ->
  seqs_ok model hist (zlen hist / 2) (longest c) (seqs c) -> seq ∈ partialsOf c ->
  exists s, linearizes (f_Step model) (f_Init model) hist seq s.
Proof.
  intros W [_ _ Hp] Hin. unfold partialsOf in Hin. apply list_elem_of_omap in Hin as (p & _ & Hs).
  destruct (Hp seq) as (L & s & HP); [by eapply list_elem_of_lookup_2|]. exists s.
  by destruct (Path_spec _ _ _ _ _ _ _ W HP).
Qed.

(** ** All partitions *)

Definition received_ok (parts : list (list entry)) (count : Z) (ok : bool)
    (lg : gmap nat (@config I O St)) : Prop :=
  count = Z.of_nat (size lg) /\
  (forall i c, lg !! i = Some c -> exists h, parts !! i = Some h /\
     seqs_ok model h (zlen h / 2) (longest c) (seqs c) /\ (ok = true -> linearizable_history h)) /\
  (ok = false -> exists h, h ∈ parts /\ ~ linearizable_history h).

Lemma received_step fuel parts ci count ok lg i h r c :
  Forall complete parts -> received_ok parts count ok lg -> lg !! i = None -> parts !! i = Some h ->
  checkSingle fuel model h ci None = Some (r, c) ->
  received_ok parts (count + 1) (ok && r) (<[i := c]> lg).
Proof using Heq.
  intros HW (H1 & H2 & H3) Hi Hh Hc.
  assert (complete h) as W by (rewrite Forall_lookup in HW; by eapply HW).
  pose proof (single_result _ _ _ _ _ W Hc) as Hr.
  destruct (single_records _ _ _ _ _ _ W Hc) as [Hs _]. split_and!.
  - rewrite map_size_insert_None by done. lia.
  - intros j c0. rewrite lookup_insert. case_decide; [intros [= <-]; subst j|].
    + exists h. split_and!; [done|done|]. intros [_ ?]%andb_true_iff. by apply Hr.
    + intros (h' & ? & ? & Hl)%H2. exists h'. split_and!; [done|done|].
      intros [? _]%andb_true_iff. by apply Hl.
  - intros [?|?]%andb_false_iff; [by apply H3|]. exists h. split; [by eapply list_elem_of_lookup_2|].
    intros Hl%Hr. congruence.
Qed.

(** As many results as partitions are all of them. *)
Lemma received_all parts count ok lg i h :
  received_ok parts count ok lg -> zlen parts <= count -> parts !! i = Some h -> is_Some (lg !! i).
Proof.
  intros (H1 & H2 & _) Hlen Hi.
  assert (dom lg ⊆ (list_to_set (seq 0 (length parts)) : gset nat)) as Hsub.
  { intros j [c Hc]%elem_of_dom. destruct (H2 j c Hc) as (h' & Hh%lookup_lt_Some & _).
    apply elem_of_list_to_set, elem_of_seq. lia. }
  assert (dom lg = (list_to_set (seq 0 (length parts)) : gset nat)) as E.
  { apply leibniz_equiv, set_subseteq_size_equiv; [done|].
    rewrite size_list_to_set, length_seq, size_dom by apply NoDup_seq. unfold zlen in Hlen. lia. }
  apply elem_of_dom. rewrite E. apply elem_of_list_to_set, elem_of_seq. apply lookup_lt_Some in Hi. lia.
Qed.

Lemma await_spec fuel parts ci order count ok lg ok' t lg' :
  Forall complete parts -> received_ok parts count ok lg ->
  awaitResults fuel model parts ci order count ok lg = Some (ok', t, lg') ->
  (exists count', received_ok parts count' ok' lg' /\
     (t = false -> ok' = true \/ ci = true -> zlen parts <= count')) /\
  (t = true -> None ∈ order).
Proof using Heq.
  intros HW. revert count ok lg. induction order as [|[i|] order IH]; intros count ok lg HR Ha; cbn in Ha.
  - done.
  - destruct (lg !! i) eqn:Hi; [done|]. destruct (parts !! i) as [h|] eqn:Hh; [|done]. cbn in Ha.
    destruct (checkSingle _ _ _ _ _) as [[r c]|] eqn:Hc; [|done]. cbn in Ha.
    pose proof (received_step _ _ _ _ _ _ _ _ _ _ HW HR Hi Hh Hc) as HR'.
    destruct (negb (ok && r) && negb ci) eqn:E1.
    { injection Ha as <- <- <-. split; [|done]. eexists. split; [exact HR'|].
      intros _ [E|E]; rewrite E in E1; [done|]. by rewrite andb_false_r in E1. }
    destruct (Z.leb_spec (zlen parts) (count + 1)).
    { injection Ha as <- <- <-. split; [|done]. by eexists. }
    destruct (IH _ _ _ HR' Ha) as [Hx Hy]. split; [done|]. intros Ht%Hy. by constructor.
  - injection Ha as <- <- <-. split; [by exists count|]. intros _. constructor.
Qed.

Lemma received_nil parts : received_ok parts 0 true ∅.
Proof. split_and!; [done| |done]. intros i c Hi. by rewrite lookup_empty in Hi. Qed.

(** Every partition's search ends within some common fuel. *)
Lemma all_end ci parts : Forall complete parts ->
  exists N, forall fuel h, (N <= fuel)%nat -> h ∈ parts ->
    exists r c, checkSingle fuel model h ci None = Some (r, c).
Proof using Heq.
  induction 1 as [|h parts W _ [N IH]]; [by exists 0%nat; intros ? ? _ Hh; inv Hh|].
  destruct (single_ends ci h W) as (N' & r & c & HN & _). exists (N `max` N')%nat.
  intros fuel h' Hf [->|Hh]%elem_of_cons; [exists r, c; apply HN; lia|apply IH; [lia|done]].
Qed.

(** What [select] may take: every goroutine sends one result, and all of them do, unless
    the timeout fires before. *)
Definition arrivals (parts : list (list entry)) (order : list (option nat)) : Prop :=
  exists received rest, order = (Some <$> received) ++ rest /\ NoDup received /\
    (forall i, i ∈ received -> (i < length parts)%nat) /\
    (head rest = Some None \/ length received = length parts /\ parts <> []).

Lemma await_total fuel parts ci received rest count ok lg :
  (forall h, h ∈ parts -> exists r c, checkSingle fuel model h ci None = Some (r, c)) ->
  NoDup received -> (forall i, i ∈ received -> (i < length parts)%nat /\ lg !! i = None) ->
  head rest = Some None \/ count + zlen received = zlen parts /\ received <> [] ->
  exists ok' t' lg', awaitResults fuel model parts ci ((Some <$> received) ++ rest) count ok lg =
    Some (ok', t', lg').
Proof.
  intros Hall. revert count ok lg. induction received as [|i received IH]; intros count ok lg HN Hin Hend.
  { destruct Hend as [Hend|[_ ?]]; [|done]. destruct rest as [|o rest]; [done|].
    injection Hend as ->. cbn. eauto. }
  cbn. destruct (Hin i) as [Hlt ->]; [constructor|].
  destruct (lookup_lt_is_Some_2 parts i Hlt) as [h Hh]. rewrite Hh. cbn.
  destruct (Hall h) as (r & c & ->); [by eapply list_elem_of_lookup_2|]. cbn.
  destruct (negb (ok && r) && negb ci); [eauto|]. rewrite zlen_cons in Hend.
  destruct (Z.leb_spec (zlen parts) (count + 1)); [eauto|]. apply NoDup_cons in HN as [Hi HN].
  apply IH; [done| |].
  - intros j Hj. destruct (Hin j) as [? Hj']; [by constructor|]. split; [done|].
    rewrite lookup_insert_ne; [done|]. by intros ->.
  - destruct Hend as [?|[Hlen _]]; [by left|right]. split; [lia|].
    intros ->. rewrite zlen_nil in Hlen. lia.
Qed.

Lemma collect_total fuel parts lg kills :
  (forall h, h ∈ parts -> exists r c, checkSingle fuel model h true None = Some (r, c)) ->
  is_Some (collectPartials fuel model parts lg kills).
Proof.
  intros Hall. unfold collectPartials. apply mapM_is_Some. apply Forall_forall.
  intros [i h] Hin. apply elem_of_lookup_imap in Hin as (j & y & [= -> ->] & Hj). cbn.
  destruct (lg !! j); [by eexists|]. destruct (Hall y) as (r & c & Hc); [by eapply list_elem_of_lookup_2|].
  destruct (checkSingle_killed _ _ _ _ (kills j) Hc) as [[r' c'] ->]. by eexists.
Qed.

(** More fuel changes nothing. *)
Lemma await_more fuel k parts ci order count ok lg x :
  awaitResults fuel model parts ci order count ok lg = Some x ->
  awaitResults (fuel + k) model parts ci order count ok lg = Some x.
Proof.
  revert count ok lg. induction order as [|[i|] order IH]; intros count ok lg; cbn; [done| |done].
  destruct (lg !! i); [done|]. destruct (parts !! i) as [h|]; [|done]. cbn.
  destruct (checkSingle fuel model h ci None) as [[r c]|] eqn:Hc; [|done].
  rewrite (checkSingle_more _ _ _ _ _ _ Hc). cbn. repeat (case_match; [done|]). apply IH.
Qed.

Lemma collect_more fuel k parts lg kills x :
  collectPartials fuel model parts lg kills = Some x ->
  collectPartials (fuel + k) model parts lg kills = Some x.
Proof.
  unfold collectPartials. rewrite !mapM_Some. intros Hx. eapply Forall2_impl; [exact Hx|].
  intros [i h] ps. cbn. destruct (lg !! i); [done|].
  destruct (checkSingle fuel model h true (kills i)) as [[r c]|] eqn:Hc; [|done].
  by rewrite (checkSingle_more _ _ _ _ _ _ Hc).
Qed.

Lemma parallel_more fuel k parts ci order kills x :
  checkParallel fuel model parts ci order kills = Some x ->
  checkParallel (fuel + k) model parts ci order kills = Some x.
Proof.
  unfold checkParallel. destruct (awaitResults fuel _ _ _ _ _ _ _) as [[[ok t] lg]|] eqn:Ha; [|done].
  rewrite (await_more _ _ _ _ _ _ _ _ _ Ha). cbn. destruct ci; [|done].
  destruct (collectPartials fuel _ _ _ _) as [ps|] eqn:Hp; [|done]. by rewrite (collect_more _ _ _ _ _ _ Hp).
Qed.

(** What a verdict says about the partitions. *)
Definition verdict_ok (parts : list (list entry)) (res : CheckResult) (timeouts : Prop) : Prop :=
  match res with
  | Ok => forall h, h ∈ parts -> linearizable_history h
  | Illegal => exists h, h ∈ parts /\ ~ linearizable_history h
  | Unknown => timeouts
  end.

Lemma verdict_spec fuel parts ci order ok t lg :
  Forall complete parts -> awaitResults fuel model parts ci order 0 true ∅ = Some (ok, t, lg) ->
  verdict_ok parts (verdict ok t) (None ∈ order).
Proof using Heq.
  intros HW Ha. destruct (await_spec _ _ _ _ _ _ _ _ _ _ HW (received_nil parts) Ha)
    as [(count & HR & Hall) Ht]. unfold verdict. destruct ok; cbn.
  - destruct t; cbn; [by apply Ht|]. intros h [i Hi]%list_elem_of_lookup.
    destruct (received_all _ _ _ _ _ _ HR ltac:(by apply Hall; [|left]) Hi) as [c Hc].
    destruct HR as (_ & HR & _). destruct (HR i c Hc) as (h' & Hh' & _ & Hl).
    rewrite Hi in Hh'. injection Hh' as ->. by apply Hl.
  - destruct HR as (_ & _ & HR). by apply HR.
Qed.

Lemma verdict_unique parts res res' :
  verdict_ok parts res False -> verdict_ok parts res' False -> res = res'.
Proof.
  destruct res, res'; cbn; try done.
  - intros H (h & Hh & Hn). exfalso. by apply Hn, H.
  - intros (h & Hh & Hn) H. exfalso. by apply Hn, H.
Qed.

(** Every sequence of the collected information is a linearization of a part of its
    partition. *)
Lemma collect_sound fuel parts count ok lg kills partials i ps q h :
  Forall complete parts -> received_ok parts count ok lg ->
  collectPartials fuel model parts lg kills = Some partials ->
  partials !! i = Some ps -> q ∈ ps -> parts !! i = Some h ->
  exists s, linearizes (f_Step model) (f_Init model) h q s.
Proof using Heq.
  intros HW (_ & HR & _) Hc Hps Hq Hh. assert (complete h) as W by (rewrite Forall_lookup in HW; by eapply HW).
  unfold collectPartials in Hc. apply mapM_Some in Hc.
  assert (imap pair parts !! i = Some (i, h)) as Hi by (by rewrite list_lookup_imap, Hh).
  pose proof (Forall2_lookup_lr _ _ _ _ _ _ Hc Hi Hps) as Hp. cbn in Hp.
  destruct (lg !! i) as [c|] eqn:El.
  - destruct (HR i c El) as (h' & Hh' & Hs & _). rewrite Hh in Hh'. injection Hh' as <-.
    injection Hp as <-. by eapply partialsOf_sound.
  - destruct (checkSingle _ _ _ _ _) as [[r c]|] eqn:Hs; [|done]. injection Hp as <-.
    destruct (single_records _ _ _ _ _ _ W Hs) as [Hs' _]. by eapply partialsOf_sound.
Qed.

(** The checker of the partitions terminates. *)
Lemma parallel_total parts ci order kills :
  Forall complete parts -> arrivals parts order ->
  exists N res info, forall fuel, (N <= fuel)%nat ->
    checkParallel fuel model parts ci order kills = Some (res, info).
Proof using Heq.
  intros HW (received & rest & -> & HN & Hlt & Hend).
  destruct (all_end ci parts HW) as [N HNf]. destruct (all_end true parts HW) as [N' HNt].
  set (F := (N `max` N')%nat).
  assert (exists res info, checkParallel F model parts ci ((Some <$> received) ++ rest) kills =
    Some (res, info)) as (res & info & Hc).
  { destruct (await_total F parts ci received rest 0 true ∅) as (ok & t & lg & Ha).
    - intros h Hh. apply HNf; [lia|done].
    - done.
    - intros i Hi. split; [by apply Hlt|apply lookup_empty].
    - destruct Hend as [?|[Hl Hne]]; [by left|right]. unfold zlen. rewrite Hl. split; [lia|].
      intros ->. by destruct parts.
    - unfold checkParallel. rewrite Ha. cbn [mbind option_bind]. destruct ci; [|by eexists _, _].
      destruct (collect_total F parts lg kills) as [ps ->]; [|by eexists _, _].
      intros h Hh. apply HNt; [lia|done]. }
  exists F, res, info. intros fuel Hf. replace fuel with (F + (fuel - F))%nat by lia.
  by apply parallel_more.
Qed.

Lemma arrivals_all parts order :
  parts <> [] -> order ≡ₚ seq 0 (length parts) -> arrivals parts (Some <$> order).
Proof.
  intros Hne Hord. exists order, []. rewrite app_nil_r. split_and!; [done| | |right].
  - rewrite Hord. apply NoDup_seq.
  - intros i. rewrite Hord, elem_of_seq. lia.
  - by rewrite Hord, length_seq.
Qed.

Lemma parallel_verdict fuel parts ci order kills res info :
  Forall complete parts -> checkParallel fuel model parts ci order kills = Some (res, info) ->
  verdict_ok parts res (None ∈ order).
Proof using Heq.
  intros HW Hc. unfold checkParallel in Hc.
  destruct (awaitResults _ _ _ _ _ _ _ _) as [[[ok t] lg]|] eqn:Ha; [|done]. cbn in Hc.
  pose proof (verdict_spec _ _ _ _ _ _ _ HW Ha) as Hv.
  destruct (if ci then _ else _) as [info'|]; [|done]. by injection Hc as <- <-.
Qed.

(** Without a timeout the verdict is not [Unknown]. *)
Lemma parallel_decides parts ci order kills :
  Forall complete parts -> parts <> [] -> order ≡ₚ seq 0 (length parts) ->
  exists N, forall fuel, (N <= fuel)%nat -> exists res info,
    checkParallel fuel model parts ci (Some <$> order) kills = Some (res, info) /\
    verdict_ok parts res False.
Proof using Heq.
  intros HW Hne Hord.
  destruct (parallel_total parts ci (Some <$> order) kills HW) as (N & res & info & HN);
    [by apply arrivals_all|]. exists N. intros fuel Hf. exists res, info. split; [by apply HN|].
  pose proof (parallel_verdict _ _ _ _ _ _ _ HW (HN N (le_n N))) as Hv.
  destruct res; try exact Hv. exfalso. by apply list_elem_of_fmap in Hv as (i & ? & _).
Qed.

(** What [checkParallel] reports with its verdict. *)
Lemma info_sound fuel parts ci order kills res info :
  Forall complete parts -> checkParallel fuel model parts ci order kills = Some (res, info) ->
  (forall i ps q h, partialLinearizations info !! i = Some ps -> q ∈ ps -> parts !! i = Some h ->
    exists s, linearizes (f_Step model) (f_Init model) h q s) /\
  (ci = true -> li_history info = parts /\ length (partialLinearizations info) = length parts).
Proof using Heq.
  intros HW Hc. unfold checkParallel in Hc.
  destruct (awaitResults _ _ _ _ _ _ _ _) as [[[ok t] lg]|] eqn:Ha; [|done]. cbn in Hc.
  destruct (await_spec _ _ _ _ _ _ _ _ _ _ HW (received_nil parts) Ha) as [(count & HR & _) _].
  destruct ci.
  - destruct (collectPartials _ _ _ _ _) as [partials|] eqn:Hp; [|done]. cbn in Hc.
    injection Hc as <- <-. cbn. split; [intros; by eapply collect_sound|]. intros _. split; [done|].
    apply length_mapM in Hp. by rewrite <- Hp, length_imap.
  - injection Hc as <- <-. split; [|done]. intros i ps q h Hps. cbn in Hps. by rewrite lookup_nil in Hps.
Qed.

End verdicts.

(** With no partition (an empty history) and no timeout nothing is ever received: the
    loop of [checkParallel] does not end, whatever the arrival order. *)
Theorem no_partition_blocks {I O St} (model : @FullModel I O St) fuel computeInfo order kills :
  checkParallel fuel model [] computeInfo (Some <$> order) kills = None.
Proof. unfold checkParallel. by destruct order. Qed.
