(* ===== verification/PorcEvents.v ===== *)
(** * Histories of events (src/src/porcupine/checker.go, porcupine.go)

    [CheckEvents] takes a history in the order in which calls and returns happened, with
    any identifiers; [renumber] makes them 0, 1, ...  Linearizability does not depend on
    the identifiers ([rename_linearizes]), so [CheckEvents] decides it for the history as
    it was given. *)
From S2P Require Import Prelude Bitset Porcupine PorcLin PorcProps.
Import Porcupine.

(** ** Renaming the operations of a history *)
Section entries.
Context {I O : Type}.
Notation entry := (entry I O).
Implicit Types (hist : list entry) (f g : Z -> Z).

Definition rename f (en : entry) : entry :=
  {| kind := kind en; value := value en; id := f (id en); time := time en; clientId := clientId en |}.

(** [f] keeps the operations of [hist] apart. *)
Definition apart f hist : Prop :=
  forall a b, a ∈ hist -> b ∈ hist -> f (id a) = f (id b) -> id a = id b.

Definition known hist (i : Z) : Prop := exists en, en ∈ hist /\ id en = i.

Lemma splits_rename f hist i vi vo A B C e m :
  apart f hist -> splits hist i vi vo A B C e m ->
  splits (rename f <$> hist) (f i) vi vo (rename f <$> A) (rename f <$> B) (rename f <$> C)
    (rename f e) (rename f m).
Proof.
  intros Hf (-> & (Hk & Hi & Hv) & (Hk' & Hi' & Hv') & Hno). split_and!.
  - by rewrite fmap_app, fmap_cons, fmap_app, fmap_cons.
  - split_and!; cbn; congruence.
  - split_and!; cbn; congruence.
  - rewrite <- !fmap_app. intros en (en' & -> & Hin)%list_elem_of_fmap. cbn. rewrite <- Hi.
    intros E%Hf; [|set_solver..]. apply (Hno en' Hin). congruence.
Qed.

Lemma isOp_rename f hist i vi vo : isOp hist i vi vo -> isOp (rename f <$> hist) (f i) vi vo.
Proof.
  intros [(e & He & ? & <- & ?) (m & Hm & ? & E & ?)]. split; [exists (rename f e)|exists (rename f m)];
    (split; [by apply list_elem_of_fmap_2|]); split_and!; cbn; congruence.
Qed.

(** The precedence of the renamed history is that of the history. *)
Lemma precedes_rename f hist i j :
  apart f hist -> known hist i -> known hist j ->
  precedes (rename f <$> hist) (f i) (f j) -> precedes hist i j.
Proof.
  intros Hf (ei & Hei & <-) (ej & Hej & <-) (l1 & l2 & r & c & E & Hr & Hkr & Hir & Hc & Hkc & Hic).
  apply fmap_app_inv in E as (k1 & k2 & -> & -> & ->).
  apply list_elem_of_fmap in Hr as (r' & -> & Hr), Hc as (c' & -> & Hc). cbn in *.
  exists k1, k2, r', c'. split_and!; try done; apply Hf; try done; set_solver.
Qed.

(** A renaming that keeps apart can be undone. *)
Lemma rename_inverse f hist : apart f hist -> exists g,
  rename g <$> (rename f <$> hist) = hist /\ apart g (rename f <$> hist) /\
  forall i, known hist i -> g (f i) = i.
Proof.
  intros Hf. set (g := fun r => default 0 (head (filter (fun k => f k = r) (id <$> hist)))).
  assert (forall i, known hist i -> g (f i) = i) as Hg.
  { intros i (en & Hin & <-). unfold g.
    destruct (filter (fun k => f k = f (id en)) (id <$> hist)) as [|k l] eqn:E.
    - exfalso. apply (not_elem_of_nil (id en)). rewrite <- E. apply list_elem_of_filter.
      split; [done|]. by apply list_elem_of_fmap_2.
    - assert (k ∈ filter (fun k => f k = f (id en)) (id <$> hist)) as Hk by (rewrite E; by left).
      apply list_elem_of_filter in Hk as [Hk (en' & -> & Hin')%list_elem_of_fmap]. cbn. by apply Hf. }
  exists g. split; [|split; [|done]].
  - rewrite <- list_fmap_compose. rewrite <- (list_fmap_id hist) at 2. apply list_fmap_ext.
    intros k en Hk%list_elem_of_lookup_2. unfold rename. cbn. rewrite Hg by (by exists en). by destruct en.
  - intros a b (a' & -> & Ha)%list_elem_of_fmap (b' & -> & Hb)%list_elem_of_fmap. cbn.
    rewrite (Hg (id a')) by (by exists a'). rewrite (Hg (id b')) by (by exists b'). congruence.
Qed.

End entries.

Section rename.
Context {I O St : Type} (step : St -> I -> O -> bool * St) (init : St).
Notation entry := (entry I O).
Implicit Types (hist : list entry) (f g : Z -> Z).

Lemma executes_known hist s seq s' i : executes step hist s seq s' -> i ∈ seq -> known hist i.
Proof.
  induction 1 as [|s j vi vo s1 seq s2 [(e & He & _ & Hi & _) _] _ _ IH]; [by intros ?%not_elem_of_nil|].
  intros [->|Hin]%elem_of_cons; [by exists e|by apply IH].
Qed.

Lemma executes_rename f hist s seq s' :
  executes step hist s seq s' -> executes step (rename f <$> hist) s (f <$> seq) s'.
Proof.
  induction 1 as [|s j vi vo s1 seq s2 Hop Hs _ IH]; cbn; [constructor|].
  econstructor; [by apply isOp_rename|exact Hs|exact IH].
Qed.

Lemma linearizes_rename f hist seq s :
  apart f hist -> linearizes step init hist seq s ->
  linearizes step init (rename f <$> hist) (f <$> seq) s.
Proof.
  intros Hf [Hx Hn Ho].
  assert (forall i, i ∈ seq -> known hist i) as Hk by (intros i; by eapply executes_known).
  split; [by apply executes_rename| |].
  - assert (forall l, (forall i, i ∈ l -> known hist i) -> NoDup l -> NoDup (f <$> l)) as HN; [|by apply HN].
    intros l Hl. induction 1 as [|x l Hx' _ IH]; [constructor|]. cbn. constructor.
    + intros (y & E & Hy)%list_elem_of_fmap. destruct (Hl x) as (ex & Hex & <-); [by left|].
      destruct (Hl y) as (ey & Hey & <-); [by right|]. apply Hf in E; [|done..]. by rewrite E in Hx'.
    + apply IH. intros i Hi. apply Hl. by right.
  - intros l1 j l2 i E Hp. apply fmap_app_inv in E as (k1 & k2 & -> & E & ->).
    destruct k2 as [|j' k2]; [done|]. injection E as -> ->.
    assert (known hist j') as Hj by (apply Hk; set_solver).
    assert (exists i', i = f i' /\ known hist i') as (i' & -> & Hi).
    { destruct Hp as (m1 & m2 & r & c & Em & Hr & _ & <- & _).
      assert (r ∈ rename f <$> hist) as (r' & -> & Hr')%list_elem_of_fmap by (rewrite Em; set_solver).
      exists (id r'). split; [done|by exists r']. }
    apply list_elem_of_fmap_2. apply (Ho k1 j' k2); [done|]. by apply (precedes_rename f).
Qed.

(** All operations of the history have a place in one linearization. *)
Definition all_linearized hist : Prop :=
  exists seq s, linearizes step init hist seq s /\ forall i, known hist i -> i ∈ seq.

Lemma rename_linearizes f hist :
  apart f hist ->
  all_linearized (rename f <$> hist) <-> all_linearized hist.
Proof.
  intros Hf. assert (forall f hist, apart f hist -> all_linearized hist ->
    all_linearized (rename f <$> hist)) as Hone.
  { clear. intros f hist Hf (seq & s & Hl & Hall). exists (f <$> seq), s.
    split; [by apply linearizes_rename|]. intros i (en & (en' & -> & Hin)%list_elem_of_fmap & <-).
    cbn. apply (list_elem_of_fmap_2 f), Hall. by exists en'. }
  split; [|by apply Hone]. intros H. destruct (rename_inverse f hist Hf) as (g & E & Hg & _).
  apply (Hone g) in H; [|done]. by rewrite E in H.
Qed.
End rename.

(** ** What [renumber] does *)
Section renumber.
Context {I O : Type}.
Notation Event := (Event I O).
Implicit Types (events : list Event) (m : gmap Z Z).

(** [m] gives the numbers below [i], each once. *)
Record numbers m (i : Z) : Prop := {
  nu_pos : 0 <= i;
  nu_range k r : m !! k = Some r -> 0 <= r < i;
  nu_all r : 0 <= r < i -> exists k, m !! k = Some r;
  nu_inj k k' r : m !! k = Some r -> m !! k' = Some r -> k = k';
}.

Definition renamed m (v : Event) : Event :=
  {| ev_ClientId := ev_ClientId v; ev_Kind := ev_Kind v; ev_Value := ev_Value v;
     ev_Id := default 0 (m !! ev_Id v) |}.

Lemma numbers_insert m i k : numbers m i -> m !! k = None -> numbers (<[k := i]> m) (i + 1).
Proof.
  intros [Hp Hr Ha Hi] Hk. split; [lia|..].
  - intros k' r [[<- <-]|[? H%Hr]]%lookup_insert_Some; lia.
  - intros r Hr'. destruct (decide (r = i)) as [->|]; [exists k; by rewrite lookup_insert_eq|].
    destruct (Ha r) as [k' Hk']; [lia|]. exists k'. rewrite lookup_insert_ne; [done|]. intros ->. congruence.
  - intros k1 k2 r [[<- <-]|[? H1]]%lookup_insert_Some [[<- E]|[? H2]]%lookup_insert_Some; subst; try done.
    + apply Hr in H2. lia.
    + apply Hr in H1. lia.
    + by eapply Hi.
Qed.

Lemma renumberLoop_spec events m i : numbers m i -> exists m' n,
  m ⊆ m' /\ numbers m' n /\ renumberLoop events m i = renamed m' <$> events /\
  (forall v, v ∈ events -> is_Some (m' !! ev_Id v)) /\
  (forall k, is_Some (m' !! k) -> is_Some (m !! k) \/ exists v, v ∈ events /\ ev_Id v = k).
Proof.
  revert m i. induction events as [|v events IH]; intros m i Hm; cbn.
  { exists m, i. split_and!; [done..|by intros v ?%not_elem_of_nil|by left]. }
  destruct (m !! ev_Id v) as [r|] eqn:Hv.
  - destruct (IH m i Hm) as (m' & n & Hs & Hn & -> & H1 & H2). exists m', n.
    pose proof (lookup_weaken _ _ _ _ Hv Hs) as Hv'. split_and!; [done|done| | |].
    + unfold renamed at 2. by rewrite Hv'.
    + intros w [->|Hw]%elem_of_cons; [by eexists|by apply H1].
    + intros k [?|(w & Hw & <-)]%H2; [by left|right; exists w; split; [by right|done]].
  - destruct (IH _ _ (numbers_insert _ _ _ Hm Hv)) as (m' & n & Hs & Hn & -> & H1 & H2). exists m', n.
    assert (m' !! ev_Id v = Some i) as Hv' by (eapply lookup_weaken; [apply lookup_insert_eq|exact Hs]).
    split_and!; [|done| | |].
    + etrans; [by apply (insert_subseteq m (ev_Id v) i)|done].
    + unfold renamed at 2. by rewrite Hv'.
    + intros w [->|Hw]%elem_of_cons; [by eexists|by apply H1].
    + intros k [[r [[<- _]|[_ Hk]]%lookup_insert_Some]|(w & Hw & <-)]%H2.
      * right. exists v. split; [by left|done].
      * left. by eexists.
      * right. exists w. split; [by right|done].
Qed.

Lemma convertEntries_renamed m events :
  convertEntries (renamed m <$> events) =
    rename (fun k => default 0 (m !! k)) <$> convertEntries events.
Proof.
  unfold convertEntries. apply list_eq. intros k. rewrite list_lookup_fmap, !list_lookup_imap, list_lookup_fmap.
  by destruct (events !! k).
Qed.

Lemma elem_of_convertEntries events en :
  en ∈ convertEntries events -> exists v, v ∈ events /\ ev_Id v = id en.
Proof.
  unfold convertEntries. intros (k & v & -> & Hv)%elem_of_lookup_imap. exists v.
  split; [by eapply list_elem_of_lookup_2|done].
Qed.

Lemma convertEntries_elem_of events v :
  v ∈ events -> exists en, en ∈ convertEntries events /\ id en = ev_Id v.
Proof.
  intros [k Hk]%list_elem_of_lookup.
  eexists. split; [apply elem_of_lookup_imap; exists k, v; split; [reflexivity|done]|done].
Qed.
End renumber.

(** ** [CheckEvents] *)
Section events.
Context {I O St : Type} `{EqDecision St} (model : Model I O St).
Context (Heq : equal_ok (fillDefault model)).
Notation Event := (Event I O).
Notation full := (fillDefault model).
Implicit Types events : list Event.

(** Every operation has one call and, later, one return. *)
Definition events_ok events : Prop :=
  forall v, v ∈ events -> exists vi vo A B C e m, splits (convertEntries events) (ev_Id v) vi vo A B C e m.

(** The operations can be put into an order that the model allows and in which no
    operation comes after one that was called when it had returned. *)
Definition events_linearizable events : Prop :=
  all_linearized (f_Step full) (f_Init full) (convertEntries events).

Lemma renumber_renames events : exists m n,
  numbers m n /\ renumber events = renamed m <$> events /\
  forall k, is_Some (m !! k) <-> exists v, v ∈ events /\ ev_Id v = k.
Proof.
  destruct (renumberLoop_spec events ∅ 0) as (m & n & _ & Hn & E & H1 & H2).
  { split; [lia|..]; [intros k r; by rewrite lookup_empty|lia|intros k k' r; by rewrite lookup_empty]. }
  exists m, n. split; [done|]. split; [exact E|]. intros k. split.
  - intros [[r Hr]|Hk]%H2; [by rewrite lookup_empty in Hr|done].
  - by intros (v & Hv & <-); apply H1.
Qed.

(** After [renumber] the history is one of operations 0, 1, ... *)
Lemma renumber_complete events : events_ok events ->
  complete (convertEntries (renumber events)) /\
  (linearizable_history full (convertEntries (renumber events)) <-> events_linearizable events).
Proof.
  intros Hok. destruct (renumber_renames events) as (m & n & Hn & -> & Hm).
  rewrite convertEntries_renamed. set (f k := default 0 (m !! k)). set (hist := convertEntries events).
  assert (forall v, v ∈ events -> m !! ev_Id v = Some (f (ev_Id v))) as Hf.
  { intros v Hv. unfold f. destruct (proj2 (Hm (ev_Id v))) as [r ->]; [by exists v|done]. }
  assert (apart f hist) as Ha.
  { intros a b (va & Hva & <-)%elem_of_convertEntries (vb & Hvb & <-)%elem_of_convertEntries E.
    pose proof (Hf _ Hva) as Ea. rewrite E in Ea. exact (nu_inj _ _ Hn _ _ _ Ea (Hf _ Hvb)). }
  assert (wf_history (rename f <$> hist) n) as W.
  { split; [apply Hn| |].
    - intros i Hi. destruct (nu_all _ _ Hn i Hi) as [k Hk].
      destruct (proj1 (Hm k)) as (v & Hv & Ek); [by eexists|].
      destruct (Hok v Hv) as (vi & vo & A & B & C & e & mm & Hs). apply (splits_rename f) in Hs; [|done].
      rewrite Ek in Hs. unfold f at 2 in Hs. rewrite Hk in Hs. cbn in Hs. by eauto 10.
    - intros en (en' & -> & (v & Hv & Ei)%elem_of_convertEntries)%list_elem_of_fmap. cbn.
      rewrite <- Ei. exact (nu_range _ _ Hn _ _ (Hf v Hv)). }
  assert (zlen (rename f <$> hist) / 2 = n) as En
    by (rewrite (wf_history_length _ _ W), Z.mul_comm; by apply Z.div_mul).
  split; [unfold complete; by rewrite En|]. unfold linearizable_history. rewrite En.
  unfold events_linearizable. rewrite <- (rename_linearizes _ _ f) by done.
  unfold linearizable, all_linearized.
  assert (forall i, 0 <= i < n <-> known (rename f <$> hist) i) as Hk.
  { intros i. split; [|intros (en & Hen & <-); by apply (wh_id _ _ W)].
    intros Hi. destruct (wh_op _ _ W i Hi) as (? & ? & A & B & C & e & mm & Es & (_ & Hid & _) & _).
    exists e. split; [rewrite Es; set_solver|done]. }
  by setoid_rewrite Hk.
Qed.

(** C28: [CheckEvents] decides linearizability.  For a model without a partition of events
    and a history in which every operation has one call and one later return, whatever
    its identifiers are, it terminates, and answers whether the operations can be put
    into a legal order that respects real time. *)
Theorem check_events_decides events :
  PartitionEvent model = None -> events_ok events ->
  exists N b, (forall fuel, (N <= fuel)%nat -> CheckEvents fuel model events [0%nat] = Some b) /\
    (b = true <-> events_linearizable events).
Proof using Heq.
  intros Hp Hok. destruct (renumber_complete events Hok) as [Hc Hl].
  set (h := convertEntries (renumber events)) in *.
  destruct (parallel_decides full Heq [h] false [0%nat] (fun _ => None)) as [N HN];
    [by apply Forall_singleton|done|done|].
  destruct (HN N (le_n N)) as (res & info & _ & Hv). exists N, (bool_decide (res = Ok)). split.
  - intros fuel Hf. destruct (HN fuel Hf) as (res' & info' & E & Hv').
    unfold CheckEvents, checkEvents. cbn [fillDefault f_PartitionEvent]. rewrite Hp. cbn [default NoPartitionEvent].
    change ((fun sub => convertEntries (renumber sub)) <$> NoPartitionEvent events) with [h].
    rewrite E. cbn. by rewrite (verdict_unique _ _ _ _ Hv Hv').
  - rewrite bool_decide_eq_true, <- Hl. split.
    + intros ->. apply Hv. by left.
    + intros Hh. destruct res; cbn in Hv; [done|done|]. exfalso.
      by destruct Hv as (h' & ->%list_elem_of_singleton & Hn).
Qed.
End events.

(** A counter, and two increments that overlap. *)
Module Counter.
Definition model : Model unit Z Z :=
  {| Partition := None; PartitionEvent := None; Init := 0;
     Step := fun s _ o => (o =? s, s + 1); Equal := None |}.

Definition call (i : Z) : Event unit Z := {| ev_ClientId := i; ev_Kind := false; ev_Value := inl tt; ev_Id := i |}.
Definition ret (i v : Z) : Event unit Z := {| ev_ClientId := i; ev_Kind := true; ev_Value := inr v; ev_Id := i |}.
Definition good : list (Event unit Z) := [call 7; call 3; ret 3 0; ret 7 1].
Definition bad : list (Event unit Z) := [call 7; ret 7 1; call 3; ret 3 0].

Lemma equal_ok : PorcProps.equal_ok (fillDefault model).
Proof.
  intros s s' vi vo t E%bool_decide_eq_true. subst. intros H. exists t. split; [exact H|].
  by apply bool_decide_eq_true.
Qed.

Lemma good_ok : events_ok good.
Proof.
  assert (forall v, v ∈ good -> ev_Id v = 7 \/ ev_Id v = 3) as Hid
    by (unfold good; intros v; rewrite !elem_of_cons; intros [->|[->|[->|[->|?%not_elem_of_nil]]]]; by auto).
  intros v [-> | ->]%Hid.
  - eexists tt, 1, [], [_; _], [], _, _. split; [reflexivity|]. split; [by repeat split|]. split; [by repeat split|].
    intros en. cbn. rewrite !elem_of_cons. intros [->|[->|?%not_elem_of_nil]]; done.
  - eexists tt, 0, [_], [], [_], _, _. split; [reflexivity|]. split; [by repeat split|]. split; [by repeat split|].
    intros en. cbn. rewrite !elem_of_cons. intros [->|[->|?%not_elem_of_nil]]; done.
Qed.

Example good_yes : CheckEvents 20 model good [0%nat] = Some true.
Proof. vm_compute. reflexivity. Qed.
Example bad_no : CheckEvents 20 model bad [0%nat] = Some false.
Proof. vm_compute. reflexivity. Qed.
End Counter.

Lemma check_events_decides_witness : exists N b,
  (forall fuel, (N <= fuel)%nat -> CheckEvents fuel Counter.model Counter.good [0%nat] = Some b) /\
  (b = true <-> events_linearizable Counter.model Counter.good).
Proof.
  apply (check_events_decides Counter.model Counter.equal_ok Counter.good); [reflexivity|exact Counter.good_ok].
Defined.
