(* ===== verification/PorcOps.v ===== *)
(** * Histories of operations

    [linearization step init ops lin]: the textbook definition on operations: [lin] is
    an order of [ops] that keeps the order of operations that do not overlap and whose
    sequential execution gives every output.  [makeEntries] turns operations into a
    complete history of entries in which one operation precedes another exactly when
    it returned before the other was called; so the linearizability of the entries is
    that of the operations. *)
From S2P Require Import Prelude Bitset Porcupine PorcLin PorcHeap PorcSearch PorcProps.
Import Porcupine.

Section ops.
Context {I O : Type}.
Notation entry := (entry I O).
Notation Operation := (Operation I O).

(** Real time only moves forward. *)
Definition timely (ops : list Operation) : Prop := Forall (fun o => Call o <= Return o) ops.

Definition callEntryOf (i : Z) (o : Operation) : entry :=
  {| kind := false; value := inl (Input o); id := i; time := Call o; clientId := ClientId o |}.
Definition returnEntryOf (i : Z) (o : Operation) : entry :=
  {| kind := true; value := inr (Output o); id := i; time := Return o; clientId := ClientId o |}.

Lemma appendEntries_app i (l1 l2 : list Operation) :
  appendEntries i (l1 ++ l2) = appendEntries i l1 ++ appendEntries (i + zlen l1) l2.
Proof.
  revert i. induction l1 as [|x l1 IH]; intros i; cbn; [by rewrite zlen_nil, Z.add_0_r|].
  rewrite IH, zlen_cons. do 4 f_equal. lia.
Qed.

Lemma appendEntries_id i (ops : list Operation) en : en ∈ appendEntries i ops -> i <= id en < i + zlen ops.
Proof.
  revert i. induction ops as [|x ops IH]; intros i; cbn; [by intros ?%not_elem_of_nil|].
  rewrite zlen_cons. pose proof (zlen_nonneg ops).
  rewrite !elem_of_cons. intros [->|[->|?%IH]]; cbn; lia.
Qed.

(** The entries of one operation among all of them. *)
Lemma appendEntries_op (ops : list Operation) j o :
  zget ops j = Some o -> exists P Q,
    appendEntries 0 ops = P ++ callEntryOf j o :: returnEntryOf j o :: Q /\
    forall en, en ∈ P ++ Q -> id en <> j.
Proof.
  intros [Hj Ho]%zget_Some_lookup. pose proof (lookup_lt_Some _ _ _ Ho) as Hlt.
  pose proof (f_equal (appendEntries 0) (take_drop_middle _ _ _ Ho)) as Eo.
  rewrite appendEntries_app in Eo. rewrite <- Eo.
  assert (zlen (take (Z.to_nat j) ops) = j) as E by (rewrite zlen_take; unfold zlen; lia).
  rewrite E. cbn. eexists _, _. split; [done|]. intros en.
  rewrite elem_of_app. intros [Hen|Hen]; apply appendEntries_id in Hen; [rewrite E in Hen|]; lia.
Qed.

Context `{!EntrySort I O} `{!EntrySortLaws I O}.

(** Where the entries of one operation are after sorting. *)
Lemma makeEntries_op ops j o :
  timely ops -> zget ops j = Some o -> exists A B C,
    splits (makeEntries ops) j (Input o) (Output o) A B C (callEntryOf j o) (returnEntryOf j o).
Proof.
  intros Ht Hj. destruct (appendEntries_op ops j o Hj) as (P & Q & E & Hn).
  set (e := callEntryOf j o) in *. set (m := returnEntryOf j o) in *.
  pose proof (sortEntries_perm (appendEntries 0 ops)) as Hp.
  pose proof (sortEntries_sorted (appendEntries 0 ops)) as Hs. fold (makeEntries ops) in Hp, Hs.
  rewrite E in Hp.
  assert (e ∈ makeEntries ops) as He by (rewrite Hp; set_solver).
  apply list_elem_of_split in He as (A & R & EA).
  assert (A ++ R ≡ₚ m :: P ++ Q) as Hp'.
  { apply (Permutation_cons_inv (a := e)). rewrite (Permutation_middle A R e), <- EA, Hp. solve_Permutation. }
  assert (m ∈ A ++ R) as Hm by (rewrite Hp'; constructor).
  assert (Call o <= Return o) as Hor.
  { apply zget_Some_lookup in Hj as [_ Hj]. unfold timely in Ht. rewrite Forall_lookup in Ht. by eapply Ht. }
  apply elem_of_app in Hm as [Hm|Hm].
  { exfalso. rewrite EA in Hs. pose proof (StronglySorted_app_1_elem_of _ _ _ m e Hs Hm ltac:(constructor)) as Hs'.
    clear Hs. rename Hs' into Hs. unfold entry_le, Less in Hs. cbn in Hs.
    destruct (Z.eqb_spec (Call o) (Return o)); cbn in Hs; [done|]. apply Z.ltb_ge in Hs. lia. }
  apply list_elem_of_split in Hm as (B & C & ER). rewrite ER in EA, Hp'.
  exists A, B, C. split_and!; [done|by split_and!|by split_and!|].
  intros en Hen. apply Hn.
  assert (A ++ B ++ C ≡ₚ P ++ Q) as Hp2.
  { apply (Permutation_cons_inv (a := m)). rewrite <- Hp'. solve_Permutation. }
  by rewrite <- Hp2.
Qed.

Lemma makeEntries_length ops : zlen (makeEntries ops) = 2 * zlen ops.
Proof.
  unfold makeEntries, zlen. rewrite (sortEntries_perm _). generalize 0.
  induction ops as [|x ops IH]; intros i; cbn; [done|]. specialize (IH (i + 1)). lia.
Qed.

Lemma makeEntries_wf ops : timely ops -> wf_history (makeEntries ops) (zlen ops).
Proof.
  intros Ht. split; [apply zlen_nonneg| |].
  - intros i [o Ho]%zget_in_range. destruct (makeEntries_op ops i o Ht Ho) as (A & B & C & Hs).
    by eexists _, _, A, B, C, _, _.
  - intros en. unfold makeEntries. rewrite (sortEntries_perm _). apply appendEntries_id.
Qed.

Lemma makeEntries_complete ops : timely ops -> complete (makeEntries ops).
Proof.
  intros Ht. unfold complete. rewrite makeEntries_length, Z.mul_comm, Z.div_mul by lia.
  by apply makeEntries_wf.
Qed.

(** The entries of an operation are the two of [appendEntries]. *)
Lemma makeEntries_entry ops en :
  timely ops -> en ∈ makeEntries ops -> exists o, zget ops (id en) = Some o /\
    en = if kind en then returnEntryOf (id en) o else callEntryOf (id en) o.
Proof.
  intros Ht Hin. pose proof (wh_id _ _ (makeEntries_wf ops Ht) en Hin) as Hid.
  destruct (zget_in_range ops (id en) Hid) as [o Ho]. exists o. split; [done|].
  destruct (makeEntries_op ops (id en) o Ht Ho) as (A & B & C & Hs). by eapply splits_unique.
Qed.

(** One operation precedes another when it returned before the other was called. *)
Lemma makeEntries_precedes ops i j oi oj :
  timely ops -> zget ops i = Some oi -> zget ops j = Some oj ->
  precedes (makeEntries ops) i j <-> Return oi < Call oj.
Proof.
  intros Ht Hi Hj. pose proof (sortEntries_sorted (appendEntries 0 ops)) as Hs.
  fold (makeEntries ops) in Hs. split.
  - intros (l1 & l2 & r & c & E & Hr & Hkr & Hir & Hc & Hkc & Hic).
    destruct (makeEntries_entry ops r Ht) as (o1 & Ho1 & E1); [rewrite E; set_solver|].
    destruct (makeEntries_entry ops c Ht) as (o2 & Ho2 & E2); [rewrite E; set_solver|].
    rewrite Hir, Hi in Ho1. injection Ho1 as <-. rewrite Hic, Hj in Ho2. injection Ho2 as <-.
    rewrite Hkr in E1. rewrite Hkc in E2. rewrite E in Hs.
    pose proof (StronglySorted_app_1_elem_of _ _ _ r c Hs Hr Hc) as Hle. rewrite E1, E2 in Hle.
    unfold entry_le, Less in Hle. cbn in Hle.
    destruct (Z.eqb_spec (Call oj) (Return oi)); cbn in Hle; [done|]. apply Z.ltb_ge in Hle. lia.
  - intros Hlt. destruct (makeEntries_op ops j oj Ht Hj) as (A & B & C & Ej & _).
    set (e := callEntryOf j oj) in *. set (m := returnEntryOf j oj) in *.
    assert (returnEntryOf i oi ∈ makeEntries ops) as Hr.
    { destruct (makeEntries_op ops i oi Ht Hi) as (? & ? & ? & -> & _). set_solver. }
    exists A, (e :: B ++ m :: C), (returnEntryOf i oi), e. split_and!; try done; [|constructor].
    rewrite Ej in Hr. apply elem_of_app in Hr as [|Hr]; [done|]. exfalso.
    rewrite Ej in Hs. apply StronglySorted_app_1_r in Hs. apply elem_of_cons in Hr as [?|Hr]; [done|].
    pose proof (StronglySorted_app_1_elem_of _ [e] _ e (returnEntryOf i oi) Hs ltac:(constructor) Hr) as Hle.
    unfold entry_le, Less in Hle. cbn in Hle.
    destruct (Z.eqb_spec (Return oi) (Call oj)); cbn in Hle; [lia|]. apply Z.ltb_ge in Hle. lia.
Qed.
End ops.

(** ** The textbook definition *)
Section spec.
Context {I O St : Type} (step : St -> I -> O -> bool * St) (init : St).
Notation Operation := (Operation I O).

(** [b] did not return before [a] was called. *)
Definition may_follow (a b : Operation) : Prop := ~ Return b < Call a.

(** The sequential execution of operations. *)
Fixpoint legal (s : St) (lin : list Operation) : Prop :=
  match lin with
  | [] => True
  | o :: lin => exists s', step s (Input o) (Output o) = (true, s') /\ legal s' lin
  end.

Record linearization (ops lin : list Operation) : Prop := {
  ln_perm : lin ≡ₚ ops;
  ln_order : StronglySorted may_follow lin;
  ln_legal : legal init lin;
}.
Definition ops_linearizable (ops : list Operation) : Prop := exists lin, linearization ops lin.
End spec.

(** ** The two definitions agree *)
Section agree.
Context {I O : Type}.
Context `{!EntrySort I O} `{!EntrySortLaws I O}.
Notation Operation := (Operation I O).

(** The operations with their ids. *)
Definition indexed (ops : list Operation) : list (Z * Operation) :=
  imap (fun k o => (Z.of_nat k, o)) ops.

Lemma elem_of_indexed ops i o : (i, o) ∈ indexed ops <-> zget ops i = Some o.
Proof.
  unfold indexed. rewrite elem_of_lookup_imap, zget_Some_lookup. split.
  - intros (k & y & [= -> ->] & Hk). rewrite Nat2Z.id. split; [lia|done].
  - intros [Hi Ho]. exists (Z.to_nat i), o. split; [by rewrite Z2Nat.id|done].
Qed.

Lemma indexed_snd ops : (indexed ops).*2 = ops.
Proof.
  apply list_eq. intros k. unfold indexed. rewrite fmap_imap, list_lookup_imap.
  by destruct (ops !! k).
Qed.

Lemma indexed_fst ops : NoDup (indexed ops).*1.
Proof.
  apply NoDup_alt. intros a b x Ha Hb. unfold indexed in *. rewrite fmap_imap in *.
  rewrite list_lookup_imap in *. destruct (ops !! a), (ops !! b); cbn in *; try done.
  injection Ha as <-. injection Hb as E. lia.
Qed.

Context (ops : list Operation) (Ht : timely ops).
Notation hist := (makeEntries ops).

Lemma isOp_op i vi vo :
  isOp hist i vi vo <-> exists o, zget ops i = Some o /\ Input o = vi /\ Output o = vo.
Proof using Ht EntrySortLaws0.
  split.
  - intros [(e & He & Hk & Hi & Hv) (m & Hm & Hkm & Him & Hvm)].
    destruct (makeEntries_entry ops e Ht He) as (o & Ho & Ee). rewrite Hk in Ee.
    destruct (makeEntries_entry ops m Ht Hm) as (o' & Ho' & Em). rewrite Hkm in Em.
    rewrite Hi in Ho. rewrite Him, Ho in Ho'. injection Ho' as <-. exists o. split; [done|].
    rewrite Ee in Hv. rewrite Em in Hvm. cbn in *. naive_solver.
  - intros (o & Ho & <- & <-). destruct (makeEntries_op ops i o Ht Ho) as (A & B & C & Hs).
    by eapply splits_isOp.
Qed.

Context {St : Type} (step : St -> I -> O -> bool * St) (init : St).

Lemma executes_legal s seq s' :
  executes step hist s seq s' ->
  exists P, P.*1 = seq /\ (forall x, x ∈ P -> x ∈ indexed ops) /\ legal step s P.*2.
Proof using Ht EntrySortLaws0.
  induction 1 as [s|s i vi vo s1 seq s2 Hop Hs _ (P & HP & Hin & Hl)].
  - exists []. split_and!; [done| |done]. by intros x Hx; inv Hx.
  - apply isOp_op in Hop as (o & Ho & <- & <-). exists ((i, o) :: P). split_and!.
    + cbn. by rewrite HP.
    + intros x [->|Hx]%elem_of_cons; [by apply elem_of_indexed|by apply Hin].
    + cbn. by exists s1.
Qed.

Lemma legal_executes s P :
  (forall x, x ∈ P -> x ∈ indexed ops) -> legal step s P.*2 -> exists s', executes step hist s P.*1 s'.
Proof using Ht EntrySortLaws0.
  revert s. induction P as [|[i o] P IH]; intros s Hin Hl; cbn in *; [eexists; constructor|].
  destruct Hl as (s1 & Hs & Hl). destruct (IH s1) as [s' Hx]; [set_solver|done|]. exists s'.
  econstructor; [|exact Hs|done]. apply isOp_op. exists o. split; [|done].
  apply elem_of_indexed, Hin. constructor.
Qed.

Lemma linearizes_order seq s P :
  linearizes step init hist seq s -> P.*1 = seq -> (forall x, x ∈ P -> x ∈ indexed ops) ->
  StronglySorted may_follow P.*2.
Proof using Ht EntrySortLaws0.
  intros [_ HN Ho] <- Hin.
  assert (forall L D, P = D ++ L -> StronglySorted may_follow L.*2) as Hgen; [|by apply (Hgen P [])].
  induction L as [|[j oj] L IH]; intros D E; cbn; constructor.
  - apply (IH (D ++ [(j, oj)])). by rewrite <- app_assoc.
  - apply Forall_forall. intros oi ([i oi'] & -> & Hi)%list_elem_of_fmap Hlt. cbn in Hlt.
    assert (zget ops i = Some oi' /\ zget ops j = Some oj) as [Gi Gj].
    { split; apply elem_of_indexed, Hin; rewrite E; set_solver. }
    apply (makeEntries_precedes ops i j oi' oj Ht Gi Gj) in Hlt.
    rewrite E, fmap_app in Ho, HN. cbn in Ho, HN. specialize (Ho _ _ _ _ eq_refl Hlt).
    apply NoDup_app in HN as (_ & Hd & _). apply (Hd i Ho). apply elem_of_cons. right.
    by apply (list_elem_of_fmap_2 fst _ (i, oi')).
Qed.

Lemma order_linearizes P s :
  P ≡ₚ indexed ops -> StronglySorted may_follow P.*2 -> executes step hist init P.*1 s ->
  linearizes step init hist P.*1 s.
Proof using Ht EntrySortLaws0.
  intros HP Hso Hx. split; [done|rewrite HP; apply indexed_fst|].
  intros l1 j l2 i E Hp. apply fmap_app_inv in E as (P1 & R & -> & E & ->).
  destruct R as [|[j' oj] P2]; [done|]. cbn in E. injection E as -> ->.
  assert (zget ops j' = Some oj) as Gj by (apply elem_of_indexed; rewrite <- HP; set_solver).
  assert (exists oi, zget ops i = Some oi) as [oi Gi].
  { destruct Hp as (h1 & h2 & r & c & E & Hr & Hk & <- & _).
    destruct (makeEntries_entry ops r Ht) as (oi & Hoi & _); [rewrite E; set_solver|by exists oi]. }
  apply (makeEntries_precedes ops i j' oi oj Ht Gi Gj) in Hp.
  assert ((i, oi) ∈ P1 ++ (j', oj) :: P2) as Hin by (rewrite HP; by apply elem_of_indexed).
  apply elem_of_app in Hin as [Hin|[[= -> ->]|Hin]%elem_of_cons].
  - by apply (list_elem_of_fmap_2 fst _ (i, oi)).
  - exfalso. unfold timely in Ht. rewrite Forall_lookup in Ht. apply zget_Some_lookup in Gj as [_ Gj].
    specialize (Ht _ _ Gj). cbn in Ht. lia.
  - exfalso. rewrite fmap_app in Hso. apply StronglySorted_app_1_r in Hso. cbn in Hso.
    apply (StronglySorted_app_1_elem_of _ [oj] _ oj oi Hso ltac:(constructor)); [|done].
    by apply (list_elem_of_fmap_2 snd _ (i, oi)).
Qed.

Lemma linearizable_ops :
  linearizable step init hist (zlen ops) <-> ops_linearizable step init ops.
Proof using Ht EntrySortLaws0.
  split.
  - intros (seq & s & Hl & Hall). destruct (executes_legal _ _ _ (lz_run _ _ _ _ _ Hl)) as (P & HP & Hin & Hle).
    assert (P ≡ₚ indexed ops) as HPP.
    { apply NoDup_Permutation.
      - apply (NoDup_fmap_1 fst). rewrite HP. by destruct Hl.
      - apply (NoDup_fmap_1 fst), indexed_fst.
      - intros [i o]. split; [by apply Hin|]. intros Ho. pose proof Ho as Ho'.
        apply elem_of_indexed in Ho. pose proof (zget_Some_lt _ _ _ Ho) as Hr.
        apply Hall in Hr. rewrite <- HP in Hr. apply list_elem_of_fmap in Hr as ([i' o'] & -> & Hx).
        cbn in *. pose proof (Hin _ Hx) as Hx'. apply elem_of_indexed in Hx'. by simplify_eq. }
    exists P.*2. split; [|by eapply linearizes_order|done].
    rewrite HPP. by rewrite indexed_snd.
  - intros (lin & [Hp Ho Hle]). rewrite <- (indexed_snd ops) in Hp.
    apply Permutation_map_inv in Hp as (P & -> & HP). symmetry in HP.
    destruct (legal_executes init P) as [s Hx]; [intros x; by rewrite HP|done|].
    exists P.*1, s. split; [by apply order_linearizes|]. intros i [o Hio]%zget_in_range.
    apply (list_elem_of_fmap_2 fst _ (i, o)). rewrite HP. by apply elem_of_indexed.
Qed.
End agree.

(** ** A sort *)
#[export] Instance entry_le_trans {I O} : Transitive (@entry_le I O).
Proof.
  intros a b c. unfold entry_le, Less. breflect. intros H1 H2.
  destruct (Z.eqb_spec (time b) (time a)), (Z.eqb_spec (time c) (time b)), (Z.eqb_spec (time c) (time a));
    cbn in *; rewrite ?Z.ltb_ge, ?Z.ltb_lt in *; try lia.
  destruct (kind a), (kind b), (kind c); done.
Qed.

#[export] Instance entry_le_total {I O} : Total (@entry_le I O).
Proof.
  intros a b. unfold entry_le, Less.
  destruct (Z.eqb_spec (time b) (time a)), (Z.eqb_spec (time a) (time b)); cbn; rewrite ?Z.ltb_ge; try lia.
  destruct (kind a), (kind b); auto.
Qed.

#[export] Instance stableSort_laws {I O} : @EntrySortLaws I O stableSort.
Proof.
  split; intros l; unfold sortEntries, stableSort.
  - apply merge_sort_Permutation.
  - apply (StronglySorted_merge_sort _).
Qed.

(** ** [CheckOperations] *)
Section check.
Context {I O St : Type} `{EqDecision St} `{!EntrySort I O} `{!EntrySortLaws I O}.
Context (model : Model I O St).
Context (Heq : equal_ok (fillDefault model)).
Notation full := (fillDefault model).
Notation lin_ops := (ops_linearizable (f_Step full) (f_Init full)).

Lemma history_ops ops :
  timely ops -> linearizable_history full (makeEntries ops) <-> lin_ops ops.
Proof using EntrySortLaws0.
  intros Ht. unfold linearizable_history.
  rewrite makeEntries_length, Z.mul_comm, Z.div_mul by lia. by apply linearizable_ops.
Qed.

Lemma makeEntries_parts parts : Forall timely parts -> Forall complete (makeEntries <$> parts).
Proof using EntrySortLaws0.
  intros HT. apply Forall_fmap. eapply Forall_impl; [exact HT|]. cbn. apply makeEntries_complete.
Qed.

(** The answer about the partitions of a history of operations. *)
Lemma check_operations_parts ops order :
  Forall timely (f_Partition full ops) -> f_Partition full ops <> [] ->
  order ≡ₚ seq 0 (length (f_Partition full ops)) ->
  exists N b, (forall fuel, (N <= fuel)%nat -> CheckOperations fuel model ops order = Some b) /\
    (b = true <-> forall part, part ∈ f_Partition full ops -> lin_ops part).
Proof using Heq EntrySortLaws0.
  intros HT Hne Hord. set (parts := f_Partition full ops) in *.
  destruct (parallel_decides full Heq (makeEntries <$> parts) false order (fun _ => None))
    as [N HN]; [by apply makeEntries_parts|by destruct parts|by rewrite length_fmap|].
  assert (forall part, part ∈ parts -> timely part) as HT' by (by apply Forall_forall).
  destruct (HN N (le_n N)) as (res & info & _ & Hv). exists N, (bool_decide (res = Ok)). split.
  - intros fuel Hf. destruct (HN fuel Hf) as (res' & info' & Hc & Hv').
    unfold CheckOperations, checkOperations. fold parts. rewrite Hc. cbn.
    by rewrite (verdict_unique _ _ _ _ Hv Hv').
  - rewrite bool_decide_eq_true. split.
    + intros -> part Hp. apply history_ops; [by apply HT'|].
      apply Hv. by apply list_elem_of_fmap_2.
    + intros Hall. destruct res; cbn in Hv; [done|done|]. exfalso.
      destruct Hv as (h & (part & -> & Hp)%list_elem_of_fmap & Hn). apply Hn.
      apply history_ops; [by apply HT'|]. by apply Hall.
Qed.
(** With a timeout, on a history whose partitions are linearizable. *)
Lemma check_verbose_passes ops order kills :
  Forall timely (f_Partition full ops) -> arrivals (makeEntries <$> f_Partition full ops) order ->
  (forall part, part ∈ f_Partition full ops -> lin_ops part) ->
  exists N res info, (forall fuel, (N <= fuel)%nat ->
    CheckOperationsVerbose fuel model ops order kills = Some (res, info)) /\
    res <> Illegal /\ (None ∉ order -> res = Ok).
Proof using Heq EntrySortLaws0.
  intros HT Ho Hall. pose proof (makeEntries_parts _ HT) as HW.
  destruct (parallel_total full Heq _ true order kills HW Ho) as (N & res & info & HN).
  exists N, res, info. split; [exact HN|].
  pose proof (parallel_verdict full Heq _ _ _ _ _ _ _ HW (HN N (le_n N))) as Hv.
  destruct res; [by split|by split|]. exfalso.
  destruct Hv as (h & (part & -> & Hp)%list_elem_of_fmap & Hn). apply Hn.
  rewrite Forall_forall in HT. apply history_ops; [by apply HT|]. by apply Hall.
Qed.
End check.
