(* ===== verification/KvModelProps.v ===== *)
(** * Checking a key/value store

    [mapStep] is the sequential specification of the whole store.  [KvModel] checks
    the operations of every key on their own; the lemmas show that this is enough
    (locality): a history is linearizable as a store exactly when the operations of
    each key are. *)
From Stdlib Require Import Sorting.Permutation.
From S2P Require Import Prelude Bitset Porcupine KvModel PorcLin PorcHeap PorcSearch PorcProps PorcOps.
Import Porcupine.
Import KvModel.

Abbreviation Store := (gmap string string).
Definition mapStep (s : Store) (inp : KvInput) (out : KvOutput) : bool * Store :=
  let '(ok, v) := Step (default Init (s !! Key inp)) inp out in (ok, <[Key inp := v]> s).

Definition keyOf (o : KvOperation) : string := Key (Input o).
Definition ofKey (k : string) (ops : list KvOperation) : list KvOperation :=
  filter (fun o => keyOf o = k) ops.

(** ** [Partition] *)

Lemma byKey_spec ops k :
  byKey ops !! k = match ofKey k ops with [] => None | l => Some l end.
Proof.
  unfold byKey. induction ops as [|o ops IH] using rev_ind; [done|].
  rewrite foldl_app. cbn. set (m := foldl _ _ ops) in *.
  unfold ofKey in *. rewrite filter_app. rewrite lookup_insert. case_decide as E.
  - subst k. rewrite filter_cons_True by done. rewrite filter_nil. unfold keyOf in *. rewrite IH.
    by destruct (filter _ ops).
  - rewrite (filter_cons_False _ _ []) by done. by rewrite filter_nil, app_nil_r.
Qed.

Lemma byKey_default ops k : default [] (byKey ops !! k) = ofKey k ops.
Proof. rewrite byKey_spec. by destruct (ofKey k ops). Qed.

Lemma elem_of_Partition ops part :
  part ∈ Partition ops <-> exists o, o ∈ ops /\ part = ofKey (keyOf o) ops.
Proof.
  unfold Partition. rewrite list_elem_of_fmap. setoid_rewrite byKey_default. split.
  - intros (k & -> & Hk). rewrite merge_sort_Permutation in Hk.
    apply list_elem_of_fmap in Hk as ([k' l] & -> & Hl). apply elem_of_map_to_list in Hl.
    rewrite byKey_spec in Hl. destruct (ofKey k' ops) as [|o l'] eqn:E; [done|].
    assert (o ∈ ofKey k' ops) as Ho by (rewrite E; constructor).
    apply list_elem_of_filter in Ho as [<- Ho]. exists o. split; [done|]. cbn. by rewrite E.
  - intros (o & Ho & ->). exists (keyOf o). split; [done|]. rewrite merge_sort_Permutation.
    assert (is_Some (byKey ops !! keyOf o)) as [l Hl].
    { rewrite byKey_spec. destruct (ofKey (keyOf o) ops) eqn:E; [|done]. exfalso.
      assert (o ∈ ofKey (keyOf o) ops) as Hin by (by apply list_elem_of_filter). rewrite E in Hin. inv Hin. }
    apply (list_elem_of_fmap_2 fst _ (keyOf o, l)). by apply elem_of_map_to_list.
Qed.

Lemma Partition_nonempty ops : ops <> [] -> Partition ops <> [].
Proof.
  destruct ops as [|o ops]; [done|]. intros _ E.
  assert (ofKey (keyOf o) (o :: ops) ∈ Partition (o :: ops)) as Hin.
  { apply elem_of_Partition. exists o. split; [constructor|done]. }
  rewrite E in Hin. inv Hin.
Qed.

(** ** Locality *)

(** A linearization of the store restricts to every key. *)
Lemma legal_ofKey s lin k :
  legal mapStep s lin -> legal Step (default Init (s !! k)) (ofKey k lin).
Proof.
  revert s. induction lin as [|o lin IH]; intros s; [done|]. intros (s' & Hs & Hl%IH).
  unfold mapStep in Hs. destruct (Step (default Init (s !! Key (Input o))) (Input o) (Output o)) as [ok v] eqn:E.
  injection Hs as -> <-. unfold ofKey. destruct (decide (keyOf o = k)) as [Ek|Ek].
  - rewrite filter_cons_True by done. unfold keyOf in Ek. rewrite Ek in *. exists v. split; [done|].
    by rewrite lookup_insert_eq in Hl.
  - rewrite filter_cons_False by done. by rewrite lookup_insert_ne in Hl.
Qed.

Lemma sorted_ofKey lin k : StronglySorted may_follow lin -> StronglySorted may_follow (ofKey k lin).
Proof.
  induction 1 as [|o lin Hs IH Hf]; [constructor|]. unfold ofKey. destruct (decide (keyOf o = k)).
  - rewrite filter_cons_True by done. constructor; [done|]. rewrite Forall_forall in *.
    intros x [_ Hx]%list_elem_of_filter. by apply Hf.
  - by rewrite filter_cons_False.
Qed.

(** The operation that returned first. *)
Lemma first_return (R : list KvOperation) :
  R <> [] -> exists x, x ∈ R /\ forall z, z ∈ R -> Return x <= Return z.
Proof.
  induction R as [|a R IH]; [done|]. intros _. destruct R as [|b R].
  - exists a. split; [constructor|]. intros z Hz%list_elem_of_singleton. by subst.
  - destruct IH as (x & Hx & Hmin); [done|]. destruct (decide (Return a <= Return x)).
    + exists a. split; [constructor|]. intros z [->|Hz%Hmin]%elem_of_cons; lia.
    + exists x. split; [by constructor|]. intros z [->|Hz%Hmin]%elem_of_cons; lia.
Qed.

(** Linearizations of the keys merge into one of the store. *)
Lemma merge_keys R (f : string -> list KvOperation) (s : Store) :
  timely R -> (forall k, f k ≡ₚ ofKey k R) -> (forall k, StronglySorted may_follow (f k)) ->
  (forall k, legal Step (default Init (s !! k)) (f k)) ->
  exists lin, lin ≡ₚ R /\ StronglySorted may_follow lin /\ legal mapStep s lin.
Proof.
  remember (length R) as n eqn:En. revert R f s En.
  induction n as [|n IH]; intros R f s En Ht Hf Hso Hle.
  { destruct R; [|done]. exists []. split_and!; [done|constructor|done]. }
  destruct (first_return R) as (x & Hx & Hmin); [by destruct R|].
  assert (x ∈ f (keyOf x)) as Hxf by (rewrite Hf; by apply list_elem_of_filter).
  destruct (f (keyOf x)) as [|y rest] eqn:Ef; [by inv Hxf|].
  assert (y ∈ R /\ keyOf y = keyOf x) as [Hy Hk].
  { assert (y ∈ f (keyOf x)) as Hy by (rewrite Ef; constructor). rewrite Hf in Hy.
    apply list_elem_of_filter in Hy. naive_solver. }
  pose proof (Hso (keyOf x)) as Hsox. rewrite Ef in Hsox. apply StronglySorted_inv in Hsox as [Hsr Hfr].
  assert (forall z, z ∈ R -> may_follow y z) as Hfirst.
  { intros z Hz Hlt. specialize (Hmin z Hz). apply elem_of_cons in Hxf as [<-|Hxr].
    - unfold timely in Ht. rewrite Forall_forall in Ht. specialize (Ht x Hx). lia.
    - rewrite Forall_forall in Hfr. apply (Hfr x Hxr). lia. }
  apply elem_of_Permutation in Hy as [R' HR].
  pose proof (Hle (keyOf x)) as Hlx. rewrite Ef in Hlx. destruct Hlx as (v & Hv & Hlr).
  destruct (IH R' (fun k => if decide (k = keyOf x) then rest else f k) (<[keyOf x := v]> s))
    as (lin & Hp & Hs & Hl).
  - rewrite HR in En. cbn in En. lia.
  - unfold timely in *. rewrite HR in Ht. by apply Forall_cons in Ht as [_ ?].
  - intros k. pose proof (Hf k) as Hfk. unfold ofKey in *. rewrite HR in Hfk. case_decide as Ek.
    + subst k. rewrite Ef, filter_cons_True in Hfk by done. by apply Permutation_cons_inv in Hfk.
    + rewrite filter_cons_False in Hfk by congruence. done.
  - intros k. by case_decide.
  - intros k. rewrite lookup_insert. case_decide as E1; case_decide; try congruence; [done|apply Hle].
  - exists (y :: lin). split_and!.
    + by rewrite Hp, HR.
    + constructor; [done|]. apply Forall_forall. intros z Hz. apply Hfirst. rewrite HR, <- Hp. by constructor.
    + cbn. exists (<[keyOf x := v]> s). split; [|done]. unfold mapStep. fold (keyOf y). rewrite Hk, Hv. done.
Qed.

Lemma finite_choice {A B} `{EqDecision A} (l : list A) (b0 : B) (P : A -> B -> Prop) :
  (forall x, x ∈ l -> exists y, P x y) -> exists f, forall x, x ∈ l -> P x (f x).
Proof.
  induction l as [|a l IH]; intros H; [exists (fun _ => b0); intros x Hx; inv Hx|].
  destruct IH as [f Hf]; [intros x Hx; apply H; by constructor|].
  destruct (H a) as [y Hy]; [constructor|]. exists (fun x => if decide (x = a) then y else f x).
  intros x [->|Hx]%elem_of_cons; case_decide; naive_solver.
Qed.

(** Locality. *)
Lemma store_local ops : timely ops ->
  ops_linearizable mapStep ∅ ops <->
  forall part, part ∈ Partition ops -> ops_linearizable Step Init part.
Proof.
  intros Ht. split.
  - intros (lin & [Hp Hs Hl]) part (o & _ & ->)%elem_of_Partition. exists (ofKey (keyOf o) lin). split.
    + unfold ofKey. by rewrite Hp.
    + by apply sorted_ofKey.
    + apply (legal_ofKey ∅ lin (keyOf o)) in Hl. by rewrite lookup_empty in Hl.
  - intros Hall.
    assert (forall k, ops_linearizable Step Init (ofKey k ops)) as Hk.
    { intros k. destruct (ofKey k ops) as [|o l] eqn:E.
      - exists []. split; [done|constructor|done].
      - rewrite <- E. assert (o ∈ ofKey k ops) as Ho by (rewrite E; constructor).
        apply list_elem_of_filter in Ho as [<- Ho]. apply Hall, elem_of_Partition. by exists o. }
    destruct (finite_choice (keyOf <$> ops) [] _ (fun k _ => Hk k)) as [f Hf].
    set (g k := if decide (k ∈ keyOf <$> ops) then f k else []).
    assert (forall k, linearization Step Init (ofKey k ops) (g k)) as Hg.
    { intros k. unfold g. case_decide as Ek; [by apply Hf|].
      assert (ofKey k ops = []) as ->; [|by split; [|constructor|]].
      apply elem_of_nil_inv. intros o [<- Ho]%list_elem_of_filter. by apply Ek, list_elem_of_fmap_2. }
    destruct (merge_keys ops g ∅ Ht) as (lin & Hp & Hs & Hl); [intros k; apply (Hg k)..| |by exists lin].
    intros k. rewrite lookup_empty. apply (Hg k).
Qed.

Lemma kv_equal_ok : equal_ok (fillDefault KvModel).
Proof.
  intros s s' vi vo t E Hs. apply bool_decide_eq_true in E. subst s'. exists t. split; [done|].
  by apply bool_decide_eq_true.
Qed.

Lemma Partition_timely ops : timely ops -> Forall timely (Partition ops).
Proof.
  unfold timely. intros Ht. apply Forall_forall. intros part (o & _ & ->)%elem_of_Partition.
  apply Forall_forall. intros x [_ Hx]%list_elem_of_filter. rewrite Forall_forall in Ht. by apply Ht.
Qed.

(** C8: [CheckOperations] on the model of the key/value tests terminates on every
    nonempty history of completed operations and answers true exactly when the history
    is linearizable as one key/value store, whatever the order in which the goroutines
    of the partitions finish. *)
Theorem check_kv_decides `{!EntrySort KvInput KvOutput} `{!EntrySortLaws KvInput KvOutput} history order :
  timely history -> history <> [] -> order ≡ₚ seq 0 (length (Partition history)) ->
  exists N b, (forall fuel, (N <= fuel)%nat -> CheckOperations fuel KvModel history order = Some b) /\
    (b = true <-> ops_linearizable mapStep ∅ history).
Proof.
  intros Ht Hne Hord.
  destruct (check_operations_parts KvModel kv_equal_ok history order) as (N & b & HN & Hb).
  - by apply Partition_timely.
  - by apply Partition_nonempty.
  - done.
  - exists N, b. split; [done|]. by rewrite Hb, store_local.
Qed.

(** ** A concrete history: two operations on one key that overlap, one on another *)
Definition example_history : list KvOperation :=
  [ {| ClientId := 0; Input := {| Op := 1; Key := "x"; Value := "1" |}; Call := 0;
       Output := {| out_Value := "" |}; Return := 10 |};
    {| ClientId := 1; Input := {| Op := 0; Key := "x"; Value := "" |}; Call := 5;
       Output := {| out_Value := "1" |}; Return := 7 |};
    {| ClientId := 2; Input := {| Op := 2; Key := "y"; Value := "2" |}; Call := 1;
       Output := {| out_Value := "" |}; Return := 2 |} ].

Example example_checked :
  @CheckOperations _ _ _ _ stableSort 100 KvModel example_history [1; 0]%nat = Some true.
Proof. vm_compute. reflexivity. Qed.

(** The same with a read of a value nobody wrote. *)
Example example_rejected :
  @CheckOperations _ _ _ _ stableSort 100 KvModel
    (example_history ++
      [ {| ClientId := 3; Input := {| Op := 0; Key := "y"; Value := "" |}; Call := 3;
           Output := {| out_Value := "" |}; Return := 4 |} ]) [1; 0]%nat = Some false.
Proof. vm_compute. reflexivity. Qed.

Lemma check_kv_decides_witness :
  timely example_history /\ example_history <> [] /\
  [1; 0]%nat ≡ₚ seq 0 (length (Partition example_history)) /\
  exists N b, (forall fuel, (N <= fuel)%nat ->
    @CheckOperations _ _ _ _ stableSort fuel KvModel example_history [1; 0]%nat = Some b) /\
    (b = true <-> ops_linearizable mapStep ∅ example_history).
Proof.
  assert (timely example_history) as Ht by (repeat constructor; cbn; lia).
  assert (example_history <> []) as Hn by done.
  assert ([1; 0]%nat ≡ₚ seq 0 (length (Partition example_history))) as Hp
    by (vm_compute; apply perm_swap).
  split; [exact Ht|]. split; [exact Hn|]. split; [exact Hp|].
  exact (@check_kv_decides stableSort stableSort_laws _ _ Ht Hn Hp).
Defined.

Definition example_parts : list (list (entry KvInput KvOutput)) :=
  @makeEntries _ _ stableSort <$> Partition example_history.

Lemma example_complete : Forall complete example_parts.
Proof.
  apply (@makeEntries_parts _ _ stableSort stableSort_laws), Partition_timely.
  repeat constructor; cbn; lia.
Qed.

(** The second partition is done when the timeout fires, the first search is killed. *)
Lemma example_arrivals : arrivals example_parts [Some 1%nat; None].
Proof.
  exists [1%nat], [None]. split_and!; [done|apply NoDup_singleton| |by left].
  intros i ->%list_elem_of_singleton. vm_compute. constructor.
Qed.


Example example_timeout : exists info,
  checkParallel 100 (fillDefault KvModel) example_parts true [Some 1%nat; None] (fun _ => Some 3%nat) =
    Some (Unknown, info).
Proof. eexists. vm_compute. reflexivity. Qed.
