(* ===== verification/KVOrder.v ===== *)
(** * From a log to a linearization

    [Item]s are operations with a place in a log of commands: a write at its first
    occurrence, a read where it was answered.  Sorted by place they are a sequential
    execution of the key/value specification; if the places respect real time, a
    linearization. *)
From stdpp Require Import sorting.
From S2P Require Import Prelude RaftNode Service KVServer KVProps Porcupine PorcProps PorcOps KvModel KvModelProps.
Import KVServer.
#[local] Open Scope Z_scope.

Abbreviation KvOperation := KvModel.KvOperation.

(** ** Operations of clerks *)

(** The operations the clerks of kvraft/client.go submit. *)
Definition kvop_ok (op : Op) : Prop :=
  OpType op = "Get" /\ Value op = EmptyString \/ OpType op = "Put" \/ OpType op = "Append".

(** What the tests record of an operation (kvraft/test_test.go). *)
Definition kvInput (op : Op) : KvModel.KvInput :=
  {| KvModel.Op := if String.eqb (OpType op) "Get" then 0
                   else if String.eqb (OpType op) "Put" then 1 else 2;
     KvModel.Key := Key op; KvModel.Value := Value op |}.

Definition kvOperation (op : Op) (call : Z) (value : string) (ret : Z) : KvOperation :=
  {| Porcupine.ClientId := ClientId op; Porcupine.Input := kvInput op; Porcupine.Call := call;
     Porcupine.Output := {| KvModel.out_Value := value |}; Porcupine.Return := ret |}.

(** ** Sequential executions *)

Definition after (s : gmap string string) (lin : list KvOperation) : gmap string string :=
  foldl (fun s o => (mapStep s (Porcupine.Input o) (Porcupine.Output o)).2) s lin.

Lemma legal_app s l1 l2 :
  legal mapStep s l1 -> legal mapStep (after s l1) l2 -> legal mapStep s (l1 ++ l2).
Proof.
  revert s. induction l1 as [|o l1 IH]; intros s; cbn; [done|].
  intros (s' & Hs & Hl) H2. exists s'. split; [done|]. rewrite Hs in H2. by apply IH.
Qed.

(** The store of the specification keeps the empty string where the server keeps
    nothing. *)
Definition same_values (s m : gmap string string) : Prop :=
  forall k, default EmptyString (s !! k) = default EmptyString (m !! k).

Lemma step_write s m op v :
  kvop_ok op -> isWrite op = true -> same_values s m ->
  exists s', mapStep s (kvInput op) {| KvModel.out_Value := v |} = (true, s') /\
    same_values s' (applyOp op m).2.
Proof.
  intros Hok Hw Hs. unfold mapStep, KvModel.Step, kvInput, applyOp, isWrite, isGet in *. cbn.
  destruct Hok as [[E _]|[E|E]]; rewrite E in *; cbn in *; [done|..]; eexists;
    (split; [done|]); intros k; destruct (decide (Key op = k)) as [<-|];
    rewrite ?lookup_insert_eq, ?lookup_insert_ne by done; cbn; try done.
  by rewrite Hs.
Qed.

Lemma step_read s m op v :
  isGet op = true -> same_values s m -> v = default EmptyString (m !! Key op) ->
  exists s', mapStep s (kvInput op) {| KvModel.out_Value := v |} = (true, s') /\
    same_values s' m.
Proof.
  intros Hg Hs ->. unfold mapStep, KvModel.Step, kvInput, isGet in *. cbn. rewrite Hg. cbn.
  change KvModel.Init with EmptyString. rewrite (Hs (Key op)), String.eqb_refl.
  eexists. split; [done|]. intros k. destruct (decide (Key op = k)) as [<-|].
  - by rewrite lookup_insert_eq.
  - by rewrite lookup_insert_ne.
Qed.

(** ** Items *)

Record Item := { it_op : Op; it_rec : KvOperation; it_place : nat }.

Section items.
Context (G : list Op) (items : list Item).

(** A write is at its first occurrence, a read sees the map at its place. *)
Definition item_ok (x : Item) : Prop :=
  G !! it_place x = Some (it_op x) /\ kvop_ok (it_op x) /\
  exists call v ret, it_rec x = kvOperation (it_op x) call v ret /\
  if isWrite (it_op x) then seenIn (take (it_place x) G) (it_op x) = false
  else v = default EmptyString (kvStore (runLog (take (it_place x) G)) !! Key (it_op x)).

Hypothesis (Horder : clerk_order G).
Hypothesis (Hitems : forall x, x ∈ items -> item_ok x).
Hypothesis (Hunique : NoDup (it_op <$> items)).
Hypothesis (Hcover : forall q op, G !! q = Some op -> isWrite op = true ->
  seenIn (take q G) op = false -> exists x, x ∈ items /\ it_op x = op /\ it_place x = q).

(** The items at one place, and the items up to a place. *)
Definition block (q : nat) : list Item := filter (fun x => it_place x = q) items.
Definition blocks (p : nat) : list Item := concat (block <$> seq 0 p).

Lemma blocks_S p : blocks (S p) = blocks p ++ block p.
Proof. unfold blocks. rewrite seq_S, fmap_app, concat_app. cbn. by rewrite app_nil_r. Qed.

Lemma block_single q : block q = [] \/ exists x, block q = [x] /\ x ∈ items /\ it_place x = q.
Proof using Hitems Hunique.
  destruct (block q) as [|x [|y l]] eqn:E; [by left|right|exfalso].
  - exists x. split; [done|]. assert (x ∈ block q) as Hx by (rewrite E; constructor).
    by apply list_elem_of_filter in Hx as [? ?].
  - assert (NoDup (it_op <$> block q)) as Hn.
    { eapply sublist_NoDup; [exact Hunique|]. apply fmap_sublist, sublist_filter. }
    assert (x ∈ block q /\ y ∈ block q) as [Hx Hy]
      by (rewrite E; split; [by left|by right; left]).
    apply list_elem_of_filter in Hx as [Px Hx]. apply list_elem_of_filter in Hy as [Py Hy].
    destruct (Hitems _ Hx) as [Gx _], (Hitems _ Hy) as [Gy _]. rewrite E in Hn. cbn in Hn.
    apply NoDup_cons in Hn as [Hn _]. apply Hn. apply elem_of_cons. left. congruence.
Qed.

(** Executing the blocks keeps up with executing the log. *)
Lemma blocks_legal p :
  (p <= length G)%nat ->
  legal mapStep ∅ (it_rec <$> blocks p) /\
  same_values (after ∅ (it_rec <$> blocks p)) (kvStore (runLog (take p G))).
Proof using Horder Hitems Hunique Hcover.
  induction p as [|p IH]; intros Hp; [done|]. destruct IH as [Hl Hs]; [lia|].
  destruct (lookup_lt_is_Some_2 G p) as [op Hop]; [lia|].
  rewrite blocks_S, fmap_app, (take_S_r _ _ _ Hop), runLog_snoc.
  unfold after in *. rewrite foldl_app. fold (after ∅ (it_rec <$> blocks p)) in *.
  set (s := after ∅ (it_rec <$> blocks p)) in *. set (P := take p G) in *.
  assert (isWrite op = false -> kvStore (execute op (runLog P)).1 = kvStore (runLog P)) as Hread.
  { intros Hw. destruct (newer (runLog P) op) eqn:Hn; [|by rewrite execute_store_same].
    rewrite execute_newer by done. cbn. by apply applyOp_get. }
  assert (seenIn P op = true -> isWrite op = true ->
    kvStore (execute op (runLog P)).1 = kvStore (runLog P)) as Hdup.
  { intros (o & Ho & Hwo & Hc & Hq)%seenIn_spec Hw. rewrite execute_store_same; [done|].
    apply not_true_iff_false. rewrite newer_log. intros Hn. specialize (Hn o Ho Hwo Hc). lia. }
  destruct (block_single p) as [E|(x & E & Hx & Hpx)]; rewrite E; cbn [fmap list_fmap foldl].
  { rewrite app_nil_r. split; [done|]. destruct (isWrite op) eqn:Hw; [|by rewrite Hread].
    destruct (seenIn P op) eqn:Hseen; [by rewrite Hdup|]. exfalso.
    destruct (Hcover p op Hop Hw Hseen) as (x & Hx & _ & Hpx).
    assert (x ∈ block p) as Hin by (by apply list_elem_of_filter). rewrite E in Hin. inv Hin. }
  destruct (Hitems x Hx) as (Gx & Hk & call & v & ret & Hrec & Hw).
  rewrite Hpx in Gx. assert (it_op x = op) as Eop by congruence. rewrite Hpx, Eop in *. fold P in Hw.
  rewrite Hrec. destruct (isWrite op) eqn:Hwo.
  - destruct (step_write s (kvStore (runLog P)) op v Hk Hwo Hs) as (s' & Hst & Hs').
    split; [apply legal_app; [done|]; exists s'; by split|]. cbn. rewrite Hst. cbn.
    rewrite execute_newer; [done|]. apply newer_log. intros o Ho Hoo Hc.
    eapply (Horder P op (drop (S p) G)); try done. symmetry. by apply take_drop_middle.
  - destruct (step_read s (kvStore (runLog P)) op v) as (s' & Hst & Hs'); try done.
    { unfold isWrite in Hwo. by apply negb_false_iff in Hwo. }
    split; [apply legal_app; [done|]; exists s'; by split|]. cbn. rewrite Hst. cbn.
    by rewrite Hread.
Qed.

Lemma blocks_all : blocks (length G) ≡ₚ items.
Proof using Hitems Hunique.
  assert (forall x, x ∈ items -> (it_place x < length G)%nat) as Hlt.
  { intros x Hx. destruct (Hitems x Hx) as [? _]. by eapply lookup_lt_Some. }
  assert (forall p, blocks p ≡ₚ filter (fun x => (it_place x < p)%nat) items) as Hb.
  { clear. induction p as [|p IH].
    - unfold blocks. cbn. induction items as [|x l IHl]; [done|].
      rewrite filter_cons_False by lia. done.
    - rewrite blocks_S, IH. unfold block. clear IH. induction items as [|x l IHl]; [done|].
      rewrite !filter_cons. repeat case_decide; try lia; rewrite <- ?IHl; cbn; try done.
      by rewrite Permutation_middle. }
  rewrite Hb.
  assert (filter (fun x => (it_place x < length G)%nat) items = items) as ->; [|done].
  clear -Hlt. induction items as [|x l IH]; [done|].
  rewrite filter_cons_True by (apply Hlt; constructor). f_equal. apply IH. set_solver.
Qed.

Hypothesis (Htime : forall x y, x ∈ items -> y ∈ items ->
  Porcupine.Return (it_rec y) < Porcupine.Call (it_rec x) -> (it_place y < it_place x)%nat).

Lemma elem_of_blocks x p : x ∈ blocks p -> x ∈ items /\ (it_place x < p)%nat.
Proof using.
  induction p as [|p IH]; [by intros ?%not_elem_of_nil|]. rewrite blocks_S.
  intros [Hx|[<- Hx]%list_elem_of_filter]%elem_of_app; [|by auto].
  destruct (IH Hx). split; [done|lia].
Qed.

Lemma blocks_sorted p : StronglySorted may_follow (it_rec <$> blocks p).
Proof using Hitems Hunique Htime.
  induction p as [|p IH]; [constructor|]. rewrite blocks_S, fmap_app.
  destruct (block_single p) as [E|(x & E & Hx & Hpx)]; rewrite E; cbn; [by rewrite app_nil_r|].
  apply StronglySorted_app. split_and!; [|done|constructor; [constructor|by constructor]].
  intros o1 o2 (y & -> & Hy)%list_elem_of_fmap ->%list_elem_of_singleton Hlt.
  apply elem_of_blocks in Hy as [Hy Hpy]. pose proof (Htime y x Hy Hx Hlt). lia.
Qed.

Lemma items_linearizable : ops_linearizable mapStep ∅ (it_rec <$> items).
Proof using Horder Hitems Hunique Hcover Htime.
  exists (it_rec <$> blocks (length G)). split.
  - by rewrite blocks_all.
  - apply blocks_sorted.
  - by apply blocks_legal.
Qed.
End items.
