(* ===== verification/KVCluster.v ===== *)
(** * kvraft as a whole: clerks, servers, Raft

    [KV] puts together the cluster of Raft peers with a kvraft server on each
    (Cluster, KVServer), the requests that wait in every server (Notify), and any
    number of clerks (Clerk).  A request may reach any server any number of times, at
    any moment after its clerk made the call, and any answer a handler gave may reach
    the clerk or be lost: this is what labrpc and the retries of the clerk amount to.
    The servers take no snapshots ([maxraftstate = -1]), and clerks have distinct
    identities.  The recorder of
    kvraft/test_test.go notes the operations that returned. *)
From S2P Require Import Prelude Persister RaftNode RaftLocal RaftNet RaftRefine Notify Service Cluster KVServer Clerk KVOrder.
From stdpp Require Import functions relations.
Import KVServer Cluster.
#[local] Open Scope Z_scope.

Module KVCluster.

Abbreviation Waits := (@Notify.State (Z * Z) applyResult).
Abbreviation Answer := (@Notify.Answer applyResult).

(** A clerk: its identity, and the operation it is calling with the time of the call. *)
Record Session := { se_ck : Clerk.Clerk; se_cur : option (Op * Z) }.

Record KV := {
  sys : Sys Op Store;
  waits : Z -> Waits;
  sessions : Z -> Session;               (* by client id *)
  called : list (Op * Z);                (* every operation called so far, the last first *)
  replies : list ((Z * Z) * Answer);     (* what handlers have answered *)
  now : Z;
  history : list (Op * KvOperation);     (* the operations that returned *)
}.

Definition with_sys x kv : KV :=
  {| sys := x; waits := waits kv; sessions := sessions kv; called := called kv;
     replies := replies kv; now := now kv; history := history kv |}.
Definition with_wait i x kv : KV :=
  {| sys := sys kv; waits := <[i := x]> (waits kv); sessions := sessions kv; called := called kv;
     replies := replies kv; now := now kv; history := history kv |}.
Definition with_reply x kv : KV :=
  {| sys := sys kv; waits := waits kv; sessions := sessions kv; called := called kv;
     replies := x :: replies kv; now := now kv; history := history kv |}.
Definition with_session c x kv : KV :=
  {| sys := sys kv; waits := waits kv; sessions := <[c := x]> (sessions kv);
     called := called kv; replies := replies kv; now := now kv; history := history kv |}.
Definition with_called x kv : KV :=
  {| sys := sys kv; waits := waits kv; sessions := sessions kv; called := x :: called kv;
     replies := replies kv; now := now kv; history := history kv |}.
Definition with_now x kv : KV :=
  {| sys := sys kv; waits := waits kv; sessions := sessions kv; called := called kv;
     replies := replies kv; now := x; history := history kv |}.
Definition with_history x kv : KV :=
  {| sys := sys kv; waits := waits kv; sessions := sessions kv; called := called kv;
     replies := replies kv; now := now kv; history := x :: history kv |}.

(** ** Clerks *)

(** The three methods of the clerk. *)
Inductive Method := MGet (key : string) | MPut (key value : string) | MAppend (key value : string).

(** The operation that the handler makes of the clerk's arguments. *)
Definition request (ck : Clerk.Clerk) (m : Method) : Op :=
  match m with
  | MGet key => getOp {| ga_Key := key; ga_ClientId := Clerk.clientId ck; ga_SeqId := Clerk.seqId ck |}
  | MPut key value =>
      putAppendOp {| pa_Key := key; pa_Value := value; pa_Op := "Put";
                     pa_ClientId := Clerk.clientId ck; pa_SeqId := Clerk.seqId ck |}
  | MAppend key value =>
      putAppendOp {| pa_Key := key; pa_Value := value; pa_Op := "Append";
                     pa_ClientId := Clerk.clientId ck; pa_SeqId := Clerk.seqId ck |}
  end.

(** What the clerk returns for a reply; [None]: it tries again. *)
Definition returns (op : Op) (a : Answer) : option string :=
  if isGet op then KVClerk.get_decisive (Some (Get_reply a))
  else (fun _ => EmptyString) <$> KVClerk.putAppend_decisive (Some (PutAppend_reply a)).

Definition op_id (op : Op) : Z * Z := (ClientId op, SeqId op).

(** ** Steps *)
Section steps.
Context `{!Codec (RaftPersist Op)}.
Variable n : nat.

(** An event of Raft peer [i]; its effect on the cluster. *)
Record raft_event (sy : Sys Op Store) (i src : Z) (ev : Event Op) (nd' : Node Op) : Prop := {
  re_peer : 0 <= i < Z.of_nat n;
  re_step : node_step (nodes (sys_net sy) i) ev nd';
  re_input m : input src i ev = Some m -> m ∈ soup (sys_net sy);
  re_service : service_event ev = false;
  re_done b : ev = EvApplierDone b -> ap_pos (sys_apps sy i) = length (applierMsgs b);
}.

Definition raft_effect (sy : Sys Op Store) (i src : Z) (ev : Event Op) (nd' : Node Op) : Sys Op Store :=
  Build_Sys {| nodes := <[i := nd']> (nodes (sys_net sy));
               soup := outputs src i nd' ev ++ soup (sys_net sy) |}
            (<[i := next_pos ev (sys_apps sy i)]> (sys_apps sy)).

Inductive kv_step (kv : KV) : KV -> Prop :=
  | kv_raft i src ev nd' :
      raft_event (sys kv) i src ev nd' -> (forall cmd ret, ev <> EvStart cmd ret) ->
      kv_step kv (with_sys (raft_effect (sys kv) i src ev nd') kv)
  | kv_submit i nd' op t index term ch :
      (* a handler: [Start] accepts the operation, the channel is made *)
      (op, t) ∈ called kv ->
      raft_event (sys kv) i i (EvStart op (index, term, true)) nd' ->
      Notify.waiters (waits kv i) !! ch = None ->
      kv_step kv
        (with_wait i (Notify.with_waiter ch
           {| Notify.w_index := index; Notify.w_id := op_id op; Notify.w_phase := Notify.Submitted |}
           (Notify.makeChan ch (Notify.nt (waits kv i))) (waits kv i))
           (with_sys (raft_effect (sys kv) i i (EvStart op (index, term, true)) nd') kv))
  | kv_refuse i nd' op t ret :
      (* this server does not lead *)
      (op, t) ∈ called kv ->
      raft_event (sys kv) i i (EvStart op (ret, false)) nd' ->
      kv_step kv (with_reply (op_id op, Notify.WrongLeader)
        (with_sys (raft_effect (sys kv) i i (EvStart op (ret, false)) nd') kv))
  | kv_deliver i b msg op st' res :
      (* the applier executes an entry *)
      0 <= i < Z.of_nat n ->
      batch (nodes (sys_net (sys kv)) i) = Some b ->
      applierMsgs b !! ap_pos (sys_apps (sys kv) i) = Some msg ->
      Command msg = Some op ->
      Notify.pending (waits kv i) = None ->
      execute op (ap_st (sys_apps (sys kv) i)) = (st', res) ->
      kv_step kv
        (with_wait i {| Notify.nt := Notify.nt (waits kv i); Notify.waiters := Notify.waiters (waits kv i);
             Notify.pending := (fun ch => (ch, res)) <$>
               Notify.notifyCh (CommandIndex msg) (res_id res) (Notify.nt (waits kv i));
             Notify.applied := (CommandIndex msg, res) :: Notify.applied (waits kv i) |}
           (with_sys (Build_Sys (sys_net (sys kv))
             (<[i := Build_App st' (CommandIndex msg) (S (ap_pos (sys_apps (sys kv) i)))]>
                (sys_apps (sys kv)))) kv))
  | kv_notify i w :
      (* the handlers and the applier wait, send and receive *)
      0 <= i < Z.of_nat n ->
      Notify.step res_id wrongLeader (waits kv i) w ->
      Notify.applied w = Notify.applied (waits kv i) ->
      dom (Notify.waiters w) = dom (Notify.waiters (waits kv i)) ->
      kv_step kv (with_wait i w kv)
  | kv_answer i ch w a :
      0 <= i < Z.of_nat n ->
      Notify.waiters (waits kv i) !! ch = Some w -> Notify.w_phase w = Notify.Done a ->
      kv_step kv (with_reply (Notify.w_id w, a) kv)
  | kv_crash i r :
      0 <= i < Z.of_nat n ->
      kv_step kv
        (with_wait i Notify.init
          (with_sys (Build_Sys
             {| nodes := <[i := boot n i (persister (raft (nodes (sys_net (sys kv)) i))) r]>
                           (nodes (sys_net (sys kv)));
                soup := soup (sys_net (sys kv)) |}
             (<[i := fresh]> (sys_apps (sys kv)))) kv))
  | kv_call c m :
      (* a clerk begins an operation; sequence numbers do not run out *)
      se_cur (sessions kv c) = None ->
      Clerk.seqId (se_ck (sessions kv c)) + 1 < 2 ^ 63 ->
      let ck := (Clerk.nextSeq (se_ck (sessions kv c))).2 in
      kv_step kv
        (with_called (request ck m, now kv)
          (with_session c {| se_ck := ck; se_cur := Some (request ck m, now kv) |} kv))
  | kv_return c op t a v :
      (* a reply reaches the clerk while it calls this operation *)
      se_cur (sessions kv c) = Some (op, t) -> (op_id op, a) ∈ replies kv ->
      returns op a = Some v ->
      kv_step kv
        (with_history (op, kvOperation op t v (now kv))
          (with_session c {| se_ck := se_ck (sessions kv c); se_cur := None |} kv))
  | kv_tick t : now kv <= t -> kv_step kv (with_now t kv).

(** Before the first call: every client id has a fresh clerk. *)
Definition kv_init (kv : KV) : Prop :=
  sys_init n (sys kv) /\ (forall i, waits kv i = Notify.init) /\
  (forall c, sessions kv c = {| se_ck := Clerk.MakeClerk n c; se_cur := None |}) /\
  called kv = [] /\ replies kv = [] /\ history kv = [].

Definition kv_reachable (kv : KV) : Prop := exists kv0, kv_init kv0 /\ rtc kv_step kv0 kv.
End steps.
End KVCluster.
