(* ===== verification/KVInv.v ===== *)
(** * kvraft as a whole: the invariant

    In every run of KVCluster the cluster of servers implements the replicated log,
    every answer of a server was computed by executing a committed prefix of it, and
    every clerk runs one operation at a time, numbered in order. *)
From S2P Require Import Prelude Persister ClientId RaftNode RaftLocal RaftInv RaftLog RaftNet RaftSpec RaftRefine RaftSafety RaftCommands Notify Service Cluster KVServer KVProps Clerk Porcupine PorcProps PorcOps KvModel KvModelProps KVOrder KVCluster.
From stdpp Require Import functions relations.
Import KVServer Cluster KVCluster.
#[local] Open Scope Z_scope.

Section lin.
Context `{!Codec (RaftPersist Op), !CodecLaws (RaftPersist Op)}.
Variable n : nat.
Implicit Types (kv : KV) (s : Abs Op) (S P : list Op) (sy : Sys Op Store).

(** ** The cluster below *)

Record sys_inv S sy s : Prop := {
  si_rel : sys_rel n sy s;
  si_plain : plain_reachable n (sys_net sy);
  si_sub : submitted n S (sys_net sy);
}.

Lemma sys_inv_mono S S' sy s : S ⊆ S' -> sys_inv S sy s -> sys_inv S' sy s.
Proof. intros Hs [? ? ?]. split; try done. by eapply submitted_mono. Qed.

Lemma plain_snoc net net' : plain_reachable n net -> plain_step n net net' -> plain_reachable n net'.
Proof. intros (net0 & ? & ?) Hs. exists net0. split; [done|]. by eapply rtc_r. Qed.

Lemma raft_event_inv S sy s i src ev nd' :
  sys_inv S sy s -> raft_event n sy i src ev nd' ->
  exists s', extends s s' /\ sys_inv (started ev ++ S) (raft_effect sy i src ev nd') s'.
Proof.
  intros [Hr Hp Hs] [Hi Hst Hin Hev Hd].
  destruct (sys_step_rel n sy (raft_effect sy i src ev nd') s) as (s' & Hex & Hr'); [|done|].
  { by apply sys_event. }
  exists s'. split; [done|]. split; [done| |].
  - eapply plain_snoc; [done|]. by apply plain_event.
  - by apply submitted_event.
Qed.

Lemma crash_inv' S sy s i r :
  sys_inv S sy s -> 0 <= i < Z.of_nat n ->
  exists s', extends s s' /\ sys_inv S
    (Build_Sys {| nodes := <[i := boot n i (persister (raft (nodes (sys_net sy) i))) r]>
                             (nodes (sys_net sy)); soup := soup (sys_net sy) |}
               (<[i := fresh]> (sys_apps sy))) s'.
Proof.
  intros [Hr Hp Hs] Hi. pose proof (sys_crash n sy i r Hi) as Hc.
  destruct (sys_step_rel n _ _ s Hc Hr) as (s' & Hex & Hr'). exists s'. split; [done|].
  split; [done| |].
  - eapply plain_snoc; [done|]. by apply plain_crash.
  - apply submitted_crash; try done. by apply (inv_persisted _ _ (sr_net _ _ _ Hr)).
Qed.

Lemma replayed_runLog l k st :
  Service.replayed l k = Some st -> st = runLog (take (Z.to_nat k) l).
Proof. unfold Service.replayed. rewrite kv_replay_runLog. by intros [= <-]. Qed.

(** What the applier executes is the next command of a committed prefix, on the
    state of that prefix. *)
Lemma deliver_prefix S sy s i b msg op :
  sys_inv S sy s -> 0 <= i < Z.of_nat n -> batch (nodes (sys_net sy) i) = Some b ->
  applierMsgs b !! ap_pos (sys_apps sy i) = Some msg -> Command msg = Some op ->
  exists P, prefix_ok n s (P ++ [op]) /\ ap_st (sys_apps sy i) = runLog P /\ P ++ [op] ⊆ S.
Proof.
  intros [[Hnet Hinv HR Hpos Hst] Hp Hsub] Hi Hb Hm Hop.
  specialize (Hpos i Hi). destruct (Hst i Hi) as (T & l & m & Hset & Hidx & Hrep).
  unfold pos_ok in Hpos. rewrite Hb in Hpos. destruct Hpos as (Ha & Hstart & Hend).
  pose proof (rel_batch _ _ _ HR i Hi) as Hbr. rewrite Hb in Hbr.
  destruct (Hbr b eq_refl) as (Hl0 & Hs0 & _).
  destruct (batch_message n s b msg Hbr) as (T' & l' & m' & e & Hset' & Hle & Hm' & Hmsg);
    [by eapply list_elem_of_lookup_2|].
  pose proof (rel_peer _ _ _ HR i Hi) as Hpr. destruct (pr_commit _ _ _ _ Hpr) as [Hc0 Hc].
  pose proof (wf_delivered _ (reachable_kc_wf _ _ _ Hi (plain_peer n _ i Hp Hi))) as Hd.
  unfold delivered in Hd. rewrite Hb in Hd.
  set (rf := raft (nodes (sys_net sy) i)) in *. set (k := ap_index (sys_apps sy i)) in *.
  assert (CommandIndex msg = k + 1 /\ k < ab_commitIndex b) as [Hk Hkb].
  { rewrite applierMsgs_spec, list_lookup_imap in Hm by lia.
    destruct (ab_entries b !! ap_pos (sys_apps sy i)) eqn:E; [|done]. cbn in Hm.
    injection Hm as <-. apply lookup_lt_Some in E. unfold zlen in Hend. cbn. lia. }
  rewrite Hk in *. replace (k + 1 - 1) with k in Hle by lia.
  assert (take (Z.to_nat k) l = take (Z.to_nat k) (log rf)) as El.
  { eapply (settled_agree n s); [done|..]; (eapply settled_shorter; [done|lia]). }
  assert (take (Z.to_nat (k + 1)) l' = take (Z.to_nat (k + 1)) (log rf)) as El'.
  { eapply (settled_agree n s); [done|..]; (eapply settled_shorter; [done|lia]). }
  apply (take_lookup_eq _ (Z.to_nat k)) in El'; [|lia]. rewrite Hle in El'.
  assert (op = le_Command e) as -> by (rewrite Hmsg in Hop; by injection Hop as <-).
  assert (take (Z.to_nat (k + 1)) (log rf) = take (Z.to_nat k) (log rf) ++ [e]) as Et.
  { replace (Z.to_nat (k + 1)) with (Datatypes.S (Z.to_nat k)) by lia. by apply take_S_r. }
  exists (le_Command <$> take (Z.to_nat k) (log rf)).
  assert ((le_Command <$> take (Z.to_nat k) (log rf)) ++ [le_Command e] =
    le_Command <$> take (Z.to_nat (k + 1)) (log rf)) as Ep by (by rewrite Et, fmap_app).
  split_and!.
  - destruct Hc as [Hlen Hc']. exists (currentTerm rf), (log rf), (Z.to_nat (commitIndex rf)).
    rewrite Ep, length_fmap, length_take. split; [by split|]. split; [lia|]. do 2 f_equal. lia.
  - rewrite (replayed_runLog _ _ _ Hrep), <- fmap_take. by rewrite <- El.
  - rewrite Ep. intros x (y & -> & Hy)%list_elem_of_fmap. eapply (sb_log _ _ _ Hsub i); [done|].
    by eapply subseteq_take.
Qed.

(** ** The invariant *)

(** A result that was computed for an entry with identity [id]. *)
Definition answered s S (id : Z * Z) (r : applyResult) : Prop :=
  exists P op, prefix_ok n s (P ++ [op]) /\ op_id op = id /\ r = (execute op (runLog P)).2 /\
    P ++ [op] ⊆ S.

(** The operation [x.1] was called at [t] and returned [v] at [ret], when [Cl] had been
    called: its answer was computed after the operations [P], all of them among [Cl]. *)
Record return_ok kv (x : Op * KvOperation) P (t : Z) (v : string) (ret : Z) (Cl : list (Op * Z)) : Prop := {
  rt_rec : x.2 = kvOperation x.1 t v ret;
  rt_now : ret <= now kv;
  rt_past : Cl `suffix_of` called kv;
  rt_call : (x.1, t) ∈ Cl;
  rt_sub : P ++ [x.1] ⊆ Cl.*1;
  rt_before op t' : (op, t') ∈ Cl -> t' <= ret;
  rt_last op t' : (op, t') ∈ Cl -> ClientId op = ClientId x.1 -> SeqId op <= SeqId x.1;
  rt_value : isGet x.1 = true -> v = default EmptyString (kvStore (runLog P) !! Key x.1);
}.
Definition return_of kv x P : Prop := exists t v ret Cl, return_ok kv x P t v ret Cl.
Definition returned kv s (x : Op * KvOperation) : Prop :=
  exists P, prefix_ok n s (P ++ [x.1]) /\ return_of kv x P.

(** One operation of a client at a time, numbered in order. *)
Record session_ok kv (c : Z) : Prop := {
  so_id : Clerk.clientId (se_ck (sessions kv c)) = c;
  so_range : 0 <= Clerk.seqId (se_ck (sessions kv c)) < 2 ^ 63;
  so_seq op t : (op, t) ∈ called kv -> ClientId op = c ->
    0 < SeqId op <= Clerk.seqId (se_ck (sessions kv c));
  so_cur op t : se_cur (sessions kv c) = Some (op, t) ->
    (op, t) ∈ called kv /\ ClientId op = c /\
    SeqId op = Clerk.seqId (se_ck (sessions kv c)) /\ op ∉ (history kv).*1;
}.

Record kv_inv kv s : Prop := {
  ki_sys : sys_inv (called kv).*1 (sys kv) s;
  ki_wait i : 0 <= i < Z.of_nat n -> Notify.reachable res_id wrongLeader (waits kv i);
  ki_applied i idx r : 0 <= i < Z.of_nat n -> (idx, r) ∈ Notify.applied (waits kv i) ->
    answered s (called kv).*1 (res_id r) r;
  ki_reply id r : (id, Notify.Result r) ∈ replies kv -> answered s (called kv).*1 id r \/ r = wrongLeader;
  ki_session c : session_ok kv c;
  ki_called op t : (op, t) ∈ called kv -> kvop_ok op /\ t <= now kv /\
    (se_cur (sessions kv (ClientId op)) = Some (op, t) \/ op ∈ (history kv).*1);
  ki_unique : NoDup (op_id <$> (called kv).*1);
  ki_history x : x ∈ history kv -> returned kv s x;
  ki_once : NoDup (history kv).*1;
}.

Lemma answered_mono s s' S S' id r :
  extends s s' -> S ⊆ S' -> answered s S id r -> answered s' S' id r.
Proof.
  intros Hex HS (P & op & Hp & Hid & Hr & HP). exists P, op.
  split_and!; [by eapply prefix_ok_mono|done|done|by etrans].
Qed.

Lemma returned_mono kv kv' s s' x :
  extends s s' -> now kv <= now kv' -> called kv `suffix_of` called kv' ->
  returned kv s x -> returned kv' s' x.
Proof.
  intros Hex Hn Hc (P & HP & t & v & ret & Cl & []). exists P.
  split; [by eapply prefix_ok_mono|]. exists t, v, ret, Cl. split; try done; [lia|by etrans].
Qed.

(** A step that leaves clerks, calls, the clock and the history alone. *)
Lemma kv_inv_server kv kv' s s' :
  kv_inv kv s -> extends s s' -> sys_inv (called kv').*1 (sys kv') s' ->
  called kv' = called kv -> sessions kv' = sessions kv -> history kv' = history kv ->
  now kv' = now kv ->
  (forall i, 0 <= i < Z.of_nat n -> Notify.reachable res_id wrongLeader (waits kv' i)) ->
  (forall i idx r, 0 <= i < Z.of_nat n -> (idx, r) ∈ Notify.applied (waits kv' i) ->
     (idx, r) ∈ Notify.applied (waits kv i) \/ answered s' (called kv).*1 (res_id r) r) ->
  (forall id r, (id, Notify.Result r) ∈ replies kv' ->
     (id, Notify.Result r) ∈ replies kv \/ answered s' (called kv).*1 id r \/ r = wrongLeader) ->
  kv_inv kv' s'.
Proof.
  intros [I1 I2 I3 I4 I5 I6 I7 I8 I9] Hex Hsys Ec Es Eh En Hw Ha Hr.
  split; rewrite ?Ec, ?Es, ?Eh, ?En; try done.
  - by rewrite Ec in Hsys.
  - intros i idx r Hi [Hin|Hin]%Ha; [|done|done]. eapply answered_mono; [done..|]. by eapply I3.
  - intros id r [Hin|Hin]%Hr; [|done]. destruct (I4 _ _ Hin); [left|by right].
    by eapply answered_mono.
  - intros c. destruct (I5 c) as [? ? ? ?]. split; rewrite ?Ec, ?Es, ?Eh; done.
  - intros x Hx. eapply returned_mono; [done| | |by apply I8]; rewrite ?En, ?Ec; [lia|done].
Qed.

(** ** The servers' steps *)

Lemma kv_inv_raft kv s i src ev nd' :
  kv_inv kv s -> raft_event n (sys kv) i src ev nd' -> started ev ⊆ (called kv).*1 ->
  exists s', extends s s' /\ kv_inv (with_sys (raft_effect (sys kv) i src ev nd') kv) s'.
Proof.
  intros Hinv Hev Hst. destruct (raft_event_inv _ _ _ _ _ _ _ (ki_sys _ _ Hinv) Hev) as (s' & Hex & Hs').
  exists s'. split; [done|]. eapply kv_inv_server; try done.
  - eapply sys_inv_mono; [|done]. intros x [Hx|Hx]%elem_of_app; [by apply Hst|done].
  - apply (ki_wait _ _ Hinv).
  - by left.
  - by left.
Qed.

Lemma kv_inv_wait kv s i w :
  kv_inv kv s -> 0 <= i < Z.of_nat n -> Notify.reachable res_id wrongLeader w ->
  (forall idx r, (idx, r) ∈ Notify.applied w -> (idx, r) ∈ Notify.applied (waits kv i) \/
     answered s (called kv).*1 (res_id r) r) ->
  kv_inv (with_wait i w kv) s.
Proof.
  intros Hinv Hi Hw Ha. eapply (kv_inv_server kv _ s s); try done.
  - apply extends_refl.
  - apply (ki_sys _ _ Hinv).
  - apply (fn_insert_case (fun j x => 0 <= j < Z.of_nat n -> Notify.reachable res_id wrongLeader x));
      [done|]. intros j Hj. by apply (ki_wait _ _ Hinv).
  - intros j idx r Hj. destruct (decide (j = i)) as [->|]; cbn;
      [rewrite fn_lookup_insert; by apply Ha|rewrite fn_lookup_insert_ne by done; by left].
  - by left.
Qed.

Lemma kv_inv_reply kv s id a :
  kv_inv kv s ->
  (forall r, a = Notify.Result r -> answered s (called kv).*1 id r \/ r = wrongLeader) ->
  kv_inv (with_reply (id, a) kv) s.
Proof.
  intros Hinv Ha. eapply (kv_inv_server kv _ s s); try done.
  - apply extends_refl.
  - apply (ki_sys _ _ Hinv).
  - apply (ki_wait _ _ Hinv).
  - by left.
  - intros id' r [[= -> <-]|?]%elem_of_cons; [right; by apply Ha|by left].
Qed.

(** What a handler answers was computed for its own operation. *)
Lemma waiter_answer kv s i ch w r :
  kv_inv kv s -> 0 <= i < Z.of_nat n -> Notify.waiters (waits kv i) !! ch = Some w ->
  Notify.w_phase w = Notify.Done (Notify.Result r) ->
  answered s (called kv).*1 (Notify.w_id w) r \/ r = wrongLeader.
Proof.
  intros Hinv Hi Hw Hp.
  pose proof (Notify.inv_phase _ _ _ (Notify.reachable_inv _ _ _ (ki_wait _ _ Hinv i Hi)) ch w Hw) as Hph.
  unfold Notify.phase_ok in Hph. rewrite Hp in Hph. destruct Hph as [[?|[Hin _]] Hid]; [by right|left].
  rewrite <- Hid. by eapply ki_applied.
Qed.

Lemma kv_inv_deliver kv s i b msg op st' res :
  kv_inv kv s -> 0 <= i < Z.of_nat n -> batch (nodes (sys_net (sys kv)) i) = Some b ->
  applierMsgs b !! ap_pos (sys_apps (sys kv) i) = Some msg -> Command msg = Some op ->
  Notify.pending (waits kv i) = None -> execute op (ap_st (sys_apps (sys kv) i)) = (st', res) ->
  exists s', extends s s' /\ kv_inv
    (with_wait i {| Notify.nt := Notify.nt (waits kv i); Notify.waiters := Notify.waiters (waits kv i);
         Notify.pending := (fun ch => (ch, res)) <$>
           Notify.notifyCh (CommandIndex msg) (res_id res) (Notify.nt (waits kv i));
         Notify.applied := (CommandIndex msg, res) :: Notify.applied (waits kv i) |}
       (with_sys (Build_Sys (sys_net (sys kv))
         (<[i := Build_App st' (CommandIndex msg) (Datatypes.S (ap_pos (sys_apps (sys kv) i)))]>
            (sys_apps (sys kv)))) kv)) s'.
Proof.
  intros Hinv Hi Hb Hm Hop Hpend He. pose proof (ki_sys _ _ Hinv) as [Hr Hp Hs].
  destruct (deliver_prefix _ _ _ _ _ _ _ (ki_sys _ _ Hinv) Hi Hb Hm Hop) as (P & HP & Hst & Hsub).
  assert (Service.exec op (ap_st (sys_apps (sys kv) i)) = Some (st', res)) as Hx
    by (change (Some (execute op (ap_st (sys_apps (sys kv) i))) = Some (st', res)); by rewrite He).
  destruct (sys_step_rel n _ _ s (sys_deliver n _ i b msg op st' res Hi Hb Hm Hop Hx) Hr)
    as (s' & Hex & Hr').
  exists s'. split; [done|].
  assert (answered s' (called kv).*1 (res_id res) res) as Hans.
  { exists P, op. split_and!; [by eapply prefix_ok_mono| |by rewrite <- Hst, He|done].
    assert (res = (execute op (ap_st (sys_apps (sys kv) i))).2) as -> by (by rewrite He).
    unfold execute, res_id, op_id.
    destruct (applyOp op (kvStore (ap_st (sys_apps (sys kv) i)))) as [[err value] m].
    by repeat case_match. }
  apply kv_inv_wait; [|done| |].
  - eapply (kv_inv_server kv _ s s'); try done; [apply (ki_wait _ _ Hinv)|by left|by left].
  - eapply Notify.reach_step; [by apply (ki_wait _ _ Hinv i)|]. by apply Notify.step_apply.
  - intros idx r [[= -> ->]|Hin]%elem_of_cons; [by right|by left].
Qed.

(** ** The clerks' steps *)

Lemma called_inj kv s op1 op2 :
  kv_inv kv s -> op1 ∈ (called kv).*1 -> op2 ∈ (called kv).*1 -> op_id op1 = op_id op2 -> op1 = op2.
Proof.
  intros Hinv [i Hi]%list_elem_of_lookup [j Hj]%list_elem_of_lookup E.
  assert (i = j) as ->; [|congruence].
  eapply (NoDup_lookup _ _ _ (op_id op1) (ki_unique _ _ Hinv)); rewrite list_lookup_fmap.
  - by rewrite Hi.
  - rewrite Hj. cbn. by rewrite E.
Qed.

Lemma called_time kv s op t1 t2 :
  kv_inv kv s -> (op, t1) ∈ called kv -> (op, t2) ∈ called kv -> t1 = t2.
Proof.
  intros Hinv [i Hi]%list_elem_of_lookup [j Hj]%list_elem_of_lookup.
  assert (i = j) as ->; [|congruence].
  eapply (NoDup_lookup _ _ _ (op_id op) (ki_unique _ _ Hinv));
    rewrite !list_lookup_fmap; [by rewrite Hi|by rewrite Hj].
Qed.

Lemma history_called kv s op : kv_inv kv s -> op ∈ (history kv).*1 -> op ∈ (called kv).*1.
Proof.
  intros Hinv ([op' o] & -> & Hx)%list_elem_of_fmap.
  destruct (ki_history _ _ Hinv _ Hx) as (P & _ & t & v & ret & Cl & [_ _ [l ->] Hin _ _ _ _]).
  rewrite fmap_app. apply elem_of_app. right. by apply (list_elem_of_fmap_2 fst _ (op', t)).
Qed.

Lemma nextSeq_spec ck :
  0 <= Clerk.seqId ck -> Clerk.seqId ck + 1 < 2 ^ 63 ->
  Clerk.seqId (Clerk.nextSeq ck).2 = Clerk.seqId ck + 1 /\
  Clerk.clientId (Clerk.nextSeq ck).2 = Clerk.clientId ck.
Proof. intros. cbn. split; [|done]. apply ClientId.ClientId.int64_id. lia. Qed.

Lemma request_spec ck m :
  kvop_ok (request ck m) /\ ClientId (request ck m) = Clerk.clientId ck /\
  SeqId (request ck m) = Clerk.seqId ck.
Proof. destruct m; cbn; unfold kvop_ok; cbn; auto. Qed.

Lemma kv_inv_call kv s c m :
  kv_inv kv s -> se_cur (sessions kv c) = None ->
  Clerk.seqId (se_ck (sessions kv c)) + 1 < 2 ^ 63 ->
  let ck := (Clerk.nextSeq (se_ck (sessions kv c))).2 in
  kv_inv (with_called (request ck m, now kv)
    (with_session c {| se_ck := ck; se_cur := Some (request ck m, now kv) |} kv)) s.
Proof.
  intros Hinv Hcur Hb ck. destruct (ki_session _ _ Hinv c) as [S1 S2 S3 S4].
  destruct (nextSeq_spec _ (proj1 S2) Hb) as [Hq Hc]. fold ck in Hq, Hc.
  destruct (request_spec ck m) as (Hk & Hrc & Hrq). set (op := request ck m) in *.
  rewrite Hc, S1 in Hrc. rewrite Hq in Hrq.
  assert (op_id op ∉ op_id <$> (called kv).*1) as Hnew.
  { intros (op' & E & ([op'' t] & -> & Hin)%list_elem_of_fmap)%list_elem_of_fmap.
    unfold op_id in E. injection E as E1 E2. cbn in *. destruct (S3 op'' t Hin); [congruence|lia]. }
  assert (op ∉ (history kv).*1) as Hnh.
  { intros Hin%(history_called _ _ _ Hinv). by apply Hnew, list_elem_of_fmap_2. }
  destruct Hinv as [I1 I2 I3 I4 I5 I6 I7 I8 I9].
  assert ((called kv).*1 ⊆ op :: (called kv).*1) as Hsub by (intros x Hx; by right).
  split; cbn -[Clerk.nextSeq]; try done.
  - by eapply sys_inv_mono.
  - intros i idx r Hi Hin. eapply answered_mono; [apply extends_refl|done|by eapply I3].
  - intros id r [Hin|?]%I4; [left|by right]. eapply answered_mono; [apply extends_refl|done|done].
  - intros c'. destruct (decide (c' = c)) as [->|Hne].
    + split; cbn -[Clerk.nextSeq]; rewrite fn_lookup_insert; cbn -[Clerk.nextSeq]; fold ck;
        rewrite ?Hc, ?Hq; [done|lia| |].
      * intros op' t [[= -> ->]|Hin]%elem_of_cons Ec; [lia|]. destruct (S3 op' t Hin Ec). lia.
      * intros op' t [= <- <-]. split_and!; [by left|done|done|done].
    + destruct (I5 c') as [T1 T2 T3 T4]. split; cbn -[Clerk.nextSeq];
        rewrite fn_lookup_insert_ne by done; try done.
      * intros op' t [[= -> ->]|Hin]%elem_of_cons Ec; [congruence|by eapply T3].
      * intros op' t H. destruct (T4 op' t H) as (? & ? & ? & ?). split_and!; try done. by right.
  - intros op' t [[= -> ->]|Hin]%elem_of_cons.
    + split_and!; [done|done|left]. by rewrite Hrc, fn_lookup_insert.
    + destruct (I6 op' t Hin) as (? & ? & Hr). split_and!; try done.
      destruct (decide (ClientId op' = c)) as [E|]; [|by rewrite fn_lookup_insert_ne].
      rewrite E, Hcur in Hr. destruct Hr; [done|by right].
  - by apply NoDup_cons.
  - intros x Hx. eapply returned_mono; [apply extends_refl| | |by apply I8]; [done|]. by exists [(op, now kv)].
Qed.

Lemma returns_result op a v : returns op a = Some v -> exists r, a = Notify.Result r /\ r <> wrongLeader.
Proof.
  intros H. destruct a as [r| |]; [|by unfold returns in H; destruct (isGet op)..].
  exists r. split; [done|]. intros ->. unfold returns in H. by destruct (isGet op).
Qed.

(** A read returns what the map holds. *)
Lemma returns_value op P v :
  isGet op = true -> newer (runLog P) op = true ->
  returns op (Notify.Result (execute op (runLog P)).2) = Some v ->
  v = default EmptyString (kvStore (runLog P) !! Key op).
Proof.
  intros Hg Hn. rewrite execute_newer by done. unfold returns, applyOp. rewrite Hg.
  unfold isGet in Hg. rewrite Hg. destruct (kvStore (runLog P) !! Key op); cbn; by intros [= <-].
Qed.

Lemma kv_inv_return kv s c op t a v :
  kv_inv kv s -> se_cur (sessions kv c) = Some (op, t) -> (op_id op, a) ∈ replies kv ->
  returns op a = Some v ->
  kv_inv (with_history (op, kvOperation op t v (now kv))
    (with_session c {| se_ck := se_ck (sessions kv c); se_cur := None |} kv)) s.
Proof.
  intros Hinv Hcur Hin Hv. destruct (returns_result _ _ _ Hv) as (r & -> & Hr).
  destruct (ki_session _ _ Hinv c) as [S1 S2 S3 S4].
  destruct (S4 _ _ Hcur) as (Hcall & Hc & Hq & Hnh).
  assert (op ∈ (called kv).*1) as Hop by (by apply (list_elem_of_fmap_2 fst _ (op, t))).
  destruct (ki_reply _ _ Hinv _ _ Hin) as [(P & op' & HP & Hid & -> & HS)|?]; [|done].
  assert (op' = op) as ->.
  { eapply called_inj; [done| |done|done]. apply HS, elem_of_app. right. by left. }
  assert (returned (with_history (op, kvOperation op t v (now kv))
    (with_session c {| se_ck := se_ck (sessions kv c); se_cur := None |} kv)) s
    (op, kvOperation op t v (now kv))) as Hret.
  { exists P. split; [done|]. exists t, v, (now kv), (called kv). split; cbn; try done.
    - intros op' t' Hin'. by destruct (ki_called _ _ Hinv _ _ Hin') as (_ & ? & _).
    - intros op' t' Hin' E. rewrite Hq. apply (S3 op' t' Hin'). congruence.
    - intros Hg. apply (returns_value op P v Hg); [|done]. apply newer_log.
      intros o Ho Hw E. assert (o ∈ (called kv).*1) as Hoc by (apply HS, elem_of_app; by left).
      pose proof Hoc as ([o' to] & -> & Hto)%list_elem_of_fmap. cbn in *.
      destruct (S3 o' to Hto) as [_ Hle]; [congruence|]. rewrite <- Hq in Hle.
      destruct (decide (SeqId o' = SeqId op)) as [E'|]; [|lia]. exfalso.
      assert (o' = op) as -> by (eapply called_inj; [done..|]; unfold op_id; congruence).
      unfold isWrite in Hw. by rewrite Hg in Hw. }
  destruct Hinv as [I1 I2 I3 I4 I5 I6 I7 I8 I9]. split; cbn; try done.
  - intros c'. destruct (decide (c' = c)) as [->|Hne].
    + split; cbn; rewrite fn_lookup_insert; cbn; done.
    + destruct (I5 c') as [T1 T2 T3 T4]. split; cbn; rewrite fn_lookup_insert_ne by done; try done.
      intros op' t' H. destruct (T4 op' t' H) as (? & ? & ? & ?). split_and!; try done.
      intros [->|?]%elem_of_cons; [congruence|done].
  - intros op' t' Hin'. destruct (I6 op' t' Hin') as (? & ? & H). split_and!; try done.
    destruct (decide (ClientId op' = c)) as [E|];
      [|rewrite fn_lookup_insert_ne by done; destruct H; [by left|right; by right]].
    rewrite E, Hcur in H. right. destruct H as [[= -> ->]|?]; [by left|by right].
  - intros x [->|Hx]%elem_of_cons; [exact Hret|].
    eapply returned_mono; [apply extends_refl| | |by apply I8]; done.
  - by apply NoDup_cons.
Qed.

Lemma kv_step_inv kv kv' s :
  kv_step n kv kv' -> kv_inv kv s -> exists s', extends s s' /\ kv_inv kv' s'.
Proof.
  intros Hs Hinv.
  destruct Hs as [i src ev nd' Hev Hns|i nd' op t index term ch Hc Hev Hch|i nd' op t ret Hc Hev
    |i b msg op st' res Hi Hb Hm Hop Hp He|i w Hi Hw Ha Hd|i ch w a Hi Hw Hp|i r Hi|c m Hcur Hb ck
    |c op t a v Hcur Hin Hv|t Ht].
  - eapply kv_inv_raft; try done. destruct ev; try (intros x Hx; by apply not_elem_of_nil in Hx).
    by exfalso; eapply Hns.
  - destruct (kv_inv_raft _ _ _ _ _ _ Hinv Hev) as (s' & Hex & Hinv').
    { intros x ->%list_elem_of_singleton. by apply (list_elem_of_fmap_2 fst _ (op, t)). }
    exists s'. split; [done|]. pose proof (re_peer _ _ _ _ _ _ Hev) as Hi.
    apply kv_inv_wait; [done|done| |by left].
    eapply Notify.reach_step; [by apply (ki_wait _ _ Hinv i)|]. by apply Notify.step_submit.
  - destruct (kv_inv_raft _ _ _ _ _ _ Hinv Hev) as (s' & Hex & Hinv').
    { intros x ->%list_elem_of_singleton. by apply (list_elem_of_fmap_2 fst _ (op, t)). }
    exists s'. split; [done|]. by apply kv_inv_reply.
  - by eapply kv_inv_deliver.
  - exists s. split; [apply extends_refl|]. apply kv_inv_wait; [done|done| |].
    + eapply Notify.reach_step; [by apply (ki_wait _ _ Hinv i)|done].
    + rewrite Ha. by left.
  - exists s. split; [apply extends_refl|]. apply kv_inv_reply; [done|]. intros r ->.
    by eapply waiter_answer.
  - destruct (crash_inv' _ _ _ i r (ki_sys _ _ Hinv) Hi) as (s' & Hex & Hs'). exists s'.
    split; [done|]. apply kv_inv_wait; [|done|constructor|by intros ? ? ?%not_elem_of_nil].
    eapply (kv_inv_server kv _ s s'); try done; [apply (ki_wait _ _ Hinv)|by left|by left].
  - exists s. split; [apply extends_refl|]. by apply kv_inv_call.
  - exists s. split; [apply extends_refl|]. by eapply kv_inv_return.
  - exists s. split; [apply extends_refl|]. destruct Hinv as [I1 I2 I3 I4 I5 I6 I7 I8 I9].
    split; cbn; try done.
    + intros c. by destruct (I5 c).
    + intros op t' Hin. destruct (I6 op t' Hin) as (? & ? & ?). split_and!; [done|lia|done].
    + intros x Hx. eapply returned_mono; [apply extends_refl| | |by apply I8]; done.
Qed.

Lemma kv_init_inv kv : kv_init n kv -> kv_inv kv abs0.
Proof.
  intros (Hs & Hw & Hse & Hc & Hr & Hh). split; rewrite ?Hc, ?Hr, ?Hh; try done.
  - split; [by apply sys_init_rel|by exists (sys_net (sys kv)); destruct Hs|].
    apply submitted_init, Hs.
  - intros i _. rewrite Hw. constructor.
  - intros i idx r _. rewrite Hw. by intros ?%not_elem_of_nil.
  - by intros ? ? ?%not_elem_of_nil.
  - intros c. split; rewrite ?Hse, ?Hc; try done. intros ? ? ?%not_elem_of_nil; done.
  - by intros ? ? ?%not_elem_of_nil.
  - constructor.
  - by intros ? ?%not_elem_of_nil.
  - constructor.
Qed.

Lemma kv_reachable_inv kv : kv_reachable n kv -> exists s, kv_inv kv s.
Proof.
  intros (kv0 & Hi & Hr). assert (exists s, kv_inv kv0 s) as H
    by (exists abs0; by apply kv_init_inv). clear Hi.
  induction Hr as [|kv1 kv2 kv3 Hs _ IH]; [done|]. apply IH. destruct H as [s H].
  destruct (kv_step_inv _ _ _ Hs H) as (s' & _ & ?). by exists s'.
Qed.
End lin.
