(* ===== verification/KVLin.v ===== *)
(** * kvraft is linearizable

    Over all runs of KVCluster (no snapshots, clerks with distinct identities), with messages and replies lost, delayed and
    duplicated and servers crashing: the operations that returned, together with
    some of those still in flight, are linearizable as one key/value store; so
    when no clerk is in the middle of an operation, the checker that the tests run
    accepts the recorded history. *)
From S2P Require Import Prelude Persister RaftNode RaftLocal RaftNet RaftSpec RaftRefine RaftSafety RaftCommands Notify Service Cluster KVServer KVProps Clerk Porcupine PorcProps PorcOps KvModel KvModelProps KVOrder KVCluster KVInv.
From stdpp Require Import functions relations.
Import KVServer Cluster KVCluster.
#[local] Open Scope Z_scope.

(** ** First positions *)

Lemma first_at (l : list Op) op :
  op ∈ l -> exists q, l !! q = Some op /\ op ∉ take q l.
Proof.
  intros (l1 & l2 & -> & Hn)%list_elem_of_split_l. exists (length l1).
  by rewrite list_lookup_middle, take_app_length.
Qed.

Lemma first_le (l : list Op) op q q' :
  op ∉ take q l -> l !! q' = Some op -> (q <= q')%nat.
Proof.
  intros Hn Hq. destruct (decide (q <= q')%nat); [done|]. exfalso. apply Hn.
  apply (list_elem_of_lookup_2 _ q'). rewrite lookup_take_lt by lia. done.
Qed.

Section lin.
Context `{!Codec (RaftPersist Op), !CodecLaws (RaftPersist Op)}.
Variable n : nat.
Implicit Types (kv : KV) (s : Abs Op) (P G : list Op).

(** An operation in flight, as if it returned now. *)
Definition completed (t : Z) (p : Op * Z) : KvOperation := kvOperation p.1 p.2 EmptyString t.

(** ** The log of a history *)

(** [G] contains the prefix of every answer and nothing but called operations. *)
Record log_of kv G : Prop := {
  lo_called : G ⊆ (called kv).*1;
  lo_prefix x : x ∈ history kv -> exists P, (P ++ [x.1]) `prefix_of` G /\ return_of kv x P;
}.

(** The longest of the prefixes of the answers. *)
Lemma longest_prefix kv s (l : list (Op * KvOperation)) :
  abs_inv n s -> (forall x, x ∈ l -> returned n kv s x) ->
  exists G, prefix_ok n s G /\ G ⊆ (called kv).*1 /\
    forall x, x ∈ l -> exists P, (P ++ [x.1]) `prefix_of` G /\ return_of kv x P.
Proof.
  intros Hinv. induction l as [|x l IH]; intros Hl.
  { exists []. split; [apply prefix_ok_nil|].
    by split; [apply list_subseteq_nil|intros ? ?%not_elem_of_nil]. }
  destruct IH as (G & HG & HC & HP); [intros y Hy; apply Hl; by right|].
  destruct (Hl x) as (P & HPx & Hret); [by left|].
  assert (P ++ [x.1] ⊆ (called kv).*1) as HPC.
  { destruct Hret as (t & v & ret & Cl & [_ _ [l' ->] _ Hs _ _ _]).
    rewrite fmap_app. intros y Hy. apply elem_of_app. right. by apply Hs. }
  destruct (decide (length (P ++ [x.1]) <= length G)%nat) as [Hle|Hle].
  - exists G. split_and!; [done|done|]. intros y [->|Hy]%elem_of_cons; [|by apply HP].
    exists P. split; [by eapply prefix_ok_agree|done].
  - exists (P ++ [x.1]). split_and!; [done|done|]. intros y [->|Hy]%elem_of_cons; [by exists P|].
    destruct (HP y Hy) as (P' & Hpre & ?). exists P'. split; [|done]. etrans; [exact Hpre|].
    eapply prefix_ok_agree; try done. lia.
Qed.

Lemma kv_log kv s : kv_inv n kv s -> exists G, log_of kv G.
Proof.
  intros Hinv. destruct (longest_prefix kv s (history kv)) as (G & _ & HC & HP).
  - apply (sr_abs _ _ _ (si_rel _ _ _ _ (ki_sys _ _ _ Hinv))).
  - apply (ki_history _ _ _ Hinv).
  - by exists G.
Qed.

Section log.
Context (kv : KV) (s : Abs Op) (G : list Op).
Hypotheses (Hinv : kv_inv n kv s) (HG : log_of kv G).

(** In [G] an operation is repeated by itself only. *)
Lemma seenIn_first q op :
  op ∈ (called kv).*1 -> isWrite op = true ->
  seenIn (take q G) op = false <-> op ∉ take q G.
Proof using Hinv HG.
  intros Hop Hw. rewrite <- not_true_iff_false, seenIn_spec. split.
  - intros Hn Hin. apply Hn. by exists op.
  - intros Hn (o & Ho & _ & Hc & Hs). apply Hn. assert (o = op) as ->; [|done].
    eapply called_inj; [done| |done|unfold op_id; congruence].
    apply (lo_called _ _ HG). by eapply subseteq_take.
Qed.

(** What [G] holds before the first occurrence of an answered operation. *)
Lemma first_before q (x : Op * KvOperation) P o :
  G !! q = Some x.1 -> x.1 ∉ take q G -> (P ++ [x.1]) `prefix_of` G -> o ∈ take q G ->
  o ∈ P ++ [x.1].
Proof using.
  intros Hq Hn [rest E] Ho. apply elem_of_app. left.
  assert (q <= length P)%nat as Hle.
  { apply (first_le G x.1); [done|]. rewrite E, <- (assoc_L (++)). by apply list_lookup_middle. }
  rewrite E, <- (assoc_L (++)), take_app_le in Ho by done. by eapply subseteq_take.
Qed.

Lemma log_order : clerk_order G.
Proof using Hinv HG.
  intros pre op post E Hw Hs o Ho _ Hc. pose proof (lo_called _ _ HG) as HC.
  assert (take (length pre) G = pre) as Ep by (by rewrite E, take_app_length).
  assert (G !! length pre = Some op) as Hq by (rewrite E; by apply list_lookup_middle).
  assert (op ∈ (called kv).*1) as Hop by (by eapply HC, list_elem_of_lookup_2).
  assert (o ∈ (called kv).*1) as Hoc by (apply HC; rewrite E; apply elem_of_app; by left).
  rewrite <- Ep, (seenIn_first (length pre) op Hop Hw) in Hs. rewrite <- Ep in Ho.
  assert (SeqId o <> SeqId op) as Hne.
  { intros Es. apply Hs. assert (o = op) as <-; [|done].
    eapply called_inj; [done..|]. unfold op_id. congruence. }
  assert (SeqId o <= SeqId op); [|lia].
  pose proof Hop as ([op' t] & E' & Hin)%list_elem_of_fmap. cbn in E'. subst op'.
  destruct (ki_called _ _ _ Hinv _ _ Hin) as (_ & _ & [Hcur|Hh]).
  - destruct (so_cur _ _ (ki_session _ _ _ Hinv _) _ _ Hcur) as (_ & _ & -> & _).
    apply list_elem_of_fmap in Hoc as ([o' to] & -> & Hto).
    by apply (so_seq _ _ (ki_session _ _ _ Hinv _) _ _ Hto).
  - apply list_elem_of_fmap in Hh as (x & -> & Hx).
    destruct (lo_prefix _ _ HG x Hx) as (P & Hpre & t' & v & ret & Cl & Hr).
    assert (o ∈ Cl.*1) as Ho' by (eapply (rt_sub _ _ _ _ _ _ _ Hr), first_before; done).
    apply list_elem_of_fmap in Ho' as ([o' to] & -> & Hto). by eapply (rt_last _ _ _ _ _ _ _ Hr).
Qed.

(** ** The items *)

(** The writes in flight that a server may have executed. *)
Definition pending : list (Op * Z) :=
  filter (fun p => isWrite p.1 = true /\ p.1 ∈ G /\ p.1 ∉ (history kv).*1) (called kv).

(** The place of an operation that returned is not behind the prefix of its answer. *)
Record placed (it : Item) : Prop := {
  pl_ok : item_ok G it;
  pl_first : isWrite (it_op it) = true -> it_op it ∉ take (it_place it) G;
  pl_call : (it_op it, Porcupine.Call (it_rec it)) ∈ called kv;
  pl_return : Porcupine.Return (it_rec it) = now kv \/
    exists x P ret Cl t v, (P ++ [x.1]) `prefix_of` G /\ return_ok kv x P t v ret Cl /\
      Porcupine.Return (it_rec it) = ret /\ (it_place it <= length P)%nat;
}.

Lemma write_placed op t v ret :
  (op, t) ∈ called kv -> isWrite op = true -> op ∈ G ->
  exists q, item_ok G {| it_op := op; it_rec := kvOperation op t v ret; it_place := q |} /\
    op ∉ take q G /\ G !! q = Some op.
Proof using Hinv HG.
  intros Hin Hw (q & Hq & Hn)%first_at. exists q. split_and!; [|done|done].
  split; [done|]. split; [by apply (ki_called _ _ _ Hinv _ _ Hin)|]. exists t, v, ret. cbn.
  split; [done|]. rewrite Hw. apply seenIn_first; try done.
  by apply (list_elem_of_fmap_2 fst _ (op, t)).
Qed.

Lemma history_item x :
  x ∈ history kv -> exists it, placed it /\ it_op it = x.1 /\ it_rec it = x.2.
Proof using Hinv HG.
  intros Hx. destruct (lo_prefix _ _ HG x Hx) as (P & Hpre & t & v & ret & Cl & Hr).
  pose proof Hr as [Erec Hnow Hpast Hcall Hsub Hbef Hlast Hval].
  assert ((x.1, t) ∈ called kv) as Hin by (destruct Hpast as [l ->]; apply elem_of_app; by right).
  assert (G !! length P = Some x.1) as Hlast'
    by (destruct Hpre as [rest ->]; rewrite <- (assoc_L (++)); by apply list_lookup_middle).
  assert (take (length P) G = P) as EP
    by (destruct Hpre as [rest ->]; by rewrite <- (assoc_L (++)), take_app_length).
  destruct (isWrite x.1) eqn:Hw.
  - destruct (write_placed x.1 t v ret Hin Hw) as (q & Hok & Hn & Hq);
      [by eapply list_elem_of_lookup_2|].
    exists {| it_op := x.1; it_rec := kvOperation x.1 t v ret; it_place := q |}.
    split; [|by rewrite Erec]. split; cbn; try done. right. exists x, P, ret, Cl, t, v.
    split_and!; try done. by eapply first_le.
  - exists {| it_op := x.1; it_rec := kvOperation x.1 t v ret; it_place := length P |}.
    split; [|by rewrite Erec]. split; cbn; [|by rewrite Hw|done|].
    + split; [done|]. split; [by apply (ki_called _ _ _ Hinv _ _ Hin)|]. exists t, v, ret. cbn.
      split; [done|]. rewrite Hw, EP. apply Hval. unfold isWrite in Hw. by apply negb_false_iff in Hw.
    + right. exists x, P, ret, Cl, t, v. by split_and!.
Qed.

Lemma pending_item p :
  p ∈ pending -> exists it, placed it /\ it_op it = p.1 /\ it_rec it = completed (now kv) p.
Proof using Hinv HG.
  intros [(Hw & Hg & _) Hin]%list_elem_of_filter. destruct p as [op t]. cbn in *.
  destruct (write_placed op t EmptyString (now kv) Hin Hw Hg) as (q & Hok & Hn & Hq).
  exists {| it_op := op; it_rec := kvOperation op t EmptyString (now kv); it_place := q |}.
  split; [|done]. split; cbn; try done. by left.
Qed.

(** Real time: what was called after [y] returned is behind it. *)
Lemma placed_time x y :
  placed x -> placed y -> Porcupine.Return (it_rec y) < Porcupine.Call (it_rec x) ->
  (it_place y < it_place x)%nat.
Proof using Hinv HG.
  intros [[Gx _] _ Cx _] [_ _ _ Ry] Hlt.
  destruct (ki_called _ _ _ Hinv _ _ Cx) as (_ & Hle & _).
  destruct Ry as [Ry|(z & P & ret & Cl & t & v & Hpre & Hr & Ry & Hpl)]; [lia|].
  destruct (decide (it_place y < it_place x)%nat) as [|Hge]; [done|exfalso].
  assert (it_op x ∈ Cl.*1) as Hc.
  { apply (rt_sub _ _ _ _ _ _ _ Hr). destruct Hpre as [rest ->].
    apply (list_elem_of_lookup_2 _ (it_place x)). rewrite lookup_app_l in Gx; [done|].
    rewrite length_app. cbn. lia. }
  apply list_elem_of_fmap in Hc as ([o t'] & E & Ho). cbn in E. subst o.
  assert (t' = Porcupine.Call (it_rec x)) as ->.
  { eapply called_time; [done| |done]. destruct (rt_past _ _ _ _ _ _ _ Hr) as [l ->].
    apply elem_of_app. by right. }
  pose proof (rt_before _ _ _ _ _ _ _ Hr _ _ Ho). lia.
Qed.

Lemma pick {A B} (R : A -> B -> Prop) (l : list A) :
  (forall x, x ∈ l -> exists y, R x y) -> exists l', Forall2 R l l'.
Proof.
  induction l as [|x l IH]; intros H; [exists []; constructor|].
  destruct (H x) as [y Hy]; [by left|]. destruct IH as [l' Hl]; [intros z Hz; apply H; by right|].
  exists (y :: l'). by constructor.
Qed.

Lemma pending_called : NoDup ((history kv).*1 ++ pending.*1).
Proof using Hinv.
  apply NoDup_app. split; [apply (ki_once _ _ _ Hinv)|]. split.
  - intros op Hop (p & -> & [(_ & _ & Hn) _]%list_elem_of_filter)%list_elem_of_fmap. done.
  - eapply sublist_NoDup; [exact (NoDup_fmap_1 _ _ (ki_unique _ _ _ Hinv))|].
    apply fmap_sublist, sublist_filter.
Qed.

Lemma log_items : exists items, Forall placed items /\
  it_op <$> items = (history kv).*1 ++ pending.*1 /\
  it_rec <$> items = (history kv).*2 ++ (completed (now kv) <$> pending).
Proof using Hinv HG.
  destruct (pick _ _ history_item) as [hs Hh]. destruct (pick _ _ pending_item) as [ps Hp].
  exists (hs ++ ps). rewrite !fmap_app.
  assert (forall (A : Type) (l : list A) its f g,
    Forall2 (fun x it => placed it /\ it_op it = f x /\ it_rec it = g x) l its ->
    Forall placed its /\ it_op <$> its = f <$> l /\ it_rec <$> its = g <$> l) as Hm.
  { induction 1 as [|x it l its (? & E1 & E2) _ (IH1 & IH2 & IH3)]; [done|].
    cbn. rewrite E1, E2, IH2, IH3. by split_and!; [constructor|..]. }
  destruct (Hm _ _ _ fst snd Hh) as (? & -> & ->).
  destruct (Hm _ _ _ fst (completed (now kv)) Hp) as (? & -> & ->).
  split_and!; [by apply Forall_app|done|done].
Qed.

Lemma log_linearizable :
  ops_linearizable mapStep ∅ ((history kv).*2 ++ (completed (now kv) <$> pending)).
Proof using Hinv HG.
  destruct log_items as (items & Hall & Hops & <-). rewrite Forall_forall in Hall.
  apply items_linearizable with G.
  - apply log_order.
  - intros x Hx. by apply Hall.
  - rewrite Hops. apply pending_called.
  - intros q op Hq Hw Hs.
    assert (op ∈ (called kv).*1) as Hop by (by eapply (lo_called _ _ HG), list_elem_of_lookup_2).
    rewrite (seenIn_first q op Hop Hw) in Hs.
    assert (op ∈ it_op <$> items) as ([o r pl] & -> & Hx)%list_elem_of_fmap.
    { rewrite Hops. apply elem_of_app. destruct (decide (op ∈ (history kv).*1)); [by left|right].
      apply list_elem_of_fmap in Hop as ([op' t] & -> & Hin).
      apply (list_elem_of_fmap_2 fst _ (op', t)), list_elem_of_filter. cbn in *.
      split_and!; try done. by eapply list_elem_of_lookup_2. }
    cbn in *. exists (Build_Item o r pl). split_and!; try done. cbn.
    destruct (Hall _ Hx) as [[Hg _] Hf _ _]. cbn in *. specialize (Hf Hw).
    pose proof (first_le _ _ _ _ Hf Hq). pose proof (first_le _ _ _ _ Hs Hg). lia.
  - intros x y Hx Hy. apply placed_time; by apply Hall.
Qed.
End log.

(** C2: kvraft is linearizable, without snapshots (maxraftstate -1) and for clerks with
    distinct identities (which [genClientId] draws).  In every state that clerks, servers
    and Raft peers can reach - messages and replies lost, delayed and duplicated, servers
    crashed and restarted - the operations that returned are linearizable as one key/value
    store, together with some of the writes that clerks are still calling. *)
Theorem kv_linearizable kv :
  kv_reachable n kv -> exists pend,
    (forall op t, (op, t) ∈ pend -> se_cur (sessions kv (ClientId op)) = Some (op, t)) /\
    NoDup pend /\
    ops_linearizable mapStep ∅ ((history kv).*2 ++ (completed (now kv) <$> pend)).
Proof.
  intros (s & Hinv)%kv_reachable_inv. destruct (kv_log kv s Hinv) as (G & HG).
  exists (pending kv G). split_and!; [| |by eapply log_linearizable].
  2: { pose proof (pending_called kv s G Hinv) as (_ & _ & Hn)%NoDup_app. by eapply NoDup_fmap_1. }
  intros op t [(_ & _ & Hn) Hin]%list_elem_of_filter.
  destruct (ki_called _ _ _ Hinv _ _ Hin) as (_ & _ & [?|?]); done.
Qed.

Lemma history_timely kv s : kv_inv n kv s -> timely (history kv).*2.
Proof.
  intros Hinv. apply Forall_fmap, Forall_forall. intros x Hx.
  destruct (ki_history _ _ _ Hinv _ Hx) as (P & _ & t & v & ret & Cl & [Er _ _ Hc _ Hb _ _]).
  unfold compose. rewrite Er. by eapply Hb.
Qed.

(** C9: the test's own check passes.  When the clerks (with distinct identities) of a run
    of kvraft without snapshots have finished, the check that the tests make of its
    history, [CheckOperationsVerbose] with a timeout, terminates and does not find it
    [Illegal]; and it answers [Ok] if the timeout does not fire. *)
Theorem kv_history_checked `{!Porcupine.EntrySort KvModel.KvInput KvModel.KvOutput} `{!Porcupine.EntrySortLaws KvModel.KvInput KvModel.KvOutput} kv order kills :
  kv_reachable n kv -> (forall c, se_cur (sessions kv c) = None) ->
  arrivals (Porcupine.makeEntries <$> KvModel.Partition (history kv).*2) order ->
  exists N res info, (forall fuel, (N <= fuel)%nat ->
    Porcupine.CheckOperationsVerbose fuel KvModel.KvModel (history kv).*2 order kills = Some (res, info)) /\
    res <> Porcupine.Illegal /\ (None ∉ order -> res = Porcupine.Ok).
Proof.
  intros (s & Hinv)%kv_reachable_inv Hidle Hord.
  destruct (kv_log kv s Hinv) as (G & HG). pose proof (log_linearizable kv s G Hinv HG) as Hlin.
  pose proof (history_timely _ _ Hinv) as Ht.
  assert (pending kv G = []) as Hp.
  { apply elem_of_nil_inv. intros [op t] [(_ & _ & Hn) Hin]%list_elem_of_filter.
    destruct (ki_called _ _ _ Hinv _ _ Hin) as (_ & _ & [Hc|?]); [|done]. by rewrite Hidle in Hc. }
  rewrite Hp, app_nil_r in Hlin.
  apply (check_verbose_passes KvModel.KvModel kv_equal_ok); [by apply Partition_timely|done|].
  by apply store_local.
Qed.
End lin.

(** ** A concrete run: a clerk puts a value *)
Module KVDemo.
Import KVProps.Concrete KVCluster.

Definition ck0 : Clerk.Clerk := Clerk.MakeClerk 3 1.
Definition ck1 : Clerk.Clerk := (Clerk.nextSeq ck0).2.
Definition put : Op := request ck1 (MPut "x" "1").
Definition answer : applyResult := result OK EmptyString put.

Definition kv0 : KV :=
  {| sys := Build_Sys Run.net0 (fun _ => fresh); waits _ := Notify.init;
     sessions c := {| se_ck := Clerk.MakeClerk 3 c; se_cur := None |};
     called := []; replies := []; now := 0; history := [] |}.
(** The clerk calls; peer 0 becomes the leader. *)
Definition kv1 : KV :=
  with_called (put, 0) (with_session 1 {| se_ck := ck1; se_cur := Some (put, 0) |} kv0).


(** The waiters of peer 0: the handler submits, registers and waits; the applier
    sends; the handler receives and cleans up. *)
Definition waiter (p : @Notify.Phase applyResult) : @Notify.Waiter (Z * Z) applyResult :=
  {| Notify.w_index := 1; Notify.w_id := op_id put; Notify.w_phase := p |}.
Definition w1 : Waits := Notify.with_waiter 0 (waiter Notify.Submitted)
  (Notify.makeChan 0 (Notify.nt Notify.init)) Notify.init.
Definition waiting : @Notify.t (Z * Z) applyResult :=
  default Notify.empty (Notify.register wrongLeader 1 (op_id put) 0 (Notify.nt w1)).
Definition w2 : Waits := Notify.with_waiter 0 (waiter Notify.Waiting) waiting w1.
Definition w3 : Waits :=
  {| Notify.nt := waiting; Notify.waiters := Notify.waiters w2;
     Notify.pending := Some (0%nat, answer); Notify.applied := [(1, answer)] |}.
Definition sent : @Notify.t (Z * Z) applyResult := default Notify.empty (Notify.send 0 answer waiting).
Definition w4 : Waits :=
  {| Notify.nt := sent; Notify.waiters := Notify.waiters w2; Notify.pending := None;
     Notify.applied := [(1, answer)] |}.
Definition received : @Notify.t (Z * Z) applyResult := default Notify.empty (snd <$> Notify.receive 0 sent).
Definition w5 : Waits :=
  Notify.with_waiter 0 (waiter (Notify.Cleaning (Notify.Result answer))) received w4.
Definition w6 : Waits :=
  Notify.with_waiter 0 (waiter (Notify.Done (Notify.Result answer)))
    (Notify.cleanup 1 (op_id put) received) w5.

Definition reach (kv : KV) : Prop := kv_reachable 3 kv.

Lemma reach_step kv kv' : reach kv -> kv_step 3 kv kv' -> reach kv'.
Proof. intros (kv_0 & ? & ?) ?. exists kv_0. split; [done|]. by eapply rtc_r. Qed.

(** The state [base] with the network [net], nothing applied yet. *)
Definition reach_net (net : Net Op) (base : KV) : Prop :=
  exists apps, (forall i, apps i = fresh) /\ reach (with_sys (Build_Sys net apps) base).

Lemma fires_event i src ev net net' (apps : Z -> App Store) :
  Run.fires i src ev net net' ->
  raft_event 3 (Build_Sys net apps) i src ev (nodes net' i) /\
  raft_effect (Build_Sys net apps) i src ev (nodes net' i) =
    Build_Sys net' (<[i := next_pos ev (apps i)]> apps).
Proof.
  intros [? ? ? ? Hd Hn]. split.
  - split; try done. intros b E. by apply Hd in E.
  - unfold raft_effect. cbn. by rewrite Hn.
Qed.

Lemma next_fresh (ev : Event Op) i (apps : Z -> App Store) :
  (forall j, apps j = fresh) -> forall j, <[i := next_pos ev (apps i)]> apps j = fresh.
Proof.
  intros Hf. apply (fn_insert_case (fun _ a => a = fresh)); [|auto]. rewrite Hf. by destruct ev.
Qed.

Lemma fires_reach i src ev net net' base :
  Run.fires i src ev net net' -> (forall cmd ret, ev <> EvStart cmd ret) ->
  reach_net net base -> reach_net net' base.
Proof.
  intros Hf Hs (apps & Ha & Hr). destruct (fires_event _ _ _ _ _ apps Hf) as [He E].
  exists (<[i := next_pos ev (apps i)]> apps). split; [by apply next_fresh|].
  eapply reach_step; [exact Hr|]. rewrite <- E.
  by apply (kv_raft 3 (with_sys (Build_Sys net apps) base)).
Qed.

(** A step that leaves Raft and the services alone. *)
Lemma reach_net_step net base base' :
  (forall apps, kv_step 3 (with_sys (Build_Sys net apps) base) (with_sys (Build_Sys net apps) base')) ->
  reach_net net base -> reach_net net base'.
Proof. intros Hs (apps & Ha & Hr). exists apps. split; [done|]. by eapply reach_step. Qed.

Lemma kv_reach3 : reach_net Run.net3 kv1.
Proof.
  apply (fires_reach _ _ _ _ _ _ Run.fire3); [done|].
  apply (fires_reach _ _ _ _ _ _ Run.fire2); [done|].
  apply (fires_reach _ _ _ _ _ _ Run.fire1); [done|].
  apply (reach_net_step _ kv0); [intros apps; by apply (kv_call 3 (with_sys (Build_Sys Run.net0 apps) kv0) 1 (MPut "x" "1"))|].
  exists (fun _ => fresh). split; [done|]. exists kv0. split; [|apply rtc_refl].
  split_and!; try done. split; [split; [done|by exists 0]|done].
Qed.

Definition kv2 : KV := with_wait 0 w1 kv1.
Definition kv3 : KV := with_wait 0 w2 kv2.

Lemma kv_reach4 : reach_net (Run.net4 put) kv2.
Proof.
  destruct kv_reach3 as (apps & Ha & Hr).
  destruct (fires_event _ _ _ _ _ apps (Run.fire4 put)) as [He E].
  exists (<[0 := next_pos (EvStart put (1, 1, true)) (apps 0)]> apps). split; [by apply next_fresh|].
  eapply reach_step; [exact Hr|]. rewrite <- E.
  apply (kv_submit 3 (with_sys (Build_Sys Run.net3 apps) kv1) 0 _ put 0 1 1 0%nat);
    [by left|exact He|done].
Qed.

Lemma kv_reach10 : reach_net (Run.net10 put) kv3.
Proof.
  apply (reach_net_step _ kv2).
  { intros apps. apply (kv_notify 3 (with_sys _ kv2) 0 w2); [lia| |done|by vm_compute].
    by apply (Notify.step_register _ _ w1 0%nat (waiter Notify.Submitted)). }
  apply (fires_reach _ _ _ _ _ _ (Run.fire10 put)); [done|].
  apply (fires_reach _ _ _ _ _ _ (Run.fire9 put)); [done|].
  apply (fires_reach _ _ _ _ _ _ (Run.fire8 put)); [done|].
  apply (fires_reach _ _ _ _ _ _ (Run.fire7 put)); [done|].
  apply (fires_reach _ _ _ _ _ _ (Run.fire6 put)); [done|].
  apply (fires_reach _ _ _ _ _ _ (Run.fire5 put)); [done|].
  exact kv_reach4.
Qed.

(** The applier of peer 0 executes the entry. *)
Definition kv4 (apps : Z -> App Store) : KV :=
  with_wait 0 w3 (with_sys (Build_Sys (Run.net10 put)
    (<[0 := Build_App (execute put emptyStore).1 1 1]> apps)) kv3).

Lemma reach_applied : exists apps, reach (kv4 apps).
Proof.
  destruct kv_reach10 as (apps & Ha & Hr). exists apps. eapply reach_step; [exact Hr|].
  pose proof (kv_deliver 3 (with_sys (Build_Sys (Run.net10 put) apps) kv3) 0
    (Run.took (nodes (Run.net10 put) 0)) (Run.sent put) put (execute put emptyStore).1 answer) as Hs.
  cbn -[Run.net10 execute] in Hs. rewrite Ha in Hs. apply Hs; [lia|vm_compute; reflexivity..].
Qed.

(** Ten ticks later the clerk has its reply. *)
Definition kv5 (apps : Z -> App Store) : KV :=
  with_now 10 (with_reply (op_id put, Notify.Result answer)
    (with_wait 0 w6 (with_wait 0 w5 (with_wait 0 w4 (kv4 apps))))).
Definition kv6 (apps : Z -> App Store) : KV :=
  with_history (put, kvOperation put 0 EmptyString 10)
    (with_session 1 {| se_ck := ck1; se_cur := None |} (kv5 apps)).

Lemma reach_returned : exists apps, reach (kv6 apps).
Proof.
  destruct reach_applied as (apps & Hr). exists apps.
  assert (reach (with_wait 0 w4 (kv4 apps))) as Hr4.
  { eapply reach_step; [exact Hr|]. apply (kv_notify 3 (kv4 apps) 0 w4); [lia| |done|by vm_compute].
    by apply (Notify.step_send res_id wrongLeader w3 0%nat answer sent). }
  assert (reach (with_wait 0 w5 (with_wait 0 w4 (kv4 apps)))) as Hr5.
  { eapply reach_step; [exact Hr4|]. apply kv_notify; [lia| |done|by vm_compute].
    assert (Notify.answer res_id (op_id put) answer = Notify.Result answer) as E by reflexivity.
    pose proof (Notify.step_receive res_id wrongLeader w4 0%nat (waiter Notify.Waiting) answer
      received eq_refl eq_refl eq_refl) as Hs. cbn [waiter Notify.w_id] in Hs. by rewrite E in Hs. }
  assert (reach (with_wait 0 w6 (with_wait 0 w5 (with_wait 0 w4 (kv4 apps))))) as Hr6.
  { eapply reach_step; [exact Hr5|]. apply kv_notify; [lia| |done|by vm_compute].
    by apply (Notify.step_cleanup res_id wrongLeader w5 0%nat (waiter (Notify.Cleaning (Notify.Result answer)))). }
  assert (reach (kv5 apps)) as Hr7.
  { eapply reach_step; [eapply reach_step; [exact Hr6|]|].
    - apply (kv_answer 3 _ 0 0%nat (waiter (Notify.Done (Notify.Result answer)))
        (Notify.Result answer)); [lia|vm_compute; reflexivity..].
    - by apply kv_tick. }
  eapply reach_step; [exact Hr7|].
  apply (kv_return 3 (kv5 apps) 1 put 0 (Notify.Result answer) EmptyString);
    [done|by left|vm_compute; reflexivity].
Qed.

Lemma idle apps c : se_cur (sessions (kv6 apps) c) = None.
Proof.
  change (sessions (kv6 apps)) with
    (<[1 := {| se_ck := ck1; se_cur := None |}]> (sessions kv1)).
  destruct (decide (c = 1)) as [->|Hc]; [by rewrite fn_lookup_insert|].
  rewrite fn_lookup_insert_ne by done. cbn -[ck1]. by rewrite fn_lookup_insert_ne.
Qed.
End KVDemo.

Lemma kv_linearizable_witness :
  exists kv, history kv = [(KVDemo.put, kvOperation KVDemo.put 0 EmptyString 10)] /\
  exists pend,
    (forall op t, (op, t) ∈ pend -> se_cur (sessions kv (ClientId op)) = Some (op, t)) /\
    NoDup pend /\
    ops_linearizable mapStep ∅ ((history kv).*2 ++ (completed (now kv) <$> pend)).
Proof.
  destruct KVDemo.reach_returned as (apps & Hr). exists (KVDemo.kv6 apps). split; [reflexivity|].
  exact (@kv_linearizable KVProps.Concrete.raft_codec KVProps.Concrete.raft_codec_laws 3 _ Hr).
Defined.

Lemma kv_history_checked_witness :
  exists kv, history kv = [(KVDemo.put, kvOperation KVDemo.put 0 EmptyString 10)] /\
  exists N res info, (forall fuel, (N <= fuel)%nat ->
    @Porcupine.CheckOperationsVerbose _ _ _ _ Porcupine.stableSort fuel KvModel.KvModel (history kv).*2
      [Some 0%nat] (fun _ => None) = Some (res, info)) /\
    res <> Porcupine.Illegal /\ (None ∉ [Some 0%nat] -> res = Porcupine.Ok).
Proof.
  destruct KVDemo.reach_returned as (apps & Hr). exists (KVDemo.kv6 apps). split; [reflexivity|].
  apply (@kv_history_checked KVProps.Concrete.raft_codec KVProps.Concrete.raft_codec_laws 3
    Porcupine.stableSort stableSort_laws (KVDemo.kv6 apps) [Some 0%nat] (fun _ => None) Hr).
  - apply KVDemo.idle.
  - exists [0%nat], []. split_and!; [done|apply NoDup_singleton| |by right].
    intros i ->%list_elem_of_singleton. vm_compute. constructor.
Defined.
