(* ===== verification/VisualProps.v ===== *)
(** * The visualization of what the checker reports

    [entries_shown]: after the loop over the entries every operation has its client,
    times and description.  [walk_ok]: the model takes every step of a linearization.
    [largest_ok]: the index recorded for an operation is that of the longest partial
    linearization with it. *)
From S2P Require Import Prelude Bitset Porcupine KvModel PorcLin PorcHeap PorcSearch PorcProps PorcOps KvModelProps Visualize.
Import Porcupine.
Import Visualize.

Section entries.
Context {I O : Type} (describe : I -> O -> string) (hist : list (entry I O)) (n : Z).
Context (W : wf_history hist n).
Notation values := (gmap Z (I + O)).

(** What the loop knows of operation [i] once its call [e] and its return [m] were
    seen. *)
Definition call_shown (history : list historyElement) (cv : values) (i : Z) (vi : I)
    (e : entry I O) : Prop :=
  cv !! i = Some (inl vi) /\ exists x, zget history i = Some x /\
    he_ClientId x = clientId e /\ he_Start x = time e.
Definition return_shown (history : list historyElement) (rv : values) (i : Z) (vi : I) (vo : O)
    (m : entry I O) : Prop :=
  rv !! i = Some (inr vo) /\ exists x, zget history i = Some x /\
    he_End x = time m /\ he_Description x = describe vi vo.

Record shown (P : list (entry I O)) (history : list historyElement) (cv rv : values) : Prop := {
  sh_len : zlen history = n;
  sh_op i vi vo A B C e m : splits hist i vi vo A B C e m ->
    (e ∈ P -> call_shown history cv i vi e) /\ (m ∈ P -> return_shown history rv i vi vo m);
}.

(** The call of a return is before it. *)
Lemma call_before P m R i vi vo A B C e :
  splits hist i vi vo A B C e m -> hist = P ++ m :: R -> e ∈ P.
Proof.
  intros (-> & (Hk & Hi & _) & (Hkm & Him & _) & Hn) E.
  assert ((A ++ e :: B) ++ m :: C = P ++ m :: R) as E' by (by rewrite <- app_assoc).
  apply app_eq_inv in E' as [(k & E1 & E2)|(k & -> & _)]; [|set_solver].
  destruct k as [|x k]; [rewrite app_nil_r in E1; subst P; set_solver|]. exfalso.
  injection E2 as <- _. assert (m ∈ A ++ e :: B) as Hin by (rewrite E1; set_solver).
  rewrite elem_of_app, elem_of_cons in Hin. destruct Hin as [?|[->|?]]; [|congruence|];
    (apply (Hn m); [set_solver|done]).
Qed.

Lemma zget_zset_eq {A} (l l' : list A) i x : zset l i x = Some l' -> zget l' i = Some x.
Proof.
  intros [Hi ->]%zset_inv. rewrite zget_insert, decide_True; [done|]. unfold zlen in Hi. lia.
Qed.
Lemma zget_zset_ne {A} (l l' : list A) i j x : zset l i x = Some l' -> i <> j -> zget l' j = zget l j.
Proof. intros [Hi ->]%zset_inv Hne. rewrite zget_insert, decide_False; [done|]. lia. Qed.

Lemma addEntry_call P e R history cv rv :
  hist = P ++ e :: R -> kind e = false -> shown P history cv rv ->
  exists acc, addEntry describe (history, cv, rv) e = Some acc /\
    shown (P ++ [e]) acc.1.1 acc.1.2 acc.2.
Proof using W.
  intros E Hk [Hl Hs]. assert (e ∈ hist) as He by (rewrite E; set_solver).
  pose proof (wh_id _ _ W e He) as Hid. rewrite <- Hl in Hid.
  destruct (zget_in_range history _ Hid) as [x Hx]. unfold addEntry. rewrite Hx. cbn. rewrite Hk. cbn.
  destruct (zset history (id e) _) as [h'|] eqn:Hz; [|by rewrite zset_Some in Hz]. cbn.
  eexists. split; [done|]. cbn. split.
  { apply zset_inv in Hz as [_ ->]. by rewrite zlen_insert. }
  intros i vi vo A B C e' m Hsp. destruct (Hs _ _ _ _ _ _ _ _ Hsp) as [H1 H2].
  rewrite !elem_of_app, !list_elem_of_singleton. destruct (decide (i = id e)) as [->|Hne].
  - assert (e = e') as <- by (rewrite (splits_unique _ _ _ _ _ _ _ _ _ e Hsp He eq_refl); by rewrite Hk).
    split.
    + intros _. split; [rewrite lookup_insert_eq; f_equal; apply Hsp|].
      eexists. split; [by eapply zget_zset_eq|done].
    + intros [Hm|Hm]; [|destruct Hsp as (_ & _ & (? & _) & _); congruence].
      destruct (H2 Hm) as (Hr & y & Hy & Hy1 & Hy2). split; [done|].
      eexists. split; [by eapply zget_zset_eq|]. rewrite Hx in Hy. by injection Hy as ->.
  - pose proof Hsp as (_ & (_ & Hi & _) & (_ & Him & _) & _). split.
    + intros [He'|He']; [|congruence]. destruct (H1 He') as (Hr & y & Hy & Hy1). split.
      * by rewrite lookup_insert_ne by done.
      * exists y. by rewrite (zget_zset_ne _ _ _ _ _ Hz).
    + intros [Hm|Hm]; [|congruence]. destruct (H2 Hm) as (Hr & y & Hy & Hy1). split; [done|].
      exists y. by rewrite (zget_zset_ne _ _ _ _ _ Hz).
Qed.

Lemma addEntry_return P m R history cv rv :
  hist = P ++ m :: R -> kind m = true -> shown P history cv rv ->
  exists acc, addEntry describe (history, cv, rv) m = Some acc /\
    shown (P ++ [m]) acc.1.1 acc.1.2 acc.2.
Proof using W.
  intros E Hk [Hl Hs]. assert (m ∈ hist) as Hm by (rewrite E; set_solver).
  pose proof (wh_id _ _ W m Hm) as Hid.
  destruct (wh_op _ _ W _ Hid) as (vi & vo & A & B & C & e & m' & Hsp).
  assert (m = m') as <- by (rewrite (splits_unique _ _ _ _ _ _ _ _ _ m Hsp Hm eq_refl); by rewrite Hk).
  pose proof (call_before _ _ _ _ _ _ _ _ _ _ Hsp E) as HeP.
  destruct (Hs _ _ _ _ _ _ _ _ Hsp) as [H1 _]. destruct (H1 HeP) as (Hcv & x & Hx & Hx1 & Hx2).
  unfold addEntry. rewrite Hx. cbn. rewrite Hk. cbn. rewrite Hcv.
  pose proof Hsp as (_ & _ & (_ & _ & Hv) & _). rewrite Hv. rewrite <- Hl in Hid.
  destruct (zset history (id m) _) as [h'|] eqn:Hz; [|by rewrite zset_Some in Hz]. cbn.
  eexists. split; [done|]. cbn. split.
  { apply zset_inv in Hz as [_ ->]. by rewrite zlen_insert. }
  intros i vi' vo' A' B' C' e' m' Hsp'. destruct (Hs _ _ _ _ _ _ _ _ Hsp') as [G1 G2].
  rewrite !elem_of_app, !list_elem_of_singleton. destruct (decide (i = id m)) as [->|Hne].
  - assert (m = m') as <- by (rewrite (splits_unique _ _ _ _ _ _ _ _ _ m Hsp' Hm eq_refl); by rewrite Hk).
    split.
    + intros [He|He]; [|destruct Hsp' as (_ & (? & _) & _); congruence].
      destruct (G1 He) as (Hr & y & Hy & Hy1 & Hy2). split; [done|].
      eexists. split; [by eapply zget_zset_eq|]. rewrite Hx in Hy. by injection Hy as ->.
    + intros _. pose proof Hsp' as (_ & _ & (_ & _ & Hv') & _). rewrite Hv in Hv'.
      injection Hv' as <-. split; [by rewrite lookup_insert_eq|].
      destruct (G1 (call_before _ _ _ _ _ _ _ _ _ _ Hsp' E)) as (Hcv' & _).
      rewrite Hcv in Hcv'. injection Hcv' as <-. eexists. split; [by eapply zget_zset_eq|done].
  - pose proof Hsp' as (_ & (_ & Hi & _) & (_ & Him & _) & _). split.
    + intros [He'|He']; [|congruence]. destruct (G1 He') as (Hr & y & Hy & Hy1). split; [done|].
      exists y. by rewrite (zget_zset_ne _ _ _ _ _ Hz).
    + intros [Hm'|Hm']; [|congruence]. destruct (G2 Hm') as (Hr & y & Hy & Hy1). split.
      * by rewrite lookup_insert_ne by done.
      * exists y. by rewrite (zget_zset_ne _ _ _ _ _ Hz).
Qed.

Lemma addEntries_shown P R history cv rv :
  hist = P ++ R -> shown P history cv rv ->
  exists acc, addEntries describe (history, cv, rv) R = Some acc /\ shown hist acc.1.1 acc.1.2 acc.2.
Proof using W.
  revert P history cv rv. induction R as [|x R IH]; intros P history cv rv E HS.
  { rewrite app_nil_r in E. subst P. by eexists. }
  assert (exists acc, addEntry describe (history, cv, rv) x = Some acc /\
    shown (P ++ [x]) acc.1.1 acc.1.2 acc.2) as ([[h' cv'] rv'] & Hadd & HS').
  { destruct (kind x) eqn:Hk; [by eapply addEntry_return|by eapply addEntry_call]. }
  cbn [addEntries]. rewrite Hadd. cbn [mbind option_bind]. cbn in HS'. eapply IH; [|exact HS'].
  by rewrite <- app_assoc.
Qed.

Lemma shown_start x : 0 <= n -> shown [] (replicate (Z.to_nat n) x) ∅ ∅.
Proof.
  intros Hn. split; [unfold zlen; rewrite length_replicate; lia|].
  intros. split; intros Hin; inv Hin.
Qed.
End entries.

(** ** The partial linearizations *)
Section partials.
Context {I O St : Type} (model : @FullModel I O St).
Context (describe : I -> O -> string) (describeState : St -> string).
Context (hist : list (entry I O)) (n : Z) (W : wf_history hist n).
Context (history : list historyElement) (cv rv : gmap Z (I + O)).
Context (HS : shown describe hist n hist history cv rv).

Lemma shown_values i vi vo : isOp hist i vi vo -> cv !! i = Some (inl vi) /\ rv !! i = Some (inr vo).
Proof using W HS.
  intros [(e & He & Hke & Hi & Hv) (m & Hm & Hkm & Him & Hvm)].
  pose proof (wh_id _ _ W e He) as Hr. rewrite Hi in Hr.
  destruct (wh_op _ _ W i Hr) as (vi' & vo' & A & B & C & e' & m' & Hsp).
  pose proof (splits_unique _ _ _ _ _ _ _ _ _ e Hsp He Hi) as E1. rewrite Hke in E1.
  pose proof (splits_unique _ _ _ _ _ _ _ _ _ m Hsp Hm Him) as E2. rewrite Hkm in E2. subst e' m'.
  destruct (sh_op _ _ _ _ _ _ _ HS _ _ _ _ _ _ _ _ Hsp) as [H1 H2].
  destruct (H1 He) as [H3 _], (H2 Hm) as [H4 _].
  destruct Hsp as (_ & (_ & _ & Hv') & (_ & _ & Hvm') & _). rewrite H3, H4. split; congruence.
Qed.

(** What one walk does to the two maps. *)
Definition walked (i len : Z) (p : list Z) (sz ix sz' ix' : gmap Z Z) : Prop :=
  forall q,
    (q ∈ p -> default 0 (sz !! q) < len -> sz' !! q = Some len /\ ix' !! q = Some i) /\
    (q ∉ p \/ len <= default 0 (sz !! q) -> sz' !! q = sz !! q /\ ix' !! q = ix !! q).

Lemma walked_cons i len x p sz ix sz' ix' :
  let upd := default 0 (sz !! x) <? len in
  walked i len p (if upd then <[x := len]> sz else sz) (if upd then <[x := i]> ix else ix) sz' ix' ->
  walked i len (x :: p) sz ix sz' ix'.
Proof.
  intros upd HW q. destruct (HW q) as [H1 H2]. clear HW. unfold upd in *. clear upd.
  rewrite !elem_of_cons.
  destruct (Z.ltb_spec (default 0 (sz !! x)) len) as [Hlt|Hge].
  - destruct (decide (x = q)) as [->|Hne].
    + rewrite !lookup_insert_eq in *. destruct H2 as [-> ->]; [right; cbn; lia|].
      split; [done|]. intros [Hn|?]; [naive_solver|lia].
    + rewrite !lookup_insert_ne in * by done.
      split; [intros [?|?] ?; [done|by apply H1]|]. intros [?|?]; apply H2; auto.
  - split; [intros [->|?] ?; [lia|by apply H1]|]. intros [?|?]; apply H2; auto.
Qed.

Lemma walk_ok i len p s s' sz ix :
  executes (f_Step model) hist s p s' ->
  exists steps sz' ix', walkPartial describeState model cv rv i len p s sz ix = Some (steps, sz', ix') /\
    Index <$> steps = p /\ walked i len p sz ix sz' ix'.
Proof using W HS.
  intros Hx. revert sz ix. induction Hx as [s|s j vi vo s1 p s2 Hop Hs _ IH]; intros sz ix; cbn.
  { eexists _, _, _. split; [done|]. split; [done|]. intros q. split; [|done]. intros Hq. inv Hq. }
  destruct (shown_values _ _ _ Hop) as [-> ->]. rewrite Hs. cbn.
  set (upd := default 0 (sz !! j) <? len).
  destruct (IH (if upd then <[j := len]> sz else sz) (if upd then <[j := i]> ix else ix))
    as (steps & sz' & ix' & Hw & Hi & HW).
  exists ({| Index := j; StateDescription := describeState s1 |} :: steps), sz', ix'.
  split; [|split; [cbn; by f_equal|by apply walked_cons]].
  destruct upd; cbn; rewrite Hw; done.
Qed.

(** The recorded index of an operation is that of a longest sequence with it. *)
Definition largest_ok (ps : list (list Z)) (sz ix : gmap Z Z) : Prop :=
  forall q, match sz !! q with
            | None => ix !! q = None /\ forall p, p ∈ ps -> q ∉ p
            | Some z => exists k p, ix !! q = Some k /\ zget ps k = Some p /\ q ∈ p /\ zlen p = z /\
                          forall p', p' ∈ ps -> q ∈ p' -> zlen p' <= z
            end.

Lemma largest_step D p sz ix sz' ix' :
  largest_ok D sz ix -> walked (zlen D) (zlen p) p sz ix sz' ix' -> largest_ok (D ++ [p]) sz' ix'.
Proof.
  intros HL HW q. specialize (HL q). destruct (HW q) as [H1 H2]. clear HW.
  assert (zget (D ++ [p]) (zlen D) = Some p) as Hp by (by rewrite zget_app_r, Z.sub_diag by lia).
  destruct (decide (q ∈ p /\ default 0 (sz !! q) < zlen p)) as [[Hq Hlt]|Hno].
  - destruct (H1 Hq Hlt) as [-> ->]. exists (zlen D), p. split_and!; try done.
    intros p' [Hp'|Hp']%elem_of_app Hq'; [|apply list_elem_of_singleton in Hp'; subst; lia].
    destruct (sz !! q) as [z|]; cbn in Hlt.
    + destruct HL as (k & p0 & _ & _ & _ & _ & Hm). specialize (Hm p' Hp' Hq'). lia.
    + destruct HL as [_ HL]. by apply HL in Hp'.
  - assert (q ∉ p \/ zlen p <= default 0 (sz !! q)) as Hor.
    { destruct (decide (q ∈ p)); [right|by left]. destruct (Z.le_gt_cases (zlen p) (default 0 (sz !! q))); [done|].
      exfalso. apply Hno. split; [done|lia]. }
    destruct (H2 Hor) as [-> ->]. destruct (sz !! q) as [z|]; cbn in *.
    + destruct HL as (k & p0 & Hk & Hz & Hin & Hl & Hm). exists k, p0. split_and!; try done.
      * pose proof (zget_Some_lt _ _ _ Hz). rewrite zget_app_l by lia. done.
      * intros p' [Hp'|Hp']%elem_of_app Hq'; [by apply Hm|]. apply list_elem_of_singleton in Hp'. subst p'.
        destruct Hor; [done|lia].
    + destruct HL as [Hi HL]. split; [done|]. intros p' [Hp'|Hp']%elem_of_app; [by apply HL|].
      apply list_elem_of_singleton in Hp'. subst p'. destruct Hor as [|Hle]; [done|].
      destruct p as [|x p]; [by intros Hin; inv Hin|]. rewrite zlen_cons in Hle.
      pose proof (zlen_nonneg p). lia.
Qed.

Lemma walks_ok partials D sz ix :
  (forall p, p ∈ partials -> exists s', executes (f_Step model) hist (f_Init model) p s') ->
  largest_ok D sz ix ->
  exists lins ix' sz', walkPartials describeState model cv rv (zlen D) partials sz ix = Some (lins, ix') /\
    map Index <$> lins = partials /\ largest_ok (D ++ partials) sz' ix'.
Proof using W HS.
  revert D sz ix. induction partials as [|p partials IH]; intros D sz ix Hx HL; cbn.
  { exists [], ix, sz. by rewrite app_nil_r. }
  destruct (Hx p) as [s' Hp]; [constructor|].
  destruct (walk_ok (zlen D) (zlen p) p _ _ sz ix Hp) as (steps & sz1 & ix1 & -> & Hi & HW). cbn.
  pose proof (largest_step _ _ _ _ _ _ HL HW) as HL1.
  destruct (IH (D ++ [p]) sz1 ix1) as (lins & ix' & sz' & Hw & Hl & HL2); [|done|].
  { intros q Hq. apply Hx. by constructor. }
  assert (zlen (D ++ [p]) = zlen D + 1) as El by (rewrite zlen_app, zlen_cons; done).
  rewrite El in Hw. rewrite Hw. cbn. exists (steps :: lins), ix', sz'. split_and!; [done| |].
  - cbn. f_equal; [exact Hi|exact Hl].
  - by rewrite <- app_assoc in HL2.
Qed.
End partials.

(** ** The data of a check *)
Section data.
Context {I O St : Type} `{EqDecision St} `{!PartialSort} `{!PartialSortLaws}.
Context (describe : I -> O -> string) (describeState : St -> string).

(** What the data of a partition shows: every operation with its client, times and
    description; the partial linearizations, the longest first; for an operation the
    index of a longest one it is in. *)
Record data_ok (hist : list (entry I O)) (partials : list (list Z))
    (d : partitionVisualizationData) : Prop := {
  do_history i vi vo A B C e m : splits hist i vi vo A B C e m ->
    zget (History d) i = Some {| he_ClientId := clientId e; he_Start := time e; he_End := time m;
                                 he_Description := describe vi vo |};
  do_partials : map Index <$> PartialLinearizations d = sortPartials partials;
  do_largest q k : Largest d !! q = Some k ->
    exists p, zget (sortPartials partials) k = Some p /\ q ∈ p /\
      forall p', p' ∈ partials -> q ∈ p' -> zlen p' <= zlen p;
  do_largest_all q p : p ∈ partials -> q ∈ p -> is_Some (Largest d !! q);
}.

Lemma visualizePartition_ok (model : @FullModel I O St) hist partials :
  complete hist ->
  (forall q, q ∈ partials -> exists s, linearizes (f_Step model) (f_Init model) hist q s) ->
  exists d, visualizePartition describe describeState model hist partials = Some d /\
    data_ok hist partials d.
Proof.
  intros W Hl. unfold visualizePartition.
  set (zero := {| he_ClientId := 0; he_Start := 0; he_End := 0; he_Description := "" |}).
  destruct (addEntries_shown describe hist _ W [] hist (replicate (Z.to_nat (zlen hist / 2)) zero) ∅ ∅ eq_refl)
    as ([[history cv] rv] & Hadd & HS); [apply shown_start, (wh_n _ _ W)|].
  rewrite Hadd. cbn [mbind option_bind].
  destruct (walks_ok model describe describeState hist _ W history cv rv HS (sortPartials partials) [] ∅ ∅)
    as (lins & ix & sz & Hw & Hi & HL).
  - intros p Hp. rewrite sortPartials_perm in Hp. destruct (Hl p Hp) as [s Hs].
    exists s. apply (lz_run _ _ _ _ _ Hs).
  - intros q. rewrite lookup_empty. split; [done|]. intros p Hp. inv Hp.
  - rewrite zlen_nil in Hw. rewrite Hw. cbn. eexists. split; [done|]. cbn in HL. split; cbn.
    + intros i vi vo A B C e m Hsp. destruct (sh_op _ _ _ _ _ _ _ HS _ _ _ _ _ _ _ _ Hsp) as [H1 H2].
      destruct Hsp as (E & _). destruct H1 as (_ & x & Hx & Hx1 & Hx2); [rewrite E; set_solver|].
      destruct H2 as (_ & y & Hy & Hy1 & Hy2); [rewrite E; set_solver|].
      cbn in *. rewrite Hx in Hy. injection Hy as <-. rewrite Hx. destruct x; cbn in *. by subst.
    + done.
    + intros q k Hk. specialize (HL q). destruct (sz !! q) as [z|]; [|destruct HL; congruence].
      destruct HL as (k' & p & Hk' & Hz & Hq & <- & Hm). rewrite Hk in Hk'. injection Hk' as <-.
      exists p. split_and!; [done|done|]. intros p' Hp'. apply Hm. by rewrite sortPartials_perm.
    + intros q p Hp Hq. specialize (HL q). destruct (sz !! q) as [z|].
      * destruct HL as (k & _ & -> & _). eauto.
      * destruct HL as [_ HL]. exfalso. apply (HL p); [by rewrite sortPartials_perm|done].
Qed.

End data.

#[export] Instance longest_first_trans : Transitive (fun p q : list Z => zlen q <= zlen p).
Proof. intros p q r. lia. Qed.
#[export] Instance longest_first_total : Total (fun p q : list Z => zlen q <= zlen p).
Proof. intros p q. lia. Qed.
#[export] Instance longest_first_dec : RelDecision (fun p q : list Z => zlen q <= zlen p).
Proof. intros p q. apply _. Defined.

(** A stable sort is one of them. *)
Definition stablePartialSort : PartialSort := merge_sort (fun p q => zlen q <= zlen p).
Lemma stablePartialSort_laws : @PartialSortLaws stablePartialSort.
Proof.
  split; intros l; unfold sortPartials, stablePartialSort.
  - apply merge_sort_Permutation.
  - apply (StronglySorted_merge_sort _).
Qed.

