(* ===== verification/LabGob.v ===== *)
(** * Checked encoding (src/src/labgob/labgob.go)

    labgob wraps encoding/gob.  Before it encodes or decodes it walks the type of the
    value ([checkType], each type once) and warns about fields that gob drops; before
    it decodes it walks the target ([checkDefault]) and warns about values that gob
    may not overwrite.  A [reflect.Type] is an index into the program's types, a
    pointer an address in memory; both may be cyclic.  gob's own encoding is a
    parameter. *)
From S2P Require Import Prelude Persister ClientId MrApps.
#[local] Open Scope Z_scope.

Module LabGob.
Import MrApps.

(** ** reflect *)

Inductive Kind :=
  | KBool | KInt | KInt8 | KInt16 | KInt32 | KInt64
  | KUint | KUint8 | KUint16 | KUint32 | KUint64 | KUintptr | KFloat32 | KFloat64 | KString
  | KStruct | KSlice | KArray | KPtr | KMap
  | KComplex64 | KComplex128 | KChan | KFunc | KInterface | KUnsafePointer.

Definition Typ : Type := nat.
Definition Addr : Type := nat.

Record Field := { f_Name : string; f_Type : Typ; f_Embedded : bool }.

Record TypeDesc := {
  t_Name : string;
  t_Kind : Kind;
  t_Fields : list Field;
  t_Elem : Typ;
  t_Key : Typ;
}.

(** The data of a value of a basic kind; a float by the bits of its [float64]. *)
Inductive BasicVal :=
  | BBool (b : bool)
  | BInt (z : Z)
  | BFloat (bits : Z)
  | BString (s : string).

(** The data of a value has the shape its kind says, so a [switch] on the kind is a
    match on the data. *)
Inductive Data :=
  | DBasic (b : BasicVal)
  | DStruct (fields : list Data)
  | DPtr (p : option Addr)
  | DOther.

(** A [reflect.Value]: its type, its data, and whether it was read from an unexported
    field (embedded, or not: the second is inherited by the fields below). *)
Record Value := { v_Type : Typ; v_Data : Data; v_Sticky : bool; v_EmbedRO : bool }.

(** [reflect.DeepEqual(reflect.Zero(t).Interface(), ...)]; both zeros of a float are
    equal to zero. *)
Definition isZero (b : BasicVal) : bool :=
  match b with
  | BBool b => negb b
  | BInt z => z =? 0
  | BFloat bits => bits mod 2 ^ 63 =? 0
  | BString s => String.eqb s EmptyString
  end.

Inductive Outcome (A : Type) :=
  | Ok (a : A)
  | Panics
  | NoFuel.
Arguments Ok {A} a.
Arguments Panics {A}.
Arguments NoFuel {A}.

#[global] Instance outcome_ret : MRet Outcome := fun A a => Ok a.
#[global] Instance outcome_bind : MBind Outcome := fun A B f m =>
  match m with Ok a => f a | Panics => Panics | NoFuel => NoFuel end.

(** ** The package's variables and what it prints *)

Inductive Message :=
  | LowerCase (field typename : string)
  | NonDefault (what : string).

Record Globals := {
  errorCount : Z;
  checked : gset Typ;
  printed : list Message;
}.

Definition globals0 : Globals := {| errorCount := 0; checked := ∅; printed := [] |}.

Definition mark (t : Typ) (g : Globals) : Globals :=
  {| errorCount := errorCount g; checked := {[t]} ∪ checked g; printed := printed g |}.

Definition addError (ms : list Message) (g : Globals) : Globals :=
  {| errorCount := ClientId.int64 (errorCount g + 1); checked := checked g;
     printed := printed g ++ ms |}.

Section labgob.
(** The types of the program, its memory, and [unicode.IsUpper] above Latin-1. *)
Context (types : Typ -> TypeDesc) (mem : Addr -> Data) (upperAbove : Z -> bool).

Definition IsUpper (r : Z) : bool :=
  if r <=? 0xFF then inRange 65 90 r || inRange 0xC0 0xD6 r || inRange 0xD8 0xDE r
  else upperAbove r.

Definition upperName (s : string) : bool :=
  match s with EmptyString => false | _ => IsUpper (decodeRune s).1 end.

(** ** checkType

    For one goroutine at a time: the code releases [mu] between marking a type and walking
    its parts. *)

Fixpoint checkType (fuel : nat) (t : Typ) (g : Globals) : Outcome Globals :=
  match fuel with
  | O => NoFuel
  | S fuel =>
      if bool_decide (t ∈ checked g) then Ok g
      else
        let g := mark t g in
        let d := types t in
        match t_Kind d with
        | KStruct =>
            (fix fields (fs : list Field) (g : Globals) : Outcome Globals :=
               match fs with
               | [] => Ok g
               | f :: fs =>
                   let g := if upperName (f_Name f) then g
                            else addError [LowerCase (f_Name f) (t_Name d)] g in
                   g ← checkType fuel (f_Type f) g;
                   fields fs g
               end) (t_Fields d) g
        | KSlice | KArray | KPtr => checkType fuel (t_Elem d) g
        | KMap => g ← checkType fuel (t_Elem d) g; checkType fuel (t_Key d) g
        | _ => Ok g
        end
  end.

(** [reflect.TypeOf(nil)] is nil, and so is the receiver of [Kind]. *)
Definition checkValue (fuel : nat) (value : option Value) (g : Globals) : Outcome Globals :=
  match value with
  | Some v => checkType fuel (v_Type v) g
  | None => Panics
  end.

(** ** checkDefault *)

Definition readOnly (v : Value) : bool := v_Sticky v || v_EmbedRO v.

(** [value.Field(i)] *)
Definition FieldOf (v : Value) (f : Field) (x : Data) : Value :=
  let unexported := negb (upperName (f_Name f)) in
  {| v_Type := f_Type f; v_Data := x;
     v_Sticky := v_Sticky v || unexported && negb (f_Embedded f);
     v_EmbedRO := unexported && f_Embedded f |}.

(** [value.Elem()] of a pointer *)
Definition ElemOf (v : Value) (a : Addr) : Value :=
  {| v_Type := t_Elem (types (v_Type v)); v_Data := mem a;
     v_Sticky := v_Sticky v; v_EmbedRO := v_EmbedRO v |}.

(** [room] is [4 - depth], so a depth above 3 leaves none.  [Interface] panics on a
    value read from an unexported field. *)
Fixpoint checkDefault1 (room : nat) (v : Value) (name : string) (g : Globals) : Outcome Globals :=
  match room with
  | O => Ok g
  | S room =>
      match v_Data v with
      | DStruct xs =>
          (fix fields (fs : list Field) (xs : list Data) (g : Globals) : Outcome Globals :=
             match fs, xs with
             | f :: fs, x :: xs =>
                 let name1 := if String.eqb name EmptyString then f_Name f
                              else name +:+ "." +:+ f_Name f in
                 g ← checkDefault1 room (FieldOf v f x) name1 g;
                 fields fs xs g
             | _, _ => Ok g
             end) (t_Fields (types (v_Type v))) xs g
      | DPtr None => Ok g
      | DPtr (Some a) => checkDefault1 room (ElemOf v a) name g
      | DBasic b =>
          if readOnly v then Panics
          else if isZero b then Ok g
          else
            let what := if String.eqb name EmptyString then t_Name (types (v_Type v)) else name in
            Ok (addError (if errorCount g <? 1 then [NonDefault what] else []) g)
      | DOther => Ok g
      end
  end.

Definition checkDefault (value : option Value) (g : Globals) : Outcome Globals :=
  match value with
  | None => Ok g
  | Some v => checkDefault1 3 v EmptyString g
  end.

(** ** The wrappers

    [E] is what gob returns for a value; a decoder also changes memory, inside its
    result. *)
Section wrappers.
Context {E D : Type} (gobEncode : option Value -> E) (gobDecode : option Value -> D).

Definition Encode (fuel : nat) (e : option Value) (g : Globals) : Outcome (Globals * E) :=
  g ← checkValue fuel e g;
  Ok (g, gobEncode e).

(** [EncodeValue]: [value.Interface()] has the type of the value. *)
Definition EncodeValue (fuel : nat) (value : Value) (g : Globals) : Outcome (Globals * E) :=
  if readOnly value then Panics
  else g ← checkValue fuel (Some value) g; Ok (g, gobEncode (Some value)).

Definition Decode (fuel : nat) (e : option Value) (g : Globals) : Outcome (Globals * D) :=
  g ← checkValue fuel e g;
  g ← checkDefault e g;
  Ok (g, gobDecode e).

Definition Register (fuel : nat) (value : option Value) (g : Globals) : Outcome (Globals * E) :=
  g ← checkValue fuel value g;
  Ok (g, gobEncode value).
End wrappers.
End labgob.
End LabGob.
