(* ===== verification/LabGobProps.v ===== *)
(** * Checked encoding: properties

    The walk of [checkType] is a depth-first search: it ends, visits exactly the types
    that values of the type are made of, once each, and counts exactly their
    lower-case fields.  [checkDefault] counts the non-zero data within its depth, and
    panics at data below an unexported field. *)
From S2P Require Import Prelude Persister ClientId MrApps LabGob.
From stdpp Require Import relations.
Import LabGob.
#[local] Open Scope Z_scope.

Section types.
Context (types : Typ -> TypeDesc) (upperAbove : Z -> bool).
Notation checkType := (checkType types upperAbove).
Notation upperName := (upperName upperAbove).

(** ** The types a type is made of *)

Definition components (t : Typ) : list Typ :=
  let d := types t in
  match t_Kind d with
  | KStruct => f_Type <$> t_Fields d
  | KSlice | KArray | KPtr => [t_Elem d]
  | KMap => [t_Elem d; t_Key d]
  | _ => []
  end.

Definition component (t u : Typ) : Prop := u ∈ components t.

(** The lower-case fields of one type, and of a set of types. *)
Definition lowerFields (t : Typ) : nat :=
  match t_Kind (types t) with
  | KStruct => length (filter (fun f => upperName (f_Name f) = false) (t_Fields (types t)))
  | _ => 0
  end.
Definition lowerTotal (X : gset Typ) : nat := sum_list_with lowerFields (elements X).

Lemma lowerTotal_union X Y : X ## Y -> lowerTotal (X ∪ Y) = (lowerTotal X + lowerTotal Y)%nat.
Proof.
  intros HXY. unfold lowerTotal. by rewrite elements_disj_union, sum_list_with_app.
Qed.
Lemma lowerTotal_singleton t : lowerTotal {[t]} = lowerFields t.
Proof. unfold lowerTotal. rewrite elements_singleton. cbn. lia. Qed.

(** ** The walk as one loop over the components *)

Definition edge : Type := option Message * Typ.

Definition edges (t : Typ) : list edge :=
  let d := types t in
  match t_Kind d with
  | KStruct => (fun f => (if upperName (f_Name f) then None
                          else Some (LowerCase (f_Name f) (t_Name d)), f_Type f)) <$> t_Fields d
  | _ => (fun u => (None, u)) <$> components t
  end.

Definition complain (m : option Message) (g : Globals) : Globals :=
  match m with Some m => addError [m] g | None => g end.

Fixpoint walk (fuel : nat) (es : list edge) (g : Globals) : Outcome Globals :=
  match es with
  | [] => Ok g
  | (m, u) :: es => g ← checkType fuel u (complain m g); walk fuel es g
  end.

Lemma bind_Ok (o : Outcome Globals) : (g ← o; Ok g) = o.
Proof. by destruct o. Qed.

Lemma checkType_S fuel t g :
  checkType (S fuel) t g =
    if bool_decide (t ∈ checked g) then Ok g else walk fuel (edges t) (mark t g).
Proof.
  cbn. case_bool_decide; [done|]. unfold edges, components.
  destruct (t_Kind (types t)); cbn; rewrite ?bind_Ok; try done.
  - generalize (mark t g) as g0. induction (t_Fields (types t)) as [|f fs IH]; intros g0; cbn; [done|].
    destruct (upperName (f_Name f)); cbn;
      match goal with |- _ = mbind _ ?o => destruct o; cbn; [apply IH|done..] end.
  - destruct (checkType fuel (t_Elem (types t)) (mark t g)); cbn; by rewrite ?bind_Ok.
Qed.

Lemma edges_components t : (edges t).*2 = components t.
Proof.
  unfold edges, components. destruct (t_Kind (types t)); cbn; try done.
  rewrite <- list_fmap_compose. by apply list_fmap_ext.
Qed.

Definition complaints (es : list edge) : nat := length (omap fst es).

Lemma edges_complaints t : complaints (edges t) = lowerFields t.
Proof.
  unfold complaints, edges, lowerFields, components. destruct (t_Kind (types t)); cbn; try done.
  induction (t_Fields (types t)) as [|f fs IH]; [done|].
  rewrite filter_cons, fmap_cons. cbn [omap list_omap fst].
  destruct (upperName (f_Name f)); [by rewrite decide_False by done|].
  rewrite decide_True by done. cbn [length]. f_equal. exact IH.
Qed.

(** ** What a walk does *)

(** From [g] to [g'] the walk marked the types of [N], which come from [roots], and
    counted [n] errors besides those of [N]. *)
Record marks (roots : list Typ) (n : nat) (g g' : Globals) (N : gset Typ) : Prop := {
  mk_checked : checked g' = N ∪ checked g;
  mk_new : N ## checked g;
  mk_roots u : u ∈ roots -> u ∈ checked g';
  mk_reach x : x ∈ N -> exists u, u ∈ roots /\ rtc component u x;
  mk_closed x y : x ∈ N -> component x y -> y ∈ checked g';
  mk_errors : errorCount g' = ClientId.int64 (errorCount g + Z.of_nat (n + lowerTotal N));
}.

Definition wrapped (g : Globals) : Prop := ClientId.int64 (errorCount g) = errorCount g.

Lemma int64_wrapped z : ClientId.int64 (ClientId.int64 z) = ClientId.int64 z.
Proof. pose proof (ClientId.int64_add_l z 0) as Hz. by rewrite !Z.add_0_r in Hz. Qed.

Lemma marks_wrapped roots n g g' N : marks roots n g g' N -> wrapped g'.
Proof. intros Hm. unfold wrapped. rewrite (mk_errors _ _ _ _ _ Hm). apply int64_wrapped. Qed.

Lemma marks_none g : wrapped g -> marks [] 0 g g ∅.
Proof.
  intros Hw. split; [set_solver|set_solver|by intros u ?%elem_of_nil|set_solver|set_solver|].
  unfold lowerTotal. rewrite elements_empty. cbn. by rewrite Z.add_0_r.
Qed.

Lemma marks_seen t g : wrapped g -> t ∈ checked g -> marks [t] 0 g g ∅.
Proof.
  intros Hw Ht. destruct (marks_none g Hw) as [M1 M2 M3 M4 M5 M6]. split; [done|done|set_solver|set_solver|done|done].
Qed.

(** A complaint, a component, the others. *)
Lemma marks_cons m u roots n g g1 g2 N1 N2 :
  marks [u] 0 (complain m g) g1 N1 -> marks roots n g1 g2 N2 ->
  marks (u :: roots) (match m with Some _ => 1 | None => 0 end + n) g g2 (N2 ∪ N1).
Proof.
  intros [M1 M2 M3 M4 M5 M6] [K1 K2 K3 K4 K5 K6].
  assert (checked (complain m g) = checked g) as Hc by (by destruct m).
  rewrite Hc in M1, M2. split.
  - rewrite K1, M1. set_solver.
  - set_solver.
  - intros v [->|Hv]%elem_of_cons; [|by auto]. rewrite K1. apply elem_of_union_r, M3. by left.
  - intros x [Hx|Hx]%elem_of_union.
    + destruct (K4 _ Hx) as (v & ? & ?). exists v. split; [by right|done].
    + destruct (M4 _ Hx) as (v & ->%list_elem_of_singleton & ?). exists u. split; [by left|done].
  - intros x y [Hx|Hx]%elem_of_union Hy; [by eauto|]. rewrite K1.
    apply elem_of_union_r. by eauto.
  - rewrite K6, M6, ClientId.int64_add_l, lowerTotal_union by set_solver.
    destruct m; cbn [complain addError errorCount]; [|f_equal; lia].
    replace (ClientId.int64 (errorCount g + 1) + Z.of_nat (0 + lowerTotal N1) +
      Z.of_nat (n + lowerTotal N2)) with (ClientId.int64 (errorCount g + 1) +
      Z.of_nat (lowerTotal N1 + (n + lowerTotal N2))) by lia.
    rewrite ClientId.int64_add_l. f_equal. lia.
Qed.

(** Marking a type and walking its components. *)
Lemma marks_type t g g' N :
  t ∉ checked g -> marks (components t) (lowerFields t) (mark t g) g' N ->
  marks [t] 0 g g' ({[t]} ∪ N).
Proof.
  intros Ht [M1 M2 M3 M4 M5 M6]. cbn in M1, M2. split.
  - rewrite M1. set_solver.
  - set_solver.
  - intros u ->%list_elem_of_singleton. rewrite M1. set_solver.
  - intros x [->%elem_of_singleton|Hx]%elem_of_union.
    + exists t. split; [by left|done].
    + destruct (M4 _ Hx) as (u & Hu & Hr). exists t. split; [by left|]. by eapply rtc_l.
  - intros x y [->%elem_of_singleton|Hx]%elem_of_union Hy; [by apply M3|by eauto].
  - rewrite M6, lowerTotal_union, lowerTotal_singleton by set_solver. done.
Qed.

Lemma walk_marks fuel :
  (forall t g g', wrapped g -> checkType fuel t g = Ok g' -> exists N, marks [t] 0 g g' N) ->
  forall es g g', wrapped g -> walk fuel es g = Ok g' ->
    exists N, marks es.*2 (complaints es) g g' N.
Proof.
  intros IH es. induction es as [|[m u] es IHes]; cbn; intros g g' Hw Hg.
  - injection Hg as <-. exists ∅. by apply marks_none.
  - destruct (checkType fuel u (complain m g)) as [g1| |] eqn:H1; cbn in Hg; try done.
    apply IH in H1 as (N1 & HN1); [|destruct m; [apply int64_wrapped|done]].
    apply IHes in Hg as (N2 & HN2); [|by eapply marks_wrapped].
    exists (N2 ∪ N1). pose proof (marks_cons _ _ _ _ _ _ _ _ _ HN1 HN2) as Hm.
    unfold complaints in *. by destruct m.
Qed.

Lemma checkType_marks fuel t g g' :
  wrapped g -> checkType fuel t g = Ok g' -> exists N, marks [t] 0 g g' N.
Proof.
  revert t g g'. induction fuel as [|fuel IH]; intros t g g' Hw Hg; [done|].
  rewrite checkType_S in Hg. case_bool_decide as Ht.
  - injection Hg as <-. exists ∅. by apply marks_seen.
  - apply (walk_marks _ IH) in Hg as (N & HN); [|done]. exists ({[t]} ∪ N).
    rewrite edges_components, edges_complaints in HN. by apply marks_type.
Qed.

(** ** The walk ends *)

(** The types the program can get at are finitely many. *)
Definition closed (U : gset Typ) : Prop := forall t u, t ∈ U -> component t u -> u ∈ U.

Lemma walk_ends U fuel es g :
  (forall t g, t ∈ U -> (size (U ∖ checked g) < fuel)%nat -> wrapped g ->
     exists g', checkType fuel t g = Ok g') ->
  (forall u, u ∈ es.*2 -> u ∈ U) -> (size (U ∖ checked g) < fuel)%nat -> wrapped g ->
  exists g', walk fuel es g = Ok g'.
Proof.
  intros IH. revert g. induction es as [|[m u] es IHes]; cbn; intros g HU Hs Hw; [by eauto|].
  assert (wrapped (complain m g)) as Hw' by (destruct m; [apply int64_wrapped|done]).
  assert (checked (complain m g) = checked g) as Hc by (by destruct m).
  destruct (IH u (complain m g)) as [g1 Hg1]; [apply HU; by left|by rewrite Hc|done|].
  rewrite Hg1. cbn. destruct (checkType_marks _ _ _ _ Hw' Hg1) as [N HN].
  apply IHes; [intros v Hv; apply HU; by right| |by eapply marks_wrapped].
  eapply Nat.le_lt_trans; [|exact Hs]. apply subseteq_size.
  rewrite (mk_checked _ _ _ _ _ HN), Hc. set_solver.
Qed.

Lemma checkType_ends U fuel t g :
  closed U -> t ∈ U -> (size (U ∖ checked g) < fuel)%nat -> wrapped g ->
  exists g', checkType fuel t g = Ok g'.
Proof.
  intros HU. revert t g. induction fuel as [|fuel IH]; intros t g Ht Hs Hw; [lia|].
  rewrite checkType_S. case_bool_decide as Hc; [by eauto|].
  apply (walk_ends U); [done| | |done].
  - rewrite edges_components. intros u Hu. by eapply HU.
  - assert (size (U ∖ checked (mark t g)) < size (U ∖ checked g))%nat; [|lia].
    apply subset_size. cbn. set_solver.
Qed.

(** More fuel changes nothing. *)
Lemma walk_more fuel fuel' es g g' :
  (forall t g g', checkType fuel t g = Ok g' -> checkType fuel' t g = Ok g') ->
  walk fuel es g = Ok g' -> walk fuel' es g = Ok g'.
Proof.
  intros IH. revert g. induction es as [|[m u] es IHes]; cbn; intros g Hg; [done|].
  destruct (checkType fuel u (complain m g)) eqn:H1; cbn in Hg; try done.
  rewrite (IH _ _ _ H1). cbn. by apply IHes.
Qed.

Lemma checkType_more fuel fuel' t g g' :
  (fuel <= fuel')%nat -> checkType fuel t g = Ok g' -> checkType fuel' t g = Ok g'.
Proof.
  revert fuel' t g g'. induction fuel as [|fuel IH]; intros [|fuel'] t g g' Hf; try done; [lia|].
  rewrite !checkType_S. case_bool_decide; [done|]. apply walk_more. intros *. apply IH. lia.
Qed.

(** C27: [checkType], called by one goroutine at a time, ends on any type, cyclic ones
    included, when the fuel exceeds the number of types not checked yet; it checks exactly
    the types that values of the type are made of, each once in the life of the program,
    and adds to the error count exactly the lower-case fields of those it had not checked
    before. *)
Theorem checkType_complete U t g :
  closed U -> t ∈ U -> wrapped g ->
  (forall x y, x ∈ checked g -> component x y -> y ∈ checked g) ->
  exists g', (forall fuel, (size (U ∖ checked g) < fuel)%nat -> checkType fuel t g = Ok g') /\
    (forall x, x ∈ checked g' <-> x ∈ checked g \/ rtc component t x) /\
    errorCount g' = ClientId.int64
      (errorCount g + Z.of_nat (lowerTotal (checked g' ∖ checked g))).
Proof.
  intros HU Ht Hw Hc.
  destruct (checkType_ends U (S (size (U ∖ checked g))) t g) as [g' Hg']; [done|done|lia|done|].
  exists g'. split; [intros fuel Hf; by eapply checkType_more; [|exact Hg']|].
  destruct (checkType_marks _ _ _ _ Hw Hg') as [N [M1 M2 M3 M4 M5 M6]].
  assert (forall x y, x ∈ checked g' -> component x y -> y ∈ checked g') as Hc'.
  { intros x y Hx Hy. rewrite M1 in Hx. apply elem_of_union in Hx as [Hx|Hx]; [by eauto|].
    rewrite M1. apply elem_of_union_r. by eauto. }
  split.
  - intros x. split.
    + intros Hx. rewrite M1 in Hx. apply elem_of_union in Hx as [Hx|Hx]; [right|by left].
      by destruct (M4 _ Hx) as (u & ->%list_elem_of_singleton & ?).
    + intros [Hx|Hx]; [rewrite M1; by apply elem_of_union_r|].
      assert (t ∈ checked g') as Ht' by (apply M3; by left). clear -Ht' Hx Hc'.
      induction Hx; eauto.
  - rewrite M6. replace (checked g' ∖ checked g) with N by (rewrite M1; set_solver). done.
Qed.
End types.

(** ** Decoding into a variable that is not fresh *)

Section default.
Context (types : Typ -> TypeDesc) (mem : Addr -> Data) (upperAbove : Z -> bool).
Notation checkDefault1 := (checkDefault1 types mem upperAbove).
Notation FieldOf := (FieldOf upperAbove).
Notation ElemOf := (ElemOf types mem).

(** The basic data of a value down to a depth, and whether an unexported field is on
    the way. *)
Fixpoint leaves (room : nat) (v : Value) : list (bool * BasicVal) :=
  match room with
  | O => []
  | S room =>
      match v_Data v with
      | DStruct xs =>
          concat (zip_with (fun f x => leaves room (FieldOf v f x)) (t_Fields (types (v_Type v))) xs)
      | DPtr (Some a) => leaves room (ElemOf v a)
      | DBasic b => [(readOnly v, b)]
      | DPtr None | DOther => []
      end
  end.

Definition hidden (l : list (bool * BasicVal)) : bool := existsb fst l.
Definition nonDefault (l : list (bool * BasicVal)) : nat :=
  length (filter (fun x => isZero x.2 = false) l).

(** What the check makes of the data it meets. *)
Definition judged (l : list (bool * BasicVal)) (g : Globals) (o : Outcome Globals) : Prop :=
  if hidden l then o = Panics
  else exists g', o = Ok g' /\ checked g' = checked g /\
    errorCount g' = ClientId.int64 (errorCount g + Z.of_nat (nonDefault l)) /\
    (nonDefault l = 0%nat -> printed g' = printed g).

Lemma judged_none g : wrapped g -> judged [] g (Ok g).
Proof. intros Hw. exists g. split_and!; try done. cbn. by rewrite Z.add_0_r. Qed.

Lemma judged_app l1 l2 g o f :
  judged l1 g o -> (forall g', wrapped g' -> judged l2 g' (f g')) ->
  judged (l1 ++ l2) g (g' ← o; f g').
Proof.
  unfold judged, hidden. rewrite existsb_app. intros H1 H2.
  destruct (existsb fst l1); cbn; [by subst|].
  destruct H1 as (g1 & -> & Hc & He & Hp). cbn.
  assert (wrapped g1) as Hw by (unfold wrapped; rewrite He; apply int64_wrapped).
  specialize (H2 _ Hw).
  destruct (existsb fst l2); [done|]. destruct H2 as (g2 & -> & Hc2 & He2 & Hp2).
  exists g2. unfold nonDefault in *. rewrite filter_app, length_app. split_and!; [done|congruence| |].
  - rewrite He2, He, ClientId.int64_add_l. f_equal. lia.
  - intros Hz. rewrite Hp2, Hp; [done|lia..].
Qed.

Lemma judged_basic v b what g :
  wrapped g ->
  judged [(readOnly v, b)] g
    (if readOnly v then Panics else if isZero b then Ok g
     else Ok (addError (if errorCount g <? 1 then [NonDefault what] else []) g)).
Proof.
  intros Hw. unfold judged, hidden, nonDefault. cbn. destruct (readOnly v); cbn; [done|].
  destruct (isZero b) eqn:Hz; cbn.
  - exists g. split_and!; try done. cbn. by rewrite Z.add_0_r.
  - eexists. by split_and!.
Qed.

(** The check counts the data that are not zero, and panics if it meets data below an
    unexported field. *)
Lemma checkDefault1_judged room v name g :
  wrapped g -> judged (leaves room v) g (checkDefault1 room v name g).
Proof.
  revert v name g. induction room as [|room IH]; intros v name g Hw; [by apply judged_none|].
  cbn. destruct (v_Data v) as [b|xs|[a|]|]; [by apply judged_basic| |by apply IH|by apply judged_none..].
  generalize (t_Fields (types (v_Type v))) as fs. intros fs. revert xs g Hw.
  induction fs as [|f fs IHfs]; intros [|x xs] g Hw; try (by apply judged_none).
  cbn. apply judged_app; [by apply IH|]. intros g' Hw'. by apply IHfs.
Qed.

(** [Decode] into a variable whose type has been checked: it panics when the first
    three levels of the target hold basic data below an unexported field; otherwise
    it counts one error for each datum there that is not zero, so a fresh variable
    decodes without a warning, and hands the target to gob. *)
Theorem Decode_judges {D} (gobDecode : option Value -> D) fuel v g :
  wrapped g -> v_Type v ∈ checked g ->
  let l := leaves 3 v in
  if hidden l then
    Decode types mem upperAbove gobDecode (S fuel) (Some v) g = Panics
  else
    exists g', Decode types mem upperAbove gobDecode (S fuel) (Some v) g =
        Ok (g', gobDecode (Some v)) /\
      errorCount g' = ClientId.int64 (errorCount g + Z.of_nat (nonDefault l)) /\
      (nonDefault l = 0%nat -> printed g' = printed g).
Proof.
  intros Hw Hc l. unfold Decode, checkValue. rewrite checkType_S, bool_decide_eq_true_2 by done.
  cbn [mbind outcome_bind checkDefault].
  pose proof (checkDefault1_judged 3 v EmptyString g Hw) as Hj. unfold judged in Hj. fold l in Hj.
  destruct (hidden l); [by rewrite Hj|]. destruct Hj as (g' & Hj & _ & He & Hp).
  unfold checkDefault. rewrite Hj. by exists g'.
Qed.
End default.

(** ** The tests of the package, and a cyclic type *)

Module GobDemo.
#[local] Open Scope nat_scope.
Definition basic (name : string) (k : Kind) : TypeDesc :=
  {| t_Name := name; t_Kind := k; t_Fields := []; t_Elem := 0; t_Key := 0 |}.
Definition ref (k : Kind) (elem key : Typ) : TypeDesc :=
  {| t_Name := EmptyString; t_Kind := k; t_Fields := []; t_Elem := elem; t_Key := key |}.
Definition struct (name : string) (fs : list (string * Typ)) : TypeDesc :=
  {| t_Name := name; t_Kind := KStruct; t_Elem := 0; t_Key := 0;
     t_Fields := (fun f => {| f_Name := f.1; f_Type := f.2; f_Embedded := false |}) <$> fs |}.

Definition types (t : Typ) : TypeDesc :=
  match t with
  | 1 => struct "T4" [("Yes", 0); ("no", 0)]
  | 2 => ref KPtr 1 0                                   (* *T4 *)
  | 3 => ref KMap 0 2                                   (* map[*T4]int *)
  | 4 => ref KSlice 3 0                                 (* []map[*T4]int *)
  | 5 => ref KMap 0 1                                   (* map[T4]int *)
  | 6 => ref KSlice 5 0                                 (* []map[T4]int *)
  | 7 => ref KPtr 6 0                                   (* *[]map[T4]int *)
  | 8 => struct "DD" [("X", 0)]
  | 9 => ref KPtr 8 0                                   (* *DD *)
  | 10 => struct "Node" [("Val", 0); ("next", 11)]
  | 11 => ref KPtr 10 0                                 (* *Node *)
  | _ => basic "int" KInt
  end.
Definition all : gset Typ := list_to_set (seq 0 12).

(** A variable [reply := DD{99}] at 0, a zero [T4] at 1, a zero [DD] at 2. *)
Definition mem (a : Addr) : Data :=
  match a with
  | 0 => DStruct [DBasic (BInt 99%Z)]
  | 1 => DStruct [DBasic (BInt 0%Z); DBasic (BInt 0%Z)]
  | 2 => DStruct [DBasic (BInt 0%Z)]
  | _ => DOther
  end.
Definition above (r : Z) : bool := false.
Definition val (t : Typ) (d : Data) : Value :=
  {| v_Type := t; v_Data := d; v_Sticky := false; v_EmbedRO := false |}.
Definition enc (v : Value) (g : Globals) : Outcome Globals :=
  '(g, _) ← Encode types above (fun _ => tt) 20 (Some v) g; Ok g.
Definition dec (v : Value) (g : Globals) : Outcome Globals :=
  '(g, _) ← Decode types mem above (fun _ => tt) 20 (Some v) g; Ok g.

(** TestCapital: the lower-case field is reported once. *)
Example test_capital :
  (g ← enc (val 4 DOther) globals0; g ← dec (val 7 (DPtr (Some 3))) g;
   Ok (errorCount g, printed g)) = Ok (1%Z, [LowerCase "no" "T4"]).
Proof. vm_compute. reflexivity. Qed.

(** TestDefault. *)
Example test_default :
  (g ← enc (val 8 (mem 2)) globals0; g ← dec (val 9 (DPtr (Some 0))) g;
   Ok (errorCount g, printed g)) = Ok (1%Z, [NonDefault "X"]).
Proof. vm_compute. reflexivity. Qed.

(** Decoding into a struct with a lower-case field does not just warn. *)
Example lowercase_panics : dec (val 2 (DPtr (Some 1))) globals0 = Panics.
Proof. vm_compute. reflexivity. Qed.

Lemma all_closed : closed types all.
Proof.
  assert (forallb (fun t => forallb (fun u => bool_decide (u ∈ all)) (components types t)) (elements all)
    = true) as Hb by (vm_compute; reflexivity).
  intros t u Ht Hu. rewrite forallb_forall in Hb.
  specialize (Hb t (proj1 (list_elem_of_In _ _) (proj2 (elem_of_elements _ _) Ht))).
  rewrite forallb_forall in Hb. by apply (bool_decide_unpack _), Is_true_true, Hb, list_elem_of_In.
Qed.

Lemma checkType_complete_witness :
  exists g', checkType types above 13 11 globals0 = Ok g' /\
    (10 ∈ checked g') /\ errorCount g' = 1%Z.
Proof.
  destruct (checkType_complete types above all 11 globals0) as (g' & Hg & Hr & He).
  - exact all_closed.
  - by apply (bool_decide_unpack _).
  - done.
  - intros x y Hx. by apply elem_of_empty in Hx.
  - exists g'. assert (checkType types above 13 11 globals0 = Ok g') as Hg'.
    { apply Hg. by apply (bool_decide_unpack _). }
    split; [done|]. split.
    + apply Hr. right. apply rtc_once. by apply list_elem_of_singleton.
    + clear -Hg'. vm_compute in Hg'. by injection Hg' as <-.
Defined.

Lemma Decode_judges_witness :
  Decode types mem above (fun _ => tt) 1 (Some (val 2 (DPtr (Some 1)))) (mark 2 globals0)
    = Panics /\
  exists g', Decode types mem above (fun _ => tt) 1 (Some (val 9 (DPtr (Some 0))))
    (mark 9 globals0) = Ok (g', tt) /\ errorCount g' = 1%Z.
Proof.
  split.
  - refine (Decode_judges types mem above (fun _ => tt) 0 (val 2 (DPtr (Some 1)))
      (mark 2 globals0) _ _); [done|by apply (bool_decide_unpack _)].
  - destruct (Decode_judges types mem above (fun _ => tt) 0 (val 9 (DPtr (Some 0)))
      (mark 9 globals0)) as (g' & Hd & He & _); [done|by apply (bool_decide_unpack _)|].
    exists g'. split; [exact Hd|]. by rewrite He.
Defined.
End GobDemo.
