(* ===== verification/LabRPC.v ===== *)
(** * The simulated network (src/src/labrpc/labrpc.go)

    Client ends, the switchboard that loses, delays and reorders, and the dispatch
    of a request to a method of a server.  [Network] is the struct of the same
    name; a [*Server] is an address in a heap of servers, nil is [None].  A request
    in flight is the goroutine of [processReq] together with the goroutine it
    starts for the handler; [step] has one rule per critical section, select or
    timer.  Random draws are arguments.  The values sent, their encoding
    (encoding/gob), and the methods of the receivers, which change a state [W], are
    parameters. *)
From S2P Require Import Prelude Persister ClientId MrStrings.
From stdpp Require Import functions relations.
#[local] Open Scope Z_scope.

Module LabRPC.

(** [int32] arithmetic wraps around. *)
Definition int32 (z : Z) : Z := (z + 2 ^ 31) mod 2 ^ 32 - 2 ^ 31.

(** What labrpc uses of reflect and gob: the type of a value, the kind and element
    of a pointer type, zero values, and encoding and decoding into a variable, each
    with whether it succeeded.  [sendable] values are made of exported fields. *)
Class Gob (GoType V : Type) := {
  typeOf : V -> GoType;
  isPtr : GoType -> bool;
  elemOf : GoType -> GoType;
  zero : GoType -> V;
  encode : V -> bytes * bool;
  decodeInto : V -> bytes -> V * bool;
  sendable : V -> Prop;
}.

(** Such a value can be encoded, and decodes into a fresh variable of its type. *)
Class GobLaws (GoType V : Type) `{!Gob GoType V} : Prop := {
  encode_ok v : sendable v -> (encode v).2 = true;
  decode_encode v : sendable v -> decodeInto (zero (typeOf v)) (encode v).1 = (v, true);
}.

(** What ends the process: [log.Fatalf] or a panic. *)
Inductive Crash := Fatal | Panic.

Set Implicit Arguments.
Set Contextual Implicit.
Section labrpc.
Context {Name GoType V W : Type} `{Countable Name} `{EqDecision GoType} `{!Gob GoType V}.

(** ** Data *)

Record reqMsg := {
  endname : Name;
  svcMeth : string;
  argsType : GoType;
  rq_args : bytes;
}.

Record replyMsg := { ok : bool; reply : bytes }.

(** A [reflect.Method]; [m_In] are the parameter types, the receiver first. *)
Record Method := {
  m_Name : string;
  m_PkgPath : string;
  m_In : list GoType;
  m_NumOut : Z;
  m_Func : V -> V -> W -> W * V;
}.

Record Service := { svc_name : string; methods : gmap string Method }.
Record Server := { services : gmap string Service; srv_count : Z }.

Record Network := {
  reliable : bool;
  longDelays : bool;
  longReordering : bool;
  ends : gset Name;
  enabled : gmap Name bool;
  servers : gmap Name (option nat);
  connections : gmap Name (option Name);
  done : bool;
  count : Z;
  bytes_ : Z;
}.

Definition noReply : replyMsg := {| ok := false; reply := [] |}.

(** ** Servers and services *)

Definition suitable (m : Method) : bool :=
  String.eqb (m_PkgPath m) EmptyString && (zlen (m_In m) =? 3) &&
  match m_In m !! 2%nat with Some t => isPtr t | None => false end &&
  (m_NumOut m =? 0).

Definition MakeService (name : string) (ms : list Method) : Service :=
  {| svc_name := name;
     methods := foldl (fun acc m => if suitable m then <[m_Name m := m]> acc else acc) ∅ ms |}.

Definition MakeServer : Server := {| services := ∅; srv_count := 0 |}.

Definition AddService (svc : Service) (rs : Server) : Server :=
  {| services := <[svc_name svc := svc]> (services rs); srv_count := srv_count rs |}.

Definition dotChar : Ascii.ascii := Ascii.ascii_of_nat 46.

(** [strings.LastIndex(s, c)] for a single byte. *)
Fixpoint LastIndex (c : Ascii.ascii) (s : string) : Z :=
  match s with
  | EmptyString => -1
  | String a s =>
      let r := LastIndex c s in
      if 0 <=? r then r + 1 else if Ascii.eqb a c then 0 else -1
  end.

(** [Server.dispatch] under its lock: count, split the name, find the service. *)
Definition Server_dispatch (req : reqMsg) (rs : Server) : (Server * Service * string) + Crash :=
  let rs := {| services := services rs; srv_count := ClientId.int64 (srv_count rs + 1) |} in
  let dot := LastIndex dotChar (svcMeth req) in
  if dot <? 0 then inr Panic
  else
    let serviceName := String.substring 0 (Z.to_nat dot) (svcMeth req) in
    let methodName := String.substring (Z.to_nat (dot + 1))
      (String.length (svcMeth req) - Z.to_nat (dot + 1)) (svcMeth req) in
    match services rs !! serviceName with
    | Some service => inl (rs, service, methodName)
    | None => inr Fatal
    end.

(** [Service.dispatch]: decode the argument, call the method on a fresh reply,
    encode the reply; errors of the codec are ignored.  [reflect]'s [Call] panics when the
    argument has another type than the parameter. *)
Definition Service_dispatch (svc : Service) (methname : string) (req : reqMsg) (w : W) :
    (W * replyMsg) + Crash :=
  match methods svc !! methname with
  | None => inr Fatal
  | Some m =>
      let args := (decodeInto (zero (argsType req)) (rq_args req)).1 in
      match m_In m with
      | [_; t1; t2] =>
          if decide (argsType req = t1) then
            let '(w, replyv) := m_Func m args (zero (elemOf t2)) w in
            inl (w, {| ok := true; reply := (encode replyv).1 |})
          else inr Panic
      | _ => inr Panic
      end
  end.

(** [Server.GetCount]. *)
Definition Server_GetCount (rs : Server) : Z := srv_count rs.

(** ** The network's operations *)

Definition MakeNetwork : Network :=
  {| reliable := true; longDelays := false; longReordering := false; ends := ∅;
     enabled := ∅; servers := ∅; connections := ∅; done := false; count := 0; bytes_ := 0 |}.

Definition with_flags r d l (rn : Network) : Network :=
  {| reliable := r; longDelays := d; longReordering := l; ends := ends rn;
     enabled := enabled rn; servers := servers rn; connections := connections rn;
     done := done rn; count := count rn; bytes_ := bytes_ rn |}.
Definition with_maps es en se co (rn : Network) : Network :=
  {| reliable := reliable rn; longDelays := longDelays rn;
     longReordering := longReordering rn; ends := es; enabled := en; servers := se;
     connections := co; done := done rn; count := count rn; bytes_ := bytes_ rn |}.
Definition with_stats d c b (rn : Network) : Network :=
  {| reliable := reliable rn; longDelays := longDelays rn;
     longReordering := longReordering rn; ends := ends rn; enabled := enabled rn;
     servers := servers rn; connections := connections rn; done := d; count := c;
     bytes_ := b |}.

Definition Reliable (yes : bool) (rn : Network) : Network :=
  with_flags yes (longDelays rn) (longReordering rn) rn.
Definition LongReordering (yes : bool) (rn : Network) : Network :=
  with_flags (reliable rn) (longDelays rn) yes rn.
Definition LongDelays (yes : bool) (rn : Network) : Network :=
  with_flags (reliable rn) yes (longReordering rn) rn.

(** Closing a closed channel panics. *)
Definition Cleanup (rn : Network) : Network + Crash :=
  if done rn then inr Panic else inl (with_stats true (count rn) (bytes_ rn) rn).

Definition MakeEnd (e : Name) (rn : Network) : Network + Crash :=
  if bool_decide (e ∈ ends rn) then inr Fatal
  else inl (with_maps ({[e]} ∪ ends rn) (<[e := false]> (enabled rn)) (servers rn)
              (<[e := None]> (connections rn)) rn).

Definition AddServer (nm : Name) (rs : nat) (rn : Network) : Network :=
  with_maps (ends rn) (enabled rn) (<[nm := Some rs]> (servers rn)) (connections rn) rn.
Definition DeleteServer (nm : Name) (rn : Network) : Network :=
  with_maps (ends rn) (enabled rn) (<[nm := None]> (servers rn)) (connections rn) rn.
Definition Connect (e nm : Name) (rn : Network) : Network :=
  with_maps (ends rn) (enabled rn) (servers rn) (<[e := Some nm]> (connections rn)) rn.
Definition Enable (e : Name) (yes : bool) (rn : Network) : Network :=
  with_maps (ends rn) (<[e := yes]> (enabled rn)) (servers rn) (connections rn) rn.

(** Indexing a Go map gives the zero value of what is missing. *)
Definition isEnabled (e : Name) (rn : Network) : bool := default false (enabled rn !! e).
Definition connection (e : Name) (rn : Network) : option Name := mjoin (connections rn !! e).
Definition serverAt (nm : Name) (rn : Network) : option nat := mjoin (servers rn !! nm).

(** The server's count; a nil server panics. *)
Definition GetCount (nm : Name) (rn : Network) (heap : gmap nat Server) : option Z :=
  p ← serverAt nm rn;
  rs ← heap !! p;
  Some (Server_GetCount rs).
Definition GetTotalCount (rn : Network) : Z := count rn.
Definition GetTotalBytes (rn : Network) : Z := bytes_ rn.

Record Info := {
  i_enabled : bool;
  i_servername : option Name;
  i_server : option nat;
  i_reliable : bool;
  i_longreordering : bool;
}.

Definition readEndnameInfo (e : Name) (rn : Network) : Info :=
  {| i_enabled := isEnabled e rn;
     i_servername := connection e rn;
     i_server := nm ← connection e rn; serverAt nm rn;
     i_reliable := reliable rn;
     i_longreordering := longReordering rn |}.

Definition isServerDead (e nm : Name) (p : nat) (rn : Network) : bool :=
  negb (isEnabled e rn) || negb (bool_decide (serverAt nm rn = Some p)).

(** The goroutine of [MakeNetwork] receives a request. *)
Definition receive (req : reqMsg) (rn : Network) : Network :=
  with_stats (done rn) (int32 (count rn + 1)) (ClientId.int64 (bytes_ rn + zlen (rq_args req))) rn.

(** A reply goes out. *)
Definition noteReply (rep : replyMsg) (rn : Network) : Network :=
  with_stats (done rn) (count rn) (ClientId.int64 (bytes_ rn + zlen (reply rep))) rn.

(** ** A request in flight: [processReq] *)

(** What [readEndnameInfo] said when the request was live. *)
Record Target := { t_name : Name; t_server : nat; t_reliable : bool; t_longreordering : bool }.

Inductive Phase :=
  | Received                                    (* processReq has not begun *)
  | NoServer                                    (* the timer of the else branch *)
  | Live (t : Target)                           (* the short delay *)
  | Executing (t : Target)                      (* the loop that waits for [ech] *)
  | Returned (t : Target) (r : option replyMsg) (* after the loop; None: server dead *)
  | Delayed (r : replyMsg)                      (* the timer of long reordering *)
  | Replied (r : replyMsg).                     (* what [replyCh] got *)

(** The goroutine that runs [server.dispatch]. *)
Inductive Handler :=
  | NotStarted
  | Started (p : nat)
  | Entered (p : nat) (svc : Service) (meth : string)
  | Finished (p : nat) (r : replyMsg).

Record Request := { rq : reqMsg; ph : Phase; hs : Handler }.

Definition afterRead (i : Info) : Phase :=
  match i_enabled i, i_servername i, i_server i with
  | true, Some nm, Some p =>
      Live {| t_name := nm; t_server := p; t_reliable := i_reliable i;
              t_longreordering := i_longreordering i |}
  | _, _, _ => NoServer
  end.

(** [r] is [rand.Int()]. *)
Definition drops (t : Target) (r : Z) : bool := negb (t_reliable t) && (r mod 1000 <? 100).

(** The end of [processReq]; [r1] is [rand.Int()], [r2] is [rand.Intn(900)]. *)
Definition finish (t : Target) (dead : bool) (r : option replyMsg) (r1 r2 : Z) : Phase :=
  match r with
  | None => Replied noReply
  | Some rep =>
      if dead then Replied noReply
      else if drops t r1 then Replied noReply
      else if t_longreordering t && (r2 <? 600) then Delayed rep
      else Replied rep
  end.

(** The rest of [ClientEnd.Call]: [target] is the variable [reply] points to. *)
Definition Call_return (rep : replyMsg) (target : V) : (bool * V) + Crash :=
  if ok rep then
    let '(v, decoded) := decodeInto target (reply rep) in
    if decoded then inl (true, v) else inr Fatal
  else inl (false, target).

(** The request [ClientEnd.Call] builds. *)
Definition Call_request (e : Name) (meth : string) (args : V) : reqMsg + Crash :=
  let '(data, encoded) := encode args in
  if encoded then
    inl {| endname := e; svcMeth := meth; argsType := typeOf args; rq_args := data |}
  else inr Panic.

(** ** The whole network *)

(** [runs] records the executions of methods: the request and the state of the
    receivers before and after. *)
Record World := {
  rn : Network;
  heap : gmap nat Server;
  reqs : gmap nat Request;
  st : W;
  runs : list (nat * W * W);
}.

Definition with_rn x (wd : World) : World :=
  {| rn := x; heap := heap wd; reqs := reqs wd; st := st wd; runs := runs wd |}.
Definition with_req id x (wd : World) : World :=
  {| rn := rn wd; heap := heap wd; reqs := <[id := x]> (reqs wd); st := st wd; runs := runs wd |}.
Definition with_server p x (wd : World) : World :=
  {| rn := rn wd; heap := <[p := x]> (heap wd); reqs := reqs wd; st := st wd; runs := runs wd |}.

Definition with_ph x (r : Request) : Request := {| rq := rq r; ph := x; hs := hs r |}.
Definition with_hs x (r : Request) : Request := {| rq := rq r; ph := ph r; hs := x |}.

(** What a test does to the network. *)
Inductive Admin :=
  | AReliable (yes : bool)
  | ALongReordering (yes : bool)
  | ALongDelays (yes : bool)
  | AMakeEnd (e : Name)
  | AAddServer (nm : Name) (p : nat)
  | ADeleteServer (nm : Name)
  | AConnect (e nm : Name)
  | AEnable (e : Name) (yes : bool)
  | ACleanup.

Definition admin (a : Admin) (x : Network) : Network + Crash :=
  match a with
  | AReliable yes => inl (Reliable yes x)
  | ALongReordering yes => inl (LongReordering yes x)
  | ALongDelays yes => inl (LongDelays yes x)
  | AMakeEnd e => MakeEnd e x
  | AAddServer nm p => inl (AddServer nm p x)
  | ADeleteServer nm => inl (DeleteServer nm x)
  | AConnect e nm => inl (Connect e nm x)
  | AEnable e yes => inl (Enable e yes x)
  | ACleanup => Cleanup x
  end.

Inductive step (wd : World) : World -> Prop :=
  | step_admin a x : admin a (rn wd) = inl x -> step wd (with_rn x wd)
  | step_MakeServer p : heap wd !! p = None -> step wd (with_server p MakeServer wd)
  | step_AddService p rs svc :
      heap wd !! p = Some rs -> step wd (with_server p (AddService svc rs) wd)
  | step_receive id req :
      (* [Call] sends; the goroutine of MakeNetwork may still listen after Cleanup *)
      reqs wd !! id = None -> endname req ∈ ends (rn wd) ->
      step wd (with_rn (receive req (rn wd))
        (with_req id {| rq := req; ph := Received; hs := NotStarted |} wd))
  | step_read id r :
      reqs wd !! id = Some r -> ph r = Received ->
      step wd (with_req id (with_ph (afterRead (readEndnameInfo (endname (rq r)) (rn wd))) r) wd)
  | step_noServer id r :
      reqs wd !! id = Some r -> ph r = NoServer ->
      step wd (with_req id (with_ph (Replied noReply) r) wd)
  | step_drop id r t x :
      reqs wd !! id = Some r -> ph r = Live t -> drops t x = true ->
      step wd (with_req id (with_ph (Replied noReply) r) wd)
  | step_execute id r t x :
      reqs wd !! id = Some r -> ph r = Live t -> drops t x = false ->
      step wd (with_req id {| rq := rq r; ph := Executing t; hs := Started (t_server t) |} wd)
  | step_enter id r p rs rs' svc meth :
      reqs wd !! id = Some r -> hs r = Started p ->
      heap wd !! p = Some rs -> Server_dispatch (rq r) rs = inl (rs', svc, meth) ->
      step wd (with_server p rs' (with_req id (with_hs (Entered p svc meth) r) wd))
  | step_run id r p svc meth w' rep :
      reqs wd !! id = Some r -> hs r = Entered p svc meth ->
      Service_dispatch svc meth (rq r) (st wd) = inl (w', rep) ->
      step wd {| rn := rn wd; heap := heap wd;
                 reqs := <[id := with_hs (Finished p rep) r]> (reqs wd);
                 st := w'; runs := (id, st wd, w') :: runs wd |}
  | step_recv id r t p rep :
      reqs wd !! id = Some r -> ph r = Executing t -> hs r = Finished p rep ->
      step wd (with_req id (with_ph (Returned t (Some rep)) r) wd)
  | step_dead id r t :
      reqs wd !! id = Some r -> ph r = Executing t ->
      isServerDead (endname (rq r)) (t_name t) (t_server t) (rn wd) = true ->
      step wd (with_req id (with_ph (Returned t None) r) wd)
  | step_finish id r t o r1 r2 p' :
      reqs wd !! id = Some r -> ph r = Returned t o ->
      finish t (isServerDead (endname (rq r)) (t_name t) (t_server t) (rn wd)) o r1 r2 = p' ->
      step wd (with_rn (match p' with
                        | Replied rep => if ok rep then noteReply rep (rn wd) else rn wd
                        | _ => rn wd
                        end) (with_req id (with_ph p' r) wd))
  | step_delayed id r rep :
      reqs wd !! id = Some r -> ph r = Delayed rep ->
      step wd (with_rn (noteReply rep (rn wd)) (with_req id (with_ph (Replied rep) r) wd)).
End labrpc.
End LabRPC.
