(* ===== verification/LabRPCProps.v ===== *)
(** * The simulated network: properties

    A call runs its method at most once, and a call that returns true returns what
    the method produced from the client's argument; a server that was deleted or
    replaced answers no call that was waiting for it; a reliable network fails no
    call to a live server; names are split at the last dot. *)
From S2P Require Import Prelude Persister Serial ClientId MrStrings LabRPC.
From stdpp Require Import functions relations.
Import LabRPC.
#[local] Open Scope Z_scope.

Section props.
Context {Name GoType V W : Type} `{Countable Name} `{EqDecision GoType} `{!Gob GoType V}.
Implicit Types (wd : @World Name GoType V W _ _) (r : @Request Name GoType V W).

Definition initial wd : Prop :=
  rn wd = MakeNetwork /\ heap wd = ∅ /\ reqs wd = ∅ /\ runs wd = [].

Definition reachable wd : Prop := exists wd0, initial wd0 /\ rtc step wd0 wd.

(** ** Requests and executions *)

(** The reply on its way to the client is the one its handler finished with. *)
Definition phase_ok r : Prop :=
  match ph r with
  | Received | NoServer | Live _ => hs r = NotStarted
  | Executing _ | Returned _ None => True
  | Returned _ (Some rep) | Delayed rep => exists p, hs r = Finished p rep
  | Replied rep => ok rep = true -> exists p, hs r = Finished p rep
  end.

(** The worlds of a run from [wd0] to [wd]. *)
Definition past wd0 wd wd1 : Prop := rtc step wd0 wd1 /\ rtc step wd1 wd.

(** While the request is at the switchboard, its end is enabled and connected to a name
    under which server object [p] is registered. *)
Definition sent_at wd id (req : @reqMsg Name GoType) (p : nat) : Prop :=
  exists r nm, reqs wd !! id = Some r /\ rq r = req /\ ph r = Received /\
    isEnabled (endname req) (rn wd) = true /\ connection (endname req) (rn wd) = Some nm /\
    serverAt nm (rn wd) = Some p.

(** Server object [p] finds this service and method for the request. *)
Definition found_at wd (req : @reqMsg Name GoType) (p : nat) (svc : @Service GoType V W)
    (meth : string) : Prop :=
  exists rs rs', heap wd !! p = Some rs /\ Server_dispatch req rs = inl (rs', svc, meth).

(** [Seen]: the worlds so far. *)
Section routes.
Variable Seen : @World Name GoType V W _ _ -> Prop.

Definition sent_to id (req : @reqMsg Name GoType) (p : nat) : Prop :=
  exists wd1, Seen wd1 /\ sent_at wd1 id req p.
Definition routed id (req : @reqMsg Name GoType) (svc : @Service GoType V W) (meth : string) : Prop :=
  exists wd1 wd2 p, Seen wd1 /\ Seen wd2 /\ rtc step wd1 wd2 /\ sent_at wd1 id req p /\
    found_at wd2 req p svc meth.

(** Where the goroutine of [processReq] and the one of the handler send the request. *)
Definition route_ok id r : Prop :=
  (forall t, ph r = Live t -> sent_to id (rq r) (t_server t)) /\
  (forall p, hs r = Started p -> sent_to id (rq r) p) /\
  (forall p svc meth, hs r = Entered p svc meth -> routed id (rq r) svc meth).

Record rpc_inv wd : Prop := {
  ri_phase id r : reqs wd !! id = Some r -> phase_ok r;
  ri_entered id r : reqs wd !! id = Some r -> route_ok id r;
  ri_ran id r p rep : reqs wd !! id = Some r -> hs r = Finished p rep ->
    ok rep = true /\ exists w w' svc meth, (id, w, w') ∈ runs wd /\
      routed id (rq r) svc meth /\ Service_dispatch svc meth (rq r) w = inl (w', rep);
  ri_run id w w' : (id, w, w') ∈ runs wd ->
    exists r p rep, reqs wd !! id = Some r /\ hs r = Finished p rep;
  ri_once : NoDup (runs wd).*1.*1;
}.

Lemma Service_dispatch_ok (svc : Service) meth (req : @reqMsg Name GoType) (w w' : W) rep :
  Service_dispatch svc meth req w = inl (w', rep) -> ok rep = true.
Proof.
  unfold Service_dispatch. intros Hd. repeat case_match; simplify_eq/=; done.
Qed.

(** A step that changes one request and no execution. *)
Lemma rpc_update_inv wd id r0 r' (x : @Network Name _ _) h :
  rpc_inv wd -> reqs wd !! id = Some r0 -> rq r' = rq r0 -> hs r' = hs r0 \/
    (forall p rep, hs r0 <> Finished p rep) /\ (forall p rep, hs r' <> Finished p rep) ->
  phase_ok r' -> route_ok id r' ->
  rpc_inv {| rn := x; heap := h; reqs := <[id := r']> (reqs wd); st := st wd; runs := runs wd |}.
Proof.
  intros [I1 IE I2 I3 I4] Hr Hq Hh Hp Ht. split; cbn; try done.
  - intros id1 r1 [[<- <-]|[_ ?]]%lookup_insert_Some; eauto.
  - intros id1 r1 [[<- <-]|[_ ?]]%lookup_insert_Some; eauto.
  - intros id1 r1 p rep [[<- <-]|[_ ?]]%lookup_insert_Some Hf; [|eauto].
    rewrite Hq. destruct Hh as [E|[_ E]]; [rewrite E in Hf; eauto|by apply E in Hf].
  - intros id1 w w' Hin. destruct (I3 _ _ _ Hin) as (r1 & p & rep & H1 & H2).
    destruct (decide (id = id1)) as [<-|]; [|exists r1, p, rep; by rewrite lookup_insert_ne].
    exists r', p, rep. rewrite lookup_insert_eq. split; [done|].
    destruct Hh as [E|[E _]]; [congruence|]. assert (r1 = r0) as -> by congruence.
    by apply E in H2.
Qed.

Lemma finish_phase (t : @Target Name) dead o x y rep :
  finish t dead o x y = Delayed rep \/ finish t dead o x y = Replied rep /\ ok rep = true ->
  o = Some rep /\ dead = false.
Proof.
  unfold finish. intros Hf. destruct o as [rep0|]; [|by destruct Hf as [|[[= <-] ?]]].
  repeat case_match; by destruct Hf as [?|[? ?]]; simplify_eq.
Qed.

Lemma rpc_receive_inv wd id req :
  rpc_inv wd -> reqs wd !! id = None ->
  rpc_inv (with_rn (receive req (rn wd))
    (with_req id {| rq := req; ph := Received; hs := NotStarted |} wd)).
Proof.
  intros [I1 IE I2 I3 I4] Hid. split; cbn; try done.
  - intros id1 r1 [[<- <-]|[_ ?]]%lookup_insert_Some; eauto. done.
  - intros id1 r1 [[<- <-]|[_ ?]]%lookup_insert_Some; eauto. by split_and!.
  - intros id1 r1 p rep [[<- <-]|[_ ?]]%lookup_insert_Some; eauto. done.
  - intros id1 w w' Hin. destruct (I3 _ _ _ Hin) as (r1 & p & rep & H1 & H2).
    exists r1, p, rep. rewrite lookup_insert_ne; [done|]. intros ->. congruence.
Qed.

Lemma rpc_run_inv wd id r p svc meth w' rep :
  rpc_inv wd -> reqs wd !! id = Some r -> hs r = Entered p svc meth ->
  Service_dispatch svc meth (rq r) (st wd) = inl (w', rep) ->
  rpc_inv {| rn := rn wd; heap := heap wd;
             reqs := <[id := with_hs (Finished p rep) r]> (reqs wd);
             st := w'; runs := (id, st wd, w') :: runs wd |}.
Proof.
  intros [I1 IE I2 I3 I4] Hr Hh Hd. split; cbn.
  - intros id1 r1 [[<- <-]|[_ ?]]%lookup_insert_Some; [|eauto].
    pose proof (I1 _ _ Hr) as Hp. unfold phase_ok in *. cbn. rewrite Hh in Hp.
    repeat case_match; try done; try (by destruct Hp). by intros [? ?]%Hp.
  - intros id1 r1 [[<- <-]|[_ ?]]%lookup_insert_Some; [|eauto].
    split_and!; [|done..]. apply (IE _ _ Hr).
  - intros id1 r1 p1 rep1 [[<- <-]|[_ ?]]%lookup_insert_Some Hf.
    + cbn in *. injection Hf as <- <-. split; [by eapply Service_dispatch_ok|].
      exists (st wd), w', svc, meth. split_and!; [by left|by eapply (IE _ _ Hr)|done].
    + destruct (I2 _ _ _ _ ltac:(done) Hf) as (? & w1 & w2 & svc1 & m1 & Hin & ? & ?).
      split; [done|]. exists w1, w2, svc1, m1. split_and!; [by right|done|done].
  - intros id1 w1 w2 [[= -> -> ->]|Hin]%elem_of_cons.
    + eexists _, p, rep. by rewrite lookup_insert_eq.
    + destruct (I3 _ _ _ Hin) as (r1 & p1 & rep1 & H1 & H2).
      destruct (decide (id = id1)) as [<-|]; [congruence|].
      exists r1, p1, rep1. by rewrite lookup_insert_ne.
  - apply NoDup_cons. split; [|done].
    intros ([id1 w1] & -> & ([[id2 w2] w3] & [= -> ->] & Hin)%list_elem_of_fmap)%list_elem_of_fmap.
    destruct (I3 _ _ _ Hin) as (r1 & p1 & rep1 & H1 & H2). cbn in *. congruence.
Qed.

(** ** Steps, request by request *)

(** What a step does to the requests: nothing, one more, or one of them moves. *)
Inductive moves wd (r : @Request Name GoType V W) : @Request Name GoType V W -> Prop :=
  | mv_read : ph r = Received ->
      moves wd r (with_ph (afterRead (readEndnameInfo (endname (rq r)) (rn wd))) r)
  | mv_noServer : ph r = NoServer -> moves wd r (with_ph (Replied noReply) r)
  | mv_drop t : ph r = Live t -> t_reliable t = false -> moves wd r (with_ph (Replied noReply) r)
  | mv_execute t : ph r = Live t ->
      moves wd r {| rq := rq r; ph := Executing t; hs := Started (t_server t) |}
  | mv_enter p rs rs' svc meth : hs r = Started p -> heap wd !! p = Some rs ->
      Server_dispatch (rq r) rs = inl (rs', svc, meth) ->
      moves wd r (with_hs (Entered p svc meth) r)
  | mv_run p svc meth w' rep : hs r = Entered p svc meth ->
      Service_dispatch svc meth (rq r) (st wd) = inl (w', rep) ->
      moves wd r (with_hs (Finished p rep) r)
  | mv_recv t p rep : ph r = Executing t -> hs r = Finished p rep ->
      moves wd r (with_ph (Returned t (Some rep)) r)
  | mv_dead t : ph r = Executing t ->
      isServerDead (endname (rq r)) (t_name t) (t_server t) (rn wd) = true ->
      moves wd r (with_ph (Returned t None) r)
  | mv_finish t o x y : ph r = Returned t o ->
      moves wd r (with_ph
        (finish t (isServerDead (endname (rq r)) (t_name t) (t_server t) (rn wd)) o x y) r)
  | mv_delayed rep : ph r = Delayed rep -> moves wd r (with_ph (Replied rep) r).

Lemma step_moves wd wd' :
  step wd wd' ->
  reqs wd' = reqs wd \/
  (exists id req, reqs wd !! id = None /\
     reqs wd' = <[id := {| rq := req; ph := Received; hs := NotStarted |}]> (reqs wd)) \/
  exists id r r', reqs wd !! id = Some r /\ moves wd r r' /\ reqs wd' = <[id := r']> (reqs wd).
Proof.
  destruct 1; cbn; auto; right; [left; eauto|..]; right; eexists _, _, _;
    (split; [done|split; [|done]]); subst; try (by econstructor).
  unfold drops in *. destruct (t_reliable t) eqn:Ht; [done|]. by eapply mv_drop.
Qed.

(** One request through a step. *)
Lemma step_one wd wd' id r :
  step wd wd' -> reqs wd !! id = Some r ->
  exists r', reqs wd' !! id = Some r' /\ (r' = r \/ moves wd r r').
Proof.
  intros [->|[(id1 & req & Hn & ->)|(id1 & r1 & r' & H1 & Hm & ->)]]%step_moves Hr; [by eauto|..].
  - exists r. split; [|by left]. rewrite lookup_insert_ne; [done|]. by intros ->; simplify_eq.
  - destruct (decide (id1 = id)) as [->|]; [|exists r; rewrite lookup_insert_ne by done; by auto].
    exists r'. rewrite lookup_insert_eq. simplify_eq. by auto.
Qed.

Lemma moves_rq wd r r' : moves wd r r' -> rq r' = rq r.
Proof. by destruct 1. Qed.

(** The reply a request may still get is the one its handler finished with. *)
Lemma moves_phase_ok wd r r' : moves wd r r' -> phase_ok r -> phase_ok r'.
Proof.
  unfold phase_ok. destruct 1 as [E|E|t E|t E|p rs rs' svc meth E ? ?|p svc meth w' rep E ?|t p rep E ?
    |t E|t o x y E|rep E]; cbn; rewrite E; cbn; try done.
  - intros Hh. unfold afterRead. by repeat case_match.
  - intros. repeat case_match; try done; naive_solver.
  - intros. repeat case_match; try done; naive_solver.
  - eauto.
  - intros Hh. destruct (finish t _ o x y) as [| |?|?|? ?|rep|rep] eqn:Hf;
      try (unfold finish in Hf; repeat case_match; done).
    + by destruct (finish_phase _ _ _ _ _ _ (or_introl Hf)) as [-> _].
    + intros Hrep. by destruct (finish_phase _ _ _ _ _ _ (or_intror (conj Hf Hrep))) as [-> _].
Qed.

Lemma read_sent wd id r t :
  Seen wd -> reqs wd !! id = Some r -> ph r = Received ->
  afterRead (readEndnameInfo (endname (rq r)) (rn wd)) = Live t -> sent_to id (rq r) (t_server t).
Proof.
  intros Hw Hr Hp Ha. unfold afterRead, readEndnameInfo in Ha. cbn in Ha.
  destruct (isEnabled _ _) eqn:He; [|done].
  destruct (connection _ _) as [nm|] eqn:Hc; [|done]. cbn in Ha.
  destruct (serverAt nm _) as [p|] eqn:Hs; [|done]. injection Ha as <-.
  exists wd. split; [done|]. by exists r, nm.
Qed.

Lemma moves_route wd id r r' :
  Seen wd -> (forall x, Seen x -> rtc step x wd) -> reqs wd !! id = Some r -> phase_ok r -> moves wd r r' -> route_ok id r -> route_ok id r'.
Proof.
  intros Hw Hpast Hr Hok Hm (R1 & R2 & R3). unfold route_ok.
  destruct Hm as [E|E|t E|t E|p rs rs' svc meth E ? ?|p svc meth w' rep E ?|t p rep E ?
    |t E|t o x y E|rep E]; cbn; (split; [|split]); try done; intros *; try congruence.
  - intros Ha. by eapply read_sent.
  - intros [= <-]. by apply R1.
  - intros [= <- <- <-]. destruct (R2 p E) as (x & Hx & Hsent).
    exists x, wd, p. split_and!; auto. by exists rs, rs'.
  - unfold finish. by repeat case_match.
Qed.

Lemma rpc_step_inv wd wd' : step wd wd' -> Seen wd -> (forall x, Seen x -> rtc step x wd) ->
  rpc_inv wd -> rpc_inv wd'.
Proof.
  intros Hs Hw Hpast Hinv. pose proof (ri_phase _ Hinv) as I1. pose proof (ri_entered _ Hinv) as IE.
  destruct Hs as [a x Ha|p Hp|p rs svc Hp|id req Hid He|id r Hr Hph|id r Hr Hph|id r t x Hr Hph Hd
    |id r t x Hr Hph Hd|id r p rs rs' svc meth Hr Hh Hp Hd|id r p svc meth w' rep Hr Hh Hd
    |id r t p rep Hr Hph Hh|id r t Hr Hph Hd|id r t o x y p' Hr Hph <-|id r rep Hr Hph];
    try (by destruct Hinv; split); [by apply rpc_receive_inv|..];
    try (by eapply rpc_run_inv);
    (apply (rpc_update_inv wd id r); [done|exact Hr|done|try (by left)| |]);
    try (eapply (moves_phase_ok wd r); [by econstructor|by eauto]);
    try (eapply (moves_route wd id r); [done|done|done|by eauto|by econstructor|by eauto]).
  - apply (moves_phase_ok wd r); [|by eauto]. eapply mv_drop; [done|].
    unfold drops in Hd. by destruct (t_reliable t).
  - apply (moves_route wd id r); [done|done|done|by eauto| |by eauto]. eapply mv_drop; [done|].
    unfold drops in Hd. by destruct (t_reliable t).
  - right. pose proof (I1 _ _ Hr) as Hok. unfold phase_ok in Hok. rewrite Hph in Hok.
    by rewrite Hok.
  - right. cbn. by rewrite Hh.
Qed.
End routes.

Lemma rpc_inv_mono (S1 S2 : @World Name GoType V W _ _ -> Prop) wd :
  (forall x, S1 x -> S2 x) -> rpc_inv S1 wd -> rpc_inv S2 wd.
Proof.
  intros HH [I1 IE I2 I3 I4].
  assert (forall id req p, sent_to S1 id req p -> sent_to S2 id req p) as Hs
    by (intros id req p (x & ? & ?); exists x; auto).
  assert (forall id req svc meth, routed S1 id req svc meth -> routed S2 id req svc meth) as Hr.
  { intros id req svc meth (x & y & p & ? & ? & ? & ?). exists x, y, p. auto. }
  split; [done| | |done|done].
  - intros id r (R1 & R2 & R3)%IE. split_and!; eauto.
  - intros id r p rep Hid Hh. destruct (I2 _ _ _ _ Hid Hh) as (? & w & w' & svc & meth & ? & ? & ?).
    split; [done|]. exists w, w', svc, meth. auto.
Qed.

Lemma rpc_past_step wd0 wd wd' :
  rtc step wd0 wd -> step wd wd' -> rpc_inv (past wd0 wd) wd -> rpc_inv (past wd0 wd') wd'.
Proof.
  intros H0 Hs Hinv. apply (rpc_inv_mono (past wd0 wd)).
  - intros x [? ?]. split; [done|]. by eapply rtc_r.
  - eapply rpc_step_inv; [done|by split|by intros x [_ ?]|done].
Qed.

Lemma rpc_initial_inv S wd0 : initial wd0 -> rpc_inv S wd0.
Proof.
  intros (_ & _ & Hr & Hruns).
  split; rewrite ?Hr, ?Hruns; try done; [..|constructor]; intros *; try (by rewrite lookup_empty).
  intros Hin. by inv Hin.
Qed.

Lemma rpc_reachable_inv wd0 wd : initial wd0 -> rtc step wd0 wd -> rpc_inv (past wd0 wd) wd.
Proof.
  intros H0. revert wd. apply rtc_ind_r; [by apply rpc_initial_inv|].
  intros wd wd' Hs Hst IH. by eapply rpc_past_step.
Qed.

(** ** What a call returns *)

(** C25: a call runs its method at most once, whatever the network does; and if it
    returns true, exactly once: at some moment of the run its end was enabled and
    connected to a name under which a server was registered; later that very server looked
    the method up under the name of the call; and it ran with the client's argument and
    gave the reply (decoded into a fresh variable of the reply's type). *)
Theorem call_exactly_once `{!GobLaws GoType V} wd0 wd id r rep e meth args :
  initial wd0 -> rtc step wd0 wd ->
  NoDup (runs wd).*1.*1 /\
  (reqs wd !! id = Some r -> sendable args -> Call_request e meth args = inl (rq r) ->
   ph r = Replied rep -> ok rep = true ->
   exists wd1 wd2 p svc mname m t0 t1 t2 w w' v,
     rtc step wd0 wd1 /\ rtc step wd1 wd2 /\ rtc step wd2 wd /\
     sent_at wd1 id (rq r) p /\ found_at wd2 (rq r) p svc mname /\
     methods svc !! mname = Some m /\ m_In m = [t0; t1; t2] /\
     (id, w, w') ∈ runs wd /\ m_Func m args (zero (elemOf t2)) w = (w', v) /\
     (typeOf v = elemOf t2 -> sendable v ->
      Call_return rep (zero (elemOf t2)) = inl (true, v))).
Proof.
  intros H0 Hs. pose proof (rpc_reachable_inv _ _ H0 Hs) as Hinv. split; [apply Hinv|].
  intros Hr Ha Hq Hph Hok.
  pose proof (ri_phase _ _ Hinv _ _ Hr) as Hp. unfold phase_ok in Hp. rewrite Hph in Hp.
  destruct (Hp Hok) as [p0 Hh].
  destruct (ri_ran _ _ Hinv _ _ _ _ Hr Hh) as (_ & w & w' & svc & mname & Hin & Hro & Hd).
  destruct Hro as (wd1 & wd2 & p & [? _] & [_ ?] & ? & Hsent & Hfound).
  unfold Service_dispatch in Hd. destruct (methods svc !! mname) as [m|] eqn:Hm; [|done].
  unfold Call_request in Hq. destruct (encode args) as [data encoded] eqn:Hen.
  destruct encoded; [|done]. injection Hq as Hq.
  assert ((decodeInto (zero (argsType (rq r))) (rq_args (rq r))).1 = args) as Hde.
  { rewrite <- Hq. cbn. pose proof (decode_encode args Ha) as Hde. rewrite Hen in Hde. cbn in Hde.
    by rewrite Hde. }
  rewrite Hde in Hd.
  destruct (m_In m) as [|t0 [|t1 [|t2 [|]]]] eqn:Ht; try done. case_decide; [|done].
  cbn in Hd. destruct (m_Func m args (zero (elemOf t2)) w) as [w1 v] eqn:Hf. injection Hd as <- <-.
  exists wd1, wd2, p, svc, mname, m, t0, t1, t2, w, w1, v. split_and!; try done.
  intros Hv Hse. unfold Call_return. cbn. rewrite <- Hv. by rewrite (decode_encode v Hse).
Qed.

(** ** Which calls fail *)

(** A request that waits for the server object of [t]. *)
Definition waits (t : @Target Name) r : Prop :=
  ph r = Live t \/ ph r = Executing t \/ exists o, ph r = Returned t o.

(** The server object is no longer the one at its name. *)
Definition gone (t : @Target Name) wd : Prop := serverAt (t_name t) (rn wd) <> Some (t_server t).

(** The server object is at its name and the end is enabled. *)
Definition alive e (t : @Target Name) wd : Prop :=
  isServerDead e (t_name t) (t_server t) (rn wd) = false.

Lemma gone_dead e t wd : gone t wd -> isServerDead e (t_name t) (t_server t) (rn wd) = true.
Proof.
  unfold gone, isServerDead. intros Hg. rewrite bool_decide_eq_false_2 by done.
  by rewrite orb_true_r.
Qed.

(** A request whose server is gone keeps waiting or fails. *)
Lemma gone_moves wd r r' t :
  moves wd r r' -> gone t wd -> waits t r \/ ph r = Replied noReply ->
  waits t r' \/ ph r' = Replied noReply.
Proof.
  intros Hm Hg Hw. pose proof (gone_dead (endname (rq r)) _ _ Hg) as Hd. unfold waits in *.
  destruct Hm as [E|E|t1 E|t1 E|p rs rs' svc meth E ? ?|p svc meth w' rep E ?|t1 p rep E ?
    |t1 E ?|t1 o x y E|rep E]; cbn in *; rewrite ?E in Hw;
    destruct Hw as [[Hw|[Hw|[? Hw]]]|Hw]; simplify_eq; try (by eauto 6).
  right. rewrite Hd. unfold finish. by case_match.
Qed.

(** Once the server a request was sent to has been deleted, or replaced under
    its name, the request is never answered: however long its handler runs on, the
    call returns false, as long as that server object is not added again. *)
Theorem deleted_server_silent wd wd' id r r' rep t :
  reqs wd !! id = Some r -> waits t r -> gone t wd ->
  rtc (fun a b => step a b /\ gone t b) wd wd' ->
  reqs wd' !! id = Some r' -> ph r' = Replied rep -> rep = noReply.
Proof.
  intros Hr Hw Hg Hs Hr' Hrep.
  assert (exists r2, reqs wd' !! id = Some r2 /\ (waits t r2 \/ ph r2 = Replied noReply)) as Hx.
  { assert (waits t r \/ ph r = Replied noReply) as Hw' by auto. clear Hw Hr' Hrep.
    revert r Hr Hw' Hg. induction Hs as [|a b c [Hab Hb] _ IH]; intros r Hr Hw Hg; [by eauto|].
    destruct (step_one _ _ _ _ Hab Hr) as (r2 & Hr2 & [->|Hm]); [by eapply IH|].
    eapply IH; [done| |done]. by eapply gone_moves. }
  destruct Hx as (r2 & E & Hx). simplify_eq. unfold waits in Hx.
  destruct Hx as [[?|[?|[? ?]]]|?]; congruence.
Qed.

(** A request sent reliably to a server that stays keeps its way to an answer. *)
Definition answering (t : @Target Name) r : Prop :=
  ph r = Live t \/ ph r = Executing t \/ exists rep,
    (ph r = Returned t (Some rep) \/ ph r = Delayed rep \/ ph r = Replied rep) /\
    exists p, hs r = Finished p rep.

Lemma alive_moves wd r r' t :
  moves wd r r' -> t_reliable t = true -> alive (endname (rq r)) t wd ->
  answering t r -> answering t r'.
Proof.
  intros Hm Ht Ha Hw. unfold answering, alive in *.
  destruct Hm as [E|E|t1 E|t1 E|p rs rs' svc meth E ? ?|p svc meth w' rep E ?|t1 p rep E ?
    |t1 E ?|t1 o x y E|rep E]; cbn in *; rewrite ?E in Hw;
    destruct Hw as [Hw|[Hw|[rp [[Hw|[Hw|Hw]] [p1 Hh]]]]]; simplify_eq; try (by eauto 10);
    try congruence.
  rewrite Ha. unfold finish, drops. rewrite Ht. cbn. right; right. exists rp.
  split; [|by eauto]. destruct (t_longreordering t && _); auto.
Qed.

(** A reliable network loses nothing: a request that found a server while the
    network was reliable is not failed as long as that server stays at its name
    and the end stays enabled. *)
Theorem reliable_call_succeeds wd wd' id r r' rep t :
  reachable wd -> reqs wd !! id = Some r -> ph r = Live t -> t_reliable t = true ->
  alive (endname (rq r)) t wd ->
  rtc (fun a b => step a b /\ alive (endname (rq r)) t b) wd wd' ->
  reqs wd' !! id = Some r' -> ph r' = Replied rep -> ok rep = true.
Proof.
  intros (wd0 & H0 & Hre) Hr Hp Ht Ha Hs Hr' Hrep.
  assert (rpc_inv (past wd0 wd') wd') as Hinv.
  { apply rpc_reachable_inv; [done|]. etrans; [exact Hre|].
    eapply rtc_subrel; [|exact Hs]. by intros ? ? [? _]. }
  assert (exists r2, reqs wd' !! id = Some r2 /\ answering t r2) as Hx.
  { assert (answering t r) as Hw by (by left). clear Hp Hr' Hrep Hre Hinv.
    remember (endname (rq r)) as e eqn:He. revert r Hr Hw Ha He.
    induction Hs as [|a b c [Hab Hb] _ IH]; intros r Hr Hw Ha He; [by eauto|].
    destruct (step_one _ _ _ _ Hab Hr) as (r2 & Hr2 & Hm).
    eapply (IH r2); [done| |done|].
    - destruct Hm as [->|Hm]; [done|]. eapply alive_moves; try done. by rewrite <- He.
    - destruct Hm as [->|Hm]; [done|]. by rewrite (moves_rq _ _ _ Hm). }
  destruct Hx as (r2 & E & Hx). assert (r2 = r') as -> by congruence. unfold answering in Hx. rewrite Hrep in Hx.
  destruct Hx as [?|[?|(rp & [?|[?|[= <-]]] & p & Hh)]]; try done.
  by destruct (ri_ran _ _ Hinv _ _ _ _ E Hh).
Qed.

(** ** Calls return *)

(** How many steps [processReq] still takes at most. *)
Definition rank (p : @Phase Name) : nat :=
  match p with
  | Received => 5 | Live _ => 4 | Executing _ => 3 | Returned _ _ => 2
  | NoServer | Delayed _ => 1 | Replied _ => 0
  end.

Lemma moves_rank wd r r' :
  moves wd r r' -> ph r' = ph r \/ (rank (ph r') < rank (ph r))%nat.
Proof.
  destruct 1 as [E|E|t E|t E|p rs rs' svc meth E ? ?|p svc meth w' rep E ?|t p rep E ?
    |t E|t o x y E|rep E]; cbn; rewrite ?E; cbn; auto; right; try lia.
  - unfold afterRead. repeat case_match; cbn; lia.
  - unfold finish. repeat case_match; cbn; lia.
Qed.

(** C26: a call returns unless its handler does not: no step of the network brings
    a request back or away from its reply, [processReq] takes at most five steps, and
    it can always take one unless it waits for a handler, on a live server, that
    has not finished. *)
Theorem call_returns wd id r :
  reqs wd !! id = Some r ->
  (forall wd', step wd wd' -> exists r', reqs wd' !! id = Some r' /\
     (ph r' = ph r \/ (rank (ph r') < rank (ph r) <= 5)%nat)) /\
  ((exists rep, ph r = Replied rep) \/
   (exists wd' r', step wd wd' /\ reqs wd' !! id = Some r' /\ (rank (ph r') < rank (ph r))%nat) \/
   (exists t, ph r = Executing t /\ alive (endname (rq r)) t wd /\
      forall p rep, hs r <> Finished p rep)).
Proof.
  intros Hr. split.
  - intros wd' Hs. destruct (step_one _ _ _ _ Hs Hr) as (r' & Hr' & [->|Hm]); [by eauto|].
    exists r'. split; [done|]. destruct (moves_rank _ _ _ Hm) as [|Hl]; [by auto|]. right.
    split; [done|]. destruct (ph r); cbn; lia.
  - assert (forall wd' r', step wd wd' -> reqs wd' = <[id := r']> (reqs wd) -> ph r' <> ph r ->
      moves wd r r' -> exists wd' r', step wd wd' /\ reqs wd' !! id = Some r' /\
        (rank (ph r') < rank (ph r))%nat) as Hgo.
    { intros wd' r' Hs E Hne Hm. exists wd', r'. rewrite E, lookup_insert_eq. split_and!; try done.
      by destruct (moves_rank _ _ _ Hm). }
    destruct (ph r) as [| |t|t|t o|rep|rep] eqn:E; [| | | | | |by eauto]; right.
    + left. eapply Hgo; [by eapply step_read|done| |by apply mv_read].
      cbn. unfold afterRead. by repeat case_match.
    + left. eapply Hgo; [by eapply step_noServer|done|done|by apply mv_noServer].
    + left. eapply Hgo; [eapply step_execute with (x := 100); [done|done|]|done|done|by apply mv_execute].
      unfold drops. by rewrite andb_false_r.
    + destruct (isServerDead (endname (rq r)) (t_name t) (t_server t) (rn wd)) eqn:Hd.
      { left. eapply Hgo; [by eapply step_dead|done|done|by eapply mv_dead]. }
      destruct (hs r) as [|p|p svc meth|p rep] eqn:Hh; try (right; by exists t).
      left. eapply Hgo; [by eapply step_recv|done|done|by eapply mv_recv].
    + left. eapply Hgo; [by eapply step_finish with (r1 := 0) (r2 := 0)|done| |by eapply mv_finish].
      cbn. unfold finish. by repeat case_match.
    + left. eapply Hgo; [by eapply step_delayed|done|done|by eapply mv_delayed].
Qed.

(** ** From the name to the method *)

#[local] Arguments String.append !_ _ / : simpl nomatch.

Lemma LastIndex_none c s : c ∉ String.list_ascii_of_string s -> LastIndex c s = -1.
Proof.
  induction s as [|a s IH]; cbn; [done|]. intros [Hne Hs]%not_elem_of_cons.
  rewrite IH by done. cbn. destruct (Ascii.eqb_spec a c); [congruence|done].
Qed.

Lemma LastIndex_split c a b :
  c ∉ String.list_ascii_of_string b ->
  LastIndex c (String.append a (String c b)) = Z.of_nat (String.length a).
Proof.
  intros Hb. induction a as [|x a IH]; cbn.
  - rewrite LastIndex_none by done. by rewrite Ascii.eqb_refl.
  - rewrite IH. destruct (Z.leb_spec 0 (Z.of_nat (String.length a))); lia.
Qed.

(** [service.method], the method without a dot. *)
Definition methodName (service meth : string) : string :=
  String.append service (String dotChar meth).

Lemma Server_dispatch_name (req : @reqMsg Name GoType) (rs : @Server GoType V W) service meth :
  svcMeth req = methodName service meth -> dotChar ∉ String.list_ascii_of_string meth ->
  Server_dispatch req rs =
    match services rs !! service with
    | Some svc => inl ({| services := services rs;
                          srv_count := ClientId.int64 (srv_count rs + 1) |}, svc, meth)
    | None => inr Fatal
    end.
Proof.
  intros Hq Hd. unfold Server_dispatch. rewrite Hq.
  assert (LastIndex dotChar (methodName service meth) = Z.of_nat (String.length service)) as ->
    by (by apply LastIndex_split).
  destruct (Z.ltb_spec (Z.of_nat (String.length service)) 0); [lia|]. cbn [services].
  rewrite Nat2Z.id. unfold methodName. rewrite substring_app_0.
  replace (Z.to_nat (Z.of_nat (String.length service) + 1))
    with (String.length (String.append service (String dotChar EmptyString)))
    by (rewrite str_length_app; cbn; lia).
  replace (String.append service (String dotChar meth)) with
    (String.append (String.append service (String dotChar EmptyString)) meth)
    by (by rewrite <- str_app_assoc).
  rewrite (str_length_app _ meth), (Nat.add_comm _ (String.length meth)), Nat.add_sub.
  by rewrite substring_app_end.
Qed.

Lemma MakeService_methods name (ms : list (@Method GoType V W)) k m :
  NoDup (m_Name <$> ms) ->
  methods (MakeService name ms) !! k = Some m <-> m ∈ ms /\ suitable m = true /\ m_Name m = k.
Proof.
  unfold MakeService. cbn [methods].
  induction ms as [|m1 ms IH] using rev_ind; intros Hnd; cbn [foldl].
  - rewrite lookup_empty. split; [done|]. intros [Hin _]. by apply not_elem_of_nil in Hin.
  - rewrite foldl_snoc. rewrite fmap_app in Hnd. apply NoDup_app in Hnd as (Hnd & Hdis & _).
    specialize (IH Hnd). rewrite elem_of_app, list_elem_of_singleton.
    assert (forall m2, m2 ∈ ms -> m_Name m2 <> m_Name m1) as Hne.
    { intros m2 Hm2 E. apply (Hdis (m_Name m2)); [by apply list_elem_of_fmap_2|].
      rewrite E. by left. }
    destruct (suitable m1) eqn:Hs; [destruct (decide (m_Name m1 = k)) as [<-|Hk]|].
    + rewrite lookup_insert_eq. split; [intros [= <-]; auto|].
      intros ([Hin| ->] & _ & E); [by destruct (Hne _ Hin)|done].
    + rewrite lookup_insert_ne, IH by done. split; [intros (? & ? & ?); auto|].
      intros ([Hin| ->] & ? & ?); [auto|done].
    + rewrite IH. split; [intros (? & ? & ?); auto|].
      intros ([Hin| ->] & ? & ?); [auto|congruence].
Qed.

(** The name of a call is split at its last dot.  A request for a method of a
    service made from a receiver and added to the server runs exactly that method,
    on the client's argument and a fresh reply, if it looks like a handler; a
    method that does not, and an unknown service, end the process with
    [log.Fatalf], a name without a dot with a panic. *)
Theorem dispatch_runs_method `{!GobLaws GoType V} (rs : @Server GoType V W) name ms
    (req : @reqMsg Name GoType) e full args w :
  sendable args -> Call_request e full args = inl req ->
  let svc := MakeService name ms in
  let rs1 := AddService svc rs in
  (dotChar ∉ String.list_ascii_of_string full -> Server_dispatch req rs1 = inr Panic) /\
  (forall service meth, full = methodName service meth ->
     dotChar ∉ String.list_ascii_of_string meth ->
     (services rs1 !! service = None -> Server_dispatch req rs1 = inr Fatal) /\
     (service = name -> NoDup (m_Name <$> ms) ->
      Server_dispatch req rs1 = inl ({| services := services rs1;
        srv_count := ClientId.int64 (srv_count rs + 1) |}, svc, meth) /\
      ((forall m, m ∈ ms -> m_Name m = meth -> suitable m = false) ->
       Service_dispatch svc meth req w = inr Fatal) /\
      (forall m t0 t2, m ∈ ms -> m_Name m = meth -> suitable m = true ->
        m_In m = [t0; typeOf args; t2] ->
        Service_dispatch svc meth req w =
          let '(w', v) := m_Func m args (zero (elemOf t2)) w in
          inl (w', {| ok := true; reply := (encode v).1 |})))).
Proof.
  intros Ha Hq svc rs1. unfold Call_request in Hq. pose proof (decode_encode args Ha) as Hde.
  destruct (encode args) as [data []]; [|done]. injection Hq as <-. cbn in Hde. split.
  { intros Hd. unfold Server_dispatch. cbn [svcMeth]. by rewrite LastIndex_none. }
  intros service meth -> Hd. erewrite Server_dispatch_name by done. split; [by intros ->|].
  intros -> Hnd. cbn. rewrite lookup_insert_eq. split; [done|]. unfold Service_dispatch. split.
  - intros Hun. destruct (methods svc !! meth) as [m|] eqn:Hm; [|done]. exfalso.
    apply MakeService_methods in Hm as (Hin & Hs & E); [|done]. by rewrite (Hun _ Hin E) in Hs.
  - intros m t0 t2 Hin E Hs Ht.
    assert (methods svc !! meth = Some m) as -> by (by apply MakeService_methods).
    rewrite Ht. cbn. rewrite decide_True by done. by rewrite Hde.
Qed.

(** ** Statistics *)

(** The server whose [dispatch] counted the request. *)
Definition countedAt r : option nat :=
  match hs r with
  | Entered p _ _ | Finished p _ => Some p
  | NotStarted | Started _ => None
  end.

Definition arrivals (p : nat) (m : gmap nat (@Request Name GoType V W)) : Z :=
  Z.of_nat (size (filter (fun x => countedAt x.2 = Some p) m)).

Record count_inv wd : Prop := {
  ci_total : count (rn wd) = int32 (Z.of_nat (size (reqs wd)));
  ci_server p rs : heap wd !! p = Some rs -> srv_count rs = ClientId.int64 (arrivals p (reqs wd));
  ci_heap id r p : reqs wd !! id = Some r -> countedAt r = Some p -> is_Some (heap wd !! p);
}.

Lemma int32_add z : int32 (int32 z + 1) = int32 (z + 1).
Proof.
  unfold int32. f_equal. replace ((z + 2 ^ 31) mod 2 ^ 32 - 2 ^ 31 + 1 + 2 ^ 31)
    with ((z + 2 ^ 31) mod 2 ^ 32 + 1) by lia.
  rewrite Zplus_mod_idemp_l. f_equal. lia.
Qed.
Lemma arrivals_fresh p m id r :
  m !! id = None ->
  arrivals p (<[id := r]> m) = arrivals p m + (if decide (countedAt r = Some p) then 1 else 0).
Proof.
  intros Hm. unfold arrivals. case_decide as Hc.
  - rewrite map_filter_insert_True by done.
    rewrite map_size_insert_None; [lia|]. apply map_lookup_filter_None. by left.
  - rewrite map_filter_insert_False by done. rewrite delete_id by done. lia.
Qed.

Lemma arrivals_update p m id r0 r :
  m !! id = Some r0 ->
  arrivals p (<[id := r]> m) + (if decide (countedAt r0 = Some p) then 1 else 0) =
  arrivals p m + (if decide (countedAt r = Some p) then 1 else 0).
Proof.
  intros Hm. pose proof (lookup_delete_eq m id) as Hd.
  rewrite <- (insert_delete_id m id r0 Hm) at 2. rewrite <- (insert_delete_eq m id r).
  rewrite !arrivals_fresh by done. lia.
Qed.

(** A step that counts nothing at a server. *)
Lemma count_update wd id r0 r' (x : @Network Name _ _) w l :
  count_inv wd -> reqs wd !! id = Some r0 -> countedAt r' = countedAt r0 ->
  count x = count (rn wd) ->
  count_inv {| rn := x; heap := heap wd; reqs := <[id := r']> (reqs wd); st := w; runs := l |}.
Proof.
  intros [I1 I2 I3] Hr Hc Hx. split; cbn.
  - rewrite map_size_insert_Some by (by rewrite Hr). congruence.
  - intros p rs Hp. rewrite (I2 _ _ Hp). pose proof (arrivals_update p _ _ _ r' Hr) as Ha.
    rewrite Hc in Ha. f_equal. lia.
  - intros id1 r1 p [[<- <-]|[_ ?]]%lookup_insert_Some Hr1; [|by eauto].
    eapply I3; [exact Hr|congruence].
Qed.

Lemma count_enter wd id r p rs rs' svc meth :
  count_inv wd -> reqs wd !! id = Some r -> hs r = Started p -> heap wd !! p = Some rs ->
  Server_dispatch (rq r) rs = inl (rs', svc, meth) ->
  count_inv (with_server p rs' (with_req id (with_hs (Entered p svc meth) r) wd)).
Proof.
  intros [I1 I2 I3] Hr Hh Hp Hd. split; cbn.
  - rewrite map_size_insert_Some by (by rewrite Hr). done.
  - intros p1 rs1. pose proof (arrivals_update p1 _ _ _ (with_hs (Entered p svc meth) r) Hr) as Ha.
    assert (countedAt r = None) as Hr0 by (unfold countedAt; by rewrite Hh).
    rewrite (decide_False (P := countedAt r = _)) in Ha by congruence.
    intros [[<- <-]|[Hne Hp1]]%lookup_insert_Some.
    + rewrite decide_True in Ha by done. rewrite Z.add_0_r in Ha. rewrite Ha.
      assert (srv_count rs' = ClientId.int64 (srv_count rs + 1)) as ->.
      { unfold Server_dispatch in Hd. by repeat case_match; simplify_eq/=. }
      rewrite (I2 _ _ Hp). apply ClientId.int64_add_l.
    + rewrite decide_False in Ha by (cbn; congruence). rewrite (I2 _ _ Hp1). f_equal. lia.
  - intros id1 r1 p1 [[<- <-]|[_ ?]]%lookup_insert_Some Hr1.
    + injection Hr1 as ->. by rewrite lookup_insert_eq.
    + rewrite lookup_insert_is_Some. destruct (decide (p = p1)); [by left|right]. by eauto.
Qed.

Lemma count_receive wd id req :
  count_inv wd -> reqs wd !! id = None ->
  count_inv (with_rn (receive req (rn wd))
    (with_req id {| rq := req; ph := Received; hs := NotStarted |} wd)).
Proof.
  intros [I1 I2 I3] Hr. split; cbn.
  - rewrite map_size_insert_None by done. rewrite I1, int32_add. f_equal. lia.
  - intros p rs Hp. rewrite (I2 _ _ Hp), arrivals_fresh, decide_False by done.
    f_equal. lia.
  - intros id1 r1 p [[<- <-]|[_ ?]]%lookup_insert_Some Hr1; [done|by eauto].
Qed.

Lemma count_server wd p rs n :
  count_inv wd -> heap wd !! p = None /\ n = 0 \/
    (exists rs0, heap wd !! p = Some rs0 /\ srv_count rs0 = n) -> srv_count rs = n ->
  count_inv (with_server p rs wd).
Proof.
  intros [I1 I2 I3] Hp Hn. split; cbn; [done|..].
  - intros p1 rs1 [[<- <-]|[_ ?]]%lookup_insert_Some; [|by eauto].
    destruct Hp as [[Hp ->]|(rs0 & Hp & <-)]; [|rewrite Hn; by eauto].
    rewrite Hn. unfold arrivals. replace (filter _ (reqs wd)) with (∅ : gmap nat (@Request Name GoType V W));
      [done|]. symmetry. apply map_empty. intros id. apply map_lookup_filter_None. right.
    intros r Hr Hc. cbn in Hc. destruct (I3 _ _ _ Hr Hc). congruence.
  - intros id r p1 Hr Hc. rewrite lookup_insert_is_Some.
    destruct (decide (p = p1)); [by left|right]. by eauto.
Qed.

Lemma admin_count a x x' : admin a x = inl x' -> @count Name _ _ x' = count x.
Proof.
  destruct a; cbn; unfold MakeEnd, Cleanup; intros Ha; repeat case_match; by simplify_eq.
Qed.

Lemma count_step wd wd' : step wd wd' -> (forall id r, reqs wd !! id = Some r -> phase_ok r) -> count_inv wd -> count_inv wd'.
Proof.
  intros Hs Hi Hc. destruct Hs as [a x Ha|p Hp|p rs svc Hp|id req Hid He|id r Hr Hph|id r Hr Hph
    |id r t x Hr Hph Hd|id r t x Hr Hph Hd|id r p rs rs' svc meth Hr Hh Hp Hd
    |id r p svc meth w' rep Hr Hh Hd|id r t p rep Hr Hph Hh|id r t Hr Hph Hd|id r t o x y p' Hr Hph <-
    |id r rep Hr Hph];
    try (by apply (count_update wd id r)).
  - destruct Hc as [I1 I2 I3]. split; cbn; try done. by rewrite (admin_count _ _ _ Ha).
  - eapply count_server; [done|by left|done].
  - eapply count_server; [done|right; by eexists|done].
  - by apply count_receive.
  - apply (count_update wd id r); try done. pose proof (Hi _ _ Hr) as Hok.
    unfold phase_ok in Hok. rewrite Hph in Hok. unfold countedAt. by rewrite Hok.
  - by eapply count_enter.
  - apply (count_update wd id r); try done. unfold countedAt. by rewrite Hh.
  - apply (count_update wd id r); try done. cbn. by repeat case_match.
Qed.

(** The statistics are right: the network's total is the number of requests
    sent so far, and a server's count the number of requests that have reached its
    [dispatch]; both as the machine integers of the code. *)
Theorem statistics_count wd :
  reachable wd ->
  GetTotalCount (rn wd) = int32 (Z.of_nat (size (reqs wd))) /\
  forall nm p rs, serverAt nm (rn wd) = Some p -> heap wd !! p = Some rs ->
    GetCount nm (rn wd) (heap wd) = Some (ClientId.int64 (arrivals p (reqs wd))).
Proof.
  intros (wd0 & H0 & Hs). assert (count_inv wd) as [I1 I2 _].
  { revert wd Hs. apply rtc_ind_r.
    - destruct H0 as (Hn & Hh & Hr & Hruns).
      split; rewrite ?Hn, ?Hh, ?Hr; try done; intros *; by rewrite lookup_empty.
    - intros wd wd' Hs Hst Hc. eapply count_step; [done| |done].
      eapply ri_phase. by apply (rpc_reachable_inv wd0). }
  split; [exact I1|]. intros nm p rs Hp Hrs. unfold GetCount, Server_GetCount.
  rewrite Hp. cbn. rewrite Hrs. cbn. by rewrite (I2 _ _ Hrs).
Qed.
End props.

(** ** A concrete run *)

Module RpcDemo.
Inductive Ty := TInt | TPtr.
#[global] Instance Ty_eq_dec : EqDecision Ty.
Proof. solve_decision. Defined.
Definition Val : Type := Ty * Z.

#[global] Instance gob : Gob Ty Val := {
  typeOf := fst;
  isPtr t := match t with TPtr => true | TInt => false end;
  elemOf _ := TInt;
  zero t := (t, 0);
  encode v := (Serial.put v.2, true);
  decodeInto v b := match Serial.get b with Some (z, []) => ((v.1, z), true) | _ => (v, false) end;
  sendable _ := True;
}.
#[global] Instance gob_laws : GobLaws Ty Val.
Proof.
  split; [done|]. intros [t z] _. cbn [decodeInto encode gob fst snd zero typeOf].
  pose proof (Serial.get_put z []) as Hg. rewrite app_nil_r in Hg. by rewrite Hg.
Qed.

Definition W : Type := Z.
Definition Wd : Type := @World nat Ty Val W _ _.
Definition Rq : Type := @Request nat Ty Val W.

(** A receiver with a running total; [bad] does not look like a handler. *)
Definition add : @Method Ty Val W :=
  {| m_Name := "Add"; m_PkgPath := EmptyString; m_In := [TPtr; TInt; TPtr]; m_NumOut := 0;
     m_Func args rep w := (w + args.2, (TInt, w + args.2)) |}.
Definition bad : @Method Ty Val W :=
  {| m_Name := "Bad"; m_PkgPath := EmptyString; m_In := [TPtr; TInt; TInt]; m_NumOut := 0;
     m_Func args rep w := (w, rep) |}.
Definition total : @Service Ty Val W := MakeService "Total" [add; bad].

Definition arg : Val := (TInt, 5).
Definition req : @reqMsg nat Ty :=
  {| endname := 7%nat; svcMeth := "Total.Add"; argsType := TInt; rq_args := (encode arg).1 |}.

Definition reqBad : @reqMsg nat Ty :=
  {| endname := 7%nat; svcMeth := "Total.Bad"; argsType := TInt; rq_args := (encode arg).1 |}.

Definition adm (a : @Admin nat) (wd : Wd) : Wd :=
  match admin a (rn wd) with inl x => with_rn x wd | inr _ => wd end.
Definition upd (f : Wd -> Rq -> Rq) (wd : Wd) : Wd :=
  match reqs wd !! 0%nat with Some r => with_req 0 (f wd r) wd | None => wd end.

Definition w0 : Wd := {| rn := MakeNetwork; heap := ∅; reqs := ∅; st := 0; runs := [] |}.
Definition w1 : Wd := adm (AMakeEnd 7%nat) w0.
Definition w2 : Wd := with_server 3 MakeServer w1.
Definition w3 : Wd := with_server 3 (AddService total MakeServer) w2.
Definition w4 : Wd := adm (AAddServer 1%nat 3) w3.
Definition w5 : Wd := adm (AConnect 7%nat 1%nat) w4.
Definition w6 : Wd := adm (AEnable 7%nat true) w5.
Definition w7 : Wd :=
  with_rn (receive req (rn w6)) (with_req 0 {| rq := req; ph := Received; hs := NotStarted |} w6).
Definition w8 : Wd :=
  upd (fun wd r => with_ph (afterRead (readEndnameInfo (endname (rq r)) (rn wd))) r) w7.
Definition tgt : @Target nat :=
  {| t_name := 1%nat; t_server := 3; t_reliable := true; t_longreordering := false |}.
Definition w9 : Wd :=
  upd (fun _ r => {| rq := rq r; ph := Executing tgt; hs := Started 3 |}) w8.
Definition w10 : Wd :=
  with_server 3 {| services := services (AddService total MakeServer); srv_count := 1 |}
    (upd (fun _ r => with_hs (Entered 3 total "Add") r) w9).
Definition rep : replyMsg := {| ok := true; reply := Serial.put 5 |}.
Definition r11 : Rq := {| rq := req; ph := Executing tgt; hs := Finished 3 rep |}.
Definition w11 : Wd :=
  {| rn := rn w10; heap := heap w10; reqs := <[0%nat := r11]> (reqs w10); st := 5;
     runs := [(0%nat, 0, 5)] |}.
Definition w12 : Wd := upd (fun _ r => with_ph (Returned tgt (Some rep)) r) w11.
Definition w13 : Wd :=
  with_rn (noteReply rep (rn w12)) (upd (fun _ r => with_ph (Replied rep) r) w12).
Definition r13 : Rq := {| rq := req; ph := Replied rep; hs := Finished 3 rep |}.

(** While the handler runs, the server is replaced. *)
Definition d10 : Wd := adm (ADeleteServer 1%nat) w10.
Definition r10 : Rq := {| rq := req; ph := Executing tgt; hs := Entered 3 total "Add" |}.
Definition d11 : Wd :=
  {| rn := rn d10; heap := heap d10; reqs := <[0%nat := r11]> (reqs d10); st := 5;
     runs := [(0%nat, 0, 5)] |}.
Definition d12 : Wd := upd (fun _ r => with_ph (Returned tgt (Some rep)) r) d11.
Definition d13 : Wd := upd (fun _ r => with_ph (Replied noReply) r) d12.

Lemma w6_steps : rtc step w0 w6.
Proof.
  eapply rtc_l; [by eapply step_admin with (a := AMakeEnd 7%nat)|].
  eapply rtc_l; [by eapply step_MakeServer with (p := 3%nat)|].
  eapply rtc_l; [by eapply step_AddService with (p := 3%nat) (svc := total)|].
  eapply rtc_l; [by eapply step_admin with (a := AAddServer 1%nat 3)|].
  eapply rtc_l; [by eapply step_admin with (a := AConnect 7%nat 1%nat)|].
  eapply rtc_l; [by eapply step_admin with (a := AEnable 7%nat true)|].
  apply rtc_refl.
Qed.

Lemma w8_steps : rtc step w6 w8.
Proof.
  eapply rtc_l; [by eapply step_receive with (wd := w6) (id := 0%nat) (req := req)|].
  eapply rtc_l; [by eapply (step_read (wd := w7) (id := 0%nat))|]. apply rtc_refl.
Qed.

Lemma w10_steps : rtc step w8 w10.
Proof.
  eapply rtc_l; [by eapply step_execute with (wd := w8) (id := 0%nat) (t := tgt) (x := 500)|].
  eapply rtc_l; [by eapply step_enter with (wd := w9) (id := 0%nat) (p := 3%nat)|].
  apply rtc_refl.
Qed.

Lemma w10_reachable : reachable w10.
Proof.
  exists w0. split; [done|].
  etrans; [apply w6_steps|].
  etrans; [apply w8_steps|apply w10_steps].
Qed.

(** The handler finishes, and [processReq] gets its reply. *)
Lemma w13_steps : rtc (fun a b => step a b /\ alive 7%nat tgt b) w10 w13.
Proof.
  eapply rtc_l; [split; [by eapply step_run with (wd := w10) (id := 0%nat) (w' := 5)|done]|].
  eapply rtc_l; [split; [by eapply step_recv with (wd := w11) (id := 0%nat)|done]|].
  eapply rtc_l;
    [split; [by eapply step_finish with (wd := w12) (id := 0%nat) (r1 := 500) (r2 := 700)|done]|].
  apply rtc_refl.
Qed.

(** The server is deleted before its handler finishes. *)
Lemma d13_steps : rtc (fun a b => step a b /\ gone tgt b) d10 d13.
Proof.
  eapply rtc_l; [split; [by eapply step_run with (wd := d10) (id := 0%nat) (w' := 5)|done]|].
  eapply rtc_l; [split; [by eapply step_recv with (wd := d11) (id := 0%nat)|done]|].
  eapply rtc_l;
    [split; [by eapply step_finish with (wd := d12) (id := 0%nat) (r1 := 500) (r2 := 700)|done]|].
  apply rtc_refl.
Qed.

Lemma w13_reachable : reachable w13.
Proof.
  destruct w10_reachable as (wd0 & H0 & Hs). exists wd0. split; [done|]. etrans; [exact Hs|].
  eapply rtc_subrel; [|apply w13_steps]. by intros ? ? [? _].
Qed.

Lemma w13_run : rtc step w0 w13.
Proof.
  etrans; [apply w6_steps|]. etrans; [apply w8_steps|]. etrans; [apply w10_steps|].
  eapply rtc_subrel; [|apply w13_steps]. by intros ? ? [? _].
Qed.

Lemma call_exactly_once_witness :
  exists wd1 wd2 p svc mname m t0 t1 t2 w w' v,
    rtc step w0 wd1 /\ rtc step wd1 wd2 /\ rtc step wd2 w13 /\
    sent_at wd1 0 (rq r13) p /\ found_at wd2 (rq r13) p svc mname /\
    methods svc !! mname = Some m /\ m_In m = [t0; t1; t2] /\
    (0%nat, w, w') ∈ runs w13 /\ m_Func m arg (zero (elemOf t2)) w = (w', v) /\
    (typeOf v = elemOf t2 -> sendable v -> Call_return rep (zero (elemOf t2)) = inl (true, v)).
Proof.
  refine (proj2 (call_exactly_once w0 w13 0 r13 rep 7%nat "Total.Add" arg _ w13_run) _ _ _ _ _);
    done.
Defined.

Lemma deleted_server_silent_witness : noReply = noReply /\ runs d13 = [(0%nat, 0, 5)].
Proof.
  split; [|done].
  refine (deleted_server_silent d10 d13 0 r10 {| rq := req; ph := Replied noReply; hs := Finished 3 rep |}
            noReply tgt _ _ _ d13_steps _ _); try done.
  right. by left.
Defined.

Lemma reliable_call_succeeds_witness : ok rep = true.
Proof.
  refine (reliable_call_succeeds w8 w13 0
            {| rq := req; ph := Live tgt; hs := NotStarted |} r13 rep tgt _ _ _ _ _ _ _ _); try done.
  - exists w0. split; [done|]. etrans; [apply w6_steps|apply w8_steps].
  - eapply rtc_l; [split; [by eapply step_execute with (wd := w8) (id := 0%nat) (t := tgt) (x := 500)|done]|].
    eapply rtc_l; [split; [by eapply step_enter with (wd := w9) (id := 0%nat) (p := 3%nat)|done]|].
    apply w13_steps.
Defined.

Lemma call_returns_witness :
  (exists rp, ph r10 = Replied rp) \/
  (exists wd' r', step w10 wd' /\ reqs wd' !! 0%nat = Some r' /\
     (rank (ph r') < rank (ph r10))%nat) \/
  (exists t, ph r10 = Executing t /\ alive 7%nat t w10 /\ forall p rp, hs r10 <> Finished p rp).
Proof. refine (proj2 (call_returns w10 0 r10 _)). done. Defined.

Lemma statistics_count_witness :
  GetTotalCount (rn w13) = int32 1 /\ GetCount 1%nat (rn w13) (heap w13) = Some 1.
Proof.
  destruct (statistics_count w13 w13_reachable) as [H1 H2]. split; [by rewrite H1|].
  by rewrite (H2 1%nat 3%nat {| services := services (AddService total MakeServer); srv_count := 1 |}).
Defined.

Lemma dispatch_runs_method_witness :
  Service_dispatch total "Add" req 4 = inl (9, {| ok := true; reply := Serial.put 9 |}) /\
  Service_dispatch total "Bad" reqBad 4 = inr Fatal.
Proof.
  assert (NoDup (m_Name <$> [add; bad])) as Hnd by (by apply (bool_decide_unpack _)).
  split.
  - destruct (dispatch_runs_method MakeServer "Total" [add; bad] req 7%nat "Total.Add" arg 4)
      as [_ H1]; [done..|].
    destruct (H1 "Total" "Add"%string) as [_ H2]; [done|by apply (bool_decide_unpack _)|].
    destruct (H2 eq_refl Hnd) as (_ & _ & H3).
    refine (eq_trans (H3 add TPtr TPtr _ _ _ _) _); [left|done..].
  - destruct (dispatch_runs_method MakeServer "Total" [add; bad] reqBad 7%nat "Total.Bad" arg 4)
      as [_ H1]; [done..|].
    destruct (H1 "Total" "Bad"%string) as [_ H2]; [done|by apply (bool_decide_unpack _)|].
    destruct (H2 eq_refl Hnd) as (_ & H3 & _). apply H3.
    intros m [->|[->|[]%elem_of_nil]%elem_of_cons]%elem_of_cons; done.
Defined.
End RpcDemo.
