(* ===== verification/Harness.v ===== *)
(** * What the test harnesses share

    The harnesses of Raft, the key/value store, the controller and the sharded store
    (config.go in each package) run their servers on a network of LabRPC, give each a
    persister, and stop a test with a message.  This file has the error monad of their
    operations, the persisters they keep ([Files], a heap; a [*Persister] is an
    address), and the ends they make, switch on and off. *)
From S2P Require Import Prelude Persister LabRPC.
#[local] Open Scope Z_scope.

Module Harness.
Import LabRPC.

(** ** Failing tests *)

(** What is printed before the process or the test ends. *)
Inductive Message :=
  | Differs (server index other : Z)         (* commit index ... != server ... *)
  | OutOfOrder (server index : Z)
  | Unexpected (server want got : Z)         (* expected index ..., got ... *)
  | SnapshotIndexWrong (server : Z)
  | SnapshotDecode
  | TwoLeaders (term count : Z)
  | NoLeader
  | TermsDiffer
  | UnexpectedLeader (server : Z)
  | CommittedDiffers (index : Z)
  | TooFew (decided index wanted : Z)
  | NoAgreement
  | TookTooLong
  | LogTooBig (size max : Z)
  | SnapshotNotEmpty
  | Network (c : Crash).                     (* the network gave up *)

Inductive Failure := Fatal (m : Message) | Panic.
Definition Res (A : Type) : Type := (A + Failure)%type.
#[export] Instance res_bind : MBind Res :=
  fun A B f x => match x with inl a => f a | inr e => inr e end.

(** Indexing out of range panics. *)
Definition idx {A} (l : list A) (i : Z) : Res A :=
  match zget l i with Some x => inl x | None => inr Panic end.
Definition upd {A} (l : list A) (i : Z) (x : A) : Res (list A) :=
  match zset l i x with Some l => inl l | None => inr Panic end.
(** Calls of Go code that may panic. *)
Definition lift {A} (x : option A) : Res A := match x with Some a => inl a | None => inr Panic end.

(** A loop over a list whose body changes the state. *)
Fixpoint loop {A S} (f : A -> S -> Res S) (l : list A) (s : S) : Res S :=
  match l with
  | [] => inl s
  | a :: l => s ← f a s; loop f l s
  end.

(** ** Persisters *)

(** The slice [saved]; [next] is the next address. *)
Record Files := {
  saved : list (option nat);
  disk : gmap nat Persister.t;
  next : nat;
}.
Implicit Types fs : Files.

Definition no_files (n : nat) : Files := {| saved := replicate n None; disk := ∅; next := 0 |}.

Definition persister_at (a : nat) fs : Persister.t := default Persister.MakePersister (disk fs !! a).

(** A new persister with the contents [ps], stored in [saved[i]]. *)
Definition store_new (i : Z) (ps : Persister.t) fs : Res Files :=
  l ← upd (saved fs) i (Some (next fs));
  inl {| saved := l; disk := <[next fs := ps]> (disk fs); next := S (next fs) |}.

(** A fresh persister with the contents of the old one, if there is one. *)
Definition copy_saved (i : Z) fs : Res Files :=
  p ← idx (saved fs) i;
  match p with
  | Some a => store_new i (Persister.Copy (persister_at a fs)) fs
  | None => inl fs
  end.

(** The largest of a size over all servers. *)
Definition largest (size : Persister.t -> Z) (servers : list Z) fs : Res Z :=
  loop (fun i m =>
    p ← idx (saved fs) i;
    match p with
    | None => inr Panic
    | Some a => let k := size (persister_at a fs) in inl (if m <? k then k else m)
    end) servers 0.

(** A running server writes its persister. *)
Definition write (i : Z) (ps : Persister.t) fs : Files :=
  match zget (saved fs) i with
  | Some (Some a) => {| saved := saved fs; disk := <[a := ps]> (disk fs); next := next fs |}
  | _ => fs
  end.

(** ** Ends *)

(** Ends are named by strings, servers by numbers or strings. *)
Abbreviation Name := (string + Z)%type.
Abbreviation Net := (LabRPC.Network (Name := Name)).

(** [endnames[i][j]]; a nil slice has no elements. *)
Definition endname_at (names : list (option (list string))) (i j : Z) : Res string :=
  row ← idx names i;
  idx (default [] row) j.

Definition Enable_end (names : list (option (list string))) (i j : Z) (yes : bool) (x : Net) : Res Net :=
  nm ← endname_at names i j;
  inl (Enable (inl nm) yes x).

(** [MakeEnd] and [Connect]. *)
Definition make_end (nm : string) (target : Name) (x : Net) : Res Net :=
  match MakeEnd (inl nm) x with
  | inl x => inl (Connect (inl nm) target x)
  | inr c => inr (Fatal (Network c))
  end.

(** A fresh set of ends; the [j]-th is for [target j]. *)
Definition make_ends (names : list string) (target : Z -> Name) (l : list Z) (x : Net) : Res Net :=
  loop (fun j x => nm ← idx names j; make_end nm (target j) x) l x.

Definition stop (x : Net) : Res Net :=
  match Cleanup x with inl x => inl x | inr c => inr (Fatal (Network c)) end.

Definition checkTimeout (failed : bool) (seconds : Z) : Res unit :=
  if negb failed && (120 <? seconds) then inr (Fatal TookTooLong) else inl tt.
End Harness.
