(* ===== verification/HarnessProps.v ===== *)
(** * What the test harnesses share: lemmas

    Loops that may fail; persisters that are copied to new files; ends that are made
    fresh, switched on and off. *)
From S2P Require Import Prelude Persister LabRPC Harness.
Import LabRPC Harness.
#[local] Open Scope Z_scope.

(** ** Loops *)

Lemma loop_app {A S} (f : A -> S -> Res S) l1 l2 s :
  loop f (l1 ++ l2) s = s' ← loop f l1 s; loop f l2 s'.
Proof. revert s. induction l1 as [|a l1 IH]; intros s; cbn; [done|]. destruct (f a s); cbn; auto. Qed.

(** An invariant over the elements done so far. *)
Lemma loop_inv {A S} (P : list A -> S -> Prop) (f : A -> S -> Res S) l s :
  P [] s ->
  (forall pre a post s, l = pre ++ a :: post -> P pre s -> exists s', f a s = inl s' /\ P (pre ++ [a]) s') ->
  exists s', loop f l s = inl s' /\ P l s'.
Proof.
  intros H0 Hf. assert (forall pre post s, l = pre ++ post -> P pre s ->
    exists s', loop f post s = inl s' /\ P l s') as Hi; [|by apply (Hi [] l s)].
  clear s H0. intros pre post. revert pre. induction post as [|a post IH]; intros pre s E Hp; cbn.
  - rewrite app_nil_r in E. subst. by exists s.
  - destruct (Hf pre a post s E Hp) as (s1 & -> & H1). cbn.
    apply (IH (pre ++ [a])); [by rewrite <- (assoc_L (++))|done].
Qed.

Lemma loop_ok {A S} (P : list A -> S -> Prop) (f : A -> S -> Res S) l s s' :
  P [] s ->
  (forall pre a s s', P pre s -> f a s = inl s' -> P (pre ++ [a]) s') ->
  loop f l s = inl s' -> P l s'.
Proof.
  intros H0 Hf. assert (forall pre post s s', P pre s -> loop f post s = inl s' -> P (pre ++ post) s') as Hi;
    [|by intros; apply (Hi [] l s)].
  clear s s' H0. intros pre post. revert pre. induction post as [|a post IH]; intros pre s s' Hp; cbn.
  - intros [= <-]. by rewrite app_nil_r.
  - destruct (f a s) as [s1|] eqn:E; cbn; [|done]. intros H.
    replace (pre ++ a :: post) with ((pre ++ [a]) ++ post) by (by rewrite <- (assoc_L (++))).
    eapply IH; [|exact H]. by eapply Hf.
Qed.

(** A loop over servers that only looks at their numbers. *)
Lemma zrange_split m pre a post : zrange m = pre ++ a :: post -> 0 <= a < Z.of_nat m.
Proof. intros E. apply elem_of_zrange. rewrite E. apply elem_of_app. right. by left. Qed.

Lemma res_bind_inl {A B} (x : Res A) (f : A -> Res B) y :
  (a ← x; f a) = inl y -> exists a, x = inl a /\ f a = inl y.
Proof. destruct x as [a|]; cbn; [by exists a|done]. Qed.

Lemma idx_Some {A} (l : list A) i x : zget l i = Some x -> idx l i = inl x.
Proof. unfold idx. by intros ->. Qed.

Lemma idx_inl {A} (l : list A) i x : idx l i = inl x -> zget l i = Some x.
Proof. unfold idx. destruct (zget l i); by intros [= ->]. Qed.

Lemma upd_in {A} (l : list A) i x : 0 <= i < zlen l -> upd l i x = inl (<[Z.to_nat i := x]> l).
Proof. intros Hi. unfold upd. by rewrite zset_Some. Qed.

Lemma upd_inl {A} (l : list A) i x l' :
  upd l i x = inl l' -> 0 <= i < zlen l /\ l' = <[Z.to_nat i := x]> l.
Proof.
  unfold upd, zset. bcase; intros E; [|done]. injection E as <-. split; [lia|done].
Qed.

(** Take an equation between a program and its result apart. *)
Ltac res_inv :=
  repeat match goal with
  | H : mbind _ _ = inl _ |- _ => apply res_bind_inl in H as (? & ? & H)
  | H : idx _ _ = inl _ |- _ => apply idx_inl in H
  | H : upd _ _ _ = inl _ |- _ => apply upd_inl in H as [? ->]
  | H : inl _ = inl _ |- _ => injection H as H; subst
  | H : inr _ = inl _ |- _ => discriminate H
  end.

(** ** Persisters *)
Section files.
Implicit Types fs : Files.

(** Every server has a file of its own, and [next] is above them all. *)
Record files_ok fs : Prop := {
  fo_next i a : saved fs !! i = Some (Some a) -> (a < next fs)%nat;
  fo_own i j a : saved fs !! i = Some (Some a) -> saved fs !! j = Some (Some a) -> i = j;
}.

Lemma no_files_ok n : files_ok (no_files n).
Proof. split; [intros i a [[=] _]%lookup_replicate_1|intros i j a [[=] _]%lookup_replicate_1]. Qed.

(** What server [i] would be restarted from. *)
Definition on_disk fs (i : nat) : Persister.t :=
  match saved fs !! i with Some (Some a) => persister_at a fs | _ => Persister.MakePersister end.

Lemma on_disk_at fs i a : saved fs !! i = Some (Some a) -> on_disk fs i = persister_at a fs.
Proof. unfold on_disk. by intros ->. Qed.

(** Server [i] has a file. *)
Definition filed fs (i : nat) : Prop := exists a, saved fs !! i = Some (Some a).

(** [saved[i]] is a new file with the contents [ps]; the files in use stay. *)
Record refiled (i : nat) (ps : Persister.t) fs fs' : Prop := {
  rf_saved : exists a, (next fs <= a < next fs')%nat /\ (i < length (saved fs))%nat /\
    saved fs' = <[i := Some a]> (saved fs) /\ persister_at a fs' = ps;
  rf_disk a : (a < next fs)%nat -> disk fs' !! a = disk fs !! a;
}.

Lemma store_new_refiled i ps fs fs' :
  store_new i ps fs = inl fs' -> 0 <= i /\ refiled (Z.to_nat i) ps fs fs'.
Proof.
  unfold store_new. intros E. res_inv. split; [lia|]. split; cbn.
  - exists (next fs). split_and!; [lia|lia|unfold zlen in *; lia|done|].
    unfold persister_at. cbn. by rewrite lookup_insert_eq.
  - intros a Ha. by rewrite lookup_insert_ne by lia.
Qed.

Lemma refiled_on_disk i ps fs fs' j :
  files_ok fs -> refiled i ps fs fs' ->
  files_ok fs' /\ on_disk fs' j = if decide (j = i) then ps else on_disk fs j.
Proof.
  intros [Hn Ho] [(a & Ha & Hi & Es & Ep) Hd].
  assert (forall j b, saved fs' !! j = Some (Some b) ->
    j = i /\ b = a \/ j <> i /\ saved fs !! j = Some (Some b)) as Hc.
  { intros j' b. rewrite Es. destruct (decide (j' = i)) as [->|].
    - rewrite list_lookup_insert_eq by done. intros [= <-]. by left.
    - rewrite list_lookup_insert_ne by done. by right. }
  split; [split|].
  - intros j' b [[-> ->]|[_ Hj]]%Hc; [lia|]. specialize (Hn _ _ Hj). lia.
  - intros j1 j2 b [[-> ->]|[? H1]]%Hc [[-> E]|[? H2]]%Hc; subst; [done|..].
    + apply Hn in H2. lia.
    + apply Hn in H1. lia.
    + by eapply Ho.
  - unfold on_disk. rewrite Es. case_decide as Hji.
    + subst. by rewrite list_lookup_insert_eq by done.
    + rewrite list_lookup_insert_ne by done. destruct (saved fs !! j) as [[b|]|] eqn:E; [|done|done].
      unfold persister_at. rewrite Hd; [done|]. by eapply Hn.
Qed.

(** The file of [i] may be a new one with the old contents; nothing else changes. *)
Record restored (i : nat) fs fs' : Prop := {
  rs_files : files_ok fs -> files_ok fs';
  rs_disk j : files_ok fs -> on_disk fs' j = on_disk fs j;
  rs_next : (next fs <= next fs')%nat;
  rs_saved j : j <> i -> saved fs' !! j = saved fs !! j;
  rs_kept j : filed fs j -> filed fs' j;
  rs_length : length (saved fs') = length (saved fs);
}.

#[global] Instance restored_preorder i : PreOrder (restored i).
Proof.
  split.
  - intros x. by split.
  - intros x y z [F1 D1 ? S1 K1 ?] [F2 D2 ? S2 K2 ?]. split; [auto| |lia| |auto|congruence].
    + intros j H. rewrite D2 by auto. by apply D1.
    + intros j H. rewrite S2 by done. by apply S1.
Qed.

Lemma refiled_restored i fs fs' : refiled i (on_disk fs i) fs fs' -> restored i fs fs'.
Proof.
  intros Hr. split.
  - intros Hf. by apply (refiled_on_disk _ _ _ _ 0%nat Hf Hr).
  - intros j Hf. destruct (refiled_on_disk _ _ _ _ j Hf Hr) as [_ ->]. by case_decide; subst.
  - destruct Hr as [(a & ? & _) _]. lia.
  - intros j Hj. destruct Hr as [(a & _ & _ & -> & _) _]. by rewrite list_lookup_insert_ne.
  - intros j [b Hb]. destruct Hr as [(a & _ & Hi & E & _) _]. unfold filed. rewrite E.
    destruct (decide (j = i)) as [->|]; [exists a; by apply list_lookup_insert_eq|].
    exists b. by rewrite list_lookup_insert_ne.
  - destruct Hr as [(a & _ & _ & -> & _) _]. apply length_insert.
Qed.

Lemma SaveState_Read ps : Persister.SaveStateAndSnapshot (Persister.ReadRaftState ps)
  (Persister.ReadSnapshot ps) Persister.MakePersister = ps.
Proof.
  unfold Persister.SaveStateAndSnapshot, Persister.ReadRaftState, Persister.ReadSnapshot.
  autorewrite with persister. by destruct ps.
Qed.

Lemma Copy_id ps : Persister.Copy ps = ps.
Proof. by destruct ps. Qed.

(** Put what is on disk, if anything is, in a new file. *)
Lemma refile_restored i p ps fs fs' :
  zget (saved fs) i = Some p -> (forall a, p = Some a -> ps a = persister_at a fs) ->
  match p with Some a => store_new i (ps a) fs | None => inl fs end = inl fs' ->
  restored (Z.to_nat i) fs fs' /\
  match p with
  | Some _ => exists a, zget (saved fs') i = Some (Some a) /\ (next fs <= a)%nat
  | None => fs' = fs
  end.
Proof.
  intros [Hi Ha]%zget_Some_lookup Hps E. destruct p as [a|].
  - rewrite Hps in E by done. apply store_new_refiled in E as (_ & Hr).
    rewrite <- (on_disk_at _ _ _ Ha) in Hr. split; [by apply refiled_restored|].
    destruct Hr as [(a' & Hn & Hlt & -> & _) _]. exists a'. split; [|lia].
    apply zget_Some_lookup. split; [done|]. by apply list_lookup_insert_eq.
  - by injection E as <-.
Qed.

Lemma copy_saved_restored i fs fs' : copy_saved i fs = inl fs' -> restored (Z.to_nat i) fs fs'.
Proof.
  intros (p & Hp%idx_inl & E)%res_bind_inl.
  eapply refile_restored in E as [E _]; [done|exact Hp|intros; apply Copy_id].
Qed.

(** The first file of a server that has none. *)
Lemma store_empty_restored i fs fs' :
  zget (saved fs) i = Some None -> store_new i Persister.MakePersister fs = inl fs' ->
  restored (Z.to_nat i) fs fs' /\ exists a, zget (saved fs') i = Some (Some a) /\ (next fs <= a)%nat.
Proof.
  intros [Hi Hp]%zget_Some_lookup [_ Hr]%store_new_refiled. split.
  - apply refiled_restored. unfold on_disk. by rewrite Hp.
  - destruct Hr as [(a & Hn & Hlt & -> & _) _]. exists a. split; [|lia].
    apply zget_Some_lookup. split; [done|]. by apply list_lookup_insert_eq.
Qed.

Lemma write_files i ps fs :
  0 <= i -> files_ok fs -> filed fs (Z.to_nat i) ->
  saved (write i ps fs) = saved fs /\ next (write i ps fs) = next fs /\
  forall j, on_disk (write i ps fs) j = if decide (j = Z.to_nat i) then ps else on_disk fs j.
Proof.
  intros Hi [Hn Ho] [a Ha]. unfold write.
  rewrite (proj2 (zget_Some_lookup _ _ _) (conj Hi Ha)).
  split; [done|]. split; [done|]. intros j. unfold on_disk, persister_at. cbn.
  destruct (decide (j = Z.to_nat i)) as [->|Hne].
  - by rewrite Ha, lookup_insert_eq.
  - destruct (saved fs !! j) as [[b|]|] eqn:E; [|done|done].
    rewrite lookup_insert_ne; [done|]. intros ->. apply Hne. by eapply Ho.
Qed.
End files.

(** ** Ends *)
Section ends.
Implicit Types (x : Net) (e : Name).

(** [e] is the present end of server [i] towards server [j]. *)
Definition named (names : list (option (list string))) (i j : Z) e : Prop :=
  exists row nm, zget names i = Some (Some row) /\ zget row j = Some nm /\ e = inl nm.

(** Only the map of enabled ends is different. *)
Record rewired x x' : Prop := {
  re_ends : ends x' = ends x;
  re_connections : connections x' = connections x;
  re_servers : LabRPC.servers x' = LabRPC.servers x;
}.

#[global] Instance rewired_preorder : PreOrder rewired.
Proof. split; [done|]. intros x y z [] []. split; congruence. Qed.

(** The ends of [S] are switched to [yes]. *)
Definition switched (S : Name -> Prop) (yes : bool) x x' : Prop :=
  rewired x x' /\ forall e, (S e /\ isEnabled e x' = yes) \/
    (~ S e /\ isEnabled e x' = isEnabled e x).

Lemma switched_none (S : Name -> Prop) yes x : (forall e, ~ S e) -> switched S yes x x.
Proof. intros HS. split; [done|]. intros e. right. by split. Qed.

Lemma switched_or (S T U : Name -> Prop) yes x1 x2 x3 :
  (forall e, U e <-> S e \/ T e) ->
  switched S yes x1 x2 -> switched T yes x2 x3 -> switched U yes x1 x3.
Proof.
  intros HU [R1 H1] [R2 H2]. split; [by etrans|]. intros e.
  destruct (H2 e) as [[HT E]|[HT E]].
  - left. split; [apply HU; by right|done].
  - rewrite E. destruct (H1 e) as [[HS E']|[HS E']].
    + left. split; [apply HU; by left|done].
    + right. split; [|done]. intros [?|?]%HU; done.
Qed.

Lemma switched_iff (S T : Name -> Prop) yes x x' :
  (forall e, S e <-> T e) -> switched S yes x x' -> switched T yes x x'.
Proof.
  intros HST [R H]. split; [done|]. intros e.
  destruct (H e) as [[HS ?]|[HS ?]]; [left|right]; (split; [|done]); by rewrite <- HST.
Qed.

Lemma loop_switched {A} (f : A -> Net -> Res Net) (S : A -> Name -> Prop) yes l x x' :
  (forall a y y', f a y = inl y' -> switched (S a) yes y y') ->
  loop f l x = inl x' -> switched (fun e => exists a, a ∈ l /\ S a e) yes x x'.
Proof.
  intros Hf. apply (loop_ok (fun pre y => switched (fun e => exists a, a ∈ pre /\ S a e) yes x y)).
  - apply switched_none. by intros e (j & ?%not_elem_of_nil & _).
  - intros pre j c c' Hc E. eapply (switched_or _ (S j)); [|exact Hc|by eapply Hf].
    intros e. split.
    + intros (j' & [Hj| ->%list_elem_of_singleton]%elem_of_app & HS); [left; by exists j'|by right].
    + intros [(j' & Hj & HS)|HS]; [exists j'|exists j]; (split; [apply elem_of_app|done]);
        [by left|right; by left].
Qed.

Lemma Enable_switched nm yes x : switched (fun e => e = inl nm) yes x (Enable (inl nm) yes x).
Proof.
  split; [done|]. intros e. unfold isEnabled. cbn.
  destruct (decide (e = inl nm)) as [->|]; [left|right; split; [done|]].
  - by rewrite lookup_insert_eq.
  - by rewrite lookup_insert_ne.
Qed.

Lemma Enable_end_switched (names : list (option (list string))) i j yes x x' :
  Enable_end names i j yes x = inl x' -> switched (named names i j) yes x x'.
Proof.
  unfold Enable_end, endname_at.
  intros (nm & (row & Hrow%idx_inl & Hnm%idx_inl)%res_bind_inl & [= <-])%res_bind_inl.
  destruct row as [row|]; [|by apply zget_Some_lookup in Hnm as [_ ?]]. cbn in Hnm.
  eapply switched_iff; [|apply Enable_switched]. intros e. split; [intros ->; by exists row, nm|].
  intros (row' & nm' & ? & ? & ->). f_equal. congruence.
Qed.

Lemma Enable_end_ok names i j yes x :
  (exists e, named names i j e) -> exists x', Enable_end names i j yes x = inl x'.
Proof.
  intros (e & row & nm & Hr & Hn & _). unfold Enable_end, endname_at. unfold idx. rewrite Hr. cbn.
  rewrite Hn. by eexists.
Qed.

(** The ends of [T] are switched to what [want] says, no other end is changed. *)
Definition steered (want : Name -> bool) (T : Name -> Prop) x x' : Prop :=
  rewired x x' /\ forall e, (T e /\ isEnabled e x' = want e) \/
    (~ T e /\ isEnabled e x' = isEnabled e x).

Lemma switched_steered want (S : Name -> Prop) yes x x' :
  (forall e, S e -> want e = yes) -> switched S yes x x' -> steered want S x x'.
Proof.
  intros HS [R H]. split; [done|]. intros e. destruct (H e) as [[? E]|?]; [left|by right].
  by rewrite E, HS.
Qed.

Lemma steered_or want (S T U : Name -> Prop) x1 x2 x3 :
  (forall e, U e <-> S e \/ T e) ->
  steered want S x1 x2 -> steered want T x2 x3 -> steered want U x1 x3.
Proof.
  intros HU [R1 H1] [R2 H2]. split; [by etrans|]. intros e. rewrite HU.
  destruct (H2 e) as [[HT E]|[HT E]]; [left; auto|]. rewrite E.
  destruct (H1 e) as [[HS E']|[HS E']]; [left|right]; tauto.
Qed.

Lemma steered_none want (S : Name -> Prop) x : (forall e, ~ S e) -> steered want S x x.
Proof. intros HS. split; [done|]. intros e. right. by split. Qed.

(** A loop whose rounds steer ends of a state with a network, and keep [I]. *)
Lemma loop_steered {A St : Type} (nt : St -> Net) (I : St -> Prop) (want : Name -> bool) (f : A -> St -> Res St)
    (S : A -> Name -> Prop) (l : list A) s :
  (forall a s, a ∈ l -> I s -> exists s', f a s = inl s' /\ I s' /\ steered want (S a) (nt s) (nt s')) ->
  I s -> exists s', loop f l s = inl s' /\ I s' /\
    steered want (fun e => exists a, a ∈ l /\ S a e) (nt s) (nt s').
Proof.
  revert s. induction l as [|a l IH]; intros s Hf HI; cbn.
  - exists s. split; [done|]. split; [done|]. apply steered_none. by intros e (j & ?%not_elem_of_nil & _).
  - destruct (Hf a s) as (s1 & -> & HI1 & H1); [by left|done|]. cbn.
    destruct (IH s1) as (s2 & -> & HI2 & H2); [intros b c ?; apply Hf; by right|done|].
    exists s2. split; [done|]. split; [done|]. eapply steered_or; [|exact H1|exact H2].
    intros e. split.
    + intros (b & [->|Hb]%elem_of_cons & HS); [by left|right; by exists b].
    + intros [HS|(b & Hb & HS)]; [exists a|exists b]; (split; [|done]); [by left|by right].
Qed.

(** A loop whose rounds succeed. *)
Lemma loop_total {A St : Type} (f : A -> St -> Res St) l s :
  (forall a s, a ∈ l -> exists s', f a s = inl s') -> exists s', loop f l s = inl s'.
Proof.
  revert s. induction l as [|a l IH]; intros s Hf; cbn; [by eexists|].
  destruct (Hf a s) as (s1 & ->); [by left|]. apply IH. intros b c ?. apply Hf. by right.
Qed.

(** ** Fresh ends *)

(** Those of [names] for the numbers in [pre] are made, and switched [on] or off;
    [target j] is whom they reach. *)
Record ends_made (on : bool) x0 (names : list string) (target : Z -> Name) (pre : list Z) x : Prop := {
  em_servers : LabRPC.servers x = LabRPC.servers x0;
  em_new j nm : j ∈ pre -> zget names j = Some nm ->
    inl nm ∈ ends x /\ inl nm ∉ ends x0 /\
    connection (inl nm) x = Some (target j) /\ isEnabled (inl nm) x = on;
  em_inj j j' nm : j ∈ pre -> j' ∈ pre -> zget names j = Some nm -> zget names j' = Some nm -> j = j';
  em_old e : e ∈ ends x0 -> e ∈ ends x /\
    connection e x = connection e x0 /\ isEnabled e x = isEnabled e x0;
  em_enabled e : isEnabled e x = true -> isEnabled e x0 = true \/ on = true;
}.

(** Go's [MakeEnd] leaves the end off. *)
Definition switch_on (on : bool) (nm : string) (x : Net) : Net := if on then Enable (inl nm) true x else x.

Lemma make_end_made on x0 (names : list string) target pre j nm x x' :
  zget names j = Some nm -> ends_made on x0 names target pre x ->
  make_end nm (target j) x = inl x' -> ends_made on x0 names target (pre ++ [j]) (switch_on on nm x').
Proof.
  intros Hnm [] H. unfold make_end, MakeEnd in H. case_bool_decide as Hin; [done|]. injection H as <-.
  assert (inl nm ∉ ends x0) as Hnew by (by intros [? _]%em_old0).
  assert (forall j' nm', j' ∈ pre -> zget names j' = Some nm' -> nm' <> nm) as Hother
    by (intros j' nm' Hj' Hnm' ->; by destruct (em_new0 j' nm Hj' Hnm') as [? _]).
  set (x' := switch_on _ _ _).
  assert (isEnabled (inl nm) x' = on /\ (forall e, e <> inl nm -> isEnabled e x' = isEnabled e x)) as [Eon Eoff].
  { unfold x', switch_on, isEnabled. destruct on; cbn; rewrite lookup_insert_eq; (split; [done|]);
      intros e He; by rewrite !lookup_insert_ne. }
  assert (ends x' = {[inl nm]} ∪ ends x) as Ee by (unfold x', switch_on; by destruct on).
  assert (connection (inl nm) x' = Some (target j) /\
    (forall e, e <> inl nm -> connection e x' = connection e x)) as [Con Coff].
  { unfold x', switch_on, connection. destruct on; cbn; rewrite lookup_insert_eq; (split; [done|]);
      intros e He; by rewrite !lookup_insert_ne. }
  assert (LabRPC.servers x' = LabRPC.servers x) as Es by (unfold x', switch_on; by destruct on).
  clearbody x'. split; rewrite ?Es, ?Ee; try done.
  - intros j' nm' [Hj'| ->%list_elem_of_singleton]%elem_of_app Hnm'.
    + destruct (em_new0 j' nm' Hj' Hnm') as (? & ? & ? & ?).
      assert (@inl string Z nm' <> inl nm) by (intros [= ->]; by apply (Hother j' nm)).
      rewrite Eoff, Coff by done. split_and!; try done. set_solver.
    + assert (nm' = nm) as -> by congruence. split_and!; try done. set_solver.
  - intros j1 j2 nm' [H1| ->%list_elem_of_singleton]%elem_of_app
      [H2| ->%list_elem_of_singleton]%elem_of_app Hn1 Hn2; [by eapply em_inj0| | |done].
    + destruct (Hother j1 nm'); [done|done|congruence].
    + destruct (Hother j2 nm'); [done|done|congruence].
  - intros e He. assert (e <> inl nm) by (by intros ->).
    rewrite Eoff, Coff by done. destruct (em_old0 e He) as (? & ? & ?). split_and!; [set_solver|done|done].
  - intros e. destruct (decide (e = inl nm)) as [->|]; [rewrite Eon; by right|].
    rewrite Eoff by done. apply em_enabled0.
Qed.

Lemma ends_made_none on x names target : ends_made on x names target [] x.
Proof. split; try done; try (intros; exfalso; by eapply not_elem_of_nil). by left. Qed.

Lemma make_ends_made names target l x x' :
  make_ends names target l x = inl x' -> ends_made false x names target l x'.
Proof.
  apply (loop_ok (ends_made false x names target)); [apply ends_made_none|].
  intros pre j y y' Hy (nm & Hnm%idx_inl & E)%res_bind_inl. by eapply (make_end_made false).
Qed.

Lemma named_replaced i row (names : list (option (list string))) a b e :
  0 <= i < zlen names ->
  named (<[Z.to_nat i := Some row]> names) a b e <->
    (a = i /\ exists nm, zget row b = Some nm /\ e = inl nm) \/ (a <> i /\ named names a b e).
Proof.
  intros Hi. unfold named. rewrite zget_insert. unfold zlen in Hi.
  destruct (decide (a = i)) as [->|Hne].
  - rewrite decide_True by lia. split.
    + intros (r & nm & [= <-] & ? & ?). left. split; [done|by exists nm].
    + intros [[_ (nm & ? & ?)]|[? _]]; [by exists row, nm|done].
  - rewrite decide_False by lia. split; [by right|]. by intros [[? _]|[_ ?]].
Qed.
(** ** Requests *)

(** A request on the end [e] gets to a server. *)
Definition reaches x e : Prop := exists t, afterRead (readEndnameInfo e x) = Live t.

Lemma reaches_spec x e :
  reaches x e <-> isEnabled e x = true /\
    exists s, connection e x = Some s /\ is_Some (serverAt s x).
Proof.
  unfold reaches, afterRead, readEndnameInfo. cbn. split.
  - intros [t Ht]. destruct (isEnabled e x); [|done]. split; [done|].
    destruct (connection e x) as [s|]; [|done]. exists s. split; [done|].
    cbn in Ht. by destruct (serverAt s x); [|].
  - intros [-> (s & -> & [p Hp])]. cbn. rewrite Hp. by eexists.
Qed.
End ends.
