(* ===== verification/RaftConfig.v ===== *)
(** * The test harness of Raft (src/src/raft/config.go)

    [config] is the struct of the same name.  The instances of Raft are outside ([alive]
    says which pointers are not nil);
    what [GetState] or [Start] return when the harness calls them is an argument, as
    are random strings and the order and number of polls that the clock allows.  The
    commands are compared as the code compares interface values. *)
From S2P Require Import Prelude Persister RaftNode LabRPC Harness.
#[local] Open Scope Z_scope.

Module RaftConfig.
Import LabRPC Harness.

Section config.
Context {C : Type} `{EqDecision C} `{!Codec (RaftPersist C)}.
(** A snapshot of the harness: the last index and the values from index 0 on. *)
Context `{!Codec (Z * list (option C))}.

Record config := {
  finished : bool;
  net : Net;
  n : nat;
  alive : list bool;
  applyErr : list (option Message);
  connected : list bool;
  files : Files;                             (* [saved] *)
  endnames : list (option (list string));    (* [None]: nil *)
  logs : list (gmap Z (option C));
  lastApplied : list Z;
  maxIndex : Z;
  rpcs0 : Z; bytes0 : Z; maxIndex0 : Z;
}.
Implicit Types cfg : config.

Definition with_net x cfg : config :=
  {| finished := finished cfg; net := x; n := n cfg; alive := alive cfg;
     applyErr := applyErr cfg; connected := connected cfg; files := files cfg;
     endnames := endnames cfg; logs := logs cfg; lastApplied := lastApplied cfg;
     maxIndex := maxIndex cfg; rpcs0 := rpcs0 cfg; bytes0 := bytes0 cfg;
     maxIndex0 := maxIndex0 cfg |}.
Definition with_alive x cfg : config :=
  {| finished := finished cfg; net := net cfg; n := n cfg; alive := x;
     applyErr := applyErr cfg; connected := connected cfg; files := files cfg;
     endnames := endnames cfg; logs := logs cfg; lastApplied := lastApplied cfg;
     maxIndex := maxIndex cfg; rpcs0 := rpcs0 cfg; bytes0 := bytes0 cfg;
     maxIndex0 := maxIndex0 cfg |}.
Definition with_connected x cfg : config :=
  {| finished := finished cfg; net := net cfg; n := n cfg; alive := alive cfg;
     applyErr := applyErr cfg; connected := x; files := files cfg; endnames := endnames cfg;
     logs := logs cfg; lastApplied := lastApplied cfg; maxIndex := maxIndex cfg;
     rpcs0 := rpcs0 cfg; bytes0 := bytes0 cfg; maxIndex0 := maxIndex0 cfg |}.
Definition with_files x cfg : config :=
  {| finished := finished cfg; net := net cfg; n := n cfg; alive := alive cfg;
     applyErr := applyErr cfg; connected := connected cfg; files := x;
     endnames := endnames cfg; logs := logs cfg; lastApplied := lastApplied cfg;
     maxIndex := maxIndex cfg; rpcs0 := rpcs0 cfg; bytes0 := bytes0 cfg;
     maxIndex0 := maxIndex0 cfg |}.
Definition with_endnames x cfg : config :=
  {| finished := finished cfg; net := net cfg; n := n cfg; alive := alive cfg;
     applyErr := applyErr cfg; connected := connected cfg; files := files cfg;
     endnames := x; logs := logs cfg; lastApplied := lastApplied cfg;
     maxIndex := maxIndex cfg; rpcs0 := rpcs0 cfg; bytes0 := bytes0 cfg;
     maxIndex0 := maxIndex0 cfg |}.
Definition with_logs x m cfg : config :=
  {| finished := finished cfg; net := net cfg; n := n cfg; alive := alive cfg;
     applyErr := applyErr cfg; connected := connected cfg; files := files cfg;
     endnames := endnames cfg; logs := x; lastApplied := lastApplied cfg; maxIndex := m;
     rpcs0 := rpcs0 cfg; bytes0 := bytes0 cfg; maxIndex0 := maxIndex0 cfg |}.
Definition with_lastApplied x cfg : config :=
  {| finished := finished cfg; net := net cfg; n := n cfg; alive := alive cfg;
     applyErr := applyErr cfg; connected := connected cfg; files := files cfg;
     endnames := endnames cfg; logs := logs cfg; lastApplied := x; maxIndex := maxIndex cfg;
     rpcs0 := rpcs0 cfg; bytes0 := bytes0 cfg; maxIndex0 := maxIndex0 cfg |}.
Definition with_counts f r b m cfg : config :=
  {| finished := f; net := net cfg; n := n cfg; alive := alive cfg;
     applyErr := applyErr cfg; connected := connected cfg; files := files cfg;
     endnames := endnames cfg; logs := logs cfg; lastApplied := lastApplied cfg;
     maxIndex := maxIndex cfg; rpcs0 := r; bytes0 := b; maxIndex0 := m |}.

(** ** The network *)

Definition servers cfg : list Z := zrange (n cfg).

(** attach server [i] to the net. *)
Definition connect (i : Z) cfg : Res config :=
  cs ← upd (connected cfg) i true;
  x ← loop (fun j x => c ← idx cs j;
                       if (c : bool) then Enable_end (endnames cfg) i j true x else inl x)
        (servers cfg) (net cfg);
  x ← loop (fun j x => c ← idx cs j;
                       if (c : bool) then Enable_end (endnames cfg) j i true x else inl x)
        (servers cfg) x;
  inl (with_net x (with_connected cs cfg)).

(** detach server [i] from the net. *)
Definition disconnect (i : Z) cfg : Res config :=
  cs ← upd (connected cfg) i false;
  x ← loop (fun j x => row ← idx (endnames cfg) i;
              match row with Some _ => Enable_end (endnames cfg) i j false x | None => inl x end)
        (servers cfg) (net cfg);
  x ← loop (fun j x => row ← idx (endnames cfg) j;
              match row with Some _ => Enable_end (endnames cfg) j i false x | None => inl x end)
        (servers cfg) x;
  inl (with_net x (with_connected cs cfg)).

(** ** Crash and restart *)

(** shut down a Raft server but save its persistent state. *)
Definition crash1 (i : Z) cfg : Res config :=
  cfg ← disconnect i cfg;
  let cfg := with_net (DeleteServer (inr i) (net cfg)) cfg in
  fs ← copy_saved i (files cfg);
  live ← idx (alive cfg) i;
  l ← (if (live : bool) then upd (alive cfg) i false else inl (alive cfg));
  p ← idx (saved fs) i;
  fs ← match p with
       | Some a =>
           let ps := persister_at a fs in
           store_new i (Persister.SaveStateAndSnapshot (Persister.ReadRaftState ps)
                          (Persister.ReadSnapshot ps) Persister.MakePersister) fs
       | None => inl fs
       end;
  inl (with_files fs (with_alive l cfg)).

(** The values of a snapshot, from index 0 on. *)
Fixpoint snapshot_log (j : Z) (xlog : list (option C)) (m : gmap Z (option C)) :
    gmap Z (option C) :=
  match xlog with
  | [] => m
  | x :: xlog => snapshot_log (j + 1) xlog (<[j := x]> m)
  end.

(** [ingestSnap]; [None]: no error.  A slice that was never set is empty here, so the
    test for nil is the one for the empty snapshot, which does not decode either. *)
Definition ingestSnap (i : Z) (snapshot : bytes) (index : Z) cfg : Res (config * option Message) :=
  match dec snapshot : option (Z * list (option C)) with
  | None => inr (Fatal SnapshotDecode)
  | Some (lastIncludedIndex, xlog) =>
      if negb (index =? -1) && negb (index =? lastIncludedIndex)
      then inl (cfg, Some (SnapshotIndexWrong i))
      else
        l ← upd (logs cfg) i (snapshot_log 0 xlog ∅);
        la ← upd (lastApplied cfg) i lastIncludedIndex;
        inl (with_lastApplied la (with_logs l (maxIndex cfg) cfg), None)
  end.

(** start or re-start a Raft; [names] are the draws of [randstring], [srv] is the new
    [*labrpc.Server].  The persister that [Make] gets is the one in [saved]. *)
Definition start1 (i : Z) (names : list string) (srv : nat) cfg : Res config :=
  cfg ← crash1 i cfg;
  es ← upd (endnames cfg) i (Some names);
  x ← make_ends names inr (servers cfg) (net cfg);
  la ← upd (lastApplied cfg) i 0;
  let cfg := with_lastApplied la (with_net x (with_endnames es cfg)) in
  p ← idx (saved (files cfg)) i;
  cfg ← (match p with
         | Some a =>
             fs ← copy_saved i (files cfg);
             q ← idx (saved fs) i;
             let cfg := with_files fs cfg in
             let snapshot := Persister.ReadSnapshot (persister_at (default a q) fs) in
             if 0 <? zlen snapshot then
               '(cfg, err) ← ingestSnap i snapshot (-1) cfg;
               match err with Some m => inr (Fatal m) | None => inl cfg end
             else inl cfg
         | None => fs ← store_new i Persister.MakePersister (files cfg); inl (with_files fs cfg)
         end);
  l ← upd (alive cfg) i true;
  inl (with_net (AddServer (inr i) srv (net cfg)) (with_alive l cfg)).

(** [names i] and [srvs i] are the draws for server [i]. *)
Definition make_config (k : nat) (unreliable : bool) (names : Z -> list string) (srvs : Z -> nat) :
    Res config :=
  let cfg :=
    {| finished := false; net := MakeNetwork; n := k; alive := replicate k false;
       applyErr := replicate k None; connected := replicate k false; files := no_files k;
       endnames := replicate k None; logs := replicate k ∅;
       lastApplied := replicate k 0; maxIndex := 0; rpcs0 := 0; bytes0 := 0; maxIndex0 := 0 |} in
  let cfg := with_net (LongDelays true (Reliable (negb unreliable) (net cfg))) cfg in
  cfg ← loop (fun i cfg =>
          l ← upd (logs cfg) i ∅;
          start1 i (names i) (srvs i) (with_logs l (maxIndex cfg) cfg)) (servers cfg) cfg;
  loop connect (servers cfg) cfg.

(** ** What the servers deliver *)

(** The loop of [checkLogs] over the logs of all servers; the last difference counts. *)
Fixpoint differences (i : Z) (m : ApplyMsg C) (j : Z) (ls : list (gmap Z (option C)))
    (err : option Message) : option Message :=
  match ls with
  | [] => err
  | l :: ls =>
      differences i m (j + 1) ls
        (match l !! CommandIndex m with
         | Some old => if decide (old = Command m) then err else Some (Differs i (CommandIndex m) j)
         | None => err
         end)
  end.

Definition checkLogs (i : Z) (m : ApplyMsg C) cfg : Res (config * option Message * bool) :=
  let err := differences i m 0 (logs cfg) None in
  l ← idx (logs cfg) i;
  let prevok := bool_decide (is_Some (l !! (CommandIndex m - 1))) in
  ls ← upd (logs cfg) i (<[CommandIndex m := Command m]> l);
  inl (with_logs ls (if maxIndex cfg <? CommandIndex m then CommandIndex m else maxIndex cfg) cfg,
       err, prevok).

(** One message of [applier].  [log.Fatalf] ends the process, so what follows it in the
    code is never executed. *)
Definition applier (i : Z) (m : ApplyMsg C) cfg : Res config :=
  if negb (CommandValid m) then inl cfg
  else
    '(cfg, err, prevok) ← checkLogs i m cfg;
    let err := if (1 <? CommandIndex m) && negb prevok then Some (OutOfOrder i (CommandIndex m))
               else err in
    match err with Some e => inr (Fatal e) | None => inl cfg end.

Definition SnapShotInterval : Z := 10.

(** [xlog]: the values from index 0 to [last]; what is missing in a map is nil. *)
Definition snapshot_values (last : Z) (l : gmap Z (option C)) : list (option C) :=
  (fun j => mjoin (l !! j)) <$> zrange (Z.to_nat (last + 1)).

(** One message of [applierSnap], which calls into its Raft [rf]. *)
Definition applierSnap (i : Z) (m : ApplyMsg C) (rf : Raft C) cfg : Res (config * Raft C) :=
  '(cfg, rf, err) ←
    (if SnapshotValid m then
       '(rf, installed) ← lift (CondInstallSnapshot (SnapshotTerm m) (SnapshotIndex m) (Snapshot_ m) rf);
       if (installed : bool) then
         '(cfg, err) ← ingestSnap i (Snapshot_ m) (SnapshotIndex m) cfg;
         inl (cfg, rf, err)
       else inl (cfg, rf, None)
     else if CommandValid m then
       last ← idx (lastApplied cfg) i;
       '(cfg, err) ←
         (if negb (CommandIndex m =? last + 1)
          then inl (cfg, Some (Unexpected i (last + 1) (CommandIndex m)))
          else
            '(cfg, err, prevok) ← checkLogs i m cfg;
            inl (cfg, if (1 <? CommandIndex m) && negb prevok
                      then Some (OutOfOrder i (CommandIndex m)) else err));
       la ← upd (lastApplied cfg) i (CommandIndex m);
       let cfg := with_lastApplied la cfg in
       if (CommandIndex m + 1) mod SnapShotInterval =? 0 then
         l ← idx (logs cfg) i;
         rf ← lift (Snapshot (CommandIndex m)
                      (enc (CommandIndex m, snapshot_values (CommandIndex m) l)) rf);
         inl (cfg, rf, err)
       else inl (cfg, rf, err)
     else inl (cfg, rf, None));
  match (err : option Message) with Some e => inr (Fatal e) | None => inl (cfg, rf) end.

(** ** Leaders and terms; [read i] is what [cfg.rafts[i].GetState()] returns *)

Definition leaders (read : Z -> Z * bool) cfg : Res (gmap Z (list Z)) :=
  loop (fun i ls =>
    c ← idx (connected cfg) i;
    if (c : bool) then
      let '(term, leader) := read i in
      if (leader : bool) then inl (<[term := default [] (ls !! term) ++ [i]]> ls) else inl ls
    else inl ls) (servers cfg) ∅.

(** The loop over the terms: too many leaders in one, or the last term with one. *)
Definition lastTerm (ls : list (Z * list Z)) : Res Z :=
  loop (fun p last =>
    if 1 <? zlen p.2 then inr (Fatal (TwoLeaders p.1 (zlen p.2)))
    else inl (if last <? p.1 then p.1 else last)) ls (-1).

(** One iteration of [checkOneLeader]: what the servers answer, and the order in which Go
    visits the terms of the map. *)
Record Round := {
  rd_read : Z -> Z * bool;
  rd_visit : gmap Z (list Z) -> list (Z * list Z);
}.

(** [checkOneLeader] over its iterations, at most ten. *)
Fixpoint checkOneLeader (rounds : list Round) cfg : Res Z :=
  match rounds with
  | [] => inr (Fatal NoLeader)
  | r :: rounds =>
      ls ← leaders (rd_read r) cfg;
      last ← lastTerm (rd_visit r ls);
      if negb (bool_decide (ls = ∅)) then idx (default [] (ls !! last)) 0
      else checkOneLeader rounds cfg
  end.

Definition checkTerms (read : Z -> Z * bool) cfg : Res Z :=
  loop (fun i term =>
    c ← idx (connected cfg) i;
    if (c : bool) then
      let xterm := (read i).1 in
      if term =? -1 then inl xterm
      else if negb (term =? xterm) then inr (Fatal TermsDiffer) else inl term
    else inl term) (servers cfg) (-1).

Definition checkNoLeader (read : Z -> Z * bool) cfg : Res unit :=
  loop (fun i _ =>
    c ← idx (connected cfg) i;
    if (c : bool) && (read i).2 then inr (Fatal (UnexpectedLeader i)) else inl tt)
    (servers cfg) tt.

(** ** Agreement *)

(** how many servers think a log entry is committed?  All logs are read in one state; the
    code locks for each. *)
Definition nCommitted (index : Z) cfg : Res (Z * option C) :=
  loop (fun i '(count, cmd) =>
    e ← idx (applyErr cfg) i;
    match e with
    | Some m => inr (Fatal m)
    | None =>
        l ← idx (logs cfg) i;
        match l !! index with
        | Some cmd1 =>
            if (0 <? count) && negb (bool_decide (cmd = cmd1))
            then inr (Fatal (CommittedDiffers index)) else inl (count + 1, cmd1)
        | None => inl (count, cmd)
        end
    end) (zrange (length (alive cfg))) (0, None).

(** What [wait] sees in one iteration: the state when it counts, and the terms that
    [GetState] returns afterwards ([None]: a server is down, its pointer is nil). *)
Record Poll := { po_cfg : config; po_terms : list (option Z) }.

(** Does some server report a term above [startTerm]? *)
Fixpoint moved_on (startTerm : Z) (terms : list (option Z)) : Res bool :=
  match terms with
  | [] => inl false
  | None :: _ => inr Panic
  | Some t :: terms => if startTerm <? t then inl true else moved_on startTerm terms
  end.

(** wait for at least [k] servers to commit; [polls] are the iterations, at most
    thirty.  [inl None] stands for -1: somebody has moved on. *)
Fixpoint wait (index k startTerm : Z) (polls : list Poll) (last : config) : Res (option (option C)) :=
  match polls with
  | [] =>
      '(nd, cmd) ← nCommitted index last;
      if nd <? k then inr (Fatal (TooFew nd index k)) else inl (Some cmd)
  | p :: polls =>
      '(nd, _) ← nCommitted index (po_cfg p);
      if k <=? nd then
        '(nd, cmd) ← nCommitted index last;
        if nd <? k then inr (Fatal (TooFew nd index k)) else inl (Some cmd)
      else
        moved ← (if -1 <? startTerm then moved_on startTerm (po_terms p) else inl false);
        if (moved : bool) then inl None else wait index k startTerm polls last
  end.

(** One attempt of [one]: the servers that are connected when it asks them, what [Start]
    returns there, and the states in which it counts for two seconds. *)
Record Attempt := {
  at_connected : Z -> bool;
  at_start : Z -> Z * Z * bool;
  at_polls : list config;
}.

(** try all the servers, maybe one is the leader. *)
Fixpoint submit (tries : nat) (k : nat) (starts : Z) (a : Attempt) : option Z * Z :=
  match tries with
  | O => (None, starts)
  | S tries =>
      let starts := (starts + 1) mod Z.of_nat k in
      if at_connected a starts then
        let '(index, _, ok) := at_start a starts in
        if (ok : bool) then (Some index, starts) else submit tries k starts a
      else submit tries k starts a
  end.

(** wait a while for agreement. *)
Fixpoint agreed (cmd : C) (index expectedServers : Z) (polls : list config) : Res bool :=
  match polls with
  | [] => inl false
  | cfg :: polls =>
      '(nd, cmd1) ← nCommitted index cfg;
      if (0 <? nd) && (expectedServers <=? nd) && bool_decide (cmd1 = Some cmd)
      then inl true else agreed cmd index expectedServers polls
  end.

(** do a complete agreement.  [attempts] are the rounds that fit into ten seconds; [fin]
    is whether the test has finished in the meantime. *)
Fixpoint one (cmd : C) (expectedServers : Z) (retry fin : bool) (k : nat) (starts : Z)
    (attempts : list Attempt) : Res Z :=
  match attempts with
  | [] => if fin then inl (-1) else inr (Fatal NoAgreement)
  | a :: attempts =>
      let '(index, starts) := submit k k starts a in
      match index with
      | Some index =>
          if index =? -1 then one cmd expectedServers retry fin k starts attempts
          else
            done ← agreed cmd index expectedServers (at_polls a);
            if (done : bool) then inl index
            else if negb retry then inr (Fatal NoAgreement)
            else one cmd expectedServers retry fin k starts attempts
      | None => one cmd expectedServers retry fin k starts attempts
      end
  end.

(** ** Statistics and the end *)

Definition checkFinished cfg : bool := finished cfg.
Definition cleanup (failed : bool) (seconds : Z) cfg : Res config :=
  let cfg := with_counts true (rpcs0 cfg) (bytes0 cfg) (maxIndex0 cfg) cfg in
  x ← stop (net cfg);
  _ ← checkTimeout failed seconds;
  inl (with_net x cfg).

Definition rpcCount {GoType V W} (server : Z) (heap : gmap nat (@Server GoType V W)) cfg : Res Z :=
  lift (GetCount (inr server) (net cfg) heap).
Definition rpcTotal cfg : Z := GetTotalCount (net cfg).
Definition setunreliable (unrel : bool) cfg : config := with_net (Reliable (negb unrel) (net cfg)) cfg.
Definition bytesTotal cfg : Z := GetTotalBytes (net cfg).
Definition setlongreordering (longrel : bool) cfg : config :=
  with_net (LongReordering longrel (net cfg)) cfg.

Definition begin cfg : config :=
  with_counts (finished cfg) (rpcTotal cfg) (bytesTotal cfg) (maxIndex cfg) cfg.
(** What [end] prints: RPCs, bytes and agreements since [begin]. *)
Definition end_ (failed : bool) (seconds : Z) cfg : Res (option (Z * Z * Z)) :=
  _ ← checkTimeout failed seconds;
  inl (if failed then None
       else Some (rpcTotal cfg - rpcs0 cfg, bytesTotal cfg - bytes0 cfg, maxIndex cfg - maxIndex0 cfg)).

(** Maximum log size across all servers *)
Definition LogSize cfg : Res Z := largest Persister.RaftStateSize (servers cfg) (files cfg).
End config.
End RaftConfig.
