(* ===== verification/RaftConfigProps.v ===== *)
(** * The test harness of Raft: leaders

    [checkOneLeader] never finds two leaders of one term,
    at whatever moments of a run of the cluster it asks the servers. *)
From S2P Require Import Prelude Persister RaftNode RaftLocal RaftNet LabRPC Harness HarnessProps RaftConfig.
From stdpp Require Import functions relations.
Import LabRPC Harness RaftConfig IntCommands.
#[local] Open Scope Z_scope.

Section leaders.
Context {C : Type} `{EqDecision C} `{!Codec (RaftPersist C)} `{!Codec (Z * list (option C))}.
Implicit Types cfg : config (C := C).

(** ** Leaders *)

Definition up cfg (i : Z) : bool := default false (zget (connected cfg) i).

(** [i] is connected and says that it leads [term]. *)
Definition leads cfg (read : Z -> Z * bool) (term i : Z) : bool :=
  up cfg i && ((read i).1 =? term) && (read i).2.

Lemma up_idx cfg i :
  length (connected cfg) = n cfg -> 0 <= i < Z.of_nat (n cfg) -> idx (connected cfg) i = inl (up cfg i).
Proof.
  intros Hl Hi. unfold up. destruct (zget_in_range (connected cfg) i) as [b Hb];
    [unfold zlen; lia|]. rewrite Hb. by apply idx_Some.
Qed.

Definition nonempty (l : list Z) : option (list Z) := match l with [] => None | _ => Some l end.
Definition leadersOf cfg read t (l : list Z) : list Z := filter (fun i => leads cfg read t i = true) l.

Lemma leaders_spec cfg read :
  length (connected cfg) = n cfg ->
  exists ls, leaders read cfg = inl ls /\
    forall t, ls !! t = nonempty (leadersOf cfg read t (servers cfg)).
Proof.
  intros Hlen. unfold leaders.
  apply (loop_inv (fun pre (ls : gmap Z (list Z)) =>
    forall t, ls !! t = nonempty (leadersOf cfg read t pre))); [done|].
  intros pre i post ls E Hp. unfold servers in E. apply zrange_split in E as Hi.
  rewrite up_idx by done. cbn [mbind res_bind].
  assert (forall t, leads cfg read t i = false ->
    leadersOf cfg read t (pre ++ [i]) = leadersOf cfg read t pre) as Hsame.
  { intros t Ht. unfold leadersOf. rewrite filter_app, filter_cons_False by congruence.
    by rewrite app_nil_r. }
  destruct (up cfg i) eqn:Hup; [destruct (read i) as [term []] eqn:Hr|];
    (eexists; split; [done|]); intros t.
  - destruct (decide (term = t)) as [<-|Hne].
    + rewrite lookup_insert_eq. unfold leadersOf. rewrite filter_app, filter_cons_True, filter_nil
        by (unfold leads; by rewrite Hup, Hr, Z.eqb_refl).
      rewrite Hp. fold (leadersOf cfg read term pre). by destruct (leadersOf cfg read term pre).
    + rewrite lookup_insert_ne, Hsame, Hp; [done| |done]. unfold leads. rewrite Hup, Hr. cbn.
      by rewrite (proj2 (Z.eqb_neq _ _) Hne).
  - rewrite Hsame, Hp by (unfold leads; by rewrite Hup, Hr, andb_false_r). done.
  - rewrite Hsame, Hp by (unfold leads; by rewrite Hup). done.
Qed.

Lemma lastTerm_spec (ls : list (Z * list Z)) :
  (forall p, p ∈ ls -> zlen p.2 <= 1) ->
  exists t, lastTerm ls = inl t /\ (forall p, p ∈ ls -> p.1 <= t) /\
    (t = -1 \/ exists p, p ∈ ls /\ p.1 = t).
Proof.
  intros Hle. unfold lastTerm.
  apply (loop_inv (fun pre t => (forall p, p ∈ pre -> p.1 <= t) /\
    (t = -1 \/ exists p, p ∈ pre /\ p.1 = t))); [split; [by intros p ?%not_elem_of_nil|by left]|].
  intros pre p post t E [H1 H2].
  rewrite (proj2 (Z.ltb_ge _ _)) by (apply Hle; rewrite E; apply elem_of_app; right; by left).
  eexists. split; [done|]. bcase; split.
  - intros q [Hq| ->%list_elem_of_singleton]%elem_of_app; [specialize (H1 q Hq); lia|lia].
  - right. exists p. split; [apply elem_of_app; right; by left|done].
  - intros q [Hq| ->%list_elem_of_singleton]%elem_of_app; [by apply H1|lia].
  - destruct H2 as [?|(q & Hq & ?)]; [by left|right]. exists q. split; [apply elem_of_app; by left|done].
Qed.

(** A reading in which no two servers lead the same term. *)
Definition one_per_term cfg (read : Z -> Z * bool) : Prop :=
  forall t i j, leads cfg read t i = true -> leads cfg read t j = true ->
  0 <= i < Z.of_nat (n cfg) -> 0 <= j < Z.of_nat (n cfg) -> i = j.

(** The map of [leaders] has the terms that some server leads, and who leads them. *)
Lemma leaders_in cfg read (ls : gmap Z (list Z)) :
  (forall t, ls !! t = nonempty (leadersOf cfg read t (servers cfg))) ->
  forall t i, 0 <= i < Z.of_nat (n cfg) -> leads cfg read t i = true ->
  exists l, ls !! t = Some l /\ l <> [].
Proof.
  intros Hls t i Hi Hl. rewrite Hls.
  assert (i ∈ leadersOf cfg read t (servers cfg)) as Hx
    by (apply list_elem_of_filter; split; [done|by apply elem_of_zrange]).
  destruct (leadersOf cfg read t (servers cfg)); [by apply not_elem_of_nil in Hx|by eexists].
Qed.

Lemma leaders_single cfg read (ls : gmap Z (list Z)) :
  (forall t, ls !! t = nonempty (leadersOf cfg read t (servers cfg))) -> one_per_term cfg read ->
  forall t l, ls !! t = Some l -> exists i, l = [i] /\ 0 <= i < Z.of_nat (n cfg) /\
    leads cfg read t i = true.
Proof.
  intros Hls Hone t l Ht. rewrite Hls in Ht.
  assert (forall i, i ∈ leadersOf cfg read t (servers cfg) ->
    0 <= i < Z.of_nat (n cfg) /\ leads cfg read t i = true) as Hall
    by (intros i [? ?%elem_of_zrange]%list_elem_of_filter; done).
  assert (NoDup (leadersOf cfg read t (servers cfg))) as Hnd
    by (eapply sublist_NoDup; [apply NoDup_zrange|apply sublist_filter]).
  destruct (leadersOf cfg read t (servers cfg)) as [|i [|j l']]; [done| |]; injection Ht as <-.
  - exists i. split; [done|]. apply Hall. by left.
  - exfalso. apply NoDup_cons in Hnd as [Hni _]. apply Hni.
    destruct (Hall i) as [? ?]; [by left|]. destruct (Hall j) as [? ?]; [by right; left|].
    rewrite (Hone t i j) by done. by left.
Qed.

(** Go visits every term once, in some order. *)
Definition visits (r : Round) : Prop := forall m, rd_visit r m ≡ₚ map_to_list m.

(** The loop of [checkOneLeader]: the leader of the last term in the first reading that
    has a leader. *)
Lemma checkOneLeader_spec cfg rounds :
  length (connected cfg) = n cfg -> Forall visits rounds ->
  Forall (fun r => one_per_term cfg (rd_read r)) rounds ->
  (forall r i, r ∈ rounds -> 0 <= i < Z.of_nat (n cfg) -> 0 <= (rd_read r i).1) ->
  match checkOneLeader rounds cfg with
  | inl l => exists r t, r ∈ rounds /\ leads cfg (rd_read r) t l = true /\ 0 <= l < Z.of_nat (n cfg) /\
      forall t' l', 0 <= l' < Z.of_nat (n cfg) -> leads cfg (rd_read r) t' l' = true -> t' <= t
  | inr e => e = Fatal NoLeader /\
      forall r t l, r ∈ rounds -> 0 <= l < Z.of_nat (n cfg) -> leads cfg (rd_read r) t l = false
  end.
Proof.
  intros Hlen Hv Hone Hpos. induction rounds as [|r rounds IH]; cbn [checkOneLeader].
  { split; [done|]. by intros r t l ?%not_elem_of_nil. }
  apply Forall_cons in Hone as [Hone1 Hone], Hv as [Hv1 Hv].
  specialize (IH Hv Hone (fun r i Hr => Hpos r i (list_elem_of_further _ _ _ Hr))).
  destruct (leaders_spec cfg (rd_read r) Hlen) as (ls & -> & Hls). cbn [mbind res_bind].
  pose proof (leaders_in cfg (rd_read r) ls Hls) as Hin.
  pose proof (leaders_single cfg (rd_read r) ls Hls Hone1) as Hsing.
  destruct (lastTerm_spec (rd_visit r ls)) as (t & -> & Hmax & Ht).
  { intros [t l]. rewrite (Hv1 ls). intros (i & -> & _)%elem_of_map_to_list%Hsing. done. }
  cbn [mbind res_bind]. case_bool_decide as E; cbn [negb].
  - destruct (checkOneLeader rounds cfg) as [l|e].
    + destruct IH as (r' & t' & ? & ? & ? & ?). exists r', t'. split_and!; try done; try lia. by right.
    + destruct IH as [-> IH]. split; [done|]. intros r' t' l [->|Hr]%elem_of_cons Hl; [|by apply IH].
      apply not_true_iff_false. intros Hx. destruct (Hin t' l Hl Hx) as (? & Hx' & _).
      by rewrite E, lookup_empty in Hx'.
  - assert (forall t' l, ls !! t' = Some l -> t' <= t) as Hle
      by (intros t' l Hl; apply (Hmax (t', l)); rewrite (Hv1 ls); by apply elem_of_map_to_list).
    destruct Ht as [->|([t' l] & Hp & Et)].
    { exfalso. apply E. apply map_eq. intros t. rewrite lookup_empty.
      destruct (ls !! t) as [l|] eqn:Hl; [exfalso|done].
      destruct (Hsing t l Hl) as (i & _ & Hi & Hld). specialize (Hle t l Hl).
      unfold leads in Hld. apply andb_true_iff in Hld as [[_ Hld]%andb_true_iff _].
      apply Z.eqb_eq in Hld. specialize (Hpos r i). rewrite Hld in Hpos.
      specialize (Hpos ltac:(by left) Hi). lia. }
    cbn in Et. subst t'. rewrite (Hv1 ls) in Hp. apply elem_of_map_to_list in Hp.
    destruct (Hsing t l Hp) as (i & -> & Hi & Hld).
    rewrite Hp. cbn. exists r, t. split_and!; [by left|done|lia|lia|].
    intros t' l' Hl' Hx. destruct (Hin t' l' Hl' Hx) as (l'' & Hl'' & _). by eapply Hle.
Qed.
End leaders.

(** ** The leaders of a cluster *)
Section cluster.
Context {C : Type} `{EqDecision C} `{!Codec (RaftPersist C), !CodecLaws (RaftPersist C)}.
Context `{!Codec (Z * list (option C))}.
Variable k : nat.
Implicit Types (cfg : config (C := C)) (net : RaftNet.Net C).

(** What the servers answer when they are asked at the moments [nets i]. *)
Definition asked (nets : Z -> RaftNet.Net C) (i : Z) : Z * bool :=
  GetState (raft (RaftNet.nodes (nets i) i)).

(** Moments of one run. *)
Definition moments (nets : Z -> RaftNet.Net C) : Prop :=
  (forall i, net_reachable k (nets i)) /\
  forall i j, rtc (net_step k) (nets i) (nets j) \/ rtc (net_step k) (nets j) (nets i).

Lemma reachable_net_inv net : net_reachable k net -> net_inv k net.
Proof. intros (net0 & Hinit & Hr). eapply (RaftNet.rtc_inv k); [done|by apply init_inv]. Qed.

Lemma net_terms net i : net_reachable k net -> 0 <= i < Z.of_nat k -> 0 <= currentTerm (raft (RaftNet.nodes net i)).
Proof.
  intros (net0 & [Hs0 Hn0] & Hr) Hi.
  assert (net_inv k net0) as Hinv by (by apply init_inv).
  assert (0 <= currentTerm (raft (RaftNet.nodes net0 i))) as Ht
    by (destruct (Hn0 i) as [r ->]; vm_compute; discriminate).
  clear Hs0 Hn0. induction Hr as [|net1 net2 net3 Hs _ IH]; [done|]. apply IH; [by eapply net_step_inv|].
  destruct Hs as [j src ev nd' Hj Hst _|j r Hj]; cbn;
    (destruct (decide (i = j)) as [->|]; [rewrite fn_lookup_insert|by rewrite fn_lookup_insert_ne]).
  - apply node_step_forward in Hst. pose proof (fw_term _ _ Hst). lia.
  - pose proof (Make_persistent k j (raft (RaftNet.nodes net1 j)) r (inv_persisted _ _ Hinv j Hj)) as E.
    apply (f_equal rp_currentTerm) in E. cbn in E |- *. by rewrite E.
Qed.

Lemma moments_one cfg nets : n cfg = k -> moments nets -> one_per_term cfg (asked nets).
Proof.
  intros Hn [Hr Hm] t i j. unfold leads, asked, GetState. cbn.
  intros [[_ Eti%Z.eqb_eq]%andb_true_iff Hli]%andb_true_iff.
  intros [[_ Etj%Z.eqb_eq]%andb_true_iff Hlj]%andb_true_iff. rewrite Hn. intros Hi Hj.
  apply bool_decide_eq_true in Hli, Hlj. rewrite <- Etj in Eti.
  destruct (Hm i j) as [H|H]; [|symmetry]; (eapply (leaders_unique k);
    [apply reachable_net_inv, Hr|apply reachable_net_inv, Hr|by eapply (rtc_soup k)|..]; done).
Qed.

(** A round that asks each server at a moment of its own. *)
Definition asks (q : (Z -> RaftNet.Net C) * (gmap Z (list Z) -> list (Z * list Z))) : Round :=
  {| rd_read := asked q.1; rd_visit := q.2 |}.

(** [checkOneLeader] over any number of rounds, whose servers are each asked at a
    moment of its own of one run of the cluster: it never finds two leaders of a term
    nor panics.  It returns a connected server that was the leader of the newest term
    with a leader when it was asked in its round, or it reports that there is no
    leader, and then no connected server said it was. *)
Theorem check_one_leader cfg rounds :
  n cfg = k -> length (connected cfg) = k ->
  Forall (fun q => moments q.1 /\ visits (asks q)) rounds ->
  match checkOneLeader (asks <$> rounds) cfg with
  | inl l => exists q t, q ∈ rounds /\ 0 <= l < Z.of_nat k /\ leads cfg (asked q.1) t l = true /\
      forall t' l', 0 <= l' < Z.of_nat k -> leads cfg (asked q.1) t' l' = true -> t' <= t
  | inr e => e = Fatal NoLeader /\
      forall q t l, q ∈ rounds -> 0 <= l < Z.of_nat k -> leads cfg (asked q.1) t l = false
  end.
Proof.
  intros Hn Hc Hr. pose proof (checkOneLeader_spec cfg (asks <$> rounds)) as Hs. rewrite Hn in Hs.
  specialize (Hs Hc). rewrite !Forall_fmap in Hs. rewrite Forall_forall in Hr.
  assert (Forall (visits ∘ asks) rounds) as H1 by (apply Forall_forall; intros q Hq; by apply Hr).
  assert (Forall ((fun r => one_per_term cfg (rd_read r)) ∘ asks) rounds) as H2
    by (apply Forall_forall; intros q Hq; by apply moments_one, Hr).
  specialize (Hs H1 H2). destruct (checkOneLeader (asks <$> rounds) cfg) as [l|e].
  - destruct Hs as (? & t & (q & -> & Hin)%list_elem_of_fmap & Hl & Hb & Hmax).
    + intros ? i (q & -> & Hin)%list_elem_of_fmap Hi. cbn. apply net_terms; [|done]. by apply Hr.
    + by exists q, t.
  - destruct Hs as (-> & Hl).
    + intros ? i (q & -> & Hin)%list_elem_of_fmap Hi. cbn. apply net_terms; [|done]. by apply Hr.
    + split; [done|]. intros q t l' Hin Hl'. by apply (Hl (asks q)); [apply list_elem_of_fmap_2|].
Qed.
End cluster.

(** Peer 0 of RaftNet's run leads, and the harness finds it. *)
Lemma check_one_leader_witness :
  let rounds := [((fun _ => Demo.net3), map_to_list)] in
  exists cfg : config (C := Z), connected cfg = [true; true; true] /\
    checkOneLeader (asks <$> rounds) cfg = inl 0 /\
    exists t, leads cfg (asked (fun _ => Demo.net3)) t 0 = true.
Proof.
  intros rounds.
  set (cfg := {| finished := false; net := MakeNetwork; n := 3; alive := []; applyErr := [];
    connected := [true; true; true]; files := no_files 3; endnames := [];
    logs := []; lastApplied := []; maxIndex := 0; rpcs0 := 0; bytes0 := 0; maxIndex0 := 0 |}
    : config (C := Z)).
  exists cfg. split; [done|].
  assert (checkOneLeader (asks <$> rounds) cfg = inl 0) as E by (vm_compute; reflexivity).
  split; [done|]. pose proof (check_one_leader 3 cfg rounds eq_refl eq_refl) as H.
  rewrite E in H. destruct H as (? & t & ->%list_elem_of_singleton & _ & H & _); [|by exists t].
  apply Forall_singleton. split; [|by intros m].
  split; [intros; apply Demo.net3_reachable|intros; left; apply rtc_refl].
Defined.
