(* ===== verification/RaftConfigDisk.v ===== *)
(** * The test harness of Raft: crash and restart

    What [crash1] and [start1] leave alone, and what they put in the files: every server
    has a persister of its own at any time, a restarted server a new one with the
    contents of the last, so that a former instance which still writes harms nobody. *)
From S2P Require Import Prelude Persister RaftNode LabRPC Harness HarnessProps RaftConfig.
Import LabRPC Harness RaftConfig.
#[local] Open Scope Z_scope.

Section frames.
Context {C : Type} `{EqDecision C} `{!Codec (RaftPersist C)} `{!Codec (Z * list (option C))}.
Implicit Types cfg : config (C := C).

(** What is not about the network, the files and who is alive. *)
Record steady cfg cfg' : Prop := {
  sd_n : n cfg' = n cfg;
  sd_applyErr : applyErr cfg' = applyErr cfg;
  sd_logs : logs cfg' = logs cfg;
  sd_max : maxIndex cfg' = maxIndex cfg;
  sd_alive : length (alive cfg') = length (alive cfg);
}.

#[global] Instance steady_preorder : PreOrder steady.
Proof. split; [done|]. intros x y z [] []. split; congruence. Qed.

(** The files are the same, or new ones with the old contents. *)
Definition kept (i : nat) cfg cfg' : Prop := steady cfg cfg' /\ restored i (files cfg) (files cfg').

#[global] Instance kept_preorder i : PreOrder (kept i).
Proof. split; [done|]. intros x y z [? ?] [? ?]. split; by etrans. Qed.

Lemma connect_kept i j cfg cfg' : connect i cfg = inl cfg' -> kept j cfg cfg'.
Proof. unfold connect. by intros (cs & _ & (x & _ & (y & _ & [= <-])%res_bind_inl)%res_bind_inl)%res_bind_inl. Qed.

Lemma disconnect_kept i j cfg cfg' : disconnect i cfg = inl cfg' -> kept j cfg cfg'.
Proof. unfold disconnect. by intros (cs & _ & (x & _ & (y & _ & [= <-])%res_bind_inl)%res_bind_inl)%res_bind_inl. Qed.

Lemma crash1_kept i cfg cfg' : crash1 i cfg = inl cfg' -> kept (Z.to_nat i) cfg cfg'.
Proof.
  unfold crash1. intros (c1 & E1 & H)%res_bind_inl. apply (disconnect_kept i (Z.to_nat i)) in E1.
  apply res_bind_inl in H as (fs & E2%copy_saved_restored & H).
  apply res_bind_inl in H as (live & _ & H).
  apply res_bind_inl in H as (l & El & H).
  apply res_bind_inl in H as (p & Hp%idx_inl & H).
  apply res_bind_inl in H as (fs' & E3 & [= <-]).
  eapply refile_restored in E3 as [E3 _]; [|exact Hp|intros; apply SaveState_Read].
  etrans; [exact E1|]. split; [split; try done|by etrans]. cbn.
  destruct live; [by apply upd_inl in El as [_ ->]; apply length_insert|by injection El as <-].
Qed.

(** A restart without a snapshot: the disk and the logs stay as they are, and the new
    instance has a file that no former one knows. *)
Lemma start1_kept i names srv cfg cfg' :
  files_ok (files cfg) -> Persister.snapshot (on_disk (files cfg) (Z.to_nat i)) = [] ->
  start1 i names srv cfg = inl cfg' ->
  kept (Z.to_nat i) cfg cfg' /\ zget (alive cfg') i = Some true /\
  exists a, zget (saved (files cfg')) i = Some (Some a) /\ (next (files cfg) <= a)%nat.
Proof.
  intros Hf Hsnap. unfold start1. intros (c1 & K1%crash1_kept & H)%res_bind_inl.
  apply res_bind_inl in H as (es & _ & H).
  apply res_bind_inl in H as (x & _ & H).
  apply res_bind_inl in H as (la & _ & H).
  apply res_bind_inl in H as (p & Hp%idx_inl & H). cbn in Hp.
  apply res_bind_inl in H as (c4 & E4 & H).
  apply res_bind_inl in H as (l & [Hl ->]%upd_inl & [= <-]).
  pose proof (proj2 K1) as R1.
  assert (kept (Z.to_nat i) c1 c4 /\ exists a, zget (saved (files c4)) i = Some (Some a) /\
    (next (files c1) <= a)%nat) as [K2 (a & Ha & Hn)].
  { destruct p as [a|].
    - apply res_bind_inl in E4 as (fs & E5 & H5). cbn in E5.
      apply res_bind_inl in E5 as (q' & Hq'%idx_inl & E5). assert (q' = Some a) as -> by congruence.
      destruct (refile_restored i (Some a) (fun a => Persister.Copy (persister_at a (files c1))) (files c1) fs)
        as (Hr & a' & Hp' & Hn); [done|intros; apply Copy_id|done|].
      apply res_bind_inl in H5 as (q & Hq%idx_inl & H5).
      assert (q = Some a') as -> by congruence. change (default a (Some a')) with a' in H5.
      assert (Hd : persister_at a' fs = on_disk (files cfg) (Z.to_nat i)).
      { pose proof Hp' as [_ Hp'']%zget_Some_lookup.
        rewrite <- (on_disk_at _ _ _ Hp''), (rs_disk _ _ _ Hr), (rs_disk _ _ _ R1);
          [done|done|by apply (rs_files _ _ _ R1)]. }
      unfold Persister.ReadSnapshot in H5. rewrite Hd, Hsnap in H5. injection H5 as <-.
      split; [by split|by exists a'].
    - apply res_bind_inl in E4 as (fs & E5%(store_empty_restored _ _ _ Hp) & [= <-]).
      destruct E5 as (Hr & a & Ha & Hn). split; [by split|by exists a]. }
  split; [|split].
  - etrans; [exact K1|]. etrans; [exact K2|]. split; [|done]. split; try done. apply length_insert.
  - cbn. apply zget_Some_lookup. split; [lia|]. apply list_lookup_insert_eq. unfold zlen in Hl. lia.
  - exists a. split; [done|]. pose proof (rs_next _ _ _ R1). lia.
Qed.
End frames.
