(* ===== verification/RaftConfigNet.v ===== *)
(** * The test harness of Raft: who can talk to whom

    The harness connects and disconnects servers by enabling and disabling ends of the
    network.  In every configuration that it can reach, a request gets through exactly
    on the present ends between two connected servers, to a server that is running. *)
From S2P Require Import Prelude Persister Serial RaftNode LabRPC Harness HarnessProps RaftConfig RaftConfigProps.
Import LabRPC Harness RaftConfig.
#[local] Open Scope Z_scope.

Section wires.
Context {C : Type} `{EqDecision C} `{!Codec (RaftPersist C)} `{!Codec (Z * list (option C))}.
Variable k : nat.
Implicit Types (cfg : config (C := C)) (e : Name).

(** What the tests do to the network. *)
Inductive harness : config (C := C) -> Prop :=
  | h_make unreliable names srvs cfg :
      (forall i, length (names i) = k) ->
      make_config k unreliable names srvs = inl cfg -> harness cfg
  | h_start i names srv cfg cfg' :
      harness cfg -> length names = k -> start1 i names srv cfg = inl cfg' -> harness cfg'
  | h_crash i cfg cfg' : harness cfg -> crash1 i cfg = inl cfg' -> harness cfg'
  | h_connect i cfg cfg' : harness cfg -> connect i cfg = inl cfg' -> harness cfg'
  | h_disconnect i cfg cfg' : harness cfg -> disconnect i cfg = inl cfg' -> harness cfg'
  | h_unreliable b cfg : harness cfg -> harness (setunreliable b cfg)
  | h_longreordering b cfg : harness cfg -> harness (setlongreordering b cfg).

Definition running cfg (i : Z) : bool := default false (zget (alive cfg) i).

(** The two servers of an end are connected exactly when it is enabled, and no other
    end is. *)
Record wired cfg : Prop := {
  w_n : n cfg = k;
  w_connected : length (connected cfg) = k;
  w_alive : length (alive cfg) = k;
  w_endnames : length (endnames cfg) = k;
  w_row i row : zget (endnames cfg) i = Some (Some row) -> length row = k;
  w_named i j e : named (endnames cfg) i j e -> e ∈ ends (net cfg) /\
    connection e (net cfg) = Some (inr j) /\ isEnabled e (net cfg) = up cfg i && up cfg j;
  w_inj i j i' j' e : named (endnames cfg) i j e -> named (endnames cfg) i' j' e -> i = i' /\ j = j';
  w_only e : isEnabled e (net cfg) = true -> exists i j, named (endnames cfg) i j e;
  w_server i : 0 <= i < Z.of_nat k -> (is_Some (serverAt (inr i) (net cfg)) <-> running cfg i = true);
}.

(** ** Switching ends on and off *)

Lemma up_spec cs i b : idx cs i = inl b -> default false (zget cs i) = b.
Proof. intros H%idx_inl. by rewrite H. Qed.

(** The body of a loop of [connect], [i1 j] and [i2 j] being the servers of the end. *)
Lemma connect_body (cs : list bool) names (i1 i2 : Z -> Z) (j : Z) y y' :
  (b ← idx cs j; if (b : bool) then Enable_end names (i1 j) (i2 j) true y else inl y) = inl y' ->
  switched (fun e => default false (zget cs j) = true /\ named names (i1 j) (i2 j) e) true y y'.
Proof.
  intros (b & ->%up_spec & E)%res_bind_inl. destruct b.
  - eapply switched_iff; [|by eapply Enable_end_switched]. intros e. split; [done|by intros []].
  - injection E as <-. apply switched_none. by intros e [? _].
Qed.

(** The ends of [i] from and to connected servers are on. *)
Lemma connect_switched i cfg cfg' :
  connect i cfg = inl cfg' ->
  exists x, cfg' = with_net x (with_connected (<[Z.to_nat i := true]> (connected cfg)) cfg) /\
    0 <= i < zlen (connected cfg) /\
    switched (fun e => exists j, 0 <= j < Z.of_nat (n cfg) /\ up cfg' j = true /\
      (named (endnames cfg) i j e \/ named (endnames cfg) j i e)) true (net cfg) x.
Proof.
  unfold connect. intros (cs & [Hi ->]%upd_inl & (x1 & E1 & (x & E2 & [= <-])%res_bind_inl)%res_bind_inl)%res_bind_inl.
  exists x. split; [done|]. split; [done|].
  eapply loop_switched in E1; [|intros j y y'; apply (connect_body _ _ (fun _ => i) (fun j => j))].
  eapply loop_switched in E2; [|intros j y y'; apply (connect_body _ _ (fun j => j) (fun _ => i))].
  eapply switched_or; [|exact E1|exact E2]. intros e. unfold up. cbn. split.
  - intros (j & Hj%elem_of_zrange & Hu & [Hn|Hn]); [left|right]; by exists j.
  - intros [(j & Hj%elem_of_zrange & Hu & Hn)|(j & Hj%elem_of_zrange & Hu & Hn)]; exists j; auto.
Qed.

Lemma disconnect_body names (i1 i2 ii : Z -> Z) (j : Z) y y' :
  (row ← idx names (ii j);
   match row with Some _ => Enable_end names (i1 j) (i2 j) false y | None => inl y end) = inl y' ->
  ii j = i1 j ->
  switched (named names (i1 j) (i2 j)) false y y'.
Proof.
  intros (row & Hrow%idx_inl & E)%res_bind_inl Hii. rewrite Hii in Hrow. destruct row as [row|].
  - by eapply Enable_end_switched.
  - injection E as <-. apply switched_none. intros e (row & nm & Hr' & _). congruence.
Qed.

(** All ends of [i] are off. *)
Lemma disconnect_switched i cfg cfg' :
  disconnect i cfg = inl cfg' ->
  exists x, cfg' = with_net x (with_connected (<[Z.to_nat i := false]> (connected cfg)) cfg) /\
    0 <= i < zlen (connected cfg) /\
    switched (fun e => exists j, 0 <= j < Z.of_nat (n cfg) /\
      (named (endnames cfg) i j e \/ named (endnames cfg) j i e)) false (net cfg) x.
Proof.
  unfold disconnect.
  intros (cs & [Hi ->]%upd_inl & (x1 & E1 & (x & E2 & [= <-])%res_bind_inl)%res_bind_inl)%res_bind_inl.
  exists x. split; [done|]. split; [done|].
  eapply loop_switched in E1;
    [|intros j y y' ?; by apply (disconnect_body (endnames cfg) (fun _ => i) (fun j => j) (fun _ => i))].
  eapply loop_switched in E2;
    [|intros j y y' ?; by apply (disconnect_body (endnames cfg) (fun j => j) (fun _ => i) (fun j => j))].
  eapply switched_or; [|exact E1|exact E2]. intros e. split.
  - intros (j & Hj%elem_of_zrange & [Hn|Hn]); [left|right]; by exists j.
  - intros [(j & Hj%elem_of_zrange & Hn)|(j & Hj%elem_of_zrange & Hn)]; exists j; auto.
Qed.

(** ** The invariant *)

Lemma named_range cfg i j e :
  wired cfg -> named (endnames cfg) i j e -> 0 <= i < Z.of_nat k /\ 0 <= j < Z.of_nat k.
Proof.
  intros Hw (row & nm & Hi & Hj & _). pose proof (w_row _ Hw i row Hi). pose proof (w_endnames _ Hw).
  apply zget_Some_lt in Hi, Hj. unfold zlen in *. lia.
Qed.

Lemma up_set cfg i b j x :
  0 <= i < zlen (connected cfg) ->
  up (with_net x (with_connected (<[Z.to_nat i := b]> (connected cfg)) cfg)) j =
    if decide (j = i) then b else up cfg j.
Proof.
  intros Hi. unfold up. cbn. rewrite zget_insert. case_decide as H1; case_decide as H2; try done.
  - lia.
  - exfalso. apply H1. unfold zlen in *. lia.
Qed.

Lemma wired_rewired cfg cs x :
  let cfg' := with_net x (with_connected cs cfg) in
  wired cfg -> length cs = k -> rewired (net cfg) x ->
  (forall i j e, named (endnames cfg) i j e -> isEnabled e x = up cfg' i && up cfg' j) ->
  (forall e, isEnabled e x = true ->
     isEnabled e (net cfg) = true \/ exists i j, named (endnames cfg) i j e) ->
  wired cfg'.
Proof.
  intros cfg' [] Hcs R Hn Ho. split; try done; cbn.
  - intros i j e H. destruct (w_named0 i j e H) as (H1 & H2 & _). split_and!; [by rewrite (re_ends _ _ R)| |by apply Hn].
    unfold connection in *. by rewrite (re_connections _ _ R).
  - intros e [H%w_only0|H]%Ho; destruct H as (i & j & H); by exists i, j.
  - intros i Hi. unfold running, serverAt in *. rewrite (re_servers _ _ R). by apply w_server0.
Qed.

Lemma connect_wired i cfg cfg' : wired cfg -> connect i cfg = inl cfg' -> wired cfg'.
Proof.
  intros Hw (x & Ec & Hi & [R H])%connect_switched.
  assert (forall j, up cfg' j = if decide (j = i) then true else up cfg j) as Hup
    by (intros j; subst cfg'; by apply up_set).
  rewrite Ec. apply wired_rewired; try done; rewrite <- ?Ec.
  - rewrite length_insert. apply Hw.
  - intros a b e Hn. destruct (named_range _ _ _ _ Hw Hn) as [Ha Hb].
    destruct (w_named _ Hw a b e Hn) as (_ & _ & Eold). rewrite (w_n _ Hw) in H.
    destruct (H e) as [[(j & Hj & Hu & [Hn'|Hn']) ->]|[Hno ->]].
    + destruct (w_inj _ Hw _ _ _ _ _ Hn Hn') as [-> ->]. by rewrite Hu, Hup, decide_True.
    + destruct (w_inj _ Hw _ _ _ _ _ Hn Hn') as [-> ->]. rewrite Hu, (Hup i), decide_True; done.
    + rewrite Eold, !Hup. symmetry. case_decide as Hai; [|case_decide as Hbi; [|done]].
      * subst a. case_decide as Hbi.
        { exfalso. subst b. apply Hno. exists i. split_and!; try lia; [|by left]. by rewrite Hup, decide_True. }
        cbn. destruct (up cfg b) eqn:Eb; [exfalso|by rewrite andb_false_r]. apply Hno. exists b.
        split_and!; try lia; [|by left]. by rewrite Hup, decide_False.
      * subst b. rewrite andb_true_r. destruct (up cfg a) eqn:Ea; [exfalso|done]. apply Hno. exists a.
        split_and!; try lia; [|by right]. by rewrite Hup, decide_False.
  - intros e He. destruct (H e) as [[(j & _ & _ & [Hn|Hn]) _]|[_ E]];
      [right; by exists i, j|right; by exists j, i|left]. by rewrite <- E.
Qed.

Lemma disconnect_wired i cfg cfg' : wired cfg -> disconnect i cfg = inl cfg' -> wired cfg' /\ up cfg' i = false.
Proof.
  intros Hw (x & Ec & Hi & [R H])%disconnect_switched.
  assert (forall j, up cfg' j = if decide (j = i) then false else up cfg j) as Hup
    by (intros j; subst cfg'; by apply up_set).
  split; [|by rewrite Hup, decide_True].
  rewrite Ec. apply wired_rewired; try done; rewrite <- ?Ec.
  - rewrite length_insert. apply Hw.
  - intros a b e Hn. destruct (named_range _ _ _ _ Hw Hn) as [Ha Hb]. rewrite !Hup.
    destruct (w_named _ Hw a b e Hn) as (_ & _ & Eold). rewrite (w_n _ Hw) in H.
    destruct (H e) as [[(j & Hj & [Hn'|Hn']) ->]|[Hno ->]].
    + destruct (w_inj _ Hw _ _ _ _ _ Hn Hn') as [-> ->]. by rewrite decide_True.
    + destruct (w_inj _ Hw _ _ _ _ _ Hn Hn') as [-> ->]. by rewrite (decide_True (P := i = i)), andb_false_r.
    + rewrite Eold. rewrite !decide_False; [done|..]; intros ->; apply Hno;
        [exists a|exists b]; split_and!; try lia; auto.
  - intros e He. destruct (H e) as [[_ E]|[_ E]]; [congruence|left]. by rewrite <- E.
Qed.

(** ** Crash and restart *)

(** What [wired] is about. *)
Record same_wires cfg cfg' : Prop := {
  sw_n : n cfg' = n cfg;
  sw_connected : connected cfg' = connected cfg;
  sw_alive : alive cfg' = alive cfg;
  sw_endnames : endnames cfg' = endnames cfg;
  sw_net : net cfg' = net cfg;
}.

#[global] Instance same_wires_preorder : PreOrder same_wires.
Proof. split; [done|]. intros x y z [] []. split; congruence. Qed.

Lemma wired_same cfg cfg' : same_wires cfg cfg' -> wired cfg -> wired cfg'.
Proof.
  intros [E1 E2 E3 E4 E5] Hw. destruct cfg, cfg'. cbn in *. subst. destruct Hw. split; done.
Qed.

Lemma ingestSnap_wires i snap index cfg cfg' err :
  ingestSnap i snap index cfg = inl (cfg', err) -> same_wires cfg cfg'.
Proof.
  unfold ingestSnap. destruct (dec snap) as [[last xlog]|]; [|done]. bcase; [by intros [= <- _]|].
  intros (l & _ & (la & _ & [= <- _])%res_bind_inl)%res_bind_inl. done.
Qed.

Lemma crash1_wires i cfg cfg' :
  wired cfg -> crash1 i cfg = inl cfg' ->
  wired cfg' /\ up cfg' i = false /\ serverAt (inr i) (net cfg') = None /\
  0 <= i < zlen (alive cfg').
Proof.
  intros Hw. unfold crash1. intros (c1 & [Hw1 Hup]%disconnect_wired & H)%res_bind_inl; [|done].
  apply res_bind_inl in H as (fs & _ & H).
  apply res_bind_inl in H as (live & Hlive%idx_inl & H).
  apply res_bind_inl in H as (l & El & H).
  apply res_bind_inl in H as (p & _ & H).
  apply res_bind_inl in H as (fs' & _ & [= <-]). cbn in Hlive, El.
  assert (l = <[Z.to_nat i := false]> (alive c1)) as ->.
  { destruct live; [by apply upd_inl in El as [_ ->]|]. injection El as <-. symmetry.
    apply list_insert_id. by apply zget_Some_lookup in Hlive as [_ ?]. }
  apply zget_Some_lt in Hlive. pose proof (zlen_insert (alive c1) (Z.to_nat i) false) as Hz.
  split_and!; [|done| |cbn; lia|cbn; lia].
  - destruct Hw1. split; try done; cbn.
    + by rewrite length_insert.
    + intros j Hj. unfold serverAt, running. cbn. rewrite zget_insert.
      destruct (decide (j = i)) as [->|Hne].
      * rewrite lookup_insert_eq, decide_True by (unfold zlen in *; lia). cbn.
        split; [by intros []|done].
      * rewrite lookup_insert_ne, decide_False by (congruence || lia). by apply w_server0.
  - unfold serverAt. cbn. by rewrite lookup_insert_eq.
Qed.

(** A server with all its ends made replaces the former instance. *)
Lemma wired_replace i names srv cfg x cfg' :
  wired cfg -> up cfg i = false -> serverAt (inr i) (net cfg) = None -> 0 <= i < zlen (alive cfg) ->
  length names = k -> ends_made false (net cfg) names inr (zrange k) x ->
  same_wires (with_net (AddServer (inr i) srv x) (with_alive (<[Z.to_nat i := true]> (alive cfg))
    (with_endnames (<[Z.to_nat i := Some names]> (endnames cfg)) cfg))) cfg' ->
  wired cfg'.
Proof.
  intros Hw Hup Hsrv Hi Hlen [Esv Enew Einj Eold Een] Hs. eapply wired_same; [exact Hs|]. clear Hs cfg'.
  pose proof (w_alive _ Hw) as Hal. pose proof (w_endnames _ Hw) as Hen.
  set (c' := with_net _ _).
  assert (forall a b e, named (endnames c') a b e <->
    (a = i /\ exists nm, zget names b = Some nm /\ e = inl nm) \/ (a <> i /\ named (endnames cfg) a b e))
    as Hnamed by (intros; apply named_replaced; unfold zlen in *; lia).
  assert (forall j nm, zget names j = Some nm -> j ∈ zrange k) as Hin.
  { intros j nm H%zget_Some_lt. apply elem_of_zrange. unfold zlen in H. lia. }
  split.
  - apply Hw.
  - apply Hw.
  - cbn. by rewrite length_insert.
  - cbn. by rewrite length_insert.
  - cbn. intros j row. rewrite zget_insert. case_decide; [by intros [= <-]|apply (w_row _ Hw)].
  - intros a b e. unfold up. cbn [connected]. unfold c'. cbn. fold (up cfg a). fold (up cfg b).
    unfold connection, isEnabled in *. cbn in *.
    intros [(-> & nm & Hnm & ->)|[Hne Hn]]%Hnamed.
    + destruct (Enew b nm (Hin _ _ Hnm) Hnm) as (? & _ & ? & ?). by rewrite Hup.
    + destruct (w_named _ Hw a b e Hn) as (He & Hc & Hen').
      destruct (Eold e He) as (? & -> & ->). done.
  - intros a b a' b' e [(-> & nm & Hnm & ->)|[Hne Hn]]%Hnamed [(-> & nm' & Hnm' & E)|[Hne' Hn']]%Hnamed.
    + injection E as <-. split; [done|]. by eapply Einj; eauto.
    + destruct (Enew b nm (Hin _ _ Hnm) Hnm) as (_ & Hno & _). by destruct (w_named _ Hw _ _ _ Hn').
    + subst e. destruct (Enew b' nm' (Hin _ _ Hnm') Hnm') as (_ & Hno & _).
      by destruct (w_named _ Hw _ _ _ Hn).
    + by eapply w_inj.
  - intros e He. destruct (Een e He) as [He'|]; [clear He; rename He' into He|done]. destruct (w_only _ Hw e He) as (a & b & Hn).
    exists a, b. apply Hnamed. right. split; [|done]. intros ->.
    destruct (w_named _ Hw _ _ _ Hn) as (_ & _ & E). rewrite E, Hup in He. done.
  - intros j Hj. unfold serverAt, running. cbn. rewrite Esv, zget_insert.
    destruct (decide (j = i)) as [->|Hne].
    + rewrite lookup_insert_eq, decide_True by (unfold zlen in *; lia). cbn. by split; [|eexists].
    + rewrite lookup_insert_ne, decide_False by (congruence || lia). by apply (w_server _ Hw).
Qed.

Lemma start1_wired i names srv cfg cfg' :
  wired cfg -> length names = k -> start1 i names srv cfg = inl cfg' -> wired cfg'.
Proof.
  intros Hw Hlen. unfold start1. intros (c1 & H1 & H)%res_bind_inl.
  destruct (crash1_wires _ _ _ Hw H1) as (Hw1 & Hup & Hsrv & Hi).
  apply res_bind_inl in H as (es & [He ->]%upd_inl & H).
  apply res_bind_inl in H as (x & E2%make_ends_made & H). unfold servers in E2. rewrite (w_n _ Hw1) in E2.
  apply res_bind_inl in H as (la & _ & H).
  apply res_bind_inl in H as (p & _ & H).
  apply res_bind_inl in H as (c4 & E4 & H).
  apply res_bind_inl in H as (l & [_ ->]%upd_inl & [= <-]).
  set (c2 := with_lastApplied la _) in *.
  assert (same_wires c2 c4) as [].
  { destruct p as [a|].
    - apply res_bind_inl in E4 as (fs & _ & E4). apply res_bind_inl in E4 as (q & _ & E4).
      bcase_in E4; [|by injection E4 as <-].
      apply res_bind_inl in E4 as ([c6 err] & S6%ingestSnap_wires & E4).
      destruct err; [done|]. injection E4 as <-. etrans; [|exact S6]. done.
    - by apply res_bind_inl in E4 as (fs & _ & [= <-]). }
  eapply (wired_replace i names srv c1 x); try done. subst c2; cbn in *; split; cbn; congruence.
Qed.

Lemma make_config_wired unreliable names srvs cfg :
  (forall i, length (names i) = k) -> make_config k unreliable names srvs = inl cfg -> wired cfg.
Proof.
  intros Hn. unfold make_config. intros (c1 & E1 & E2)%res_bind_inl.
  revert E2. apply (loop_ok (fun _ => wired)); [|by intros ? ? ? ? ? ?; eapply connect_wired].
  revert E1. apply (loop_ok (fun _ => wired)).
  - assert (forall A (x : A) i y, zget (replicate k x) i = Some y -> y = x) as Hrep
      by (intros A x i y [_ [? _]%lookup_replicate_1]%zget_Some_lookup; done).
    split; cbn; try apply length_replicate; try done.
    + by intros i row ?%Hrep.
    + by intros i j e (row & nm & ?%Hrep & _).
    + by intros i j i' j' e (row & nm & ?%Hrep & _).
    + intros i Hi. unfold serverAt, running. cbn. rewrite lookup_empty.
      destruct (zget (replicate k false) i) eqn:E; [apply Hrep in E as ->|]; cbn;
        by split; [intros []|].
  - intros _ i c c' Hw (l & _ & E)%res_bind_inl. eapply start1_wired; [|by apply Hn|exact E].
    apply (wired_same c); [done|exact Hw].
Qed.

Lemma harness_wired cfg : harness cfg -> wired cfg.
Proof.
  induction 1 as [u names srvs cfg Hn E|i names srv cfg cfg' _ IH Hn E|i cfg cfg' _ IH E|
    i cfg cfg' _ IH E|i cfg cfg' _ IH E|b cfg _ IH|b cfg _ IH].
  - by eapply make_config_wired.
  - by eapply start1_wired.
  - by eapply crash1_wires.
  - by eapply connect_wired.
  - by eapply disconnect_wired.
  - destruct IH. by split.
  - destruct IH. by split.
Qed.

(** C22: a partition is what the harness says it is.  In every configuration that
    [make_config], restarts, crashes, [connect] and [disconnect] lead to, [processReq]
    passes a request on an end to a server only if the end is the present one of a
    connected server [i] towards a connected and running server [j], and the server
    that gets it is [j]; and on every such end it does.  So a partitioned server
    neither reaches nor is reached, and the ends of former instances reach nobody. *)
Theorem partition_is_real cfg e :
  harness cfg ->
  (forall t, afterRead (readEndnameInfo e (net cfg)) = Live t ->
     exists i j, named (endnames cfg) i j e /\ up cfg i = true /\ up cfg j = true /\ running cfg j = true /\
       t_name t = inr j /\ serverAt (inr j) (net cfg) = Some (t_server t)) /\
  (forall i j, named (endnames cfg) i j e -> up cfg i = true -> up cfg j = true -> running cfg j = true ->
     exists t, afterRead (readEndnameInfo e (net cfg)) = Live t).
Proof.
  intros Hw%harness_wired. unfold afterRead, readEndnameInfo. cbn. split.
  - intros t Ht. destruct (isEnabled e (net cfg)) eqn:Hen; [|done].
    destruct (w_only _ Hw e Hen) as (i & j & Hn). destruct (w_named _ Hw i j e Hn) as (_ & Hc & E).
    rewrite Hen in E. symmetry in E. apply andb_true_iff in E as [Hi Hj].
    rewrite Hc in Ht. cbn in Ht. destruct (serverAt (inr j) (net cfg)) as [p|] eqn:Hs; [|done].
    injection Ht as <-. exists i, j. split_and!; try done.
    apply (w_server _ Hw); [by apply (named_range _ _ _ _ Hw Hn)|]. by rewrite Hs.
  - intros i j Hn Hi Hj Hr. destruct (w_named _ Hw i j e Hn) as (_ & Hc & ->).
    rewrite Hi, Hj, Hc. cbn.
    apply (w_server _ Hw) in Hr as [p ->]; [by eexists|]. by apply (named_range _ _ _ _ Hw Hn).
Qed.
End wires.

(** Three servers, of which number 1 is cut off. *)
Module Partition.
Import IntCommands.
#[export] Existing Instance IntCommands.codec.
#[export] Instance ser_option : Serial.Ser (option Z) := Serial.ser_via option_list head.
#[export] Instance snapshots : Codec (Z * list (option Z)) := Serial.codec _.

Definition endname (i j : Z) : string :=
  String.String (Ascii.ascii_of_nat (Z.to_nat (3 * i + j))) EmptyString.
Definition names (i : Z) : list string := endname i <$> [0; 1; 2].

Lemma cut_off : exists cfg : config (C := Z), harness 3 cfg /\
  connected cfg = [true; false; true] /\ alive cfg = [true; true; true] /\
  endnames cfg = [Some (names 0); Some (names 1); Some (names 2)].
Proof.
  assert (match c ← make_config 3 false names Z.to_nat; disconnect 1 c with
          | inl cfg => (connected cfg, alive (C := Z) cfg, endnames cfg) | inr _ => ([], [], []) end
    = ([true; false; true], [true; true; true], [Some (names 0); Some (names 1); Some (names 2)]))
    as E by (vm_compute; reflexivity).
  destruct (make_config 3 false names Z.to_nat) as [c|] eqn:Ec; [|discriminate E]. cbn [mbind res_bind] in E.
  destruct (disconnect 1 c) as [cfg|] eqn:Ed; [|discriminate E]. injection E as E1 E2 E3.
  exists cfg. split; [|split; [exact E1|split; [exact E2|exact E3]]].
  eapply h_disconnect; [|exact Ed]. eapply h_make; [|exact Ec]. intros i. apply length_fmap.
Qed.
End Partition.
Import Partition.

Lemma partition_is_real_witness :
  exists cfg : config (C := Z), harness 3 cfg /\ connected cfg = [true; false; true] /\
    (exists t, afterRead (readEndnameInfo (inl (Partition.endname 0 2)) (net cfg)) = Live t) /\
    (forall t, afterRead (readEndnameInfo (inl (Partition.endname 0 1)) (net cfg)) <> Live t).
Proof.
  destruct Partition.cut_off as (cfg & Hh & Hc & Ha & He). exists cfg. split; [done|]. split; [done|].
  split.
  - apply (proj2 (partition_is_real 3 cfg _ Hh) 0 2); unfold named, up, running;
      rewrite ?Hc, ?Ha, ?He; [|done..]. by eexists _, _.
  - intros t Ht. apply (partition_is_real 3 cfg _ Hh) in Ht as (i & j & Hn & Hi & Hj & _).
    assert (named (endnames cfg) 0 1 (inl (Partition.endname 0 1))) as Hn'
      by (unfold named; rewrite He; by eexists _, _).
    destruct (w_inj _ _ (harness_wired 3 cfg Hh) _ _ _ _ _ Hn Hn') as [-> ->].
    unfold up in Hj. rewrite Hc in Hj. discriminate Hj.
Defined.
