(* ===== verification/RaftTester.v ===== *)
(** * Raft under its test harness

    [Tester] runs the cluster of RaftNet together with the harness of raft/config.go:
    what the servers deliver goes through [applier], a restart is [crash1] and [start1],
    and the new instance gets the persister that the harness kept.  A former instance
    may go on delivering the batch it had (but takes no further one), and writing to its own
    persister.  In runs
    without snapshots no check of the harness fails, and what [one] takes for agreement
    is agreement. *)
From S2P Require Import Prelude Persister RaftNode RaftLocal RaftInv RaftLog RaftNet RaftSpec RaftRefine RaftSafety RaftCommands Notify Service Cluster LabRPC Harness HarnessProps RaftConfig RaftConfigProps RaftConfigDisk.
From stdpp Require Import functions relations.
Import LabRPC Harness RaftConfig Cluster.
#[local] Open Scope Z_scope.

Module RaftTester.

(** The service behind a server is the record of what it was sent. *)
#[export] Instance recorder {C} : Service.StateMachine C (list C) unit unit :=
  {| Service.op_id _ := tt; Service.exec x l := Some (l ++ [x], tt); Service.initial := [] |}.

Section tester.
Context {C : Type} `{EqDecision C} `{!Codec (RaftPersist C), !CodecLaws (RaftPersist C)}.
Context `{!Codec (Z * list (option C))}.
Variable k : nat.
Implicit Types (cfg : config (C := C)) (s : Abs C) (m : ApplyMsg C).

(** [te_old] are the messages that former instances have yet to send. *)
Record Tester := {
  te_sys : Sys C (list C);
  te_old : list (Z * list (ApplyMsg C));
  te_cfg : config (C := C);
}.
Implicit Types te : Tester.

Definition te_node te (i : Z) : Node C := RaftNet.nodes (sys_net (te_sys te)) i.
Definition te_app te (i : Z) : App (list C) := sys_apps (te_sys te) i.

(** What the instance [i] has yet to send of its batch; nothing when there is none. *)
Definition rest te (i : Z) : list (ApplyMsg C) :=
  match zget (alive (te_cfg te)) i, batch (te_node te i) with
  | Some true, Some b => drop (ap_pos (te_app te i)) (applierMsgs b)
  | _, _ => []
  end.

(** A former instance writes the persister it has. *)
Definition overwrite (a : nat) (ps : Persister.t) (fs : Files) : Files :=
  {| saved := saved fs; disk := <[a := ps]> (disk fs); next := next fs |}.

Definition set_node (i : Z) nd out te : RaftNet.Net C :=
  {| RaftNet.nodes := <[i := nd]> (RaftNet.nodes (sys_net (te_sys te)));
     soup := out ++ soup (sys_net (te_sys te)) |}.

Inductive te_step te : Tester -> Prop :=
  | te_raft i src ev nd' :
      0 <= i < Z.of_nat k ->
      zget (alive (te_cfg te)) i = Some true ->
      node_step (te_node te i) ev nd' ->
      (forall msg, input src i ev = Some msg -> msg ∈ soup (sys_net (te_sys te))) ->
      service_event ev = false ->
      (forall b, ev = EvApplierDone b -> ap_pos (te_app te i) = length (applierMsgs b)) ->
      te_step te
        {| te_sys := Build_Sys (set_node i nd' (outputs src i nd' ev) te)
                       (<[i := next_pos ev (te_app te i)]> (sys_apps (te_sys te)));
           te_old := te_old te;
           te_cfg := with_files (write i (persister (raft nd')) (files (te_cfg te))) (te_cfg te) |}
  | te_deliver i m ms cmd cfg' :
      0 <= i < Z.of_nat k ->
      rest te i = m :: ms -> Command m = Some cmd ->
      applier i m (te_cfg te) = inl cfg' ->
      te_step te
        {| te_sys := Build_Sys (sys_net (te_sys te))
             (<[i := Build_App (ap_st (te_app te i) ++ [cmd]) (CommandIndex m)
                       (S (ap_pos (te_app te i)))]> (sys_apps (te_sys te)));
           te_old := te_old te; te_cfg := cfg' |}
  | te_deliver_old old1 i m ms old2 cfg' :
      te_old te = old1 ++ (i, m :: ms) :: old2 ->
      applier i m (te_cfg te) = inl cfg' ->
      te_step te
        {| te_sys := te_sys te; te_old := old1 ++ (i, ms) :: old2; te_cfg := cfg' |}
  | te_write_old a ps :
      (a < next (files (te_cfg te)))%nat -> (forall i, saved (files (te_cfg te)) !! i <> Some (Some a)) ->
      te_step te
        {| te_sys := te_sys te; te_old := te_old te;
           te_cfg := with_files (overwrite a ps (files (te_cfg te))) (te_cfg te) |}
  | te_crash i cfg' :
      0 <= i < Z.of_nat k ->
      crash1 i (te_cfg te) = inl cfg' ->
      te_step te {| te_sys := te_sys te; te_old := (i, rest te i) :: te_old te; te_cfg := cfg' |}
  | te_start i names srv r cfg' :
      0 <= i < Z.of_nat k ->
      start1 i names srv (te_cfg te) = inl cfg' ->
      te_step te
        {| te_sys := Build_Sys
             (set_node i (boot k i (on_disk (files cfg') (Z.to_nat i)) r) [] te)
             (<[i := fresh]> (sys_apps (te_sys te)));
           te_old := (i, rest te i) :: te_old te; te_cfg := cfg' |}
  | te_connect i cfg' :
      connect i (te_cfg te) = inl cfg' ->
      te_step te {| te_sys := te_sys te; te_old := te_old te; te_cfg := cfg' |}
  | te_disconnect i cfg' :
      disconnect i (te_cfg te) = inl cfg' ->
      te_step te {| te_sys := te_sys te; te_old := te_old te; te_cfg := cfg' |}.

(** [make_config] starts the cluster. *)
Definition te_init te : Prop :=
  sys_init k (te_sys te) /\ te_old te = [] /\
  exists unreliable names srvs, make_config k unreliable names srvs = inl (te_cfg te).

Definition te_reachable te : Prop := exists te0, te_init te0 /\ rtc te_step te0 te.

(** ** The logs of the harness *)

(** A log is the table of a committed sequence, at least as long as what was sent. *)
Definition table (P : list C) (l : gmap Z (option C)) : Prop :=
  forall g, l !! g = if 1 <=? g then Some <$> P !! Z.to_nat (g - 1) else None.

Definition log_ok s cfg (i a : Z) : Prop :=
  exists l P, zget (logs cfg) i = Some l /\ table P l /\ prefix_ok k s P /\ a <= zlen P.

(** The command with index [g] of the committed sequence. *)
Definition at_index s (g : Z) (cmd : C) : Prop :=
  exists P, prefix_ok k s (P ++ [cmd]) /\ zlen P = g - 1.

(** The message that follows the first [a] ones. *)
Definition sendable s (a : Z) m : Prop :=
  exists cmd, at_index s (a + 1) cmd /\ CommandIndex m = a + 1 /\
    Command m = Some cmd /\ CommandValid m = true.

Definition pending s (a : Z) (ms : list (ApplyMsg C)) : Prop :=
  forall p m, ms !! p = Some m -> sendable s (a + Z.of_nat p) m.

Lemma at_index_mono s s' g cmd : extends s s' -> at_index s g cmd -> at_index s' g cmd.
Proof. intros He (P & Hp & HP). exists P. split; [by eapply prefix_ok_mono|done]. Qed.

Lemma log_ok_mono s s' cfg i a : extends s s' -> log_ok s cfg i a -> log_ok s' cfg i a.
Proof. intros He (l & P & Hl & Ht & Hp & Ha). exists l, P. split_and!; try done. by eapply prefix_ok_mono. Qed.

Lemma pending_mono s s' a ms : extends s s' -> pending s a ms -> pending s' a ms.
Proof.
  intros He Hp p m (cmd & Hat & Hm)%Hp. exists cmd. split; [by eapply at_index_mono|done].
Qed.

Lemma log_ok_shorter s cfg i a b : b <= a -> log_ok s cfg i a -> log_ok s cfg i b.
Proof. intros Hle (l & P & ? & ? & ? & ?). exists l, P. split_and!; done || lia. Qed.

Lemma prefix_at s P g cmd :
  prefix_ok k s P -> 1 <= g -> P !! Z.to_nat (g - 1) = Some cmd -> at_index s g cmd.
Proof.
  intros (T & l & m & Hset & Hm & HP) Hg Hc. exists (take (Z.to_nat (g - 1)) P).
  pose proof (lookup_lt_Some _ _ _ Hc). split; [|unfold zlen; rewrite length_take; lia].
  rewrite <- take_S_r by done. exists T, l, m. split; [done|].
  rewrite length_take, Nat.min_l by lia. split; [lia|].
  rewrite HP, <- fmap_take, take_take, Nat.min_l by lia. done.
Qed.

Lemma at_index_prefix s P g cmd :
  abs_inv k s -> at_index s g cmd -> prefix_ok k s P -> g <= zlen P ->
  P !! Z.to_nat (g - 1) = Some cmd.
Proof.
  intros Hinv (Q & HQ & Hl) HP Hg. unfold zlen in *.
  destruct (prefix_ok_agree k s (Q ++ [cmd]) P Hinv HQ HP) as [R ->];
    [rewrite length_app; cbn; lia|].
  rewrite lookup_app_l by (rewrite length_app; cbn; lia).
  rewrite lookup_app_r by lia. by replace (Z.to_nat (g - 1) - length Q)%nat with 0%nat by lia.
Qed.

Lemma at_index_pos s g cmd : at_index s g cmd -> 1 <= g.
Proof. intros (P & _ & Hl). pose proof (zlen_nonneg P). lia. Qed.

Lemma at_index_unique s g c1 c2 : abs_inv k s -> at_index s g c1 -> at_index s g c2 -> c1 = c2.
Proof.
  intros Hinv H1 (P & HP & Hl). pose proof (at_index_prefix s (P ++ [c2]) g c1 Hinv H1 HP) as E.
  unfold zlen in *. rewrite length_app in E. specialize (E ltac:(cbn; lia)).
  rewrite lookup_app_r in E by lia.
  replace (Z.to_nat (g - 1) - length P)%nat with 0%nat in E by lia. by injection E.
Qed.

Lemma table_at s P l g v :
  table P l -> prefix_ok k s P -> l !! g = Some v -> exists cmd, v = Some cmd /\ at_index s g cmd.
Proof.
  intros Ht HP Hg. rewrite Ht in Hg. bcase_in Hg; [|done].
  destruct (P !! Z.to_nat (g - 1)) as [cmd|] eqn:E; [|done]. injection Hg as <-.
  exists cmd. split; [done|]. by eapply prefix_at.
Qed.

Lemma table_same P l g cmd : table P l -> 1 <= g -> P !! Z.to_nat (g - 1) = Some cmd ->
  table P (<[g := Some cmd]> l).
Proof.
  intros Ht Hg Hc h. destruct (decide (h = g)) as [->|].
  - rewrite lookup_insert_eq. bcase; [by rewrite Hc|lia].
  - by rewrite lookup_insert_ne.
Qed.

Lemma table_snoc P l cmd : table P l -> table (P ++ [cmd]) (<[zlen P + 1 := Some cmd]> l).
Proof.
  intros Ht h. pose proof (zlen_nonneg P). destruct (decide (h = zlen P + 1)) as [->|].
  - rewrite lookup_insert_eq. bcase; [|lia]. rewrite lookup_app_r by (unfold zlen; lia).
    by replace (Z.to_nat (zlen P + 1 - 1) - length P)%nat with 0%nat by (unfold zlen; lia).
  - rewrite lookup_insert_ne, Ht by done. bcase; [|done]. f_equal. unfold zlen in *.
    destruct (decide (h <= Z.of_nat (length P))).
    + by rewrite lookup_app_l by lia.
    + rewrite !lookup_ge_None_2; [done|rewrite length_app; cbn; lia|lia].
Qed.

Lemma table_inj P Q l : table P l -> table Q l -> P = Q.
Proof.
  intros HP HQ. apply list_eq. intros j. specialize (HP (Z.of_nat j + 1)). rewrite HQ in HP.
  bcase_in HP; [|lia]. replace (Z.to_nat (Z.of_nat j + 1 - 1)) with j in HP by lia.
  destruct (P !! j), (Q !! j); cbn in HP; congruence.
Qed.

(** Sending the next message keeps the table of a committed sequence. *)
Lemma table_send s P l a m :
  abs_inv k s -> table P l -> prefix_ok k s P -> 0 <= a <= zlen P -> sendable s a m ->
  exists P', table P' (<[CommandIndex m := Command m]> l) /\ prefix_ok k s P' /\
    zlen P <= zlen P' /\ a + 1 <= zlen P'.
Proof.
  intros Hinv Ht HP Ha (cmd & Hat & -> & -> & _). destruct (decide (a < zlen P)).
  - exists P. split_and!; [|done|lia|lia]. apply table_same; [done|lia|].
    eapply at_index_prefix; [done|done|done|lia].
  - assert (a = zlen P) as -> by lia. exists (P ++ [cmd]). rewrite zlen_app. cbn.
    split_and!; [by apply table_snoc| |unfold zlen; lia|unfold zlen; cbn; lia].
    destruct Hat as (Q & HQ & Hl). assert (zlen Q = zlen P) as E by lia. unfold zlen in E.
    destruct (prefix_ok_agree k s P (Q ++ [cmd]) Hinv HP HQ) as [R HR];
      [rewrite length_app; lia|].
    apply app_inj_1 in HR as [-> _]; [done|lia].
Qed.

(** ** No check of [applier] fails *)

(** Only the logs change. *)
Definition logged cfg cfg' : Prop :=
  exists x mx, cfg' = with_logs x mx cfg /\ length x = length (logs cfg).

Lemma differences_none i m j ls err :
  (forall l v, l ∈ ls -> l !! CommandIndex m = Some v -> v = Command m) ->
  differences i m j ls err = err.
Proof.
  revert j err. induction ls as [|l ls IH]; intros j err Hd; cbn; [done|].
  rewrite IH by (intros l' v Hl'; apply Hd; by right).
  destruct (l !! CommandIndex m) as [v|] eqn:E; [|done].
  rewrite (Hd l v) by (try done; by left). by rewrite decide_True.
Qed.

Lemma applier_ok s i a m cfg :
  abs_inv k s -> length (logs cfg) = k -> (forall j, 0 <= j < Z.of_nat k -> log_ok s cfg j 0) ->
  0 <= i < Z.of_nat k -> 0 <= a -> log_ok s cfg i a -> sendable s a m ->
  exists cfg', applier i m cfg = inl cfg' /\ logged cfg cfg' /\
    (forall j b, log_ok s cfg j b -> log_ok s cfg' j b) /\ log_ok s cfg' i (a + 1).
Proof.
  intros Hinv Hlen Hlogs Hi Ha (l & P & Hl & Ht & HP & HaP) Hm.
  pose proof Hm as (cmd & Hat & Hidx & Hcmd & Hv).
  unfold applier. rewrite Hv. cbn [negb]. unfold checkLogs.
  rewrite differences_none.
  2: { intros l' v [j Hj]%list_elem_of_lookup Hg. pose proof (lookup_lt_Some _ _ _ Hj).
    destruct (Hlogs (Z.of_nat j)) as (l1 & P1 & Hl1 & Ht1 & HP1 & _); [lia|].
    apply zget_Some_lookup in Hl1 as [_ Hl1]. rewrite Nat2Z.id, Hj in Hl1. injection Hl1 as ->.
    destruct (table_at _ _ _ _ _ Ht1 HP1 Hg) as (cmd1 & -> & Hat1). rewrite Hcmd. f_equal.
    rewrite Hidx in Hat1. by eapply at_index_unique. }
  rewrite (idx_Some _ _ _ Hl). cbn [mbind res_bind].
  assert (upd (logs cfg) i (<[CommandIndex m := Command m]> l) =
    inl (<[Z.to_nat i := <[CommandIndex m := Command m]> l]> (logs cfg))) as ->.
  { unfold upd. rewrite zset_Some; [done|]. by eapply zget_Some_lt. }
  cbn [mbind res_bind].
  assert ((1 <? CommandIndex m) && negb (bool_decide (is_Some (l !! (CommandIndex m - 1)))) = false) as ->.
  { rewrite Hidx. destruct (Z.ltb_spec 1 (a + 1)); [cbn|done]. apply negb_false_iff, bool_decide_eq_true.
    rewrite Ht. bcase; [|lia]. apply fmap_is_Some, lookup_lt_is_Some. unfold zlen in *. lia. }
  eexists. split; [done|]. split.
  { eexists _, _. split; [done|]. apply length_insert. }
  destruct (table_send s P l a m) as (P' & Ht' & HP' & Hle & Ha'); try done.
  assert (forall mx b, b <= zlen P' ->
    log_ok s (with_logs (<[Z.to_nat i := <[CommandIndex m := Command m]> l]> (logs cfg)) mx cfg) i b) as Hnew.
  { intros mx b Hb. exists (<[CommandIndex m := Command m]> l), P'. split_and!; try done. cbn.
    rewrite zget_insert, decide_True; [done|]. split; [lia|]. apply zget_Some_lt in Hl. unfold zlen in *. lia. }
  split; [|by apply Hnew]. intros j b (l1 & P1 & Hl1 & Ht1 & HP1 & Hb).
  destruct (decide (j = i)) as [->|].
  - apply Hnew. assert (l1 = l) as -> by congruence. by rewrite (table_inj _ _ _ Ht1 Ht) in Hb; lia.
  - exists l1, P1. split_and!; try done. cbn. rewrite zget_insert, decide_False; [done|lia].
Qed.

(** ** The invariant of a run *)

Lemma rest_pending te s i :
  sys_rel k (te_sys te) s -> 0 <= i < Z.of_nat k -> pending s (ap_index (te_app te i)) (rest te i).
Proof.
  intros [Hnet Hinv HR Hpos Hst] Hi p m. unfold rest.
  destruct (zget (alive (te_cfg te)) i) as [[]|]; [|done|done].
  specialize (Hpos i Hi). unfold pos_ok in Hpos. unfold te_node, te_app in *.
  destruct (batch (RaftNet.nodes (sys_net (te_sys te)) i)) as [b|] eqn:Hb; [|done].
  rewrite lookup_drop. intros Hm. destruct Hpos as (Ha & Hstart & _).
  pose proof (rel_batch _ _ _ HR i Hi) as Hbr. rewrite Hb in Hbr.
  destruct (Hbr b eq_refl) as (Hl0 & Hs0 & _).
  destruct (batch_message k s b m Hbr) as (T & l & c & e & Hset & Hle & Hc & Hmsg);
    [by eapply list_elem_of_lookup_2|].
  assert (CommandIndex m = ap_index (sys_apps (te_sys te) i) + Z.of_nat p + 1) as Hidx.
  { rewrite applierMsgs_spec, list_lookup_imap in Hm by lia.
    destruct (ab_entries b !! _); [|done]. cbn in Hm. injection Hm as <-. cbn. lia. }
  pose proof Hset as [Hlen _]. exists (le_Command e). rewrite <- Hidx.
  split_and!; [|done|by rewrite Hmsg|by rewrite Hmsg].
  apply (prefix_at s (le_Command <$> take c l)); [|lia|].
  - exists T, l, c. split; [done|]. rewrite length_fmap, length_take. split; [lia|].
    rewrite Nat.min_l by lia. by rewrite fmap_take.
  - rewrite list_lookup_fmap, lookup_take_lt by lia. by rewrite Hle.
Qed.

Record te_inv te s : Prop := {
  ti_rel : sys_rel k (te_sys te) s;
  ti_n : n (te_cfg te) = k;
  ti_logs : length (logs (te_cfg te)) = k;
  ti_alive : length (alive (te_cfg te)) = k;
  ti_err : applyErr (te_cfg te) = replicate k None;
  ti_files : files_ok (files (te_cfg te));
  ti_filed i : 0 <= i < Z.of_nat k -> filed (files (te_cfg te)) (Z.to_nat i);
  ti_disk i : 0 <= i < Z.of_nat k ->
    on_disk (files (te_cfg te)) (Z.to_nat i) = persister (raft (te_node te i)) /\
    Persister.snapshot (persister (raft (te_node te i))) = [];
  ti_log i : 0 <= i < Z.of_nat k -> log_ok s (te_cfg te) i (ap_index (te_app te i));
  ti_old i ms : (i, ms) ∈ te_old te -> 0 <= i < Z.of_nat k /\
    exists a, 0 <= a /\ log_ok s (te_cfg te) i a /\ pending s a ms;
  ti_sent i : 0 <= i < Z.of_nat k -> prefix_ok k s (ap_st (te_app te i)) /\
    zlen (ap_st (te_app te i)) = ap_index (te_app te i);
}.

Lemma kept_inv te s i cfg' :
  te_inv te s -> kept i (te_cfg te) cfg' ->
  te_inv {| te_sys := te_sys te; te_old := te_old te; te_cfg := cfg' |} s.
Proof.
  intros [] [[En Ee El _ Ea] [Hf Hd _ _ Hk _]].
  split; cbn [te_sys te_old te_cfg]; try done; try congruence; auto.
  - intros j Hj. change (te_node _ j) with (te_node te j). rewrite Hd by done. by apply ti_disk0.
  - intros j Hj. unfold log_ok. rewrite El. by apply ti_log0.
  - intros j ms Hj. unfold log_ok. rewrite El. by apply ti_old0.
Qed.

(** More may be left to send. *)
Lemma old_inv te s i :
  te_inv te s -> 0 <= i < Z.of_nat k ->
  te_inv {| te_sys := te_sys te; te_old := (i, rest te i) :: te_old te; te_cfg := te_cfg te |} s.
Proof.
  intros Hi Hr. destruct (Hi) as []. split; cbn [te_sys te_old te_cfg]; try done.
  intros j ms [[= -> ->]|Hin]%elem_of_cons; [|by apply ti_old0]. split; [done|].
  exists (ap_index (te_app te i)). destruct (ti_sent0 i Hr) as [_ <-].
  split; [apply zlen_nonneg|]. split.
  - destruct (ti_sent0 i Hr) as [_ ->]. by apply ti_log0.
  - destruct (ti_sent0 i Hr) as [_ ->]. by apply rest_pending.
Qed.

(** A step of the cluster and the harness that sends nothing. *)
Lemma mono_inv te s s' :
  extends s s' -> sys_rel k (te_sys te) s' -> te_inv te s -> te_inv te s'.
Proof.
  intros He HS []. split; try done.
  - intros j Hj. by eapply log_ok_mono, ti_log0.
  - intros j ms (Hj & a & Ha & Hl & Hp)%ti_old0. split; [done|]. exists a.
    split_and!; [done|by eapply log_ok_mono|by eapply pending_mono].
  - intros j (Hp & Hl)%ti_sent0. split; [by eapply prefix_ok_mono|done].
Qed.

Lemma logged_inv te s cfg' :
  te_inv te s -> logged (te_cfg te) cfg' ->
  (forall j b, log_ok s (te_cfg te) j b -> log_ok s cfg' j b) ->
  te_inv {| te_sys := te_sys te; te_old := te_old te; te_cfg := cfg' |} s.
Proof.
  intros [] (x & mx & -> & Hx) Hlog. split; cbn [te_sys te_old te_cfg]; try done; auto.
  - cbn. congruence.
  - intros j ms (Hj & a & Ha & Hl & Hp)%ti_old0. split; [done|]. exists a. auto.
Qed.

Lemma inv_log0 te s j : te_inv te s -> 0 <= j < Z.of_nat k -> log_ok s (te_cfg te) j 0.
Proof.
  intros Hinv Hj. eapply log_ok_shorter; [|by apply (ti_log _ _ Hinv)].
  destruct (ti_sent _ _ Hinv j Hj) as [_ <-]. apply zlen_nonneg.
Qed.

(** The harness takes what a server or a former instance sends. *)
Lemma inv_send te s i a m :
  te_inv te s -> 0 <= i < Z.of_nat k -> 0 <= a -> log_ok s (te_cfg te) i a -> sendable s a m ->
  exists cfg', applier i m (te_cfg te) = inl cfg' /\ log_ok s cfg' i (a + 1) /\
    te_inv {| te_sys := te_sys te; te_old := te_old te; te_cfg := cfg' |} s.
Proof.
  intros Hinv Hi Ha Hl Hm.
  destruct (applier_ok s i a m (te_cfg te)) as (cfg' & E & Hlg & Hmono & Hnew); try done.
  - apply Hinv.
  - apply Hinv.
  - intros j Hj. by eapply inv_log0.
  - exists cfg'. split_and!; [done|done|]. by apply logged_inv.
Qed.

Lemma at_index_snoc s P g cmd :
  abs_inv k s -> prefix_ok k s P -> zlen P = g - 1 -> at_index s g cmd -> prefix_ok k s (P ++ [cmd]).
Proof.
  intros Hinv HP Hl (Q & HQ & HlQ). unfold zlen in *.
  destruct (prefix_ok_agree k s P (Q ++ [cmd]) Hinv HP HQ) as [R HR]; [rewrite length_app; lia|].
  apply app_inj_1 in HR as [<- _]; [done|lia].
Qed.

(** A step of the cluster, of which the harness only sees the files. *)
Lemma nodes_inv te s s' net' apps' cfg' :
  te_inv te s -> extends s s' -> sys_rel k (Build_Sys net' apps') s' ->
  steady (te_cfg te) cfg' -> files_ok (files cfg') ->
  (forall j, 0 <= j < Z.of_nat k -> filed (files cfg') (Z.to_nat j) /\
     on_disk (files cfg') (Z.to_nat j) = persister (raft (RaftNet.nodes net' j)) /\
     Persister.snapshot (persister (raft (RaftNet.nodes net' j))) = [] /\
     log_ok s (te_cfg te) j (ap_index (apps' j)) /\
     prefix_ok k s (ap_st (apps' j)) /\ zlen (ap_st (apps' j)) = ap_index (apps' j)) ->
  te_inv {| te_sys := Build_Sys net' apps'; te_old := te_old te; te_cfg := cfg' |} s'.
Proof.
  intros [] He HS [En Ee El _ Ea] Hf Hall. split; cbn [te_sys te_old te_cfg]; try done; try congruence.
  - intros j (? & _)%Hall. done.
  - intros j (_ & ? & ? & _)%Hall. done.
  - intros j (_ & _ & _ & ? & _)%Hall. eapply log_ok_mono; [done|]. unfold log_ok. by rewrite El.
  - intros j ms (Hj & a & Ha & Hl & Hp)%ti_old0. split; [done|]. exists a.
    split_and!; [done| |by eapply pending_mono]. eapply log_ok_mono; [done|].
    unfold log_ok in *. by rewrite El.
  - intros j (_ & _ & _ & _ & ? & ?)%Hall. split; [by eapply prefix_ok_mono|done].
Qed.

(** What [nodes_inv] asks for a server that did not change. *)
Lemma same_server te s j :
  te_inv te s -> 0 <= j < Z.of_nat k ->
  on_disk (files (te_cfg te)) (Z.to_nat j) = persister (raft (te_node te j)) /\
  Persister.snapshot (persister (raft (te_node te j))) = [] /\
  log_ok s (te_cfg te) j (ap_index (te_app te j)) /\
  prefix_ok k s (ap_st (te_app te j)) /\ zlen (ap_st (te_app te j)) = ap_index (te_app te j).
Proof.
  intros [] Hj. destruct (ti_disk0 j Hj), (ti_sent0 j Hj). split_and!; try done. by apply ti_log0.
Qed.


Lemma raft_inv te s i nd apps' s' out :
  te_inv te s -> 0 <= i < Z.of_nat k -> extends s s' ->
  sys_rel k (Build_Sys (set_node i nd out te) apps') s' ->
  Persister.snapshot (persister (raft nd)) = [] ->
  (forall j, ap_index (apps' j) = ap_index (te_app te j) /\ ap_st (apps' j) = ap_st (te_app te j)) ->
  te_inv {| te_sys := Build_Sys (set_node i nd out te) apps'; te_old := te_old te;
            te_cfg := with_files (write i (persister (raft nd)) (files (te_cfg te))) (te_cfg te) |} s'.
Proof.
  intros Hinv Hi He HS Hsnap Happ.
  destruct (write_files i (persister (raft nd)) (files (te_cfg te))) as (Es & En & Hd);
    [lia|apply Hinv|by apply (ti_filed _ _ Hinv)|].
  apply (nodes_inv te s); try done.
  - destruct (ti_files _ _ Hinv). split; cbn; rewrite Es, ?En; done.
  - intros j Hj. destruct (same_server te s j Hinv Hj) as (H1 & H2 & H3). cbn [files with_files]. rewrite Hd.
    destruct (Happ j) as [-> ->]. split; [unfold filed; rewrite Es; by apply (ti_filed _ _ Hinv)|].
    cbn. destruct (decide (j = i)) as [->|Hne].
    + by rewrite fn_lookup_insert, decide_True.
    + by rewrite fn_lookup_insert_ne, decide_False by (done || lia).
Qed.

Lemma start_inv te s i r cfg' s' :
  te_inv te s -> 0 <= i < Z.of_nat k -> kept (Z.to_nat i) (te_cfg te) cfg' -> extends s s' ->
  let net' := set_node i (boot k i (on_disk (files cfg') (Z.to_nat i)) r) [] te in
  sys_rel k (Build_Sys net' (<[i := fresh]> (sys_apps (te_sys te)))) s' ->
  te_inv {| te_sys := Build_Sys net' (<[i := fresh]> (sys_apps (te_sys te)));
            te_old := te_old te; te_cfg := cfg' |} s'.
Proof.
  intros Hinv Hi [Hst Hr] He net' HS. apply (nodes_inv te s); try done.
  - apply Hr, Hinv.
  - intros j Hj. destruct (same_server te s j Hinv Hj) as (H1 & H2 & H3).
    split; [apply Hr; by apply (ti_filed _ _ Hinv)|]. cbn. rewrite (rs_disk _ _ _ Hr) by apply Hinv.
    destruct (decide (j = i)) as [->|Hne].
    + rewrite !fn_lookup_insert. cbn [raft boot]. rewrite Make_persister, (rs_disk _ _ _ Hr) by apply Hinv.
      rewrite H1. split_and!; try done; [by eapply inv_log0|apply prefix_ok_nil].
    + by rewrite !fn_lookup_insert_ne.
Qed.

Lemma old_file_inv te s a ps :
  te_inv te s -> (forall i, saved (files (te_cfg te)) !! i <> Some (Some a)) ->
  te_inv {| te_sys := te_sys te; te_old := te_old te;
            te_cfg := with_files (overwrite a ps (files (te_cfg te))) (te_cfg te) |} s.
Proof.
  intros [] Hno. split; cbn [te_sys te_old te_cfg]; try done.
  - destruct ti_files0. by split.
  - intros j Hj. change (te_node _ j) with (te_node te j). rewrite <- (proj1 (ti_disk0 j Hj)) at 1.
    split; [|by apply ti_disk0]. unfold on_disk, persister_at. cbn.
    destruct (saved (files (te_cfg te)) !! Z.to_nat j) as [[b|]|] eqn:E; [|done|done].
    rewrite lookup_insert_ne; [done|]. intros ->. by apply (Hno (Z.to_nat j)).
Qed.

(** The messages that are left are those of the batch. *)
Lemma rest_batch te i m ms :
  rest te i = m :: ms ->
  exists b, batch (te_node te i) = Some b /\ applierMsgs b !! ap_pos (te_app te i) = Some m.
Proof.
  unfold rest. destruct (zget (alive (te_cfg te)) i) as [[]|]; [|done|done].
  destruct (batch (te_node te i)) as [b|]; [|done]. intros Hrest. exists b. split; [done|].
  rewrite <- (Nat.add_0_r (ap_pos _)), <- lookup_drop, Hrest. done.
Qed.

Lemma deliver_inv te s i m ms cmd cfg' :
  te_inv te s -> 0 <= i < Z.of_nat k -> rest te i = m :: ms -> Command m = Some cmd ->
  applier i m (te_cfg te) = inl cfg' ->
  exists s', extends s s' /\ te_inv
    {| te_sys := Build_Sys (sys_net (te_sys te))
         (<[i := Build_App (ap_st (te_app te i) ++ [cmd]) (CommandIndex m)
                   (S (ap_pos (te_app te i)))]> (sys_apps (te_sys te)));
       te_old := te_old te; te_cfg := cfg' |} s'.
Proof.
  intros Hinv Hi Hrest Hcmd Ha. pose proof (sr_abs _ _ _ (ti_rel _ _ Hinv)) as Habs.
  assert (sendable s (ap_index (te_app te i)) m) as Hsend.
  { rewrite <- (Z.add_0_r (ap_index _)). apply (rest_pending te s i (ti_rel _ _ Hinv) Hi 0%nat). by rewrite Hrest. }
  destruct (rest_batch te i m ms Hrest) as (b & Hb & Hm).
  destruct (same_server te s i Hinv Hi) as (_ & _ & Hl & HP & HPl).
  pose proof (zlen_nonneg (ap_st (te_app te i))) as Hpos.
  destruct (inv_send te s i (ap_index (te_app te i)) m Hinv Hi) as (cfg1 & E & Hnew & Hinv1);
    [lia|done|done|].
  rewrite Ha in E. injection E as <-.
  pose proof (@sys_deliver C (list C) unit unit _ recorder k (te_sys te) i b m cmd
    (ap_st (te_app te i) ++ [cmd]) tt Hi Hb Hm Hcmd eq_refl) as Hs.
  destruct (sys_step_rel k _ _ s Hs (ti_rel _ _ Hinv)) as (s' & He & HS). exists s'. split; [done|].
  destruct Hsend as (cmd' & Hat & Hidx & Hcmd' & _). assert (cmd' = cmd) as -> by congruence.
  apply (nodes_inv _ s s' _ _ _ Hinv1); try done; [apply Hinv1|].
  intros j Hj. destruct (same_server _ s j Hinv1 Hj) as (H1 & H2 & H3 & H4 & H5).
  split; [by apply (ti_filed _ _ Hinv1)|]. split; [done|]. split; [done|].
  destruct (decide (j = i)) as [->|]; [|by rewrite fn_lookup_insert_ne].
  rewrite fn_lookup_insert. cbn [ap_index ap_st]. rewrite Hidx, zlen_app. split; [done|].
  split; [|change (zlen [cmd]) with 1; unfold te_app in *; lia].
  eapply at_index_snoc; [done|done| |done]. lia.
Qed.

Lemma te_step_inv te te' s :
  te_step te te' -> te_inv te s -> exists s', extends s s' /\ te_inv te' s'.
Proof.
  intros Hs Hinv. pose proof (sr_abs _ _ _ (ti_rel _ _ Hinv)) as Habs.
  destruct Hs as [i src ev nd' Hi Hal Hs Hin Hev Hd|i m ms cmd cfg' Hi Hrest Hcmd Ha|
    old1 i m ms old2 cfg' Hold Ha|a ps Ha Hno|i cfg' Hi Hc|i names srv r cfg' Hi Hc|i cfg' Hc|i cfg' Hc].
  - destruct (sys_step_rel k _ _ s (sys_event k (te_sys te) i src ev nd' Hi Hs Hin Hev Hd) (ti_rel _ _ Hinv))
      as (s' & He & HS). exists s'. split; [done|]. apply (raft_inv te s); try done.
    + destruct (node_step_snapshot _ _ _ Hs Hev) as [-> _]. by apply (ti_disk _ _ Hinv).
    + intros j. unfold te_app. destruct (decide (j = i)) as [->|];
        [rewrite fn_lookup_insert; by destruct ev|by rewrite fn_lookup_insert_ne].
  - by eapply deliver_inv.
  - exists s. split; [apply extends_refl|].
    destruct (ti_old _ _ Hinv i (m :: ms)) as (Hi & a & Ha0 & Hl & Hp);
      [rewrite Hold; apply elem_of_app; right; by left|].
    destruct (inv_send te s i a m) as (cfg1 & E & Hnew & Hinv1); try done.
    { specialize (Hp 0%nat m eq_refl). by rewrite Z.add_0_r in Hp. }
    rewrite Ha in E. injection E as <-. destruct Hinv1. split; cbn [te_sys te_old te_cfg] in *; try done.
    intros j msj [Hj|[[= -> ->]|Hj]%elem_of_cons]%elem_of_app.
    + apply ti_old0. rewrite Hold. apply elem_of_app. by left.
    + split; [done|]. exists (a + 1). split_and!; [lia|done|].
      intros p m' Hm'. specialize (Hp (S p) m' Hm'). by replace (a + 1 + Z.of_nat p) with (a + Z.of_nat (S p)) by lia.
    + apply ti_old0. rewrite Hold. apply elem_of_app. right. by right.
  - exists s. split; [apply extends_refl|]. apply (old_file_inv te s); done.
  - exists s. split; [apply extends_refl|].
    by eapply (kept_inv _ s (Z.to_nat i) _ (old_inv te s i Hinv Hi)), crash1_kept.
  - destruct (ti_disk _ _ Hinv i Hi) as [Hdi Hsn].
    destruct (start1_kept i names srv (te_cfg te) cfg') as (Hk & _ & _); [apply Hinv|by rewrite Hdi|done|].
    destruct (sys_step_rel k _ _ s (sys_crash k (te_sys te) i r Hi) (ti_rel _ _ Hinv)) as (s' & He & HS).
    exists s'. split; [done|].
    apply (start_inv _ s i r cfg' s' (old_inv te s i Hinv Hi) Hi Hk He).
    rewrite (rs_disk _ _ _ (proj2 Hk)), Hdi by apply Hinv. exact HS.
  - exists s. split; [apply extends_refl|]. by eapply kept_inv, (connect_kept i 0%nat).
  - exists s. split; [apply extends_refl|]. by eapply kept_inv, (disconnect_kept i 0%nat).
Qed.
End tester.
End RaftTester.
