(* ===== verification/RaftTesterProps.v ===== *)
(** * What the test harness of Raft sees

    In every run of [Tester]: the checks of [applier] and [nCommitted] never fail, and
    when [one] returns an index, the command it proposed is what every server is ever
    sent at that index.  And [checkOneLeader] never finds two leaders of a term. *)
From S2P Require Import Prelude Persister RaftNode RaftLocal RaftNet RaftSpec RaftRefine RaftSafety RaftCommands Notify Service Cluster LabRPC Harness HarnessProps RaftConfig RaftConfigProps RaftConfigDisk RaftConfigNet RaftTester.
From stdpp Require Import functions relations.
Import LabRPC Harness RaftConfig Cluster RaftTester.
#[local] Open Scope Z_scope.

Section tester.
Context {C : Type} `{EqDecision C} `{!Codec (RaftPersist C), !CodecLaws (RaftPersist C)}.
Context `{!Codec (Z * list (option C))}.
Variable k : nat.
Implicit Types (cfg : config (C := C)) (s : Abs C) (m : ApplyMsg C) (te : Tester (C := C)).

(** ** The harness after [make_config] *)

(** Before anything ran: the servers in [made] have their files, which are empty. *)
Record made_inv (made : list Z) cfg : Prop := {
  mi_n : n cfg = k;
  mi_logs : logs cfg = replicate k ∅;
  mi_alive : length (alive cfg) = k;
  mi_err : applyErr cfg = replicate k None;
  mi_files : files_ok (files cfg);
  mi_disk i : on_disk (files cfg) i = Persister.MakePersister;
  mi_filed i : i ∈ made -> filed (files cfg) (Z.to_nat i);
}.

Lemma kept_made made i cfg cfg' : made_inv made cfg -> kept i cfg cfg' -> made_inv made cfg'.
Proof.
  intros [] [[] [Hf Hd _ _ Hk _]]. split; try congruence; auto. intros j. by rewrite Hd.
Qed.

Lemma start1_made made i names srv cfg cfg' :
  made_inv made cfg -> start1 i names srv cfg = inl cfg' -> made_inv (made ++ [i]) cfg'.
Proof.
  intros Hm H. destruct (start1_kept i names srv cfg cfg') as (Hk & _ & a & Ha & _);
    [by apply Hm|by rewrite (mi_disk _ _ Hm)|done|].
  destruct (kept_made _ _ _ _ Hm Hk). split; try done.
  intros j [Hj| ->%list_elem_of_singleton]%elem_of_app; [auto|].
  apply zget_Some_lookup in Ha as [_ Ha]. by exists a.
Qed.

Lemma make_config_made unreliable names srvs cfg :
  make_config k unreliable names srvs = inl cfg -> made_inv (zrange k) cfg.
Proof.
  unfold make_config. intros (c1 & E1 & E2)%res_bind_inl.
  revert E2. apply (loop_ok (fun _ => made_inv (zrange k)));
    [|intros _ i c c' Hc E; by eapply kept_made, (connect_kept i 0%nat)].
  revert E1. apply (loop_ok made_inv).
  - split; cbn; try done; try apply length_replicate.
    + apply no_files_ok.
    + intros i. unfold on_disk. cbn. destruct (replicate k None !! i) as [o|] eqn:E; [|done].
      by apply lookup_replicate_1 in E as [-> _].
    + by intros i ?%not_elem_of_nil.
  - intros pre i cfg1 cfg2 H1 (l & [_ ->]%upd_inl & E)%res_bind_inl.
    eapply start1_made, E. destruct H1. split; try done.
    + cbn. rewrite mi_logs0. apply insert_replicate.
Qed.

Lemma te_init_inv te : te_init k te -> te_inv k te abs0.
Proof.
  intros ([Hn Ha] & Hold & u & names & srvs & Hm). apply make_config_made in Hm as [].
  pose proof (sys_init_rel k _ (conj Hn Ha)) as HS. destruct Hn as [_ Hn].
  split; try done.
  - by rewrite mi_logs0, length_replicate.
  - intros i Hi. apply mi_filed0. by apply elem_of_zrange.
  - intros i Hi. rewrite mi_disk0. unfold te_node. destruct (Hn i) as [r ->]. cbn [raft boot].
    by rewrite Make_persister.
  - intros i Hi. unfold te_app. rewrite Ha. exists ∅, []. split_and!; [| |apply prefix_ok_nil|done].
    + rewrite mi_logs0. apply zget_Some_lookup. split; [lia|]. apply lookup_replicate. split; [done|lia].
    + intros g. rewrite lookup_empty. by bcase.
  - rewrite Hold. by intros i ms ?%not_elem_of_nil.
  - intros i Hi. unfold te_app. rewrite Ha. split; [apply prefix_ok_nil|done].
Qed.

Lemma te_run_inv te te' s :
  rtc (te_step k) te te' -> te_inv k te s -> exists s', extends s s' /\ te_inv k te' s'.
Proof.
  intros Hr. revert s. induction Hr as [te|te1 te2 te3 Hs _ IH]; intros s Hi.
  { exists s. split; [apply extends_refl|done]. }
  destruct (te_step_inv k _ _ _ Hs Hi) as (s2 & He & Hi2).
  destruct (IH s2 Hi2) as (s3 & He3 & Hi3). exists s3. split; [|done]. by eapply extends_trans.
Qed.

Lemma te_reachable_inv te : te_reachable k te -> exists s, te_inv k te s.
Proof.
  intros (te0 & H0 & Hr). destruct (te_run_inv _ _ _ Hr (te_init_inv _ H0)) as (s & _ & Hs). by exists s.
Qed.

(** ** Counting *)

(** What [nCommitted] returns: how many servers have something at [index], and the
    committed command if one has. *)
Definition has (cfg : config (C := C)) (index i : Z) : bool :=
  match zget (logs cfg) i with Some l => bool_decide (is_Some (l !! index)) | None => false end.

Lemma nCommitted_spec te s index :
  te_inv k te s ->
  exists nd v, nCommitted index (te_cfg te) = inl (nd, v) /\
    nd = zlen (filter (fun i => has (te_cfg te) index i = true) (zrange k)) /\
    (0 < nd -> exists cmd, v = Some cmd /\ at_index k s index cmd).
Proof.
  intros Hinv. pose proof (sr_abs _ _ _ (ti_rel _ _ _ Hinv)) as Habs. unfold nCommitted.
  rewrite (ti_alive _ _ _ Hinv).
  destruct (loop_inv (fun pre '(nd, v) =>
    nd = zlen (filter (fun i => has (te_cfg te) index i = true) pre) /\
    (0 < nd -> exists cmd, v = Some cmd /\ at_index k s index cmd))
    (fun i '(count, cmd) =>
      e ← idx (applyErr (te_cfg te)) i;
      match e with
      | Some m => inr (Fatal m)
      | None =>
          l ← idx (logs (te_cfg te)) i;
          match l !! index with
          | Some cmd1 =>
              if (0 <? count) && negb (bool_decide (cmd = cmd1))
              then inr (Fatal (CommittedDiffers index)) else inl (count + 1, cmd1)
          | None => inl (count, cmd)
          end
      end) (zrange k) (0, None)) as ([nd v] & E & Hnd & Hv).
  - split; [done|]. intros ?. lia.
  - intros pre i post [nd v] Hsplit [Hnd Hv]. apply zrange_split in Hsplit as Hi.
    destruct (ti_log _ _ _ Hinv i Hi) as (l & P & Hl & Ht & HP & _).
    assert (zget (applyErr (te_cfg te)) i = Some None) as He.
    { rewrite (ti_err _ _ _ Hinv). apply zget_Some_lookup. split; [lia|]. apply lookup_replicate. split; [done|lia]. }
    rewrite (idx_Some _ _ _ He), (idx_Some _ _ _ Hl). cbn [mbind res_bind].
    assert (has (te_cfg te) index i = bool_decide (is_Some (l !! index))) as Hhas by (unfold has; by rewrite Hl).
    pose proof (zlen_nonneg (filter (fun i => has (te_cfg te) index i = true) pre)) as H0.
    rewrite filter_app. destruct (l !! index) as [v1|] eqn:Hg.
    + destruct (table_at _ _ _ _ _ _ Ht HP Hg) as (cmd & -> & Hat).
      assert ((0 <? nd) && negb (bool_decide (v = Some cmd)) = false) as ->.
      { destruct (Z.ltb_spec 0 nd) as [Hlt|]; [|done]. destruct (Hv Hlt) as (cmd' & -> & Hat').
        by rewrite (at_index_unique k s index cmd' cmd), bool_decide_eq_true_2. }
      eexists. split; [done|]. cbv beta iota.
      rewrite filter_cons_True by (rewrite Hhas; by apply bool_decide_eq_true).
      rewrite filter_nil, zlen_app. split; [rewrite Hnd; done|]. intros _. by exists cmd.
    + eexists. split; [done|]. cbv beta iota. rewrite filter_cons_False, filter_nil, app_nil_r; [done|].
      rewrite Hhas. intros H%bool_decide_eq_true. by destruct H.
  - exists nd, v. done.
Qed.

(** C20: the harness raises no false alarm.  In every run of a cluster without snapshots
    under its test harness (servers crash, restart from the persister the harness kept,
    are connected and disconnected; instances that were shut down go on sending the
    batch they had and writing to their own persisters), [applier] accepts whatever a
    server or a former instance sends next, and [nCommitted] never finds two servers
    that differ: it returns the number of servers that have something at the index. *)
Theorem tester_no_alarm te :
  te_reachable k te ->
  (forall i m ms, 0 <= i < Z.of_nat k -> rest te i = m :: ms ->
     exists cfg', applier i m (te_cfg te) = inl cfg') /\
  (forall i m ms, (i, m :: ms) ∈ te_old te -> exists cfg', applier i m (te_cfg te) = inl cfg') /\
  (forall index, exists cmd, nCommitted index (te_cfg te) =
     inl (zlen (filter (fun i => has (te_cfg te) index i = true) (zrange k)), cmd)).
Proof.
  intros [s Hinv]%te_reachable_inv. split_and!.
  - intros i m ms Hi Hr. destruct (same_server k te s i Hinv Hi) as (_ & _ & Hl & _ & Hz).
    destruct (inv_send k te s i (ap_index (te_app te i)) m Hinv Hi) as (cfg' & E & _); try done.
    + rewrite <- Hz. apply zlen_nonneg.
    + rewrite <- (Z.add_0_r (ap_index _)).
      apply (rest_pending k te s i (ti_rel _ _ _ Hinv) Hi 0%nat). by rewrite Hr.
    + by exists cfg'.
  - intros i m ms (Hi & a & Ha & Hl & Hp)%(ti_old _ _ _ Hinv).
    destruct (inv_send k te s i a m Hinv Hi) as (cfg' & E & _); try done; [|by exists cfg'].
    rewrite <- (Z.add_0_r a). by apply (Hp 0%nat).
  - intros index. destruct (nCommitted_spec te s index Hinv) as (nd & v & E & -> & _). by exists v.
Qed.

(** [te] is a moment of the run that leads to [te']. *)
Definition before te' te : Prop := te_reachable k te /\ rtc (te_step k) te te'.

(** At [te], enough servers have [cmd] at [index]. *)
Definition agreement (expectedServers index : Z) (cmd : C) te : Prop :=
  exists nd, nCommitted index (te_cfg te) = inl (nd, Some cmd) /\ expectedServers <= nd /\ 0 < nd.

Lemma agreed_spec cmd index exp tes :
  Forall (te_reachable k) tes ->
  exists b, agreed cmd index exp (te_cfg <$> tes) = inl b /\
    (b = true -> exists te, te ∈ tes /\ agreement exp index cmd te).
Proof.
  induction 1 as [|te tes [s Hinv]%te_reachable_inv _ IH]; cbn; [by exists false|].
  destruct (nCommitted_spec te s index Hinv) as (nd & v & E & _). rewrite E. cbn.
  destruct ((0 <? nd) && (exp <=? nd) && bool_decide (v = Some cmd)) eqn:Hb.
  - exists true. split; [done|]. intros _. breflect. exists te. split; [by left|]. exists nd.
    match goal with H : v = _ |- _ => rewrite <- H end. split_and!; [done|lia|lia].
  - destruct IH as (b & -> & Hb'). exists b. split; [done|]. intros (te1 & Hin & Hte)%Hb'.
    exists te1. split; [by right|done].
Qed.

(** After an agreement every server is sent the command at that index. *)
Lemma agreement_lasts te te' exp index cmd i :
  before te' te -> agreement exp index cmd te -> 0 <= i < Z.of_nat k ->
  index <= zlen (ap_st (te_app te' i)) -> zget (ap_st (te_app te' i)) (index - 1) = Some cmd.
Proof.
  intros [Hr Hrt] (nd & E & _ & Hpos) Hi Hle. destruct (te_reachable_inv _ Hr) as [s Hinv].
  destruct (te_run_inv _ _ _ Hrt Hinv) as (s' & He & Hinv').
  destruct (nCommitted_spec te s index Hinv) as (nd' & v & E' & _ & Hv).
  rewrite E in E'. injection E' as <- <-. destruct (Hv Hpos) as (cmd' & [= <-] & Hat).
  destruct (ti_sent _ _ _ Hinv' i Hi) as [HP _].
  pose proof (at_index_pos k s index cmd Hat). apply zget_Some_lookup. split; [lia|].
  eapply at_index_prefix; [apply Hinv'|by eapply at_index_mono|done|done].
Qed.

(** C21: what [one] takes for agreement is agreement, in runs without snapshots (under
    [applier], not [applierSnap]; instances that were shut down only finish the batch they
    had).  [one] proposes [cmd] in any number of rounds, at moments of one such run.  If it
    returns an index then at one of these moments at least [expectedServers] servers had
    [cmd] there, and [cmd] is what every server of the cluster is sent at that index, for
    the rest of the run; -1 is for a test that has finished.  Otherwise it reports that it
    failed to reach agreement, and nothing else. *)
Theorem one_agreement cmd expectedServers retry fin starts rounds te' :
  Forall (fun r => Forall (before te') r.2) rounds ->
  match one cmd expectedServers retry fin k starts
          ((fun r => {| at_connected := r.1.1; at_start := r.1.2; at_polls := te_cfg <$> r.2 |})
             <$> rounds) with
  | inl index => index = -1 /\ fin = true \/
      exists te, before te' te /\ agreement expectedServers index cmd te /\
        forall i, 0 <= i < Z.of_nat k -> index <= zlen (ap_st (te_app te' i)) ->
          zget (ap_st (te_app te' i)) (index - 1) = Some cmd
  | inr e => e = Fatal NoAgreement /\ (fin = false \/ retry = false)
  end.
Proof.
  intros Hr. revert starts. induction Hr as [|[[conn st] tes] rounds Htes _ IH]; intros starts.
  { cbn. destruct fin; [by left|]. split; [done|by left]. }
  cbn. destruct (submit k k starts _) as [[index|] starts']; [|apply IH].
  bcase; [apply IH|]. cbn in Htes.
  destruct (agreed_spec cmd index expectedServers tes) as ([] & -> & Hb); cbn.
  - eapply Forall_impl; [exact Htes|]. by intros te [].
  - destruct (Hb eq_refl) as (te & Hin & Hag). right. exists te. rewrite Forall_forall in Htes.
    split_and!; [by apply Htes|done|]. intros i Hi. eapply agreement_lasts; [by apply Htes|done|done].
  - bcase; [|apply IH]. destruct retry; [done|]. split; [done|by right].
Qed.
End tester.

(** ** A concrete run: a command reaches two servers *)
Module TesterDemo.
Import IntCommands Partition.
#[export] Existing Instance IntCommands.codec_laws.

(** Three servers on [net] that were sent nothing. *)
Record ready (net : RaftNet.Net Z) (te : Tester (C := Z)) : Prop := {
  rd_reachable : te_reachable 3 te;
  rd_net : sys_net (te_sys te) = net;
  rd_fresh i : te_app te i = fresh;
  rd_alive : alive (te_cfg te) = [true; true; true];
  rd_err : applyErr (te_cfg te) = [None; None; None];
  rd_logs : logs (te_cfg te) = [∅; ∅; ∅];
}.

Lemma fires_ready i src ev net net' :
  Run.fires i src ev net net' -> (exists te, ready net te) -> exists te, ready net' te.
Proof.
  intros [Hi ? ? ? Hd Hnet] (te & [(te0 & H0 & Hr) Hn Hf Ha He Hl]). subst net. eexists.
  split; [exists te0; split; [done|eapply rtc_r; [exact Hr|]]| |..].
  - eapply (te_raft 3 te i src ev); eauto; [rewrite Ha|].
    + apply zget_Some_lookup. split; [lia|]. by destruct (Z.to_nat i) as [|[|[|?]]] eqn:?; try done; lia.
    + intros b E. by apply Hd in E.
  - exact Hnet.
  - apply (fn_insert_case (fun _ a => a = fresh)); [|intros j _; apply Hf].
    cbn. change (sys_apps (te_sys te) i) with (te_app te i). rewrite Hf. by destruct ev.
  - exact Ha.
  - exact He.
  - exact Hl.
Qed.

Lemma started : exists te, ready Run.net0 te.
Proof.
  assert (match make_config 3 false names Z.to_nat with
          | inl cfg => alive (C := Z) cfg | inr _ => [] end = [true; true; true]) as Ha
    by (vm_compute; reflexivity).
  destruct (make_config 3 false names Z.to_nat) as [cfg|] eqn:E; [|discriminate Ha].
  destruct (make_config_made 3 _ _ _ _ E) as [_ Hl _ He _ _ _].
  exists {| te_sys := Build_Sys Run.net0 (fun _ => fresh); te_old := []; te_cfg := cfg |}.
  split; [|reflexivity|reflexivity|exact Ha|exact He|exact Hl]. eexists. split; [|apply rtc_refl].
  split; [split; [split; [done|by exists 0]|done]|]. split; [reflexivity|]. exists false, names, Z.to_nat. exact E.
Qed.

Lemma taken : exists te, ready (Run.net11 7) te.
Proof.
  apply (fires_ready _ _ _ _ _ (Run.fire11 7)). apply (fires_ready _ _ _ _ _ (Run.fire10 7)).
  apply (fires_ready _ _ _ _ _ (Run.fire9 7)). apply (fires_ready _ _ _ _ _ (Run.fire8 7)).
  apply (fires_ready _ _ _ _ _ (Run.fire7 7)). apply (fires_ready _ _ _ _ _ (Run.fire6 7)).
  apply (fires_ready _ _ _ _ _ (Run.fire5 7)). apply (fires_ready _ _ _ _ _ (Run.fire4 7)).
  apply (fires_ready _ _ _ _ _ Run.fire3). apply (fires_ready _ _ _ _ _ Run.fire2).
  apply (fires_ready _ _ _ _ _ Run.fire1). apply started.
Qed.


(** The servers 0 and 1 send the command to the harness. *)
Lemma demo : exists te1 te2, te_reachable 3 te1 /\ rest te1 0 = [Run.sent 7] /\
  te_reachable 3 te2 /\ ap_st (te_app te2 1) = [7] /\ ap_st (te_app te2 2) = [] /\
  nCommitted 1 (te_cfg te2) = inl (2, Some 7).
Proof.
  destruct taken as ([[net apps] old []] & [(te0 & H0 & Hr) Hn Hf Ha He Hl]).
  unfold te_app in Hf. cbn in *. subst.
  match type of Hr with rtc _ _ ?te => set (te1 := te) in Hr end.
  assert (te_reachable 3 te1) as Hr1 by (by exists te0).
  assert (rest te1 0 = [Run.sent 7]) as Hrest.
  { unfold rest, te_app. cbn. rewrite Hf. vm_compute. reflexivity. }
  eexists te1, _. split; [done|]. split; [done|]. split.
  { exists te0. split; [done|]. eapply rtc_r; [eapply rtc_r; [exact Hr|]|].
    - apply (te_deliver 3 te1 0 (Run.sent 7) [] 7); [done|done|done|vm_compute; reflexivity].
    - apply (te_deliver 3 _ 1 (Run.sent 7) [] 7); [done| |done|vm_compute; reflexivity].
      unfold rest, te_app. cbn. rewrite (fn_lookup_insert_ne apps), Hf by done. vm_compute. reflexivity. }
  split_and!; [| |vm_compute; reflexivity].
  - vm_compute. by rewrite Hf.
  - vm_compute. by rewrite Hf.
Qed.
End TesterDemo.
Import Partition TesterDemo.

Lemma tester_no_alarm_witness :
  exists te, te_reachable 3 te /\ rest te 0 = [Run.sent 7] /\
    (exists cfg', applier 0 (Run.sent 7) (te_cfg te) = inl cfg') /\
    exists cmd, nCommitted 1 (te_cfg te) =
      inl (zlen (filter (fun i => has (te_cfg te) 1 i = true) (zrange 3)), cmd).
Proof.
  destruct demo as (te & _ & Hr & Hrest & _). exists te.
  destruct (tester_no_alarm 3 te Hr) as (H1 & _ & H2). split_and!; [done|done| |apply H2].
  by apply (H1 0 _ []); [lia|].
Defined.

(** Server 0 accepts the command; both servers that got it make an agreement. *)
Lemma one_agreement_witness :
  exists te, one 7 2 false false 3 0
      [{| at_connected := fun _ => true; at_start := fun i => (1, 1, i =? 0); at_polls := [te_cfg te] |}]
      = inl 1 /\
    ap_st (te_app te 2) = [] /\ zget (ap_st (te_app te 1)) 0 = Some 7.
Proof.
  destruct demo as (_ & te & _ & _ & Hr & H1 & H2 & Hn). exists te.
  pose proof (one_agreement 3 7 2 false false 0 [((fun _ => true), (fun i => (1, 1, i =? 0)), [te])] te
    ltac:(repeat constructor; done)) as H.
  assert (one 7 2 false false 3 0
    [{| at_connected := fun _ => true; at_start := fun i => (1, 1, i =? 0); at_polls := [te_cfg te] |}]
    = inl 1) as E .
  { cbn [one]. match goal with |- context [submit 3 3 0 ?a] =>
      assert (submit 3 3 0 a = (Some 1, 0)) as -> by reflexivity end.
    cbn -[nCommitted]. rewrite Hn. reflexivity. }
  split; [done|]. split; [done|]. cbn [fmap list_fmap fst snd] in H. rewrite E in H.
  destruct H as [[? _]|(_ & _ & _ & H)]; [done|]. apply (H 1); [lia|]. by rewrite H1.
Defined.
