(* ===== verification/KVConfig.v ===== *)
(** * The test harness of the key/value store (src/src/kvraft/config.go)

    [config] is the struct of the same name, over the network of LabRPC.  The servers are
    outside ([alive] says which pointers are not nil), as are the clerks: a [*Clerk] is a
    number.  Random strings, the shuffle of [random_handles] and what [GetState] returns
    are arguments.  A test of the clock or of [testing.T] is an argument as well. *)
From S2P Require Import Prelude Persister LabRPC Harness.
#[local] Open Scope Z_scope.

Module KVConfig.
Import LabRPC Harness.

(** Randomize server handles; [draws] are those of [rand.Intn]. *)
Fixpoint shuffle {A} (i : Z) (draws : list Z) (sa : list A) : Res (list A) :=
  match draws with
  | [] => inl sa
  | j :: draws =>
      x ← idx sa i; y ← idx sa j;
      sa ← upd sa i y; sa ← upd sa j x;
      shuffle (i + 1) draws sa
  end.
Definition random_handles {A} (draws : list Z) (kvh : list A) : Res (list A) := shuffle 0 draws kvh.

(** The harness of the controller (src/src/shardctrler/config.go) has the same fields but
    for the ones in [own], and the same operations. *)
Section config.
Context {X : Type}.

Record config := {
  net : Net;
  n : nat;
  alive : list bool;                         (* [kvservers] *)
  files : Files;                             (* [saved] *)
  endnames : list (option (list string));
  clerks : gmap nat (list string);
  nextClientId : Z;
  own : X;
}.
Implicit Types cfg : config.

Definition with_net x cfg : config :=
  {| net := x; n := n cfg; alive := alive cfg;
     files := files cfg; endnames := endnames cfg; clerks := clerks cfg; nextClientId := nextClientId cfg; own := own cfg |}.
Definition with_alive x cfg : config :=
  {| net := net cfg; n := n cfg; alive := x;
     files := files cfg; endnames := endnames cfg; clerks := clerks cfg; nextClientId := nextClientId cfg; own := own cfg |}.
Definition with_files x cfg : config :=
  {| net := net cfg; n := n cfg; alive := alive cfg;
     files := x; endnames := endnames cfg; clerks := clerks cfg; nextClientId := nextClientId cfg; own := own cfg |}.
Definition with_endnames x cfg : config :=
  {| net := net cfg; n := n cfg; alive := alive cfg;
     files := files cfg; endnames := x; clerks := clerks cfg; nextClientId := nextClientId cfg; own := own cfg |}.
Definition with_clerks x k cfg : config :=
  {| net := net cfg; n := n cfg; alive := alive cfg;
     files := files cfg; endnames := endnames cfg; clerks := x; nextClientId := k; own := own cfg |}.
Definition with_own x cfg : config :=
  {| net := net cfg; n := n cfg; alive := alive cfg;
     files := files cfg; endnames := endnames cfg; clerks := clerks cfg; nextClientId := nextClientId cfg; own := x |}.

Definition cleanup (failed : bool) (seconds : Z) cfg : Res config :=
  x ← stop (net cfg);
  _ ← checkTimeout failed seconds;
  inl (with_net x cfg).

(** [All] *)
Definition All cfg : list Z := zrange (n cfg).

(** Maximum log size across all servers *)
Definition LogSize cfg : Res Z := largest Persister.RaftStateSize (All cfg) (files cfg).
(** Maximum snapshot size across all servers *)
Definition SnapshotSize cfg : Res Z := largest Persister.SnapshotSize (All cfg) (files cfg).

(** ** Connections between servers *)

(** attach server [i] to servers listed in [to] *)
Definition connectUnlocked (i : Z) (to : list Z) cfg : Res config :=
  x ← loop (fun t x => Enable_end (endnames cfg) i t true x) to (net cfg);
  x ← loop (fun t x => Enable_end (endnames cfg) t i true x) to x;
  inl (with_net x cfg).
Definition connect (i : Z) (to : list Z) cfg : Res config := connectUnlocked i to cfg.

(** The positions of a list and its elements. *)
Definition enum {A} (l : list A) : list (Z * A) := zip (zrange (length l)) l.

(** detach server [i] from the servers listed in [from].  The second loop looks at
    [endnames[j]], [j] being a position in [from], not a server. *)
Definition disconnectUnlocked (i : Z) (from : list Z) cfg : Res config :=
  x ← loop (fun t x => row ← idx (endnames cfg) i;
              match row with Some _ => Enable_end (endnames cfg) i t false x | None => inl x end)
        from (net cfg);
  x ← loop (fun '(j, t) x => row ← idx (endnames cfg) j;
              match row with Some _ => Enable_end (endnames cfg) t i false x | None => inl x end)
        (enum from) x;
  inl (with_net x cfg).
Definition disconnect (i : Z) (from : list Z) cfg : Res config := disconnectUnlocked i from cfg.

Definition ConnectAll cfg : Res config := loop (fun i cfg => connectUnlocked i (All cfg) cfg) (All cfg) cfg.

(** Sets up 2 partitions with connectivity between servers in each partition. *)
Definition partition (p1 p2 : list Z) cfg : Res config :=
  cfg ← loop (fun i cfg => cfg ← disconnectUnlocked i p2 cfg; connectUnlocked i p1 cfg) p1 cfg;
  loop (fun i cfg => cfg ← disconnectUnlocked i p1 cfg; connectUnlocked i p2 cfg) p2 cfg.

(** ** Clerks *)

(** The ends of a clerk; a clerk that is not in the map has none. *)
Definition clerk_ends (ck : nat) cfg : list string := default [] (clerks cfg !! ck).

Definition switch_client (yes : bool) (ck : nat) (which : list Z) cfg : Res config :=
  x ← loop (fun t x => s ← idx (clerk_ends ck cfg) t; inl (Enable (inl s) yes x)) which (net cfg);
  inl (with_net x cfg).
Definition ConnectClientUnlocked (ck : nat) (to : list Z) cfg : Res config := switch_client true ck to cfg.
Definition ConnectClient (ck : nat) (to : list Z) cfg : Res config := ConnectClientUnlocked ck to cfg.
Definition DisconnectClientUnlocked (ck : nat) (from : list Z) cfg : Res config :=
  switch_client false ck from cfg.
Definition DisconnectClient (ck : nat) (from : list Z) cfg : Res config :=
  DisconnectClientUnlocked ck from cfg.

(** Create a clerk with clerk specific server names, and connections to the servers in
    [to]; [ck] is the new pointer.  It also gives the handles in the order of the clerk. *)
Definition makeClient (ck : nat) (names : list string) (draws to : list Z) cfg :
    Res (config * list string) :=
  x ← make_ends names inr (All cfg) (net cfg);
  handles ← random_handles draws names;
  let cfg := with_clerks (<[ck := names]> (clerks cfg)) (nextClientId cfg + 1) (with_net x cfg) in
  cfg ← ConnectClientUnlocked ck to cfg;
  inl (cfg, handles).

Definition deleteClient (ck : nat) cfg : config :=
  with_clerks (delete ck (clerks cfg)) (nextClientId cfg) cfg.

(** ** Servers *)

(** Shutdown a server by isolating it *)
Definition ShutdownServer (i : Z) cfg : Res config :=
  cfg ← disconnectUnlocked i (All cfg) cfg;
  let cfg := with_net (DeleteServer (inr i) (net cfg)) cfg in
  fs ← copy_saved i (files cfg);
  live ← idx (alive cfg) i;
  l ← (if (live : bool) then upd (alive cfg) i false else inl (alive cfg));
  inl (with_files fs (with_alive l cfg)).

(** If restart servers, first call ShutdownServer *)
Definition StartServer (i : Z) (names : list string) (srv : nat) cfg : Res config :=
  es ← upd (endnames cfg) i (Some names);
  x ← make_ends names inr (All cfg) (net cfg);
  p ← idx (saved (files cfg)) i;
  fs ← match p with
       | Some _ => copy_saved i (files cfg)
       | None => store_new i Persister.MakePersister (files cfg)
       end;
  l ← upd (alive cfg) i true;
  inl (with_net (AddServer (inr i) srv x) (with_alive l (with_files fs (with_endnames es cfg)))).

(** Partition servers into 2 groups and put [l] in minority *)
Definition split_servers (l : Z) cfg : Res (list Z * list Z) :=
  let p1 := replicate (n cfg / 2 + 1) 0 in
  let p2 := replicate (n cfg / 2) 0 in
  '(_, p1, p2) ← loop (fun i '(j, p1, p2) =>
      if negb (i =? l) then
        if j <? zlen p1 then p1 ← upd p1 j i; inl (j + 1, p1, p2)
        else p2 ← upd p2 (j - zlen p1) i; inl (j + 1, p1, p2)
      else inl (j, p1, p2)) (All cfg) (0, p1, p2);
  p2 ← upd p2 (zlen p2 - 1) l;
  inl (p1, p2).

(** The first server that says it is the leader; a server that is shut down is a nil
    pointer. *)
Fixpoint find_leader (read : Z -> bool) (l : list Z) cfg : Res (bool * Z) :=
  match l with
  | [] => inl (false, 0)
  | i :: l =>
      live ← idx (alive cfg) i;
      if (live : bool) then if read i then inl (true, i) else find_leader read l cfg
      else inr Panic
  end.
Definition Leader (read : Z -> bool) cfg : Res (bool * Z) := find_leader read (All cfg) cfg.

Definition make_partition (read : Z -> bool) cfg : Res (list Z * list Z) :=
  '(_, l) ← Leader read cfg;
  split_servers l cfg.

Definition make_config (k : nat) (unreliable : bool) (x : X)
    (names : Z -> list string) (srvs : Z -> nat) : Res config :=
  let cfg :=
    {| net := MakeNetwork; n := k; alive := replicate k false; files := no_files k;
       endnames := replicate k None; clerks := ∅; nextClientId := Z.of_nat k + 1000;
       own := x |} in
  cfg ← loop (fun i cfg => StartServer i (names i) (srvs i) cfg) (All cfg) cfg;
  cfg ← ConnectAll cfg;
  inl (with_net (Reliable (negb unreliable) (net cfg)) cfg).
End config.
Arguments config : clear implicits.

(** ** Statistics *)

Record Own := { maxraftstate : Z; rpcs0 : Z; ops : Z }.
Implicit Types cfg : config Own.

Definition rpcTotal cfg : Z := GetTotalCount (net cfg).
Definition begin cfg : config Own :=
  with_own {| maxraftstate := maxraftstate (own cfg); rpcs0 := rpcTotal cfg; ops := 0 |} cfg.
(** [atomic.AddInt32] *)
Definition op cfg : config Own :=
  with_own {| maxraftstate := maxraftstate (own cfg); rpcs0 := rpcs0 (own cfg);
              ops := int32 (ops (own cfg) + 1) |} cfg.
(** What [end] prints: the number of peers, RPCs and operations since [begin]. *)
Definition end_ (failed : bool) (seconds : Z) cfg : Res (option (Z * Z * Z)) :=
  _ ← checkTimeout failed seconds;
  inl (if failed then None
       else Some (Z.of_nat (n cfg), rpcTotal cfg - rpcs0 (own cfg), ops (own cfg))).
End KVConfig.
