(* ===== verification/KVConfigProps.v ===== *)
(** * The test harness of the key/value store: partitions

    In every configuration the harness can reach, [make_partition] puts the leader into
    a minority, and after [partition] the servers of each side talk to each other and
    to nobody else; the clerks keep their connections. *)
From S2P Require Import Prelude Persister LabRPC Harness HarnessProps KVConfig.
Import LabRPC Harness KVConfig.
#[local] Open Scope Z_scope.

(** ** The shuffle of the handles *)

Lemma shuffle_perm {A} i draws (sa : list A) :
  0 <= i -> i + zlen draws <= zlen sa ->
  (forall p j, draws !! p = Some j -> 0 <= j <= i + Z.of_nat p) ->
  exists l, shuffle i draws sa = inl l /\ l ≡ₚ sa.
Proof.
  revert i sa. induction draws as [|j draws IH]; intros i sa Hi Hlen Hd; cbn [shuffle].
  { by exists sa. }
  rewrite zlen_cons in Hlen. pose proof (zlen_nonneg draws).
  assert (0 <= j <= i) as Hj by (specialize (Hd 0%nat j eq_refl); lia).
  destruct (zget_in_range sa i) as [x Hx]; [lia|]. destruct (zget_in_range sa j) as [y Hy]; [lia|].
  rewrite (idx_Some _ _ _ Hx), (idx_Some _ _ _ Hy). cbn [mbind res_bind].
  rewrite upd_in by lia. cbn [mbind res_bind]. rewrite upd_in by (rewrite zlen_insert; lia). cbn [mbind res_bind].
  destruct (IH (i + 1) (<[Z.to_nat j:=x]> (<[Z.to_nat i:=y]> sa))) as (l & -> & Hl); [lia| | |].
  - rewrite !zlen_insert. lia.
  - intros p j' Hp. specialize (Hd (S p) j' Hp). lia.
  - exists l. split; [done|]. rewrite Hl. apply zget_Some_lookup in Hx as [_ Hx], Hy as [_ Hy].
    by apply Permutation_insert_swap.
Qed.

(** ** Splitting the servers *)

Lemma insert_resize {A} (m : nat) (y x : A) l :
  (length l < m)%nat -> <[length l := x]> (resize m y l) = resize m y (l ++ [x]).
Proof.
  intros Hl. rewrite !resize_ge by (rewrite ?length_app; cbn; lia).
  replace (m - length l)%nat with (S (m - length (l ++ [x])))%nat by (rewrite length_app; cbn; lia).
  cbn [replicate]. rewrite <- (Nat.add_0_r (length l)), insert_app_r. cbn.
  by rewrite <- (assoc_L (++)).
Qed.

(** The servers other than [l], of those in [pre]. *)
Definition others (l : Z) (pre : list Z) : list Z := filter (fun i => i <> l) pre.

(** The body of the loop of [split_servers]. *)
Definition deal (l i : Z) (st : Z * list Z * list Z) : Res (Z * list Z * list Z) :=
  let '(j, p1, p2) := st in
  if negb (i =? l) then
    if j <? zlen p1 then p1 ← upd p1 j i; inl (j + 1, p1, p2)
    else p2 ← upd p2 (j - zlen p1) i; inl (j + 1, p1, p2)
  else inl (j, p1, p2).

Lemma deal_ok h l pre i :
  (length (others l pre) <= 2 * h)%nat ->
  deal l i (zlen (others l pre), resize (h + 1) 0 (others l pre),
            resize h 0 (drop (h + 1) (others l pre))) =
    inl (zlen (others l (pre ++ [i])), resize (h + 1) 0 (others l (pre ++ [i])),
         resize h 0 (drop (h + 1) (others l (pre ++ [i])))).
Proof.
  intros Hlen. unfold deal. set (o := others l pre) in *. unfold zlen at 2. rewrite length_resize.
  assert (others l (pre ++ [i]) = o ++ (if decide (i <> l) then [i] else [])) as ->.
  { unfold others. rewrite filter_app. destruct (decide (i <> l)) as [H|H].
    - rewrite filter_cons_True; [done|exact H].
    - rewrite filter_cons_False; [done|exact H]. }
  destruct (Z.eqb_spec i l) as [->|Hne]; cbn [negb].
  { by rewrite decide_False, app_nil_r by tauto. }
  rewrite decide_True by done. rewrite zlen_app. change (zlen [i]) with 1.
  destruct (Z.ltb_spec (zlen o) (Z.of_nat (h + 1))) as [Hj|Hj]; unfold zlen in Hj.
  - rewrite upd_in by (unfold zlen; rewrite length_resize; lia). cbn [mbind res_bind].
    unfold zlen at 2. rewrite Nat2Z.id, insert_resize by lia.
    rewrite !drop_ge by (rewrite ?length_app; cbn; lia). done.
  - rewrite upd_in by (unfold zlen; rewrite !length_resize; lia). cbn [mbind res_bind].
    replace (Z.to_nat (zlen o - zlen (resize (h + 1) 0 o))) with (length (drop (h + 1) o))
      by (unfold zlen; rewrite length_drop, length_resize; lia).
    rewrite insert_resize by (rewrite length_drop; lia).
    rewrite (resize_le o), (resize_le (o ++ [i])) by (rewrite ?length_app; cbn; lia).
    by rewrite take_app_le, drop_app_le by lia.
Qed.

Lemma others_perm l k : 0 <= l < Z.of_nat k -> zrange k ≡ₚ l :: others l (zrange k).
Proof.
  intros Hl. apply NoDup_Permutation; [apply NoDup_zrange| |].
  - apply NoDup_cons. split; [by intros [[] _]%list_elem_of_filter|apply NoDup_filter, NoDup_zrange].
  - intros x. rewrite elem_of_cons. unfold others. rewrite list_elem_of_filter, elem_of_zrange.
    destruct (decide (x = l)); naive_solver.
Qed.

Lemma length_others l k : 0 <= l < Z.of_nat k -> S (length (others l (zrange k))) = k.
Proof.
  intros Hl%others_perm. apply Permutation_length in Hl. rewrite length_zrange in Hl. cbn in Hl. lia.
Qed.

(** With an odd number of servers the leader is the last of the minority. *)
Lemma split_servers_odd {X} (cfg : config X) h l :
  n cfg = (2 * h + 1)%nat -> (1 <= h)%nat -> 0 <= l < Z.of_nat (n cfg) ->
  exists p1 p2, split_servers l cfg = inl (p1, p2 ++ [l]) /\
    length p1 = (h + 1)%nat /\ p1 ++ p2 ++ [l] ≡ₚ zrange (n cfg).
Proof.
  intros Hn Hh Hl. unfold split_servers.
  assert (n cfg / 2 = h)%nat as -> by (rewrite Hn; symmetry; apply (Nat.div_unique _ 2 h 1); lia).
  set (k := n cfg) in *. pose proof (length_others l k Hl) as Hlen.
  destruct (loop_inv (fun pre st => st = (zlen (others l pre), resize (h + 1) 0 (others l pre),
      resize h 0 (drop (h + 1) (others l pre)))) (deal l) (All cfg)
      (0, replicate (h + 1) 0, replicate h 0)) as (st & E & ->).
  - change (others l []) with (@nil Z). by rewrite drop_nil, !resize_nil.
  - intros pre i post st Hsplit ->. eexists. split; [|reflexivity]. apply deal_ok.
    assert (length (others l pre) <= length pre)%nat by apply length_filter.
    assert (length (All cfg) = k) as Hk by apply length_zrange.
    rewrite Hsplit, length_app in Hk. cbn in Hk. lia.
  - unfold deal in E. rewrite E. cbn [mbind res_bind]. unfold All. fold k.
    set (o := others l (zrange k)) in *.
    rewrite upd_in by (unfold zlen; rewrite length_resize; lia). cbn [mbind res_bind].
    exists (take (h + 1) o), (drop (h + 1) o). split_and!.
    + rewrite resize_le by lia. do 2 f_equal.
      replace (Z.to_nat (zlen (resize h 0 (drop (h + 1) o)) - 1)) with (length (drop (h + 1) o))
        by (unfold zlen; rewrite length_resize, length_drop; lia).
      rewrite insert_resize by (rewrite length_drop; lia).
      apply resize_all_alt. rewrite length_app, length_drop. cbn. lia.
    + rewrite length_take. lia.
    + rewrite (assoc_L (++)), take_drop. rewrite Permutation_app_comm. cbn.
      symmetry. by apply others_perm.
Qed.

(** With an even number one place is left over, and server 0 is on both sides. *)
Example split_servers_even {X} (cfg : config X) :
  n cfg = 4%nat -> split_servers 3 cfg = inl ([0; 1; 2], [0; 3]).
Proof. intros Hn. unfold split_servers, All. by rewrite Hn. Qed.

(** A single server would have to be in a minority without places. *)
Example split_servers_one {X} (cfg : config X) : n cfg = 1%nat -> split_servers 0 cfg = inr Panic.
Proof. intros Hn. unfold split_servers, All. by rewrite Hn. Qed.
