(* ===== verification/KVConfigNet.v ===== *)
(** * The test harness of the key/value store: who can talk to whom

    In every configuration the harness can reach, the present ends between servers are
    the servers' own and apart from those of the clerks.  [make_partition] puts the
    leader into a minority, and after [partition] the servers of each side talk to each
    other and to nobody else, while the clerks keep their connections. *)
From S2P Require Import Prelude Persister LabRPC Harness HarnessProps KVConfig KVConfigProps.
Import LabRPC Harness KVConfig.
#[local] Open Scope Z_scope.

Lemma elem_of_enum {A} (l : list A) j x :
  (j, x) ∈ enum l -> 0 <= j < zlen l /\ x ∈ l.
Proof.
  intros H. split; [|by eapply elem_of_zip_r].
  apply elem_of_zip_l, elem_of_zrange in H. done.
Qed.

Lemma enum_elem_of {A} (l : list A) x : x ∈ l -> exists j, (j, x) ∈ enum l.
Proof.
  intros [p Hp]%list_elem_of_lookup. pose proof (lookup_lt_Some _ _ _ Hp) as Hlt.
  destruct (lookup_lt_is_Some_2 (zrange (length l)) p) as [j Hj]; [by rewrite length_zrange|].
  exists j. apply list_elem_of_lookup. exists p. unfold enum.
  rewrite lookup_zip_with, Hj, Hp. done.
Qed.

Section wires.
Context {X : Type}.
Variable k : nat.
Implicit Types (cfg : config X) (e : Name) (x : Net).

(** What the tests do to the network. *)
Inductive harness : config X -> Prop :=
  | h_make unreliable own names srvs cfg :
      (forall i, length (names i) = k) ->
      make_config k unreliable own names srvs = inl cfg -> harness cfg
  | h_start i names srv cfg cfg' :
      harness cfg -> length names = k -> StartServer i names srv cfg = inl cfg' -> harness cfg'
  | h_shutdown i cfg cfg' : harness cfg -> ShutdownServer i cfg = inl cfg' -> harness cfg'
  | h_connect i to cfg cfg' : harness cfg -> connect i to cfg = inl cfg' -> harness cfg'
  | h_disconnect i from cfg cfg' : harness cfg -> disconnect i from cfg = inl cfg' -> harness cfg'
  | h_connect_all cfg cfg' : harness cfg -> ConnectAll cfg = inl cfg' -> harness cfg'
  | h_partition p1 p2 cfg cfg' : harness cfg -> partition p1 p2 cfg = inl cfg' -> harness cfg'
  | h_client ck names draws to cfg cfg' handles :
      harness cfg -> length names = k -> makeClient ck names draws to cfg = inl (cfg', handles) ->
      harness cfg'
  | h_connect_client ck to cfg cfg' : harness cfg -> ConnectClient ck to cfg = inl cfg' -> harness cfg'
  | h_disconnect_client ck from cfg cfg' :
      harness cfg -> DisconnectClient ck from cfg = inl cfg' -> harness cfg'
  | h_delete_client ck cfg : harness cfg -> harness (deleteClient ck cfg)
  | h_own o cfg : harness cfg -> harness (with_own o cfg).

Definition running cfg (i : Z) : bool := default false (zget (alive cfg) i).

(** The ends of the servers and of the clerks. *)
Record wired cfg : Prop := {
  w_n : n cfg = k;
  w_alive : length (alive cfg) = k;
  w_endnames : length (endnames cfg) = k;
  w_row i row : zget (endnames cfg) i = Some (Some row) -> length row = k;
  w_named i j e : named (endnames cfg) i j e ->
    e ∈ ends (net cfg) /\ connection e (net cfg) = Some (inr j);
  w_inj i j i' j' e : named (endnames cfg) i j e -> named (endnames cfg) i' j' e -> i = i' /\ j = j';
  w_clerk ck row j nm : clerks cfg !! ck = Some row -> zget row j = Some nm ->
    inl nm ∈ ends (net cfg) /\ connection (inl nm) (net cfg) = Some (inr j) /\
    forall a b, ~ named (endnames cfg) a b (inl nm);
  w_server i : 0 <= i < Z.of_nat k -> (is_Some (serverAt (inr i) (net cfg)) <-> running cfg i = true);
}.

(** Every server has been started at least once. *)
Definition rows_set cfg : Prop :=
  forall i, 0 <= i < Z.of_nat k -> exists row, zget (endnames cfg) i = Some (Some row).

Lemma kv_named_range cfg i j e :
  wired cfg -> named (endnames cfg) i j e -> 0 <= i < Z.of_nat k /\ 0 <= j < Z.of_nat k.
Proof.
  intros Hw (row & nm & Hi & Hj & _). pose proof (w_row _ Hw i row Hi). pose proof (w_endnames _ Hw).
  apply zget_Some_lt in Hi, Hj. unfold zlen in *. lia.
Qed.

Lemma named_exists cfg i j :
  wired cfg -> rows_set cfg -> 0 <= i < Z.of_nat k -> 0 <= j < Z.of_nat k ->
  exists e, named (endnames cfg) i j e.
Proof.
  intros Hw Hr Hi Hj. destruct (Hr i Hi) as [row Hrow]. pose proof (w_row _ Hw i row Hrow).
  destruct (zget_in_range row j) as [nm Hnm]; [unfold zlen; lia|]. by exists (inl nm), row, nm.
Qed.

(** ** Switching ends on and off *)

(** The configuration is the same but for the network. *)
Definition same_but_net cfg cfg' : Prop := cfg' = with_net (net cfg') cfg.

#[local] Instance same_but_net_preorder : PreOrder same_but_net.
Proof.
  unfold same_but_net. split; [by intros []|]. intros c1 c2 c3 H1 H2. rewrite H2. cbn.
  rewrite H1. done.
Qed.

Lemma kv_wired_rewired cfg cfg' :
  wired cfg -> same_but_net cfg cfg' -> rewired (net cfg) (net cfg') -> wired cfg'.
Proof.
  intros [] -> [E1 E2 E3]. cbn in *. split; cbn; unfold connection, serverAt, running in *; rewrite ?E1, ?E2, ?E3; done.
Qed.

Lemma rows_same cfg cfg' : rows_set cfg -> same_but_net cfg cfg' -> rows_set cfg'.
Proof. by intros H ->. Qed.

(** The ends between [i] and the servers in [l]. *)
Definition between (names : list (option (list string))) (i : Z) (l : list Z) e : Prop :=
  exists j, j ∈ l /\ (named names i j e \/ named names j i e).

Lemma connectUnlocked_switched i to cfg cfg' :
  connectUnlocked i to cfg = inl cfg' ->
  same_but_net cfg cfg' /\ switched (between (endnames cfg) i to) true (net cfg) (net cfg').
Proof.
  unfold connectUnlocked. intros (x1 & E1 & (x & E2 & [= <-])%res_bind_inl)%res_bind_inl.
  split; [done|]. cbn.
  eapply loop_switched in E1; [|intros j y y'; apply Enable_end_switched].
  eapply loop_switched in E2; [|intros j y y'; apply Enable_end_switched].
  eapply switched_or; [|exact E1|exact E2]. unfold between. naive_solver.
Qed.

Lemma connectUnlocked_ok i to cfg :
  wired cfg -> rows_set cfg -> 0 <= i < Z.of_nat k -> (forall j, j ∈ to -> 0 <= j < Z.of_nat k) ->
  exists cfg', connectUnlocked i to cfg = inl cfg'.
Proof.
  intros Hw Hr Hi Hto. unfold connectUnlocked.
  destruct (loop_total (fun t x => Enable_end (endnames cfg) i t true x) to (net cfg)) as [x1 ->];
    [intros t x Ht; apply Enable_end_ok, named_exists; auto|]. cbn [mbind res_bind].
  destruct (loop_total (fun t x => Enable_end (endnames cfg) t i true x) to x1) as [x2 ->];
    [intros t x Ht; apply Enable_end_ok, named_exists; auto|]. cbn [mbind res_bind]. by eexists.
Qed.

(** Whatever the test of [endnames[j]] says, only the map of enabled ends changes. *)
Lemma guarded_rewired names (p a b : Z) x x' :
  (row ← idx names p;
   match row with Some _ => Enable_end names a b false x | None => inl x end) = inl x' ->
  rewired x x'.
Proof.
  intros (row & _ & E)%res_bind_inl. destruct row; [|by injection E as <-].
  by apply Enable_end_switched in E as [? _].
Qed.

Lemma loop_rewired {A} (f : A -> Net -> Res Net) l x x' :
  (forall a y y', f a y = inl y' -> rewired y y') -> loop f l x = inl x' -> rewired x x'.
Proof.
  intros Hf. apply (loop_ok (fun _ y => rewired x y)); [done|].
  intros pre a y y' Hy E. etrans; [done|]. by eapply Hf.
Qed.

Lemma disconnectUnlocked_rewired i from cfg cfg' :
  disconnectUnlocked i from cfg = inl cfg' ->
  same_but_net cfg cfg' /\ rewired (net cfg) (net cfg').
Proof.
  unfold disconnectUnlocked. intros (x1 & E1 & (x & E2 & [= <-])%res_bind_inl)%res_bind_inl.
  split; [done|]. cbn. etrans.
  - eapply loop_rewired; [|exact E1]. intros t y y'. apply guarded_rewired.
  - eapply loop_rewired; [|exact E2]. intros [j t] y y'. apply guarded_rewired.
Qed.

(** With all ends made, the test of [endnames[j]] does not matter. *)
Lemma disconnectUnlocked_switched i from cfg :
  wired cfg -> rows_set cfg -> 0 <= i < Z.of_nat k -> (forall j, j ∈ from -> 0 <= j < Z.of_nat k) ->
  (length from <= k)%nat ->
  exists cfg', disconnectUnlocked i from cfg = inl cfg' /\
    same_but_net cfg cfg' /\ switched (between (endnames cfg) i from) false (net cfg) (net cfg').
Proof.
  intros Hw Hr Hi Hfrom Hlen. unfold disconnectUnlocked.
  assert (forall p a b x, 0 <= p < Z.of_nat k ->
    (row ← idx (endnames cfg) p;
     match row with Some _ => Enable_end (endnames cfg) a b false x | None => inl x end) =
    Enable_end (endnames cfg) a b false x) as Hg.
  { intros p a b x Hp. destruct (Hr p Hp) as [row Hrow]. by rewrite (idx_Some _ _ _ Hrow). }
  assert (forall (A : Type) (f g : A -> Net -> Res Net) l x,
    (forall a y, a ∈ l -> f a y = g a y) -> loop f l x = loop g l x) as loop_ext.
  { intros A f g l. induction l as [|a l IH]; intros x Hfg; cbn; [done|]. rewrite Hfg by (by left).
    destruct (g a x); cbn; [|done]. apply IH. intros; apply Hfg; by right. }
  rewrite (loop_ext _ _ (fun t x => Enable_end (endnames cfg) i t false x)) by (intros; auto).
  destruct (loop_total (fun t x => Enable_end (endnames cfg) i t false x) from (net cfg)) as [x1 E1];
    [intros t x Ht; apply Enable_end_ok, named_exists; auto|]. rewrite E1. cbn [mbind res_bind].
  rewrite (loop_ext _ _ (fun '(j, t) x => Enable_end (endnames cfg) t i false x)).
  2:{ intros [j t] y [Hj _]%elem_of_enum. apply Hg. unfold zlen in Hj. lia. }
  destruct (loop_total (fun '(j, t) x => Enable_end (endnames cfg) t i false x) (enum from) x1) as [x2 E2].
  { intros [j t] x [_ Ht]%elem_of_enum. apply Enable_end_ok, named_exists; auto. }
  rewrite E2. cbn [mbind res_bind]. eexists. split; [done|]. split; [done|]. cbn.
  eapply loop_switched in E1; [|intros j y y'; apply Enable_end_switched].
  eapply (loop_switched _ (fun '(j, t) => named (endnames cfg) t i)) in E2;
    [|intros [j t] y y'; apply Enable_end_switched].
  eapply switched_or; [|exact E1|exact E2]. intros e. split.
  - intros (t & Ht & [Hn|Hn]); [left; by exists t|right].
    destruct (enum_elem_of _ _ Ht) as [j Hj]. by exists (j, t).
  - intros [(t & Ht & Hn)|([j t] & [_ Ht]%elem_of_enum & Hn)]; exists t; auto.
Qed.

(** ** Partitions *)

(** Ends between servers of one side. *)
Definition one_side (names : list (option (list string))) (p1 : list Z) e : bool :=
  existsb (fun i => existsb (fun j =>
    match endname_at names i j with
    | inl nm => bool_decide (e = inl nm) && Bool.eqb (bool_decide (i ∈ p1)) (bool_decide (j ∈ p1))
    | inr _ => false
    end) (zrange k)) (zrange k).

Lemma endname_named names i j nm : endname_at names i j = inl nm -> named names i j (inl nm).
Proof.
  unfold endname_at. intros (row & Hrow%idx_inl & Hnm%idx_inl)%res_bind_inl.
  destruct row as [row|]; [|by apply zget_Some_lookup in Hnm as [_ ?]]. by exists row, nm.
Qed.

Lemma named_endname names i j e : named names i j e -> exists nm, e = inl nm /\ endname_at names i j = inl nm.
Proof.
  intros (row & nm & Hr & Hn & ->). exists nm. split; [done|]. unfold endname_at.
  rewrite (idx_Some _ _ _ Hr). cbn [mbind res_bind default]. by apply idx_Some.
Qed.

Lemma one_side_named cfg p1 i j e :
  wired cfg -> named (endnames cfg) i j e ->
  one_side (endnames cfg) p1 e = Bool.eqb (bool_decide (i ∈ p1)) (bool_decide (j ∈ p1)).
Proof.
  intros Hw Hn. destruct (kv_named_range _ _ _ _ Hw Hn) as [Hi Hj]. apply eq_true_iff_eq.
  unfold one_side. rewrite existsb_exists. setoid_rewrite existsb_exists. split.
  - intros (a & _ & b & _ & E). destruct (endname_at (endnames cfg) a b) as [nm|] eqn:En; [|done].
    apply endname_named in En. apply andb_true_iff in E as [->%bool_decide_eq_true E].
    by destruct (w_inj _ Hw _ _ _ _ _ Hn En) as [-> ->].
  - intros E. exists i. split; [by apply list_elem_of_In, elem_of_zrange|].
    exists j. split; [by apply list_elem_of_In, elem_of_zrange|].
    destruct (named_endname _ _ _ _ Hn) as (nm & -> & ->). by rewrite bool_decide_true, E.
Qed.

(** One round of [partition]: [i] leaves [there] and joins [here]. *)
Lemma partition_round p1 i here there c0 cfg :
  wired c0 -> rows_set c0 -> 0 <= i < Z.of_nat k ->
  (forall j, j ∈ here -> 0 <= j < Z.of_nat k) -> (forall j, j ∈ there -> 0 <= j < Z.of_nat k) ->
  (length there <= k)%nat ->
  (forall j, j ∈ here -> (i ∈ p1 <-> j ∈ p1)) -> (forall j, j ∈ there -> ~ (i ∈ p1 <-> j ∈ p1)) ->
  same_but_net c0 cfg /\ rewired (net c0) (net cfg) ->
  exists cfg', (c ← disconnectUnlocked i there cfg; connectUnlocked i here c) = inl cfg' /\
    (same_but_net c0 cfg' /\ rewired (net c0) (net cfg')) /\
    steered (one_side (endnames c0) p1) (between (endnames c0) i (here ++ there)) (net cfg) (net cfg').
Proof.
  intros Hw0 Hr0 Hi Hh Ht Hlen Sh St [Hs R].
  assert (wired cfg) as Hw by (by eapply kv_wired_rewired).
  assert (rows_set cfg) as Hr by (by eapply rows_same).
  assert (endnames cfg = endnames c0) as En by (by rewrite Hs).
  destruct (disconnectUnlocked_switched i there cfg) as (c1 & -> & Hs1 & Sw1); [done..|]. cbn [mbind res_bind].
  assert (wired c1) as Hw1 by (eapply kv_wired_rewired; [exact Hw|done|apply Sw1]).
  assert (endnames c1 = endnames c0) as En1 by (by rewrite Hs1).
  destruct (connectUnlocked_ok i here c1) as [c2 E2]; [done|by eapply rows_same|done..|].
  exists c2. split; [done|]. apply connectUnlocked_switched in E2 as [Hs2 Sw2].
  rewrite En in Sw1. rewrite En1 in Sw2. split; [split|].
  - etrans; [exact Hs|]. by etrans.
  - etrans; [exact R|]. etrans; [apply Sw1|apply Sw2].
  - eapply (steered_or _ (between (endnames c0) i there) (between (endnames c0) i here)).
    + intros e. unfold between. setoid_rewrite elem_of_app. naive_solver.
    + eapply switched_steered; [|exact Sw1].
      intros e (j & Hj & Hn). specialize (St j Hj).
      destruct Hn as [Hn|Hn]; rewrite (one_side_named _ _ _ _ _ Hw0 Hn);
        repeat case_bool_decide; tauto.
    + eapply switched_steered; [|exact Sw2].
      intros e (j & Hj & Hn). specialize (Sh j Hj).
      destruct Hn as [Hn|Hn]; rewrite (one_side_named _ _ _ _ _ Hw0 Hn);
        repeat case_bool_decide; tauto.
Qed.

Lemma sides (p1 p2 : list Z) :
  p1 ++ p2 ≡ₚ zrange k ->
  (forall i, 0 <= i < Z.of_nat k <-> i ∈ p1 \/ i ∈ p2) /\
  (length p1 <= k)%nat /\ (length p2 <= k)%nat /\ (forall i, i ∈ p1 -> i ∈ p2 -> False).
Proof.
  intros HP. split_and!.
  - intros i. by rewrite <- elem_of_zrange, <- HP, elem_of_app.
  - apply Permutation_length in HP. rewrite length_app, length_zrange in HP. lia.
  - apply Permutation_length in HP. rewrite length_app, length_zrange in HP. lia.
  - assert (NoDup (p1 ++ p2)) as (_ & H & _)%NoDup_app by (rewrite HP; apply NoDup_zrange).
    exact H.
Qed.

(** After [partition] an end between servers is on if and only if they are on the same
    side; no other end has changed. *)
Lemma partition_steered p1 p2 cfg :
  wired cfg -> rows_set cfg -> p1 ++ p2 ≡ₚ zrange k ->
  exists cfg', partition p1 p2 cfg = inl cfg' /\
    (same_but_net cfg cfg' /\ rewired (net cfg) (net cfg')) /\
    (forall i j e, named (endnames cfg) i j e ->
       isEnabled e (net cfg') = Bool.eqb (bool_decide (i ∈ p1)) (bool_decide (j ∈ p1))) /\
    (forall e, (forall i j, ~ named (endnames cfg) i j e) ->
       isEnabled e (net cfg') = isEnabled e (net cfg)).
Proof.
  intros Hw Hr HP. destruct (sides p1 p2 HP) as (Hin & Hl1 & Hl2 & Hno).
  set (I := fun c => same_but_net cfg c /\ rewired (net cfg) (net c)).
  unfold partition.
  destruct (loop_steered net I (one_side (endnames cfg) p1)
    (fun i c => c ← disconnectUnlocked i p2 c; connectUnlocked i p1 c)
    (fun i => between (endnames cfg) i (p1 ++ p2)) p1 cfg) as (c1 & -> & I1 & S1).
  { intros i c Hi Hc. assert (0 <= i < Z.of_nat k) as Hik by (apply Hin; by left).
    apply (partition_round p1 i p1 p2); naive_solver. }
  { by split. }
  cbn [mbind res_bind].
  destruct (loop_steered net I (one_side (endnames cfg) p1)
    (fun i c => c ← disconnectUnlocked i p1 c; connectUnlocked i p2 c)
    (fun i => between (endnames cfg) i (p2 ++ p1)) p2 c1) as (c2 & -> & I2 & S2).
  { intros i c Hi Hc. assert (0 <= i < Z.of_nat k) as Hik by (apply Hin; by right).
    apply (partition_round p1 i p2 p1); naive_solver. }
  { done. }
  exists c2. split; [done|]. split; [done|].
  pose proof (steered_or _ _ _ _ _ _ _ (fun e => iff_refl _) S1 S2) as [_ S].
  assert (forall e, (exists a, a ∈ p1 /\ between (endnames cfg) a (p1 ++ p2) e) \/
      (exists a, a ∈ p2 /\ between (endnames cfg) a (p2 ++ p1) e) ->
    exists i j, named (endnames cfg) i j e) as Ht by (unfold between; naive_solver).
  split.
  - intros i j e Hn. destruct (kv_named_range _ _ _ _ Hw Hn) as [Hi%Hin Hj%Hin].
    destruct (S e) as [[_ ->]|[H _]]; [by apply one_side_named|]. exfalso. apply H.
    unfold between. setoid_rewrite elem_of_app. destruct Hi; [left|right]; exists i; naive_solver.
  - intros e Hn. destruct (S e) as [[(i & j & H)%Ht _]|[_ ->]]; [|done]. by destruct (Hn i j).
Qed.

(** ** Clerks *)

Lemma switch_client_rewired yes ck which cfg cfg' :
  switch_client yes ck which cfg = inl cfg' ->
  same_but_net cfg cfg' /\ rewired (net cfg) (net cfg').
Proof.
  unfold switch_client. intros (x & E & [= <-])%res_bind_inl. split; [done|]. cbn.
  eapply loop_rewired; [|exact E]. by intros t y y' (s & _ & [= <-])%res_bind_inl.
Qed.

(** The new ends of a clerk. *)
Lemma kv_makeClient_wired ck names draws to cfg cfg' handles :
  wired cfg -> rows_set cfg -> length names = k -> makeClient ck names draws to cfg = inl (cfg', handles) ->
  wired cfg' /\ rows_set cfg'.
Proof.
  intros Hw Hr Hlen. unfold makeClient, All. rewrite (w_n _ Hw).
  intros (x & [Esv Enew _ Eold _]%make_ends_made & (hs & _ & (c1 & E1 & [= <- _])%res_bind_inl)%res_bind_inl)%res_bind_inl.
  apply switch_client_rewired in E1 as [Hs R]. set (c0 := with_clerks _ _ _) in *.
  assert (forall a b e, named (endnames cfg) a b e -> e ∈ ends (net cfg)) as Hin
    by (intros a b e Hn; apply (w_named _ Hw _ _ _ Hn)).
  cut (wired c0); [intros H0; split; [by eapply kv_wired_rewired|by eapply (rows_same c0)]|].
  split; cbn; try apply Hw.
  - intros i j e Hn. destruct (w_named _ Hw i j e Hn) as [He Hc].
    by destruct (Eold e He) as (? & -> & _).
  - intros ck' row j nm. destruct (decide (ck' = ck)) as [->|Hne].
    + rewrite lookup_insert_eq. intros [= <-] Hnm.
      destruct (Enew j nm) as (? & Hno & ? & _); [|done|].
      { apply elem_of_zrange. apply zget_Some_lt in Hnm. unfold zlen in Hnm. lia. }
      split_and!; [done|done|]. intros a b Hn. by apply Hno, (Hin a b).
    + rewrite lookup_insert_ne by done. intros Hrow Hnm.
      destruct (w_clerk _ Hw ck' row j nm Hrow Hnm) as (He & Hc & Hno).
      by destruct (Eold _ He) as (? & -> & _).
  - intros i Hi. unfold serverAt, running. cbn. rewrite Esv. by apply (w_server _ Hw).
Qed.

(** ** Shutdown and restart *)

Lemma kv_ShutdownServer_wired i cfg cfg' :
  wired cfg -> ShutdownServer i cfg = inl cfg' ->
  wired cfg' /\ endnames cfg' = endnames cfg /\ running cfg' i = false.
Proof.
  intros Hw. unfold ShutdownServer.
  intros (c1 & [Hs R]%disconnectUnlocked_rewired & (fs & _ & (live & Hlive%idx_inl & (l & El & [= <-])%res_bind_inl)%res_bind_inl)%res_bind_inl)%res_bind_inl.
  cbn in Hlive, El. assert (wired c1) as Hw1 by (by eapply kv_wired_rewired).
  assert (l = <[Z.to_nat i := false]> (alive c1)) as ->.
  { destruct live; [by apply upd_inl in El as [_ ->]|]. injection El as <-. symmetry.
    apply list_insert_id. by apply zget_Some_lookup in Hlive as [_ ?]. }
  apply zget_Some_lt in Hlive. split; [|split].
  - destruct Hw1. split; try done; cbn.
    + by rewrite length_insert.
    + intros j Hj. unfold serverAt, running. cbn. rewrite zget_insert.
      destruct (decide (j = i)) as [->|Hne].
      * rewrite lookup_insert_eq, decide_True by (unfold zlen in *; lia). cbn.
        split; [by intros []|done].
      * rewrite lookup_insert_ne, decide_False by (congruence || lia). by apply w_server0.
  - cbn. by rewrite Hs.
  - unfold running. cbn. rewrite zget_insert. by rewrite decide_True by (unfold zlen in *; lia).
Qed.

(** A server with all its ends made replaces the former instance. *)
Lemma kv_StartServer_wired i names srv cfg cfg' :
  wired cfg -> length names = k -> StartServer i names srv cfg = inl cfg' ->
  wired cfg' /\ 0 <= i < Z.of_nat k /\
  endnames cfg' = <[Z.to_nat i := Some names]> (endnames cfg).
Proof.
  intros Hw Hlen. unfold StartServer, All. rewrite (w_n _ Hw).
  intros (es & [He ->]%upd_inl & (x & [Esv Enew Einj Eold _]%make_ends_made & (p & _ & (fs & _ & (l & [_ ->]%upd_inl & [= <-])%res_bind_inl)%res_bind_inl)%res_bind_inl)%res_bind_inl)%res_bind_inl.
  pose proof (w_alive _ Hw) as Hal. pose proof (w_endnames _ Hw) as Hen.
  set (c' := with_net _ _).
  assert (forall a b e, named (endnames c') a b e <->
    (a = i /\ exists nm, zget names b = Some nm /\ e = inl nm) \/ (a <> i /\ named (endnames cfg) a b e))
    as Hnamed by (intros; apply named_replaced; unfold zlen in *; lia).
  assert (forall j nm, zget names j = Some nm -> j ∈ zrange k) as Hin.
  { intros j nm H%zget_Some_lt. apply elem_of_zrange. unfold zlen in H. lia. }
  split; [|split; [unfold zlen in He; lia|done]]. split.
  - apply Hw.
  - cbn. by rewrite length_insert.
  - cbn. by rewrite length_insert.
  - cbn. intros j row. rewrite zget_insert. case_decide; [by intros [= <-]|apply (w_row _ Hw)].
  - intros a b e. unfold connection in *. cbn in *.
    intros [(-> & nm & Hnm & ->)|[Hne Hn]]%Hnamed.
    + destruct (Enew b nm (Hin _ _ Hnm) Hnm) as (? & _ & ? & ?). done.
    + destruct (w_named _ Hw a b e Hn) as (He' & Hc). destruct (Eold e He') as (? & -> & _). done.
  - intros a b a' b' e [(-> & nm & Hnm & ->)|[Hne Hn]]%Hnamed [(-> & nm' & Hnm' & E)|[Hne' Hn']]%Hnamed.
    + injection E as <-. split; [done|]. by eapply Einj; eauto.
    + destruct (Enew b nm (Hin _ _ Hnm) Hnm) as (_ & Hno & _). by destruct (w_named _ Hw _ _ _ Hn').
    + subst e. destruct (Enew b' nm' (Hin _ _ Hnm') Hnm') as (_ & Hno & _).
      by destruct (w_named _ Hw _ _ _ Hn).
    + by eapply w_inj.
  - intros ck row j nm Hrow Hnm. destruct (w_clerk _ Hw ck row j nm Hrow Hnm) as (He' & Hc & Hno).
    unfold connection in *. cbn in *. destruct (Eold _ He') as (? & -> & _). split_and!; [done|done|].
    intros a b [(-> & nm' & Hnm' & [= <-])|[_ Hn]]%Hnamed; [|by apply (Hno a b)].
    by destruct (Enew b nm (Hin _ _ Hnm') Hnm') as (_ & ? & _).
  - intros j Hj. unfold serverAt, running. cbn. rewrite Esv, zget_insert.
    destruct (decide (j = i)) as [->|Hne].
    + rewrite lookup_insert_eq, decide_True by (unfold zlen in *; lia). cbn. by split; [|eexists].
    + rewrite lookup_insert_ne, decide_False by (congruence || lia). by apply (w_server _ Hw).
Qed.

Lemma rows_set_insert i names cfg cfg' (P : Z -> Prop) :
  wired cfg -> 0 <= i < Z.of_nat k -> endnames cfg' = <[Z.to_nat i := Some names]> (endnames cfg) ->
  (forall j, P j -> exists row, zget (endnames cfg) j = Some (Some row)) ->
  forall j, j = i \/ P j -> exists row, zget (endnames cfg') j = Some (Some row).
Proof.
  intros Hw Hi -> HP j Hj. pose proof (w_endnames _ Hw). rewrite zget_insert. case_decide; [by eexists|].
  destruct Hj as [->|Hj]; [|by apply HP]. exfalso. lia.
Qed.

Lemma connectUnlocked_wired i to cfg cfg' :
  wired cfg -> connectUnlocked i to cfg = inl cfg' -> wired cfg' /\ (rows_set cfg -> rows_set cfg').
Proof.
  intros Hw [Hs [R _]]%connectUnlocked_switched. split; [by eapply kv_wired_rewired|].
  intros Hr. by eapply rows_same.
Qed.

Lemma ConnectAll_wired cfg cfg' :
  wired cfg -> rows_set cfg -> ConnectAll cfg = inl cfg' -> wired cfg' /\ rows_set cfg'.
Proof.
  intros Hw Hr. apply (loop_ok (fun _ c => wired c /\ rows_set c)); [done|].
  intros pre i c c' [Hc Hrc] E. destruct (connectUnlocked_wired _ _ _ _ Hc E). auto.
Qed.

Lemma kv_make_config_wired unreliable own names srvs cfg :
  (forall i, length (names i) = k) -> make_config k unreliable own names srvs = inl cfg ->
  wired cfg /\ rows_set cfg.
Proof.
  intros Hn. unfold make_config. set (c0 := Build_config _ _ _ _ _ _ _ _).
  intros (c1 & E1 & (c2 & E2 & [= <-])%res_bind_inl)%res_bind_inl.
  assert (forall A (x : A) i y, zget (replicate k x) i = Some y -> y = x) as Hrep
    by (intros A x i y [_ [? _]%lookup_replicate_1]%zget_Some_lookup; done).
  assert (wired c0) as Hw0.
  { split; cbn; try apply length_replicate; try done.
    - by intros i row ?%Hrep.
    - by intros i j e (row & nm & ?%Hrep & _).
    - by intros i j i' j' e (row & nm & ?%Hrep & _).
    - intros i Hi. unfold serverAt, running. cbn. rewrite lookup_empty.
      destruct (zget (replicate k false) i) eqn:E; [apply Hrep in E as ->|]; cbn;
        by split; [intros []|]. }
  assert (wired c1 /\ rows_set c1) as [Hw1 Hr1].
  - set (P := fun (pre : list Z) c => wired c /\
      forall j, j ∈ pre -> exists row, zget (endnames c) j = Some (Some row)).
    cut (P (zrange k) c1); [intros [Hw Hr]; split; [done|]; intros i Hi; by apply Hr, elem_of_zrange|].
    revert E1. apply (loop_ok P); [split; [done|]; by intros j ?%not_elem_of_nil|].
    intros pre i c c' [Hc HP] E. destruct (kv_StartServer_wired _ _ _ _ _ Hc (Hn i) E) as (Hc' & Hi & En).
    split; [done|]. intros j [Hj| ->%list_elem_of_singleton]%elem_of_app;
      apply (rows_set_insert i (names i) c c' (fun j => j ∈ pre) Hc Hi En HP); [by right|by left].
  - apply ConnectAll_wired in E2 as [Hw2 Hr2]; [|done..].
    split; [|done]. destruct Hw2. split; done.
Qed.

Lemma partition_wired p1 p2 cfg cfg' :
  wired cfg -> rows_set cfg -> partition p1 p2 cfg = inl cfg' -> wired cfg' /\ rows_set cfg'.
Proof.
  intros Hw Hr. unfold partition. intros (c1 & E1 & E2)%res_bind_inl.
  assert (forall there here l c c', wired c /\ rows_set c ->
    loop (fun i cfg => cfg ← disconnectUnlocked i there cfg; connectUnlocked i here cfg) l c = inl c' ->
    wired c' /\ rows_set c') as Hl; [|by eauto].
  intros there here l c c' Hc. apply (loop_ok (fun _ c => wired c /\ rows_set c)); [done|].
  intros pre i b b' [Hb Hrb] (b1 & [Hs R]%disconnectUnlocked_rewired & E)%res_bind_inl.
  assert (wired b1) as Hb1 by (by eapply kv_wired_rewired).
  destruct (connectUnlocked_wired _ _ _ _ Hb1 E) as [? H]. split; [done|]. by eapply H, rows_same.
Qed.

Lemma kv_harness_wired cfg : harness cfg -> wired cfg /\ rows_set cfg.
Proof.
  induction 1 as [u o names srvs cfg Hn E|i names srv cfg cfg' _ [IH Hr] Hn E|i cfg cfg' _ [IH Hr] E|
    i to cfg cfg' _ [IH Hr] E|i from cfg cfg' _ [IH Hr] E|cfg cfg' _ [IH Hr] E|p1 p2 cfg cfg' _ [IH Hr] E|
    ck names draws to cfg cfg' hs _ [IH Hr] Hn E|ck to cfg cfg' _ [IH Hr] E|
    ck from cfg cfg' _ [IH Hr] E|ck cfg _ [IH Hr]|o cfg _ [IH Hr]].
  - by eapply kv_make_config_wired.
  - destruct (kv_StartServer_wired _ _ _ _ _ IH Hn E) as (Hw & Hi & En). split; [done|].
    intros j Hj. apply (rows_set_insert i names cfg cfg' _ IH Hi En Hr). by right.
  - destruct (kv_ShutdownServer_wired _ _ _ IH E) as (Hw & En & _). split; [done|].
    unfold rows_set. by rewrite En.
  - destruct (connectUnlocked_wired _ _ _ _ IH E). auto.
  - apply disconnectUnlocked_rewired in E as [Hs R].
    split; [by eapply kv_wired_rewired|by eapply rows_same].
  - by eapply ConnectAll_wired.
  - by eapply partition_wired.
  - by eapply kv_makeClient_wired.
  - apply switch_client_rewired in E as [Hs R]. split; [by eapply kv_wired_rewired|by eapply rows_same].
  - apply switch_client_rewired in E as [Hs R]. split; [by eapply kv_wired_rewired|by eapply rows_same].
  - split; [|done]. destruct IH. split; try done. cbn. intros ck' row j nm.
    rewrite lookup_delete_Some. intros [_ H]. by eapply w_clerk0.
  - split; [|done]. destruct IH. by split.
Qed.

(** ** The leader in a minority *)

Lemma find_leader_in read l cfg b i : find_leader read l cfg = inl (b, i) -> i ∈ l \/ i = 0.
Proof.
  induction l as [|a l IH]; cbn; [intros [= <- <-]; by right|].
  intros (live & _ & E)%res_bind_inl. destruct live; [|done]. destruct (read a).
  - injection E as <- <-. left. by left.
  - destruct (IH E); [left; by right|by right].
Qed.

Lemma reaches_named cfg i j e :
  wired cfg -> named (endnames cfg) i j e ->
  (reaches (net cfg) e <-> isEnabled e (net cfg) = true /\ running cfg j = true).
Proof.
  intros Hw Hn. rewrite reaches_spec. destruct (w_named _ Hw i j e Hn) as [_ ->].
  destruct (kv_named_range _ _ _ _ Hw Hn) as [_ Hj]. rewrite <- (w_server _ Hw j Hj). naive_solver.
Qed.

Lemma split_partition cfg h l :
  k = (2 * h + 1)%nat -> (1 <= h)%nat -> 0 <= l < Z.of_nat k -> harness cfg ->
  exists p1 p2 cfg', split_servers l cfg = inl (p1, p2) /\ partition p1 p2 cfg = inl cfg' /\
    length p1 = (h + 1)%nat /\ l ∈ p2 /\ p1 ++ p2 ≡ₚ zrange k /\
    (forall i j e, named (endnames cfg') i j e ->
       (reaches (net cfg') e <-> (i ∈ p1 <-> j ∈ p1) /\ running cfg' j = true)) /\
    (forall ck row nm, clerks cfg' !! ck = Some row -> nm ∈ row ->
       (reaches (net cfg') (inl nm) <-> reaches (net cfg) (inl nm))).
Proof.
  intros Hk Hh Hl [Hw Hr]%kv_harness_wired. pose proof (w_n _ Hw) as Hn.
  destruct (split_servers_odd cfg h l) as (p1 & p2 & E & Hp1 & HP); [congruence|done|congruence|].
  rewrite Hn in HP. destruct (partition_steered p1 (p2 ++ [l]) cfg Hw Hr HP) as (cfg' & Ep & [Hs R] & Hon & Hoff).
  exists p1, (p2 ++ [l]), cfg'. split; [done|]. split; [done|]. split; [done|].
  split; [apply elem_of_app; right; by left|]. split; [done|].
  assert (wired cfg') as Hw' by (by eapply kv_wired_rewired).
  assert (endnames cfg' = endnames cfg) as En by (by rewrite Hs). split.
  - intros i j e Hnm. rewrite (reaches_named _ i j) by done. rewrite En in Hnm. rewrite (Hon i j) by done.
    rewrite eqb_true_iff. do 2 case_bool_decide; naive_solver.
  - intros ck row nm Hrow [p Hp]%list_elem_of_lookup. assert (clerks cfg !! ck = Some row) as Hrow'
      by (rewrite Hs in Hrow; exact Hrow).
    destruct (w_clerk _ Hw ck row (Z.of_nat p) nm) as (_ & _ & Hno); [done| |].
    { apply zget_Some_lookup. split; [lia|]. by rewrite Nat2Z.id. }
    rewrite !reaches_spec, (Hoff (inl nm) Hno). unfold connection, serverAt.
    by rewrite (re_connections _ _ R), (re_servers _ _ R).
Qed.

(** C23: [make_partition] and [partition] isolate the leader.  In every configuration of
    an odd number of at least three servers that [make_config], restarts, shutdowns,
    connections, partitions and clerks lead to, if [Leader] comes back, [make_partition]
    gives a majority without the server that [Leader] names and a minority with it,
    every server in exactly one of them; [partition] does not panic; and afterwards a
    request on the present end of server [i] towards server [j] gets through exactly if
    they are on the same side and [j] is running, while the requests of the clerks get
    through exactly as before. *)
Theorem partition_isolates_leader cfg read b l h :
  harness cfg -> k = (2 * h + 1)%nat -> (1 <= h)%nat -> Leader read cfg = inl (b, l) ->
  exists p1 p2 cfg', make_partition read cfg = inl (p1, p2) /\ partition p1 p2 cfg = inl cfg' /\
    length p1 = (h + 1)%nat /\ l ∈ p2 /\ p1 ++ p2 ≡ₚ zrange k /\
    (forall i j e, named (endnames cfg') i j e ->
       (reaches (net cfg') e <-> (i ∈ p1 <-> j ∈ p1) /\ running cfg' j = true)) /\
    (forall ck row nm, clerks cfg' !! ck = Some row -> nm ∈ row ->
       (reaches (net cfg') (inl nm) <-> reaches (net cfg) (inl nm))).
Proof.
  intros Hc Hk Hh HL. unfold make_partition. rewrite HL. cbn [mbind res_bind].
  apply (split_partition cfg h l); try done.
  unfold Leader, All in HL. rewrite (w_n _ (proj1 (kv_harness_wired _ Hc))) in HL.
  apply find_leader_in in HL as [?%elem_of_zrange| ->]; lia.
Qed.
End wires.

(** Three servers, of which number 1 leads. *)
Module Isolated.
Definition endname (i j : Z) : string :=
  String.String (Ascii.ascii_of_nat (Z.to_nat (3 * i + j))) EmptyString.
Definition names (i : Z) : list string := endname i <$> [0; 1; 2].
Definition read (i : Z) : bool := i =? 1.

Lemma made : exists cfg : config unit, harness 3 cfg /\
  Leader read cfg = inl (true, 1) /\ make_partition read cfg = inl ([0; 2], [1]).
Proof.
  assert (match make_config 3 false tt names Z.to_nat with
          | inl cfg => (n cfg, alive cfg) | inr _ => (0%nat, []) end
    = (3%nat, [true; true; true])) as E by (vm_compute; reflexivity).
  destruct (make_config 3 false tt names Z.to_nat) as [cfg|] eqn:Ec; [|discriminate E].
  injection E as En Ea. exists cfg. split.
  { eapply h_make; [|exact Ec]. intros i. apply length_fmap. }
  unfold make_partition, split_servers, Leader, All. rewrite En.
  cbn [zrange find_leader]. unfold find_leader, zrange. cbn. rewrite Ea. by split.
Qed.
End Isolated.

Lemma partition_isolates_leader_witness :
  exists cfg cfg' : config unit, harness 3 cfg /\ partition [0; 2] [1] cfg = inl cfg' /\
    (forall e, named (endnames cfg') 1 0 e -> ~ reaches (net cfg') e) /\
    (forall e, named (endnames cfg') 0 2 e -> running cfg' 2 = true -> reaches (net cfg') e).
Proof.
  destruct Isolated.made as (cfg & Hc & HL & Hm).
  destruct (partition_isolates_leader 3 cfg Isolated.read true 1 1 Hc) as
    (p1 & p2 & cfg' & E & Ep & _ & _ & _ & Hn & _); [done|lia|done|].
  rewrite Hm in E. injection E as <- <-. exists cfg, cfg'. split; [done|]. split; [done|]. split.
  - intros e He Hr. apply (Hn 1 0 e He) in Hr as [[_ H] _]. specialize (H ltac:(by left)).
    set_solver.
  - intros e He Hr. apply (Hn 0 2 e He). split; [|done]. set_solver.
Defined.
