(* ===== verification/CtrlConfig.v ===== *)
(** * The test harness of the shard controller (src/src/shardctrler/config.go)

    The file repeats src/src/kvraft/config.go without the statistics: a [config] has no
    fields of its own, and its operations are those of KVConfig, at this type.  Only
    [Leader] is different: it passes over servers that are shut down. *)
From S2P Require Import Prelude Persister LabRPC Harness HarnessProps KVConfig KVConfigProps KVConfigNet.
#[local] Open Scope Z_scope.

Module CtrlConfig.
Import Harness.

Definition config : Type := KVConfig.config unit.
Implicit Types cfg : config.

Definition random_handles {A} : list Z -> list A -> Res (list A) := KVConfig.random_handles.
Definition cleanup : bool -> Z -> config -> Res config := KVConfig.cleanup.
Definition LogSize : config -> Res Z := KVConfig.LogSize.
Definition connectUnlocked : Z -> list Z -> config -> Res config := KVConfig.connectUnlocked.
Definition connect : Z -> list Z -> config -> Res config := KVConfig.connect.
Definition disconnectUnlocked : Z -> list Z -> config -> Res config := KVConfig.disconnectUnlocked.
Definition disconnect : Z -> list Z -> config -> Res config := KVConfig.disconnect.
Definition All : config -> list Z := KVConfig.All.
Definition ConnectAll : config -> Res config := KVConfig.ConnectAll.
Definition partition : list Z -> list Z -> config -> Res config := KVConfig.partition.
Definition makeClient : nat -> list string -> list Z -> list Z -> config -> Res (config * list string) :=
  KVConfig.makeClient.
Definition deleteClient : nat -> config -> config := KVConfig.deleteClient.
Definition ConnectClientUnlocked : nat -> list Z -> config -> Res config := KVConfig.ConnectClientUnlocked.
Definition ConnectClient : nat -> list Z -> config -> Res config := KVConfig.ConnectClient.
Definition DisconnectClientUnlocked : nat -> list Z -> config -> Res config :=
  KVConfig.DisconnectClientUnlocked.
Definition DisconnectClient : nat -> list Z -> config -> Res config := KVConfig.DisconnectClient.
Definition ShutdownServer : Z -> config -> Res config := KVConfig.ShutdownServer.
Definition StartServer : Z -> list string -> nat -> config -> Res config := KVConfig.StartServer.

(** The first running server that says it is the leader. *)
Fixpoint find_leader (read : Z -> bool) (l : list Z) cfg : Res (bool * Z) :=
  match l with
  | [] => inl (false, 0)
  | i :: l =>
      live ← idx (KVConfig.alive cfg) i;
      if (live : bool) && read i then inl (true, i) else find_leader read l cfg
  end.
Definition Leader (read : Z -> bool) cfg : Res (bool * Z) := find_leader read (All cfg) cfg.

Definition make_partition (read : Z -> bool) cfg : Res (list Z * list Z) :=
  '(_, l) ← Leader read cfg;
  KVConfig.split_servers l cfg.

Definition make_config (k : nat) (unreliable : bool) (names : Z -> list string) (srvs : Z -> nat) :
    Res config := KVConfig.make_config k unreliable tt names srvs.
End CtrlConfig.
Import Harness CtrlConfig.

(** Where no server is shut down, the two ways to look for a leader agree; where one is,
    the harness of the key/value store may stop at a nil pointer. *)
Lemma find_leader_same read l (cfg : config) r :
  KVConfig.find_leader read l cfg = inl r -> find_leader read l cfg = inl r.
Proof.
  induction l as [|i l IH]; cbn; [done|]. destruct (idx (KVConfig.alive cfg) i) as [live|]; cbn; [|done].
  destruct live; cbn; [|done]. destruct (read i); auto.
Qed.

Lemma find_leader_total read l k (cfg : config) :
  length (KVConfig.alive cfg) = k -> (forall i, i ∈ l -> 0 <= i < Z.of_nat k) ->
  exists b i, find_leader read l cfg = inl (b, i) /\ (i ∈ l \/ i = 0) /\
    (b = true -> running cfg i = true /\ read i = true).
Proof.
  intros Hk. induction l as [|i l IH]; intros Hl; cbn; [by exists false, 0; split_and!; auto|].
  destruct (zget_in_range (KVConfig.alive cfg) i) as [live Hi];
    [unfold zlen; rewrite Hk; apply Hl; by left|].
  rewrite (idx_Some _ _ _ Hi). cbn. destruct (live && read i) eqn:E.
  - apply andb_true_iff in E as [-> E]. exists true, i. split; [done|]. split; [left; by left|].
    intros _. unfold running. by rewrite Hi.
  - destruct IH as (b & j & -> & Hj & Hb); [intros j ?; apply Hl; by right|].
    exists b, j. split; [done|]. split; [|done]. destruct Hj; [left; by right|by right].
Qed.

(** [make_partition] never panics with an odd number of at least three servers,
    whoever is shut down, and isolates the leader that [Leader] found. *)
Theorem ctrl_partition_isolates_leader k (cfg : config) read h :
  harness k cfg -> k = (2 * h + 1)%nat -> (1 <= h)%nat ->
  exists b l p1 p2 cfg', Leader read cfg = inl (b, l) /\ make_partition read cfg = inl (p1, p2) /\
    partition p1 p2 cfg = inl cfg' /\ length p1 = (h + 1)%nat /\ l ∈ p2 /\ p1 ++ p2 ≡ₚ zrange k /\
    (forall i j e, named (KVConfig.endnames cfg') i j e ->
       (reaches (KVConfig.net cfg') e <-> (i ∈ p1 <-> j ∈ p1) /\ running cfg' j = true)).
Proof.
  intros Hc Hk Hh. destruct (kv_harness_wired _ _ Hc) as [Hw _].
  destruct (find_leader_total read (zrange k) k cfg) as (b & l & HL & Hl & _);
    [apply Hw|by intros i Hi%elem_of_zrange|].
  destruct (split_partition k cfg h l Hk Hh) as (p1 & p2 & cfg' & E & Ep & ? & ? & ? & ? & _); [|done|].
  { destruct Hl as [?%elem_of_zrange| ->]; lia. }
  assert (Leader read cfg = inl (b, l)) as HL'
    by (unfold Leader, All, KVConfig.All; by rewrite (w_n _ _ Hw)).
  exists b, l, p1, p2, cfg'. split; [exact HL'|]. split; [|done].
  unfold make_partition. by rewrite HL'.
Qed.
