(* ===== verification/SKVConfig.v ===== *)
(** * The test harness of the sharded store (src/src/shardkv/config.go)

    Three controllers and three groups of servers on one network of LabRPC, on which
    servers and clerks have names.  The servers are outside: [true] stands for a pointer
    that is not nil.  So are the clerks: a [*Clerk] is a number, the clerk of the
    controller is given by the names of its ends.  Random strings are arguments. *)
From stdpp Require Import pretty.
From S2P Require Import Prelude Persister LabRPC Harness.
#[local] Open Scope Z_scope.

Module SKVConfig.
Import LabRPC Harness.

Record group := {
  gid : Z;
  servers : list bool;
  files : Files;                             (* [saved] *)
  endnames : list (option (list string));
  mendnames : list (option (list string));
}.
Implicit Types gg : group.

Record config := {
  net : Net;
  nctrlers : nat;
  ctrlerservers : list bool;
  mck : list string;
  ngroups : nat;
  n : nat;                                   (* servers per k/v group *)
  groups : list (option group);
  clerks : gmap nat (list string);
  nextClientId : Z;
  maxraftstate : Z;
}.
Implicit Types cfg : config.

Definition with_net x cfg : config :=
  {| net := x; nctrlers := nctrlers cfg; ctrlerservers := ctrlerservers cfg; mck := mck cfg;
     ngroups := ngroups cfg; n := n cfg; groups := groups cfg; clerks := clerks cfg;
     nextClientId := nextClientId cfg; maxraftstate := maxraftstate cfg |}.
Definition with_ctrlers x c m cfg : config :=
  {| net := x; nctrlers := nctrlers cfg; ctrlerservers := c; mck := m;
     ngroups := ngroups cfg; n := n cfg; groups := groups cfg; clerks := clerks cfg;
     nextClientId := nextClientId cfg; maxraftstate := maxraftstate cfg |}.
Definition with_groups x k m gs cfg : config :=
  {| net := x; nctrlers := nctrlers cfg; ctrlerservers := ctrlerservers cfg; mck := mck cfg;
     ngroups := m; n := k; groups := gs; clerks := clerks cfg;
     nextClientId := nextClientId cfg; maxraftstate := maxraftstate cfg |}.
Definition with_clerks x cs k cfg : config :=
  {| net := x; nctrlers := nctrlers cfg; ctrlerservers := ctrlerservers cfg; mck := mck cfg;
     ngroups := ngroups cfg; n := n cfg; groups := groups cfg; clerks := cs;
     nextClientId := k; maxraftstate := maxraftstate cfg |}.

(** [cfg.groups[gi]]; a nil group cannot be used. *)
Definition group_at (gi : Z) cfg : Res group := g ← idx (groups cfg) gi; lift g.
Definition set_group (gi : Z) gg x cfg : Res config :=
  gs ← upd (groups cfg) gi (Some gg);
  inl (with_groups x (n cfg) (ngroups cfg) gs cfg).

(** check that no server's log is too big. *)
Definition checklogs cfg : Res unit :=
  loop (fun gi _ => loop (fun i _ =>
    gg ← group_at gi cfg;
    p ← idx (saved (files gg)) i;
    a ← lift p;
    let size := Persister.RaftStateSize (persister_at a (files gg)) in
    let snap := zlen (Persister.ReadSnapshot (persister_at a (files gg))) in
    if (0 <=? maxraftstate cfg) && (8 * maxraftstate cfg <? size)
    then inr (Fatal (LogTooBig size (maxraftstate cfg)))
    else if (maxraftstate cfg <? 0) && (0 <? snap) then inr (Fatal SnapshotNotEmpty)
    else inl tt) (zrange (n cfg)) tt) (zrange (ngroups cfg)) tt.

(** controler server name for labrpc. *)
Definition ctrlername (i : Z) : string := "ctrler" +:+ pretty i.
(** shard server name for labrpc. *)
Definition servername (gid i : Z) : string := "server-" +:+ pretty gid +:+ "-" +:+ pretty i.

(** ** Ends *)

(** [MakeEnd], [Connect] and [Enable]; also the function [make_end] of servers and clerks. *)
Definition open_end (nm : string) (target : string) (x : Net) : Res Net :=
  x ← make_end nm (inl target) x;
  inl (Enable (inl nm) true x).
Definition open_ends (names : list string) (target : Z -> string) (l : list Z) (x : Net) : Res Net :=
  loop (fun j x => nm ← idx names j; open_end nm (target j) x) l x.

(** [make_end] of a server or clerk, which may call it at any time. *)
Definition client_end (nm servername : string) cfg : Res config :=
  x ← open_end nm servername (net cfg);
  inl (with_net x cfg).

Definition makeClient (ck : nat) (names : Z -> string) cfg : Res config :=
  '(endnames, x) ← loop (fun j '(endnames, x) =>
      endnames ← upd endnames j (names j);
      x ← open_end (names j) (ctrlername j) x;
      inl (endnames, x))
    (zrange (nctrlers cfg)) (replicate (n cfg) EmptyString, net cfg);
  inl (with_clerks x (<[ck := endnames]> (clerks cfg)) (nextClientId cfg + 1) cfg).

Definition deleteClient (ck : nat) cfg : config :=
  with_clerks (net cfg) (delete ck (clerks cfg)) (nextClientId cfg) cfg.

(** ** Servers *)

(** Shutdown i'th server of gi'th group, by isolating it *)
Definition ShutdownServer (gi i : Z) cfg : Res config :=
  gg ← group_at gi cfg;
  x ← loop (fun j x => Enable_end (endnames gg) i j false x) (zrange (length (servers gg))) (net cfg);
  row ← idx (mendnames gg) i;
  x ← loop (fun nm x => inl (Enable (inl nm) false x)) (default [] row) x;
  let x := DeleteServer (inl (servername (gid gg) i)) x in
  fs ← copy_saved i (files gg);
  live ← idx (servers gg) i;
  l ← (if (live : bool) then upd (servers gg) i false else inl (servers gg));
  set_group gi {| gid := gid gg; servers := l; files := fs; endnames := endnames gg;
                  mendnames := mendnames gg |} x cfg.
Definition ShutdownGroup (gi : Z) cfg : Res config :=
  loop (fun i cfg => ShutdownServer gi i cfg) (zrange (n cfg)) cfg.

(** start i'th server in gi'th group *)
Definition StartServer (gi i : Z) (names mnames : Z -> string) (srv : nat) cfg : Res config :=
  gg ← group_at gi cfg;
  let row := names <$> zrange (n cfg) in
  let mrow := mnames <$> zrange (nctrlers cfg) in
  es ← upd (endnames gg) i (Some row);
  x ← open_ends row (servername (gid gg)) (zrange (n cfg)) (net cfg);
  ms ← upd (mendnames gg) i (Some mrow);
  x ← open_ends mrow ctrlername (zrange (nctrlers cfg)) x;
  p ← idx (saved (files gg)) i;
  fs ← match p with
       | Some _ => copy_saved i (files gg)
       | None => store_new i Persister.MakePersister (files gg)
       end;
  l ← upd (servers gg) i true;
  set_group gi {| gid := gid gg; servers := l; files := fs; endnames := es; mendnames := ms |}
    (AddServer (inl (servername (gid gg) i)) srv x) cfg.
Definition StartGroup (gi : Z) (names mnames : Z -> Z -> string) (srvs : Z -> nat) cfg : Res config :=
  loop (fun i cfg => StartServer gi i (names i) (mnames i) (srvs i) cfg) (zrange (n cfg)) cfg.

Definition StartCtrlerserver (i : Z) (names : Z -> string) (srv : nat) cfg : Res config :=
  x ← open_ends (names <$> zrange (nctrlers cfg)) ctrlername (zrange (nctrlers cfg)) (net cfg);
  l ← upd (ctrlerservers cfg) i true;
  inl (with_ctrlers (AddServer (inl (ctrlername i)) srv x) l (mck cfg) cfg).

(** The ends of a new clerk of the controller. *)
Definition shardclerk (names : Z -> string) cfg : Res (Net * list string) :=
  let row := names <$> zrange (nctrlers cfg) in
  x ← open_ends row ctrlername (zrange (nctrlers cfg)) (net cfg);
  inl (x, row).

Definition cleanup (failed : bool) (seconds : Z) cfg : Res config :=
  cfg ← loop (fun gi cfg => ShutdownGroup gi cfg) (zrange (ngroups cfg)) cfg;
  _ ← loop (fun i _ => live ← idx (ctrlerservers cfg) i;
              if (live : bool) then inl tt else inr Panic) (zrange (nctrlers cfg)) tt;
  x ← stop (net cfg);
  _ ← checkTimeout failed seconds;
  inl (with_net x cfg).

(** ** Groups that join and leave *)

(** tell the shardctrler that groups are joining: the argument of [mck.Join]. *)
Definition joinm (gis : list Z) cfg : Res (gmap Z (list string)) :=
  loop (fun g m =>
    gg ← group_at g cfg;
    inl (<[gid gg := servername (gid gg) <$> zrange (n cfg)]> m)) gis ∅.
Definition join (gi : Z) cfg : Res (gmap Z (list string)) := joinm [gi] cfg.

(** tell the shardctrler that groups are leaving: the argument of [mck.Leave]. *)
Definition leavem (gis : list Z) cfg : Res (list Z) :=
  loop (fun g gids => gg ← group_at g cfg; inl (gids ++ [gid gg])) gis [].
Definition leave (gi : Z) cfg : Res (list Z) := leavem [gi] cfg.

(** ** The whole *)

(** One round of the loop over the groups. *)
Definition make_group (names mnames : Z -> Z -> string) (srvs : Z -> nat) (gi : Z) cfg : Res config :=
  let gg := {| gid := 100 + gi; servers := replicate (n cfg) false; files := no_files (n cfg);
               endnames := replicate (n cfg) None; mendnames := replicate (nctrlers cfg) None |} in
  cfg ← set_group gi gg (net cfg) cfg;
  StartGroup gi names mnames srvs cfg.

Definition make_config (k : nat) (unreliable : bool) (maxraft : Z)
    (cnames : Z -> Z -> string) (csrvs : Z -> nat) (cknames : Z -> string)
    (names mnames : Z -> Z -> Z -> string) (srvs : Z -> Z -> nat) : Res config :=
  let cfg :=
    {| net := MakeNetwork; nctrlers := 3; ctrlerservers := replicate 3 false; mck := [];
       ngroups := 0; n := 0; groups := []; clerks := ∅; nextClientId := 0;
       maxraftstate := maxraft |} in
  cfg ← loop (fun i cfg => StartCtrlerserver i (cnames i) (csrvs i) cfg) (zrange (nctrlers cfg)) cfg;
  '(x, row) ← shardclerk cknames cfg;
  let cfg := with_ctrlers x (ctrlerservers cfg) row cfg in
  let cfg := with_groups (net cfg) k 3 (replicate 3 None) cfg in
  cfg ← loop (fun gi cfg => make_group (names gi) (mnames gi) (srvs gi) gi cfg)
          (zrange (ngroups cfg)) cfg;
  let cfg := with_clerks (net cfg) ∅ (Z.of_nat (n cfg) + 1000) cfg in
  inl (with_net (Reliable (negb unreliable) (net cfg)) cfg).
End SKVConfig.
