(* ===== verification/SKVConfigProps.v ===== *)
(** * The test harness of the sharded store: who can talk to whom

    In every configuration the harness can reach, the present ends of a server are on
    exactly while it runs, and lead to the servers of its own group and to the
    controllers; the names that [joinm] tells the controller are those of the servers. *)
From stdpp Require Import pretty.
From S2P Require Import Prelude Persister MrStrings LabRPC Harness HarnessProps SKVConfig.
Import LabRPC Harness SKVConfig.
#[local] Open Scope Z_scope.

(** ** Names *)

Lemma servername_inj g i g' i' :
  0 <= g -> 0 <= i -> 0 <= g' -> 0 <= i' -> servername g i = servername g' i' -> g = g' /\ i = i'.
Proof. intros ? ? ? ? E. apply (String.app_inj "server-") in E. by apply dashed_inj. Qed.

Lemma servername_ctrlername g i j : servername g i <> ctrlername j.
Proof. unfold servername, ctrlername. by cbn. Qed.

Lemma zget_fmap_zrange {A} (f : Z -> A) m i x :
  zget (f <$> zrange m) i = Some x <-> 0 <= i < Z.of_nat m /\ x = f i.
Proof.
  rewrite zget_Some_lookup, list_lookup_fmap. split.
  - intros [Hi (y & Hy & ->)%fmap_Some]. unfold zrange in Hy. rewrite list_lookup_fmap in Hy.
    apply fmap_Some in Hy as (q & Hq%lookup_seq & ->). split; [lia|]. f_equal. lia.
  - intros [Hi ->]. split; [lia|]. unfold zrange. rewrite list_lookup_fmap, lookup_seq_lt by lia.
    cbn. do 2 f_equal. lia.
Qed.

(** ** Opening ends *)

Lemma open_ends_made row target l x x' :
  open_ends row target l x = inl x' -> ends_made true x row (fun j => inl (target j)) l x'.
Proof.
  apply (loop_ok (ends_made true x row (fun j => inl (target j)))); [apply ends_made_none|].
  intros pre j y y' Hy (nm & Hnm%idx_inl & (z & Ez & [= <-])%res_bind_inl)%res_bind_inl.
  by apply (make_end_made true x row (fun j => inl (target j)) pre j nm y z).
Qed.

Lemma open_end_made nm target x x' :
  open_end nm target x = inl x' -> ends_made true x [nm] (fun _ => inl target) [0] x'.
Proof.
  intros (z & Ez & [= <-])%res_bind_inl.
  apply (make_end_made true x [nm] (fun _ => inl target) [] 0 nm x z); [done|apply ends_made_none|done].
Qed.

Section wires.
Variable k : nat.
Implicit Types (cfg : config) (gg : group) (e : Name) (x : Net).

(** What the tests do. *)
Inductive hstep cfg : config -> Prop :=
  | h_start gi i names mnames srv cfg' :
      StartServer gi i names mnames srv cfg = inl cfg' -> hstep cfg cfg'
  | h_shutdown gi i cfg' : ShutdownServer gi i cfg = inl cfg' -> hstep cfg cfg'
  | h_client_end nm server cfg' : client_end nm server cfg = inl cfg' -> hstep cfg cfg'
  | h_client ck names cfg' : makeClient ck names cfg = inl cfg' -> hstep cfg cfg'
  | h_delete ck : hstep cfg (deleteClient ck cfg).

Inductive harness : config -> Prop :=
  | h_make unreliable maxraft cnames csrvs cknames names mnames srvs cfg :
      make_config k unreliable maxraft cnames csrvs cknames names mnames srvs = inl cfg -> harness cfg
  | h_step cfg cfg' : harness cfg -> hstep cfg cfg' -> harness cfg'.

Definition group_is cfg (gi : Z) gg : Prop := zget (groups cfg) gi = Some (Some gg).

Lemma group_at_inl gi cfg gg : group_at gi cfg = inl gg -> group_is cfg gi gg.
Proof.
  unfold group_at. intros (g & Hg%idx_inl & E)%res_bind_inl. destruct g; [|done].
  injection E as <-. done.
Qed.

Definition runs cfg (gi i : Z) : bool :=
  match zget (groups cfg) gi with
  | Some (Some gg) => default false (zget (servers gg) i)
  | _ => false
  end.

(** [e] is a present end of server [i] of a group, for the server named [t]. *)
Definition owns gg (i : Z) (t : string) e : Prop :=
  (exists j, named (endnames gg) i j e /\ t = servername (gid gg) j) \/
  (exists j, named (mendnames gg) i j e /\ t = ctrlername j).
Definition owned cfg (gi i : Z) (t : string) e : Prop := exists gg, group_is cfg gi gg /\ owns gg i t e.

(** [stray e t]: the end [e] was made for the server named [t] and is recorded nowhere. *)
Section strays.
Variable stray : Name -> string -> Prop.

Record wired cfg : Prop := {
  w_n : n cfg = k;
  w_group gi gg : group_is cfg gi gg -> gid gg = 100 + gi /\ length (servers gg) = k /\
    length (endnames gg) = k /\
    (forall i row, zget (endnames gg) i = Some (Some row) -> length row = k) /\
    forall i row, zget (mendnames gg) i = Some (Some row) -> length row = nctrlers cfg;
  w_owned gi i t e : owned cfg gi i t e ->
    e ∈ ends (net cfg) /\ connection e (net cfg) = Some (inl t) /\ isEnabled e (net cfg) = runs cfg gi i;
  w_inj gi i t gi' i' t' e : owned cfg gi i t e -> owned cfg gi' i' t' e -> gi = gi' /\ i = i';
  w_server gi i : 0 <= gi -> 0 <= i ->
    (is_Some (serverAt (inl (servername (100 + gi) i)) (net cfg)) <-> runs cfg gi i = true);
  w_ctrl i : 0 <= i < Z.of_nat (nctrlers cfg) -> is_Some (serverAt (inl (ctrlername i)) (net cfg));
  w_stray e t : stray e t ->
    e ∈ ends (net cfg) /\ connection e (net cfg) = Some (inl t) /\ isEnabled e (net cfg) = true /\
    forall gi i t', ~ owned cfg gi i t' e;
}.

(** Opening ends that nobody owns. *)
Lemma wired_opened cfg x :
  wired cfg -> LabRPC.servers x = LabRPC.servers (net cfg) ->
  (forall e, e ∈ ends (net cfg) -> e ∈ ends x /\
     connection e x = connection e (net cfg) /\ isEnabled e x = isEnabled e (net cfg)) ->
  wired (with_net x cfg).
Proof.
  intros [] Es Eold. split; try done; cbn.
  - intros gi i t e Ho. destruct (w_owned0 gi i t e Ho) as (He & Hc & Hen).
    by destruct (Eold e He) as (? & -> & ->).
  - unfold serverAt in *. by rewrite Es.
  - unfold serverAt in *. by rewrite Es.
  - intros e t Ht. destruct (w_stray0 e t Ht) as (He & Hc & Hen & Hno).
    by destruct (Eold e He) as (? & -> & ->).
Qed.

(** What [wired] looks at. *)
Lemma shard_wired_same cfg cfg' :
  n cfg' = n cfg -> groups cfg' = groups cfg -> nctrlers cfg' = nctrlers cfg ->
  net cfg' = net cfg -> wired cfg -> wired cfg'.
Proof.
  intros E1 E2 E3 E4 Hw. destruct cfg, cfg'. cbn in *. subst. destruct Hw. by split.
Qed.

Lemma client_end_wired nm server cfg cfg' :
  wired cfg -> client_end nm server cfg = inl cfg' -> wired cfg'.
Proof.
  intros Hw (x & [Es _ _ Eold _]%open_end_made & [= <-])%res_bind_inl. by apply wired_opened.
Qed.

Lemma shard_makeClient_wired ck names cfg cfg' :
  wired cfg -> makeClient ck names cfg = inl cfg' -> wired cfg'.
Proof.
  intros Hw. unfold makeClient. intros ([es x] & E & [= <-])%res_bind_inl.
  eapply (loop_ok (fun _ st => wired (with_net st.2 cfg))) in E; [|by destruct cfg|].
  - cbn in E. by eapply shard_wired_same; [..|exact E].
  - intros pre j [es1 y] s' Hy (es2 & _ & (y' & [Es _ _ Eold _]%open_end_made & [= <-])%res_bind_inl)%res_bind_inl.
    cbn in *. by apply (wired_opened _ y') in Hy.
Qed.

(** ** Shutdown *)

Lemma runs_group cfg gi gg i : group_is cfg gi gg -> runs cfg gi i = default false (zget (servers gg) i).
Proof. unfold runs. by intros ->. Qed.

(** One group is replaced. *)
Lemma set_group_inl gi gg x cfg cfg' :
  set_group gi gg x cfg = inl cfg' ->
  0 <= gi /\ (forall gj gg', group_is cfg' gj gg' <-> (gj = gi /\ gg' = gg) \/ (gj <> gi /\ group_is cfg gj gg')) /\
  (forall gj i, runs cfg' gj i = if decide (gj = gi) then default false (zget (servers gg) i) else runs cfg gj i) /\
  n cfg' = n cfg /\ nctrlers cfg' = nctrlers cfg /\ net cfg' = x.
Proof.
  unfold set_group. intros (gs & [Hi ->]%upd_inl & [= <-])%res_bind_inl. split; [lia|].
  unfold group_is, runs. cbn. unfold zlen in Hi. split; [|split; [|done]].
  - intros gj gg'. rewrite zget_insert. destruct (decide (gj = gi)) as [->|Hne].
    + rewrite decide_True by lia. naive_solver.
    + rewrite decide_False by lia. naive_solver.
  - intros gj i. rewrite zget_insert. destruct (decide (gj = gi)) as [->|Hne].
    + by rewrite decide_True by lia.
    + by rewrite decide_False by lia.
Qed.

(** All the names of a row. *)
Lemma named_row names i e row :
  zget names i = Some row ->
  ((exists nm, nm ∈ default [] row /\ e = inl nm) <-> exists j, named names i j e).
Proof.
  intros Hr. split.
  - intros (nm & [p Hp]%list_elem_of_lookup & ->). destruct row as [row|]; [|done].
    exists (Z.of_nat p), row, nm. split; [done|]. split; [|done].
    apply zget_Some_lookup. rewrite Nat2Z.id. split; [lia|done].
  - intros (j & row' & nm & Hr' & Hj & ->). rewrite Hr in Hr'. injection Hr' as ->.
    exists nm. split; [|done]. apply zget_Some_lookup in Hj as [_ Hj]. by eapply list_elem_of_lookup_2.
Qed.

(** The ends of server [i] of the group are switched off. *)
Lemma shutdown_switched gg i row x x1 x2 :
  length (servers gg) = k ->
  (forall row, zget (endnames gg) i = Some (Some row) -> length row = k) ->
  loop (fun j x => Enable_end (endnames gg) i j false x) (zrange (length (servers gg))) x = inl x1 ->
  zget (mendnames gg) i = Some row ->
  loop (fun nm x => inl (Enable (inl nm) false x)) (default [] row) x1 = inl x2 ->
  switched (fun e => exists t, owns gg i t e) false x x2.
Proof.
  intros Hk Hrow E1 Hm E2.
  eapply loop_switched in E1; [|intros j y y'; apply Enable_end_switched].
  eapply (loop_switched _ (fun nm e => e = inl nm)) in E2;
    [|intros nm y y' [= <-]; apply Enable_switched].
  eapply switched_or; [|exact E1|exact E2]. intros e. setoid_rewrite (named_row _ _ _ _ Hm). split.
  - intros [t [(j & Hn & _)|(j & Hn & _)]]; [left|right; by exists j].
    exists j. split; [|done]. destruct Hn as (r & nm & Hr & Hj & _).
    apply Hrow in Hr. apply zget_Some_lt in Hj. apply elem_of_zrange. unfold zlen in Hj. lia.
  - intros [(j & _ & Hn)|(j & Hn)]; [exists (servername (gid gg) j); left; by exists j|].
    exists (ctrlername j). right. by exists j.
Qed.

Lemma shard_ShutdownServer_wired gi i cfg cfg' :
  wired cfg -> ShutdownServer gi i cfg = inl cfg' -> wired cfg' /\ runs cfg' gi i = false.
Proof.
  intros Hw. unfold ShutdownServer.
  intros (gg & Hg%group_at_inl & (x1 & E1 & (row & Hm%idx_inl & (x2 & E2 & (fs & _ & (live & Hlive%idx_inl &
    (l & El & Es)%res_bind_inl)%res_bind_inl)%res_bind_inl)%res_bind_inl)%res_bind_inl)%res_bind_inl)%res_bind_inl.
  destruct (w_group _ Hw gi gg Hg) as (Hgid & Hls & Hle & Hrow & Hmrow).
  destruct (shutdown_switched _ _ _ _ _ _ Hls (Hrow i) E1 Hm E2) as [[Ee Ec Ev] S].
  assert (l = <[Z.to_nat i := false]> (servers gg)) as ->.
  { destruct live; [by apply upd_inl in El as [_ ->]|]. injection El as <-. symmetry.
    apply list_insert_id. by apply zget_Some_lookup in Hlive as [_ ?]. }
  apply zget_Some_lt in Hlive. unfold zlen in Hlive.
  set (g' := {| gid := _ |}) in Es. destruct (set_group_inl _ _ _ _ _ Es) as (Hgi & Hgs & Hruns & En & Ecs & Enet).
  assert (forall gj j t e, owned cfg' gj j t e <-> owned cfg gj j t e) as Ho.
  { intros gj j t e. unfold owned. setoid_rewrite Hgs. split.
    - intros (gg' & [[-> ->]|[_ H]] & Ho); [exists gg|exists gg']; done.
    - intros (gg' & H & Ho). destruct (decide (gj = gi)) as [->|Hne]; [|exists gg'; auto].
      unfold group_is in *. rewrite Hg in H. injection H as <-. exists g'. auto. }
  assert (forall gj j, runs cfg' gj j = if decide (gj = gi /\ j = i) then false else runs cfg gj j) as Hr.
  { intros gj j. rewrite Hruns. destruct (decide (gj = gi)) as [->|Hne]; [|by rewrite decide_False by tauto].
    rewrite (runs_group _ _ _ _ Hg). cbn. rewrite zget_insert.
    destruct (decide (j = i)) as [->|Hne]; [by rewrite !decide_True by lia|by rewrite !decide_False by lia]. }
  split; [|by rewrite Hr, decide_True].
  split.
  - rewrite En. apply Hw.
  - intros gj gg' [[-> ->]|[_ H]]%Hgs; rewrite Ecs; [|by eapply w_group]. cbn. by rewrite length_insert.
  - intros gj j t e Hoe%Ho. rewrite Enet, Hr. destruct (w_owned _ Hw _ _ _ _ Hoe) as (He & Hc & Hen).
    unfold connection. cbn. rewrite Ee, Ec. split; [done|]. split; [done|].
    change (isEnabled e x2 = if decide (gj = gi /\ j = i) then false else runs cfg gj j).
    destruct (S e) as [[(t' & Ht) ->]|[Hno ->]].
    + assert (owned cfg gi i t' e) as Hoi by (by exists gg).
      destruct (w_inj _ Hw _ _ _ _ _ _ _ Hoe Hoi). by rewrite decide_True.
    + rewrite decide_False; [done|]. intros [-> ->]. apply Hno. destruct Hoe as (gg' & Hg' & Ht).
      unfold group_is in *. rewrite Hg in Hg'. injection Hg' as <-. by exists t.
  - intros gj j t gj' j' t' e H1%Ho H2%Ho. by eapply w_inj.
  - intros gj j Hgj Hj. rewrite Enet, Hr, Hgid. unfold serverAt. cbn. rewrite Ev.
    destruct (decide (gj = gi /\ j = i)) as [[-> ->]|Hne].
    + rewrite lookup_insert_eq. cbn. split; [by intros []|done].
    + rewrite lookup_insert_ne; [by apply (w_server _ Hw)|]. intros E%(inj inl)%servername_inj; lia.
  - intros j Hj. rewrite Ecs in Hj. apply (w_ctrl _ Hw) in Hj. rewrite Enet. unfold serverAt in *. cbn.
    rewrite Ev, lookup_insert_ne; [done|]. intros E%(inj inl). by apply servername_ctrlername in E.
  - intros e t Ht. rewrite Enet. destruct (w_stray _ Hw _ _ Ht) as (He & Hc & Hen & Hno).
    unfold connection. cbn. rewrite Ee, Ec. split; [done|]. split; [done|]. split; [|by intros gj j t' ?%Ho%Hno].
    change (isEnabled e x2 = true). destruct (S e) as [[(t' & Ho') _]|[_ ->]]; [|done].
    destruct (Hno gi i t'). by exists gg.
Qed.

(** ** Start *)

(** The new ends of a server: those for its group, then those for the controllers. *)
Lemma fresh_ends gg i names mnames (m : nat) es ms x0 x1 x2 t e :
  0 <= i < zlen (endnames gg) -> 0 <= i < zlen (mendnames gg) ->
  es = <[Z.to_nat i := Some (names <$> zrange k)]> (endnames gg) ->
  ms = <[Z.to_nat i := Some (mnames <$> zrange m)]> (mendnames gg) ->
  open_ends (names <$> zrange k) (servername (gid gg)) (zrange k) x0 = inl x1 ->
  open_ends (mnames <$> zrange m) ctrlername (zrange m) x1 = inl x2 ->
  owns {| gid := gid gg; servers := servers gg; files := files gg; endnames := es; mendnames := ms |} i t e ->
  e ∈ ends x2 /\ e ∉ ends x0 /\ connection e x2 = Some (inl t) /\ isEnabled e x2 = true.
Proof.
  intros Hi Hmi -> -> [_ New1 _ Old1 _]%open_ends_made [_ New2 _ Old2 _]%open_ends_made Ho.
  assert (forall (f : Z -> string) m j nm, zget (f <$> zrange m) j = Some nm -> j ∈ zrange m) as Hin.
  { intros f m' j nm H%zget_Some_lt. unfold zlen in H. rewrite length_fmap, length_zrange in H.
    by apply elem_of_zrange. }
  destruct Ho as [(j & Hn & ->)|(j & Hn & ->)]; cbn in Hn;
    apply named_replaced in Hn as [(_ & nm & Hnm & ->)|[? _]]; try done; pose proof (Hin _ _ _ _ Hnm) as Hj.
  - destruct (New1 j nm Hj Hnm) as (He & Hno & Hc & Hen). destruct (Old2 _ He) as (He' & -> & ->). done.
  - destruct (New2 j nm Hj Hnm) as (He & Hno & Hc & Hen). split_and!; [done| |done|done].
    intros H. by apply Hno, (Old1 _ H).
Qed.

Lemma shard_StartServer_wired gi i names mnames srv cfg cfg' :
  wired cfg -> StartServer gi i names mnames srv cfg = inl cfg' -> wired cfg'.
Proof.
  intros Hw. unfold StartServer. rewrite (w_n _ Hw).
  intros (gg & Hg%group_at_inl & (es & [Hi Ees]%upd_inl & (x1 & E1 & (ms & [Hmi Ems]%upd_inl & (x2 & E2 &
    (p & _ & (fs & _ & (l & [Hl ->]%upd_inl & Es)%res_bind_inl)%res_bind_inl)%res_bind_inl)%res_bind_inl)%res_bind_inl)%res_bind_inl)%res_bind_inl)%res_bind_inl.
  destruct (w_group _ Hw gi gg Hg) as (Hgid & Hls & Hle & Hrow & Hmrow).
  pose proof (fun t e => fresh_ends _ _ _ _ _ _ _ _ _ _ t e Hi Hmi Ees Ems E1 E2) as Hnew.
  apply open_ends_made in E1 as [Ev1 _ _ Old1 _], E2 as [Ev2 _ _ Old2 _].
  set (g' := {| gid := _ |}) in Es. destruct (set_group_inl _ _ _ _ _ Es) as (Hgi & Hgs & Hruns & En & Ecs & Enet).
  assert (forall gj j t e, owned cfg' gj j t e ->
    (gj = gi /\ j = i /\ owns g' i t e) \/ (~ (gj = gi /\ j = i) /\ owned cfg gj j t e)) as Ho.
  { intros gj j t e (gg' & [[-> ->]|[Hne H]]%Hgs & Ho).
    - destruct (decide (j = i)) as [->|Hji]; [by left|right]. split; [tauto|]. exists gg. split; [done|].
      unfold owns in *. cbn in Ho. rewrite Ees, Ems in Ho.
      destruct Ho as [(b & [[? _]|[_ Hn]]%named_replaced & ->)|(b & [[? _]|[_ Hn]]%named_replaced & ->)];
        try done; [left|right]; by exists b.
    - right. split; [tauto|]. by exists gg'. }
  assert (forall gj j, runs cfg' gj j = if decide (gj = gi /\ j = i) then true else runs cfg gj j) as Hr.
  { intros gj j. rewrite Hruns. destruct (decide (gj = gi)) as [->|Hne]; [|by rewrite decide_False by tauto].
    rewrite (runs_group _ _ _ _ Hg). cbn. rewrite zget_insert. unfold zlen in Hl.
    destruct (decide (j = i)) as [->|Hne]; [by rewrite !decide_True by lia|by rewrite !decide_False by lia]. }
  split.
  - by rewrite En, (w_n _ Hw).
  - intros gj gg' [[-> ->]|[_ H]]%Hgs; rewrite Ecs; [|by eapply w_group]. cbn. rewrite Ees, Ems, !length_insert.
    split_and!; try done; intros a row; rewrite zget_insert; (case_decide; [|by eauto]);
      intros [= <-]; by rewrite length_fmap, length_zrange.
  - intros gj j t e Hoe. rewrite Enet, Hr. unfold connection, isEnabled. cbn.
    fold (connection e x2) (isEnabled e x2).
    destruct (Ho _ _ _ _ Hoe) as [(-> & -> & Hn)|[Hne Hoe']].
    + rewrite decide_True by done. by destruct (Hnew t e Hn) as (? & _ & ? & ?).
    + rewrite decide_False by done. destruct (w_owned _ Hw _ _ _ _ Hoe') as (He & Hc & Hen).
      destruct (Old1 _ He) as (He1 & Hc1 & Hen1). destruct (Old2 _ He1) as (He2 & -> & ->).
      by rewrite Hc1, Hen1.
  - intros gj j t gj' j' t' e [(-> & -> & Hn)|[_ H1]]%Ho [(-> & -> & Hn')|[_ H2]]%Ho; [done|..].
    + destruct (Hnew _ _ Hn) as (_ & Hno & _). by destruct (w_owned _ Hw _ _ _ _ H2) as [? _].
    + destruct (Hnew _ _ Hn') as (_ & Hno & _). by destruct (w_owned _ Hw _ _ _ _ H1) as [? _].
    + by eapply w_inj.
  - intros gj j Hgj Hj. rewrite Enet, Hr, Hgid. unfold serverAt. cbn. rewrite Ev2, Ev1.
    destruct (decide (gj = gi /\ j = i)) as [[-> ->]|Hne].
    + rewrite lookup_insert_eq. cbn. split; [done|by eexists].
    + rewrite lookup_insert_ne; [by apply (w_server _ Hw)|]. intros E%(inj inl)%servername_inj; lia.
  - intros j Hj. rewrite Ecs in Hj. apply (w_ctrl _ Hw) in Hj. rewrite Enet. unfold serverAt in *. cbn.
    rewrite Ev2, Ev1, lookup_insert_ne; [done|]. intros E%(inj inl). by apply servername_ctrlername in E.
  - intros e t Ht. rewrite Enet. destruct (w_stray _ Hw _ _ Ht) as (He & Hc & Hen & Hno).
    destruct (Old1 _ He) as (He1 & Hc1 & Hen1). destruct (Old2 _ He1) as (He2 & Hc2 & Hen2).
    unfold connection, isEnabled in *. cbn. rewrite Hc2, Hen2, Hc1, Hen1. split_and!; [done..|].
    intros gj j t' [(-> & -> & Hn)|[_ Hoe]]%Ho; [by destruct (Hnew _ _ Hn) as (_ & ? & _)|by eapply Hno].
Qed.

(** ** The controllers and the groups *)

(** Before there are groups: the controllers in [up] are there, no other servers are. *)
Record ctrlers_only cfg (up : list Z) : Prop := {
  co_nctrlers : nctrlers cfg = 3%nat;
  co_servers gi i : serverAt (inl (servername gi i)) (net cfg) = None;
  co_up i : i ∈ up -> is_Some (serverAt (inl (ctrlername i)) (net cfg));
}.

Lemma StartCtrlerserver_only i names srv up cfg cfg' :
  ctrlers_only cfg up -> StartCtrlerserver i names srv cfg = inl cfg' -> ctrlers_only cfg' (up ++ [i]).
Proof.
  intros [Hn Hs Hu] (x & [Ev _ _ _ _]%open_ends_made & (l & _ & [= <-])%res_bind_inl)%res_bind_inl.
  unfold serverAt in *. split; [done|..]; unfold serverAt; cbn; rewrite Ev.
  - intros gi j. rewrite lookup_insert_ne; [done|]. intros E%(inj inl). symmetry in E.
    by apply servername_ctrlername in E.
  - intros j [Hj| ->%list_elem_of_singleton]%elem_of_app; [|rewrite lookup_insert_eq; by eexists].
    destruct (decide (ctrlername i = ctrlername j)) as [->|Hne]; [rewrite lookup_insert_eq; by eexists|].
    rewrite lookup_insert_ne by congruence. by apply Hu.
Qed.

(** The groups from [m] on are not there yet. *)
Definition empty_from cfg (m : Z) : Prop := forall gi, m <= gi -> forall gg, ~ group_is cfg gi gg.

Lemma empty_runs cfg m gi i : empty_from cfg m -> m <= gi -> runs cfg gi i = false.
Proof.
  intros He Hm. unfold runs. destruct (zget (groups cfg) gi) as [[gg|]|] eqn:E; [|done..].
  by destruct (He gi Hm gg).
Qed.

(** A group without servers. *)
Lemma new_group_wired gi cfg cfg' :
  wired cfg -> empty_from cfg gi ->
  set_group gi {| gid := 100 + gi; servers := replicate (n cfg) false; files := no_files (n cfg);
    endnames := replicate (n cfg) None; mendnames := replicate (nctrlers cfg) None |} (net cfg) cfg = inl cfg' ->
  wired cfg' /\ empty_from cfg' (gi + 1).
Proof.
  intros Hw He Es. destruct (set_group_inl _ _ _ _ _ Es) as (Hgi & Hgs & Hruns & En & Ecs & Enet).
  assert (forall A (x : A) m i y, zget (replicate m x) i = Some y -> y = x) as Hrep
    by (intros A x m i y [_ [? _]%lookup_replicate_1]%zget_Some_lookup; done).
  assert (forall gj j t e, owned cfg' gj j t e -> owned cfg gj j t e) as Ho.
  { intros gj j t e (gg & [[-> ->]|[_ H]]%Hgs & Ho); [|by exists gg].
    destruct Ho as [(b & (row & nm & ?%Hrep & _) & _)|(b & (row & nm & ?%Hrep & _) & _)]; done. }
  assert (forall gj j, runs cfg' gj j = runs cfg gj j) as Hr.
  { intros gj j. rewrite Hruns. case_decide as Hg; [|done]. subst.
    rewrite (empty_runs cfg gi gi j) by (done || lia). cbn.
    destruct (zget (replicate (n cfg) false) j) eqn:E; [by apply Hrep in E as ->|done]. }
  split; [split|].
  - by rewrite En, (w_n _ Hw).
  - intros gj gg [[-> ->]|[_ H]]%Hgs; rewrite Ecs; [|by eapply w_group]. cbn.
    rewrite !length_replicate, (w_n _ Hw). split_and!; try done; by intros a row ?%Hrep.
  - intros gj j t e Hoe%Ho. rewrite Enet, Hr. by apply (w_owned _ Hw).
  - intros gj j t gj' j' t' e H1%Ho H2%Ho. by eapply w_inj.
  - intros gj j Hgj Hj. rewrite Enet, Hr. by apply (w_server _ Hw).
  - intros j Hj. rewrite Ecs in Hj. rewrite Enet. by apply (w_ctrl _ Hw).
  - intros e t Ht. rewrite Enet. destruct (w_stray _ Hw _ _ Ht) as (? & ? & ? & Hno).
    split_and!; [done..|]. by intros gj j t' ?%Ho%Hno.
  - intros gj Hgj gg [[-> _]|[_ H]]%Hgs; [lia|]. apply (He gj ltac:(lia) gg H).
Qed.

Lemma StartServer_empty gi i names mnames srv cfg cfg' m :
  gi < m -> empty_from cfg m -> StartServer gi i names mnames srv cfg = inl cfg' -> empty_from cfg' m.
Proof.
  intros Hm He. unfold StartServer. intros H. do 8 (apply res_bind_inl in H as (? & _ & H)).
  destruct (set_group_inl _ _ _ _ _ H) as (_ & Hgs & _).
  intros gj Hgj gg [[-> _]|[_ Hg]]%Hgs; [lia|]. by apply (He gj Hgj gg).
Qed.

Lemma make_group_wired names mnames srvs gi cfg cfg' :
  wired cfg -> empty_from cfg gi -> make_group names mnames srvs gi cfg = inl cfg' ->
  wired cfg' /\ empty_from cfg' (gi + 1).
Proof.
  intros Hw He (c1 & E1 & E2)%res_bind_inl. destruct (new_group_wired _ _ _ Hw He E1) as [Hw1 He1].
  revert E2. apply (loop_ok (fun _ c => wired c /\ empty_from c (gi + 1))); [done|].
  intros pre i c c' [Hc Hce] E. split; [by eapply shard_StartServer_wired|].
  eapply StartServer_empty; [|exact Hce|exact E]. lia.
Qed.

Lemma hstep_wired cfg cfg' : hstep cfg cfg' -> wired cfg -> wired cfg'.
Proof.
  destruct 1; intros Hw.
  - by eapply shard_StartServer_wired.
  - by eapply shard_ShutdownServer_wired.
  - by eapply client_end_wired.
  - by eapply shard_makeClient_wired.
  - by eapply (shard_wired_same cfg).
Qed.
End strays.

Lemma shard_make_config_wired unreliable maxraft cnames csrvs cknames names mnames srvs cfg :
  make_config k unreliable maxraft cnames csrvs cknames names mnames srvs = inl cfg -> wired (fun _ _ => False) cfg.
Proof.
  unfold make_config. set (c0 := Build_config _ _ _ _ _ _ _ _ _ _). change (zrange (nctrlers c0)) with [0; 1; 2].
  intros (c1 & E1 & ([x row] & (y & [Ev _ _ _ _]%open_ends_made & [= -> <-])%res_bind_inl &
    (c2 & E2 & [= <-])%res_bind_inl)%res_bind_inl)%res_bind_inl.
  apply (loop_ok (fun pre c => ctrlers_only c pre)) in E1 as [Hn Hs Hu].
  2:{ split; [done|done|]. by intros i ?%not_elem_of_nil. }
  2:{ intros pre i c c' Hc E. by eapply StartCtrlerserver_only. }
  set (c1' := with_groups _ _ _ _ _) in *.
  assert (forall gi gg, ~ group_is c1' gi gg) as Hno.
  { intros gi gg H. apply zget_Some_lookup in H as [_ [? _]%(lookup_replicate_1 3)]. done. }
  assert (wired (fun _ _ => False) c1') as Hw1.
  { split; try done; unfold serverAt in *; cbn.
    - by intros gi gg ?%Hno.
    - by intros gi i t e (gg & ?%Hno & _).
    - by intros gi i t gi' i' t' e (gg & ?%Hno & _).
    - intros gi i Hgi Hi. rewrite Ev, Hs, (empty_runs c1' 0 gi i) by (done || intros gj _; apply Hno).
      split; [by intros []|done].
    - intros i Hi. rewrite Ev. apply Hu. rewrite Hn in Hi. rewrite !elem_of_cons. lia. }
  change (zrange (ngroups c1')) with [0; 1; 2] in E2. cbn [loop] in E2.
  apply res_bind_inl in E2 as (g1 & G1 & E2). apply res_bind_inl in E2 as (g2 & G2 & E2).
  apply res_bind_inl in E2 as (g3 & G3 & [= <-]).
  apply (make_group_wired (fun _ _ => False)) in G1 as [W1 N1]; [|done|by intros gj _; apply Hno].
  apply (make_group_wired (fun _ _ => False)) in G2 as [W2 N2]; [|done|done].
  apply (make_group_wired (fun _ _ => False)) in G3 as [W3 N3]; [|done|done].
  destruct W3. by split.
Qed.

Lemma shard_harness_wired cfg : harness cfg -> wired (fun _ _ => False) cfg.
Proof. induction 1; [by eapply shard_make_config_wired|by eapply hstep_wired]. Qed.

(** An end that a server or clerk makes belongs to nobody. *)
Lemma client_end_stray nm target cfg cfg' :
  wired (fun _ _ => False) cfg -> client_end nm target cfg = inl cfg' ->
  wired (fun e t => e = inl nm /\ t = target) cfg'.
Proof.
  intros Hw E. pose proof (client_end_wired _ _ _ _ _ Hw E) as Hw'.
  apply res_bind_inl in E as (x & Eo & [= <-]). apply open_end_made in Eo as [_ New _ _ _].
  destruct (New 0 nm) as (He & Hno & Hc & Hen); [by left|done|].
  split; try apply Hw'. intros e t [-> ->]. split_and!; [done..|]. intros gi i t' Ho.
  apply Hno. by destruct (w_owned _ _ Hw _ _ _ _ Ho).
Qed.

(** ** Groups that join and leave *)

Definition present cfg (gis : list Z) : Prop := forall g, g ∈ gis -> exists gg, group_is cfg g gg.

Lemma joinm_spec cfg gis : present cfg gis ->
  exists m, joinm gis cfg = inl m /\ forall q names, m !! q = Some names <->
    exists g gg, g ∈ gis /\ group_is cfg g gg /\ q = gid gg /\ names = servername (gid gg) <$> zrange (n cfg).
Proof.
  intros Hp. unfold joinm.
  assert (exists m, loop (fun g m => gg ← group_at g cfg;
      inl (<[gid gg := servername (gid gg) <$> zrange (n cfg)]> m)) gis (∅ : gmap Z (list string)) = inl m) as [m Hm].
  { apply (loop_total (fun g m => gg ← group_at g cfg; inl _)). intros g m Hg. destruct (Hp g Hg) as [gg Hgg].
    unfold group_at. rewrite (idx_Some _ _ _ Hgg). cbn. by eexists. }
  exists m. split; [exact Hm|]. revert Hm.
  apply (loop_ok (fun pre (m : gmap Z (list string)) => forall q names, m !! q = Some names <->
    exists g gg, g ∈ pre /\ group_is cfg g gg /\ q = gid gg /\ names = servername (gid gg) <$> zrange (n cfg))).
  - intros q names. rewrite lookup_empty. split; [done|]. by intros (g & _ & ?%not_elem_of_nil & _).
  - intros pre g m1 m2 IH (gg & Hgg%group_at_inl & [= <-])%res_bind_inl q names.
    setoid_rewrite elem_of_app. setoid_rewrite list_elem_of_singleton. rewrite lookup_insert.
    case_decide as Hq; [subst q|rewrite IH]; split.
    + intros [= <-]. exists g, gg. auto.
    + intros (g' & gg' & _ & _ & -> & ->). done.
    + intros (g' & gg' & ? & ? & ? & ?). exists g', gg'. auto.
    + intros (g' & gg' & [?| ->] & Hg' & ? & ?); [by exists g', gg'|]. unfold group_is in *. congruence.
Qed.

Lemma leavem_spec cfg gis : present cfg gis ->
  exists gids, leavem gis cfg = inl gids /\
    Forall2 (fun g q => exists gg, group_is cfg g gg /\ q = gid gg) gis gids.
Proof.
  intros Hp. unfold leavem.
  assert (exists l, loop (fun g gids => gg ← group_at g cfg; inl (gids ++ [gid gg])) gis [] = inl l) as [l Hl].
  { apply (loop_total (fun g gids => gg ← group_at g cfg; inl _)). intros g m Hg. destruct (Hp g Hg) as [gg Hgg].
    unfold group_at. rewrite (idx_Some _ _ _ Hgg). cbn. by eexists. }
  exists l. split; [exact Hl|]. revert Hl.
  apply (loop_ok (fun pre gids => Forall2 (fun g q => exists gg, group_is cfg g gg /\ q = gid gg) pre gids)); [done|].
  intros pre g l1 l2 IH (gg & Hgg%group_at_inl & [= <-])%res_bind_inl. apply Forall2_app; [done|].
  constructor; [by exists gg|done].
Qed.

(** C24: whom the harness of the sharded store lets through.  In every configuration that
    [make_config], restarts, shutdowns and clerks lead to, a request on one of the ends
    recorded for a server (endnames, mendnames) gets through exactly if that server runs
    and the one it is for runs - a server of the same group, or a controller, which always
    runs; so [ShutdownServer] cuts off both its group and the controllers.  But an end
    that a server or clerk made with [make_end] stays on for good, whoever is shut down: a
    request on it gets through as long as the server it is for runs.  The argument that
    [joinm] gives to Join has exactly the groups of [gis], each with one name per server,
    and there is a server of that name in the network exactly if it runs; [leavem] gives
    their gids to Leave. *)
Theorem sharded_harness_isolates cfg gi gg i j e gis :
  harness cfg -> group_is cfg gi gg -> present cfg gis ->
  (named (endnames gg) i j e -> (reaches (net cfg) e <-> runs cfg gi i = true /\ runs cfg gi j = true)) /\
  (named (mendnames gg) i j e -> (reaches (net cfg) e <-> runs cfg gi i = true)) /\
  (forall cfg0 cfg1 nm, harness cfg0 -> client_end nm (servername (gid gg) j) cfg0 = inl cfg1 ->
     rtc hstep cfg1 cfg -> 0 <= j -> (reaches (net cfg) (inl nm) <-> runs cfg gi j = true)) /\
  (exists m, joinm gis cfg = inl m /\
     (forall q, is_Some (m !! q) <-> exists g gg', g ∈ gis /\ group_is cfg g gg' /\ q = gid gg') /\
     forall g gg' names, group_is cfg g gg' -> m !! gid gg' = Some names ->
       length names = k /\
       forall b nm, zget names b = Some nm -> (is_Some (serverAt (inl nm) (net cfg)) <-> runs cfg g b = true)) /\
  exists gids, leavem gis cfg = inl gids /\
    Forall2 (fun g q => exists gg', group_is cfg g gg' /\ q = gid gg') gis gids.
Proof.
  intros Hh Hg Hgis. pose proof (shard_harness_wired _ Hh) as Hw.
  assert (forall g gg', group_is cfg g gg' -> 0 <= g /\ gid gg' = 100 + g) as Hgids.
  { intros g gg' Hg'. split; [by apply zget_Some_lookup in Hg' as [? _]|]. by apply (w_group _ _ Hw g gg'). }
  destruct (w_group _ _ Hw gi gg Hg) as (Hgid & Hls & Hle & Hrow & Hmrow).
  destruct (Hgids _ _ Hg) as [Hgi _]. split; [|split; [|split; [|split; [|by apply leavem_spec]]]].
  - intros Hn. assert (owned cfg gi i (servername (gid gg) j) e) as Ho
      by (exists gg; split; [done|left; by exists j]).
    destruct (w_owned _ _ Hw _ _ _ _ Ho) as (_ & Hc & Hen).
    assert (0 <= j) as Hj by (destruct Hn as (? & ? & _ & [? _]%zget_Some_lookup & _); lia).
    rewrite reaches_spec, Hen, Hc, <- (w_server _ _ Hw gi j Hgi Hj), <- Hgid. naive_solver.
  - intros Hn. assert (owned cfg gi i (ctrlername j) e) as Ho
      by (exists gg; split; [done|right; by exists j]).
    destruct (w_owned _ _ Hw _ _ _ _ Ho) as (_ & Hc & Hen).
    rewrite reaches_spec, Hen, Hc. split; [by intros []|]. intros ->. split; [done|].
    eexists. split; [done|]. apply (w_ctrl _ _ Hw). destruct Hn as (row & nm & Hr & Hj & _).
    rewrite <- (Hmrow _ _ Hr). apply zget_Some_lt in Hj. exact Hj.
  - intros cfg0 cfg1 nm H0 E Hs Hj.
    pose proof (client_end_stray _ _ _ _ (shard_harness_wired _ H0) E) as Hw1.
    assert (wired (fun e t => e = inl nm /\ t = servername (gid gg) j) cfg) as Hw2.
    { clear -Hs Hw1. induction Hs; [done|]. apply IHHs. by eapply hstep_wired. }
    destruct (w_stray _ _ Hw2 (inl nm) _ (conj eq_refl eq_refl)) as (_ & Hc & Hen & _).
    rewrite reaches_spec, Hen, Hc, <- (w_server _ _ Hw gi j Hgi Hj), <- Hgid. naive_solver.
  - destruct (joinm_spec cfg gis Hgis) as (m & Em & Hm). exists m. split; [exact Em|]. split.
    + intros q. split.
      * intros [names (g & gg' & ? & ? & ? & _)%Hm]. by exists g, gg'.
      * intros (g & gg' & ? & ? & ->). eexists. apply Hm. by exists g, gg'.
    + intros g gg' names Hg' (g2 & gg2 & _ & Hg2 & Eq & ->)%Hm.
      destruct (Hgids _ _ Hg') as [Hge E1], (Hgids _ _ Hg2) as [_ E2].
      assert (g2 = g) as -> by lia. split; [by rewrite length_fmap, length_zrange, (w_n _ _ Hw)|].
      intros b nm Hb. rewrite zget_fmap_zrange in Hb. destruct Hb as [Hb ->].
      rewrite E2. apply (w_server _ _ Hw); lia.
Qed.
End wires.

(** Two servers per group, of which server 1 of group 0 is shut down. *)
Module Shut.
Definition name (c : Z) : string := String.String (Ascii.ascii_of_nat (Z.to_nat c)) EmptyString.
Definition make (k : nat) : Res config :=
  make_config k false 1000 (fun i j => name (3 * i + j)) Z.to_nat (fun j => name (9 + j))
    (fun gi i j => name (12 + 16 * gi + 4 * i + j)) (fun gi i j => name (60 + 16 * gi + 4 * i + j))
    (fun gi i => Z.to_nat (3 + 4 * gi + i)).

(** Server 1 of group 0 makes an end to server 0 of the same group before it is shut down. *)
Lemma down : exists cfg0 cfg1 cfg gg,
  harness 2 cfg0 /\ client_end (name 130) (servername 100 0) cfg0 = inl cfg1 /\ rtc hstep cfg1 cfg /\
  harness 2 cfg /\ group_is cfg 0 gg /\ gid gg = 100 /\
  endnames gg = [Some [name 12; name 13]; Some [name 16; name 17]] /\
  servers gg = [true; false] /\ present cfg [0; 0].
Proof.
  assert (match c0 ← make 2; c1 ← client_end (name 130) (servername 100 0) c0; ShutdownServer 0 1 c1 with
          | inl cfg => match zget (groups cfg) 0 with
                       | Some (Some gg) => (endnames gg, servers gg, gid gg)
                       | _ => ([], [], 0)
                       end
          | inr _ => ([], [], 0) end
    = ([Some [name 12; name 13]; Some [name 16; name 17]], [true; false], 100))
    as E by (vm_compute; reflexivity).
  destruct (make 2) as [c0|] eqn:E0; [|discriminate E]. cbn [mbind res_bind] in E.
  destruct (client_end _ _ c0) as [c1|] eqn:E1; [|discriminate E]. cbn [mbind res_bind] in E.
  destruct (ShutdownServer 0 1 c1) as [cfg|] eqn:Es; [|discriminate E].
  destruct (zget (groups cfg) 0) as [[gg|]|] eqn:Eg; [|discriminate E..].
  injection E as Ee Ev Ei. exists c0, c1, cfg, gg.
  assert (harness 2 c0) as H0 by (by eapply h_make).
  assert (hstep c1 cfg) as Hs by (by eapply h_shutdown).
  split; [done|]. split; [done|]. split; [by apply rtc_once|].
  split; [eapply h_step; [eapply h_step; [exact H0|by eapply h_client_end]|done]|].
  split; [exact Eg|]. split_and!; [exact Ei|exact Ee|exact Ev|].
  intros g Hg. exists gg. by rewrite !elem_of_cons, elem_of_nil in Hg; destruct Hg as [->|[->|[]]].
Qed.

(** With more servers than controllers, the slice [mendnames] is too short; with fewer,
    the slice [endnames] of a clerk is. *)
Example four_servers : make 4 = inr Panic.
Proof. vm_compute. reflexivity. Qed.
Example client_of_two_servers :
  (c ← make 2; makeClient 0 (fun j => name (120 + j)) c) = inr Panic.
Proof. vm_compute. reflexivity. Qed.
End Shut.

Lemma sharded_harness_isolates_witness : exists cfg gg,
  harness 2 cfg /\ group_is cfg 0 gg /\
  reaches (net cfg) (inl (Shut.name 12)) /\ ~ reaches (net cfg) (inl (Shut.name 13)) /\
  ~ reaches (net cfg) (inl (Shut.name 16)) /\ reaches (net cfg) (inl (Shut.name 130)) /\
  exists m, joinm [0; 0] cfg = inl m /\ is_Some (m !! 100).
Proof.
  destruct Shut.down as (cfg0 & cfg1 & cfg & gg & H0 & E & Hr & Hc & Hg & Hi & He & Hs & Hp).
  exists cfg, gg. split; [done|]. split; [done|].
  assert (runs cfg 0 0 = true /\ runs cfg 0 1 = false) as [R0 R1]
    by (rewrite !(runs_group _ _ _ _ Hg), Hs; by split).
  assert (named (endnames gg) 0 0 (inl (Shut.name 12)) /\ named (endnames gg) 0 1 (inl (Shut.name 13)) /\
    named (endnames gg) 1 0 (inl (Shut.name 16))) as (N1 & N2 & N3)
    by (rewrite He; split_and!; by eexists _, _).
  split_and!.
  - apply (proj1 (sharded_harness_isolates 2 cfg 0 gg 0 0 _ [] Hc Hg ltac:(by intros g ?%not_elem_of_nil)) N1). by split.
  - intros Hx. apply (proj1 (sharded_harness_isolates 2 cfg 0 gg 0 1 _ [0; 0] Hc Hg Hp) N2) in Hx as [_ Hx]. congruence.
  - intros Hx. apply (proj1 (sharded_harness_isolates 2 cfg 0 gg 1 0 _ [0; 0] Hc Hg Hp) N3) in Hx as [Hx _]. congruence.
  - destruct (sharded_harness_isolates 2 cfg 0 gg 1 0 (inl EmptyString) [0; 0] Hc Hg Hp) as (_ & _ & H3 & _).
    apply (H3 cfg0 cfg1 (Shut.name 130)); [done|by rewrite Hi|done|done|done].
  - destruct (sharded_harness_isolates 2 cfg 0 gg 1 0 (inl EmptyString) [0; 0] Hc Hg Hp) as (_ & _ & _ & (m & Hm & Hd & _) & _).
    exists m. split; [done|]. apply Hd. exists 0, gg. split_and!; [by left|done|done].
Defined.
